(* ===== verification/_CoqProject ===== *)
-Q . S2P
Prelude.v
Bech32.v
Compact.v
Uint.v
UintProofs.v
UintDiv.v
UintTheorems.v
Crypto.v
Types.v
Consensus.v
Smt.v
Codec.v
SmtTree.v
SmtProofs.v
SmtTheorems.v
TreeDb.v
Storage.v
State.v
StateProofs.v
Chain.v
Replay.v
ChainProofs.v
PrQue.v
TxList.v
TxPool.v
TxPoolProofs.v
TxPoolTheorems.v
TxPoolExamples.v
Node.v
Peers.v
Requests.v
Sync.v
NodeLoop.v
Miner.v
Runtime.v
Machine.v
RuntimeExamples.v
Framework.v
Registry.v
RegistryExamples.v
Rlp.v
RlpProofs.v
RlpDecode.v
RlpTheorems.v
Hex.v
UintMore.v
FixedHash.v
English.v
Mnemonic.v
MnemonicProofs.v
MnemonicTheorems.v
Rpc.v
Client.v
Network.v
