(* ===== verification/Prelude.v ===== *)
(** * Odana: a verification of the node

    Odana is a proof-of-work blockchain node in Rust.  Blocks carry signed
    transactions; the accounts they change are kept in a sparse Merkle tree whose
    root each header commits to; transactions wait in a pool until a miner puts
    them in a block.  This library translates the deterministic core of the node
    into Rocq, file by file, and proves what makes it correct.

    ** The parts and how they fit

    - Text and numbers.  [Bech32] is common/bech32 (addresses as text);
      [Compact] is the compact form of targets (common/primitive-types) and the
      256-bit operations on values; [Uint] is common/uint, the integers of
      64-bit words behind them, with its theory in [UintProofs] and [UintDiv]
      (Knuth's division) and its results in [UintTheorems].  [Rlp] is common/rlp
      and its implementations for integers and hashes: the streaming encoder
      and the caching decoder; [RlpProofs] relates the encoder to the recursive
      encoding, [RlpDecode] reads it back, [RlpTheorems] has the results.
      [UintMore] has the other operations of common/uint (square root, powers
      with overflow, conversions, bits, text), [Hex] is common/hex and the serde
      implementations over it, [FixedHash] common/fixed-hash with the
      conversions and messages of common/primitive-types.  [Mnemonic] is
      common/tiny-bip39 (phrases for keys) with the list of [English]; its
      theory is in [MnemonicProofs], its results in [MnemonicTheorems].
    - Data.  [Crypto] wraps the hash functions and the signatures of crate
      crypto, which are parameters with the laws they document.  [Types] has
      networks, addresses, package names, accounts, transactions and headers
      (common/types, common/primitive-types, transaction, account).
    - Consensus.  [Consensus] is crate consensus (barossa.rs): required work,
      medians, the adjusted target, rewards, header checks.
    - The Merkle tree.  [Smt] is crate smt; [SmtTree] gives the mathematical
      trees its nodes describe, [SmtProofs] the simulation between the two,
      [SmtTheorems] the results.
    - Storage.  [Codec] has the codec interface of crate codec and its
      instances; [TreeDb] the state database of crate state (store.rs, tree.rs,
      kvdb.rs, schema.rs) over the tree; [Storage] the key-value stores of crate
      storage and the block storage of crate blockchain.
    - Execution.  [State] is crate state (lib.rs) and the order of the
      transactions of a block (crate transaction); [StateProofs] its theorems.
    - The chain.  [Chain] is [finalize] (consensus) and [ChainState] (blockchain):
      genesis, verification, acceptance on the head or on a branch, switching
      chains.  [Replay] shows that executing a block depends only on what it
      can observe; [ChainProofs] uses it for the theorems on the chain.
    - The pool.  [PrQue], [TxList] and [TxPool] are crate txpool (prque.rs;
      tx_list.rs, tx_lookup.rs, tx_noncer.rs; lib.rs, error.rs); [TxPoolProofs],
      [TxPoolTheorems] and [TxPoolExamples] its theorems.
    - Applications.  [Runtime] is runtime/vm: the host functions (env.rs) and
      the machine that creates, caches, calls and queries applications (lib.rs);
      an application is the tree of its host calls, and the entropy it draws an
      argument of the machine.  [Machine] shows what this machine observes of the
      state, and for which applications its cache does not matter.  [Framework] is
      runtime/framework and the dispatch runtime/build generates, [Registry] the
      name registry (dapps/namespace-registry); [RuntimeExamples] and
      [RegistryExamples] run them.
    - The node.  [Node] plugs the pool into the interface the chain calls;
      [Peers] and [Requests] are crate p2p (peer_manager.rs, request_handler.rs,
      message.rs), [Sync] and [NodeLoop] crate node (sync.rs and the event loop
      of node.rs), [Miner] is crate miner (worker.rs).  [Network] is the task
      that owns the swarm (p2p/src/lib.rs).
    - Its users.  [Rpc] is crate rpc: the services for transactions, the chain,
      accounts and applications, with the pool behind a lock that a panic
      poisons.  [Client] is crate client: command strings, method names, known
      accounts, and the commands that pay or create applications through [Rpc].

    The state database stores its trees through the codecs, the state keeps its
    accounts in a state database, the chain executes blocks on the state and
    stores them in the block storage, and the pool reads the state and the
    blocks of the chain.  The machine runs applications on the state for the
    transactions that call them; the node hands the blocks and transactions of
    its peers to the chain and the pool, and the miner those it finds.  The
    network task forwards messages of peers to the node and answers their
    requests; the client sends requests to the services, which read the chain
    and add to the pool.  Each of
    these uses goes through the definitions of the file below it, or through a
    class where the code has a trait or a service:
    [CryptoPrims] and [CryptoLaws], [Bincode] and [BincodeLaws], [ChainCodecs],
    [WasmVMInstance] and [WasmVMLaws] (met by [WasmVM_instance], the machine of
    [Runtime] with its cache fixed for one operation), [WasmEngine], [RegistryMessages] and [RegistryLaws],
    [ChainServices], [Blockchain], [ProstLen], [Encodable] and [Decodable] (with
    the laws [EncodesAs], [RlpCodec] and [SafeDecodable]), [Bip39Ops] and
    [Bip39Laws], [HexCrate], [RustcHex], [ArrayCodec], [ProstField], [Nom],
    [KeyGen], [SwarmOps] and [LengthPrefixed], each with its laws.

    ** How code is translated

    A function that can fail returns a [result]: [Ok], [Err], or [Panic] for a
    panic or for a call that does not return.  A method that changes an object
    is an [stM] computation, which returns the object even when it fails, as
    [&mut self] does.  Unsigned integers are [Z] with the wrap-around of a
    release build written out ([wrap]); signed casts are [swrap].  Byte arrays
    and strings are lists of [Z], maps are stdpp's [gmap], a [BTreeMap] is
    iterated in the order of its keys and a [BTreeSet] is the sorted list of its
    elements.  The iteration order of a [HashMap], the clock and the results of
    third-party crates are parameters; what a theorem needs of them is a
    hypothesis with the name of the documented fact.  Every such hypothesis is
    met by a concrete instance in a witness ([toy_crypto], [toy_bincode],
    [toy_codecs], [easy_crypto], [quiet_chain] and others).

    ** What is proved

    - Text and numbers: round trips of bech32 strings, of base-32 data, of
      compact targets and of decimal numbers; addition, subtraction,
      multiplication, division, shifts and powers of integers of any number of
      words compute what they should, the operations on values are theirs, and
      each operator panics exactly where [u256_refines] says.  The RLP stream
      writes the recursive encoding of whatever is appended, every implemented
      type decodes to what was encoded up to [2^32] bytes, and no input makes
      the operations of the decoder panic or loop, but for [is_int] on one byte.  The square root and the powers of integers are
      exact, hexadecimal text and the messages of integers and hashes read back,
      and decoding text never panics.  A mnemonic phrase is accepted exactly
      when it is the phrase of some entropy, which it gives back.  Where the
      code falls short: arrays never read back their text, texts that are too
      long are read as zero, fields of the wrong length panic.
    - Data: a header is read back from its encoding; the signed bytes determine
      a transaction (but for one ambiguity of application names); a signature
      made with a key gives back its address.
    - Consensus: the required work stays within the network's limits, the
      retarget is bounded, a proof of work is accepted exactly when the hash
      meets the target, the reward schedule.
    - The Merkle tree: [update] refines a finite map, reads return the last
      write, equal roots mean equal contents (or an explicit collision), proofs
      are sound and complete.
    - Storage: what is put is read, also after a commit and a reset; blocks are
      found by hash, level and key.
    - Execution: the transactions of a block are executed by sender, nonce and
      price; payments keep the supply but for the fees; where the code does not:
      overflow and replay of payments, equal nonces and prices.
    - The chain: an accepted block satisfies every rule and its header is the one
      its execution gives; on every chain reached by [put_chain], with blocks
      accepted, rejected or failing and with rollbacks, the state is the one the
      head commits to, as long as no block leads back to the state root of the
      head ([regular]; [treedb_repeated_root] shows why); an accepted block is
      applied without error.  Side chains
      and the removal of stale blocks behave as [side_chain_new_miner_rejected]
      and [remove_stale_levels] say.
    - The pool: a priority queue pops in order; every reachable pool is well
      formed; its loops end; a valid transaction becomes pending; the search for
      an abandoned branch finds the common ancestor; and the exact
      conditions of replacement, discarding, batches, removal and reinjection,
      where they differ from what the names promise.
    - Applications: whatever an application does it creates and destroys no
      coins and takes only from itself and from its caller; a query answers what
      a call would compute; the machine sees the state only through its readers;
      for applications without memory or entropy it does not matter what it has
      run before; a storage map is a map; a namespace changes hands only by its
      owner.  Where the code falls short: calls create the coins they carry, no
      application can be created, an application can stop the node, and memory
      kept in the cache and drawn entropy change results ([cached_memory_shows],
      [drawn_entropy_shows]).
    - The node: the pool stays well formed whatever messages arrive; requests are
      answered from the store; the worker of the miner finds the first nonce that
      meets the target and its block becomes the head.
      Where the code falls short: unexpected blocks stop the node, broadcast
      blocks replace stored transactions, the validation of imported blocks
      accepts everything, the head of the highest peer is not followed.
    - The network, the services and the client: the node gets the readable
      messages of its peers, in order and once; a turn of the network ends its
      thread only for the causes [harmless] names; a message is delivered exactly
      up to its bound.  A transaction is announced exactly when its request
      succeeds, and a payment is the transaction the command describes.  Where the code falls short: two
      messages of a lower peer end the network ([lower_peer_stops_network]), and
      one request poisons the pool for ever ([zero_fee_request_poisons],
      [poisoned_for_ever]).

    Collisions of hash functions are never assumed away: a theorem that needs
    two hashes to differ says so for the two inputs at hand, or concludes with
    the collision.

    ** Bounds and fuel

    Recursion is structural where the loop goes over data.  Elsewhere the fuel
    is computed from the input and shown to be enough: the depth of a Merkle
    tree is its 256 bits; the search for an earlier version of a value
    ([get_descend_raw]) has as much fuel as stored trees, and [Panic] there means
    that no number of steps returns; the loops of [truncate_pending] have the
    length of the lists they shorten ([truncate_pending_total]); those of
    [stale_txs] the levels they go down ([stale_txs_correct]); [cap] and the
    heap the number of their elements.  A block request sends at most 2000
    headers ([header_loop] has one step more); the estimate of a quotient digit
    is corrected at most twice ([q_hat_loop] has three steps); [pow] halves an
    exponent of 64 bits per word, and a decimal number has at most 20 digits per
    word.  The iterator over the items of an RLP list has one step more than the
    list has bytes ([count_items_safe]).  The square root has half as many
    rounds as its argument has bits, and two more ([integer_sqrt_correct]); the
    exponent of [overflowing_pow] is halved in every round; the bit writer of a
    mnemonic has as many rounds as bits to write.  [generate_pow_loop],
    [mine_loop] and [remove_stale_loop] take fuel as an argument, for searches that end only when something is found
    ([mine_loop_first], [remove_stale_loop_stuck]).  What other tasks do during
    the search of the miner is an argument of [mine_loop], turn by turn.

    ** What is abstracted

    The virtual machine the chain executes with ([WasmVMInstance]) is a function
    of the state.  The machine of [Runtime] is that for one operation; over
    several operations it is when the applications keep no memory and draw no
    entropy ([cache_transparent]).  The pool reads a state it is given: each time
    the chain changes, [step_chain] of [TxPoolProofs] gives it another, so that its
    invariant holds with the shared state of the code.  A read of the state that
    fails gives the pool the default account, as [State::account_state] does.
    The stores are the in-memory backends of the code; the
    node runs on RocksDB, which implements the same trait by library calls.

    ** What is not modelled

    The libp2p swarm itself, gRPC and the parsing of command lines, node
    identities, start-up, threads and logging; WebAssembly itself (an application
    is given by the host calls it makes) and the tools that build applications;
    calls of applications from the client, which go through the reflection of
    protobuf descriptors; disk backends (the in-memory ones are modelled);
    encodings derived for structures (parameters with laws); conversions of
    integers to floating point; derive macros and build tools.  Locks are left
    out, but for the lock of the pool in [Rpc]: each operation is one step. *)
From Stdlib Require Export ZArith Lia.
From Stdlib Require Ascii String.
From stdpp Require Export base tactics option list gmap sorting strings numbers.

Global Open Scope Z_scope.
Global Set Default Goal Selector "1".

(** ** Results

    A Rust function returning [Result<A, E>] either returns [Ok], returns [Err]
    or panics ([unwrap] on [None], a slice out of range, a division by zero, a
    failed [assert!]). *)
Inductive result (E A : Type) : Type :=
| Ok (a : A)
| Err (e : E)
| Panic.
Arguments Ok {E A} a.
Arguments Err {E A} e.
Arguments Panic {E A}.

#[export] Instance result_ret {E} : MRet (result E) := fun _ a => Ok a.
#[export] Instance result_bind {E} : MBind (result E) := fun _ _ f m =>
  match m with Ok a => f a | Err e => Err e | Panic => Panic end.
#[export] Instance result_fmap {E} : FMap (result E) := fun _ _ f m =>
  match m with Ok a => Ok (f a) | Err e => Err e | Panic => Panic end.

(** [Option::ok_or] *)
Definition ok_or {E A} (o : option A) (e : E) : result E A :=
  match o with Some a => Ok a | None => Err e end.
(** [Option::unwrap] and [Option::expect] *)
Definition unwrap {E A} (o : option A) : result E A :=
  match o with Some a => Ok a | None => Panic end.
(** [anyhow::ensure!] *)
Definition ensure {E} (b : bool) (e : E) : result E unit :=
  if b then Ok tt else Err e.

(** [anyhow::Error] is modelled by its message; [bail!] and [ok_or_else(|| anyhow!(..))]. *)
Abbreviation anyhow := string.
Definition bail {A} (msg : string) : result anyhow A := Err msg.
Definition ok_or_else {A} (o : option A) (msg : string) : result anyhow A := ok_or o msg.

(** [r.unwrap().expect(..)] on a [Result<Option<A>>]. *)
Definition unwrap_expect {E F A} (r : result E (option A)) : result F A :=
  match r with Ok (Some a) => Ok a | _ => Panic end.

Definition is_ok {E A} (r : result E A) : bool :=
  match r with Ok _ => true | _ => false end.

Lemma bind_ok {E A B} (m : result E A) (f : A -> result E B) b :
  (m ≫= f) = Ok b <-> exists a, m = Ok a /\ f a = Ok b.
Proof. destruct m; simpl; naive_solver. Qed.

Lemma is_ok_true {E A} (r : result E A) : is_ok r = true <-> exists a, r = Ok a.
Proof. destruct r; naive_solver. Qed.

(** ** Machine integers

    A [w]-bit unsigned integer is a [Z] in [0, 2^w).  The node is built with
    [cargo build --release] (docker/, run.sh), so [+], [-] and [*] on machine
    integers wrap; a cast [as uN] keeps the low [N] bits. *)
Definition wrap (w z : Z) : Z := z mod 2 ^ w.
Abbreviation u8 := (wrap 8).
Abbreviation u32 := (wrap 32).
Abbreviation u64 := (wrap 64).
Abbreviation u128 := (wrap 128).
Abbreviation usize := (wrap 64).

(** Two's complement casts [as iN]. *)
Definition swrap (w z : Z) : Z := (z + 2 ^ (w - 1)) mod 2 ^ w - 2 ^ (w - 1).
Abbreviation i32 := (swrap 32).
Abbreviation i64 := (swrap 64).
Abbreviation i128 := (swrap 128).

Definition is_u (w z : Z) : Prop := 0 <= z < 2 ^ w.
#[export] Instance is_u_dec w z : Decision (is_u w z).
Proof. unfold is_u. apply _. Defined.

(** [lia] with the Euclidean equations of [/] and [mod] by constants. *)
Ltac dlia := Z.to_euclidean_division_equations; lia.

Create HintDb machine.

Lemma wrap_bound w z : 0 <= w -> is_u w (wrap w z).
Proof. intros. apply Z.mod_pos_bound. lia. Qed.
Lemma wrap_id w z : is_u w z -> wrap w z = z.
Proof. apply Z.mod_small. Qed.
Lemma swrap_id w z : 0 < w -> - 2 ^ (w - 1) <= z < 2 ^ (w - 1) -> swrap w z = z.
Proof.
  intros Hw Hz. unfold swrap. rewrite Z.mod_small; [lia|].
  replace (2 ^ w) with (2 * 2 ^ (w - 1)); [lia|].
  rewrite <- Z.pow_succ_r by lia. f_equal. lia.
Qed.
#[export] Hint Resolve wrap_bound : machine.

(** ** Bytes and big-endian integers *)

Definition is_byte (b : Z) : Prop := is_u 8 b.
Abbreviation bytes := (list Z).
Definition is_bytes (n : nat) (l : list Z) : Prop := length l = n /\ Forall is_byte l.
#[export] Instance is_bytes_dec n l : Decision (is_bytes n l).
Proof. unfold is_bytes, is_byte. apply _. Defined.

(** The [n] low [k]-bit digits of [z], most significant first. *)
Fixpoint to_digits (k : Z) (n : nat) (z : Z) : list Z :=
  match n with
  | O => []
  | S n' => wrap k (z / 2 ^ (k * Z.of_nat n')) :: to_digits k n' z
  end.

(** [uN::to_be_bytes] for an integer of [n] bytes. *)
Definition to_be (n : nat) (z : Z) : list Z := to_digits 8 n z.

(** Big-endian reading of a list of [k]-bit digits. *)
Definition from_digits (k : Z) (l : list Z) : Z := fold_left (fun acc b => acc * 2 ^ k + b) l 0.

(** [uN::from_be_bytes] *)
Definition from_be (l : list Z) : Z := from_digits 8 l.

Lemma length_to_digits k n z : length (to_digits k n z) = n.
Proof. induction n; simpl; auto. Qed.
Lemma length_to_be n z : length (to_be n z) = n.
Proof. apply length_to_digits. Qed.

Lemma to_digits_bound k n z : 0 <= k -> Forall (is_u k) (to_digits k n z).
Proof. intros. induction n; simpl; constructor; auto with machine. Qed.
Lemma to_be_bytes n z : Forall is_byte (to_be n z).
Proof. apply to_digits_bound. lia. Qed.

Lemma is_bytes_to_be n z : is_bytes n (to_be n z).
Proof. split; [apply length_to_be | apply to_be_bytes]. Qed.

Section digits.
Context (k : Z) (Hk : 0 <= k).

Lemma fold_digits_acc l acc :
  fold_left (fun acc b => acc * 2 ^ k + b) l acc
  = acc * 2 ^ (k * Z.of_nat (length l)) + from_digits k l.
Proof.
  unfold from_digits. revert acc.
  induction l as [|b l IH]; intros acc; cbn [fold_left length].
  - rewrite Z.mul_0_r. simpl. lia.
  - rewrite IH, (IH (0 * 2 ^ k + b)).
    replace (k * Z.of_nat (S (length l))) with (k + k * Z.of_nat (length l)) by lia.
    rewrite Z.pow_add_r by lia. ring.
Qed.

Lemma from_digits_cons b l :
  from_digits k (b :: l) = b * 2 ^ (k * Z.of_nat (length l)) + from_digits k l.
Proof. unfold from_digits at 1. cbn [fold_left]. rewrite fold_digits_acc. ring. Qed.

Lemma from_digits_snoc l b : from_digits k (l ++ [b]) = from_digits k l * 2 ^ k + b.
Proof. unfold from_digits. now rewrite fold_left_app. Qed.

Lemma from_digits_bound l :
  Forall (is_u k) l -> is_u (k * Z.of_nat (length l)) (from_digits k l).
Proof.
  intros H. induction H as [|b l Hb _ IH]; [unfold is_u, from_digits; simpl; lia|].
  rewrite from_digits_cons. cbn [length]. unfold is_u in *.
  replace (k * Z.of_nat (S (length l))) with (k + k * Z.of_nat (length l)) by lia.
  rewrite Z.pow_add_r by lia. nia.
Qed.

Lemma from_digits_inj l1 l2 :
  length l1 = length l2 -> Forall (is_u k) l1 -> Forall (is_u k) l2 ->
  from_digits k l1 = from_digits k l2 -> l1 = l2.
Proof.
  intros Hl H1. revert l2 Hl.
  induction H1 as [|b l1 Hb H1 IH]; intros [|c l2] Hl H2 E; simpl in Hl; try lia; auto.
  inversion_clear H2 as [|? ? Hc H2']. rewrite !from_digits_cons in E.
  injection Hl as Hl. pose proof (from_digits_bound l1 H1) as B1.
  pose proof (from_digits_bound l2 H2') as B2. rewrite <- Hl in B2, E. unfold is_u in *.
  assert (b = c) as -> by nia. f_equal. apply IH; auto. lia.
Qed.
End digits.

Lemma from_be_cons b l : from_be (b :: l) = b * 2 ^ (8 * Z.of_nat (length l)) + from_be l.
Proof. apply from_digits_cons. lia. Qed.

Lemma from_be_bound n l : is_bytes n l -> is_u (8 * Z.of_nat n) (from_be l).
Proof. intros [<- H]. apply from_digits_bound; auto. lia. Qed.

Lemma from_to_digits k n z :
  0 <= k -> from_digits k (to_digits k n z) = z mod 2 ^ (k * Z.of_nat n).
Proof.
  intros Hk. induction n as [|n IH].
  - rewrite Z.mul_0_r. symmetry. apply Z.mod_1_r.
  - cbn [to_digits]. rewrite from_digits_cons, length_to_digits, IH by lia. unfold wrap.
    replace (k * Z.of_nat (S n)) with (k * Z.of_nat n + k) by lia.
    rewrite Z.pow_add_r by lia.
    rewrite (Z.rem_mul_r z (2 ^ (k * Z.of_nat n)) (2 ^ k)) by lia. ring.
Qed.

Lemma from_to_be n z : from_be (to_be n z) = z mod 2 ^ (8 * Z.of_nat n).
Proof. apply from_to_digits. lia. Qed.

Lemma from_to_be_id n z : is_u (8 * Z.of_nat n) z -> from_be (to_be n z) = z.
Proof. intros H. rewrite from_to_be. now apply Z.mod_small. Qed.

Lemma from_be_inj n l1 l2 :
  is_bytes n l1 -> is_bytes n l2 -> from_be l1 = from_be l2 -> l1 = l2.
Proof. intros [H1 F1] [H2 F2]. apply (from_digits_inj 8); auto; lia. Qed.

Lemma to_from_be n l : is_bytes n l -> to_be n (from_be l) = l.
Proof.
  intros H. eapply from_be_inj; [apply is_bytes_to_be | exact H |].
  apply from_to_be_id. now apply from_be_bound.
Qed.

Lemma to_be_inj n a b :
  is_u (8 * Z.of_nat n) a -> is_u (8 * Z.of_nat n) b -> to_be n a = to_be n b -> a = b.
Proof. intros Ha Hb E. rewrite <- (from_to_be_id n a), <- (from_to_be_id n b) by auto. now rewrite E. Qed.

#[export] Hint Resolve length_to_be to_be_bytes is_bytes_to_be from_be_bound : machine.

(** Taking fixed-width fields off the front of a buffer. *)
Lemma app_inj_len {A} (l1 l1' l2 l2' : list A) :
  length l1 = length l1' -> l1 ++ l2 = l1' ++ l2' -> l1 = l1' /\ l2 = l2'.
Proof. intros H E. now apply app_inj_1 in E. Qed.

(** [Ord] on byte slices: lexicographic. *)
Fixpoint bytes_cmp (a b : list Z) : comparison :=
  match a, b with
  | [], [] => Eq
  | [], _ :: _ => Lt
  | _ :: _, [] => Gt
  | x :: a', y :: b' => match Z.compare x y with Eq => bytes_cmp a' b' | c => c end
  end.

Lemma bytes_cmp_eq a b : bytes_cmp a b = Eq -> a = b.
Proof.
  revert b. induction a as [|x a IH]; intros [|y b]; simpl; try easy.
  destruct (Z.compare_spec x y) as [->|Hlt|Hgt]; try easy. intros E. f_equal. auto.
Qed.
Lemma bytes_cmp_refl a : bytes_cmp a a = Eq.
Proof. induction a as [|x a IH]; simpl; [easy|]. now rewrite Z.compare_refl. Qed.
Lemma bytes_cmp_opp a b : bytes_cmp b a = CompOpp (bytes_cmp a b).
Proof.
  revert b. induction a as [|x a IH]; intros [|y b]; simpl; try easy.
  rewrite (Z.compare_antisym x y). destruct (x ?= y)%Z; simpl; auto.
Qed.
Lemma bytes_cmp_trans a b c : bytes_cmp a b = Lt -> bytes_cmp b c = Lt -> bytes_cmp a c = Lt.
Proof.
  revert b c. induction a as [|x a IH]; intros [|y b] [|z c]; simpl; try easy.
  destruct (Z.compare_spec x y) as [->|H1|H1], (Z.compare_spec y z) as [->|H2|H2]; try easy;
    try (rewrite (proj2 (Z.compare_lt_iff _ _)) by lia; easy). eauto.
Qed.

(** Lexicographic order of equal-length byte strings is the order of the
    big-endian integers they encode. *)
Lemma bytes_cmp_from_be n a b :
  is_bytes n a -> is_bytes n b -> bytes_cmp a b = Z.compare (from_be a) (from_be b).
Proof.
  intros [<- Ha] [Hl Hb]. revert b Hl Hb.
  induction Ha as [|x a Hx Ha IH]; intros [|y b] Hl Hb; simpl in Hl; try lia; auto.
  inversion_clear Hb as [|? ? Hy Hb']. cbn [bytes_cmp]. rewrite !from_be_cons.
  assert (length b = length a) as Hl' by lia. rewrite Hl'.
  pose proof (from_be_bound (length a) a (conj eq_refl Ha)) as B1.
  pose proof (from_be_bound (length a) b (conj Hl' Hb')) as B2.
  unfold is_u in B1, B2.
  destruct (Z.compare_spec x y) as [->|Hlt|Hgt].
  - rewrite IH by auto. symmetry. apply Z.add_compare_mono_l.
  - symmetry. apply Z.compare_lt_iff. nia.
  - symmetry. apply Z.compare_gt_iff. nia.
Qed.

(** ** Bit operations *)

Lemma testbit_high n b i : 0 <= b < 2 ^ n -> 0 <= n <= i -> Z.testbit b i = false.
Proof.
  intros Hb Hn. rewrite <- (Z.mod_small b (2 ^ n)) by lia. now apply Z.mod_pow2_bits_high.
Qed.

Lemma testbit_low a n i : 0 <= i < n -> Z.testbit (a * 2 ^ n) i = false.
Proof. intros H. rewrite <- Z.shiftl_mul_pow2 by lia. apply Z.shiftl_spec_low. lia. Qed.

(** Or-ing and xor-ing a value into cleared low bits is addition. *)
Lemma lor_low a b n : 0 <= n -> 0 <= b < 2 ^ n -> Z.lor (a * 2 ^ n) b = a * 2 ^ n + b.
Proof.
  intros Hn Hb. rewrite <- Z.lxor_lor, <- Z.add_nocarry_lxor; auto;
    apply Z.bits_inj'; intros i Hi; rewrite Z.land_spec, Z.bits_0;
    (destruct (Z.lt_ge_cases i n);
     [rewrite testbit_low by lia; reflexivity
     |rewrite (testbit_high n b) by lia; apply andb_false_r]).
Qed.

Lemma lxor_low a b n : 0 <= n -> 0 <= b < 2 ^ n -> Z.lxor (a * 2 ^ n) b = a * 2 ^ n + b.
Proof.
  intros Hn Hb. rewrite <- Z.add_nocarry_lxor; auto.
  apply Z.bits_inj'; intros i Hi; rewrite Z.land_spec, Z.bits_0.
  destruct (Z.lt_ge_cases i n);
    [rewrite testbit_low by lia; reflexivity
    |rewrite (testbit_high n b) by lia; apply andb_false_r].
Qed.

Lemma land_ones_wrap z n : 0 <= n -> Z.land z (Z.ones n) = wrap n z.
Proof. apply Z.land_ones. Qed.

Lemma lxor_bound n a b : 0 <= n -> is_u n a -> is_u n b -> is_u n (Z.lxor a b).
Proof.
  unfold is_u. intros Hn Ha Hb.
  assert (0 <= Z.lxor a b) as H0 by (apply Z.lxor_nonneg; lia).
  assert (Z.lxor a b = Z.lxor a b mod 2 ^ n) as ->.
  { apply Z.bits_inj'. intros i Hi. destruct (Z.lt_ge_cases i n).
    - now rewrite Z.mod_pow2_bits_low.
    - rewrite Z.mod_pow2_bits_high, Z.lxor_spec, !(testbit_high n) by lia. reflexivity. }
  apply Z.mod_pos_bound. lia.
Qed.
#[export] Hint Resolve lxor_bound : machine.

Lemma land_lxor_l a b m : Z.land (Z.lxor a b) m = Z.lxor (Z.land a m) (Z.land b m).
Proof.
  apply Z.bits_inj'. intros i _. rewrite Z.lxor_spec, !Z.land_spec, Z.lxor_spec.
  now destruct (Z.testbit a i), (Z.testbit b i), (Z.testbit m i).
Qed.

Lemma wrap_lxor w a b : 0 <= w -> wrap w (Z.lxor a b) = Z.lxor (wrap w a) (wrap w b).
Proof. intros. rewrite <- !land_ones_wrap by lia. apply land_lxor_l. Qed.

Lemma lxor_swap a b c d : Z.lxor (Z.lxor a b) (Z.lxor c d) = Z.lxor (Z.lxor a c) (Z.lxor b d).
Proof. rewrite !Z.lxor_assoc. f_equal. rewrite <- !Z.lxor_assoc. f_equal. apply Z.lxor_comm. Qed.

(** Facts about one byte are decided by enumeration. *)
Lemma byte_forall (P : Z -> bool) :
  forallb P (seqZ 0 256) = true -> forall b, is_byte b -> P b = true.
Proof.
  intros H b Hb. rewrite forallb_forall in H. apply H, list_elem_of_In, elem_of_seqZ.
  unfold is_byte, is_u in Hb. change (2 ^ 8) with 256 in Hb. lia.
Qed.

(** ** Strings

    A [char] is its code point and a [&str] the list of its chars; [utf8] gives
    the bytes [str::as_bytes] sees. *)
Abbreviation str := (list Z).

Definition utf8_char (c : Z) : list Z :=
  if c <? 128 then [c]
  else if c <? 2048 then [192 + c / 64; 128 + c mod 64]
  else if c <? 65536 then [224 + c / 4096; 128 + c / 64 mod 64; 128 + c mod 64]
  else [240 + c / 262144; 128 + c / 4096 mod 64; 128 + c / 64 mod 64; 128 + c mod 64].
Definition utf8 (s : str) : bytes := flat_map utf8_char s.

Definition is_ascii (c : Z) : bool := c <? 128.

Lemma utf8_ascii s : Forall (fun c => is_ascii c = true) s -> utf8 s = s.
Proof.
  unfold is_ascii. intros H. induction H as [|c s Hc _ IH]; simpl; auto.
  unfold utf8_char at 1. rewrite Hc. simpl. now f_equal.
Qed.

(** A string literal of the source. *)
Definition lit (s : string) : str := (fun a => Z.of_N (Ascii.N_of_ascii a)) <$> String.list_ascii_of_string s.

(** [String::from_utf8_lossy]: every maximal invalid sequence becomes U+FFFD. *)
Definition REPLACEMENT : Z := 0xFFFD.
Definition in_range (lo hi c : Z) : bool := (lo <=? c) && (c <=? hi).

Fixpoint from_utf8_lossy (l : bytes) : str :=
  match l with
  | [] => []
  | b :: l1 =>
    if b <? 0x80 then b :: from_utf8_lossy l1
    else if in_range 0xC2 0xDF b then
      match l1 with
      | c :: l2 => if in_range 0x80 0xBF c then ((b - 192) * 64 + (c - 128)) :: from_utf8_lossy l2
                   else REPLACEMENT :: from_utf8_lossy l1
      | [] => [REPLACEMENT]
      end
    else if in_range 0xE0 0xEF b then
      match l1 with
      | c :: l2 =>
        if in_range (if b =? 0xE0 then 0xA0 else 0x80) (if b =? 0xED then 0x9F else 0xBF) c then
          match l2 with
          | d :: l3 => if in_range 0x80 0xBF d
                       then ((b - 224) * 4096 + (c - 128) * 64 + (d - 128)) :: from_utf8_lossy l3
                       else REPLACEMENT :: from_utf8_lossy l2
          | [] => [REPLACEMENT]
          end
        else REPLACEMENT :: from_utf8_lossy l1
      | [] => [REPLACEMENT]
      end
    else if in_range 0xF0 0xF4 b then
      match l1 with
      | c :: l2 =>
        if in_range (if b =? 0xF0 then 0x90 else 0x80) (if b =? 0xF4 then 0x8F else 0xBF) c then
          match l2 with
          | d :: l3 =>
            if in_range 0x80 0xBF d then
              match l3 with
              | e :: l4 =>
                if in_range 0x80 0xBF e
                then ((b - 240) * 262144 + (c - 128) * 4096 + (d - 128) * 64 + (e - 128))
                     :: from_utf8_lossy l4
                else REPLACEMENT :: from_utf8_lossy l3
              | [] => [REPLACEMENT]
              end
            else REPLACEMENT :: from_utf8_lossy l2
          | [] => [REPLACEMENT]
          end
        else REPLACEMENT :: from_utf8_lossy l1
      | [] => [REPLACEMENT]
      end
    else REPLACEMENT :: from_utf8_lossy l1
  end.

Lemma from_utf8_lossy_ascii l :
  Forall (fun c => is_ascii c = true) l -> from_utf8_lossy l = l.
Proof.
  unfold is_ascii. intros H. induction H as [|c l Hc _ IH]; simpl; auto.
  change (c <? 0x80) with (c <? 128). rewrite Hc. now f_equal.
Qed.

(** Reading a fixed number of bytes off a buffer; a short buffer panics
    ([Buf::copy_to_bytes], [Buf::get_u32], slicing). *)
Definition take_bytes {E} (n : nat) (buf : bytes) : result E (bytes * bytes) :=
  if decide (n <= length buf)%nat then Ok (take n buf, drop n buf) else Panic.

Lemma take_bytes_app {E} n l rest :
  length l = n -> take_bytes (E:=E) n (l ++ rest) = Ok (l, rest).
Proof.
  intros <-. unfold take_bytes. rewrite decide_True by (rewrite length_app; lia).
  now rewrite take_app_length, drop_app_length.
Qed.

Lemma take_bytes_inv {E} n buf a b :
  take_bytes (E:=E) n buf = Ok (a, b) -> length a = n /\ buf = a ++ b.
Proof.
  unfold take_bytes. case_decide; [|discriminate]. intros [= <- <-].
  split; [apply length_take_le; lia | now rewrite take_drop].
Qed.

(** [[u8; n]::copy_from_slice]: panics unless the lengths agree. *)
Definition fixed_bytes {E} (n : nat) (src : bytes) : result E bytes :=
  if decide (length src = n) then Ok src else Panic.

Lemma fixed_bytes_ok {E} n l : length l = n -> fixed_bytes (E:=E) n l = Ok l.
Proof. intros H. unfold fixed_bytes. now rewrite decide_True. Qed.

(** Two different inputs with the same image. *)
Definition collides {A B} (f : A -> B) (x y : A) : Prop := x <> y /\ f x = f y.

(** The value of a computation that succeeds. *)
Definition ok_default {E A} (d : A) (r : result E A) : A := match r with Ok x => x | _ => d end.
Lemma ok_default_eq {E A} (d : A) (r : result E A) : is_ok r = true -> r = Ok (ok_default d r).
Proof. now destruct r. Qed.
Lemma ok_default_pair {E A B} (d : A * B) (r : result E (A * B)) :
  is_ok r = true -> r = Ok ((ok_default d r).1, (ok_default d r).2).
Proof. now destruct r as [[]| |]. Qed.

(** ** Ordered maps

    A [BTreeMap] with byte-string keys is a finite map; iterating it goes by
    increasing key. *)
Definition entry_le {A} (a b : bytes * A) : Prop := bytes_cmp a.1 b.1 <> Gt.
#[export] Instance entry_le_dec {A} (a b : bytes * A) : Decision (entry_le a b).
Proof. unfold entry_le. apply _. Defined.
Definition btree_entries {A} (m : gmap bytes A) : list (bytes * A) := merge_sort entry_le (map_to_list m).

Lemma btree_entries_Permutation {A} (m : gmap bytes A) : Permutation (btree_entries m) (map_to_list m).
Proof. apply merge_sort_Permutation. Qed.
Lemma btree_entries_lookup {A} (m : gmap bytes A) k v : In (k, v) (btree_entries m) <-> m !! k = Some v.
Proof.
  rewrite <- elem_of_map_to_list, list_elem_of_In. split; apply Permutation_in;
    [|symmetry]; apply btree_entries_Permutation.
Qed.
#[export] Instance entry_le_trans {A} : Transitive (@entry_le A).
Proof.
  intros [a x] [b y] [c z]. unfold entry_le. cbn [fst]. intros H1 H2.
  destruct (bytes_cmp a b) eqn:E1, (bytes_cmp b c) eqn:E2; try easy.
  - apply bytes_cmp_eq in E1, E2. subst. now rewrite bytes_cmp_refl.
  - apply bytes_cmp_eq in E1. subst. now rewrite E2.
  - apply bytes_cmp_eq in E2. subst. now rewrite E1.
  - now rewrite (bytes_cmp_trans a b c).
Qed.
#[export] Instance entry_le_total {A} : Total (@entry_le A).
Proof.
  intros [a x] [b y]. unfold entry_le. cbn [fst]. rewrite (bytes_cmp_opp a b). destruct (bytes_cmp a b); simpl; auto.
Qed.
Lemma StronglySorted_impl_in {A} (R S : A -> A -> Prop) l :
  (forall x y, In x l -> In y l -> R x y -> x <> y -> S x y) -> NoDup l -> StronglySorted R l -> StronglySorted S l.
Proof.
  intros Himp Hnd Hs. induction Hs as [|x l Hs IH Hx]; [constructor|]. inversion_clear Hnd as [|? ? Hnx Hnd']. constructor.
  - apply IH; auto. intros y z Hy Hz. apply Himp; now right.
  - apply List.Forall_forall. intros y Hy. rewrite List.Forall_forall in Hx.
    apply Himp; [now left|now right|now apply Hx|]. intros ->. now apply Hnx, list_elem_of_In.
Qed.
(** Iteration goes by strictly increasing key. *)
Lemma btree_entries_increasing {A} (m : gmap bytes A) :
  StronglySorted (fun a b => bytes_cmp a.1 b.1 = Lt) (btree_entries m).
Proof.
  apply (StronglySorted_impl_in entry_le).
  - intros [a x] [b y] Ha Hb. unfold entry_le. cbn [fst]. intros Hle Hne. destruct (bytes_cmp a b) eqn:E; try easy.
    apply bytes_cmp_eq in E. subst. apply btree_entries_lookup in Ha, Hb. congruence.
  - rewrite btree_entries_Permutation. apply NoDup_map_to_list.
  - apply StronglySorted_merge_sort; apply _.
Qed.

(** ** State and errors

    A method taking [&mut self] may return an error after it has changed the
    object: [stM S E A] returns the result together with the state reached. *)
Definition stM (S E A : Type) : Type := S -> result E A * S.

#[export] Instance stM_ret {S E} : MRet (stM S E) := fun _ a s => (Ok a, s).
#[export] Instance stM_bind {S E} : MBind (stM S E) := fun _ _ f m s =>
  match m s with
  | (Ok a, s') => f a s'
  | (Err e, s') => (Err e, s')
  | (Panic, s') => (Panic, s')
  end.

Definition gets {S E A} (f : S -> A) : stM S E A := fun s => (Ok (f s), s).
Definition modify {S E} (f : S -> S) : stM S E unit := fun s => (Ok tt, f s).
Definition lift {S E A} (r : result E A) : stM S E A := fun s => (r, s).
(** Run a step on one field of the state. *)
Definition zoom {S T E A} (get : S -> T) (set : T -> S -> S) (m : stM T E A) : stM S E A :=
  fun s => let '(r, t) := m (get s) in (r, set t s).
(** [let _ = e;]: an error is dropped, a panic is not. *)
Definition ignore {S E A} (m : stM S E A) : stM S E unit :=
  fun s => match m s with (Panic, s') => (Panic, s') | (_, s') => (Ok tt, s') end.

(** The object a computation leaves behind, when it succeeds. *)
Definition exec {S E A} (m : stM S E A) (s : S) : result E S :=
  match m s with (Ok _, s') => Ok s' | (Err e, _) => Err e | (Panic, _) => Panic end.

(** [for x in l { body }] with [?] inside. *)
Fixpoint for_each {S E A} (l : list A) (body : A -> stM S E unit) : stM S E unit :=
  match l with
  | [] => mret tt
  | x :: l => _ ← body x; for_each l body
  end.

Lemma bind_st_ok {S E A B} (m : stM S E A) (f : A -> stM S E B) s a s' :
  m s = (Ok a, s') -> (m ≫= f) s = f a s'.
Proof. intros H. unfold mbind, stM_bind. now rewrite H. Qed.

Lemma bind_st_inv {S E A B} (m : stM S E A) (f : A -> stM S E B) s b s'' :
  (m ≫= f) s = (Ok b, s'') -> exists a s', m s = (Ok a, s') /\ f a s' = (Ok b, s'').
Proof. unfold mbind, stM_bind. destruct (m s) as [[a|e|] s']; try discriminate. eauto. Qed.

(** Run the first action of a bind, proving by [tac] what it returns. *)
Tactic Notation "st_step" tactic3(tac) := erewrite bind_st_ok by tac; cbv beta iota.
