(* ===== verification/Bech32.v ===== *)
(** * Bech32 strings and base-32 conversion

    Model of common/bech32/src/lib.rs: the checksum ([polymod]), the writer, the
    decoder and the regrouping of bits between bytes and 5-bit values.  Sinks are
    the infallible ones the node uses ([String] and [Vec<u5>]). *)
From S2P Require Import Prelude.

(** Errors of the crate; [InvalidChar] carries the code point. *)
Inductive Bech32Error :=
| MissingSeparator
| InvalidChecksum
| InvalidLength
| InvalidChar (c : Z)
| InvalidData (v : Z)
| InvalidPadding
| MixedCase.

Inductive Case := Upper | Lower | NoCase.
Inductive Variant := Bech32 | Bech32m.

Definition SEP : Z := 49.
Definition CHECKSUM_LENGTH : nat := 6.

Definition CHARSET : list Z := lit "qpzry9x8gf2tvdw0s3jn54khce6mua7l".

Definition CHARSET_REV : list Z :=
  replicate 48 (-1) ++
  [15; -1; 10; 17; 21; 20; 26; 30; 7; 5; -1; -1; -1; -1; -1; -1; -1; 29; -1; 24; 13; 25; 9; 8; 23;
   -1; 18; 22; 31; 27; 19; -1; 1; 0; 3; 16; 11; 28; 12; 14; 6; 4; 2; -1; -1; -1; -1; -1; -1; 29;
   -1; 24; 13; 25; 9; 8; 23; -1; 18; 22; 31; 27; 19; -1; 1; 0; 3; 16; 11; 28; 12; 14; 6; 4; 2; -1;
   -1; -1; -1; -1].

Definition GEN : list Z := [0x3b6a57b2; 0x26508e6d; 0x1ea119fa; 0x3d4233dd; 0x2a1462b3].

Definition BECH32_CONST : Z := 1.
Definition BECH32M_CONST : Z := 0x2bc830a3.

Definition variant_constant (v : Variant) : Z :=
  match v with Bech32 => BECH32_CONST | Bech32m => BECH32M_CONST end.

Definition from_remainder (c : Z) : option Variant :=
  if c =? BECH32_CONST then Some Bech32
  else if c =? BECH32M_CONST then Some Bech32m else None.

(** [u5::try_from_u8] *)
Definition try_from_u8 (value : Z) : result Bech32Error Z :=
  if 31 <? value then Err (InvalidData value) else Ok value.

(** [u5::to_char]: an index out of [CHARSET] would panic. *)
Definition to_char (v : Z) : result Bech32Error Z := unwrap (CHARSET !! Z.to_nat v).

(** One round of the checksum, shared by [polymod] and [Bech32Writer::polymod_step]. *)
Definition polymod_step (chk v : Z) : Z :=
  let b := u8 (Z.shiftr chk 25) in
  let chk' := Z.lxor (u32 (Z.shiftl (Z.land chk 0x01ffffff) 5)) v in
  fold_left (fun c '(i, item) =>
               if Z.land (Z.shiftr b (Z.of_nat i)) 1 =? 1 then Z.lxor c item else c)
            (imap pair GEN) chk'.

Definition polymod (values : list Z) : Z := fold_left polymod_step values 1.

Definition hrp_expand (hrp : bytes) : list Z :=
  ((fun b => Z.shiftr b 5) <$> hrp) ++ [0] ++ ((fun b => Z.land b 0x1f) <$> hrp).

Definition verify_checksum (hrp : bytes) (data : list Z) : option Variant :=
  from_remainder (polymod (hrp_expand hrp ++ data)).

(** [Bech32Writer]: the sink, the running checksum and the variant. *)
Record Bech32Writer := { formatter : str; chk : Z; w_variant : Variant }.

Definition Bech32Writer_new (hrp : str) (variant : Variant) : Bech32Writer :=
  let hi := fold_left (fun c b => polymod_step c (Z.shiftr b 5)) (utf8 hrp) 1 in
  let mid := polymod_step hi 0 in
  let lo := fold_left (fun c b => polymod_step c (Z.land b 0x1f)) (utf8 hrp) mid in
  {| formatter := hrp ++ [SEP]; chk := lo; w_variant := variant |}.

Definition write_u5 (w : Bech32Writer) (data : Z) : result Bech32Error Bech32Writer :=
  c ← to_char data;
  Ok {| formatter := formatter w ++ [c]; chk := polymod_step (chk w) data;
        w_variant := w_variant w |}.

Fixpoint write_all (w : Bech32Writer) (data : list Z) : result Bech32Error Bech32Writer :=
  match data with
  | [] => Ok w
  | d :: data' => w' ← write_u5 w d; write_all w' data'
  end.

(** [write_checksum]: six zero rounds, then the six 5-bit groups of the remainder. *)
Definition checksum_digits (c : Z) (v : Variant) : list Z :=
  let c6 := fold_left polymod_step (replicate CHECKSUM_LENGTH 0) c in
  let plm := Z.lxor c6 (variant_constant v) in
  (fun p => Z.land (Z.shiftr plm (5 * (5 - Z.of_nat p))) 0x1f) <$> seq 0 CHECKSUM_LENGTH.

Definition write_checksum (w : Bech32Writer) : result Bech32Error str :=
  cs ← fold_right (fun d acc => c ← to_char d; l ← acc; Ok (c :: l)) (Ok [])
         (checksum_digits (chk w) (w_variant w));
  Ok (formatter w ++ cs).

(** The loop of [check_hrp] over the bytes of the human-readable part. *)
Fixpoint check_hrp_loop (bs : bytes) (has_lower has_upper : bool) : result Bech32Error (bool * bool) :=
  match bs with
  | [] => Ok (has_upper, has_lower)
  | b :: bs' =>
      if negb ((33 <=? b) && (b <=? 126)) then Err (InvalidChar b)
      else
        let is_low := (97 <=? b) && (b <=? 122) in
        let has_lower' := has_lower || is_low in
        let has_upper' := has_upper || (negb is_low && (65 <=? b) && (b <=? 90)) in
        if has_lower' && has_upper' then Err MixedCase
        else check_hrp_loop bs' has_lower' has_upper'
  end.

Definition check_hrp (hrp : str) : result Bech32Error Case :=
  let bs := utf8 hrp in
  if bool_decide (bs = []) || (83 <? Z.of_nat (length bs)) then Err InvalidLength
  else
    '(up, low) ← check_hrp_loop bs false false;
    match up, low with
    | true, false => Ok Upper
    | false, true => Ok Lower
    | false, false => Ok NoCase
    | true, true => Panic
    end.

(** [str::to_lowercase] on the ASCII strings [check_hrp] accepts. *)
Definition to_lower (c : Z) : Z := if (65 <=? c) && (c <=? 90) then c + 32 else c.
Definition to_lowercase (s : str) : str := to_lower <$> s.

Definition hrp_lowered (case : Case) (hrp : str) : str :=
  match case with Upper => to_lowercase hrp | Lower | NoCase => hrp end.

(** [encode_to_fmt] into a [String], i.e. [encode]. *)
Definition encode (hrp : str) (data : list Z) (variant : Variant) : result Bech32Error str :=
  case ← check_hrp hrp;
  w ← write_all (Bech32Writer_new (hrp_lowered case hrp) variant) data;
  write_checksum w.

(** [s.rfind(SEP)] followed by [split_at]. *)
Fixpoint rsplit_sep (s : str) : option (str * str) :=
  match s with
  | [] => None
  | c :: s' =>
      match rsplit_sep s' with
      | Some (h, d) => Some (c :: h, d)
      | None => if c =? SEP then Some ([], s') else None
      end
  end.

Definition is_lowercase (c : Z) : bool := (97 <=? c) && (c <=? 122).
Definition is_uppercase (c : Z) : bool := (65 <=? c) && (c <=? 90).

(** The closure of [split_and_decode] over the data characters; [case] is the
    captured mutable. *)
Fixpoint decode_chars (case : Case) (s : str) : result Bech32Error (list Z) :=
  match s with
  | [] => Ok []
  | c :: s' =>
      if negb (is_ascii c) then Err (InvalidChar c)
      else
        case' ←
          (if is_lowercase c then
             match case with Upper => Err MixedCase | NoCase => Ok Lower | Lower => Ok Lower end
           else if is_uppercase c then
             match case with Lower => Err MixedCase | NoCase => Ok Upper | Upper => Ok Upper end
           else Ok case);
        num_value ← unwrap (CHARSET_REV !! Z.to_nat c);
        if negb ((0 <=? num_value) && (num_value <=? 31)) then Err (InvalidChar c)
        else rest ← decode_chars case' s'; Ok (num_value :: rest)
  end.

Definition split_and_decode (s : str) : result Bech32Error (str * list Z) :=
  '(raw_hrp, raw_data) ← ok_or (rsplit_sep s) MissingSeparator;
  case ← check_hrp raw_hrp;
  data ← decode_chars case raw_data;
  Ok (hrp_lowered case raw_hrp, data).

Definition decode (s : str) : result Bech32Error (str * list Z * Variant) :=
  '(hrp_lower, data) ← split_and_decode s;
  if (length data <? CHECKSUM_LENGTH)%nat then Err InvalidLength
  else
    match verify_checksum (utf8 hrp_lower) data with
    | Some variant => Ok (hrp_lower, take (length data - CHECKSUM_LENGTH) data, variant)
    | None => Err InvalidChecksum
    end.

(** [write_base32] into a [Vec<u5>], one round per byte: the bits left over from
    the previous byte are in the high [buffer_bits] bits of [buffer]. *)
Record B32Buf := { buffer_bits : Z; buffer : Z; written : list Z }.

Definition flush5 (s : B32Buf) : B32Buf :=
  if 5 <=? buffer_bits s then
    {| buffer_bits := buffer_bits s - 5;
       buffer := u8 (Z.shiftl (buffer s) 5);
       written := written s ++ [Z.shiftr (Z.land (buffer s) 0xf8) 3] |}
  else s.

Definition write_base32_step (s0 : B32Buf) (b : Z) : B32Buf :=
  let s := flush5 s0 in
  let from_buffer := Z.shiftr (buffer s) 3 in
  let from_byte := Z.shiftr b (3 + buffer_bits s) in
  {| buffer_bits := buffer_bits s + 3;
     buffer := u8 (Z.shiftl b (5 - buffer_bits s));
     written := written s ++ [Z.lor from_buffer from_byte] |}.

Definition to_base32 (data : bytes) : list Z :=
  let s := flush5 (fold_left write_base32_step data
                     {| buffer_bits := 0; buffer := 0; written := [] |}) in
  if buffer_bits s =? 0 then written s else written s ++ [Z.shiftr (buffer s) 3].

Definition base32_len (data : bytes) : Z :=
  let bits := Z.of_nat (length data) * 8 in
  if bits mod 5 =? 0 then bits / 5 else bits / 5 + 1.

(** [convert_bits]; the inner [while] runs at most [bits] times because [to >= 1]. *)
Fixpoint drain_bits (fuel : nat) (acc bits to maxv : Z) (ret : list Z) : Z * list Z :=
  match fuel with
  | O => (bits, ret)
  | S fuel' =>
      if to <=? bits then
        let bits' := bits - to in
        drain_bits fuel' acc bits' to maxv (ret ++ [u8 (Z.land (Z.shiftr acc bits') maxv)])
      else (bits, ret)
  end.

Fixpoint convert_bits_loop (data : list Z) (from to maxv acc bits : Z) (ret : list Z) :
  result Bech32Error (Z * Z * list Z) :=
  match data with
  | [] => Ok (acc, bits, ret)
  | v :: data' =>
      if negb (Z.shiftr v from =? 0) then Err (InvalidData (u8 v))
      else
        let acc' := Z.lor (u32 (Z.shiftl acc from)) v in
        let bits' := bits + from in
        let '(bits'', ret') := drain_bits (Z.to_nat bits') acc' bits' to maxv ret in
        convert_bits_loop data' from to maxv acc' bits'' ret'
  end.

Definition convert_bits (data : list Z) (from to : Z) (pad : bool) : result Bech32Error (list Z) :=
  if (8 <? from) || (8 <? to) || (from =? 0) || (to =? 0) then Panic
  else
    let maxv := Z.shiftl 1 to - 1 in
    '(acc, bits, ret) ← convert_bits_loop data from to maxv 0 0 [];
    if pad then
      if 0 <? bits then Ok (ret ++ [u8 (Z.land (u32 (Z.shiftl acc (to - bits))) maxv)]) else Ok ret
    else if (from <=? bits) || negb (Z.land (u32 (Z.shiftl acc (to - bits))) maxv =? 0)
    then Err InvalidPadding
    else Ok ret.

(** [Vec::<u8>::from_base32] *)
Definition from_base32 (b32 : list Z) : result Bech32Error bytes := convert_bits b32 5 8 false.

Example encode_example :
  encode (lit "bech32") (to_base32 [0; 1; 2]) Bech32 = Ok (lit "bech321qqqsyrhqy2a").
Proof. vm_compute. reflexivity. Qed.
Example decode_example :
  decode (lit "bech321qqqsyrhqy2a") = Ok (lit "bech32", to_base32 [0; 1; 2], Bech32).
Proof. vm_compute. reflexivity. Qed.
Example convert_example : convert_bits [0xff] 8 5 true = Ok [0x1f; 0x1c].
Proof. vm_compute. reflexivity. Qed.

(** ** The checksum *)

(** The contribution of the five high bits of the state. *)
Definition gen_mask (b : Z) : Z :=
  fold_left (fun c '(i, item) => Z.lxor c (if Z.testbit b (Z.of_nat i) then item else 0))
            (imap pair GEN) 0.

Lemma land1_testbit b i : 0 <= i -> (Z.land (Z.shiftr b i) 1 =? 1) = Z.testbit b i.
Proof.
  intros Hi. change 1 with (Z.ones 1) at 1. rewrite Z.land_ones by lia.
  change (2 ^ 1) with 2. rewrite <- Z.bit0_mod, Z.shiftr_spec, Z.add_0_l by lia.
  destruct (Z.testbit b i); reflexivity.
Qed.

Lemma polymod_step_eq c v :
  polymod_step c v = Z.lxor (Z.lxor (u32 (Z.shiftl (Z.land c 0x01ffffff) 5)) v)
                            (gen_mask (u8 (Z.shiftr c 25))).
Proof.
  unfold polymod_step, gen_mask. cbn [imap fold_left GEN compose fst snd].
  rewrite !land1_testbit by lia. generalize (u8 (Z.shiftr c 25)) as b. intros b.
  generalize (Z.lxor (u32 (Z.shiftl (Z.land c 33554431) 5)) v) as x. intros x.
  rewrite Z.lxor_0_l. 
  repeat match goal with |- context [if ?t then _ else _] => destruct t end;
  rewrite ?Z.lxor_0_r, ?Z.lxor_0_l, ?Z.lxor_assoc; reflexivity.
Qed.

Lemma gen_mask_fold_lxor (l : list (nat * Z)) b1 b2 x y :
  fold_left (fun c '(i, item) => Z.lxor c (if Z.testbit (Z.lxor b1 b2) (Z.of_nat i) then item else 0))
            l (Z.lxor x y)
  = Z.lxor (fold_left (fun c '(i, item) => Z.lxor c (if Z.testbit b1 (Z.of_nat i) then item else 0)) l x)
           (fold_left (fun c '(i, item) => Z.lxor c (if Z.testbit b2 (Z.of_nat i) then item else 0)) l y).
Proof.
  revert x y. induction l as [|[i item] l IH]; intros x y; cbn [fold_left]; [reflexivity|].
  rewrite <- IH. f_equal. rewrite lxor_swap, Z.lxor_spec. f_equal.
  destruct (Z.testbit b1 _), (Z.testbit b2 _); simpl;
    rewrite ?Z.lxor_nilpotent, ?Z.lxor_0_r, ?Z.lxor_0_l; reflexivity.
Qed.

Lemma gen_mask_lxor b1 b2 : gen_mask (Z.lxor b1 b2) = Z.lxor (gen_mask b1) (gen_mask b2).
Proof. apply (gen_mask_fold_lxor _ b1 b2 0 0). Qed.

(** A checksum round is linear over GF(2). *)
Lemma polymod_step_lxor c1 c2 v1 v2 :
  polymod_step (Z.lxor c1 c2) (Z.lxor v1 v2)
  = Z.lxor (polymod_step c1 v1) (polymod_step c2 v2).
Proof.
  rewrite !polymod_step_eq, Z.shiftr_lxor, wrap_lxor, gen_mask_lxor, land_lxor_l,
    Z.shiftl_lxor, wrap_lxor by lia.
  rewrite (lxor_swap _ _ v1 v2). apply lxor_swap.
Qed.

Lemma polymod_lxor l c1 c2 :
  fold_left polymod_step l (Z.lxor c1 c2)
  = Z.lxor (fold_left polymod_step (replicate (length l) 0) c1) (fold_left polymod_step l c2).
Proof.
  revert c1 c2. induction l as [|v l IH]; intros; cbn [length replicate fold_left]; auto.
  rewrite <- IH. f_equal. rewrite <- polymod_step_lxor. now rewrite Z.lxor_0_l.
Qed.

Lemma gen_mask_bound b : is_u 30 (gen_mask b).
Proof.
  unfold gen_mask. cbn [imap fold_left GEN compose fst snd].
  repeat (apply lxor_bound; [lia| |destruct (Z.testbit b _)]); vm_compute; split; congruence.
Qed.

Lemma polymod_step_bound c v : is_u 5 v -> is_u 30 (polymod_step c v).
Proof.
  intros Hv. rewrite polymod_step_eq. apply lxor_bound; [lia| |apply gen_mask_bound].
  change 0x01ffffff with (Z.ones 25). rewrite land_ones_wrap, Z.shiftl_mul_pow2 by lia.
  pose proof (wrap_bound 25 c ltac:(lia)) as Hc.
  unfold is_u in *. rewrite (wrap_id 32) by (unfold is_u; lia).
  rewrite (lxor_low _ _ 5) by lia. lia.
Qed.

(** While the state is below 2^25 a round only shifts the new value in. *)
Lemma polymod_step_small c v : is_u 25 c -> is_u 5 v -> polymod_step c v = c * 2 ^ 5 + v.
Proof.
  intros Hc Hv. rewrite polymod_step_eq. unfold is_u in *.
  rewrite Z.shiftr_div_pow2, (Z.div_small c) by lia. change (gen_mask (u8 0)) with 0.
  rewrite Z.lxor_0_r. change 0x01ffffff with (Z.ones 25).
  rewrite land_ones_wrap, (wrap_id 25) by (unfold is_u; lia).
  rewrite Z.shiftl_mul_pow2, (wrap_id 32) by (unfold is_u; lia).
  apply lxor_low; lia.
Qed.

Lemma polymod_digits l :
  Forall (is_u 5) l -> (length l <= 6)%nat ->
  fold_left polymod_step l 0 = from_digits 5 l.
Proof.
  induction l as [|v l IH] using rev_ind; intros H Hl; [reflexivity|].
  apply Forall_app in H as [H Hv]. inversion_clear Hv. rewrite length_app in Hl. simpl in Hl.
  rewrite fold_left_app, IH by (auto; lia). cbn [fold_left].
  pose proof (from_digits_bound 5 ltac:(lia) l H) as B.
  rewrite from_digits_snoc. apply polymod_step_small; auto.
  unfold is_u in *. split; [lia|].
  apply Z.lt_le_trans with (1 := proj2 B). apply Z.pow_le_mono_r; lia.
Qed.

Lemma fold_polymod_bound l c : is_u 30 c -> Forall (is_u 5) l -> is_u 30 (fold_left polymod_step l c).
Proof.
  intros Hc H. revert c Hc. induction H; intros c Hc; simpl; auto using polymod_step_bound.
Qed.

Lemma checksum_digits_eq c v :
  checksum_digits c v
  = to_digits 5 6 (Z.lxor (fold_left polymod_step (replicate 6 0) c) (variant_constant v)).
Proof.
  unfold checksum_digits, CHECKSUM_LENGTH.
  generalize (Z.lxor (fold_left polymod_step (replicate 6 0) c) (variant_constant v)) as z.
  intros z. cbn [seq fmap list_fmap to_digits].
  change 0x1f with (Z.ones 5). rewrite !land_ones_wrap, !Z.shiftr_div_pow2 by lia. reflexivity.
Qed.

Lemma variant_constant_bound v : is_u 30 (variant_constant v).
Proof. destruct v; vm_compute; split; congruence. Qed.

(** Feeding the six checksum digits brings the state to the variant's constant. *)
Lemma polymod_checksum c v :
  is_u 30 c -> fold_left polymod_step (checksum_digits c v) c = variant_constant v.
Proof.
  intros Hc. rewrite checksum_digits_eq.
  set (c6 := fold_left polymod_step (replicate 6 0) c).
  set (d := to_digits 5 6 (Z.lxor c6 (variant_constant v))).
  assert (is_u 30 c6) as H6.
  { apply fold_polymod_bound; auto. repeat constructor; lia. }
  assert (Forall (is_u 5) d) as Hd by (apply to_digits_bound; lia).
  rewrite <- (Z.lxor_0_r c) at 1. rewrite polymod_lxor, polymod_digits by (auto; reflexivity).
  unfold d at 1. rewrite length_to_digits. fold c6. unfold d. rewrite from_to_digits by lia.
  rewrite Z.mod_small by (apply lxor_bound; auto using variant_constant_bound; lia).
  now rewrite <- Z.lxor_assoc, Z.lxor_nilpotent, Z.lxor_0_l.
Qed.

(** ** Human-readable part *)

Definition hrp_range (b : Z) : Prop := 33 <= b <= 126.

Lemma check_hrp_loop_ok bs l u u' l' :
  l && u = false ->
  check_hrp_loop bs l u = Ok (u', l') <->
  Forall hrp_range bs /\ l' = l || existsb is_lowercase bs /\
  u' = u || existsb is_uppercase bs /\ l' && u' = false.
Proof.
  revert l u. induction bs as [|b bs IH]; intros l u Hlu; cbn [check_hrp_loop existsb].
  - rewrite !orb_false_r. split.
    + intros [= <- <-]. auto.
    + intros (_ & -> & -> & _). reflexivity.
  - rewrite Forall_cons_iff. unfold hrp_range at 1.
    destruct ((33 <=? b) && (b <=? 126)) eqn:Hr; simpl; [|split; [discriminate|lia]].
    assert (negb (is_lowercase b) && (65 <=? b) && (b <=? 90) = is_uppercase b) as Hup.
    { unfold is_lowercase, is_uppercase.
      destruct (97 <=? b) eqn:?, (b <=? 122) eqn:?, (65 <=? b) eqn:?, (b <=? 90) eqn:?; simpl; auto; lia. }
    change ((97 <=? b) && (b <=? 122)) with (is_lowercase b). rewrite Hup.
    destruct ((l || is_lowercase b) && (u || is_uppercase b)) eqn:E.
    + split; [discriminate|]. intros (_ & -> & -> & H). exfalso.
      apply andb_true_iff in E as [E1 E2]. rewrite !orb_assoc, E1, E2 in H. discriminate.
    + rewrite IH by auto. rewrite !orb_assoc. intuition lia.
Qed.

Lemma utf8_hrp s : Forall hrp_range (utf8 s) -> Forall hrp_range s /\ utf8 s = s.
Proof.
  unfold utf8. induction s as [|c s IH]; [split; auto|]. cbn [flat_map]. rewrite Forall_app.
  intros [Hc Hs]. specialize (IH Hs) as [IH1 IH2]. rewrite IH2. unfold utf8_char in *.
  destruct (c <? 128) eqn:E1; [apply Forall_inv in Hc; auto|exfalso].
  destruct (c <? 2048) eqn:E2; [|destruct (c <? 65536) eqn:E3];
    apply Forall_inv in Hc; unfold hrp_range in Hc; dlia.
Qed.

Lemma check_hrp_ok hrp case :
  check_hrp hrp = Ok case ->
  Forall hrp_range hrp /\ utf8 hrp = hrp /\ hrp <> [] /\ Z.of_nat (length hrp) <= 83 /\
  existsb is_lowercase hrp && existsb is_uppercase hrp = false /\
  (case = Upper <-> existsb is_uppercase hrp = true).
Proof.
  unfold check_hrp. destruct (bool_decide (utf8 hrp = []) || _) eqn:E; [discriminate|].
  apply orb_false_iff in E as [E1 E2]. apply bool_decide_eq_false in E1.
  rewrite bind_ok. intros ([up low] & H & Hc).
  apply check_hrp_loop_ok in H as (Hr & -> & -> & Hx); [|reflexivity]. simpl in *.
  apply utf8_hrp in Hr as [Hr Hu]. rewrite Hu in *.
  repeat split; auto; try lia;
    destruct (existsb is_uppercase hrp), (existsb is_lowercase hrp); naive_solver.
Qed.

Lemma check_hrp_intro hrp :
  Forall hrp_range hrp -> hrp <> [] -> Z.of_nat (length hrp) <= 83 ->
  existsb is_uppercase hrp = false ->
  exists case, check_hrp hrp = Ok case /\ case <> Upper.
Proof.
  intros Hr Hn Hl Hu.
  assert (utf8 hrp = hrp) as E.
  { apply utf8_ascii. eapply Forall_impl; [|exact Hr]. unfold hrp_range, is_ascii. intros; lia. }
  unfold check_hrp. rewrite E, bool_decide_false by auto.
  replace (83 <? Z.of_nat (length hrp)) with false by lia. cbn [orb].
  rewrite (proj2 (check_hrp_loop_ok hrp false false false (existsb is_lowercase hrp) eq_refl)).
  - simpl. destruct (existsb is_lowercase hrp); eexists; split; eauto; discriminate.
  - rewrite Hu. simpl. rewrite andb_false_r. auto.
Qed.

Lemma to_lower_range c : hrp_range c -> hrp_range (to_lower c) /\ is_uppercase (to_lower c) = false.
Proof.
  unfold hrp_range, to_lower, is_uppercase.
  destruct (65 <=? c) eqn:?, (c <=? 90) eqn:?; simpl; intros; split; try lia;
    try (apply andb_false_iff; lia).
Qed.

Lemma to_lowercase_range s :
  Forall hrp_range s -> Forall hrp_range (to_lowercase s) /\ existsb is_uppercase (to_lowercase s) = false.
Proof.
  induction 1 as [|c s Hc _ [IH1 IH2]]; simpl; auto.
  apply to_lower_range in Hc as [H1 H2]. rewrite H2. auto.
Qed.

(** What the encoder writes is again a valid human-readable part, without upper case. *)
Lemma check_hrp_lowered hrp case :
  check_hrp hrp = Ok case ->
  exists case', check_hrp (hrp_lowered case hrp) = Ok case' /\ case' <> Upper /\
    utf8 (hrp_lowered case hrp) = hrp_lowered case hrp /\
    Forall hrp_range (hrp_lowered case hrp).
Proof.
  intros H. apply check_hrp_ok in H as (Hr & Hu & Hn & Hl & Hx & Hc).
  assert (Forall hrp_range (hrp_lowered case hrp) /\
          existsb is_uppercase (hrp_lowered case hrp) = false) as [H1 H2].
  { destruct case; simpl; [now apply to_lowercase_range|split; auto..];
      apply not_true_iff_false; intros E; apply Hc in E; discriminate. }
  destruct (check_hrp_intro (hrp_lowered case hrp)) as (c' & Hc' & Hne); auto.
  - destruct case; simpl; auto. now destruct hrp.
  - destruct case; simpl; auto. unfold to_lowercase. now rewrite length_fmap.
  - exists c'. repeat split; auto. apply utf8_ascii. eapply Forall_impl; [|exact H1].
    unfold hrp_range, is_ascii. intros; lia.
Qed.

(** ** Data characters *)

Definition charset_entry_ok (v : nat) : bool :=
  match CHARSET !! v with
  | Some c => is_ascii c && (0 <=? c) && negb (c =? SEP) && negb (is_uppercase c) &&
              bool_decide (CHARSET_REV !! Z.to_nat c = Some (Z.of_nat v))
  | None => false
  end.

Lemma charset_table : forallb charset_entry_ok (seq 0 32) = true.
Proof. vm_compute. reflexivity. Qed.

Lemma charset_ok v :
  is_u 5 v -> exists c, CHARSET !! Z.to_nat v = Some c /\ is_ascii c = true /\ c <> SEP /\
    is_uppercase c = false /\ CHARSET_REV !! Z.to_nat c = Some v.
Proof.
  intros Hv. unfold is_u in Hv. change (2 ^ 5) with 32 in Hv.
  pose proof charset_table as T. rewrite forallb_forall in T.
  specialize (T (Z.to_nat v)). unfold charset_entry_ok in T.
  destruct (CHARSET !! Z.to_nat v) as [c|]; [|discriminate T; apply in_seq; lia].
  exists c. split; [reflexivity|].
  assert (In (Z.to_nat v) (seq 0 32)) as Hin by (apply in_seq; lia). specialize (T Hin).
  rewrite !andb_true_iff, !negb_true_iff in T. destruct T as [[[[T1 T2] T3] T4] T5].
  apply bool_decide_eq_true in T5. rewrite T5, Z2Nat.id by lia. repeat split; auto. lia.
Qed.

(** [cs] are the characters of the 5-bit values [data]. *)
Definition spells (data : list Z) (cs : str) : Prop :=
  Forall2 (fun v c => CHARSET !! Z.to_nat v = Some c) data cs.

Lemma spells_exists data : Forall (is_u 5) data -> exists cs, spells data cs.
Proof.
  induction 1 as [|v data Hv _ [cs IH]]; [exists []; constructor|].
  destruct (charset_ok v Hv) as (c & Hc & _). exists (c :: cs). now constructor.
Qed.

Lemma spells_no_sep data cs : Forall (is_u 5) data -> spells data cs -> SEP ∉ cs.
Proof.
  intros H S. induction S as [|v c data cs Hc S IH]; [apply not_elem_of_nil|].
  apply Forall_cons_iff in H as [Hv H]. apply not_elem_of_cons. split; [|auto].
  destruct (charset_ok v Hv) as (c' & Hc' & _ & Hne & _). congruence.
Qed.

Lemma spells_ascii data cs :
  Forall (is_u 5) data -> spells data cs -> Forall (fun c => is_ascii c = true) cs.
Proof.
  intros H S. induction S as [|v c data cs Hc S IH]; [constructor|].
  apply Forall_cons_iff in H as [Hv H]. constructor; [|auto].
  destruct (charset_ok v Hv) as (c' & Hc' & Ha & _). congruence.
Qed.

Lemma decode_chars_spells case data cs :
  case <> Upper -> Forall (is_u 5) data -> spells data cs -> decode_chars case cs = Ok data.
Proof.
  intros Hcase H S. revert case Hcase.
  induction S as [|v c data cs Hc S IH]; intros case Hcase; [reflexivity|].
  apply Forall_cons_iff in H as [Hv H]. specialize (IH H).
  destruct (charset_ok v Hv) as (c' & Hc' & Ha & _ & Hup & Hrev).
  assert (c' = c) as -> by congruence. cbn [decode_chars]. rewrite Ha, Hup. simpl.
  unfold is_u in Hv. change (2 ^ 5) with 32 in Hv.
  destruct (is_lowercase c); [destruct case; try congruence|]; simpl;
    rewrite Hrev; simpl;
    replace ((0 <=? v) && (v <=? 31)) with true by lia; simpl; rewrite IH by congruence; reflexivity.
Qed.

Lemma rsplit_sep_app h d : SEP ∉ d -> rsplit_sep (h ++ SEP :: d) = Some (h, d).
Proof.
  intros Hd. assert (rsplit_sep d = None) as E.
  { induction d as [|c d IH]; auto. apply not_elem_of_cons in Hd as [Hc Hd]. simpl.
    rewrite IH by auto. destruct (c =? SEP) eqn:E; auto. lia. }
  induction h as [|c h IH]; cbn [app rsplit_sep]; [now rewrite E|]. now rewrite IH.
Qed.

(** ** The writer *)

Lemma write_all_spells data cs w :
  spells data cs ->
  write_all w data = Ok {| formatter := formatter w ++ cs;
                           chk := fold_left polymod_step data (chk w); w_variant := w_variant w |}.
Proof.
  intros S. revert w. induction S as [|v c data cs Hc S IH]; intros w; cbn [write_all fold_left].
  - destruct w. simpl. now rewrite app_nil_r.
  - unfold write_u5, to_char. rewrite Hc. simpl. rewrite IH. simpl. now rewrite <- app_assoc.
Qed.

Lemma write_checksum_spells f c v cs :
  spells (checksum_digits c v) cs ->
  write_checksum {| formatter := f; chk := c; w_variant := v |} = Ok (f ++ cs).
Proof.
  unfold write_checksum. cbn [formatter chk w_variant].
  generalize (checksum_digits c v) as ds. intros ds S.
  assert (fold_right (fun d acc => c ← to_char d; l ← acc; Ok (c :: l)) (Ok []) ds
          = (Ok cs : result Bech32Error str)) as ->; [|reflexivity].
  induction S as [|d k data cs Hc S IH]; [reflexivity|].
  cbn [fold_right]. rewrite IH. unfold to_char. rewrite Hc. reflexivity.
Qed.

Lemma writer_new_chk hrp v : chk (Bech32Writer_new hrp v) = polymod (hrp_expand (utf8 hrp)).
Proof.
  unfold Bech32Writer_new, polymod, hrp_expand. simpl. rewrite !fold_left_app. cbn [fold_left].
  assert (forall (g : Z -> Z) l c,
            fold_left polymod_step (g <$> l) c = fold_left (fun c b => polymod_step c (g b)) l c)
    as E by (intros g l; induction l; simpl; auto).
  now rewrite !E.
Qed.

Lemma hrp_expand_bound hrp : Forall hrp_range hrp -> Forall (is_u 5) (hrp_expand hrp).
Proof.
  intros H. unfold hrp_expand. rewrite !Forall_app, !Forall_fmap.
  split; [|split; [repeat constructor; lia|]]; (eapply Forall_impl; [|exact H]).
  - intros b Hb. unfold hrp_range, compose in *. rewrite Z.shiftr_div_pow2 by lia.
    unfold is_u. change (2 ^ 5) with 32. dlia.
  - intros b _. unfold compose. change 0x1f with (Z.ones 5). rewrite land_ones_wrap by lia.
    apply wrap_bound. lia.
Qed.

Lemma from_remainder_constant v : from_remainder (variant_constant v) = Some v.
Proof. now destruct v. Qed.

Lemma checksum_digits_bound c v : Forall (is_u 5) (checksum_digits c v).
Proof. rewrite checksum_digits_eq. apply to_digits_bound. lia. Qed.

(** The checksum the writer appends to [data] under the lower-cased part [lo]. *)
Definition writer_checksum (lo : str) (data : list Z) (v : Variant) : list Z :=
  checksum_digits (fold_left polymod_step data (chk (Bech32Writer_new lo v))) v.

Lemma length_writer_checksum lo data v : length (writer_checksum lo data v) = 6%nat.
Proof. unfold writer_checksum. rewrite checksum_digits_eq. apply length_to_digits. Qed.

(** The reader's remainder over data and checksum is the variant's constant. *)
Lemma verify_writer_checksum lo data v :
  utf8 lo = lo -> Forall hrp_range lo -> Forall (is_u 5) data ->
  verify_checksum (utf8 lo) (data ++ writer_checksum lo data v) = Some v.
Proof.
  intros Hutf Hrange Hd. unfold verify_checksum, polymod.
  rewrite fold_left_app. fold (polymod (hrp_expand (utf8 lo))).
  rewrite <- (writer_new_chk lo v), fold_left_app.
  assert (is_u 30 (chk (Bech32Writer_new lo v))) as Hw.
  { rewrite writer_new_chk, Hutf. apply fold_polymod_bound; [vm_compute; split; congruence|].
    now apply hrp_expand_bound. }
  unfold writer_checksum. rewrite polymod_checksum by (apply fold_polymod_bound; auto).
  apply from_remainder_constant.
Qed.

Lemma encode_spells hrp case data v cs ks :
  let lo := hrp_lowered case hrp in
  check_hrp hrp = Ok case -> spells data cs -> spells (writer_checksum lo data v) ks ->
  encode hrp data v = Ok (lo ++ SEP :: cs ++ ks).
Proof.
  intros lo Hhrp Hcs Hks. unfold encode. rewrite Hhrp. cbn [mbind result_bind]. fold lo.
  rewrite (write_all_spells _ _ _ Hcs). cbn [mbind result_bind].
  change (w_variant (Bech32Writer_new lo v)) with v.
  rewrite (write_checksum_spells _ _ _ ks Hks). f_equal.
  change (formatter (Bech32Writer_new lo v)) with (lo ++ [SEP]). now rewrite <- !app_assoc.
Qed.

Lemma decode_spells lo case data v cs ks :
  check_hrp lo = Ok case -> case <> Upper -> utf8 lo = lo -> Forall hrp_range lo ->
  Forall (is_u 5) data -> spells data cs -> spells (writer_checksum lo data v) ks ->
  decode (lo ++ SEP :: cs ++ ks) = Ok (lo, data, v).
Proof.
  intros Hlow Hcase Hutf Hrange Hd Hcs Hks. set (ds := writer_checksum lo data v) in *.
  assert (Forall (is_u 5) (data ++ ds)) as Hall
    by (apply Forall_app; split; [assumption | apply checksum_digits_bound]).
  assert (spells (data ++ ds) (cs ++ ks)) as Sall by (apply Forall2_app; assumption).
  unfold decode, split_and_decode. rewrite rsplit_sep_app by eauto using spells_no_sep.
  cbn [ok_or mbind result_bind]. rewrite Hlow. cbn [mbind result_bind].
  rewrite (decode_chars_spells _ _ _ Hcase Hall Sall). cbn [mbind result_bind].
  assert (hrp_lowered case lo = lo) as -> by (destruct case; simpl; congruence).
  assert (length ds = 6%nat) as Hlen by apply length_writer_checksum. rewrite length_app, Hlen.
  replace (_ <? CHECKSUM_LENGTH)%nat with false
    by (symmetry; apply Nat.ltb_ge; unfold CHECKSUM_LENGTH; lia).
  pose proof (verify_writer_checksum lo data v Hutf Hrange Hd) as V. fold ds in V. rewrite V.
  replace (length data + 6 - CHECKSUM_LENGTH)%nat with (length data) by (unfold CHECKSUM_LENGTH; lia).
  now rewrite take_app_length.
Qed.

(** What [encode] returns, and that [decode] reads it back. *)
Lemma encode_decodes hrp case data v :
  check_hrp hrp = Ok case -> Forall (is_u 5) data ->
  exists s, encode hrp data v = Ok s /\ decode s = Ok (hrp_lowered case hrp, data, v) /\
    length s = (length hrp + 7 + length data)%nat /\ Forall (fun c => is_ascii c = true) s.
Proof.
  intros Hhrp Hd.
  destruct (check_hrp_lowered _ _ Hhrp) as (case' & Hlow & Hcase' & Hutf & Hrange).
  set (lo := hrp_lowered case hrp) in *.
  pose proof (checksum_digits_bound (fold_left polymod_step data (chk (Bech32Writer_new lo v))) v) as Hds.
  fold (writer_checksum lo data v) in Hds.
  destruct (spells_exists _ Hd) as [cs Hcs]. destruct (spells_exists _ Hds) as [ks Hks].
  exists (lo ++ SEP :: cs ++ ks). split; [now apply encode_spells|].
  split; [eapply decode_spells; eassumption|]. split.
  - rewrite length_app. cbn [length]. rewrite length_app.
    apply Forall2_length in Hcs, Hks. rewrite length_writer_checksum in Hks. rewrite <- Hcs, <- Hks.
    replace (length lo) with (length hrp); [lia|].
    subst lo. destruct case; auto. simpl. unfold to_lowercase. now rewrite length_fmap.
  - apply Forall_app; split.
    + eapply Forall_impl; [|exact Hrange]. unfold hrp_range, is_ascii. intros; lia.
    + constructor; [reflexivity|]. apply Forall_app; split;
        [exact (spells_ascii _ _ Hd Hcs) | exact (spells_ascii _ _ Hds Hks)].
Qed.

(** C38 [encode] of any valid human-readable part and 5-bit data succeeds, and
    [decode] of the string gives back the lower-cased part, the data and the
    variant: the checksum the writer appends is the one the reader accepts. *)
Theorem decode_encode hrp case data v :
  check_hrp hrp = Ok case -> Forall (is_u 5) data ->
  exists s, encode hrp data v = Ok s /\ decode s = Ok (hrp_lowered case hrp, data, v).
Proof.
  intros Hh Hd. destruct (encode_decodes _ _ _ v Hh Hd) as (s & He & Hdec & _). eauto.
Qed.

Lemma decode_encode_witness :
  exists s, encode (lit "ODANX") [0; 14; 20; 31] Bech32m = Ok s /\
            decode s = Ok (lit "odanx", [0; 14; 20; 31], Bech32m).
Proof.
  apply (decode_encode (lit "ODANX") Upper [0; 14; 20; 31] Bech32m).
  - vm_compute. reflexivity.
  - repeat constructor; lia.
Defined.

(** ** Regrouping bits *)

(** [s] has consumed bytes of big-endian value [V] and count [n]: the written
    digits followed by the [buffer_bits] high bits of the buffer spell [V]. *)
Record b32_inv (s : B32Buf) (n V : Z) : Prop := {
  inv_bits : 0 <= buffer_bits s <= 7;
  inv_buffer : exists q, buffer s = q * 2 ^ (8 - buffer_bits s) /\ 0 <= q < 2 ^ buffer_bits s /\
                 V = from_digits 5 (written s) * 2 ^ buffer_bits s + q;
  inv_count : 8 * n = 5 * Z.of_nat (length (written s)) + buffer_bits s;
  inv_digits : Forall (is_u 5) (written s)
}.

Ltac bit_cases bb H :=
  let E := fresh in
  assert (bb = 0 \/ bb = 1 \/ bb = 2 \/ bb = 3 \/ bb = 4 \/ bb = 5 \/ bb = 6 \/ bb = 7) as E by lia;
  destruct E as [E|[E|[E|[E|[E|[E|[E|E]]]]]]]; subst bb; try (exfalso; lia); clear H.

Lemma high5 b : is_byte b -> Z.shiftr (Z.land b 0xf8) 3 = b / 8.
Proof.
  intros H. apply Z.eqb_eq.
  apply (byte_forall (fun b => Z.shiftr (Z.land b 0xf8) 3 =? b / 8)); [vm_compute; reflexivity | assumption].
Qed.

Lemma flush5_inv s n V : b32_inv s n V -> b32_inv (flush5 s) n V /\ 0 <= buffer_bits (flush5 s) <= 4.
Proof.
  intros [Hb (q & Hq & Hqb & HV) Hc Hd]. unfold flush5.
  destruct (5 <=? buffer_bits s) eqn:E; [|split; [|lia]; split; eauto; lia].
  destruct s as [bb bu wr]; cbn [buffer_bits buffer written] in *.
  rewrite high5 by (unfold is_byte, is_u; bit_cases bb Hb; lia).
  rewrite Z.shiftl_mul_pow2 by lia. unfold wrap.
  split; [|cbn [buffer_bits]; lia].
  split; cbn [buffer_bits buffer written]; rewrite ?length_app, ?from_digits_snoc; cbn [length].
  - lia.
  - exists (q mod 2 ^ (bb - 5)).
    bit_cases bb Hb; try discriminate E; simpl in *; split_and!; dlia.
  - lia.
  - apply Forall_app; split; [assumption|]. constructor; [|constructor]. unfold is_u.
    bit_cases bb Hb; try discriminate E; simpl in *; dlia.
Qed.

Lemma write_base32_step_inv s b n V :
  is_byte b -> b32_inv s n V -> b32_inv (write_base32_step s b) (n + 1) (V * 2 ^ 8 + b).
Proof.
  intros Hbyte Hinv. apply flush5_inv in Hinv as [[_ (q & Hq & Hqb & HV) Hc Hd] Hb].
  unfold write_base32_step. destruct (flush5 s) as [bb bu wr]; cbn [buffer_bits buffer written] in *.
  unfold is_byte, is_u in Hbyte.
  assert (Z.lor (Z.shiftr bu 3) (Z.shiftr b (3 + bb)) = q * 2 ^ (5 - bb) + b / 2 ^ (3 + bb)) as ->.
  { rewrite !Z.shiftr_div_pow2 by lia.
    replace (bu / 2 ^ 3) with (q * 2 ^ (5 - bb)) by (bit_cases bb Hb; simpl in *; dlia).
    apply lor_low; [lia|]. bit_cases bb Hb; simpl in *; dlia. }
  rewrite Z.shiftl_mul_pow2 by lia. unfold wrap.
  split; cbn [buffer_bits buffer written]; rewrite ?length_app, ?from_digits_snoc; cbn [length].
  - lia.
  - exists (b mod 2 ^ (3 + bb)). bit_cases bb Hb; simpl in *; split_and!; dlia.
  - lia.
  - apply Forall_app; split; [assumption|]. constructor; [|constructor]. unfold is_u.
    bit_cases bb Hb; simpl in *; dlia.
Qed.

Lemma to_base32_loop_inv data s n V :
  Forall is_byte data -> b32_inv s n V ->
  b32_inv (fold_left write_base32_step data s) (n + Z.of_nat (length data))
          (fold_left (fun acc b => acc * 2 ^ 8 + b) data V).
Proof.
  intros H. revert s n V.
  induction H as [|b data Hb _ IH]; intros s n V Hs; cbn [fold_left length].
  - now rewrite Z.add_0_r.
  - rewrite Nat2Z.inj_succ. replace (n + Z.succ _) with (n + 1 + Z.of_nat (length data)) by lia.
    now apply IH, write_base32_step_inv.
Qed.

(** The 5-bit digits of [to_base32] spell the bytes followed by fewer than five zero bits. *)
Lemma to_base32_spec data :
  Forall is_byte data -> exists pad, 0 <= pad < 5 /\
    5 * Z.of_nat (length (to_base32 data)) = 8 * Z.of_nat (length data) + pad /\
    from_digits 5 (to_base32 data) = from_be data * 2 ^ pad /\
    Forall (is_u 5) (to_base32 data).
Proof.
  intros H.
  assert (b32_inv {| buffer_bits := 0; buffer := 0; written := [] |} 0 0) as H0.
  { split; cbn [buffer_bits buffer written length]; [lia| |lia|constructor].
    exists 0. unfold from_digits. simpl. lia. }
  apply (to_base32_loop_inv data _ _ _ H) in H0.
  apply flush5_inv in H0 as [[_ (q & Hq & Hqb & HV) Hc Hd] Hb].
  fold (from_digits 8 data) in HV. fold (from_be data) in HV. unfold to_base32.
  destruct (flush5 _) as [bb bu wr]; cbn [buffer_bits buffer written] in *.
  destruct (bb =? 0) eqn:E.
  - exists 0. assert (bb = 0) as -> by lia. simpl in *. repeat split; auto; lia.
  - exists (5 - bb). rewrite length_app, from_digits_snoc, Z.shiftr_div_pow2, Forall_app, Forall_singleton by lia.
    cbn [length]. unfold is_u.
    bit_cases bb Hb; simpl in E; try discriminate; simpl in *; split_and!; auto; dlia.
Qed.

Section convert.
Context (from to : Z) (Hfrom : 1 <= from <= 8) (Hto : 1 <= to <= 8).
Let maxv := Z.shiftl 1 to - 1.

(** The loop state after [n] digits of value [V]. *)
Record conv_inv (acc bits : Z) (ret : list Z) (n V : Z) : Prop := {
  conv_acc : acc = V mod 2 ^ 32;
  conv_nonneg : 0 <= V;
  conv_ret : from_digits to ret = V / 2 ^ bits;
  conv_count : from * n = to * Z.of_nat (length ret) + bits;
  conv_digits : Forall (is_u to) ret
}.

Lemma maxv_ones z : Z.land z maxv = z mod 2 ^ to.
Proof.
  unfold maxv. rewrite Z.shiftl_mul_pow2, Z.mul_1_l by lia.
  rewrite Z.sub_1_r, <- Z.ones_equiv. apply Z.land_ones. lia.
Qed.

Lemma conv_digit V s :
  0 <= V -> 0 <= s -> s + to <= 32 ->
  u8 (Z.land (Z.shiftr (V mod 2 ^ 32) s) maxv) = (V / 2 ^ s) mod 2 ^ to.
Proof.
  intros HV Hs Hle. rewrite maxv_ones, Z.shiftr_div_pow2 by lia.
  rewrite wrap_id.
  2:{ assert (2 ^ to <= 2 ^ 8) by (apply Z.pow_le_mono_r; lia).
      pose proof (Z.mod_pos_bound (V mod 2 ^ 32 / 2 ^ s) (2 ^ to) ltac:(lia)). unfold is_u. lia. }
  rewrite <- !Z.shiftr_div_pow2 by lia. rewrite <- !Z.land_ones by lia.
  apply Z.bits_inj'. intros i Hi. rewrite !Z.land_spec, !Z.shiftr_spec, Z.land_spec by lia.
  destruct (Z.lt_ge_cases i to) as [Hl|Hl].
  - rewrite (Z.ones_spec_low 32) by lia. now rewrite andb_true_r.
  - rewrite (Z.ones_spec_high to) by lia. now rewrite !andb_false_r.
Qed.

Lemma drain_bits_inv fuel acc bits ret n V :
  0 <= bits <= Z.of_nat fuel -> bits <= 15 -> conv_inv acc bits ret n V ->
  exists bits' ret', drain_bits fuel acc bits to maxv ret = (bits', ret') /\
    0 <= bits' < to /\ conv_inv acc bits' ret' n V.
Proof.
  revert bits ret. induction fuel as [|fuel IH]; intros bits ret Hb Hb15 Hinv; cbn [drain_bits].
  - exists bits, ret. split_and!; auto; lia.
  - destruct (to <=? bits) eqn:E; [|exists bits, ret; split_and!; auto; lia].
    apply IH; [lia|lia|]. destruct Hinv as [Ha HV Hr Hc Hd]. split; auto.
    + rewrite from_digits_snoc, Hr, Ha, conv_digit by lia.
      replace bits with ((bits - to) + to) at 1 by lia.
      rewrite Z.pow_add_r, <- Z.div_div by lia.
      rewrite (Z.mul_comm _ (2 ^ to)). symmetry. apply Z.div_mod. lia.
    + rewrite length_app. simpl. lia.
    + apply Forall_app; split; [assumption|]. constructor; [|constructor].
      rewrite Ha, conv_digit by lia. apply Z.mod_pos_bound. lia.
Qed.

Lemma conv_acc_step V v :
  0 <= V -> is_u from v ->
  Z.lor (u32 (Z.shiftl (V mod 2 ^ 32) from)) v = (V * 2 ^ from + v) mod 2 ^ 32.
Proof.
  intros HV Hv. rewrite Z.shiftl_mul_pow2 by lia. unfold wrap.
  rewrite Z.mul_mod_idemp_l by lia.
  replace (2 ^ 32) with (2 ^ (32 - from) * 2 ^ from)
    by (rewrite <- Z.pow_add_r by lia; f_equal; lia).
  rewrite (Z.mul_mod_distr_r V) by lia. unfold is_u in Hv.
  rewrite lor_low by lia.
  rewrite (Z.mul_comm (2 ^ (32 - from))), Z.rem_mul_r by lia.
  rewrite (Z.add_comm (V * 2 ^ from)), Z.mod_add, (Z.mod_small v) by lia.
  rewrite Z.div_add, (Z.div_small v) by lia. rewrite Z.add_0_l. ring.
Qed.

Lemma convert_bits_loop_inv data acc bits ret n V :
  Forall (is_u from) data -> 0 <= bits < to -> conv_inv acc bits ret n V ->
  exists acc' bits' ret', convert_bits_loop data from to maxv acc bits ret = Ok (acc', bits', ret') /\
    0 <= bits' < to /\
    conv_inv acc' bits' ret' (n + Z.of_nat (length data))
             (fold_left (fun a b => a * 2 ^ from + b) data V).
Proof.
  intros H. revert acc bits ret n V.
  induction H as [|v data Hv _ IH]; intros acc bits ret n V Hb Hinv; cbn [convert_bits_loop fold_left length].
  - exists acc, bits, ret. rewrite Z.add_0_r. auto.
  - rewrite Z.shiftr_div_pow2, Z.div_small, Z.eqb_refl by (unfold is_u in Hv; lia). simpl negb.
    cbv iota.
    destruct Hinv as [Ha HV Hr Hc Hd].
    destruct (drain_bits_inv (Z.to_nat (bits + from)) (Z.lor (u32 (Z.shiftl acc from)) v)
                (bits + from) ret (n + 1) (V * 2 ^ from + v)) as (b' & r' & E & Hb' & Hinv').
    + lia.
    + lia.
    + unfold is_u in Hv. split; auto.
      * rewrite Ha. now apply conv_acc_step.
      * lia.
      * rewrite Hr, (Z.add_comm bits), Z.pow_add_r, <- Z.div_div by lia.
        rewrite Z.div_add_l, (Z.div_small v) by lia. now rewrite Z.add_0_r.
      * lia.
    + rewrite E. rewrite Nat2Z.inj_succ.
      replace (n + Z.succ (Z.of_nat (length data))) with (n + 1 + Z.of_nat (length data)) by lia.
      now apply IH.
Qed.

Lemma convert_bits_loop_spec data :
  Forall (is_u from) data ->
  exists acc bits ret, convert_bits_loop data from to maxv 0 0 [] = Ok (acc, bits, ret) /\
    0 <= bits < to /\ conv_inv acc bits ret (Z.of_nat (length data)) (from_digits from data).
Proof.
  intros H. apply (convert_bits_loop_inv data 0 0 [] 0 0 H); [lia|].
  split; [reflexivity|lia|reflexivity|cbn [length]; lia|constructor].
Qed.
End convert.

Lemma base32_roundtrip data : Forall is_byte data -> from_base32 (to_base32 data) = Ok data.
Proof.
  intros H. destruct (to_base32_spec data H) as (pad & Hp & Hlen & Hval & Hd).
  unfold from_base32, convert_bits. cbn [orb].
  destruct (convert_bits_loop_spec 5 8 ltac:(lia) ltac:(lia) _ Hd)
    as (acc & bits & ret & -> & Hb & [Ha HV Hr Hc Hrd]).
  assert (bits = pad /\ length ret = length data) as [-> Hl] by lia.
  simpl orb. cbn [mbind result_bind].
  assert (ret = data) as ->.
  { apply (from_digits_inj 8); auto; [lia|]. rewrite Hr, Hval, Z.div_mul by lia. reflexivity. }
  replace (5 <=? pad) with false by lia. cbn [orb].
  change (Z.shiftl 1 8 - 1) with (Z.ones 8).
  rewrite land_ones_wrap, Z.shiftl_mul_pow2 by lia. rewrite Ha, Hval.
  assert (wrap 8 (u32 ((from_be data * 2 ^ pad) mod 2 ^ 32 * 2 ^ (8 - pad))) = 0) as ->; [|reflexivity].
  unfold wrap. rewrite Z.mul_mod_idemp_l by lia.
  replace (from_be data * 2 ^ pad * 2 ^ (8 - pad)) with (from_be data * 2 ^ 8)
    by (rewrite <- Z.mul_assoc, <- Z.pow_add_r by lia; repeat f_equal; lia).
  change (2 ^ 32) with (2 ^ 24 * 2 ^ 8). rewrite Z.mul_mod_distr_r by lia. now apply Z.mod_mul.
Qed.

(** Regrouping bytes into 5-bit values and back is the identity: the decoder
    of an address payload recovers the bytes the encoder packed. *)
Theorem from_to_base32 data : Forall is_byte data -> from_base32 (to_base32 data) = Ok data.
Proof. apply base32_roundtrip. Qed.

Lemma from_to_base32_witness : from_base32 (to_base32 [0xde; 0xad; 0xbe]) = Ok [0xde; 0xad; 0xbe].
Proof. apply from_to_base32. repeat constructor; lia. Defined.

(** The allocation-free [write_base32] computes what the general
    [convert_bits] computes from 8 to 5 bits with padding, and its length is
    the one [base32_len] announces. *)
Theorem to_base32_convert_bits data :
  Forall is_byte data ->
  convert_bits data 8 5 true = Ok (to_base32 data) /\
  base32_len data = Z.of_nat (length (to_base32 data)).
Proof.
  intros H. destruct (to_base32_spec data H) as (pad & Hp & Hlen & Hval & Hd).
  unfold base32_len. split; [|destruct (_ mod 5 =? 0) eqn:E; dlia].
  unfold convert_bits. simpl orb.
  destruct (convert_bits_loop_spec 8 5 ltac:(lia) ltac:(lia) _ H)
    as (acc & bits & ret & -> & Hb & [Ha HV Hr Hc Hrd]).
  fold (from_be data) in Ha, HV, Hr. cbv iota. cbn [mbind result_bind]. destruct (0 <? bits) eqn:E.
  - assert (bits = 5 - pad) as -> by lia. f_equal. apply (from_digits_inj 5); auto; try lia.
    + rewrite length_app. simpl. lia.
    + apply Forall_app; split; [assumption|]. constructor; [|constructor].
      rewrite (maxv_ones 5) by lia. rewrite wrap_id.
      * apply Z.mod_pos_bound. lia.
      * pose proof (Z.mod_pos_bound (u32 (Z.shiftl acc (5 - (5 - pad)))) (2 ^ 5) ltac:(lia)).
        unfold is_u. lia.
    + rewrite from_digits_snoc, Hval, Hr. replace (5 - (5 - pad)) with pad by lia.
      rewrite (maxv_ones 5), Z.shiftl_mul_pow2 by lia. rewrite Ha.
      assert ((u32 (from_be data mod 2 ^ 32 * 2 ^ pad)) mod 2 ^ 5 = from_be data * 2 ^ pad mod 2 ^ 5) as ->.
      { unfold wrap. rewrite Z.mul_mod_idemp_l by lia.
        apply Z.mod_mod_divide. now exists (2 ^ 27). }
      set (V := from_be data). rewrite wrap_id.
      * replace (2 ^ 5) with (2 ^ (5 - pad) * 2 ^ pad)
          by (rewrite <- Z.pow_add_r by lia; f_equal; lia).
        rewrite Z.mul_mod_distr_r by lia.
        rewrite (Z.div_mod V (2 ^ (5 - pad))) at 3 by lia. ring.
      * pose proof (Z.mod_pos_bound (V * 2 ^ pad) (2 ^ 5) ltac:(lia)). unfold is_u. lia.
  - assert (bits = 0 /\ pad = 0) as [-> ->] by lia. f_equal.
    apply (from_digits_inj 5); auto; [lia..|]. rewrite Hr, Hval. simpl.
    now rewrite Z.div_1_r, Z.mul_1_r.
Qed.

Lemma to_base32_convert_bits_witness :
  convert_bits [0xff; 0x10] 8 5 true = Ok (to_base32 [0xff; 0x10]) /\
  base32_len [0xff; 0x10] = Z.of_nat (length (to_base32 [0xff; 0x10])).
Proof. apply to_base32_convert_bits. repeat constructor; lia. Defined.
