(* ===== verification/Compact.v ===== *)
(** * Compact targets

    The 32-bit floating encoding of a 256-bit proof-of-work target
    (src/common/primitive-types/src/lib.rs, [Compact]) and the [U256] operations
    it uses, at the level of the values of [U256].  Theorems: the decoder never
    drops bits of a target it accepts, the encoder never panics, and decoding
    what the encoder wrote gives the target truncated to its leading bits, with
    a relative error below 2^-15. *)
From S2P Require Import Prelude.

(** ** [U256] values *)

Definition U256_MAX : Z := 2 ^ 256 - 1.
(** [U256::bits] *)
Definition U256_bits (x : Z) : Z := if x =? 0 then 0 else Z.log2 x + 1.
(** [U256 << n] and [U256 >> n] *)
Definition U256_shl (x n : Z) : Z := wrap 256 (Z.shiftl x n).
Definition U256_shr (x n : Z) : Z := Z.shiftr x n.
(** [+] and [*] panic on overflow, [/] on a zero divisor; [!] complements. *)
Definition U256_add {E} (a b : Z) : result E Z := if a + b <? 2 ^ 256 then Ok (a + b) else Panic.
Definition U256_mul {E} (a b : Z) : result E Z := if a * b <? 2 ^ 256 then Ok (a * b) else Panic.
Definition U256_div {E} (a b : Z) : result E Z := if b =? 0 then Panic else Ok (a / b).
Definition U256_not (a : Z) : Z := U256_MAX - a.

(** ** The encoding *)

Definition to_u256 (c : Z) : result Z Z :=
  let size := Z.shiftr c 24 in
  let word := Z.land c 0x007fffff in
  let '(word, result) :=
    if size <=? 3 then
      let word := Z.shiftr word (8 * (3 - size)) in (word, word)
    else (word, U256_shl word (8 * (size - 3))) in
  let is_negative := negb (word =? 0) && negb (Z.land c 0x00800000 =? 0) in
  let is_overflow :=
    (negb (word =? 0) && (34 <? size)) || ((0xff <? word) && (33 <? size))
    || ((0xffff <? word) && (32 <? size)) in
  if is_negative || is_overflow then Err result else Ok result.

(** [From<Compact> for U256]: overflows and negative values are ignored. *)
Definition U256_from_compact (c : Z) : Z :=
  match to_u256 c with Ok x => x | Err x => x | Panic => 0 end.

Definition from_u256 {E} (val : Z) : result E Z :=
  let size := (U256_bits val + 7) / 8 in
  let compact :=
    if size <=? 3 then u32 (u64 (Z.shiftl (u64 val) (8 * (3 - size))))
    else u32 (U256_shr val (8 * (size - 3))) in
  let '(compact, size) :=
    if negb (Z.land compact 0x00800000 =? 0) then (Z.shiftr compact 8, size + 1)
    else (compact, size) in
  if negb (Z.land compact (Z.lxor 0xffffffff 0x007fffff) =? 0) then Panic
  else if negb (size <? 256) then Panic
  else Ok (Z.lor compact (u32 (Z.shiftl size 24))).

Definition Compact_max_value {E} : result E Z := from_u256 U256_MAX.

(** ** Arithmetic reading of the operations *)

Lemma U256_bits_spec x : 0 < x -> 2 ^ (U256_bits x - 1) <= x < 2 ^ U256_bits x.
Proof.
  intros Hx. unfold U256_bits. rewrite (proj2 (Z.eqb_neq x 0)) by lia.
  pose proof (Z.log2_spec x Hx). replace (Z.succ (Z.log2 x)) with (Z.log2 x + 1) in H by lia.
  replace (Z.log2 x + 1 - 1) with (Z.log2 x) by lia. exact H.
Qed.

Lemma U256_bits_bound x : is_u 256 x -> 0 <= U256_bits x <= 256.
Proof.
  unfold is_u. intros H. unfold U256_bits. destruct (Z.eqb_spec x 0); [lia|].
  pose proof (Z.log2_nonneg x). assert (Z.log2 x < 256) by (apply Z.log2_lt_pow2; lia). lia.
Qed.

Lemma compact_word c : Z.land c 0x007fffff = c mod 2 ^ 23.
Proof. change 0x007fffff with (Z.ones 23). apply Z.land_ones. lia. Qed.

(** Testing bit 23, the sign bit of the mantissa. *)
Lemma compact_sign_bit c : (Z.land c 0x00800000 =? 0) = negb (Z.testbit c 23).
Proof.
  change 0x00800000 with (2 ^ 23). destruct (Z.testbit c 23) eqn:E; simpl.
  - apply Z.eqb_neq. intros H.
    assert (Z.testbit (Z.land c (2 ^ 23)) 23 = true) as H'
      by (rewrite Z.land_spec, E, Z.pow2_bits_true; [reflexivity | lia]).
    rewrite H, Z.bits_0 in H'. discriminate.
  - apply Z.eqb_eq. apply Z.bits_inj'. intros i Hi. rewrite Z.land_spec, Z.bits_0.
    destruct (Z.eq_dec i 23) as [->|Hne]; [now rewrite E|].
    now rewrite Z.pow2_bits_false, andb_false_r by auto.
Qed.

Lemma testbit23 m : 0 <= m < 2 ^ 24 -> Z.testbit m 23 = (2 ^ 23 <=? m).
Proof.
  intros H. rewrite Z.testbit_odd, Z.shiftr_div_pow2 by lia.
  destruct (Z.leb_spec (2 ^ 23) m).
  - replace (m / 2 ^ 23) with 1; [reflexivity|]. dlia.
  - now rewrite Z.div_small by lia.
Qed.

(** The value a mantissa [m] and an exponent byte [s] denote. *)
Definition compact_value (m s : Z) : Z :=
  if s <=? 3 then m / 2 ^ (8 * (3 - s)) else m * 2 ^ (8 * (s - 3)).

(** Mantissas and sizes whose value fits in 256 bits. *)
Definition compact_fits (m s : Z) : Prop :=
  0 <= m < 2 ^ 23 /\ 0 <= s /\
  (32 < s -> m < 2 ^ 16) /\ (33 < s -> m < 2 ^ 8) /\ (34 < s -> m = 0).

Lemma compact_value_bound m s : compact_fits m s -> is_u 256 (compact_value m s).
Proof.
  intros (Hm & Hs & H32 & H33 & H34). unfold compact_value, is_u.
  destruct (Z.leb_spec s 3).
  - split; [apply Z.div_pos; lia|].
    apply (Z.le_lt_trans _ m); [|lia]. apply Z.div_le_upper_bound; [lia|].
    assert (0 < 2 ^ (8 * (3 - s))) by lia. nia.
  - destruct (Z.eq_dec m 0) as [->|Hnz]; [lia|].
    assert (s <= 34) by lia.
    assert (exists k, s <= k /\ m * 2 ^ (8 * (k - 3)) < 2 ^ 256) as (k & Hk & Hb).
    { destruct (Z.le_gt_cases s 32); [exists 32; split; [lia|]|].
      - change (8 * (32 - 3)) with 232. nia.
      - destruct (Z.le_gt_cases s 33); [exists 33 | exists 34]; (split; [lia|]).
        + change (8 * (33 - 3)) with 240. nia.
        + change (8 * (34 - 3)) with 248. nia. }
    assert (2 ^ (8 * (s - 3)) <= 2 ^ (8 * (k - 3))) by (apply Z.pow_le_mono_r; lia).
    split; [lia|]. nia.
Qed.

(** The overflow test of the source decides [compact_fits]. *)
Lemma compact_overflow_test m s :
  0 <= m < 2 ^ 23 -> 0 <= s ->
  (negb (m =? 0) && (34 <? s)) || ((0xff <? m) && (33 <? s)) || ((0xffff <? m) && (32 <? s)) = false
  <-> compact_fits m s.
Proof.
  intros Hm Hs. unfold compact_fits.
  destruct (Z.eqb_spec m 0), (Z.ltb_spec 34 s), (Z.ltb_spec 0xff m), (Z.ltb_spec 33 s),
    (Z.ltb_spec 0xffff m), (Z.ltb_spec 32 s); simpl; split; intros; try discriminate;
    try reflexivity; lia.
Qed.

(** What [to_u256] accepts, and the value it returns then. *)
Lemma to_u256_spec c :
  is_u 32 c ->
  let s := c / 2 ^ 24 in let m := c mod 2 ^ 23 in
  (exists v, to_u256 c = Ok v /\ v = compact_value m s /\ compact_fits m s)
  \/ (exists v, to_u256 c = Err v /\ (Z.testbit c 23 = true \/ ~ compact_fits m s)).
Proof.
  intros Hc s m. unfold is_u in Hc. unfold to_u256. rewrite compact_word, compact_sign_bit.
  rewrite Z.shiftr_div_pow2 by lia. fold s m.
  assert (0 <= s < 256) as Hs by (subst s; dlia).
  assert (0 <= m < 2 ^ 23) as Hm by (subst m; dlia).
  unfold compact_value. destruct (Z.leb_spec s 3) as [H3|H3].
  - rewrite Z.shiftr_div_pow2 by lia.
    rewrite !(proj2 (Z.ltb_ge _ s)) by lia. rewrite !andb_false_r, !orb_false_r, negb_involutive.
    assert (compact_fits m s) by (repeat split; lia).
    destruct (m / _ =? 0), (Z.testbit c 23); simpl; eauto 10.
  - pose proof (compact_overflow_test m s Hm ltac:(lia)) as T. rewrite negb_involutive.
    destruct (_ || _ || _) eqn:O in T |- *.
    + right. rewrite orb_true_r. eexists. split; [reflexivity|]. right. intros F.
      apply T in F. discriminate.
    + assert (compact_fits m s) as F by now apply T.
      pose proof (compact_value_bound m s F) as B. unfold compact_value in B.
      rewrite (proj2 (Z.leb_gt s 3)) in B by lia. unfold U256_shl.
      rewrite Z.shiftl_mul_pow2, wrap_id by (auto; lia). rewrite orb_false_r.
      destruct (m =? 0), (Z.testbit c 23); simpl; eauto 10.
Qed.

Lemma to_u256_bound c v : is_u 32 c -> to_u256 c = Ok v -> is_u 256 v.
Proof.
  intros Hc E. pose proof (to_u256_spec c Hc) as H. cbv zeta in H.
  destruct H as [(v' & E' & -> & F)|(v' & E' & _)]; rewrite E in E'; [|discriminate].
  injection E' as ->. now apply compact_value_bound.
Qed.

(** A compact number built from a mantissa below the sign bit is accepted
    whenever its value fits. *)
Lemma to_u256_intro m s :
  compact_fits m s -> s < 256 -> to_u256 (m + s * 2 ^ 24) = Ok (compact_value m s).
Proof.
  intros F Hs. pose proof F as (Hm & Hs0 & _).
  assert ((m + s * 2 ^ 24) / 2 ^ 24 = s) as E1 by (rewrite Z.div_add, Z.div_small; lia).
  assert ((m + s * 2 ^ 24) mod 2 ^ 23 = m) as E2.
  { replace (s * 2 ^ 24) with (s * 2 * 2 ^ 23) by lia. rewrite Z.mod_add, Z.mod_small; lia. }
  assert (is_u 32 (m + s * 2 ^ 24)) as U by (unfold is_u; lia).
  assert (Z.testbit (m + s * 2 ^ 24) 23 = false) as T.
  { rewrite <- (Z.mod_pow2_bits_low _ 24) by lia. rewrite Z.mod_add, Z.mod_small by lia.
    rewrite testbit23 by lia. apply Z.leb_gt. lia. }
  pose proof (to_u256_spec _ U) as H. cbv zeta in H. rewrite E1, E2, T in H.
  destruct H as [(v & -> & -> & _)|(v & _ & [?|?])]; [reflexivity | discriminate | contradiction].
Qed.

(** The mantissa and size [from_u256] starts from: the leading three bytes. *)
Lemma compact_leading val :
  is_u 256 val ->
  let size := (U256_bits val + 7) / 8 in
  let m := if size <=? 3 then val * 2 ^ (8 * (3 - size)) else val / 2 ^ (8 * (size - 3)) in
  0 <= size <= 32 /\ 0 <= m < 2 ^ 24 /\ (0 < size -> 2 ^ 16 <= m).
Proof.
  intros Hv size m. pose proof (U256_bits_bound val Hv) as Hb.
  assert (0 <= size <= 32) as Hs by (subst size; dlia). split; [exact Hs|].
  unfold is_u in Hv. destruct (Z.eq_dec val 0) as [->|Hnz].
  { replace size with 0 in * by reflexivity. subst m. simpl. lia. }
  pose proof (U256_bits_spec val ltac:(lia)) as [Hl Hu].
  assert (8 * (size - 1) <= U256_bits val - 1 /\ U256_bits val <= 8 * size) as [B1 B2]
    by (subst size; dlia).
  assert (2 ^ (8 * (size - 1)) <= val < 2 ^ (8 * size)) as [V1 V2].
  { split; [eapply Z.le_trans; [|exact Hl] | eapply Z.lt_le_trans; [exact Hu|]];
      apply Z.pow_le_mono_r; lia. }
  subst m. destruct (Z.leb_spec size 3).
  - assert (2 ^ 24 = 2 ^ (8 * size) * 2 ^ (8 * (3 - size))) as ->
      by (rewrite <- Z.pow_add_r by lia; f_equal; lia).
    assert (0 < size -> 2 ^ 16 = 2 ^ (8 * (size - 1)) * 2 ^ (8 * (3 - size))) as E
      by (intros; rewrite <- Z.pow_add_r by lia; f_equal; lia).
    assert (0 < 2 ^ (8 * (3 - size))) by lia. split; [nia|]. intros H1. rewrite E by lia. nia.
  - assert (2 ^ (8 * size) = 2 ^ (8 * (size - 3)) * 2 ^ 24) as E1
      by (rewrite <- Z.pow_add_r by lia; f_equal; lia).
    assert (2 ^ (8 * (size - 1)) = 2 ^ (8 * (size - 3)) * 2 ^ 16) as E2
      by (rewrite <- Z.pow_add_r by lia; f_equal; lia).
    assert (0 < 2 ^ (8 * (size - 3))) by lia.
    split; [split; [apply Z.div_pos; lia | apply Z.div_lt_upper_bound; lia]|].
    intros _. apply Z.div_le_lower_bound; lia.
Qed.

(** The shifts of [from_u256] compute those three bytes. *)
Lemma compact_leading_bits val size :
  is_u 256 val -> 0 <= size <= 32 ->
  let m := if size <=? 3 then val * 2 ^ (8 * (3 - size)) else val / 2 ^ (8 * (size - 3)) in
  0 <= m < 2 ^ 24 ->
  (if size <=? 3 then u32 (u64 (Z.shiftl (u64 val) (8 * (3 - size))))
   else u32 (U256_shr val (8 * (size - 3)))) = m.
Proof.
  intros Hv Hs m Hm. unfold is_u in Hv. subst m. destruct (Z.leb_spec size 3).
  - assert (0 < 2 ^ (8 * (3 - size))) by lia. assert (0 <= val < 2 ^ 24) by nia.
    rewrite (wrap_id 64 val), Z.shiftl_mul_pow2, (wrap_id 64), (wrap_id 32) by (unfold is_u; lia).
    reflexivity.
  - unfold U256_shr. rewrite Z.shiftr_div_pow2, wrap_id by (unfold is_u; lia). reflexivity.
Qed.

(** Its assertions hold and its final [|] is an addition. *)
Lemma compact_pack {E} m s :
  0 <= m < 2 ^ 23 -> 0 <= s <= 33 ->
  (if negb (Z.land m (Z.lxor 0xffffffff 0x007fffff) =? 0) then Panic
   else if negb (s <? 256) then Panic
   else Ok (Z.lor m (u32 (Z.shiftl s 24)))) = Ok (E:=E) (m + s * 2 ^ 24).
Proof.
  intros Hm Hs.
  assert (Z.land m (Z.lxor 0xffffffff 0x007fffff) = 0) as ->.
  { apply Z.bits_inj'. intros i Hi. rewrite Z.land_spec, Z.lxor_spec, Z.bits_0.
    change 0xffffffff with (Z.ones 32). change 0x007fffff with (Z.ones 23).
    destruct (Z.lt_ge_cases i 23).
    - rewrite !Z.ones_spec_low by lia. apply andb_false_r.
    - rewrite (testbit_high 23) by lia. reflexivity. }
  rewrite (proj2 (Z.ltb_lt s 256)) by lia. simpl.
  rewrite Z.shiftl_mul_pow2, wrap_id by (unfold is_u; lia).
  rewrite Z.lor_comm, lor_low by lia. f_equal. lia.
Qed.

(** [from_u256] never panics; what it returns. *)
Lemma from_u256_spec {E} val :
  is_u 256 val ->
  exists m s, from_u256 (E:=E) val = Ok (m + s * 2 ^ 24) /\ compact_fits m s /\ s <= 33 /\
    if s <=? 3 then m = val * 2 ^ (8 * (3 - s))
    else m = val / 2 ^ (8 * (s - 3)) /\ 2 ^ 15 <= m.
Proof.
  intros Hv. pose proof (compact_leading val Hv) as H. cbv zeta in H.
  unfold from_u256. set (size := (U256_bits val + 7) / 8) in *.
  destruct H as (Hs & Hm & Hlo).
  set (m0 := if size <=? 3 then val * 2 ^ (8 * (3 - size)) else val / 2 ^ (8 * (size - 3))) in *.
  rewrite compact_leading_bits by (auto; lia). fold m0.
  rewrite compact_sign_bit, testbit23, negb_involutive by lia.
  destruct (Z.leb_spec (2 ^ 23) m0) as [Hbig|Hsmall].
  - rewrite Z.shiftr_div_pow2, compact_pack by dlia. exists (m0 / 2 ^ 8), (size + 1).
    split; [reflexivity|]. split; [repeat split; dlia|]. split; [lia|].
    subst m0. destruct (Z.leb_spec size 3), (Z.leb_spec (size + 1) 3); try lia.
    + replace (8 * (3 - size)) with (8 + 8 * (3 - (size + 1))) by lia.
      rewrite Z.pow_add_r by lia. rewrite (Z.mul_comm (2 ^ 8)), Z.mul_assoc, Z.div_mul; lia.
    + assert (size = 3) as Hs3 by lia. rewrite Hs3 in *.
      change (2 ^ (8 * (3 - 3))) with 1 in *. change (8 * (3 + 1 - 3)) with 8.
      rewrite Z.mul_1_r in *. split; [reflexivity|]. dlia.
    + rewrite Z.div_div by lia. rewrite <- Z.pow_add_r by lia.
      replace (8 * (size - 3) + 8) with (8 * (size + 1 - 3)) by lia. split; [reflexivity|].
      replace (8 * (size + 1 - 3)) with (8 * (size - 3) + 8) by lia.
      rewrite Z.pow_add_r, <- Z.div_div by lia. dlia.
  - rewrite compact_pack by lia. exists m0, size. split; [reflexivity|].
    split; [repeat split; lia|]. split; [lia|].
    subst m0. destruct (Z.leb_spec size 3); [reflexivity|]. split; [reflexivity | lia].
Qed.

(** The relative error of truncating to a mantissa of at least [2^15]. *)
Lemma truncation_error val k m :
  0 <= k -> m = val / 2 ^ k -> 2 ^ 15 <= m ->
  m * 2 ^ k <= val /\ (val - m * 2 ^ k) * 2 ^ 15 < val.
Proof.
  intros Hk -> Hm. pose proof (Z.div_mod val (2 ^ k) ltac:(lia)).
  pose proof (Z.mod_pos_bound val (2 ^ k) ltac:(lia)). nia.
Qed.

(** Every [Compact] the decoder accepts denotes its mantissa times its power
    of 256 exactly: the 256-bit shift loses no bits. *)
Theorem to_u256_exact c v :
  is_u 32 c -> to_u256 c = Ok v ->
  v = compact_value (c mod 2 ^ 23) (c / 2 ^ 24) /\ is_u 256 v.
Proof.
  intros Hc E. pose proof (to_u256_spec c Hc) as H. cbv zeta in H.
  destruct H as [(v' & E' & -> & F)|(v' & E' & _)]; rewrite E in E'; [|discriminate].
  injection E' as ->. split; [reflexivity | now apply compact_value_bound].
Qed.

Lemma to_u256_exact_witness : 0x92340000 = compact_value 0x9234 5 /\ is_u 256 0x92340000.
Proof. apply (to_u256_exact 0x05009234); [vm_compute; intuition congruence | reflexivity]. Defined.

(** Decoding what [from_u256] returns. *)
Lemma from_u256_decodes {E} val :
  is_u 256 val ->
  exists c v, from_u256 (E:=E) val = Ok c /\ is_u 32 c /\ to_u256 c = Ok v /\
    v <= val /\ (val - v) * 2 ^ 15 <= val.
Proof.
  intros Hv. destruct (from_u256_spec (E:=E) val Hv) as (m & s & Ev & F & Hs & Hm).
  pose proof F as (Hm' & Hs' & _).
  exists (m + s * 2 ^ 24), (compact_value m s). split; [exact Ev|].
  split; [unfold is_u; lia|]. split; [apply to_u256_intro; auto; lia|].
  unfold compact_value, is_u in *. destruct (Z.leb_spec s 3).
  - subst m. rewrite Z.div_mul by lia. lia.
  - destruct Hm as [Hm H15]. destruct (truncation_error val (8 * (s - 3)) m ltac:(lia) Hm H15). lia.
Qed.

(** Encoding a 256-bit target never panics, and decoding the result succeeds
    with the target rounded down, by less than a 2^15-th of it. *)
Theorem compact_roundtrip val :
  is_u 256 val ->
  exists c v, from_u256 (E:=unit) val = Ok c /\ is_u 32 c /\ to_u256 c = Ok v /\
    v <= val /\ (val - v) * 2 ^ 15 <= val.
Proof. apply from_u256_decodes. Qed.

Lemma compact_roundtrip_witness :
  exists c v, from_u256 (E:=unit) (2 ^ 224 - 1) = Ok c /\ is_u 32 c /\ to_u256 c = Ok v /\
    v <= 2 ^ 224 - 1 /\ (2 ^ 224 - 1 - v) * 2 ^ 15 <= 2 ^ 224 - 1.
Proof. apply (compact_roundtrip (2 ^ 224 - 1)). unfold is_u. lia. Defined.
