(* ===== verification/Uint.v ===== *)
(** * The fixed-width integers of the [uint] crate

    [construct_uint!] (src/common/uint/src/uint.rs) builds the types [U128],
    [U256] and [U512] over arrays of 64-bit words, least significant first.
    This file holds the operations, for any number of words: addition and
    subtraction with carry, schoolbook multiplication, shifts, bit counting,
    division by a word and by Knuth's Algorithm D, exponentiation by squaring,
    and the conversions to and from big-endian bytes and decimal text.  Loops of
    a runtime number of rounds carry fuel; running out of it is [Panic], like
    every other run that does not return.  UintProofs.v and UintDiv.v show what
    they compute. *)
From S2P Require Import Prelude.
From stdpp Require Import list.
#[local] Open Scope Z_scope.

(** ** Words and arrays of words *)

(** [struct $name (pub [u64; $n_words])] *)
Definition uint : Type := list Z.

(** [u64::overflowing_add], [u64::overflowing_sub], [u64::leading_zeros] *)
Definition overflowing_add64 (a b : Z) : Z * bool := (wrap 64 (a + b), 2 ^ 64 <=? a + b).
Definition overflowing_sub64 (a b : Z) : Z * bool := (wrap 64 (a - b), a <? b).
Definition leading_zeros64 (a : Z) : Z := if a =? 0 then 64 else 63 - Z.log2 a.

(** [l[k]]; the indices of the code are in range, see [knuth_step_ok] for those
    computed at run time. *)
Definition word (l : list Z) (k : nat) : Z := nth k l 0.
Notation "l .[ k ]" := (word l k%nat) (at level 1, left associativity, format "l .[ k ]").

(** The number an array of words stands for, and the arrays of [nw] words. *)
Definition val (l : uint) : Z := foldr (fun d acc => d + 2 ^ 64 * acc) 0 l.
Definition is_uint (nw : nat) (l : uint) : Prop := length l = nw /\ Forall (is_u 64) l.

Definition uint_zero (nw : nat) : uint := replicate nw 0.
Definition uint_one (nw : nat) : uint := <[0%nat := 1]> (replicate nw 0).
Definition uint_max_value (nw : nat) : uint := replicate nw (2 ^ 64 - 1).
(** [From<u64>] *)
Definition from_u64 (nw : nat) (x : Z) : uint := <[0%nat := x]> (replicate nw 0).
Definition low_u64 (l : uint) : Z := l.[0].
Definition is_zero (l : uint) : bool := forallb (fun d => d =? 0) l.
(** [Ord::cmp]: the words compared from the most significant one. *)
Definition uint_cmp (a b : uint) : comparison := bytes_cmp (rev a) (rev b).

(** ** Addition and subtraction *)

(** The [unroll!]ed loop of [uint_overflowing_binop!] over the words of both
    arrays. *)
Fixpoint binop_words (f : Z -> Z -> Z * bool) (carry : Z) (me you : uint) : uint * Z :=
  match me, you with
  | a :: me, b :: you =>
      let '(r, carry) :=
        if negb (carry =? 0) then
          let '(res1, overflow1) := f a b in
          let '(res2, overflow2) := f res1 carry in
          (res2, Z.b2z overflow1 + Z.b2z overflow2)
        else
          let '(res, overflow) := f a b in (res, Z.b2z overflow) in
      let '(ret, carry) := binop_words f carry me you in
      (r :: ret, carry)
  | _, _ => ([], carry)
  end.
Definition uint_overflowing_binop (f : Z -> Z -> Z * bool) (me you : uint) : uint * bool :=
  let '(ret, carry) := binop_words f 0 me you in (ret, 0 <? carry).

Definition overflowing_add (a b : uint) : uint * bool := uint_overflowing_binop overflowing_add64 a b.
Definition overflowing_sub (a b : uint) : uint * bool := uint_overflowing_binop overflowing_sub64 a b.

(** The wrappers over an [overflowing_] operation: [checked_] answers [None],
    the operator panics ([panic_on_overflow!]) and [saturating_] answers a bound
    when it overflows. *)
Definition checked (r : uint * bool) : option uint := if r.2 then None else Some r.1.
Definition panic_on_overflow {E} (r : uint * bool) : result E uint := if r.2 then Panic else Ok r.1.
Definition saturating (bound : uint) (r : uint * bool) : uint := if r.2 then bound else r.1.

Definition checked_add (a b : uint) : option uint := checked (overflowing_add a b).
Definition checked_sub (a b : uint) : option uint := checked (overflowing_sub a b).
Definition saturating_add (a b : uint) : uint := saturating (uint_max_value (length a)) (overflowing_add a b).
Definition saturating_sub (a b : uint) : uint := saturating (uint_zero (length a)) (overflowing_sub a b).
Definition uint_add {E} (a b : uint) : result E uint := panic_on_overflow (overflowing_add a b).
Definition uint_sub {E} (a b : uint) : result E uint := panic_on_overflow (overflowing_sub a b).

(** ** Multiplication *)

(** [split_u128]: the high and the low word of a [u128]. *)
Definition split_u128 (a : Z) : Z * Z := (wrap 64 (Z.shiftr a 64), wrap 64 (Z.land a 0xFFFFFFFFFFFFFFFF)).

(** The check of [uint_full_mul_reg!]: eight-word types skip the words that add
    nothing. *)
Definition mul_check (nw : nat) (a carry : Z) : bool :=
  if Nat.eqb nw 8 then negb (a =? 0) || negb (carry =? 0) else true.

(** The inner loop: the words of [me] times the word [b], added into [ret] from
    position [k] on. *)
Fixpoint mul_row (check : Z -> Z -> bool) (b : Z) (me : uint) (k : nat) (carry : Z) (ret : list Z) : list Z :=
  match me with
  | [] => ret
  | a :: me =>
      if check a carry then
        let '(hi, low) := split_u128 (wrap 128 (a * b)) in
        let '(low, overflow) := overflowing_add64 low ret.[k] in
        let ret := <[k := low]> ret in
        let hi := wrap 64 (hi + Z.b2z overflow) in
        let '(hi, o0) := overflowing_add64 hi carry in
        let '(hi, o1) := overflowing_add64 hi ret.[S k] in
        mul_row check b me (S k) (Z.b2z (o0 || o1)) (<[S k := hi]> ret)
      else mul_row check b me (S k) carry ret
  end.
Fixpoint mul_rows (check : Z -> Z -> bool) (me you : uint) (i : nat) (ret : list Z) : list Z :=
  match you with
  | [] => ret
  | b :: you => mul_rows check me you (S i) (mul_row check b me i 0 ret)
  end.
Definition uint_full_mul_reg (me you : uint) : list Z :=
  mul_rows (mul_check (length me)) me you 0 (replicate (length me * 2) 0).

Definition any_nonzero (l : list Z) : bool := existsb (fun d => negb (d =? 0)) l.
Definition overflowing_mul (a b : uint) : uint * bool :=
  let ret := uint_full_mul_reg a b in
  (take (length a) ret, any_nonzero (drop (length a) ret)).
Definition checked_mul (a b : uint) : option uint := checked (overflowing_mul a b).
Definition saturating_mul (a b : uint) : uint := saturating (uint_max_value (length a)) (overflowing_mul a b).
Definition uint_mul {E} (a b : uint) : result E uint := panic_on_overflow (overflowing_mul a b).

(** [mul_u64]: a word times a word plus a carry, as low and high word. *)
Definition mul_u64 (a b carry : Z) : Z * Z :=
  let '(hi, lo) := split_u128 (wrap 128 (a * b + carry)) in (lo, hi).
Fixpoint mul_u64_words (l : uint) (other carry : Z) : uint * Z :=
  match l with
  | [] => ([], carry)
  | d :: l =>
      let '(res, c) := mul_u64 d other carry in
      let '(l, carry) := mul_u64_words l other c in
      (res :: l, carry)
  end.
Definition overflowing_mul_u64 (l : uint) (other : Z) : uint * Z := mul_u64_words l other 0.
Definition full_mul_u64 (l : uint) (by_ : Z) : list Z :=
  let '(prod, carry) := overflowing_mul_u64 l by_ in prod ++ [carry].

(** ** Shifts and bit counting *)

(** [Not] *)
Definition uint_not (l : uint) : uint := (fun d => 2 ^ 64 - 1 - d) <$> l.

(** [Shl] by an amount in [usize]: whole words first, then the bits carried from
    the word below. *)
Definition uint_shl (original : uint) (shift : Z) : uint :=
  let word_shift := shift / 64 in
  let bit_shift := shift mod 64 in
  let ret := (fun i : nat =>
    if word_shift <=? Z.of_nat i
    then wrap 64 (Z.shiftl (original.[Z.to_nat (Z.of_nat i - word_shift)]) bit_shift)
    else 0) <$> seq 0 (length original) in
  if 0 <? bit_shift then
    imap (fun i r =>
      if word_shift + 1 <=? Z.of_nat i
      then wrap 64 (r + Z.shiftr (original.[Z.to_nat (Z.of_nat i - 1 - word_shift)]) (64 - bit_shift))
      else r) ret
  else ret.

(** [Shr] by an amount in [usize]: [ret[i - word_shift]] from [original[i]], then the bits of the word
    above. *)
Definition uint_shr (original : uint) (shift : Z) : uint :=
  let n_words := Z.of_nat (length original) in
  let word_shift := shift / 64 in
  let bit_shift := shift mod 64 in
  let ret := (fun k : nat =>
    if Z.of_nat k + word_shift <? n_words
    then Z.shiftr (original.[Z.to_nat (Z.of_nat k + word_shift)]) bit_shift
    else 0) <$> seq 0 (length original) in
  if 0 <? bit_shift then
    imap (fun k r =>
      if Z.of_nat k + word_shift + 1 <? n_words
      then wrap 64 (r + wrap 64 (Z.shiftl (original.[Z.to_nat (Z.of_nat k + word_shift + 1)]) (64 - bit_shift)))
      else r) ret
  else ret.

(** The operators: the amount is converted to an integer of the type first and
    then to [usize], which panics from [2^64] on. *)
Definition fits_word (self : uint) : bool := forallb (fun d => d =? 0) (drop 1 self).
Definition as_usize {E} (self : uint) : result E Z :=
  if negb (fits_word self) || (2 ^ 64 - 1 <? low_u64 self) then Panic else Ok (usize (low_u64 self)).
Definition shl_op {E} (self shift : uint) : result E uint := n ← as_usize shift; Ok (uint_shl self n).
Definition shr_op {E} (self shift : uint) : result E uint := n ← as_usize shift; Ok (uint_shr self n).

(** [bits]: the words from the top down to the second, then the first. *)
Fixpoint bits_from (k : nat) (arr : uint) : Z :=
  match k with
  | O => 0x40 - leading_zeros64 arr.[0]
  | S k' =>
      if 0 <? arr.[k] then 0x40 * (Z.of_nat k + 1) - leading_zeros64 arr.[k]
      else bits_from k' arr
  end.
Definition bits (arr : uint) : Z := bits_from (length arr - 1) arr.
Definition words (bits : Z) : Z := 1 + (bits - 1) / 64.

(** [full_shl] and [full_shr], by less than a word, with one extra word. *)
Definition full_shl (l : uint) (shift : Z) : list Z :=
  wrap 64 (Z.shiftl l.[0] shift) :: uint_shr l (64 - shift).
Definition full_shr (u : list Z) (shift : Z) : uint :=
  let res := (fun i : nat => Z.shiftr u.[i] shift) <$> seq 0 (length u - 1) in
  if 0 <? shift then
    imap (fun i r => Z.lor r (wrap 64 (Z.shiftl u.[S i] (64 - shift)))) res
  else res.

(** ** Division *)

(** [div_mod_word]: two words by one; [y] is not zero at its calls. *)
Definition div_mod_word (hi lo y : Z) : Z * Z :=
  let x := wrap 128 (Z.shiftl hi 64 + lo) in (wrap 64 (x / y), wrap 64 (x mod y)).

(** [div_mod_small]: the words from the most significant one, the remainder
    running along. *)
Definition div_mod_small (l : uint) (other : Z) : uint * uint :=
  let '(l, rem) :=
    foldr (fun d st =>
      let '(q, r) := div_mod_word st.2 d other in (q :: st.1, r)) ([], 0) l in
  (l, from_u64 (length l) rem).

Definition binop_carry (a b : Z) (c : bool) (binop : Z -> Z -> Z * bool) : Z * bool :=
  let '(res1, overflow1) := overflowing_add64 b (Z.b2z c) in
  let '(res2, overflow2) := binop a res1 in
  (res2, overflow1 || overflow2).
(** [binop_slice] over the words both slices have; the rest of [a] stays. *)
Fixpoint binop_slice_from (c : bool) (a b : list Z) (binop : Z -> Z -> Z * bool) : list Z * bool :=
  match a, b with
  | x :: a, y :: b =>
      let '(res, carry) := binop_carry x y c binop in
      let '(a, c) := binop_slice_from carry a b binop in
      (res :: a, c)
  | _, _ => (a, c)
  end.
Definition binop_slice (a b : list Z) (binop : Z -> Z -> Z * bool) : list Z * bool :=
  binop_slice_from false a b binop.
Definition add_slice (a b : list Z) : list Z * bool := binop_slice a b overflowing_add64.
Definition sub_slice (a b : list Z) : list Z * bool := binop_slice a b overflowing_sub64.

(** The loop of step D3: the guess is lowered while it is too large for the two
    leading words of the divisor. *)
Fixpoint q_hat_loop {E} (fuel : nat) (v_n_1 v_n_2 u2 q_hat r_hat : Z) : result E Z :=
  match fuel with
  | O => Panic
  | S fuel =>
      let '(hi, lo) := split_u128 (wrap 128 (q_hat * v_n_2)) in
      if (hi <? r_hat) || ((hi =? r_hat) && (lo <=? u2)) then Ok q_hat
      else
        let q_hat := wrap 64 (q_hat - 1) in
        let '(r_hat, overflow) := overflowing_add64 r_hat v_n_1 in
        if overflow then Ok q_hat else q_hat_loop fuel v_n_1 v_n_2 u2 q_hat r_hat
  end.

(** One round of the loop of [div_mod_knuth], steps D3 to D6 for the quotient
    word [j]. *)
Definition knuth_step {E} (v : uint) (n j : nat) (u : list Z) (q : uint) : result E (list Z * uint) :=
  let v_n_1 := v.[n - 1] in
  let v_n_2 := v.[n - 2] in
  let u_jn := u.[j + n] in
  q_hat ← (if u_jn <? v_n_1 then
              let '(q_hat, r_hat) := div_mod_word u_jn u.[j + n - 1] v_n_1 in
              q_hat_loop 3 v_n_1 v_n_2 u.[j + n - 2] q_hat r_hat
            else Ok (2 ^ 64 - 1)) ;
  let q_hat_v := full_mul_u64 v q_hat in
  let '(tail, c) := sub_slice (drop j u) (take (n + 1) q_hat_v) in
  let u := take j u ++ tail in
  if c : bool then
    let q_hat := wrap 64 (q_hat - 1) in
    let '(tail, c) := add_slice (drop j u) (take n v) in
    let u := take j u ++ tail in
    let u := <[(j + n)%nat := wrap 64 (u.[j + n] + Z.b2z c)]> u in
    Ok (u, <[j := q_hat]> q)
  else Ok (u, <[j := q_hat]> q).
(** [for j in (0..=m).rev()], with [k = j + 1]. *)
Fixpoint knuth_loop {E} (v : uint) (n k : nat) (u : list Z) (q : uint) : result E (list Z * uint) :=
  match k with
  | O => Ok (u, q)
  | S j => '(u, q) ← knuth_step v n j u q ; knuth_loop v n j u q
  end.
Definition div_mod_knuth {E} (self v : uint) (n m : nat) : result E (uint * uint) :=
  let shift := leading_zeros64 v.[n - 1] in
  let v := uint_shl v shift in
  let u := full_shl self shift in
  let q := uint_zero (length self) in
  '(u, q) ← knuth_loop v n (S m) u q ;
  Ok (q, full_shr u shift).

Definition div_mod {E} (self other : uint) : result E (uint * uint) :=
  let my_bits := bits self in
  let your_bits := bits other in
  if your_bits =? 0 then Panic
  else if my_bits <? your_bits then Ok (uint_zero (length self), self)
  else if your_bits <=? 64 then Ok (div_mod_small self (low_u64 other))
  else
    let my_words := words my_bits in
    let your_words := words your_bits in
    div_mod_knuth self other (Z.to_nat your_words) (Z.to_nat (my_words - your_words)).
(** [Div] and [Rem] *)
Definition uint_div {E} (a b : uint) : result E uint := '(q, _) ← div_mod a b ; Ok q.
Definition uint_rem {E} (a b : uint) : result E uint := '(_, r) ← div_mod a b ; Ok r.

(** ** Exponentiation by squaring *)

(** [pow]: the odd case clears the top bit of the exponent, not the lowest. *)
Fixpoint pow_loop {E} (fuel : nat) (x y n : uint) : result E uint :=
  match fuel with
  | O => Panic
  | S fuel =>
      match uint_cmp n (uint_one (length n)) with
      | Gt =>
          if Z.land (low_u64 n) 1 =? 0 then
            x2 ← uint_mul x x ; pow_loop fuel x2 y (uint_shr n 1)
          else
            y ← uint_mul x y ;
            x2 ← uint_mul x x ;
            let top := (length n - 1)%nat in
            let n := <[top := Z.land n.[top] (Z.shiftr (2 ^ 64 - 1) 1)]> n in
            pow_loop fuel x2 y (uint_shr n 1)
      | _ => uint_mul x y
      end
  end.
Definition pow {E} (self expon : uint) : result E uint :=
  if is_zero expon then Ok (uint_one (length self))
  else pow_loop (64 * length expon) self (uint_one (length self)) expon.

(** ** Bytes and decimal text *)

Definition to_big_endian (l : uint) : bytes := concat (to_be 8 <$> rev l).
Definition from_big_endian {E} (nw : nat) (slice : bytes) : result E uint :=
  if (nw * 8 <? length slice)%nat then Panic
  else
    let padded := replicate (nw * 8 - length slice) 0 ++ slice in
    Ok (rev ((fun i => from_be (take 8 (drop (8 * i) padded))) <$> seq 0 nw)).

Inductive FromDecStrErr := InvalidCharacter | InvalidLength.
(** [from_dec_str], over the bytes of the text. *)
Fixpoint dec_loop (res : uint) (value : bytes) : result FromDecStrErr uint :=
  match value with
  | [] => Ok res
  | c :: value =>
      let b := wrap 8 (c - 48) in
      if 9 <? b then Err InvalidCharacter
      else
        let '(r, overflow) := overflowing_mul_u64 res 10 in
        if 0 <? overflow then Err InvalidLength
        else
          let '(r, overflow) := overflowing_add r (from_u64 (length r) b) in
          if overflow : bool then Err InvalidLength else dec_loop r value
  end.
Definition from_dec_str (nw : nat) (value : bytes) : result FromDecStrErr uint :=
  dec_loop (uint_zero nw) value.

(** [Display]: the digits from the last, in a buffer of twenty bytes a word; the
    fuel is the room left in it. *)
Fixpoint display_loop {E} (room : nat) (current : uint) (buf : bytes) : result E bytes :=
  match room with
  | O => Panic
  | S room =>
      let ten := from_u64 (length current) 10 in
      r ← uint_rem current ten ;
      let buf := wrap 8 (wrap 8 (low_u64 r) + 48) :: buf in
      current ← uint_div current ten ;
      if is_zero current then Ok buf else display_loop room current buf
  end.
Definition display {E} (l : uint) : result E bytes :=
  if is_zero l then Ok [48] else display_loop (length l * 20) l [].
