(* ===== verification/UintProofs.v ===== *)
(** * What the word arrays of the [uint] crate compute

    The value of an array of words determines it ([val_inj]); addition,
    subtraction, multiplication, shifts and bit counting of Uint.v compute the
    operations on values, with their overflow flags; conversions to bytes are
    the big-endian digits of the value. *)
From S2P Require Import Prelude Uint.
From stdpp Require Import list.
#[local] Open Scope Z_scope.

(** ** Values of arrays of words *)

Definition pw (n : nat) : Z := 2 ^ (64 * Z.of_nat n).
Lemma pw_0 : pw 0 = 1.
Proof. reflexivity. Qed.
Lemma pw_S n : pw (S n) = 2 ^ 64 * pw n.
Proof. unfold pw. rewrite <- Z.pow_add_r by lia. f_equal. lia. Qed.
Lemma pw_add n m : pw (n + m) = pw n * pw m.
Proof. unfold pw. rewrite <- Z.pow_add_r by lia. f_equal. lia. Qed.
Lemma pw_pos n : 0 < pw n.
Proof. unfold pw. lia. Qed.
Lemma pw_mono n m : (n <= m)%nat -> pw n <= pw m.
Proof. intros H. unfold pw. apply Z.pow_le_mono_r; lia. Qed.
#[export] Hint Resolve pw_pos : core.
#[local] Arguments pw : simpl never.

Lemma val_cons d l : val (d :: l) = d + 2 ^ 64 * val l.
Proof. reflexivity. Qed.
Lemma val_app a b : val (a ++ b) = val a + pw (length a) * val b.
Proof.
  induction a as [|d a IH]; simpl app; cbn [length].
  - rewrite pw_0. change (val []) with 0. lia.
  - rewrite !val_cons, IH, pw_S. lia.
Qed.
Lemma val_bound l : Forall (is_u 64) l -> 0 <= val l < pw (length l).
Proof.
  induction 1 as [|d l Hd _ IH]; [by vm_compute|].
  rewrite val_cons. cbn [length]. rewrite pw_S. unfold is_u in Hd. lia.
Qed.
Lemma is_uint_bound nw l : is_uint nw l -> 0 <= val l < pw nw.
Proof. intros [<- H]. apply val_bound, H. Qed.
Lemma val_inj a b : Forall (is_u 64) a -> Forall (is_u 64) b -> length a = length b -> val a = val b -> a = b.
Proof.
  intros Ha. revert b. induction Ha as [|x a Hx _ IH]; intros [|y b] Hb L V; try discriminate; [done|].
  apply Forall_cons in Hb as [Hy Hb]. rewrite !val_cons in V. unfold is_u in Hx, Hy.
  assert (val a = val b /\ x = y) as [V' ->] by lia.
  f_equal. apply IH; [exact Hb|simpl in L; lia|exact V'].
Qed.
Lemma val_replicate_0 n : val (replicate n 0) = 0.
Proof. induction n as [|n IH]; simpl replicate; [done|]. rewrite val_cons, IH. lia. Qed.
Lemma words_replicate n x : is_u 64 x -> Forall (is_u 64) (replicate n x).
Proof. intros H. induction n; simpl; constructor; auto. Qed.
Lemma word_0 : is_u 64 0.
Proof. unfold is_u; lia. Qed.
#[export] Hint Resolve word_0 : core.

Lemma word_out l k : (length l <= k)%nat -> l.[k] = 0.
Proof. apply nth_overflow. Qed.
Lemma word_in l k x : l !! k = Some x -> l.[k] = x.
Proof.
  revert k. induction l as [|d l IH]; intros [|k] E; try discriminate.
  - by injection E.
  - exact (IH k E).
Qed.
Lemma word_lookup l k : Forall (is_u 64) l -> is_u 64 l.[k].
Proof.
  intros H. destruct (l !! k) as [x|] eqn:E.
  - rewrite (word_in _ _ _ E). by eapply Forall_lookup_1.
  - apply lookup_ge_None in E. rewrite word_out by done. exact word_0.
Qed.
Lemma words_insert l k x : Forall (is_u 64) l -> is_u 64 x -> Forall (is_u 64) (<[k := x]> l).
Proof. intros. by apply Forall_insert. Qed.
Lemma words_take l k : Forall (is_u 64) l -> Forall (is_u 64) (take k l).
Proof. apply Forall_take. Qed.
Lemma words_drop l k : Forall (is_u 64) l -> Forall (is_u 64) (drop k l).
Proof. apply Forall_drop. Qed.
Lemma word_insert_ne l i k x : i <> k -> (<[i := x]> l).[k] = l.[k].
Proof. intros H. unfold word. rewrite !nth_lookup, list_lookup_insert_ne by done. done. Qed.
Lemma word_replicate_0 n k : (replicate n 0).[k] = 0.
Proof. revert k. induction n as [|n IH]; intros [|k]; try done. exact (IH k). Qed.
Create HintDb words.
#[export] Hint Resolve word_lookup words_insert words_take words_drop words_replicate : words.

Lemma val_insert l k x :
  (k < length l)%nat -> val (<[k := x]> l) = val l + (x - l.[k]) * pw k.
Proof.
  revert k. induction l as [|d l IH]; intros [|k] H; cbn [length] in H; try lia.
  - change (<[0%nat := x]> (d :: l)) with (x :: l). change ((d :: l).[0]) with d.
    rewrite !val_cons, pw_0. lia.
  - change (<[S k := x]> (d :: l)) with (d :: <[k := x]> l). change ((d :: l).[S k]) with l.[k].
    rewrite !val_cons, IH, pw_S by lia. lia.
Qed.

(** The words below position [k] and the words from it on. *)
Lemma val_split l k : (k <= length l)%nat -> val l = val (take k l) + pw k * val (drop k l).
Proof.
  intros H. rewrite <- (take_drop k l) at 1. rewrite val_app, length_take, Nat.min_l by lia. reflexivity.
Qed.
Lemma val_take l k : Forall (is_u 64) l -> (k <= length l)%nat -> val (take k l) = val l mod pw k.
Proof.
  intros H L. rewrite (val_split l k L) at 1.
  pose proof (val_bound (take k l) (words_take _ _ H)) as B. rewrite length_take, Nat.min_l in B by lia.
  rewrite Z.mul_comm, Z.mod_add, Z.mod_small; auto. pose proof (pw_pos k). lia.
Qed.
Lemma val_drop l k : Forall (is_u 64) l -> (k <= length l)%nat -> val (drop k l) = val l / pw k.
Proof.
  intros H L. rewrite (val_split l k L) at 1.
  pose proof (val_bound (take k l) (words_take _ _ H)) as B. rewrite length_take, Nat.min_l in B by lia.
  pose proof (pw_pos k). rewrite Z.mul_comm, Z.div_add, Z.div_small by lia. lia.
Qed.
Lemma val_drop_lookup l k : (k < length l)%nat -> val (drop k l) = l.[k] + 2 ^ 64 * val (drop (S k) l).
Proof.
  intros L. destruct (lookup_lt_is_Some_2 l k L) as [x E].
  rewrite (drop_S _ _ _ E), val_cons, (word_in _ _ _ E). reflexivity.
Qed.
Lemma val_lookup l k : Forall (is_u 64) l -> l.[k] = (val l / pw k) mod 2 ^ 64.
Proof.
  intros H. destruct (decide (k < length l)%nat) as [L|L].
  - rewrite <- val_drop, val_drop_lookup by (auto; lia).
    rewrite Z.mul_comm, Z.mod_add by lia. symmetry. apply Z.mod_small. by apply word_lookup.
  - rewrite word_out by lia.
    pose proof (val_bound l H) as B. pose proof (pw_mono (length l) k).
    rewrite Z.div_small, Z.mod_0_l by lia. reflexivity.
Qed.
Lemma val_zero_words l : Forall (is_u 64) l -> val l = 0 -> l = replicate (length l) 0.
Proof.
  intros H V. apply val_inj; auto with words; [by rewrite length_replicate|].
  by rewrite val_replicate_0.
Qed.

(** Bit [i] of a value is bit [i mod 64] of word [i / 64]. *)
Lemma val_testbit l i :
  Forall (is_u 64) l -> 0 <= i -> Z.testbit (val l) i = Z.testbit (l.[Z.to_nat (i / 64)]) (i mod 64).
Proof.
  intros H Hi. rewrite val_lookup by done. unfold pw.
  rewrite <- Z.shiftr_div_pow2, Z.mod_pow2_bits_low, Z.shiftr_spec by dlia.
  f_equal. rewrite Z2Nat.id by dlia. dlia.
Qed.
Lemma val_bits_eq l x :
  Forall (is_u 64) l -> 0 <= x < pw (length l) ->
  (forall k i, (k < length l)%nat -> 0 <= i < 64 -> Z.testbit l.[k] i = Z.testbit x (64 * Z.of_nat k + i)) ->
  val l = x.
Proof.
  intros H Hx Hb. apply Z.bits_inj'. intros i Hi. rewrite val_testbit by done.
  destruct (decide (Z.to_nat (i / 64) < length l)%nat) as [L|L].
  - rewrite Hb by (auto; dlia). f_equal. dlia.
  - rewrite word_out by lia. rewrite Z.bits_0. symmetry. apply testbit_high with (n := 64 * Z.of_nat (length l)); [exact Hx|dlia].
Qed.

Lemma word_wrap x : is_u 64 (wrap 64 x).
Proof. by apply wrap_bound. Qed.
#[export] Hint Resolve word_wrap : words.

(** A word sum or difference with its carry. *)
Lemma add64_spec a b r o :
  is_u 64 a -> is_u 64 b -> overflowing_add64 a b = (r, o) ->
  is_u 64 r /\ r + 2 ^ 64 * Z.b2z o = a + b.
Proof.
  unfold overflowing_add64, is_u, wrap. intros Ha Hb [= <- <-].
  destruct (Z.leb_spec (2 ^ 64) (a + b)); simpl Z.b2z; dlia.
Qed.
Lemma sub64_spec a b r o :
  is_u 64 a -> is_u 64 b -> overflowing_sub64 a b = (r, o) ->
  is_u 64 r /\ r - 2 ^ 64 * Z.b2z o = a - b.
Proof.
  unfold overflowing_sub64, is_u, wrap. intros Ha Hb [= <- <-].
  destruct (Z.ltb_spec a b); simpl Z.b2z; dlia.
Qed.
Lemma word_b2z o : is_u 64 (Z.b2z o).
Proof. unfold is_u. destruct o; simpl; lia. Qed.
#[export] Hint Resolve word_b2z : words.

(** ** Addition and subtraction *)

(** Both word operations [f] as [a + s * b] with [s] the sign, so that one
    induction serves addition and subtraction. *)
Definition word_op (s : Z) (f : Z -> Z -> Z * bool) : Prop :=
  forall a b r o, is_u 64 a -> is_u 64 b -> f a b = (r, o) ->
    is_u 64 r /\ r + s * (2 ^ 64 * Z.b2z o) = a + s * b.
Lemma word_op_add : word_op 1 overflowing_add64.
Proof. intros a b r o Ha Hb E. destruct (add64_spec _ _ _ _ Ha Hb E). split; [done|lia]. Qed.
Lemma word_op_sub : word_op (-1) overflowing_sub64.
Proof. intros a b r o Ha Hb E. destruct (sub64_spec _ _ _ _ Ha Hb E). split; [done|lia]. Qed.

Lemma binop_words_spec s f c a b :
  word_op s f -> (s = 1 \/ s = -1) ->
  Forall (is_u 64) a -> Forall (is_u 64) b -> length a = length b -> 0 <= c <= 1 ->
  exists r c', binop_words f c a b = (r, c') /\ Forall (is_u 64) r /\ length r = length a /\
    0 <= c' <= 1 /\ val r + s * (pw (length a) * c') = val a + s * (val b + c).
Proof.
  intros Hf Hs Ha. revert b c. induction Ha as [|x a Hx Ha IH]; intros [|y b] c Hb L Hc; try discriminate.
  { exists [], c. cbn [length]. rewrite pw_0. simpl. repeat split; auto; lia. }
  apply Forall_cons in Hb as [Hy Hb]. injection L as L. cbn [binop_words].
  assert (exists r c1, (if negb (c =? 0)
    then let '(res1, overflow1) := f x y in let '(res2, overflow2) := f res1 c in (res2, Z.b2z overflow1 + Z.b2z overflow2)
    else let '(res, overflow) := f x y in (res, Z.b2z overflow)) = (r, c1) /\
    is_u 64 r /\ 0 <= c1 <= 1 /\ r + s * (2 ^ 64 * c1) = x + s * (y + c)) as (r & c1 & -> & Hr & Hc1 & V).
  { destruct (f x y) as [r1 o1] eqn:E1. destruct (Hf _ _ _ _ Hx Hy E1) as [Hr1 V1].
    unfold is_u in Hx, Hy. destruct (Z.eqb_spec c 0) as [->|]; cbn [negb].
    - exists r1, (Z.b2z o1). split; [done|]. split; [exact Hr1|]. destruct o1, Hs as [-> | ->]; simpl Z.b2z in *; lia.
    - assert (c = 1) as -> by lia. destruct (f r1 1) as [r2 o2] eqn:E2.
      destruct (Hf _ _ _ _ Hr1 (word_b2z true) E2) as [Hr2 V2]. unfold is_u in Hr1, Hr2.
      exists r2, (Z.b2z o1 + Z.b2z o2). split; [done|]. split; [exact Hr2|].
      destruct o1, o2, Hs as [-> | ->]; simpl Z.b2z in *; lia. }
  destruct (IH b c1 Hb L Hc1) as (rs & c' & -> & Hrs & Lrs & Hc' & V').
  exists (r :: rs), c'. split; [done|]. split; [by constructor|]. split; [simpl; lia|]. split; [done|].
  cbn [length]. rewrite !val_cons, pw_S. destruct Hs as [-> | ->]; lia.
Qed.

Lemma overflowing_add_spec nw a b :
  is_uint nw a -> is_uint nw b ->
  exists r, overflowing_add a b = (r, pw nw <=? val a + val b) /\ is_uint nw r /\ val r = (val a + val b) mod pw nw.
Proof.
  intros [La Ha] [Lb Hb].
  destruct (binop_words_spec 1 _ 0 a b word_op_add) as (r & c & E & Hr & Lr & Hc & V); auto; try lia.
  exists r. unfold overflowing_add, uint_overflowing_binop. rewrite E. rewrite La in *.
  pose proof (val_bound r Hr) as B. rewrite Lr in B.
  split; [|split; [by split|]].
  - f_equal. destruct (Z.leb_spec (pw nw) (val a + val b)), (Z.ltb_spec 0 c); try reflexivity; nia.
  - replace (val a + val b) with (val r + c * pw nw) by lia. rewrite Z.mod_add, Z.mod_small; auto.
    pose proof (pw_pos nw). lia.
Qed.
Lemma overflowing_sub_spec nw a b :
  is_uint nw a -> is_uint nw b ->
  exists r, overflowing_sub a b = (r, val a <? val b) /\ is_uint nw r /\ val r = (val a - val b) mod pw nw.
Proof.
  intros [La Ha] [Lb Hb].
  destruct (binop_words_spec (-1) _ 0 a b word_op_sub) as (r & c & E & Hr & Lr & Hc & V); auto; try lia.
  exists r. unfold overflowing_sub, uint_overflowing_binop. rewrite E. rewrite La in *.
  pose proof (val_bound r Hr) as B. rewrite Lr in B.
  split; [|split; [by split|]].
  - f_equal. destruct (Z.ltb_spec (val a) (val b)), (Z.ltb_spec 0 c); try reflexivity; nia.
  - replace (val a - val b) with (val r + (- c) * pw nw) by lia. rewrite Z.mod_add, Z.mod_small; auto.
    pose proof (pw_pos nw). lia.
Qed.

(** ** Multiplication *)

Lemma split_u128_spec a : 0 <= a < 2 ^ 128 -> split_u128 a = (a / 2 ^ 64, a mod 2 ^ 64).
Proof.
  intros H. unfold split_u128. change 0xFFFFFFFFFFFFFFFF with (Z.ones 64).
  rewrite land_ones_wrap, Z.shiftr_div_pow2 by lia.
  rewrite (wrap_id 64 (a / _)), (wrap_id 64 (wrap 64 a)); [reflexivity|apply word_wrap|].
  unfold is_u. dlia.
Qed.
(** The two words of a product plus a word, with no overflow of the [u128]. *)
Lemma split_product a b c :
  is_u 64 a -> is_u 64 b -> is_u 64 c ->
  exists hi lo, split_u128 (wrap 128 (a * b + c)) = (hi, lo) /\ is_u 64 hi /\ is_u 64 lo /\
    lo + 2 ^ 64 * hi = a * b + c /\ hi <= 2 ^ 64 - 1 /\ (c = 0 -> hi <= 2 ^ 64 - 2).
Proof.
  unfold is_u. intros Ha Hb Hc.
  assert (0 <= a * b <= (2 ^ 64 - 1) * (2 ^ 64 - 1)) by nia.
  rewrite wrap_id by (unfold is_u; lia). rewrite split_u128_spec by lia.
  eexists _, _. split; [reflexivity|]. repeat split; dlia.
Qed.

Lemma mul_row_spec check b me k carry ret :
  (forall a c, check a c = false -> a = 0 /\ c = 0) ->
  Forall (is_u 64) me -> is_u 64 b -> Forall (is_u 64) ret -> 0 <= carry <= 1 -> (k + length me < length ret)%nat ->
  exists c, Forall (is_u 64) (mul_row check b me k carry ret) /\
    length (mul_row check b me k carry ret) = length ret /\ 0 <= c <= 1 /\
    val (mul_row check b me k carry ret) + pw (S (k + length me)) * c = val ret + pw k * (b * val me + 2 ^ 64 * carry).
Proof.
  intros Hck Hme Hb. revert k carry ret. induction Hme as [|a me Ha Hme IH]; intros k carry ret Hr Hc L.
  { exists carry. cbn [mul_row length]. rewrite Nat.add_0_r, pw_S. change (val []) with 0. repeat split; auto; lia. }
  cbn [mul_row length] in *. destruct (check a carry) eqn:E.
  2:{ destruct (Hck _ _ E) as [-> ->]. destruct (IH (S k) 0 ret) as (c & Hw & Hl & Hc' & V); auto; try lia.
      exists c. rewrite Nat.add_succ_r. repeat split; auto; try lia. rewrite val_cons.
      change (S (S (k + length me))) with (S (S k + length me)). rewrite V, pw_S. lia. }
  destruct (split_product a b 0 Ha Hb word_0) as (hi & lo & S1 & Hhi & Hlo & P & _ & Hhi2).
  rewrite Z.add_0_r in S1, P. rewrite S1. specialize (Hhi2 eq_refl).
  destruct (overflowing_add64 lo ret.[k]) as [low o] eqn:A1.
  apply add64_spec in A1 as [Hlow A1]; auto with words.
  rewrite (wrap_id 64 (hi + _)) by (unfold is_u in *; destruct o; simpl; lia).
  destruct (overflowing_add64 (hi + Z.b2z o) carry) as [hi2 o0] eqn:A2.
  apply add64_spec in A2 as [Hhi3 A2]; [|unfold is_u in *; destruct o; simpl; lia|unfold is_u; lia].
  set (ret1 := <[k := low]> ret). assert (Forall (is_u 64) ret1) as Hr1 by (apply words_insert; auto).
  destruct (overflowing_add64 hi2 ret1.[S k]) as [hi3 o1] eqn:A3.
  apply add64_spec in A3 as [Hhi4 A3]; auto with words.
  pose proof (word_lookup ret1 (S k) Hr1) as W1. unfold is_u in W1, Hhi, Hhi3, Hhi4.
  assert (Z.b2z (o0 || o1) = Z.b2z o0 + Z.b2z o1) as Ho by (destruct o, o0, o1; simpl Z.b2z in *; lia).
  destruct (IH (S k) (Z.b2z (o0 || o1)) (<[S k := hi3]> ret1)) as (c & Hw & Hl & Hc' & V);
    [by apply words_insert|destruct o0, o1; simpl; lia|unfold ret1; rewrite !length_insert; lia|].
  exists c. repeat split; [exact Hw|rewrite Hl; unfold ret1; by rewrite !length_insert|lia..|].
  replace (k + S (length me))%nat with (S k + length me)%nat by lia. rewrite V, val_cons, Ho.
  rewrite val_insert by (unfold ret1; rewrite length_insert; lia). unfold ret1 at 1. rewrite val_insert by lia.
  rewrite pw_S. nia.
Qed.

Lemma mul_rows_spec check me you i ret :
  (forall a c, check a c = false -> a = 0 /\ c = 0) ->
  Forall (is_u 64) me -> Forall (is_u 64) you -> Forall (is_u 64) ret -> length ret = (length me * 2)%nat ->
  (i + length you = length me)%nat -> val ret < pw (length me + i) ->
  Forall (is_u 64) (mul_rows check me you i ret) /\ length (mul_rows check me you i ret) = length ret /\
    val (mul_rows check me you i ret) = val ret + pw i * (val me * val you).
Proof.
  intros Hck Hme Hyou. revert i ret. induction Hyou as [|b you Hb Hyou IH]; intros i ret Hr L Li B.
  { cbn [mul_rows length]. change (val []) with 0. repeat split; auto; lia. }
  cbn [mul_rows length] in *.
  destruct (mul_row_spec check b me i 0 ret Hck Hme Hb Hr) as (c & Hw & Hl & Hc & V); try lia.
  pose proof (val_bound _ Hw) as [B0 _]. pose proof (val_bound _ Hme) as Bm. pose proof (pw_pos i) as Hi.
  rewrite Z.mul_0_r, Z.add_0_r in V. unfold is_u in Hb.
  rewrite Nat.add_comm, pw_add in B. rewrite pw_S, pw_add in V.
  assert (b * val me <= (2 ^ 64 - 1) * pw (length me)) as Bp by nia.
  assert (pw i * (b * val me) <= pw i * ((2 ^ 64 - 1) * pw (length me))) as Bq by nia.
  assert (c = 0) as -> by nia. rewrite Z.mul_0_r, Z.add_0_r in V.
  destruct (IH (S i) (mul_row check b me i 0 ret)) as (Hw' & Hl' & V'); auto; try lia.
  { rewrite Nat.add_succ_r, pw_S, Nat.add_comm, pw_add. nia. }
  split; [exact Hw'|]. split; [lia|]. rewrite V', V, val_cons, pw_S. lia.
Qed.

Lemma any_nonzero_val l : Forall (is_u 64) l -> any_nonzero l = (0 <? val l).
Proof.
  induction 1 as [|d l Hd Hl IH]; [done|]. cbn. fold (any_nonzero l). rewrite IH. pose proof (val_bound l Hl).
  unfold is_u in Hd. change (foldr _ 0 l) with (val l).
  destruct (Z.eqb_spec d 0), (Z.ltb_spec 0 (val l)); simpl; symmetry; [apply Z.ltb_lt|apply Z.ltb_ge|apply Z.ltb_lt..]; lia.
Qed.

Lemma overflowing_mul_spec nw a b :
  is_uint nw a -> is_uint nw b ->
  exists r, overflowing_mul a b = (r, pw nw <=? val a * val b) /\ is_uint nw r /\ val r = (val a * val b) mod pw nw.
Proof.
  intros [La Ha] [Lb Hb]. unfold overflowing_mul, uint_full_mul_reg.
  destruct (mul_rows_spec (mul_check (length a)) a b 0 (replicate (length a * 2) 0)) as (Hw & Hl & V); auto with words.
  { unfold mul_check. intros x c. destruct (Nat.eqb _ 8); [|discriminate].
    intros [Hx Hc]%orb_false_iff. apply negb_false_iff, Z.eqb_eq in Hx, Hc. done. }
  { by rewrite length_replicate. } { lia. } { rewrite val_replicate_0. apply pw_pos. }
  rewrite val_replicate_0, pw_0 in V. set (m := mul_rows _ _ _ _ _) in *. rewrite length_replicate in Hl.
  rewrite Z.add_0_l, Z.mul_1_l in V. rewrite <- V. rewrite La in *.
  exists (take nw m). split; [f_equal|split].
  - rewrite any_nonzero_val, val_drop by (auto with words; lia).
    pose proof (val_bound m Hw). pose proof (pw_pos nw).
    destruct (Z.leb_spec (pw nw) (val m)); [apply Z.ltb_lt, Z.div_str_pos; lia|].
    rewrite Z.div_small by lia. reflexivity.
  - split; [rewrite length_take; lia|auto with words].
  - apply val_take; [done|lia].
Qed.

Lemma mul_u64_words_spec l b c :
  Forall (is_u 64) l -> is_u 64 b -> is_u 64 c ->
  exists r c', mul_u64_words l b c = (r, c') /\ Forall (is_u 64) r /\ length r = length l /\ is_u 64 c' /\
    val r + pw (length l) * c' = val l * b + c.
Proof.
  intros Hl Hb. revert c. induction Hl as [|d l Hd Hl IH]; intros c Hc.
  { exists [], c. cbn. repeat split; try apply Hc; auto. rewrite pw_0. lia. }
  cbn [mul_u64_words]. unfold mul_u64.
  destruct (split_product d b c Hd Hb Hc) as (hi & lo & -> & Hhi & Hlo & P & _).
  destruct (IH hi Hhi) as (r & c' & -> & Hr & Lr & Hc' & V).
  exists (lo :: r), c'. split; [done|]. split; [by constructor|]. split; [simpl; lia|]. split; [done|].
  cbn [length]. rewrite !val_cons, pw_S. lia.
Qed.

(** ** Shifts *)

Lemma word_fmap_seq f n k : (k < n)%nat -> (f <$> seq 0 n).[k] = f k.
Proof. intros H. apply word_in. rewrite list_lookup_fmap, lookup_seq_lt by lia. reflexivity. Qed.
Lemma word_imap f l k : (k < length l)%nat -> (imap f l).[k] = f k l.[k].
Proof.
  intros H. destruct (lookup_lt_is_Some_2 l k H) as [x E].
  rewrite (word_in l k x E). apply word_in. rewrite list_lookup_imap, E. reflexivity.
Qed.
Lemma words_by_index l : (forall k, (k < length l)%nat -> is_u 64 l.[k]) -> Forall (is_u 64) l.
Proof.
  intros H. apply Forall_lookup_2. intros k x E. rewrite <- (word_in l k x E).
  apply H. by apply lookup_lt_Some in E.
Qed.

(** A word filled from the high part of [lo] and the low part of [hi]. *)
Lemma funnel_bits hi lo n i :
  is_u 64 hi -> is_u 64 lo -> 0 < n < 64 -> 0 <= i < 64 ->
  Z.testbit (Z.lor (wrap 64 (Z.shiftl hi n)) (Z.shiftr lo (64 - n))) i =
    if i <? n then Z.testbit lo (64 + i - n) else Z.testbit hi (i - n).
Proof.
  intros Hh Hl Hn Hi. unfold wrap.
  rewrite Z.lor_spec, Z.mod_pow2_bits_low, Z.shiftl_spec, Z.shiftr_spec by lia.
  destruct (Z.ltb_spec i n).
  - rewrite Z.testbit_neg_r by lia. simpl. f_equal. lia.
  - rewrite (testbit_high 64 lo) by (unfold is_u in *; lia). by rewrite orb_false_r.
Qed.
Lemma funnel_add hi lo n :
  is_u 64 hi -> is_u 64 lo -> 0 < n < 64 ->
  wrap 64 (Z.shiftl hi n) + Z.shiftr lo (64 - n) = Z.lor (wrap 64 (Z.shiftl hi n)) (Z.shiftr lo (64 - n)).
Proof.
  intros Hh Hl Hn. rewrite <- Z.add_lor_land.
  enough (Z.land (wrap 64 (Z.shiftl hi n)) (Z.shiftr lo (64 - n)) = 0) as -> by lia.
  apply Z.bits_inj'. intros i Hi. rewrite Z.land_spec, Z.bits_0, Z.shiftr_spec by lia. unfold wrap.
  destruct (Z.ltb_spec i n).
  - rewrite Z.mod_pow2_bits_low, Z.shiftl_spec, Z.testbit_neg_r by lia. reflexivity.
  - rewrite (testbit_high 64 lo) by (unfold is_u in *; lia). apply andb_false_r.
Qed.
Lemma funnel_word hi lo n :
  is_u 64 hi -> is_u 64 lo -> 0 < n < 64 -> is_u 64 (Z.lor (wrap 64 (Z.shiftl hi n)) (Z.shiftr lo (64 - n))).
Proof.
  intros Hh Hl Hn. rewrite <- funnel_add by done. unfold is_u, wrap in *.
  rewrite Z.shiftl_mul_pow2, Z.shiftr_div_pow2 by lia.
  assert (lo / 2 ^ (64 - n) < 2 ^ n).
  { apply Z.div_lt_upper_bound; [lia|]. rewrite <- Z.pow_add_r by lia. replace (64 - n + n) with 64 by lia. lia. }
  assert (0 <= lo / 2 ^ (64 - n)) by (apply Z.div_pos; lia).
  assert (2 ^ 64 = 2 ^ (64 - n) * 2 ^ n) as -> by (rewrite <- Z.pow_add_r by lia; f_equal; lia).
  rewrite Z.mul_mod_distr_r by lia.
  pose proof (Z.mod_pos_bound hi (2 ^ (64 - n)) ltac:(lia)). nia.
Qed.

Lemma length_uint_shl l s : length (uint_shl l s) = length l.
Proof. unfold uint_shl. destruct (0 <? _); rewrite ?length_imap, length_fmap, length_seq; reflexivity. Qed.
Lemma length_uint_shr l s : length (uint_shr l s) = length l.
Proof. unfold uint_shr. destruct (0 <? _); rewrite ?length_imap, length_fmap, length_seq; reflexivity. Qed.

(** Bit [i] of a value, by word and bit. *)
Lemma val_testbit_at l k i :
  Forall (is_u 64) l -> 0 <= k -> 0 <= i < 64 -> Z.testbit (val l) (64 * k + i) = Z.testbit l.[Z.to_nat k] i.
Proof. intros H Hk Hi. rewrite val_testbit by (auto; lia). f_equal; [f_equal; f_equal|]; dlia. Qed.

Lemma uint_shl_word l s k :
  Forall (is_u 64) l -> 0 <= s -> (k < length l)%nat ->
  is_u 64 (uint_shl l s).[k] /\
  forall i, 0 <= i < 64 -> Z.testbit (uint_shl l s).[k] i = Z.testbit (val l) (64 * Z.of_nat k + i - s).
Proof.
  intros H Hs Hk. unfold uint_shl. cbv zeta.
  set (ws := s / 64). set (bs := s mod 64).
  assert (s = 64 * ws + bs /\ 0 <= bs < 64 /\ 0 <= ws) as (Es & Hb & Hw) by (subst ws bs; dlia).
  clearbody ws bs. subst s.
  assert (forall i, 0 <= i < 64 -> bs <= i -> ws <= Z.of_nat k ->
    Z.testbit (val l) (64 * Z.of_nat k + i - (64 * ws + bs)) = Z.testbit l.[Z.to_nat (Z.of_nat k - ws)] (i - bs)) as Bh.
  { intros i Hi Hbi Hki. rewrite <- val_testbit_at by (auto; lia). f_equal. lia. }
  destruct (Z.ltb_spec 0 bs) as [Hp|Hp].
  - assert (0 < bs < 64) as Hn by lia. rewrite word_imap, word_fmap_seq by (rewrite ?length_fmap, ?length_seq; lia).
    destruct (Z.leb_spec (ws + 1) (Z.of_nat k)) as [L|L].
    + rewrite (proj2 (Z.leb_le _ _)) by lia.
      rewrite funnel_add, (wrap_id 64 (Z.lor _ _)) by (auto using funnel_word with words).
      split; [apply funnel_word; auto with words|]. intros i Hi. rewrite funnel_bits by auto with words.
      destruct (Z.ltb_spec i bs); [|rewrite Bh by lia; reflexivity].
      rewrite <- val_testbit_at by (auto; lia). f_equal. lia.
    + destruct (Z.leb_spec ws (Z.of_nat k)).
      * split; [apply word_wrap|]. intros i Hi. unfold wrap. rewrite Z.mod_pow2_bits_low, Z.shiftl_spec by lia.
        destruct (Z.ltb_spec i bs); [|rewrite Bh by lia; reflexivity].
        rewrite !Z.testbit_neg_r by lia. reflexivity.
      * split; [apply word_0|]. intros i Hi. rewrite Z.bits_0, Z.testbit_neg_r by lia. reflexivity.
  - assert (bs = 0) as -> by lia. rewrite word_fmap_seq by lia.
    destruct (Z.leb_spec ws (Z.of_nat k)).
    + rewrite Z.shiftl_0_r, wrap_id by auto with words. split; [auto with words|].
      intros i Hi. rewrite Bh by lia. by rewrite Z.sub_0_r.
    + split; [apply word_0|]. intros i Hi. rewrite Z.bits_0, Z.testbit_neg_r by lia. reflexivity.
Qed.

Lemma uint_shr_word l s k :
  Forall (is_u 64) l -> 0 <= s -> (k < length l)%nat ->
  is_u 64 (uint_shr l s).[k] /\
  forall i, 0 <= i < 64 -> Z.testbit (uint_shr l s).[k] i = Z.testbit (val l) (64 * Z.of_nat k + i + s).
Proof.
  intros H Hs Hk. unfold uint_shr. cbv zeta.
  set (ws := s / 64). set (bs := s mod 64).
  assert (s = 64 * ws + bs /\ 0 <= bs < 64 /\ 0 <= ws) as (Es & Hb & Hw) by (subst ws bs; dlia).
  clearbody ws bs. subst s.
  assert (forall i, 0 <= i -> i + bs < 64 ->
    Z.testbit (val l) (64 * Z.of_nat k + i + (64 * ws + bs)) = Z.testbit l.[Z.to_nat (Z.of_nat k + ws)] (i + bs)) as Bl.
  { intros i Hi Hbi. rewrite <- val_testbit_at by (auto; lia). f_equal. lia. }
  assert (forall i, 0 <= i < 64 -> 64 <= i + bs ->
    Z.testbit (val l) (64 * Z.of_nat k + i + (64 * ws + bs)) = Z.testbit l.[Z.to_nat (Z.of_nat k + ws + 1)] (i + bs - 64)) as Bh.
  { intros i Hi Hbi. rewrite <- val_testbit_at by (auto; lia). f_equal. lia. }
  assert (forall x, is_u 64 x -> is_u 64 (Z.shiftr x bs)) as Hsr.
  { unfold is_u. intros x Hx. rewrite Z.shiftr_div_pow2 by lia.
    split; [apply Z.div_pos; lia|]. apply Z.div_lt_upper_bound; nia. }
  destruct (Z.ltb_spec 0 bs) as [Hp|Hp].
  - assert (0 < 64 - bs < 64) as Hn by lia. rewrite word_imap, word_fmap_seq by (rewrite ?length_fmap, ?length_seq; lia).
    destruct (Z.ltb_spec (Z.of_nat k + ws + 1) (Z.of_nat (length l))) as [L|L].
    + rewrite (proj2 (Z.ltb_lt _ _)) by lia.
      replace (Z.shiftr l.[Z.to_nat (Z.of_nat k + ws)] bs)
        with (Z.shiftr l.[Z.to_nat (Z.of_nat k + ws)] (64 - (64 - bs))) by (f_equal; lia).
      rewrite (Z.add_comm (Z.shiftr _ _)), funnel_add, (wrap_id 64 (Z.lor _ _))
        by (auto using funnel_word with words).
      split; [apply funnel_word; auto with words|]. intros i Hi. rewrite funnel_bits by (auto with words).
      destruct (Z.ltb_spec i (64 - bs)); [rewrite Bl by lia|rewrite Bh by lia]; f_equal; lia.
    + assert (forall i, 0 <= i < 64 -> 64 <= i + bs ->
        Z.testbit (val l) (64 * Z.of_nat k + i + (64 * ws + bs)) = false) as B0.
      { intros i Hi Hbi. rewrite Bh by lia. rewrite word_out, Z.bits_0 by lia. reflexivity. }
      destruct (Z.ltb_spec (Z.of_nat k + ws) (Z.of_nat (length l))).
      * split; [auto with words|]. intros i Hi. rewrite Z.shiftr_spec by lia.
        destruct (Z.ltb_spec (i + bs) 64); [by rewrite Bl by lia|]. rewrite B0 by lia.
        apply testbit_high with (n := 64); [apply word_lookup; auto|lia].
      * split; [apply word_0|]. intros i Hi. rewrite Z.bits_0.
        destruct (Z.ltb_spec (i + bs) 64); [|by rewrite B0 by lia].
        rewrite Bl, word_out, Z.bits_0 by lia. reflexivity.
  - assert (bs = 0) as -> by lia. rewrite word_fmap_seq by lia.
    destruct (Z.ltb_spec (Z.of_nat k + ws) (Z.of_nat (length l))).
    + rewrite Z.shiftr_0_r. split; [auto with words|]. intros i Hi. rewrite Bl by lia. f_equal. lia.
    + split; [apply word_0|]. intros i Hi. rewrite Bl, word_out by lia. by rewrite !Z.bits_0.
Qed.

Lemma uint_shl_spec nw l s :
  is_uint nw l -> 0 <= s -> is_uint nw (uint_shl l s) /\ val (uint_shl l s) = (val l * 2 ^ s) mod pw nw.
Proof.
  intros [L H] Hs. pose proof (pw_pos nw).
  assert (Forall (is_u 64) (uint_shl l s)) as Hw.
  { apply words_by_index. intros k Hk. rewrite length_uint_shl in Hk. by apply uint_shl_word. }
  split; [split; [by rewrite length_uint_shl|done]|].
  apply val_bits_eq; [done|rewrite length_uint_shl, L; apply Z.mod_pos_bound; lia|].
  rewrite length_uint_shl. intros k i Hk Hi. rewrite (proj2 (uint_shl_word l s k H Hs Hk) i Hi).
  unfold pw. rewrite Z.mod_pow2_bits_low, Z.mul_pow2_bits by lia. reflexivity.
Qed.
Lemma uint_shr_spec nw l s :
  is_uint nw l -> 0 <= s -> is_uint nw (uint_shr l s) /\ val (uint_shr l s) = val l / 2 ^ s.
Proof.
  intros [L H] Hs. pose proof (val_bound l H) as B.
  assert (Forall (is_u 64) (uint_shr l s)) as Hw.
  { apply words_by_index. intros k Hk. rewrite length_uint_shr in Hk. by apply uint_shr_word. }
  split; [split; [by rewrite length_uint_shr|done]|].
  apply val_bits_eq; [done|rewrite length_uint_shr|].
  { split; [apply Z.div_pos; lia|]. apply Z.div_lt_upper_bound; nia. }
  rewrite length_uint_shr. intros k i Hk Hi. rewrite (proj2 (uint_shr_word l s k H Hs Hk) i Hi).
  rewrite <- Z.shiftr_div_pow2, Z.shiftr_spec by lia. reflexivity.
Qed.

Lemma full_shl_spec nw l s :
  is_uint (S nw) l -> 0 <= s < 64 -> is_uint (S (S nw)) (full_shl l s) /\ val (full_shl l s) = val l * 2 ^ s.
Proof.
  intros Hl Hs. destruct (uint_shr_spec _ _ (64 - s) Hl ltac:(lia)) as [[L' H'] V']. destruct Hl as [L H].
  unfold full_shl. split; [split; [simpl; lia|constructor; auto with words]|].
  rewrite val_cons, V', val_lookup, pw_0, Z.div_1_r by done. unfold wrap.
  rewrite Z.shiftl_mul_pow2 by lia.
  assert (2 ^ 64 = 2 ^ (64 - s) * 2 ^ s) as E by (rewrite <- Z.pow_add_r by lia; f_equal; lia).
  rewrite Z.mul_mod_idemp_l by lia. rewrite E, Z.mul_mod_distr_r by lia.
  pose proof (Z.div_mod (val l) (2 ^ (64 - s)) ltac:(lia)). nia.
Qed.
Lemma full_shr_spec nw u s :
  is_uint (S nw) u -> 0 <= s < 64 -> is_uint nw (full_shr u s) /\ val (full_shr u s) = (val u / 2 ^ s) mod pw nw.
Proof.
  intros [L H] Hs. pose proof (pw_pos nw).
  assert (length (full_shr u s) = nw) as Lr.
  { unfold full_shr. destruct (0 <? s); rewrite ?length_imap, length_fmap, length_seq; lia. }
  assert (forall k, (k < nw)%nat -> is_u 64 (full_shr u s).[k] /\ forall i, 0 <= i < 64 ->
    Z.testbit (full_shr u s).[k] i = Z.testbit (val u) (64 * Z.of_nat k + i + s)) as Hk.
  { intros k Lk. unfold full_shr. destruct (Z.ltb_spec 0 s) as [Hp|Hp].
    - assert (0 < 64 - s < 64) as Hn by lia.
      rewrite word_imap, word_fmap_seq by (rewrite ?length_fmap, ?length_seq; lia).
      replace (Z.shiftr u.[k] s) with (Z.shiftr u.[k] (64 - (64 - s))) by (f_equal; lia). rewrite Z.lor_comm.
      split; [apply funnel_word; auto with words|]. intros i Hi. rewrite funnel_bits by auto with words.
      destruct (Z.ltb_spec i (64 - s)).
      + replace (64 * Z.of_nat k + i + s) with (64 * Z.of_nat k + (i + s)) by lia.
        rewrite val_testbit_at, Nat2Z.id by (auto; lia). f_equal. lia.
      + replace (64 * Z.of_nat k + i + s) with (64 * Z.of_nat (S k) + (i + s - 64)) by lia.
        rewrite val_testbit_at, Nat2Z.id by (auto; lia). f_equal. lia.
    - assert (s = 0) as -> by lia. rewrite word_fmap_seq, Z.shiftr_0_r by lia.
      split; [auto with words|]. intros i Hi. rewrite Z.add_0_r, val_testbit_at, Nat2Z.id by (auto; lia). reflexivity. }
  assert (Forall (is_u 64) (full_shr u s)) as Hw by (apply words_by_index; rewrite Lr; intros k Lk; by apply Hk).
  split; [done|]. apply val_bits_eq; [done|rewrite Lr; apply Z.mod_pos_bound; lia|].
  rewrite Lr. intros k i Lk Hi. rewrite (proj2 (Hk k Lk)) by done. unfold pw.
  rewrite Z.mod_pow2_bits_low, <- Z.shiftr_div_pow2, Z.shiftr_spec by lia. reflexivity.
Qed.

(** ** Bit counting, comparison and small values *)

Definition bit_length (x : Z) : Z := if x =? 0 then 0 else Z.log2 x + 1.

Lemma bit_length_word a : is_u 64 a -> 64 - leading_zeros64 a = bit_length a.
Proof. unfold leading_zeros64, bit_length. intros _. destruct (a =? 0); lia. Qed.
Lemma bit_length_lt a b : 0 <= a -> 0 <= b -> bit_length a < bit_length b -> a < b.
Proof.
  unfold bit_length. intros Ha Hb. pose proof (Z.log2_nonneg a). destruct (Z.eqb_spec a 0), (Z.eqb_spec b 0); try lia.
  intros Hlt. apply Z.log2_lt_cancel. lia.
Qed.
Lemma bit_length_words x k : 0 < x -> pw k <= x < pw (S k) -> words (bit_length x) = Z.of_nat k + 1.
Proof.
  intros H [B1 B2]. unfold words, bit_length. rewrite (proj2 (Z.eqb_neq x 0)) by lia.
  unfold pw in *. apply Z.log2_le_pow2 in B1; [|lia]. apply Z.log2_lt_pow2 in B2; [|lia]. dlia.
Qed.

Lemma bits_from_spec l k :
  Forall (is_u 64) l -> (k < length l)%nat -> val l < pw (S k) -> bits_from k l = bit_length (val l).
Proof.
  intros H. induction k as [|k IH]; intros L B.
  - cbn [bits_from]. change 0x40 with 64. rewrite bit_length_word by auto with words.
    rewrite val_lookup, pw_0, Z.div_1_r, Z.mod_small; [done|pose proof (val_bound l H); change (pw 1) with (2 ^ 64) in B; lia|done].
  - cbn [bits_from]. pose proof (val_bound l H) as B0. pose proof (pw_pos (S k)).
    rewrite pw_S in B. pose proof (val_lookup l (S k) H) as W. rewrite Z.mod_small in W.
    2:{ split; [apply Z.div_pos; lia|apply Z.div_lt_upper_bound; lia]. }
    rewrite W. pose proof (Z.div_mod (val l) (pw (S k)) ltac:(lia)) as D.
    pose proof (Z.mod_pos_bound (val l) (pw (S k)) ltac:(lia)) as M.
    destruct (Z.ltb_spec 0 (val l / pw (S k))).
    + unfold leading_zeros64, bit_length. rewrite !(proj2 (Z.eqb_neq _ 0)) by nia.
      unfold pw. rewrite <- Z.shiftr_div_pow2, Z.log2_shiftr by lia.
      assert (64 * Z.of_nat (S k) <= Z.log2 (val l)) by (apply Z.log2_le_pow2; [nia|]; fold (pw (S k)); nia). lia.
    + apply IH; [lia|]. assert (val l / pw (S k) = 0) as E by (pose proof (Z.div_pos (val l) (pw (S k))); lia).
      apply Z.div_small_iff in E; lia.
Qed.
Lemma bits_spec nw l : is_uint (S nw) l -> bits l = bit_length (val l).
Proof.
  intros [L H]. unfold bits. apply bits_from_spec; [done|lia|].
  replace (S (length l - 1)) with (length l) by lia. by apply val_bound.
Qed.

Lemma is_zero_spec l : Forall (is_u 64) l -> is_zero l = (val l =? 0).
Proof.
  induction 1 as [|d l Hd Hl IH]; [done|]. cbn. fold (is_zero l). rewrite IH. pose proof (val_bound l Hl).
  change (foldr _ 0 l) with (val l). unfold is_u in Hd.
  destruct (Z.eqb_spec d 0), (Z.eqb_spec (val l) 0); simpl; symmetry; [apply Z.eqb_eq|apply Z.eqb_neq..]; lia.
Qed.
Lemma from_u64_spec nw x : is_u 64 x -> is_uint (S nw) (from_u64 (S nw) x) /\ val (from_u64 (S nw) x) = x.
Proof.
  intros H. unfold from_u64. split.
  - split; [by rewrite length_insert, length_replicate|auto with words].
  - rewrite val_insert by (rewrite length_replicate; lia). rewrite val_replicate_0, pw_0. cbn. lia.
Qed.
Lemma uint_zero_spec nw : is_uint nw (uint_zero nw) /\ val (uint_zero nw) = 0.
Proof. split; [split; [apply length_replicate|apply words_replicate, word_0]|apply val_replicate_0]. Qed.
Lemma uint_one_spec nw : is_uint (S nw) (uint_one (S nw)) /\ val (uint_one (S nw)) = 1.
Proof. apply (from_u64_spec nw 1). unfold is_u. lia. Qed.
Lemma low_u64_spec l : Forall (is_u 64) l -> low_u64 l = val l mod 2 ^ 64.
Proof. intros H. unfold low_u64. by rewrite val_lookup, pw_0, Z.div_1_r by done. Qed.

Lemma uint_not_spec nw l : is_uint nw l -> is_uint nw (uint_not l) /\ val (uint_not l) = pw nw - 1 - val l.
Proof.
  intros [<- H]. induction H as [|d l Hd Hl IH]; [done|]. destruct IH as [[L H] V].
  change (uint_not (d :: l)) with (2 ^ 64 - 1 - d :: uint_not l). unfold is_u in Hd. split.
  - split; [simpl; by f_equal|]. constructor; [unfold is_u; lia|exact H].
  - cbn [length]. rewrite !val_cons, V, pw_S. lia.
Qed.

Lemma bytes_cmp_snoc a b x y :
  length a = length b ->
  bytes_cmp (a ++ [x]) (b ++ [y]) = match bytes_cmp a b with Eq => Z.compare x y | c => c end.
Proof.
  revert b. induction a as [|c a IH]; intros [|d b] L; try discriminate; cbn.
  - by destruct (x ?= y).
  - destruct (c ?= d); [apply IH; simpl in L; lia|done..].
Qed.
Lemma uint_cmp_spec nw a b : is_uint nw a -> is_uint nw b -> uint_cmp a b = Z.compare (val a) (val b).
Proof.
  intros [<- Ha] [Lb Hb]. revert b Lb Hb.
  induction Ha as [|x a Hx Ha IH]; intros [|y b] L Hb; try discriminate; [done|].
  apply Forall_cons in Hb as [Hy Hb]. unfold uint_cmp in *. cbn [rev].
  rewrite bytes_cmp_snoc by (rewrite !length_rev; simpl in L; lia).
  rewrite IH by (auto; simpl in L; lia). rewrite !val_cons. unfold is_u in Hx, Hy.
  destruct (Z.compare_spec (val a) (val b)) as [E|E|E], (Z.compare_spec x y) as [F|F|F]; symmetry;
    rewrite ?Z.compare_eq_iff, ?Z.compare_lt_iff, ?Z.compare_gt_iff; lia.
Qed.

(** ** Big-endian bytes *)

Lemma from_be_app a b : from_be (a ++ b) = from_be a * 2 ^ (8 * Z.of_nat (length b)) + from_be b.
Proof. unfold from_be, from_digits at 1. rewrite fold_left_app, fold_digits_acc by lia. reflexivity. Qed.
Lemma from_be_zeros n l : from_be (replicate n 0 ++ l) = from_be l.
Proof. induction n as [|n IH]; [done|]. simpl replicate. simpl app. rewrite from_be_cons, IH. lia. Qed.

Lemma to_big_endian_cons d l : to_big_endian (d :: l) = to_big_endian l ++ to_be 8 d.
Proof. unfold to_big_endian. simpl rev. rewrite fmap_app, concat_app. change (concat (to_be 8 <$> [d])) with (to_be 8 d ++ []). by rewrite app_nil_r. Qed.
Lemma to_big_endian_spec nw l : is_uint nw l -> to_big_endian l = to_be (8 * nw) (val l).
Proof.
  intros Hl. assert (is_bytes (8 * nw) (to_big_endian l) /\ from_be (to_big_endian l) = val l) as [B V].
  { destruct Hl as [<- H]. induction H as [|d l Hd Hl IH]; [done|].
    destruct IH as [[L B] V]. rewrite to_big_endian_cons. split.
    - split; [rewrite length_app, length_to_be, L; simpl; lia|].
      apply Forall_app. split; [exact B|apply to_be_bytes].
    - rewrite from_be_app, V, from_to_be_id, length_to_be, val_cons by done. change (2 ^ (8 * Z.of_nat 8)) with (2 ^ 64). lia. }
  rewrite <- V. symmetry. by apply to_from_be.
Qed.

Lemma chunks_val nw p :
  is_bytes (8 * nw) p ->
  is_uint nw (rev ((fun i => from_be (take 8 (drop (8 * i) p))) <$> seq 0 nw)) /\
  val (rev ((fun i => from_be (take 8 (drop (8 * i) p))) <$> seq 0 nw)) = from_be p.
Proof.
  revert p. induction nw as [|nw IH]; intros p [L H].
  { destruct p; [done|discriminate]. }
  destruct (IH (drop 8 p)) as [[Lr Hr] V].
  { split; [rewrite length_drop; lia|by apply Forall_drop]. }
  assert (is_bytes 8 (take 8 p)) as H8 by (split; [rewrite length_take; lia|by apply Forall_take]).
  pose proof (from_be_bound _ _ H8) as B8. change (8 * Z.of_nat 8) with 64 in B8.
  replace ((fun i => from_be (take 8 (drop (8 * i) p))) <$> seq 0 (S nw))
    with (from_be (take 8 p) :: ((fun i => from_be (take 8 (drop (8 * i) (drop 8 p)))) <$> seq 0 nw)).
  2:{ cbn [seq]. rewrite fmap_cons, drop_0. f_equal. rewrite <- seq_shift, <- list_fmap_compose.
      apply list_fmap_ext. intros i x _. unfold compose. rewrite drop_drop. do 3 f_equal. lia. }
  cbn [rev]. split.
  - split; [rewrite length_app, Lr; simpl; lia|]. apply Forall_app. split; [exact Hr|by constructor].
  - rewrite val_app, V, Lr, val_cons. change (val []) with 0. rewrite <- (take_drop 8 p) at 3.
    rewrite from_be_app, length_drop, L. unfold pw. replace (8 * S nw - 8)%nat with (8 * nw)%nat by lia.
    replace (8 * Z.of_nat (8 * nw)) with (64 * Z.of_nat nw) by lia. lia.
Qed.
Lemma from_big_endian_spec {E} nw s n :
  is_bytes n s -> (n <= 8 * nw)%nat ->
  exists r, from_big_endian (E:=E) nw s = Ok r /\ is_uint nw r /\ val r = from_be s.
Proof.
  intros [L H] Hn. unfold from_big_endian. destruct (Nat.ltb_spec (nw * 8) (length s)); [lia|].
  destruct (chunks_val nw (replicate (nw * 8 - length s) 0 ++ s)) as [Hu V].
  - split; [rewrite length_app, length_replicate; lia|]. apply Forall_app. split; [|exact H].
    apply Forall_replicate. unfold is_byte, is_u. lia.
  - eexists. split; [reflexivity|]. split; [exact Hu|]. rewrite V. apply from_be_zeros.
Qed.
