(* ===== verification/UintDiv.v ===== *)
(** * Division of the [uint] crate

    [div_mod] (src/common/uint/src/uint.rs) divides by one word at a time or by
    Knuth's Algorithm D.  The trial quotient of step D3 exceeds the quotient
    word by at most one ([knuth_estimate]), so that each round leaves the exact
    remainder ([knuth_step_ok]), and [div_mod] returns the quotient and the
    remainder of the values for every pair of operands whose divisor is not
    zero ([div_mod_ok]).  On top of it: the operators, exponentiation and the
    decimal text, and the agreement with the operations on values that
    Compact.v and Consensus.v use. *)
From S2P Require Import Prelude Compact Uint UintProofs.
From stdpp Require Import list.
#[local] Open Scope Z_scope.

(** ** Division by a word *)

Lemma div_mod_word_spec hi lo y :
  is_u 64 lo -> 0 <= hi < y -> is_u 64 y ->
  exists q r, div_mod_word hi lo y = (q, r) /\ is_u 64 q /\ 0 <= r < y /\ q * y + r = hi * 2 ^ 64 + lo.
Proof.
  unfold is_u. intros Hl Hh Hy. unfold div_mod_word. rewrite Z.shiftl_mul_pow2 by lia.
  set (x := hi * 2 ^ 64 + lo). rewrite (wrap_id 128 x) by (unfold is_u, x; nia).
  pose proof (Z.div_mod x y ltac:(lia)) as D. pose proof (Z.mod_pos_bound x y ltac:(lia)) as M.
  assert (0 <= x / y < 2 ^ 64) as B by (split; [apply Z.div_pos|apply Z.div_lt_upper_bound]; unfold x; nia).
  rewrite (wrap_id 64 (x / y)), (wrap_id 64 (x mod y)) by (unfold is_u; lia).
  exists (x / y), (x mod y). repeat split; try lia.
Qed.

Lemma div_mod_small_spec nw l y :
  is_uint (S nw) l -> is_u 64 y -> 0 < y ->
  exists q r, div_mod_small l y = (q, r) /\ is_uint (S nw) q /\ is_uint (S nw) r /\
    val q = val l / y /\ val r = val l mod y.
Proof.
  intros [L H] Hy Hp. unfold div_mod_small.
  assert (exists q r, foldr (fun d st => let '(q, r) := div_mod_word st.2 d y in (q :: st.1, r)) ([], 0) l = (q, r) /\
    Forall (is_u 64) q /\ length q = length l /\ 0 <= r < y /\ val q * y + r = val l) as (q & r & -> & Hq & Lq & Hr & V).
  { clear L. induction H as [|d l Hd Hl IH].
    - exists [], 0. repeat split; auto; simpl; lia.
    - destruct IH as (q & r & E & Hq & Lq & Hr & V). cbn [foldr]. rewrite E. cbn [fst snd].
      destruct (div_mod_word_spec r d y Hd Hr Hy) as (qd & rd & -> & Hqd & Hrd & D).
      exists (qd :: q), rd. repeat split; try lia; [by constructor|simpl; lia|rewrite !val_cons; lia]. }
  rewrite Lq, L. destruct (from_u64_spec nw r) as [Hf Vf]; [unfold is_u in *; lia|].
  exists q, (from_u64 (S nw) r). split; [done|]. split; [split; [lia|done]|]. split; [done|].
  rewrite Vf. rewrite <- V. rewrite Z.div_add_l, Z.div_small by lia.
  rewrite (Z.add_comm (_ * _)), Z.mod_add, Z.mod_small by lia. lia.
Qed.

(** ** Sums and differences of slices *)

Lemma binop_carry_spec s f a b c r c' :
  word_op s f -> (s = 1 \/ s = -1) -> is_u 64 a -> is_u 64 b -> binop_carry a b c f = (r, c') ->
  is_u 64 r /\ r + s * (2 ^ 64 * Z.b2z c') = a + s * (b + Z.b2z c).
Proof.
  intros Hf Hs Ha Hb. unfold binop_carry.
  destruct (overflowing_add64 b (Z.b2z c)) as [r1 o1] eqn:E1. apply add64_spec in E1 as [H1 E1]; auto with words.
  destruct (f a r1) as [r2 o2] eqn:E2. apply Hf in E2 as [H2 E2]; auto. intros [= <- <-]. split; [done|].
  unfold is_u in *. destruct o1, o2, c, Hs as [-> | ->]; cbn [orb Z.b2z] in *; lia.
Qed.

(** The words [b] covers change, the words above stay. *)
Lemma binop_slice_spec s f c a b :
  word_op s f -> (s = 1 \/ s = -1) ->
  Forall (is_u 64) a -> Forall (is_u 64) b -> (length b <= length a)%nat ->
  exists r c', binop_slice_from c a b f = (r, c') /\ Forall (is_u 64) r /\ length r = length a /\
    drop (length b) r = drop (length b) a /\
    val r + s * (pw (length b) * Z.b2z c') = val a + s * (val b + Z.b2z c).
Proof.
  intros Hf Hs Ha Hb. revert a c Ha. induction Hb as [|y b Hy Hb IH]; intros a c Ha L.
  { exists a, c. cbn [length]. rewrite pw_0. change (val []) with 0.
    split; [by destruct a|]. repeat split; auto; lia. }
  destruct a as [|x a]; [simpl in L; lia|]. apply Forall_cons in Ha as [Hx Ha]. cbn [binop_slice_from].
  destruct (binop_carry x y c f) as [r1 c1] eqn:E. eapply binop_carry_spec in E as [Hr1 V1]; eauto.
  destruct (IH a c1 Ha) as (r & c' & -> & Hr & Lr & Dr & V); [simpl in L; lia|].
  exists (r1 :: r), c'. split; [done|]. split; [by constructor|]. split; [simpl; lia|]. split; [done|].
  cbn [length]. rewrite !val_cons, pw_S. destruct Hs as [-> | ->]; lia.
Qed.

(** ** The trial quotient *)

Section Estimate.
Context (v1 v2 u2 T : Z) (Hv1 : 2 ^ 63 <= v1 < 2 ^ 64) (Hv2 : is_u 64 v2) (Hu2 : is_u 64 u2).

(** Three rounds are enough: [r_hat] grows by at least half a word in each.  The
    result is the quotient of the three leading words by two. *)
Lemma q_hat_loop_spec {E} fuel q r :
  is_u 64 q -> is_u 64 r -> q * v1 + r = T ->
  T * 2 ^ 64 + u2 < (q + 1) * (v1 * 2 ^ 64 + v2) ->
  2 ^ 64 <= r + (Z.of_nat fuel - 1) * 2 ^ 63 ->
  exists q', q_hat_loop (E:=E) fuel v1 v2 u2 q r = Ok q' /\ is_u 64 q' /\
    q' * (v1 * 2 ^ 64 + v2) <= T * 2 ^ 64 + u2 < (q' + 1) * (v1 * 2 ^ 64 + v2).
Proof.
  revert q r. induction fuel as [|fuel IH]; intros q r Hq Hr D B F; [unfold is_u in *; lia|].
  cbn [q_hat_loop]. destruct (split_product q v2 0 Hq Hv2 word_0) as (hi & lo & S1 & Hhi & Hlo & P & _).
  rewrite Z.add_0_r in S1, P. rewrite S1. unfold is_u in Hq, Hv2, Hu2, Hr, Hhi, Hlo.
  destruct ((hi <? r) || ((hi =? r) && (lo <=? u2))) eqn:C.
  - exists q. split; [done|]. split; [done|]. split; [|done].
    assert (q * v2 <= r * 2 ^ 64 + u2); [|subst T; lia].
    apply orb_true_iff in C as [C|C]; [apply Z.ltb_lt in C; lia|].
    apply andb_true_iff in C as [C1 C2]. apply Z.eqb_eq in C1. apply Z.leb_le in C2. lia.
  - assert (r * 2 ^ 64 + u2 < q * v2) as Lt.
    { apply orb_false_iff in C as [C1 C2]. apply Z.ltb_ge in C1. apply andb_false_iff in C2 as [C2|C2];
      [apply Z.eqb_neq in C2|apply Z.leb_gt in C2]; lia. }
    assert (0 < q) as Hq0 by nia. rewrite (wrap_id 64 (q - 1)) by (unfold is_u; lia).
    assert (T * 2 ^ 64 + u2 < q * (v1 * 2 ^ 64 + v2)) as B' by (subst T; lia).
    assert ((q - 1) * v2 <= 2 ^ 64 * 2 ^ 64) as Bq by nia.
    destruct (overflowing_add64 r v1) as [r' o] eqn:A. apply add64_spec in A as [Hr' A]; [|unfold is_u; lia..].
    destruct o; cbn [Z.b2z] in A.
    + exists (q - 1). split; [done|]. split; [unfold is_u; lia|]. subst T. unfold is_u in Hr'. split; lia.
    + apply IH; [unfold is_u; lia|done|lia..].
Qed.
End Estimate.

Lemma small_multiple P x y : 0 < P -> P * x = y -> - P < y < P -> x = 0.
Proof. nia. Qed.

(** Knuth's estimate: with [W = X * P + w0] over its three leading words and
    [v = Y * P + v0] over its two, the guess is the quotient or one more. *)
Lemma knuth_estimate P X Y w0 v0 q :
  0 < P -> 0 <= w0 < P -> 0 <= v0 < P -> 0 <= q < 2 ^ 64 -> 2 ^ 64 <= Y ->
  q * Y <= X < (q + 1) * Y ->
  (q - 1) * (Y * P + v0) <= X * P + w0 < (q + 1) * (Y * P + v0).
Proof.
  intros HP Hw Hv Hq HY [H1 H2]. split.
  - destruct (Z.eq_dec q 0) as [->|]; [nia|].
    assert ((q - 1) * (Y * P + v0) <= ((q - 1) * (Y + 1)) * P) as A by nia.
    assert ((q - 1) * (Y + 1) <= X) as B by nia. nia.
  - assert ((X + 1) * P <= (q + 1) * Y * P) as A by (apply Z.mul_le_mono_nonneg_r; lia). nia.
Qed.
(** The guess [b - 1] when the leading words agree. *)
Lemma knuth_estimate_top P X v1 v2 w0 v0 :
  0 < P -> 0 <= w0 < P -> 0 <= v0 < P -> 2 ^ 63 <= v1 < 2 ^ 64 -> 0 <= v2 < 2 ^ 64 ->
  v1 * 2 ^ 128 <= X ->
  (2 ^ 64 - 2) * ((v1 * 2 ^ 64 + v2) * P + v0) <= X * P + w0.
Proof.
  intros HP Hw Hv Hv1 Hv2 HX.
  assert ((2 ^ 64 - 2) * ((v1 * 2 ^ 64 + v2) * P + v0) <= (2 ^ 64 - 2) * (v1 * 2 ^ 64 + 2 ^ 64) * P) as A by nia.
  assert ((2 ^ 64 - 2) * (v1 * 2 ^ 64 + 2 ^ 64) <= X) as B by lia. nia.
Qed.

(** ** A round of Algorithm D *)

Lemma word_drop l j k : (drop j l).[k] = l.[j + k].
Proof.
  revert l. induction j as [|j IH]; intros l; [by rewrite drop_0|].
  destruct l as [|d l]; [by rewrite !word_out by (simpl; lia)|]. exact (IH l).
Qed.
Lemma val_drop_zero l n : Forall (is_u 64) l -> (n <= length l)%nat -> val l < pw n -> val (drop n l) = 0.
Proof. intros H L B. rewrite val_drop by done. apply Z.div_small. pose proof (val_bound l H). lia. Qed.
Lemma val_take_bound l n : Forall (is_u 64) l -> (n <= length l)%nat -> 0 <= val (take n l) < pw n.
Proof. intros H L. pose proof (val_bound (take n l) (words_take l n H)) as B. rewrite length_take, Nat.min_l in B by lia. done. Qed.

(** The two and the three leading words of a value of that many words. *)
Lemma leading_two v n :
  Forall (is_u 64) v -> (S (S n) <= length v)%nat -> val v < pw (S (S n)) ->
  val v = (v.[S n] * 2 ^ 64 + v.[n]) * pw n + val (take n v).
Proof.
  intros H L B. rewrite (val_split v n) by lia. rewrite !val_drop_lookup by lia.
  rewrite (val_drop_zero v (S (S n))) by (auto; lia). lia.
Qed.
Lemma leading_three v n :
  Forall (is_u 64) v -> (S (S (S n)) <= length v)%nat -> val v < pw (S (S (S n))) ->
  val v = ((v.[S (S n)] * 2 ^ 64 + v.[S n]) * 2 ^ 64 + v.[n]) * pw n + val (take n v).
Proof.
  intros H L B. rewrite (val_split v n) by lia. rewrite !val_drop_lookup by lia.
  rewrite (val_drop_zero v (S (S (S n)))) by (auto; lia). lia.
Qed.

Section Round.
Context (nw n : nat) (v : uint) (Hv : is_uint nw v) (Hn : (S (S n) <= nw)%nat)
  (Hvl : 2 ^ 63 * pw (S n) <= val v < pw (S (S n))).

Lemma leading_word : 2 ^ 63 <= v.[S n] < 2 ^ 64.
Proof.
  destruct Hv as [L H]. pose proof (word_lookup v (S n) H) as W. unfold is_u in W.
  pose proof (pw_pos (S n)). split; [|lia].
  assert (val v / pw (S n) < 2 ^ 64) by (rewrite (pw_S (S n)) in Hvl; apply Z.div_lt_upper_bound; lia).
  assert (2 ^ 63 <= val v / pw (S n)) by (apply Z.div_le_lower_bound; lia).
  rewrite val_lookup, Z.mod_small by (auto; lia). done.
Qed.

(** The guess of step D3 for the words [d] of the dividend from [j] on. *)
Definition round_guess {E} (d : list Z) : result E Z :=
  if d.[S (S n)] <? v.[S n] then
    let '(q_hat, r_hat) := div_mod_word d.[S (S n)] d.[S n] v.[S n] in
    q_hat_loop 3 v.[S n] v.[n] d.[n] q_hat r_hat
  else Ok (2 ^ 64 - 1).

Lemma round_guess_ok {E} d :
  Forall (is_u 64) d -> (S (S (S n)) <= length d)%nat -> val d < 2 ^ 64 * val v ->
  exists q, round_guess (E:=E) d = Ok q /\ is_u 64 q /\ (q - 1) * val v <= val d < (q + 1) * val v.
Proof.
  intros Hd Ld B. destruct Hv as [L H]. pose proof leading_word as V1.
  pose proof (pw_pos n) as HP.
  pose proof (leading_two v n H ltac:(lia) (proj2 Hvl)) as Ev.
  pose proof (leading_three d n Hd Ld ltac:(rewrite (pw_S (S (S n))); lia)) as Ed.
  pose proof (val_take_bound v n H ltac:(lia)) as Bv. pose proof (val_take_bound d n Hd ltac:(lia)) as Bd.
  pose proof (word_lookup v n H) as V2. pose proof (word_lookup d n Hd) as U2.
  pose proof (word_lookup d (S n) Hd) as U1. pose proof (word_lookup d (S (S n)) Hd) as U0. unfold round_guess.
  destruct (Z.ltb_spec d.[S (S n)] v.[S n]) as [C|C].
  - destruct (div_mod_word_spec d.[S (S n)] d.[S n] v.[S n] U1) as (q0 & r0 & -> & Hq0 & Hr0 & D);
      [unfold is_u in U0; lia|unfold is_u; lia|].
    destruct (q_hat_loop_spec (E:=E) v.[S n] v.[n] d.[n] (d.[S (S n)] * 2 ^ 64 + d.[S n]) V1 V2 U2 3 q0 r0)
      as (q & -> & Hq & Q); [done|unfold is_u; lia|lia|unfold is_u in *; nia|lia|].
    exists q. split; [done|]. split; [done|]. rewrite Ev, Ed. unfold is_u in *.
    apply knuth_estimate; try done; lia.
  - exists (2 ^ 64 - 1). split; [done|]. split; [unfold is_u; lia|]. split; [|lia].
    rewrite Ev, Ed. unfold is_u in *. replace (2 ^ 64 - 1 - 1) with (2 ^ 64 - 2) by lia.
    apply knuth_estimate_top; try done; lia.
Qed.

(** Steps D4 to D6 on the words [d] of the dividend from [j] on. *)
Definition round_sub (d : list Z) (q : Z) : list Z * Z :=
  let '(t, c) := sub_slice d (take (S (S (S n))) (full_mul_u64 v q)) in
  if c : bool then
    let '(t, c) := add_slice t (take (S (S n)) v) in
    (<[S (S n) := wrap 64 (t.[S (S n)] + Z.b2z c)]> t, wrap 64 (q - 1))
  else (t, q).

Lemma full_mul_u64_spec q :
  is_u 64 q -> is_uint (S nw) (full_mul_u64 v q) /\ val (full_mul_u64 v q) = val v * q.
Proof.
  intros Hq. destruct Hv as [L H]. unfold full_mul_u64, overflowing_mul_u64.
  destruct (mul_u64_words_spec v q 0 H Hq word_0) as (r & c & -> & Hr & Lr & Hc & V).
  split; [split; [rewrite length_app; simpl; lia|apply Forall_app; auto]|].
  rewrite val_app, val_cons, Lr. change (val []) with 0. lia.
Qed.

Lemma round_sub_ok d q :
  Forall (is_u 64) d -> (S (S (S n)) <= length d)%nat -> val d < 2 ^ 64 * val v -> is_u 64 q ->
  (q - 1) * val v <= val d < (q + 1) * val v ->
  exists t q', round_sub d q = (t, q') /\ Forall (is_u 64) t /\ length t = length d /\ is_u 64 q' /\
    val t + q' * val v = val d /\ 0 <= val t < val v.
Proof.
  intros Hd Ld B Hq Q. destruct (full_mul_u64_spec q Hq) as [[Lm Hm] Vm]. destruct Hv as [L H].
  pose proof (val_bound d Hd) as Bd. pose proof (val_bound v H) as Bv0. unfold round_sub, sub_slice.
  assert (pw (S (S (S n))) = 2 ^ 64 * pw (S (S n))) as EP by apply pw_S.
  set (m := take (S (S (S n))) (full_mul_u64 v q)).
  assert (length m = S (S (S n))) as Lt by (unfold m; rewrite length_take; lia).
  assert (val m = val v * q) as Et.
  { unfold m. rewrite val_take, Vm, Z.mod_small by (auto; unfold is_u in *; nia || lia). done. }
  destruct (binop_slice_spec (-1) _ false d m word_op_sub ltac:(by right) Hd) as (t & c & S1 & Ht & L1 & D1 & V1);
    [unfold m; auto with words|lia|].
  unfold binop_slice. rewrite S1. rewrite Lt in *. rewrite Et in V1. cbn [Z.b2z] in V1.
  assert (val (drop (S (S (S n))) t) = 0) as Z1 by (rewrite D1; apply val_drop_zero; auto; lia).
  pose proof (val_split t (S (S (S n))) ltac:(lia)) as St. rewrite Z1 in St.
  pose proof (val_take_bound t (S (S (S n))) Ht ltac:(lia)) as Bt.
  destruct c; cbn [Z.b2z] in V1.
  2:{ exists t, q. split; [done|]. unfold is_u in *. repeat split; auto; lia. }
  unfold add_slice, binop_slice. set (w := take (S (S n)) v).
  assert (length w = S (S n)) as Lw by (unfold w; rewrite length_take; lia).
  assert (val w = val v) as Ew by (unfold w; rewrite val_take, Z.mod_small by (auto; lia); done).
  destruct (binop_slice_spec 1 _ false t w word_op_add ltac:(by left) Ht) as (t2 & c2 & S2 & H2 & L2 & D2 & V2);
    [unfold w; auto with words|lia|].
  rewrite S2. rewrite Lw in *. rewrite Ew in V2. cbn [Z.b2z] in V2.
  pose proof (val_split t2 (S (S n)) ltac:(lia)) as St2. rewrite D2, val_drop_lookup, Z1 in St2 by lia.
  pose proof (val_take_bound t2 (S (S n)) H2 ltac:(lia)) as Bt2.
  assert (t2.[S (S n)] = t.[S (S n)]) as Ew2.
  { rewrite <- (Nat.add_0_r (S (S n))), <- !word_drop, D2. done. }
  pose proof (word_lookup t (S (S n)) Ht) as Wt. unfold is_u in Wt, Hq.
  assert (t.[S (S n)] + Z.b2z c2 = 2 ^ 64 /\ val (take (S (S n)) t2) = val d - (q - 1) * val v) as [Ec Er].
  { assert (t.[S (S n)] + Z.b2z c2 - 2 ^ 64 = 0); [|lia].
    apply (small_multiple (pw (S (S n))) _ (val d - (q - 1) * val v - val (take (S (S n)) t2))); auto; lia. }
  rewrite Ew2, Ec. change (wrap 64 (2 ^ 64)) with 0.
  assert (1 <= q) as Hq1 by nia. rewrite (wrap_id 64 (q - 1)) by (unfold is_u; lia).
  eexists _, _. split; [reflexivity|]. split; [auto with words|]. split; [rewrite length_insert; lia|].
  split; [unfold is_u; lia|]. rewrite val_insert by lia. rewrite Ew2. lia.
Qed.

(** [knuth_step] in terms of the words from [j] on. *)
Lemma knuth_step_eq {E} j u q :
  (j <= length u)%nat ->
  knuth_step (E:=E) v (S (S n)) j u q =
    q_hat ← round_guess (drop j u) ;
    Ok (take j u ++ (round_sub (drop j u) q_hat).1, <[j := (round_sub (drop j u) q_hat).2]> q).
Proof.
  intros L. unfold knuth_step, round_guess, round_sub. rewrite !word_drop.
  replace (S (S n) - 1)%nat with (S n) by lia. replace (S (S n) - 2)%nat with n by lia.
  replace (j + S (S n) - 1)%nat with (j + S n)%nat by lia. replace (j + S (S n) - 2)%nat with (j + n)%nat by lia.
  replace (S (S n) + 1)%nat with (S (S (S n))) by lia.
  match goal with |- mbind _ ?m = mbind _ ?m => destruct m as [q_hat|e|]; [|done..] end.
  cbn [mbind result_bind]. destruct (sub_slice _ _) as [t c]. destruct c; [|done].
  rewrite !drop_app_length', !take_app_length' by (rewrite length_take; lia).
  destruct (add_slice _ _) as [t2 c2]. cbn [fst snd]. do 3 f_equal.
  rewrite insert_app_r_alt by (rewrite length_take; lia). rewrite length_take, Nat.min_l by lia.
  f_equal. replace (j + S (S n) - j)%nat with (S (S n)) by lia. do 3 f_equal.
  rewrite <- word_drop, drop_app_length' by (rewrite length_take; lia). done.
Qed.

(** A round leaves the remainder by the divisor in the words from [j] on and
    writes the quotient word. *)
Lemma knuth_step_ok {E} j u q :
  is_uint (S nw) u -> (j + S (S n) <= nw)%nat -> val (drop (S j) u) < val v ->
  exists u' d, knuth_step (E:=E) v (S (S n)) j u q = Ok (u', <[j := d]> q) /\ is_uint (S nw) u' /\ is_u 64 d /\
    val u' + pw j * (d * val v) = val u /\ val (drop j u') < val v.
Proof.
  intros [Lu Hu] Lj B. assert (val (drop j u) < 2 ^ 64 * val v) as Bd.
  { rewrite val_drop_lookup by lia. pose proof (word_lookup u j Hu) as W. unfold is_u in W. lia. }
  assert (Forall (is_u 64) (drop j u)) as Hd by auto with words.
  assert (S (S (S n)) <= length (drop j u))%nat as Ld by (rewrite length_drop; lia).
  destruct (round_guess_ok (E:=E) _ Hd Ld Bd) as (q_hat & G & Hq & Q).
  destruct (round_sub_ok _ _ Hd Ld Bd Hq Q) as (t & d & R & Ht & Lt & Hdd & V & Bt).
  rewrite knuth_step_eq by lia. rewrite G. cbn [mbind result_bind]. rewrite R. cbn [fst snd].
  rewrite length_drop in Lt. exists (take j u ++ t), d. split; [done|].
  split; [split; [rewrite length_app, length_take; lia|apply Forall_app; auto with words]|]. split; [done|].
  rewrite drop_app_length' by (rewrite length_take; lia). split; [|lia].
  rewrite val_app, length_take, Nat.min_l by lia. rewrite (val_split u j) by lia. rewrite <- V. lia.
Qed.

Lemma knuth_loop_ok {E} k u q :
  is_uint (S nw) u -> is_uint nw q -> (k + S n <= nw)%nat -> val (drop k u) < val v ->
  (forall i, (i < k)%nat -> q.[i] = 0) ->
  exists u' q', knuth_loop (E:=E) v (S (S n)) k u q = Ok (u', q') /\ is_uint (S nw) u' /\ is_uint nw q' /\
    val u' + val q' * val v = val u + val q * val v /\ val u' < val v.
Proof.
  revert u q. induction k as [|j IH]; intros u q Hu Hq Lk B Z0.
  { exists u, q. repeat split; try apply Hu; try apply Hq; done. }
  cbn [knuth_loop]. destruct (knuth_step_ok (E:=E) j u q Hu) as (u1 & d & -> & Hu1 & Hd & V & B1); [lia|done|].
  cbn [mbind result_bind]. destruct Hq as [Lq Hq].
  destruct (IH u1 (<[j := d]> q)) as (u' & q' & -> & Hu' & Hq' & V' & B'); [done| |lia|done| |].
  - split; [exact (eq_trans (length_insert q j d) Lq)|auto with words].
  - intros i Hi. etrans; [apply word_insert_ne; lia|apply Z0; lia].
  - exists u', q'. split; [done|]. split; [done|]. split; [done|]. split; [|done].
    rewrite V', val_insert, (Z0 j) by lia. lia.
Qed.
End Round.

(** ** Division *)

(** The words of a value. *)
Fixpoint of_val (nw : nat) (x : Z) : uint :=
  match nw with O => [] | S nw => x mod 2 ^ 64 :: of_val nw (x / 2 ^ 64) end.
Lemma of_val_words nw x : is_uint nw (of_val nw x).
Proof.
  revert x. induction nw as [|nw IH]; intros x; [done|]. destruct (IH (x / 2 ^ 64)) as [L H].
  split; [simpl; by f_equal|]. constructor; [apply word_wrap|exact H].
Qed.
Lemma val_of_val nw x : val (of_val nw x) = x mod pw nw.
Proof.
  revert x. induction nw as [|nw IH]; intros x; [symmetry; apply Z.mod_1_r|].
  cbn [of_val]. rewrite val_cons, IH, pw_S. rewrite Z.rem_mul_r by (pose proof (pw_pos nw); lia). lia.
Qed.
Lemma of_val_eq nw l x : is_uint nw l -> val l = x -> l = of_val nw x.
Proof.
  intros Hl V. destruct (of_val_words nw x) as [L H]. pose proof (is_uint_bound _ _ Hl) as B.
  destruct Hl as [Ll Hl]. apply val_inj; auto; [by rewrite L|].
  rewrite val_of_val, Z.mod_small; [done|by subst x].
Qed.

Lemma bit_length_range x :
  0 < x -> exists k, words (bit_length x) = Z.of_nat (S k) /\ pw k <= x < pw (S k).
Proof.
  intros H. pose proof (Z.log2_nonneg x). pose proof (Z.log2_spec x H) as [B1 B2].
  exists (Z.to_nat (Z.log2 x / 64)).
  assert (pw (Z.to_nat (Z.log2 x / 64)) <= x < pw (S (Z.to_nat (Z.log2 x / 64)))) as B.
  { unfold pw. split.
    - etrans; [|exact B1]. apply Z.pow_le_mono_r; [lia|]. dlia.
    - eapply Z.lt_le_trans; [exact B2|]. apply Z.pow_le_mono_r; [lia|]. dlia. }
  split; [|exact B]. rewrite (bit_length_words _ _ H B). lia.
Qed.

(** Normalising the divisor: the shift fills the leading word of [b]. *)
Lemma normalise nw b k :
  is_uint nw b -> (S k <= nw)%nat -> pw k <= val b < pw (S k) ->
  let s := leading_zeros64 b.[k] in
  0 <= s < 64 /\ 2 ^ 63 * pw k <= val b * 2 ^ s < pw (S k).
Proof.
  intros [L H] Lk B s. pose proof (pw_pos k) as HP. rewrite pw_S in B.
  pose proof (Z.div_mod (val b) (pw k) ltac:(lia)) as D. pose proof (Z.mod_pos_bound (val b) (pw k) ltac:(lia)) as M.
  assert (b.[k] = val b / pw k /\ 1 <= b.[k] < 2 ^ 64) as [Ew Hw].
  { rewrite val_lookup by done. rewrite Z.mod_small; [split; [done|]|]; split; try (apply Z.div_le_lower_bound; lia);
      try (apply Z.div_lt_upper_bound; lia). }
  rewrite <- Ew in D. set (w := b.[k]) in *. unfold s, leading_zeros64. rewrite (proj2 (Z.eqb_neq w 0)) by lia.
  pose proof (Z.log2_spec w ltac:(lia)) as [B1 B2]. pose proof (Z.log2_nonneg w).
  assert (Z.log2 w < 64) by (apply Z.log2_lt_pow2; lia). split; [lia|].
  assert (2 ^ Z.log2 w * 2 ^ (63 - Z.log2 w) = 2 ^ 63) as E1 by (rewrite <- Z.pow_add_r by lia; f_equal; lia).
  rewrite Z.pow_succ_r in B2 by lia. rewrite pw_S.
  set (p := 2 ^ Z.log2 w) in *. set (r := 2 ^ (63 - Z.log2 w)) in *. assert (0 < r) by (unfold r; lia).
  assert (val b < 2 * p * pw k) by nia. assert (p * pw k <= val b) by nia.
  split; [replace (2 ^ 63 * pw k) with (p * pw k * r) by (rewrite <- E1; ring); nia|].
  replace (2 ^ 64 * pw k) with (2 * p * pw k * r) by (change (2 ^ 64) with (2 * 2 ^ 63); rewrite <- E1; ring). nia.
Qed.

Lemma div_mod_knuth_ok {E} nw a b n m :
  is_uint nw a -> is_uint nw b -> (m + S (S n) <= nw)%nat ->
  pw (S n) <= val b < pw (S (S n)) -> val a < pw (m + S (S n)) ->
  exists q r, div_mod_knuth (E:=E) a b (S (S n)) m = Ok (q, r) /\ is_uint nw q /\ is_uint nw r /\
    val q = val a / val b /\ val r = val a mod val b.
Proof.
  intros Ha Hb Lm Bb Ba. unfold div_mod_knuth. replace (S (S n) - 1)%nat with (S n) by lia.
  destruct (normalise nw b (S n) Hb ltac:(lia) Bb) as [Hs Bs]. set (s := leading_zeros64 b.[S n]) in *.
  destruct nw as [|nw]; [lia|].
  destruct (uint_shl_spec _ b s Hb ltac:(lia)) as [Hv Vv]. destruct (full_shl_spec nw a s Ha Hs) as [Hu Vu].
  pose proof (pw_mono (S (S n)) (S nw) ltac:(lia)) as Pm. pose proof (pw_pos (S n)) as HP.
  rewrite Z.mod_small in Vv by lia. set (v := uint_shl b s) in *. set (u := full_shl a s) in *.
  pose proof (is_uint_bound _ _ Ha) as Ba0. assert (0 < 2 ^ s) as P2 by lia.
  destruct (uint_zero_spec (S nw)) as [Hz Vz].
  replace (length a) with (S nw) by (symmetry; apply Ha).
  destruct (knuth_loop_ok (E:=E) (S nw) n v Hv ltac:(lia) ltac:(lia) (S m) u (uint_zero (S nw)) Hu Hz)
    as (u' & q & -> & Hu' & Hq & V & B'); [lia| | |].
  - destruct Hu as [Lu Hu]. rewrite val_drop, Vu, Vv by (auto; lia).
    rewrite Nat.add_succ_r, <- Nat.add_succ_l, pw_add in Ba. pose proof (pw_pos (S m)).
    assert (2 ^ s <= 2 ^ 63) by (apply Z.pow_le_mono_r; lia).
    eapply Z.lt_le_trans; [apply Z.div_lt_upper_bound with (q := pw (S n) * 2 ^ s); [lia|nia]|nia].
  - intros i _. apply word_replicate_0.
  - cbn [mbind result_bind]. pose proof (is_uint_bound _ _ Hu') as Bu'. rewrite Vz, Vu, Vv in V. rewrite Vv in B'.
    assert (val u' = (val a - val q * val b) * 2 ^ s) as Eu by lia.
    assert (0 <= val a - val q * val b < val b) as Br by nia.
    destruct (full_shr_spec (S nw) u' s Hu' Hs) as [Hr Vr].
    rewrite Eu, Z.div_mul, Z.mod_small in Vr by lia.
    exists q, (full_shr u' s). split; [done|]. split; [done|]. split; [done|].
    assert (val q = val a / val b) as Eq by (apply Z.div_unique with (r := val a - val q * val b); lia).
    split; [done|]. rewrite Vr. apply Z.mod_unique with (q := val q); lia.
Qed.

Lemma div_mod_ok {E} nw a b :
  is_uint (S nw) a -> is_uint (S nw) b -> val b <> 0 ->
  exists q r, div_mod (E:=E) a b = Ok (q, r) /\ is_uint (S nw) q /\ is_uint (S nw) r /\
    val q = val a / val b /\ val r = val a mod val b.
Proof.
  intros Ha Hb Nz. pose proof (is_uint_bound _ _ Ha) as Ba. pose proof (is_uint_bound _ _ Hb) as Bb.
  unfold div_mod. rewrite !(bits_spec nw) by done.
  assert (bit_length (val b) = Z.log2 (val b) + 1) as Eb by (unfold bit_length; by rewrite (proj2 (Z.eqb_neq _ _) Nz)).
  pose proof (Z.log2_nonneg (val b)). rewrite (proj2 (Z.eqb_neq (bit_length (val b)) 0)) by lia.
  destruct (Z.ltb_spec (bit_length (val a)) (bit_length (val b))) as [C|C].
  { apply bit_length_lt in C; [|lia..]. destruct (uint_zero_spec (S nw)) as [Hz Vz].
    replace (length a) with (S nw) by (symmetry; apply Ha). exists (uint_zero (S nw)), a.
    repeat split; try apply Hz; try apply Ha; [rewrite Vz, Z.div_small by lia|rewrite Z.mod_small by lia]; done. }
  destruct (Z.leb_spec (bit_length (val b)) 64) as [C1|C1].
  { assert (val b < 2 ^ 64) as Bw by (apply Z.log2_lt_pow2; lia).
    assert (low_u64 b = val b) as El by (rewrite low_u64_spec, Z.mod_small; [done|lia|apply Hb]). rewrite El.
    destruct (div_mod_small_spec nw a (val b) Ha) as (q & r & -> & S); [unfold is_u; lia|lia|]. by exists q, r. }
  assert (0 < val a) as Pa by (destruct (Z.eq_dec (val a) 0) as [Ea|]; [rewrite Ea in C; change (bit_length 0) with 0 in C|]; lia).
  destruct (bit_length_range (val a) Pa) as (ka & -> & Ra). destruct (bit_length_range (val b) ltac:(lia)) as (kb & Wb & Rb).
  rewrite Wb. destruct kb as [|n]. { exfalso. change (pw 1) with (2 ^ 64) in Rb. assert (Z.log2 (val b) < 64) by (apply Z.log2_lt_pow2; lia). lia. }
  assert (ka < S nw)%nat as Lka by (destruct (decide (ka < S nw)%nat); [done|]; pose proof (pw_mono (S nw) ka); lia).
  assert (S n <= ka)%nat as Lkb.
  { destruct (decide (S n <= ka)%nat); [done|]. pose proof (pw_mono (S ka) (S n) ltac:(lia)).
    assert (val a < val b) as Lt by lia. apply Z.lt_le_incl, Z.log2_le_mono in Lt.
    unfold words in Wb. exfalso. assert (pw (S n) <= val b) as Q by lia.
    unfold bit_length in C. rewrite !(proj2 (Z.eqb_neq _ 0)) in C by lia.
    unfold pw in Q, Ra. apply Z.log2_le_pow2 in Q; [|lia]. destruct Ra as [_ Ra]. apply Z.log2_lt_pow2 in Ra; [|lia]. lia. }
  replace (Z.to_nat (Z.of_nat (S (S n)))) with (S (S n)) by lia.
  replace (Z.to_nat (Z.of_nat (S ka) - Z.of_nat (S (S n)))) with (ka - S n)%nat by lia.
  apply div_mod_knuth_ok; auto; [lia|]. replace (ka - S n + S (S n))%nat with (S ka) by lia. lia.
Qed.
