(* ===== verification/UintTheorems.v ===== *)
(** * What the [uint] crate promises to its users

    The operators of [U256] (src/common/uint/src/uint.rs) are the operations on
    values that Compact.v and Consensus.v compute with; division is exact;
    exponentiation is exact below half of the exponent range and loses the top
    bit of an odd exponent above it; printed decimals read back. *)
From S2P Require Import Prelude Compact Uint UintProofs UintDiv.
From stdpp Require Import list.
#[local] Open Scope Z_scope.

(** ** The operators *)

(** The result of an operator, from its value. *)
Definition fits {E} (nw : nat) (x : Z) : result E uint := if x <? pw nw then Ok (of_val nw x) else Panic.

Lemma panic_on_overflow_spec {E} nw r (o : bool) x :
  is_uint nw r -> val r = x mod pw nw -> 0 <= x -> o = (pw nw <=? x) ->
  panic_on_overflow (E:=E) (r, o) = fits nw x.
Proof.
  intros Hr V Hx ->. unfold panic_on_overflow, fits. cbn [fst snd].
  destruct (Z.leb_spec (pw nw) x), (Z.ltb_spec x (pw nw)); try lia; [done|].
  f_equal. apply of_val_eq; [done|]. rewrite V. apply Z.mod_small. lia.
Qed.
Lemma uint_add_spec {E} nw a b :
  is_uint nw a -> is_uint nw b -> uint_add (E:=E) a b = fits nw (val a + val b).
Proof.
  intros Ha Hb. destruct (overflowing_add_spec nw a b Ha Hb) as (r & Eq & Hr & V). unfold uint_add. rewrite Eq.
  pose proof (is_uint_bound _ _ Ha). pose proof (is_uint_bound _ _ Hb). by apply panic_on_overflow_spec; [| |lia|].
Qed.
Lemma uint_mul_spec {E} nw a b :
  is_uint nw a -> is_uint nw b -> uint_mul (E:=E) a b = fits nw (val a * val b).
Proof.
  intros Ha Hb. destruct (overflowing_mul_spec nw a b Ha Hb) as (r & Eq & Hr & V). unfold uint_mul. rewrite Eq.
  pose proof (is_uint_bound _ _ Ha). pose proof (is_uint_bound _ _ Hb). by apply panic_on_overflow_spec; [| |nia|].
Qed.
Lemma fits_inv {E} nw x r : fits (E:=E) nw x = Ok r -> 0 <= x -> is_uint nw r /\ val r = x.
Proof.
  unfold fits. destruct (Z.ltb_spec x (pw nw)); [|discriminate]. intros [= <-] Hx.
  split; [apply of_val_words|]. rewrite val_of_val. apply Z.mod_small. lia.
Qed.

Lemma div_mod_eq {E} nw a b :
  is_uint (S nw) a -> is_uint (S nw) b ->
  div_mod (E:=E) a b =
    if val b =? 0 then Panic else Ok (of_val (S nw) (val a / val b), of_val (S nw) (val a mod val b)).
Proof.
  intros Ha Hb. destruct (Z.eqb_spec (val b) 0) as [Z0|Nz].
  - unfold div_mod. rewrite (bits_spec nw b) by done. by rewrite Z0.
  - destruct (div_mod_ok (E:=E) nw a b Ha Hb Nz) as (q & r & -> & Hq & Hr & Vq & Vr).
    by rewrite (of_val_eq _ q _ Hq Vq), (of_val_eq _ r _ Hr Vr).
Qed.

(** C23 Division is exact: [div_mod] of two integers of the same width panics on
    the divisor zero and otherwise returns the words of the quotient and of the
    remainder of the values, whichever of its three paths it takes (a smaller
    dividend, a one-word divisor, Algorithm D). *)
Theorem div_mod_correct {E} nw a b :
  is_uint (S nw) a -> is_uint (S nw) b ->
  div_mod (E:=E) a b =
    if val b =? 0 then Panic else Ok (of_val (S nw) (val a / val b), of_val (S nw) (val a mod val b)).
Proof. apply div_mod_eq. Qed.

(** ** The operations on values *)

Lemma fits_word_spec nw a : is_uint (S nw) a -> fits_word a = (val a <? 2 ^ 64) /\ low_u64 a = val a mod 2 ^ 64.
Proof.
  intros [L H]. split; [|by apply low_u64_spec]. destruct a as [|d a]; [done|]. inversion_clear H as [|? ? Hd Ha].
  unfold fits_word. cbn [drop]. rewrite drop_0, val_cons. pose proof (val_bound a Ha). unfold is_u in Hd.
  change (forallb (fun d => d =? 0) a) with (is_zero a). rewrite is_zero_spec by done.
  destruct (Z.eqb_spec (val a) 0), (Z.ltb_spec (d + 2 ^ 64 * val a) (2 ^ 64)); (done || (exfalso; nia)).
Qed.

Lemma as_usize_spec {E} nw a :
  is_uint (S nw) a -> as_usize (E:=E) a = if val a <? 2 ^ 64 then Ok (val a) else Panic.
Proof.
  intros Ha. destruct (fits_word_spec nw a Ha) as [F L]. pose proof (is_uint_bound _ _ Ha) as B.
  unfold as_usize. rewrite F, L.
  destruct (Z.ltb_spec (val a) (2 ^ 64)); cbn [negb orb]; [|done].
  rewrite Z.mod_small, (wrap_id 64) by (unfold is_u; lia). by rewrite (proj2 (Z.ltb_ge (2 ^ 64 - 1) (val a))) by lia.
Qed.

Lemma is_uint_256 a : is_uint 4 a -> is_u 256 (val a).
Proof. intros H. exact (is_uint_bound 4 a H). Qed.

(** C24 The operators of [U256] implement the operations on values: addition and
    multiplication panic exactly when the result needs more than 256 bits,
    subtraction when it would be negative, division when the divisor is zero, and
    shifts when the amount is [2^64] or more; shifts by smaller amounts,
    complement, bit count and order are those of the values, the words of a
    result are those of its value, and the bytes are the big-endian digits of the
    value. *)
Theorem u256_refines {E} a b :
  is_uint 4 a -> is_uint 4 b ->
  uint_add (E:=E) a b = (x ← U256_add (val a) (val b) ; Ok (of_val 4 x)) /\
  uint_sub (E:=E) a b = (if val b <=? val a then Ok (of_val 4 (val a - val b)) else Panic) /\
  overflowing_sub a b = (of_val 4 (wrap 256 (val a - val b)), val a <? val b) /\
  uint_mul (E:=E) a b = (x ← U256_mul (val a) (val b) ; Ok (of_val 4 x)) /\
  uint_div (E:=E) a b = (x ← U256_div (val a) (val b) ; Ok (of_val 4 x)) /\
  shl_op (E:=E) a b = (if val b <? 2 ^ 64 then Ok (of_val 4 (U256_shl (val a) (val b))) else Panic) /\
  shr_op (E:=E) a b = (if val b <? 2 ^ 64 then Ok (of_val 4 (U256_shr (val a) (val b))) else Panic) /\
  uint_not a = of_val 4 (U256_not (val a)) /\
  bits a = U256_bits (val a) /\
  uint_cmp a b = Z.compare (val a) (val b) /\
  to_big_endian a = to_be 32 (val a) /\
  from_big_endian (E:=E) 4 (to_be 32 (val a)) = Ok a.
Proof.
  intros Ha Hb. pose proof (is_uint_bound _ _ Ha) as Ba. pose proof (is_uint_bound _ _ Hb) as Bb.
  split; [rewrite (uint_add_spec 4) by done; unfold fits, U256_add; change (pw 4) with (2 ^ 256); by destruct (_ <? _)|].
  destruct (overflowing_sub_spec 4 a b Ha Hb) as (d & Ed & Hd & Vd).
  assert (d = of_val 4 (wrap 256 (val a - val b))) as -> by (apply of_val_eq; [done|exact Vd]).
  split; [unfold uint_sub, panic_on_overflow; rewrite Ed; cbn [fst snd];
    destruct (Z.ltb_spec (val a) (val b)), (Z.leb_spec (val b) (val a)); try lia; [done|];
    by rewrite (wrap_id 256) by (unfold is_u; change (pw 4) with (2 ^ 256) in *; lia)|].
  split; [exact Ed|]. clear Ed Hd Vd.
  split; [rewrite (uint_mul_spec 4) by done; unfold fits, U256_mul; change (pw 4) with (2 ^ 256); by destruct (_ <? _)|].
  split; [unfold uint_div, U256_div; rewrite (div_mod_eq 3) by done; by destruct (_ =? 0)|].
  assert (0 <= val b) as Hn by lia.
  destruct (uint_shl_spec 4 a (val b) Ha Hn) as [Hl Vl]. destruct (uint_shr_spec 4 a (val b) Ha Hn) as [Hr Vr].
  destruct (uint_not_spec 4 a Ha) as [Hc Vc].
  split; [unfold shl_op; rewrite (as_usize_spec 3) by done; destruct (_ <? _); [|done]; cbn [mbind result_bind]; f_equal;
    apply of_val_eq; [done|]; unfold U256_shl, wrap; by rewrite Z.shiftl_mul_pow2 by lia|].
  split; [unfold shr_op; rewrite (as_usize_spec 3) by done; destruct (_ <? _); [|done]; cbn [mbind result_bind]; f_equal;
    apply of_val_eq; [done|]; unfold U256_shr; by rewrite Z.shiftr_div_pow2 by lia|].
  split; [apply of_val_eq; [done|]; exact Vc|].
  split; [by rewrite (bits_spec 3)|]. split; [by apply (uint_cmp_spec 4)|].
  split; [exact (to_big_endian_spec 4 a Ha)|].
  destruct (from_big_endian_spec (E:=E) 4 (to_be 32 (val a)) 32) as (r & -> & Hr' & Vr'); [apply is_bytes_to_be|lia|].
  rewrite from_to_be_id in Vr' by exact (is_uint_256 a Ha).
  rewrite (of_val_eq 4 r _ Hr' Vr'). f_equal. symmetry. by apply of_val_eq.
Qed.

Definition demo_dividend : uint := [0; 0; 2 ^ 64 - 1; 2 ^ 63].
Definition demo_divisor : uint := [1; 2 ^ 63; 0; 0].
Lemma demo_dividend_words : is_uint 4 demo_dividend.
Proof. split; [done|]. repeat constructor; unfold is_u; lia. Qed.
Lemma demo_divisor_words : is_uint 4 demo_divisor.
Proof. split; [done|]. repeat constructor; unfold is_u; lia. Qed.

Lemma div_mod_correct_witness :
  div_mod (E:=unit) demo_dividend demo_divisor =
    Ok (of_val 4 (val demo_dividend / val demo_divisor), of_val 4 (val demo_dividend mod val demo_divisor)).
Proof. exact (div_mod_correct (E:=unit) 3 _ _ demo_dividend_words demo_divisor_words). Defined.
Lemma u256_refines_witness :
  uint_div (E:=unit) demo_dividend demo_divisor
    = (x ← U256_div (val demo_dividend) (val demo_divisor) ; Ok (of_val 4 x)) /\
  uint_mul (E:=unit) demo_dividend demo_divisor = Panic /\ shl_op (E:=unit) demo_dividend demo_divisor = Panic.
Proof.
  destruct (u256_refines (E:=unit) demo_dividend demo_divisor demo_dividend_words demo_divisor_words)
    as (_ & _ & _ & M & D & L & _).
  split; [exact D|]. rewrite M, L. split; vm_compute; reflexivity.
Defined.

(** ** Exponentiation *)

Lemma pow_grows x n y : 1 <= x -> 1 <= n -> 0 <= y -> x * y <= x ^ n * y.
Proof.
  intros Hx Hn Hy. apply Z.mul_le_mono_nonneg_r; [done|].
  rewrite <- (Z.pow_1_r x) at 1. apply Z.pow_le_mono_r; lia.
Qed.
Lemma fits_bind {E} nw x (f : uint -> result E uint) c :
  0 <= x -> (pw nw <= x -> pw nw <= c) -> (x < pw nw -> f (of_val nw x) = fits nw c) ->
  (r ← fits nw x ; f r) = fits nw c.
Proof.
  intros Hx Hc Hf. unfold fits at 1. destruct (Z.ltb_spec x (pw nw)) as [L|L]; [by apply Hf|].
  cbn [mbind result_bind]. unfold fits. destruct (Z.ltb_spec c (pw nw)); [specialize (Hc L); lia|done].
Qed.
Lemma val_of_val_small nw x : 0 <= x < pw nw -> val (of_val nw x) = x.
Proof. intros H. rewrite val_of_val. by apply Z.mod_small. Qed.

(** Clearing the top bit of an exponent below half of the range changes nothing. *)
Lemma clear_top nw n :
  is_uint (S nw) n -> val n < 2 ^ 63 * pw nw ->
  <[(length n - 1)%nat := Z.land n.[length n - 1] (Z.shiftr (2 ^ 64 - 1) 1)]> n = n.
Proof.
  intros [L H] B. replace (length n - 1)%nat with nw by lia.
  change (Z.shiftr (2 ^ 64 - 1) 1) with (Z.ones 63). rewrite land_ones_wrap by lia.
  pose proof (val_bound n H) as B0. pose proof (pw_pos nw).
  assert (is_u 63 n.[nw]) as Hw.
  { rewrite val_lookup by done. assert (0 <= val n / pw nw < 2 ^ 63) as D.
    { split; [apply Z.div_pos; lia|apply Z.div_lt_upper_bound; lia]. }
    unfold is_u. rewrite Z.mod_small by lia. done. }
  rewrite wrap_id by done. apply list_insert_id.
  destruct (lookup_lt_is_Some_2 n nw) as [x E]; [lia|]. by rewrite (word_in _ _ _ E).
Qed.

Lemma even_test l : Forall (is_u 64) l -> (Z.land (low_u64 l) 1 =? 0) = Z.even (val l).
Proof.
  intros H. change 1 with (Z.ones 1). rewrite land_ones_wrap, low_u64_spec by (auto; lia). unfold wrap.
  change (2 ^ 1) with 2. replace (val l mod 2 ^ 64 mod 2) with (val l mod 2) by dlia.
  rewrite Zmod_even. by destruct (Z.even (val l)).
Qed.

Lemma square_step x y n :
  0 <= x -> (1 <= y \/ x = 0) -> 2 <= n ->
  (x * x) ^ (n / 2) * (if Z.even n then y else x * y) = x ^ n * y /\ (forall P, 0 < P -> P <= x * x -> P <= x ^ n * y) /\
  (forall P, 0 < P -> P <= x * y -> P <= x ^ n * y).
Proof.
  intros Hx Hy Hn. split; [|split].
  - replace (x * x) with (x ^ 2) by ring. rewrite <- Z.pow_mul_r by dlia.
    pose proof (Z.div_mod n 2 ltac:(lia)) as D. rewrite Zmod_even in D. destruct (Z.even n).
    + do 2 f_equal. lia.
    + rewrite D at 2. rewrite Z.pow_add_r, Z.pow_1_r by dlia. ring.
  - intros P HP H. assert (x <> 0 /\ 1 <= y) as [Nx Hy1] by (destruct Hy; nia).
    assert (x ^ 2 <= x ^ n) by (apply Z.pow_le_mono_r; lia). nia.
  - intros P HP H. assert (x <> 0 /\ 1 <= y) as [Nx Hy1] by (destruct Hy; nia).
    pose proof (pow_grows x n y ltac:(lia) ltac:(lia) ltac:(lia)). lia.
Qed.

Lemma pow_loop_ok {E} nw fuel x y n :
  is_uint (S nw) x -> is_uint (S nw) y -> is_uint (S nw) n ->
  1 <= val n < 2 ^ Z.of_nat fuel -> val n < 2 ^ 63 * pw nw -> (1 <= val y \/ val x = 0) ->
  pow_loop (E:=E) fuel x y n = fits (S nw) (val x ^ val n * val y).
Proof.
  revert x y n. induction fuel as [|fuel IH]; intros x y n Hx Hy Hn Bn Tn Ny; [simpl in Bn; lia|].
  pose proof (is_uint_bound _ _ Hx) as Bx. pose proof (is_uint_bound _ _ Hy) as By. pose proof (pw_pos (S nw)) as HP.
  cbn [pow_loop]. destruct (uint_one_spec nw) as [H1 V1].
  replace (length n) with (S nw) by (symmetry; apply Hn).
  rewrite (uint_cmp_spec (S nw)), V1 by done.
  destruct (Z.compare_spec (val n) 1) as [E1|E1|E1]; [|lia|].
  { rewrite E1, Z.pow_1_r. by apply uint_mul_spec. }
  destruct (square_step (val x) (val y) (val n)) as (Sq & Gx & Gy); [lia|done|lia|].
  rewrite Nat2Z.inj_succ, Z.pow_succ_r in Bn by lia.
  destruct (uint_shr_spec _ n 1 Hn ltac:(lia)) as [Hh Vh]. change (2 ^ 1) with 2 in Vh.
  assert (forall y', is_uint (S nw) y' -> (1 <= val y' \/ val x = 0) ->
    val y' = (if Z.even (val n) then val y else val x * val y) ->
    (x2 ← uint_mul (E:=E) x x ; pow_loop fuel x2 y' (uint_shr n 1)) = fits (S nw) (val x ^ val n * val y)) as Next.
  { intros y' Hy' Ny' Vy'. rewrite (uint_mul_spec (S nw)) by done.
    apply fits_bind; [nia|auto|]. intros L. rewrite IH; [|apply of_val_words|done|done|rewrite Vh; dlia|rewrite Vh; dlia|].
    - rewrite val_of_val_small, Vh, Vy', Sq by nia. done.
    - rewrite val_of_val_small by nia. destruct Ny' as [?| ->]; auto. }
  rewrite even_test by apply Hn. destruct (Z.even (val n)) eqn:Ev; [by apply Next|].
  rewrite (uint_mul_spec (S nw) x y) by done. apply fits_bind; [nia|auto|]. intros L.
  replace (S nw) with (length n) by apply Hn. rewrite (clear_top nw n) by done.
  replace (length n) with (S nw) by (symmetry; apply Hn).
  apply Next; [apply of_val_words|rewrite val_of_val_small by nia; nia|by apply val_of_val_small; nia].
Qed.

(** Exponentiation below half of the exponent range: [pow] panics exactly when
    the power does not fit the type, and returns its words otherwise. *)
Theorem pow_exact {E} nw a e :
  is_uint (S nw) a -> is_uint (S nw) e -> val e < 2 ^ 63 * pw nw ->
  pow (E:=E) a e = fits (S nw) (val a ^ val e).
Proof.
  intros Ha He Te. unfold pow. rewrite is_zero_spec by apply He. destruct (uint_one_spec nw) as [H1 V1].
  replace (length a) with (S nw) by (symmetry; apply Ha). replace (length e) with (S nw) by (symmetry; apply He).
  pose proof (is_uint_bound _ _ He) as Be. destruct (Z.eqb_spec (val e) 0) as [Z0|Nz].
  - rewrite Z0, Z.pow_0_r. unfold fits. pose proof (is_uint_bound _ _ H1) as B1. rewrite V1 in B1.
    rewrite (proj2 (Z.ltb_lt 1 _)) by lia. f_equal. by apply of_val_eq.
  - rewrite (pow_loop_ok nw), V1, Z.mul_1_r; auto; [|lia].
    split; [lia|]. unfold pw in Be. replace (Z.of_nat (64 * S nw)) with (64 * Z.of_nat (S nw)) by lia. lia.
Qed.
Lemma pow_exact_witness : pow (E:=unit) (from_u64 4 3) (from_u64 4 161) = Ok (of_val 4 (3 ^ 161)) /\
  pow (E:=unit) (from_u64 4 3) (from_u64 4 162) = Panic.
Proof.
  assert (forall x, is_u 64 x -> is_uint 4 (from_u64 4 x)) as W by (intros x Hx; exact (proj1 (from_u64_spec 3 x Hx))).
  split.
  - exact (pow_exact (E:=unit) 3 (from_u64 4 3) (from_u64 4 161)
      (W 3 ltac:(unfold is_u; lia)) (W 161 ltac:(unfold is_u; lia)) ltac:(vm_compute; reflexivity)).
  - exact (pow_exact (E:=unit) 3 (from_u64 4 3) (from_u64 4 162)
      (W 3 ltac:(unfold is_u; lia)) (W 162 ltac:(unfold is_u; lia)) ltac:(vm_compute; reflexivity)).
Defined.

(** Above it an odd exponent loses its top bit, and the next halving its lowest:
    [2.pow(2^255 + 1)] is 8 where the power needs more than 256 bits. *)
Lemma pow_top_bit_lost :
  pow (E:=unit) (from_u64 4 2) [1; 0; 0; 2 ^ 63] = Ok (from_u64 4 8) /\ val [1; 0; 0; 2 ^ 63] = 2 ^ 255 + 1.
Proof. split; vm_compute; reflexivity. Qed.

(** ** Decimal text *)

Lemma dec_loop_step nw l r rest :
  is_uint (S nw) l -> 0 <= r <= 9 -> val l * 10 + r < pw (S nw) ->
  dec_loop l (r + 48 :: rest) = dec_loop (of_val (S nw) (val l * 10 + r)) rest.
Proof.
  intros Hl Hr B. pose proof (is_uint_bound _ _ Hl) as Bl. destruct Hl as [L H]. cbn [dec_loop].
  replace (wrap 8 (r + 48 - 48)) with r by (unfold wrap; dlia). destruct (Z.ltb_spec 9 r); [lia|].
  unfold overflowing_mul_u64.
  destruct (mul_u64_words_spec l 10 0 H ltac:(unfold is_u; lia) word_0) as (p & c & -> & Hp & Lp & Hc & V).
  rewrite L in *. pose proof (val_bound p Hp) as Bp. unfold is_u in Hc.
  assert (c = 0) as -> by nia. cbn [Z.ltb Z.compare]. rewrite Lp.
  destruct (from_u64_spec nw r ltac:(unfold is_u; lia)) as [Hf Vf].
  destruct (overflowing_add_spec (S nw) p (from_u64 (S nw) r)) as (s & -> & Hs & Vs); [by split|done|].
  rewrite Vf in *. rewrite (proj2 (Z.leb_gt _ _)) by lia. f_equal. apply of_val_eq; [done|].
  rewrite Vs, Z.mod_small by lia. lia.
Qed.

(** The digits [display] writes before [buf] read back as the number. *)
Lemma display_loop_ok {E} nw room l buf :
  is_uint (S nw) l -> 0 < val l < 10 ^ Z.of_nat room ->
  exists digits, display_loop (E:=E) room l buf = Ok (digits ++ buf) /\
    forall rest, dec_loop (uint_zero (S nw)) (digits ++ rest) = dec_loop l rest.
Proof.
  revert l buf. induction room as [|room IH]; intros l buf Hl B; [simpl in B; lia|].
  rewrite Nat2Z.inj_succ, Z.pow_succ_r in B by lia. pose proof (is_uint_bound _ _ Hl) as Bl.
  destruct (from_u64_spec nw 10 ltac:(unfold is_u; lia)) as [H10 V10].
  destruct (uint_zero_spec (S nw)) as [H0 V0].
  cbn [display_loop]. replace (length l) with (S nw) by (symmetry; apply Hl).
  unfold uint_rem, uint_div. rewrite !(div_mod_eq nw) by done. rewrite !V10. cbn [Z.eqb mbind result_bind].
  set (r := val l mod 10). set (q := val l / 10).
  assert (0 <= r <= 9 /\ val l = q * 10 + r /\ 0 <= q) as (Hr & D & Hq) by (subst r q; dlia).
  rewrite low_u64_spec by apply of_val_words. rewrite (val_of_val_small _ r) by lia.
  rewrite (Z.mod_small r) by lia. rewrite (wrap_id 8 r), (wrap_id 8 (r + 48)) by (unfold is_u; lia).
  rewrite is_zero_spec by apply of_val_words. rewrite (val_of_val_small _ q) by lia.
  assert (forall m rest, is_uint (S nw) m -> val m = q -> dec_loop m (r + 48 :: rest) = dec_loop l rest) as Step.
  { intros m rest Hm Vm. rewrite (dec_loop_step nw), Vm by (auto; lia). f_equal. symmetry. by apply of_val_eq. }
  destruct (Z.eqb_spec q 0) as [Eq|Nq].
  - exists [r + 48]. split; [done|]. intros rest. apply Step; [done|lia].
  - destruct (IH (of_val (S nw) q) (r + 48 :: buf)) as (ds & Ed & Rd).
    { apply of_val_words. } { rewrite val_of_val_small by lia. lia. }
    exists (ds ++ [r + 48]). split; [rewrite Ed, <- app_assoc; done|].
    intros rest. rewrite <- app_assoc, Rd. apply Step; [apply of_val_words|apply val_of_val_small; lia].
Qed.

Lemma decimal_room nw : pw nw < 10 ^ Z.of_nat (nw * 20) \/ nw = 0%nat.
Proof.
  destruct nw as [|nw]; [by right|]. left. unfold pw.
  replace (64 * Z.of_nat (S nw)) with (64 * (Z.of_nat (S nw))) by lia.
  replace (Z.of_nat (S nw * 20)) with (20 * Z.of_nat (S nw)) by lia.
  rewrite !Z.pow_mul_r by lia. apply Z.pow_lt_mono_l; [lia|]. split; [lia|reflexivity].
Qed.

(** Decimal text: [Display] always fits its buffer of twenty digits a word,
    and [from_dec_str] reads the number it printed. *)
Theorem decimal_roundtrip {E} nw l :
  is_uint (S nw) l -> exists text, display (E:=E) l = Ok text /\ from_dec_str (S nw) text = Ok l.
Proof.
  intros Hl. unfold display, from_dec_str. rewrite is_zero_spec by apply Hl.
  pose proof (is_uint_bound _ _ Hl) as Bl. destruct (Z.eqb_spec (val l) 0) as [Z0|Nz].
  - exists [48]. split; [done|]. destruct (uint_zero_spec (S nw)) as [H0 V0].
    change 48 with (0 + 48). rewrite (dec_loop_step nw), V0 by (auto; lia). cbn [dec_loop]. f_equal. symmetry.
    by apply of_val_eq.
  - replace (length l) with (S nw) by (symmetry; apply Hl).
    destruct (decimal_room (S nw)) as [R|]; [|lia].
    destruct (display_loop_ok (E:=E) nw (S nw * 20) l [] Hl ltac:(lia)) as (ds & -> & Rd).
    exists (ds ++ []). split; [done|]. exact (Rd []).
Qed.
Lemma decimal_roundtrip_witness :
  exists text, display (E:=unit) demo_dividend = Ok text /\ from_dec_str 4 text = Ok demo_dividend.
Proof. exact (decimal_roundtrip (E:=unit) 3 demo_dividend demo_dividend_words). Defined.
