(* ===== verification/Crypto.v ===== *)
(** * Cryptography

    The wrappers of src/crypto/src/lib.rs and src/crypto/src/ecdsa.rs around the
    hash functions and secp256k1 of third-party crates.  The third-party
    functions are the fields of [CryptoPrims]; what their documentation promises
    and the node relies on is [CryptoLaws].  No law speaks about collisions. *)
From S2P Require Import Prelude Compact.

Class CryptoPrims := {
  (** [sha2::Sha256], [sha3::Keccak256], [ripemd::Ripemd160] *)
  sha256_raw : bytes -> bytes;
  keccak256_raw : bytes -> bytes;
  ripemd160_raw : bytes -> bytes;
  (** [k256::ecdsa] *)
  SigningKey : Type;
  VerifyingKey : Type;
  RecoverableSignature : Type;
  signing_key_from_bytes : bytes -> option SigningKey;
  verifying_key : SigningKey -> VerifyingKey;
  to_encoded_point : VerifyingKey -> bytes;
  sign_digest : SigningKey -> bytes -> RecoverableSignature;
  signature_from_bytes : bytes -> option RecoverableSignature;
  signature_as_bytes : RecoverableSignature -> bytes;
  recover_verifying_key_from_digest : RecoverableSignature -> bytes -> option VerifyingKey;
}.

Class CryptoLaws `{CryptoPrims} := {
  sha256_len m : is_bytes 32 (sha256_raw m);
  keccak256_len m : is_bytes 32 (keccak256_raw m);
  ripemd160_len m : is_bytes 20 (ripemd160_raw m);
  encoded_point_len k : is_bytes 65 (to_encoded_point k);
  signature_len s : is_bytes 65 (signature_as_bytes s);
  signature_roundtrip s : signature_from_bytes (signature_as_bytes s) = Some s;
  recover_sign k d : recover_verifying_key_from_digest (sign_digest k d) d = Some (verifying_key k);
}.

Inductive CryptoError := EcdsaError | RSVInvalid.

Section Crypto.
Context `{CryptoPrims}.

Definition sha256 (m : bytes) : bytes := sha256_raw m.
Definition keccak256 (m : bytes) : bytes := keccak256_raw m.
Definition ripemd160 (m : bytes) : bytes := ripemd160_raw m.
Definition dhash160 (m : bytes) : bytes := ripemd160 (sha256 m).
Definition dhash256 (m : bytes) : bytes := sha256 (sha256 m).

(** ** Proof of work *)

Definition is_valid_proof_of_work (max_work_bits bits : Z) (hash : bytes) : bool :=
  match to_u256 max_work_bits with
  | Ok maximum =>
    match to_u256 bits with
    | Ok target => let value := from_be hash in (target <=? maximum) && (value <=? target)
    | _ => false
    end
  | _ => false
  end.

Definition is_valid_proof_of_work_hash (target : Z) (hash : bytes) : bool :=
  from_be hash <=? target.

(** [U192::to_le_bytes] *)
Definition U192_to_le_bytes (n : Z) : bytes := reverse (to_be 24 n).

Definition pow_stamp (pub_key : bytes) (nonce : Z) : bytes := U192_to_le_bytes nonce ++ pub_key.

(** The search loop of [generate_pow_from_pub_key]; [None] is an iteration count
    beyond [fuel], and [nonce += 1] panics at [2^192]. *)
Fixpoint generate_pow_loop (fuel : nat) (pub_key : bytes) (target nonce : Z) :
    option (result CryptoError (Z * bytes)) :=
  match fuel with
  | O => None
  | S fuel =>
    let stamp := pow_stamp pub_key nonce in
    let h := sha256 stamp in
    if is_valid_proof_of_work_hash target h then Some (Ok (nonce, stamp))
    else if 2 ^ 192 <=? nonce + 1 then Some Panic
    else generate_pow_loop fuel pub_key target (nonce + 1)
  end.
Definition generate_pow_from_pub_key (fuel : nat) (pub_key : bytes) (target : Z) :=
  generate_pow_loop fuel pub_key target 0.

(** ** ECDSA keys and signatures *)

Definition SecretKey_from_bytes (b : bytes) : result CryptoError SigningKey :=
  ok_or (signing_key_from_bytes b) EcdsaError.
Definition SecretKey_sign (sk : SigningKey) (msg : bytes) : result CryptoError RecoverableSignature :=
  Ok (sign_digest sk (sha256_raw msg)).
Definition SecretKey_public (sk : SigningKey) : VerifyingKey := verifying_key sk.
Definition PublicKey_hash (pk : VerifyingKey) : bytes := keccak256 (drop 1 (to_encoded_point pk)).

Definition Signature_from_rsv (r s : bytes) (v : Z) : result CryptoError RecoverableSignature :=
  if negb (Nat.eqb (length r) 32) then Err RSVInvalid
  else if negb (Nat.eqb (length s) 32) then Err RSVInvalid
  else ok_or (signature_from_bytes (r ++ s ++ [v])) EcdsaError.
Definition recover_public_key (sig : RecoverableSignature) (msg : bytes) : result CryptoError VerifyingKey :=
  ok_or (recover_verifying_key_from_digest sig (sha256_raw msg)) EcdsaError.
Definition Signature_rsv (sig : RecoverableSignature) : bytes * bytes * Z :=
  let b := signature_as_bytes sig in
  (take 32 b, take 32 (drop 32 b), nth 64 b 0).

End Crypto.

(** Reassembling the three parts of a signature gives the signature back. *)
Lemma signature_rsv_roundtrip `{CryptoLaws} sig r s v :
  Signature_rsv sig = (r, s, v) -> Signature_from_rsv r s v = Ok sig.
Proof.
  unfold Signature_rsv. intros [= <- <- <-]. destruct (signature_len sig) as [Hl _].
  set (b := signature_as_bytes sig) in *.
  assert (b = take 32 b ++ take 32 (drop 32 b) ++ [nth 64 b 0]) as E.
  { rewrite <- (take_drop 32 b) at 1. f_equal.
    rewrite <- (take_drop 32 (drop 32 b)) at 1. f_equal. rewrite drop_drop.
    change (32 + 32)%nat with 64%nat.
    destruct (drop 64 b) as [|x [|y l]] eqn:D; apply (f_equal length) in D as D';
      rewrite length_drop, Hl in D'; simpl in D'; try lia.
    f_equal. rewrite <- (take_drop 64 b), D, app_nth2; rewrite length_take_le by lia; auto. }
  unfold Signature_from_rsv. rewrite !length_take, length_drop, Hl. cbn -[Nat.min].
  change (Nat.min 32 65) with 32%nat. change (Nat.min 32 (65 - 32)) with 32%nat. simpl.
  rewrite <- E. subst b. now rewrite signature_roundtrip.
Qed.

(** A signature made with [sk] recovers the public key of [sk]. *)
Lemma recover_signed `{CryptoLaws} sk msg sig r s v :
  SecretKey_sign sk msg = Ok sig -> Signature_rsv sig = (r, s, v) ->
  (sig' ← Signature_from_rsv r s v; recover_public_key sig' msg) = Ok (SecretKey_public sk).
Proof.
  intros [= <-] E. rewrite (signature_rsv_roundtrip _ _ _ _ E). simpl.
  unfold recover_public_key. now rewrite recover_sign.
Qed.

Lemma PublicKey_hash_len `{CryptoLaws} pk : is_bytes 32 (PublicKey_hash pk).
Proof. apply keccak256_len. Qed.

(** ** Proof-of-work search *)
Section Pow.
Context `{CryptoPrims}.
Variables (pub_key : bytes) (target : Z).

Definition pow_ok (n : Z) : bool :=
  is_valid_proof_of_work_hash target (sha256 (pow_stamp pub_key n)).

Lemma generate_pow_loop_spec k n :
  0 <= n -> n + Z.of_nat k < 2 ^ 192 -> pow_ok (n + Z.of_nat k) = true ->
  (forall j, n <= j < n + Z.of_nat k -> pow_ok j = false) ->
  forall fuel, (k < fuel)%nat ->
  generate_pow_loop fuel pub_key target n
  = Some (Ok (n + Z.of_nat k, pow_stamp pub_key (n + Z.of_nat k))).
Proof.
  revert n. induction k as [|k IH]; intros n Hn Hlt Hok Hno [|fuel] Hf; try lia;
    cbn [generate_pow_loop].
  - unfold pow_ok in Hok. rewrite Z.add_0_r in *. now rewrite Hok.
  - pose proof (Hno n ltac:(lia)) as Hn0. unfold pow_ok in Hn0. rewrite Hn0.
    rewrite (proj2 (Z.leb_gt (2 ^ 192) (n + 1))) by lia.
    replace (n + Z.of_nat (S k)) with (n + 1 + Z.of_nat k) in * by lia.
    apply IH; auto; try lia. intros j Hj. apply Hno. lia.
Qed.

(** The proof-of-stamp search terminates whenever some 192-bit nonce meets
    the target, and returns the least such nonce with its stamp. *)
Theorem generate_pow_finds_least k :
  Z.of_nat k < 2 ^ 192 -> pow_ok (Z.of_nat k) = true ->
  (forall j, 0 <= j < Z.of_nat k -> pow_ok j = false) ->
  forall fuel, (k < fuel)%nat ->
  generate_pow_from_pub_key fuel pub_key target
  = Some (Ok (Z.of_nat k, pow_stamp pub_key (Z.of_nat k))).
Proof. intros. apply (generate_pow_loop_spec k 0); auto; lia. Qed.

End Pow.

(** ** A concrete instance

    Stand-ins that satisfy [CryptoLaws], on which definitions can be evaluated:
    "hashes" repeat four bytes of a mixing sum, and a "signature" carries
    its key.  They are only used to exhibit inputs. *)
Definition toy_hash (seed : Z) (n : nat) (m : bytes) : bytes :=
  concat (repeat (to_be 4 (fold_left (fun acc b => ((acc + b + 1) * 1103515245) mod 2 ^ 32) m seed)) n).

Lemma toy_hash_len seed n m : is_bytes (n * 4) (toy_hash seed n m).
Proof.
  unfold toy_hash. set (w := to_be 4 _).
  assert (is_bytes 4 w) as [Hl Hb] by apply is_bytes_to_be.
  induction n as [|n [IHl IHb]]; [now split|]. cbn [repeat concat].
  split; [rewrite length_app, Hl, IHl; lia | apply Forall_app; now split].
Qed.

Definition key_Z (k : Byte.byte) : Z := Z.of_N (Byte.to_N k).
Definition key_of (z : Z) : Byte.byte := default Byte.x00 (Byte.of_N (Z.to_N (z mod 256))).

#[export] Instance toy_crypto : CryptoPrims := {|
  sha256_raw := toy_hash 7 8;
  keccak256_raw := toy_hash 11 8;
  ripemd160_raw := toy_hash 13 5;
  SigningKey := Byte.byte;
  VerifyingKey := Byte.byte;
  RecoverableSignature := Byte.byte;
  signing_key_from_bytes b := if decide (length b = 32%nat) then Some (key_of (from_be b)) else None;
  verifying_key k := k;
  to_encoded_point k := 4 :: to_be 64 (key_Z k);
  sign_digest k d := k;
  signature_from_bytes b := if decide (length b = 65%nat) then Some (key_of (nth 31 b 0)) else None;
  signature_as_bytes s := to_be 31 0 ++ [key_Z s] ++ to_be 32 0 ++ [1];
  recover_verifying_key_from_digest s d := Some s;
|}.

Lemma key_Z_bound k : is_byte (key_Z k).
Proof. destruct k; vm_compute; intuition congruence. Qed.

#[export] Instance toy_crypto_laws : CryptoLaws.
Proof.
  constructor; intros; try apply toy_hash_len; try reflexivity.
  - split; [cbn -[to_be]; now rewrite length_to_be|].
    constructor; [unfold is_byte, is_u; lia | apply to_be_bytes].
  - split; [reflexivity|]. repeat (apply Forall_app; split); try apply to_be_bytes;
      repeat constructor; try apply key_Z_bound; lia.
  - destruct s; vm_compute; reflexivity.
Qed.

Lemma generate_pow_finds_least_witness :
  generate_pow_from_pub_key 4 (to_be 32 5) (2 ^ 254) = Some (Ok (2, pow_stamp (to_be 32 5) 2)).
Proof.
  apply (generate_pow_finds_least (to_be 32 5) (2 ^ 254) 2); [lia | reflexivity | | lia].
  intros j Hj. assert (j = 0 \/ j = 1) as [-> | ->] by lia; vm_compute; reflexivity.
Defined.
