(* ===== verification/Types.v ===== *)
(** * Chain data types

    Networks, addresses, package names, accounts, transactions and block headers
    (src/common/types/src/, src/common/primitive-types/src/address.rs) and the
    signing helpers of src/transaction/src/lib.rs.  Fixed-size arrays are byte
    lists whose length is part of the well-formedness predicates below. *)
From S2P Require Import Prelude Bech32 Compact Crypto.

Abbreviation H256 := (list Z).
Abbreviation Address := (list Z).
Definition ADDRESS_LEN : nat := 44.
Definition H256_zero : H256 := repeat 0 32.
Definition Address_default : Address := repeat 0 44.

(** ** Networks (network.rs) *)

Inductive Network := Mainnet | Testnet | Alphanet.
#[export] Instance Network_eq_dec : EqDecision Network.
Proof. solve_decision. Defined.

(** The little-endian limbs of a [U256] constant. *)
Definition limbs (a b c d : Z) : Z := a + b * 2 ^ 64 + c * 2 ^ 128 + d * 2 ^ 192.
Definition TESTNET_MAX_DIFFICULTY : Z := limbs 0 0 0 0x00000377ae000000.
Definition ALPHA_MAX_DIFFICULTY : Z := limbs 0 0 0 0x000000fff000000.
Definition MAINNET_MAX_DIFFICULTY : Z :=
  limbs 0xffffffffffffffff 0xffffffffffffffff 0xffffffffffffffff 0x00000000ffffffff.
Definition TESTNET_HRP : str := lit "odanx".
Definition ALPHA_HRP : str := lit "odaxx".
Definition MAINNET_HRP : str := lit "odana".

Definition max_difficulty (n : Network) : Z :=
  match n with
  | Testnet => TESTNET_MAX_DIFFICULTY
  | Alphanet => ALPHA_MAX_DIFFICULTY
  | Mainnet => MAINNET_MAX_DIFFICULTY
  end.
Definition chain_id (n : Network) : Z :=
  match n with Mainnet => 0 | Testnet => 1 | Alphanet => 2 end.
Definition from_chain_id (id : Z) : Network :=
  match id with 0 => Mainnet | 1 => Testnet | 2 => Alphanet | _ => Testnet end.
Definition network_hrp (n : Network) : str :=
  match n with Mainnet => MAINNET_HRP | Testnet => TESTNET_HRP | Alphanet => ALPHA_HRP end.
Definition max_difficulty_compact {E} (n : Network) : result E Z :=
  match n with
  | Testnet => from_u256 TESTNET_MAX_DIFFICULTY
  | Alphanet => from_u256 ALPHA_MAX_DIFFICULTY
  | Mainnet => from_u256 MAINNET_MAX_DIFFICULTY
  end.

(** ** Addresses (primitive-types/src/address.rs, account.rs) *)

Definition from_slice_checked (slice : bytes) : result unit Address :=
  if negb (Nat.eqb (length slice) ADDRESS_LEN) then Err tt else fixed_bytes ADDRESS_LEN slice.

(** [Address::from_slice] and [From<Vec<u8>>] *)
Definition Address_from_slice {E} (slice : bytes) : result E Address := fixed_bytes ADDRESS_LEN slice.

Definition hrp (a : Address) : str :=
  match decode (from_utf8_lossy a) with Ok (h, _, _) => h | _ => [] end.

Definition is_zero (a : Address) : bool := bool_decide (a = Address_default).

(** [Address::to_address20]; [H160::from_slice] panics unless 20 bytes were decoded. *)
Definition to_address20 (a : Address) : result unit (option bytes) :=
  match ('(_, address_32, _) ← decode (from_utf8_lossy a); convert_bits address_32 5 8 false) with
  | Ok address => Some <$> fixed_bytes 20 address
  | Err _ => Ok None
  | Panic => Panic
  end.

(** [FromStr for Address]: [!] is the bitwise complement of the [usize] length. *)
Definition Address_from_str (input : str) : result Bech32Error Address :=
  let len := Z.of_nat (length (utf8 input)) in
  if Z.lxor (2 ^ 64 - 1) len =? Z.of_nat ADDRESS_LEN then Err InvalidLength
  else _ ← decode input; fixed_bytes ADDRESS_LEN (utf8 input).

(** [Addressing for Address] *)
Definition is_mainnet (a : Address) : bool := bool_decide (MAINNET_HRP = hrp a).
Definition is_testnet (a : Address) : bool := bool_decide (TESTNET_HRP = hrp a).
Definition is_alphanet (a : Address) : bool := bool_decide (ALPHA_HRP = hrp a).
Definition address_is_valid (a : Address) : bool :=
  match decode (from_utf8_lossy a) with
  | Ok (h, _, _) => bool_decide (ALPHA_HRP = h) || bool_decide (TESTNET_HRP = h)
                    || bool_decide (MAINNET_HRP = h)
  | _ => false
  end.
Definition address_network (a : Address) : option Network :=
  let h := hrp a in
  if bool_decide (h = MAINNET_HRP) then Some Mainnet
  else if bool_decide (h = TESTNET_HRP) then Some Testnet
  else if bool_decide (h = ALPHA_HRP) then Some Alphanet
  else None.

(** The shared tail of the [get_address_from_*] functions: bech32m of the last
    20 bytes of a key hash.  [expect] panics on an encoding error and
    [copy_from_slice] on a string that is not 44 bytes long. *)
Definition address_of_key {E} (key : bytes) (network : Network) : result E Address :=
  match encode (network_hrp network) (to_base32 (drop 12 key)) Bech32m with
  | Ok address => fixed_bytes ADDRESS_LEN (utf8 address)
  | _ => Panic
  end.

(** As [address_of_key], but the first 44 bytes of a longer string are taken. *)
Definition address_of_key_prefix {E} (key : bytes) (network : Network) : result E Address :=
  match encode (network_hrp network) (to_base32 (drop 12 key)) Bech32m with
  | Ok address => '(a, _) ← take_bytes ADDRESS_LEN (utf8 address); Ok a
  | _ => Panic
  end.

(** ** Package names (util.rs) *)

Definition MAX_PACKAGE_NAME_LEN : Z := 128.

(** [str::split]: one part more than there are separators. *)
Fixpoint split (sep : Z) (s : str) : list str :=
  match s with
  | [] => [[]]
  | c :: s' =>
    if c =? sep then [] :: split sep s'
    else match split sep s' with p :: ps => (c :: p) :: ps | [] => [[c]] end
  end.

Definition is_ascii_lowercase (c : Z) : bool := in_range 97 122 c.
Definition is_ascii_digit (c : Z) : bool := in_range 48 57 c.
Definition package_char (c : Z) : bool := is_ascii_lowercase c || is_ascii_digit c || (c =? 95).

Inductive PackageError := NameTooLong | BadPartCount | BadFirstPart | BadPart.

(** The [for] loop with its [break]. *)
Fixpoint parts_valid (parts : list str) : bool :=
  match parts with
  | [] => true
  | part :: parts' => if negb (forallb package_char part) then false else parts_valid parts'
  end.

Definition parts (s : str) : result PackageError (list str) :=
  if MAX_PACKAGE_NAME_LEN <? Z.of_nat (length (utf8 s)) then Err NameTooLong
  else
    let ps := split 46 s in
    if (length ps <? 3)%nat || (8 <? length ps)%nat then Err BadPartCount
    else
      p0 ← unwrap (head ps);
      if negb (forallb is_ascii_lowercase p0) then Err BadFirstPart
      else if negb (parts_valid ps) then Err BadPart
      else Ok ps.

Definition PackageName_is_valid (s : str) : result PackageError bool :=
  if MAX_PACKAGE_NAME_LEN <? Z.of_nat (length (utf8 s)) then Ok false
  else
    let ps := split 46 s in
    if (length ps <? 3)%nat || (8 <? length ps)%nat then Ok false
    else
      p0 ← unwrap (head ps);
      if negb (forallb is_ascii_lowercase p0) then Ok false
      else Ok (parts_valid ps).

Record PackageName := { organisation_id : H256; package_id : H256 }.

(** ** Accounts (account.rs) *)

Record AppState := {
  root_hash : H256; code_hash : H256; creator : Address; app_version : Z }.
#[export] Instance AppState_eq_dec : EqDecision AppState.
Proof. solve_decision. Defined.

Record AccountState := {
  free_balance : Z; reserve_balance : Z; acc_nonce : Z; app_state : option AppState }.
#[export] Instance AccountState_eq_dec : EqDecision AccountState.
Proof. solve_decision. Defined.

Definition AccountState_new : AccountState :=
  {| free_balance := 0; reserve_balance := 0; acc_nonce := 1; app_state := None |}.

Record Account := { address : Address; secret : H256 }.

(** ** Transactions (tx.rs) *)

Inductive TransactionStatus := Confirmed | Pending | Queued | NotFound.

Inductive TransactionData :=
| Payment (to : Address)
| Call (app_id : Address) (service method : Z) (args : bytes)
| Create (package_name : str) (binary : bytes)
| Update (app_id : Address) (binary : bytes) (migrate : bool)
| RawData (data : bytes).
#[export] Instance TransactionData_eq_dec : EqDecision TransactionData.
Proof. solve_decision. Defined.

Record Transaction := {
  nonce : Z; tx_chain_id : Z; genesis_hash : H256; fee : Z; value : Z;
  data : option TransactionData }.
#[export] Instance Transaction_eq_dec : EqDecision Transaction.
Proof. solve_decision. Defined.

Definition pack (t : Transaction) : bytes :=
  let pack := to_be 8 (nonce t) ++ to_be 4 (tx_chain_id t) ++ genesis_hash t
              ++ to_be 8 (fee t) ++ to_be 8 (value t) in
  match data t with
  | None => pack
  | Some d =>
    pack ++ match d with
            | Payment to => to_be 4 1 ++ to
            | Call app_id service method args =>
              to_be 4 2 ++ app_id ++ to_be 8 service ++ to_be 8 method ++ args
            | Create package_name binary => to_be 4 3 ++ utf8 package_name ++ binary
            | Update app_id binary migrate =>
              to_be 4 4 ++ app_id ++ to_be 1 (Z.b2z migrate) ++ binary
            | RawData v => to_be 4 5 ++ v
            end
  end.

(** The cached [hash], [from] and [to] of the source are memoised results of the
    functions below; see [cache]. *)
Record SignedTransaction := { tx : Transaction; sig_r : H256; sig_s : H256; sig_v : Z }.
#[export] Instance SignedTransaction_eq_dec : EqDecision SignedTransaction.
Proof. solve_decision. Defined.

Definition fees (t : SignedTransaction) : Z := fee (tx t).
Definition price (t : SignedTransaction) : Z := value (tx t).
Definition tx_nonce (t : SignedTransaction) : Z := nonce (tx t).

(** [cache] (lib.rs): the value read and the new content of the cell. *)
Definition cache {E F T} (dflt : T) (cell : option T) (f : result E T) : result F (T * option T) :=
  match cell with
  | Some hash => Ok (hash, cell)
  | None => match f with
            | Ok out => Ok (out, Some out)
            | Err _ => Ok (dflt, None)
            | Panic => Panic
            end
  end.

(** ** Block headers (block.rs) *)

Record BlockHeader := {
  parent_hash : H256; receipt_hash : H256; tx_root : H256; state_root : H256;
  mix_nonce : Z; coinbase : Address; difficulty : Z; header_chain_id : Z;
  level : Z; time : Z; header_nonce : Z }.
#[export] Instance BlockHeader_eq_dec : EqDecision BlockHeader.
Proof. solve_decision. Defined.

Definition HEADER_SIZE : nat := 212.

Definition consensus_encode (h : BlockHeader) : bytes :=
  parent_hash h ++ receipt_hash h ++ tx_root h ++ state_root h ++ to_be 32 (mix_nonce h)
  ++ coinbase h ++ to_be 4 (difficulty h) ++ to_be 4 (header_chain_id h) ++ to_be 4 (level h)
  ++ to_be 4 (time h) ++ to_be 8 (header_nonce h).

Definition consensus_decode (buf : bytes) : result unit BlockHeader :=
  '(parent_hash, b) ← take_bytes 32 buf;
  '(receipt_hash, b) ← take_bytes 32 b;
  '(tx_root, b) ← take_bytes 32 b;
  '(state_root, b) ← take_bytes 32 b;
  '(mix_nonce, b) ← take_bytes 32 b;
  '(coinbase, b) ← take_bytes ADDRESS_LEN b;
  coinbase ← from_slice_checked coinbase;
  '(difficulty, b) ← take_bytes 4 b;
  '(chain_id, b) ← take_bytes 4 b;
  '(level, b) ← take_bytes 4 b;
  '(time, b) ← take_bytes 4 b;
  '(nonce, b) ← take_bytes 8 b;
  Ok {| parent_hash := parent_hash; receipt_hash := receipt_hash; tx_root := tx_root;
        state_root := state_root; mix_nonce := from_be mix_nonce; coinbase := coinbase;
        difficulty := from_be difficulty; header_chain_id := from_be chain_id;
        level := from_be level; time := from_be time; header_nonce := from_be nonce |}.

Record BlockPrimaryKey := { key_level : Z; key_hash : H256 }.
#[export] Instance BlockPrimaryKey_eq_dec : EqDecision BlockPrimaryKey.
Proof. solve_decision. Defined.

Definition BlockPrimaryKey_encode (k : BlockPrimaryKey) : bytes :=
  to_be 4 (key_level k) ++ key_hash k.
Definition BlockPrimaryKey_decode {E} (buf : bytes) : result E BlockPrimaryKey :=
  '(l, rest) ← take_bytes 4 buf;
  h ← fixed_bytes 32 rest;
  Ok {| key_level := from_be l; key_hash := h |}.
(** The derived [Ord]. *)
Definition BlockPrimaryKey_cmp (a b : BlockPrimaryKey) : comparison :=
  match Z.compare (key_level a) (key_level b) with
  | Eq => bytes_cmp (key_hash a) (key_hash b)
  | c => c
  end.

Record Block := { header : BlockHeader; transactions : list SignedTransaction }.

(** ** Operations that hash *)
Section Hashing.
Context `{CryptoPrims}.

(** [PackageName::parse]; [reduce] of an empty iterator gives the default hash. *)
Definition PackageName_parse (s : str) : result PackageError PackageName :=
  ps ← parts s;
  let hash2 acc t := keccak256 (acc ++ t) in
  let organisation_id :=
    match (fun p => keccak256 (utf8 p)) <$> take 2 ps with
    | [] => H256_zero
    | h :: hs => fold_left hash2 hs h
    end in
  let package_id := fold_left hash2 ((fun p => keccak256 (utf8 p)) <$> drop 2 ps) organisation_id in
  Ok {| organisation_id := organisation_id; package_id := package_id |}.

Definition get_address_from_pub_key {E} (pk : VerifyingKey) (network : Network) : result E Address :=
  address_of_key (PublicKey_hash pk) network.
Definition get_address_from_secret_key (sk : H256) (network : Network) : result CryptoError Address :=
  sk ← SecretKey_from_bytes sk;
  address_of_key (PublicKey_hash (SecretKey_public sk)) network.
Definition get_address_from_package_name (name : str) (network : Network) : result PackageError Address :=
  package ← PackageName_parse name;
  address_of_key_prefix (package_id package) network.
Definition get_address_from_seed {E} (seed : bytes) (network : Network) : result E Address :=
  address_of_key_prefix (keccak256 seed) network.
Definition get_eth_address_from_pub_key (pk : VerifyingKey) : bytes :=
  drop 12 (keccak256 (drop 1 (to_encoded_point pk))).

Definition sig_hash (t : Transaction) : H256 := keccak256 (pack t).
Definition tx_hash (t : SignedTransaction) : H256 := sig_hash (tx t).

Definition SignedTransaction_new (sig : RecoverableSignature) (t : Transaction) : SignedTransaction :=
  let '(r, s, v) := Signature_rsv sig in {| tx := t; sig_r := r; sig_s := s; sig_v := v |}.

(** [SignedTransaction::from]: the default address when recovery fails. *)
Definition from {E} (t : SignedTransaction) : result E Address :=
  '(a, _) ← cache (F:=E) Address_default None
    (signature ← Signature_from_rsv (sig_r t) (sig_s t) (u8 (sig_v t));
     key ← recover_public_key signature (sig_hash (tx t));
     get_address_from_pub_key key (from_chain_id (tx_chain_id (tx t))));
  Ok a.
(** [sender]; [from] always returns, see [from_total]. *)
Definition sender (t : SignedTransaction) : Address :=
  match from (E:=unit) t with Ok a => a | _ => Address_default end.

Definition to {E} (t : SignedTransaction) : result E Address :=
  match data (tx t) with
  | None => Ok Address_default
  | Some d =>
    '(a, _) ← cache (F:=E) Address_default None
      match d with
      | Payment to => Ok to
      | Call app_id _ _ _ => Ok app_id
      | RawData _ => Ok Address_default
      | Create package_name _ =>
        a ← from t;
        network ← ok_or (address_network a) BadPart;
        get_address_from_package_name package_name network
      | Update app_id _ _ => Ok app_id
      end;
    Ok a
  end.

(** [sign_tx] and [make_payment_sign_transaction] (transaction/src/lib.rs) *)
Definition sign_tx (secret : H256) (t : Transaction) : result CryptoError SignedTransaction :=
  let payload := sig_hash t in
  secrete ← SecretKey_from_bytes secret;
  sig ← SecretKey_sign secrete payload;
  Ok (SignedTransaction_new sig t).
Definition make_signed_transaction (signer : H256) (nonce amount fee : Z) (network : Network)
    (data : TransactionData) : result CryptoError SignedTransaction :=
  sign_tx signer {| nonce := nonce; tx_chain_id := chain_id network; genesis_hash := H256_zero;
                    fee := fee; value := amount; data := Some data |}.
Definition make_payment_sign_transaction (signer : H256) (to : Address) (nonce amount fee : Z)
    (network : Network) : result CryptoError SignedTransaction :=
  sign_tx signer {| nonce := nonce; tx_chain_id := chain_id network; genesis_hash := H256_zero;
                    fee := fee; value := amount; data := Some (Payment to) |}.

Definition header_hash (h : BlockHeader) : H256 := dhash256 (consensus_encode h).
Definition block_hash (b : Block) : H256 := header_hash (header b).
Definition block_level (b : Block) : Z := level (header b).

End Hashing.

(** ** Addresses *)

Lemma network_hrp_ok n : check_hrp (network_hrp n) = Ok Lower /\ length (network_hrp n) = 5%nat.
Proof. destruct n; vm_compute; auto. Qed.

(** The bech32m string of a 32-byte key: 44 ASCII characters that decode to the
    network's prefix and the key's last 20 bytes. *)
Lemma encode_key key n :
  is_bytes 32 key ->
  exists s, encode (network_hrp n) (to_base32 (drop 12 key)) Bech32m = Ok s /\ length s = 44%nat /\
    utf8 s = s /\ from_utf8_lossy s = s /\
    decode s = Ok (network_hrp n, to_base32 (drop 12 key), Bech32m).
Proof.
  intros [Hl Hb]. destruct (network_hrp_ok n) as [Hc Hn].
  assert (Forall is_byte (drop 12 key)) as Hd by now apply Forall_drop.
  destruct (to_base32_spec _ Hd) as (pad & Hp & Hlen & _ & H5).
  destruct (encode_decodes _ _ _ Bech32m Hc H5) as (s & He & Hdec & Hls & Ha).
  exists s. rewrite length_drop, Hl in Hlen.
  repeat split; auto using utf8_ascii, from_utf8_lossy_ascii. rewrite Hls, Hn. lia.
Qed.

(** What the address of a key reads back as. *)
Definition address_reads (a : Address) (n : Network) (key20 : bytes) : Prop :=
  length a = ADDRESS_LEN /\ address_is_valid a = true /\ address_network a = Some n /\
  to_address20 a = Ok (Some key20).

Lemma encode_key_reads key n s :
  is_bytes 32 key -> length s = 44%nat -> from_utf8_lossy s = s ->
  decode s = Ok (network_hrp n, to_base32 (drop 12 key), Bech32m) ->
  address_reads s n (drop 12 key).
Proof.
  intros [Hl Hb] Hs Hlossy Hd. unfold address_reads.
  split; [exact Hs|]. unfold address_is_valid, address_network, hrp, to_address20.
  rewrite !Hlossy, !Hd. split; [now destruct n|]. split; [now destruct n|].
  cbn [mbind result_bind]. fold (from_base32 (to_base32 (drop 12 key))).
  rewrite base32_roundtrip by now apply Forall_drop.
  rewrite fixed_bytes_ok; [reflexivity|]. rewrite length_drop. lia.
Qed.

Lemma address_of_key_reads {E} key n :
  is_bytes 32 key ->
  exists a, address_of_key (E:=E) key n = Ok a /\ address_of_key_prefix (E:=E) key n = Ok a /\
    address_reads a n (drop 12 key).
Proof.
  intros Hk. destruct (encode_key key n Hk) as (s & He & Hl & Hu & Hf & Hd).
  exists s. unfold address_of_key, address_of_key_prefix. rewrite He, Hu.
  split; [now apply fixed_bytes_ok|]. split; [|now apply encode_key_reads].
  rewrite <- (app_nil_r s) at 1. now rewrite take_bytes_app.
Qed.

Section AddressTheorems.
Context `{CryptoLaws}.

(** Deriving an address from a public key never panics; the 44-byte address
    is valid, names the network it was made for, and holds the last 20 bytes of
    the key's hash. *)
Theorem get_address_from_pub_key_reads {E} pk n :
  exists a, get_address_from_pub_key (E:=E) pk n = Ok a /\
    address_reads a n (drop 12 (PublicKey_hash pk)).
Proof.
  destruct (address_of_key_reads (E:=E) (PublicKey_hash pk) n) as (a & Ha & _ & Hr); eauto.
  apply PublicKey_hash_len.
Qed.

Lemma get_address_total {E} pk n : exists a, get_address_from_pub_key (E:=E) pk n = Ok a.
Proof.
  destruct (address_of_key_reads (E:=E) (PublicKey_hash pk) n) as (a & Ha & _ & _); eauto.
  apply PublicKey_hash_len.
Qed.

(** [SignedTransaction::from] never panics and never errors. *)
Lemma from_total {E} t : from (E:=E) t = Ok (sender t).
Proof.
  unfold sender, from, cache.
  destruct (Signature_from_rsv _ _ _) as [sig|e|] eqn:Es; cbn [mbind result_bind]; auto.
  - destruct (recover_public_key sig _) as [pk|e|] eqn:Er; cbn [mbind result_bind]; auto.
    + destruct (get_address_total (E:=CryptoError) pk (from_chain_id (tx_chain_id (tx t)))) as [a ->].
      reflexivity.
    + unfold recover_public_key, ok_or in Er. destruct (recover_verifying_key_from_digest _ _); discriminate.
  - unfold Signature_from_rsv, ok_or in Es. repeat case_match; discriminate.
Qed.

(** A transaction signed with a secret key is attributed to the address of
    that key on the transaction's network. *)
Theorem sign_tx_sender secret t st :
  sign_tx secret t = Ok st ->
  tx st = t /\
  get_address_from_secret_key secret (from_chain_id (tx_chain_id t)) = Ok (sender st).
Proof.
  unfold sign_tx, get_address_from_secret_key. intros E.
  apply bind_ok in E as (sk & Esk & E). apply bind_ok in E as (sig & Esig & [= <-]).
  rewrite Esk. cbn [mbind result_bind]. unfold SignedTransaction_new.
  destruct (Signature_rsv sig) as [[r s] v] eqn:Ersv. split; [reflexivity|].
  unfold sender, from. cbn [tx sig_r sig_s sig_v].
  assert (u8 v = v) as ->.
  { unfold Signature_rsv in Ersv. injection Ersv as _ _ <-. apply wrap_id.
    destruct (signature_len sig) as [Hl Hb]. rewrite Forall_forall in Hb. apply Hb.
    apply nth_In. lia. }
  pose proof (recover_signed _ _ _ _ _ _ Esig Ersv) as Hr.
  apply bind_ok in Hr as (sig' & E1 & E2). rewrite E1. cbn [mbind result_bind].
  rewrite E2. cbn [mbind result_bind].
  unfold get_address_from_pub_key, cache.
  destruct (address_of_key_reads (E:=CryptoError) (PublicKey_hash (SecretKey_public sk))
    (from_chain_id (tx_chain_id t))) as (a & -> & _); [apply PublicKey_hash_len | reflexivity].
Qed.

End AddressTheorems.

Lemma sign_tx_sender_witness :
  exists st, make_payment_sign_transaction (to_be 32 5) Address_default 1 10 2 Testnet = Ok st /\
    get_address_from_secret_key (to_be 32 5) Testnet = Ok (sender st).
Proof.
  eexists. split; [vm_compute; reflexivity|].
  apply (sign_tx_sender (to_be 32 5) {| nonce := 1; tx_chain_id := 1; genesis_hash := H256_zero;
    fee := 2; value := 10; data := Some (Payment Address_default) |}). vm_compute. reflexivity.
Defined.

Lemma get_address_from_pub_key_reads_witness :
  exists a, get_address_from_pub_key (E:=unit) Byte.x05 Alphanet = Ok a /\
    address_reads a Alphanet (drop 12 (PublicKey_hash Byte.x05)).
Proof. exact (get_address_from_pub_key_reads Byte.x05 Alphanet). Defined.

(** ** Package names *)

Lemma split_nonempty sep s : split sep s <> [].
Proof. destruct s as [|c s]; simpl; [|destruct (c =? sep), (split sep s)]; discriminate. Qed.

(** [is_valid] repeats the checks of [parts], which never panics. *)
Lemma parts_is_valid s :
  PackageName_is_valid s = Ok (is_ok (parts s)) /\ parts s <> Panic.
Proof.
  unfold PackageName_is_valid, parts. pose proof (split_nonempty 46 s) as Hne.
  destruct (_ <? _); [split; [reflexivity | discriminate]|].
  destruct (_ || _)%bool; [split; [reflexivity | discriminate]|].
  destruct (split 46 s) as [|p ps]; [contradiction|]. cbn [unwrap head mbind result_bind].
  destruct (forallb _ p); simpl; [|split; [reflexivity | discriminate]].
  destruct (negb _); simpl; [split; [reflexivity | discriminate]|].
  destruct (parts_valid ps); split; try reflexivity; discriminate.
Qed.

Section PackageTheorems.
Context `{CryptoLaws}.

Lemma fold_hash2_len (hs : list bytes) h :
  is_bytes 32 h -> is_bytes 32 (fold_left (fun acc t => keccak256 (acc ++ t)) hs h).
Proof. revert h. induction hs as [|x hs IH]; simpl; auto. intros. apply IH, keccak256_len. Qed.

Lemma PackageName_parse_ok s :
  match parts s with
  | Ok _ => exists p, PackageName_parse s = Ok p /\ is_bytes 32 (organisation_id p) /\
              is_bytes 32 (package_id p)
  | Err e => PackageName_parse s = Err e
  | Panic => False
  end.
Proof.
  destruct (parts_is_valid s) as [_ Hp]. unfold PackageName_parse.
  destruct (parts s) as [ps|e|]; [|reflexivity|contradiction]. cbn [mbind result_bind].
  eexists. split; [reflexivity|]. cbn [organisation_id package_id].
  match goal with |- is_bytes 32 ?o /\ _ => assert (is_bytes 32 o) as Ho end.
  { destruct (_ <$> take 2 ps) as [|h hs] eqn:E.
    - split; [reflexivity|]. repeat constructor; lia.
    - apply fold_hash2_len. destruct ps; [discriminate|]. injection E as <- _. apply keccak256_len. }
  split; [exact Ho|]. now apply fold_hash2_len.
Qed.

(** The address of an application is defined exactly for valid package
    names, and is then a valid address of the network holding the package id's
    last 20 bytes; an invalid name is an error, never a panic. *)
Theorem package_name_address s n :
  match PackageName_is_valid s with
  | Ok true => exists p a, PackageName_parse s = Ok p /\
      get_address_from_package_name s n = Ok a /\ address_reads a n (drop 12 (package_id p))
  | Ok false => exists e, get_address_from_package_name s n = Err e
  | _ => False
  end.
Proof.
  destruct (parts_is_valid s) as [-> _]. pose proof (PackageName_parse_ok s) as P.
  unfold get_address_from_package_name. destruct (parts s) as [ps|e|]; simpl; [| |contradiction].
  - destruct P as (p & -> & _ & Hid). cbn [mbind result_bind].
    destruct (address_of_key_reads (E:=PackageError) (package_id p) n Hid) as (a & _ & Ha & Hr).
    eauto 10.
  - rewrite P. simpl. eauto.
Qed.

End PackageTheorems.

Lemma package_name_address_witness :
  match PackageName_is_valid (lit "com.example.app") with
  | Ok true => exists p a, PackageName_parse (lit "com.example.app") = Ok p /\
      get_address_from_package_name (lit "com.example.app") Testnet = Ok a /\
      address_reads a Testnet (drop 12 (package_id p))
  | Ok false => exists e, get_address_from_package_name (lit "com.example.app") Testnet = Err e
  | _ => False
  end.
Proof. exact (package_name_address (lit "com.example.app") Testnet). Defined.

(** ** Consensus encoding *)

Definition wf_header (h : BlockHeader) : Prop :=
  is_bytes 32 (parent_hash h) /\ is_bytes 32 (receipt_hash h) /\ is_bytes 32 (tx_root h) /\
  is_bytes 32 (state_root h) /\ is_u 256 (mix_nonce h) /\ is_bytes 44 (coinbase h) /\
  is_u 32 (difficulty h) /\ is_u 32 (header_chain_id h) /\ is_u 32 (level h) /\ is_u 32 (time h) /\
  is_u 64 (header_nonce h).
#[export] Instance wf_header_dec h : Decision (wf_header h).
Proof. unfold wf_header. apply _. Defined.

(** One field of the encoding read back. *)
Ltac read_field H :=
  rewrite take_bytes_app by (first [apply length_to_be | apply H]); cbn [mbind result_bind].

Lemma consensus_decode_app h rest :
  wf_header h -> consensus_decode (consensus_encode h ++ rest) = Ok h.
Proof.
  intros (H1 & H2 & H3 & H4 & H5 & H6 & H7 & H8 & H9 & H10 & H11).
  unfold consensus_decode, consensus_encode. rewrite <- !app_assoc.
  read_field H1. read_field H2. read_field H3. read_field H4. read_field H1. read_field H6.
  unfold from_slice_checked, ADDRESS_LEN. rewrite (proj1 H6), fixed_bytes_ok by apply H6.
  cbn [mbind result_bind Nat.eqb negb].
  do 5 read_field H1. rewrite !from_to_be_id by assumption. now destruct h.
Qed.

Lemma length_consensus_encode h : wf_header h -> length (consensus_encode h) = 228%nat.
Proof.
  intros (H1 & H2 & H3 & H4 & H5 & H6 & _). unfold consensus_encode.
  rewrite !length_app, !length_to_be, (proj1 H1), (proj1 H2), (proj1 H3), (proj1 H4), (proj1 H6).
  reflexivity.
Qed.

Lemma consensus_encode_inj h1 h2 :
  wf_header h1 -> wf_header h2 -> consensus_encode h1 = consensus_encode h2 -> h1 = h2.
Proof.
  intros W1 W2 E. apply (f_equal (fun l => consensus_decode (l ++ []))) in E.
  rewrite !consensus_decode_app in E by assumption. now injection E.
Qed.

(** Decoding an encoded block header gives the header back, whatever follows
    it in the buffer, and the encoding takes 228 bytes. *)
Theorem header_roundtrip h rest :
  wf_header h ->
  consensus_decode (consensus_encode h ++ rest) = Ok h /\ length (consensus_encode h) = 228%nat.
Proof. split; [now apply consensus_decode_app | now apply length_consensus_encode]. Qed.

Definition example_header : BlockHeader :=
  {| parent_hash := repeat 1 32; receipt_hash := repeat 2 32; tx_root := repeat 3 32;
     state_root := repeat 4 32; mix_nonce := 5; coinbase := repeat 6 44; difficulty := 0x1d00ffff;
     header_chain_id := 1; level := 7; time := 8; header_nonce := 2 ^ 64 - 1 |}.

Lemma header_roundtrip_witness :
  consensus_decode (consensus_encode example_header ++ [9]) = Ok example_header /\
  length (consensus_encode example_header) = 228%nat.
Proof. apply (header_roundtrip example_header [9]). apply (bool_decide_unpack _). vm_compute. exact I. Defined.

(** The block hash binds every field of the header: two headers with the same
    hash are equal, or their encodings exhibit a collision of the hash function. *)
Theorem header_hash_binding `{CryptoLaws} h1 h2 :
  wf_header h1 -> wf_header h2 -> header_hash h1 = header_hash h2 ->
  h1 = h2 \/ collides sha256 (consensus_encode h1) (consensus_encode h2) \/
  collides sha256 (sha256 (consensus_encode h1)) (sha256 (consensus_encode h2)).
Proof.
  intros W1 W2 E. unfold header_hash, dhash256 in E.
  destruct (decide (h1 = h2)) as [->|Hne]; [now left|right].
  destruct (decide (sha256 (consensus_encode h1) = sha256 (consensus_encode h2))) as [E'|E'].
  - left. split; [|exact E']. intros Ee. now apply Hne, consensus_encode_inj.
  - right. now split.
Qed.

Lemma header_hash_binding_witness :
  header_hash example_header = header_hash example_header /\
  (example_header = example_header \/
   collides sha256 (consensus_encode example_header) (consensus_encode example_header) \/
   collides sha256 (sha256 (consensus_encode example_header)) (sha256 (consensus_encode example_header))).
Proof.
  split; [reflexivity|].
  apply (header_hash_binding example_header example_header);
    [apply (bool_decide_unpack _); vm_compute; exact I.. | reflexivity].
Defined.

Definition wf_key (k : BlockPrimaryKey) : Prop := is_u 32 (key_level k) /\ is_bytes 32 (key_hash k).

Lemma BlockPrimaryKey_decode_encode {E} k :
  wf_key k -> BlockPrimaryKey_decode (E:=E) (BlockPrimaryKey_encode k) = Ok k.
Proof.
  intros [Hl Hh]. unfold BlockPrimaryKey_decode, BlockPrimaryKey_encode.
  rewrite take_bytes_app by apply length_to_be. cbn [mbind result_bind].
  rewrite fixed_bytes_ok by apply Hh. cbn [mbind result_bind].
  rewrite from_to_be_id by assumption. now destruct k.
Qed.

Lemma bytes_cmp_app a1 a2 b1 b2 :
  length a1 = length a2 ->
  bytes_cmp (a1 ++ b1) (a2 ++ b2) = match bytes_cmp a1 a2 with Eq => bytes_cmp b1 b2 | c => c end.
Proof.
  revert a2. induction a1 as [|x a1 IH]; intros [|y a2] Hl; simpl in *; try discriminate; auto.
  injection Hl as Hl. destruct (x ?= y); auto.
Qed.

(** The key under which a block is stored decodes to the key, and the
    byte order of the database is the order by level, then hash: scanning the
    stored keys visits blocks by increasing level. *)
Theorem block_key_order k1 k2 :
  wf_key k1 -> wf_key k2 ->
  BlockPrimaryKey_decode (E:=unit) (BlockPrimaryKey_encode k1) = Ok k1 /\
  bytes_cmp (BlockPrimaryKey_encode k1) (BlockPrimaryKey_encode k2) = BlockPrimaryKey_cmp k1 k2.
Proof.
  intros W1 W2. split; [now apply BlockPrimaryKey_decode_encode|].
  destruct W1 as [L1 _], W2 as [L2 _]. unfold BlockPrimaryKey_encode, BlockPrimaryKey_cmp.
  rewrite bytes_cmp_app by now rewrite !length_to_be.
  rewrite (bytes_cmp_from_be 4), !from_to_be_id; auto with machine.
Qed.

Lemma block_key_order_witness :
  let k1 := {| key_level := 255; key_hash := repeat 9 32 |} in
  let k2 := {| key_level := 256; key_hash := repeat 1 32 |} in
  BlockPrimaryKey_decode (E:=unit) (BlockPrimaryKey_encode k1) = Ok k1 /\
  bytes_cmp (BlockPrimaryKey_encode k1) (BlockPrimaryKey_encode k2) = BlockPrimaryKey_cmp k1 k2.
Proof.
  apply block_key_order; (split; [unfold is_u; simpl; lia |
    apply (bool_decide_unpack _); vm_compute; exact I]).
Defined.

(** ** What a signature commits to *)

Definition wf_data (d : TransactionData) : Prop :=
  match d with
  | Payment to => is_bytes 44 to
  | Call app_id service method args => is_bytes 44 app_id /\ is_u 64 service /\ is_u 64 method
  | Update app_id _ _ => is_bytes 44 app_id
  | Create _ _ | RawData _ => True
  end.
Definition wf_tx (t : Transaction) : Prop :=
  is_u 64 (nonce t) /\ is_u 32 (tx_chain_id t) /\ is_bytes 32 (genesis_hash t) /\
  is_u 64 (fee t) /\ is_u 64 (value t) /\ (forall d, data t = Some d -> wf_data d).

(** Two [Create] payloads whose name and binary concatenate to the same bytes. *)
Definition same_create (d1 d2 : option TransactionData) : Prop :=
  match d1, d2 with
  | Some (Create n1 b1), Some (Create n2 b2) => utf8 n1 ++ b1 = utf8 n2 ++ b2
  | _, _ => False
  end.

(** The tag and fields of a payload, as [pack] writes them. *)
Definition pack_data (d : option TransactionData) : bytes :=
  match d with
  | None => []
  | Some (Payment to) => to_be 4 1 ++ to
  | Some (Call app_id service method args) =>
    to_be 4 2 ++ app_id ++ to_be 8 service ++ to_be 8 method ++ args
  | Some (Create package_name binary) => to_be 4 3 ++ utf8 package_name ++ binary
  | Some (Update app_id binary migrate) => to_be 4 4 ++ app_id ++ to_be 1 (Z.b2z migrate) ++ binary
  | Some (RawData v) => to_be 4 5 ++ v
  end.

Lemma pack_split t :
  pack t = to_be 8 (nonce t) ++ to_be 4 (tx_chain_id t) ++ genesis_hash t ++ to_be 8 (fee t)
           ++ to_be 8 (value t) ++ pack_data (data t).
Proof.
  unfold pack, pack_data. destruct (data t) as [[]|]; rewrite <- ?app_assoc; auto.
Qed.

(** Drop equal fixed-width fields from an equation between encodings. *)
Ltac peel E := apply app_inj_len in E as [? E];
  [| rewrite ?length_to_be; try reflexivity;
     repeat match goal with H : is_bytes _ _ |- _ => rewrite (proj1 H); clear H end; reflexivity].

Lemma pack_data_inj d1 d2 :
  (forall d, d1 = Some d -> wf_data d) -> (forall d, d2 = Some d -> wf_data d) ->
  pack_data d1 = pack_data d2 -> d1 = d2 \/ same_create d1 d2.
Proof.
  intros W1 W2 E.
  destruct d1 as [x|], d2 as [y|]; [| destruct x; discriminate | destruct y; discriminate | now left].
  specialize (W1 x eq_refl). specialize (W2 y eq_refl).
  destruct x, y; try discriminate E; simpl in W1, W2; unfold pack_data in E; peel E.
  - left. congruence.
  - destruct W1 as (A1 & S1 & M1), W2 as (A2 & S2 & M2). do 3 peel E.
    left. repeat f_equal; auto; eapply (to_be_inj 8); eauto.
  - right. exact E.
  - do 2 peel E. left. repeat f_equal; auto.
    match goal with H : to_be 1 _ = _ |- _ => revert H end.
    destruct migrate, migrate0; vm_compute; congruence.
  - left. congruence.
Qed.

(** The bytes a signature covers determine the transaction: two transactions
    that pack alike are equal, except for application creations, whose package
    name and binary are only determined up to where one ends and the other
    begins. *)
Theorem pack_determines t1 t2 :
  wf_tx t1 -> wf_tx t2 -> pack t1 = pack t2 ->
  t1 = t2 \/
  (same_create (data t1) (data t2) /\ nonce t1 = nonce t2 /\ tx_chain_id t1 = tx_chain_id t2 /\
   genesis_hash t1 = genesis_hash t2 /\ fee t1 = fee t2 /\ value t1 = value t2).
Proof.
  intros (N1 & C1 & G1 & F1 & V1 & D1) (N2 & C2 & G2 & F2 & V2 & D2) E.
  rewrite !pack_split in E. do 5 peel E.
  apply (to_be_inj 8) in H, H2, H3; try assumption. apply (to_be_inj 4) in H0; try assumption.
  destruct (pack_data_inj _ _ D1 D2 E) as [Ed|Hs]; [left | right; auto 10].
  destruct t1, t2; simpl in *; congruence.
Qed.

Definition example_payment (to : Address) : Transaction :=
  {| nonce := 1; tx_chain_id := 1; genesis_hash := H256_zero; fee := 2; value := 3;
     data := Some (Payment to) |}.

Lemma pack_determines_witness :
  wf_tx (example_payment (repeat 7 44)) /\
  (example_payment (repeat 7 44) = example_payment (repeat 7 44) \/ False).
Proof.
  assert (wf_tx (example_payment (repeat 7 44))) as W.
  { repeat split; try (simpl; unfold is_u; lia); try (repeat constructor; lia).
    intros d [= <-]. apply (bool_decide_unpack _). vm_compute. exact I. }
  split; [exact W|].
  destruct (pack_determines (example_payment (repeat 7 44)) (example_payment (repeat 7 44))
    W W eq_refl) as [H|[[] _]]. now left.
Defined.

Definition create_tx (name : string) (binary : bytes) : Transaction :=
  {| nonce := 1; tx_chain_id := 1; genesis_hash := H256_zero; fee := 2; value := 3;
     data := Some (Create (lit name) binary) |}.

(** The name of a created application can be extended with the first bytes
    of its binary without invalidating the signature: both transactions below
    are valid creations with the same signed hash but different addresses to
    create. *)
Theorem pack_create_ambiguous `{CryptoPrims} :
  let t1 := create_tx "com.example.app" [115; 0] in
  let t2 := create_tx "com.example.apps" [0] in
  t1 <> t2 /\ sig_hash t1 = sig_hash t2 /\
  PackageName_is_valid (lit "com.example.app") = Ok true /\
  PackageName_is_valid (lit "com.example.apps") = Ok true.
Proof. split; [discriminate|]. split; [unfold sig_hash; f_equal|]; vm_compute; auto. Qed.

(** The hash that identifies a transaction does not depend on who signed it:
    the same payload signed with two keys gives two transactions with one hash. *)
Theorem tx_hash_ignores_signer `{CryptoPrims} k1 k2 t st1 st2 :
  sign_tx k1 t = Ok st1 -> sign_tx k2 t = Ok st2 -> tx_hash st1 = tx_hash st2.
Proof.
  unfold sign_tx. intros E1 E2. apply bind_ok in E1 as (? & _ & E1), E2 as (? & _ & E2).
  apply bind_ok in E1 as (g1 & _ & [= <-]), E2 as (g2 & _ & [= <-]).
  unfold tx_hash, SignedTransaction_new.
  now destruct (Signature_rsv g1) as [[??]?], (Signature_rsv g2) as [[??]?].
Qed.

Lemma tx_hash_ignores_signer_witness :
  exists st1 st2,
    sign_tx (to_be 32 5) (example_payment (repeat 7 44)) = Ok st1 /\
    sign_tx (to_be 32 6) (example_payment (repeat 7 44)) = Ok st2 /\
    sender st1 <> sender st2 /\ tx_hash st1 = tx_hash st2.
Proof.
  do 2 eexists. split; [vm_compute; reflexivity|]. split; [vm_compute; reflexivity|].
  split; [vm_compute; congruence|].
  apply (tx_hash_ignores_signer (to_be 32 5) (to_be 32 6) (example_payment (repeat 7 44)));
    vm_compute; reflexivity.
Defined.

(** [Address::from_str] never reports a wrong length: a string that decodes
    as bech32 but is not 44 bytes long makes it panic. *)
Theorem address_from_str_panics s d :
  decode s = Ok d -> Z.of_nat (length (utf8 s)) < 2 ^ 63 -> length (utf8 s) <> ADDRESS_LEN ->
  Address_from_str s = Panic.
Proof.
  intros Hd Hlt Hl. unfold Address_from_str. set (n := Z.of_nat (length (utf8 s))) in *.
  rewrite (proj2 (Z.eqb_neq _ _)).
  2: { intros E. apply (f_equal (fun z => Z.testbit z 63)) in E. revert E.
       change (2 ^ 64 - 1) with (Z.ones 64).
       rewrite Z.lxor_spec, Z.ones_spec_low, (testbit_high 63) by lia. discriminate. }
  rewrite Hd. cbn [mbind result_bind]. unfold fixed_bytes. now rewrite decide_False.
Qed.

Lemma address_from_str_panics_witness : Address_from_str (lit "a12uel5l") = Panic.
Proof.
  apply (address_from_str_panics _ (lit "a", [], Bech32));
    [vm_compute; reflexivity | vm_compute; reflexivity | discriminate].
Defined.
