(* ===== verification/Consensus.v ===== *)
(** * Consensus

    The proof-of-work rules of src/consensus/src/barossa.rs with the constants of
    src/consensus/src/constants.rs and the block reward of
    src/consensus/src/lib.rs.  The chain is read through [ChainHeadReader], the
    trait of src/common/traits/src/lib.rs; the theorems are stated against it and
    hold for any storage that implements it. *)
From S2P Require Import Prelude Compact Crypto Types.

(** ** Constants *)

Definition BLOCK_MAX_FUTURE : Z := 2 * 60 * 60.
Definition RETARGETING_FACTOR : Z := 4.
Definition TARGET_SPACING_SECONDS : Z := 2 * 60.
Definition DOUBLE_SPACING_SECONDS : Z := 2 * TARGET_SPACING_SECONDS.
Definition TARGET_TIMESPAN_SECONDS : Z := 2 * 7 * 24 * 60 * 60.
Definition MIN_TIMESPAN : Z := TARGET_TIMESPAN_SECONDS / RETARGETING_FACTOR.
Definition MAX_TIMESPAN : Z := TARGET_TIMESPAN_SECONDS * RETARGETING_FACTOR.
Definition RETARGETING_INTERVAL : Z := TARGET_TIMESPAN_SECONDS / TARGET_SPACING_SECONDS.
Definition MAX_BLOCK_HEIGHT : Z := 25000000.
Definition INITIAL_REWARD : Z := 10 * 1000000000.
Definition SPREAD : Z := MAX_BLOCK_HEIGHT ^ 4 / INITIAL_REWARD.

(** [miner_reward]: [u128] arithmetic, then [as u64] in the trait method. *)
Definition miner_reward (block_height : Z) : Z :=
  u128 (INITIAL_REWARD - u128 (block_height ^ 4) / SPREAD).
Definition Barossa_miner_reward (block_level : Z) : Z := u64 (miner_reward block_level).

(** ** Reading the chain *)

Record IndexedBlockHeader := { ih_hash : H256; raw : BlockHeader }.

Record ChainHeadReader := {
  get_header : H256 -> Z -> result anyhow (option IndexedBlockHeader);
  get_header_by_hash : H256 -> result anyhow (option IndexedBlockHeader);
  get_header_by_level : Z -> result anyhow (option IndexedBlockHeader);
}.

Section Barossa.
Context `{CryptoPrims}.
Variable network : Network.
Variable chain : ChainHeadReader.

Definition from_raw (h : BlockHeader) : IndexedBlockHeader := {| ih_hash := header_hash h; raw := h |}.

(** ** Required work *)

Definition is_retarget_height (height : Z) : bool := height mod RETARGETING_INTERVAL =? 0.

Definition range_constrain (value min max : Z) : Z := Z.min (Z.max value min) max.

Definition retarget_timespan (retarget_timestamp last_timestamp : Z) : Z :=
  let timespan := i64 (last_timestamp - retarget_timestamp) in
  u32 (range_constrain timespan MIN_TIMESPAN MAX_TIMESPAN).

Definition work_required_retarget (parent_header : IndexedBlockHeader) (height max_work_bits : Z) :
    result anyhow Z :=
  let retarget_ref := u32 (height - RETARGETING_INTERVAL) in
  retarget_header ← unwrap_expect (get_header_by_level chain retarget_ref);
  let retarget_timestamp := time (raw retarget_header) in
  let last_timestamp := time (raw parent_header) in
  let last_bits := difficulty (raw parent_header) in
  let retarget := U256_from_compact last_bits in
  let maximum := U256_from_compact max_work_bits in
  retarget ← U256_mul retarget (retarget_timespan retarget_timestamp last_timestamp);
  retarget ← U256_div retarget TARGET_TIMESPAN_SECONDS;
  if maximum <? retarget then Ok max_work_bits else from_u256 retarget.

(** The two loops of [work_required_testnet]: the difficulties of up to [n]
    ancestors, then the first one that is not the minimum-difficulty exception. *)
Fixpoint ancestor_bits (n : nat) (block_ref : H256) : result anyhow (list Z) :=
  match n with
  | O => Ok []
  | S n =>
    match get_header_by_hash chain block_ref with
    | Ok (Some previous_header) =>
      bits ← ancestor_bits n (parent_hash (raw previous_header));
      Ok (difficulty (raw previous_header) :: bits)
    | Ok None => Ok []
    | _ => Panic
    end
  end.

Fixpoint first_real_bits (bits : list Z) (index height max_bits : Z) : Z :=
  match bits with
  | [] => max_bits
  | bit :: bits =>
    if negb (bit =? max_bits) || is_retarget_height (u32 (u32 (height - u32 index) - 1)) then bit
    else first_real_bits bits (index + 1) height max_bits
  end.

Definition work_required_testnet (parent_hash : H256) (time_ height : Z) : result anyhow Z :=
  if height =? 0 then Panic
  else
    parent_header ← unwrap_expect (get_header_by_hash chain parent_hash);
    let max_time_gap := u32 (time (raw parent_header) + DOUBLE_SPACING_SECONDS) in
    max_bits ← max_difficulty_compact network;
    if max_time_gap <? time_ then Ok max_bits
    else
      bits ← ancestor_bits (Z.to_nat RETARGETING_INTERVAL) parent_hash;
      Ok (first_real_bits bits 0 height max_bits).

Definition work_required (parent_hash : H256) (time_ height : Z) : result anyhow Z :=
  max_bits ← max_difficulty_compact network;
  if height =? 0 then Ok max_bits
  else
    parent_header ← unwrap_expect (get_header_by_hash chain parent_hash);
    if is_retarget_height height then work_required_retarget parent_header height max_bits
    else if bool_decide (network = Testnet) then work_required_testnet parent_hash time_ height
    else Ok (difficulty (raw parent_header)).

(** ** The adjusted algorithm ([work_required_adjusted], not called yet) *)

Definition suitable_block (header2 : IndexedBlockHeader) : result anyhow IndexedBlockHeader :=
  header1 ← unwrap_expect (get_header_by_hash chain (parent_hash (raw header2)));
  header0 ← unwrap_expect (get_header_by_hash chain (parent_hash (raw header1)));
  let '(header0, header2) :=
    if time (raw header2) <? time (raw header0) then (header2, header0) else (header0, header2) in
  let '(header0, header1) :=
    if time (raw header1) <? time (raw header0) then (header1, header0) else (header0, header1) in
  let '(header1, header2) :=
    if time (raw header2) <? time (raw header1) then (header2, header1) else (header1, header2) in
  Ok header1.

Definition block_proof (header : IndexedBlockHeader) : result anyhow Z :=
  match to_u256 (difficulty (raw header)) with
  | Ok proof =>
    d ← U256_add proof 1;
    q ← U256_div (U256_not proof) d;
    U256_add q 1
  | _ => Panic
  end.

(** [None]: more than [fuel] ancestors were visited. *)
Fixpoint work_between_loop (fuel : nat) (first prev_hash : H256) (chain_work : Z) :
    option (result anyhow Z) :=
  match fuel with
  | O => None
  | S fuel =>
    match (header ← unwrap_expect (get_header_by_hash chain prev_hash);
           proof ← block_proof header;
           chain_work ← U256_add chain_work proof;
           Ok (parent_hash (raw header), chain_work)) with
    | Ok (prev_hash, chain_work) =>
      if bool_decide (prev_hash = first) then Some (Ok chain_work)
      else work_between_loop fuel first prev_hash chain_work
    | Err e => Some (Err e)
    | Panic => Some Panic
    end
  end.

Definition compute_work_between_blocks (fuel : nat) (first : H256) (last : IndexedBlockHeader) :
    option (result anyhow Z) :=
  match block_proof last with
  | Ok chain_work => work_between_loop fuel first (parent_hash (raw last)) chain_work
  | Err e => Some (Err e)
  | Panic => Some Panic
  end.

Definition clamp_timespan (first_time last_time : Z) : Z :=
  let actual_timespan := u32 (last_time - first_time) in
  if 288 * TARGET_SPACING_SECONDS <? actual_timespan then 288 * TARGET_SPACING_SECONDS
  else if actual_timespan <? 72 * TARGET_SPACING_SECONDS then 72 * TARGET_SPACING_SECONDS
  else actual_timespan.

Definition compute_target (fuel : nat) (first_header last_header : IndexedBlockHeader) :
    option (result anyhow Z) :=
  r ← compute_work_between_blocks fuel (ih_hash first_header) last_header;
  Some (work ← r;
        work ← U256_mul work TARGET_SPACING_SECONDS;
        work ← U256_div work (clamp_timespan (time (raw first_header)) (time (raw last_header)));
        U256_div (U256_not work) work).

Definition work_required_adjusted (fuel : nat) (parent_header : IndexedBlockHeader) (time_ level_ : Z) :
    option (result anyhow Z) :=
  match from_u256 (max_difficulty network) with
  | Ok max_bits =>
    if bool_decide (network = Testnet)
       && (u32 (time (raw parent_header) + DOUBLE_SPACING_SECONDS) <? time_)
    then Some (Ok max_bits)
    else
      let last_level := u32 (level_ - 1) in
      let first_level := u32 (last_level - 144) in
      match (last_header ← suitable_block parent_header;
             first_header ← unwrap_expect (get_header_by_level chain first_level);
             first_header ← suitable_block first_header;
             Ok (first_header, last_header)) with
      | Ok (first_header, last_header) =>
        r ← compute_target fuel first_header last_header;
        Some (next_target ← r;
              let max_bits := max_difficulty network in
              if max_bits <? next_target then from_u256 max_bits else from_u256 next_target)
      | Err e => Some (Err e)
      | Panic => Some Panic
      end
  | Err e => Some (Err e)
  | Panic => Some Panic
  end.

(** ** The [Consensus] trait *)

(** [current_time] is the clock, in seconds. *)
Definition verify_header (current_time : Z) (header : BlockHeader) : result anyhow unit :=
  parent ← get_header chain (parent_hash header) (u32 (level header - 1));
  _ ← ok_or_else parent "parent block not found";
  _ ← ensure (i64 (time header) <? i64 (BLOCK_MAX_FUTURE + current_time)) "future block timestamp"%string;
  max ← from_u256 (max_difficulty network);
  ensure (is_valid_proof_of_work max (difficulty header) (header_hash header)) "bad proof of work"%string.

Definition set_work (h : BlockHeader) (id bits : Z) : BlockHeader :=
  {| parent_hash := parent_hash h; receipt_hash := receipt_hash h; tx_root := tx_root h;
     state_root := state_root h; mix_nonce := mix_nonce h; coinbase := coinbase h;
     difficulty := bits; header_chain_id := id; level := level h; time := time h;
     header_nonce := header_nonce h |}.

Definition prepare_header (header : BlockHeader) : result anyhow BlockHeader :=
  parent ← get_header chain (parent_hash header) (u32 (level header - 1));
  parent ← ok_or_else parent "parent block not found";
  bits ← work_required (ih_hash parent) (time header) (u32 (level header + 1));
  Ok (set_work header (chain_id network) bits).

(** The trait's [work_required] *)
Definition Consensus_work_required (parent : H256) (time_ : Z) : result anyhow Z :=
  parent_header ← get_header_by_hash chain parent;
  parent_header ← ok_or_else parent_header "parent block not found";
  work_required (ih_hash parent_header) time_ (u32 (level (raw parent_header) + 1)).

Definition get_genesis_header : result anyhow BlockHeader :=
  bits ← max_difficulty_compact network;
  Ok {| parent_hash := H256_zero; receipt_hash := H256_zero; tx_root := H256_zero;
        state_root := [167; 166; 177; 200; 75; 77; 145; 25; 149; 154; 251; 233; 94; 46; 215; 162;
                       118; 43; 119; 114; 196; 232; 42; 88; 209; 4; 27; 184; 193; 138; 143; 109];
        mix_nonce := 0; coinbase := Address_default; difficulty := bits;
        header_chain_id := chain_id network; level := 0; time := 0; header_nonce := 0 |}.

End Barossa.

(** ** Targets *)

(** The largest target of a network, as the compact encoding denotes it. *)
Definition maximum_target (n : Network) : Z :=
  match max_difficulty_compact (E:=unit) n with Ok c => U256_from_compact c | _ => 0 end.

(** The bits of a header whose target the network allows; what
    [is_valid_proof_of_work] checks of them. *)
Definition allowed_bits (n : Network) (bits t : Z) : Prop :=
  is_u 32 bits /\ to_u256 bits = Ok t /\ 0 <= t <= maximum_target n.

Lemma max_bits_allowed {E} n :
  exists c, max_difficulty_compact (E:=E) n = Ok c /\ U256_from_compact c = maximum_target n /\
    allowed_bits n c (maximum_target n).
Proof.
  destruct n; eexists; (split; [vm_compute; reflexivity|]); (split; [vm_compute; reflexivity|]);
    (split; [vm_compute; intuition congruence|]); (split; [vm_compute; reflexivity|]);
    vm_compute; intuition congruence.
Qed.

(** Scaling the largest target by the longest timespan stays below 2^256. *)
Lemma maximum_target_bound n : 0 <= maximum_target n /\ maximum_target n * MAX_TIMESPAN < 2 ^ 256.
Proof. destruct n; vm_compute; intuition congruence. Qed.

Lemma retarget_timespan_bounds a b :
  is_u 32 a -> is_u 32 b -> MIN_TIMESPAN <= retarget_timespan a b <= MAX_TIMESPAN.
Proof.
  unfold is_u. intros Ha Hb. unfold retarget_timespan, range_constrain.
  change MIN_TIMESPAN with 302400. change MAX_TIMESPAN with 4838400.
  rewrite swrap_id by lia. rewrite wrap_id by (unfold is_u; lia). lia.
Qed.

Lemma U256_from_compact_ok c t : to_u256 c = Ok t -> U256_from_compact c = t.
Proof. unfold U256_from_compact. now intros ->. Qed.

(** Scaling a target [last] by a timespan within a factor four of the nominal one. *)
Lemma retarget_scaling last span :
  0 <= last -> MIN_TIMESPAN <= span <= MAX_TIMESPAN ->
  last / 4 <= last * span / TARGET_TIMESPAN_SECONDS <= 4 * last.
Proof.
  change MIN_TIMESPAN with 302400. change MAX_TIMESPAN with 4838400.
  change TARGET_TIMESPAN_SECONDS with 1209600. intros Hl Hs. split.
  - apply Z.div_le_lower_bound; [lia|]. assert (4 * (last / 4) <= last) by dlia. nia.
  - apply Z.div_le_upper_bound; [lia|]. nia.
Qed.

Section Retarget.
Context `{CryptoPrims}.
Variables (network : Network) (chain : ChainHeadReader).

Lemma retarget_ok parent height max_bits ref last :
  max_difficulty_compact (E:=anyhow) network = Ok max_bits ->
  allowed_bits network (difficulty (raw parent)) last -> is_u 32 (time (raw parent)) ->
  get_header_by_level chain (u32 (height - RETARGETING_INTERVAL)) = Ok (Some ref) ->
  is_u 32 (time (raw ref)) ->
  exists bits t, work_required_retarget chain parent height max_bits = Ok bits /\
    allowed_bits network bits t /\ t <= 4 * last /\ last / 4 * (2 ^ 15 - 1) <= t * 2 ^ 15.
Proof.
  intros Hmax (Hd & Hu & Hlast) Ht Href Hrt. unfold work_required_retarget.
  rewrite Href. cbn [unwrap_expect mbind result_bind]. rewrite (U256_from_compact_ok _ _ Hu).
  destruct (max_bits_allowed (E:=anyhow) network) as (c & Ec & Em & Ha).
  assert (c = max_bits) as -> by congruence. rewrite Em.
  pose proof (retarget_timespan_bounds _ _ Hrt Ht) as Hspan.
  set (span := retarget_timespan (time (raw ref)) (time (raw parent))) in *.
  pose proof (maximum_target_bound network) as [Hm0 Hm].
  change MAX_TIMESPAN with 4838400 in *. change MIN_TIMESPAN with 302400 in *.
  assert (0 <= last * span < 2 ^ 256) as Hmul by nia.
  unfold U256_mul. rewrite (proj2 (Z.ltb_lt _ _)) by lia. cbn [mbind result_bind].
  unfold U256_div. change (TARGET_TIMESPAN_SECONDS =? 0) with false. cbn [mbind result_bind].
  pose proof (retarget_scaling last span ltac:(lia) Hspan) as Hr.
  set (r := last * span / TARGET_TIMESPAN_SECONDS) in *.
  destruct (Z.ltb_spec (maximum_target network) r) as [Hgt|Hle].
  - exists max_bits, (maximum_target network). repeat split; try apply Ha; try lia. dlia.
  - destruct (from_u256_decodes (E:=anyhow) r) as (bits & t & E1 & E2 & E3 & E4 & E5).
    { unfold is_u. pose proof (Z.div_pos last 4). dlia. }
    pose proof (to_u256_bound _ _ E2 E3) as [Ht0 _].
    exists bits, t. split; [exact E1|]. repeat split; try apply E2; auto; try lia.
Qed.
End Retarget.

(** ** Required work on a chain of valid headers *)

(** A reader that never fails and whose headers carry allowed targets. *)
Record valid_chain (n : Network) (chain : ChainHeadReader) : Prop := {
  chain_reads h : exists o, get_header_by_hash chain h = Ok o;
  chain_targets h ih : get_header_by_hash chain h = Ok (Some ih) ->
    is_u 32 (time (raw ih)) /\ exists t, allowed_bits n (difficulty (raw ih)) t;
}.

Section WorkRequired.
Context `{CryptoPrims}.
Variables (network : Network) (chain : ChainHeadReader).
Hypothesis Hchain : valid_chain network chain.

Lemma ancestor_bits_allowed n block_ref :
  exists bits, ancestor_bits chain n block_ref = Ok bits /\
    Forall (fun b => exists t, allowed_bits network b t) bits.
Proof.
  revert block_ref. induction n as [|n IH]; intros r; [exists []; auto|]. cbn [ancestor_bits].
  destruct (chain_reads _ _ Hchain r) as [[ih|] E]; rewrite E; [|exists []; auto].
  destruct (IH (parent_hash (raw ih))) as (bits & -> & Hb). cbn [mbind result_bind].
  eexists. split; [reflexivity|]. constructor; [|exact Hb].
  now destruct (chain_targets _ _ Hchain _ _ E).
Qed.

Lemma first_real_bits_in bits i height max_bits :
  first_real_bits bits i height max_bits = max_bits \/
  In (first_real_bits bits i height max_bits) bits.
Proof.
  revert i. induction bits as [|b bits IH]; intros i; cbn [first_real_bits]; [now left|].
  destruct (_ || _); [right; now left|]. destruct (IH (i + 1)); [now left | right; now right].
Qed.

Lemma work_required_testnet_allowed parent_hash time_ height ih :
  height <> 0 -> get_header_by_hash chain parent_hash = Ok (Some ih) ->
  exists bits t, work_required_testnet network chain parent_hash time_ height = Ok bits /\
    allowed_bits network bits t.
Proof.
  intros Hh E. unfold work_required_testnet. rewrite (proj2 (Z.eqb_neq height 0) Hh), E.
  destruct (max_bits_allowed (E:=anyhow) network) as (c & -> & _ & Ha).
  cbn [unwrap_expect mbind result_bind]. destruct (_ <? time_); [eauto|].
  destruct (ancestor_bits_allowed (Z.to_nat RETARGETING_INTERVAL) parent_hash) as (bits & -> & Hb).
  cbn [mbind result_bind]. destruct (first_real_bits_in bits 0 height c) as [->|Hin]; [eauto|].
  rewrite Forall_forall in Hb. destruct (Hb _ Hin) as [t Ht]. eauto.
Qed.

(** C25 On a chain whose headers all carry targets the network allows, the work
    required of the next block is defined (no arithmetic overflow and no failed
    lookup) and its target is again one the network allows, at a retarget height
    and between two of them, on every network. *)
Theorem work_required_allowed parent_hash time_ height ih ref :
  get_header_by_hash chain parent_hash = Ok (Some ih) ->
  (is_retarget_height height = true -> height <> 0 ->
   get_header_by_level chain (u32 (height - RETARGETING_INTERVAL)) = Ok (Some ref) /\
   is_u 32 (time (raw ref))) ->
  exists bits t, work_required network chain parent_hash time_ height = Ok bits /\
    allowed_bits network bits t.
Proof.
  intros E Href. unfold work_required.
  destruct (max_bits_allowed (E:=anyhow) network) as (c & Ec & _ & Ha). rewrite Ec.
  cbn [mbind result_bind]. destruct (Z.eqb_spec height 0) as [|Hne]; [eauto|].
  rewrite E. cbn [unwrap_expect mbind result_bind].
  destruct (chain_targets _ _ Hchain _ _ E) as (Ht & t & Hal).
  destruct (is_retarget_height height).
  - destruct (Href eq_refl Hne) as [Hl Hr].
    destruct (retarget_ok _ _ _ _ _ _ _ Ec Hal Ht Hl Hr) as (bits & t' & Hw & Hb & _). eauto.
  - case_bool_decide; [|eauto]. eapply work_required_testnet_allowed; eassumption.
Qed.
End WorkRequired.

(** A reader whose every lookup finds the header [h]. *)
Definition constant_reader (h : IndexedBlockHeader) : ChainHeadReader :=
  {| get_header _ _ := Ok (Some h); get_header_by_hash _ := Ok (Some h);
     get_header_by_level _ := Ok (Some h) |}.

Definition example_indexed (bits level_ time_ : Z) : IndexedBlockHeader :=
  {| ih_hash := H256_zero;
     raw := {| parent_hash := H256_zero; receipt_hash := H256_zero; tx_root := H256_zero;
               state_root := H256_zero; mix_nonce := 0; coinbase := Address_default;
               difficulty := bits; header_chain_id := 2; level := level_; time := time_;
               header_nonce := 0 |} |}.

Lemma example_valid_chain n bits t lv tm :
  allowed_bits n bits t -> is_u 32 tm ->
  valid_chain n (constant_reader (example_indexed bits lv tm)).
Proof.
  intros Hb Ht. split; [eexists; reflexivity|]. intros h ih [= <-]. simpl. eauto.
Qed.

Lemma work_required_allowed_witness :
  exists bits t,
    work_required Alphanet (constant_reader (example_indexed 0x1c0fff00 10079 1000)) H256_zero 1000 10080
    = Ok bits /\ allowed_bits Alphanet bits t.
Proof.
  apply (work_required_allowed Alphanet (constant_reader (example_indexed 0x1c0fff00 10079 1000))
    ltac:(apply (example_valid_chain Alphanet 0x1c0fff00 (0x0fff00 * 256 ^ 25));
          [vm_compute; intuition congruence | vm_compute; intuition congruence])
    H256_zero 1000 10080 (example_indexed 0x1c0fff00 10079 1000) (example_indexed 0x1c0fff00 10079 1000));
    [reflexivity | intros _ _; split; [reflexivity | vm_compute; intuition congruence]].
Defined.

(** C26 A retarget moves the target by at most a factor four: the new target is
    at most four times the last one, and at least a quarter of it up to the
    rounding of the compact encoding; the 256-bit product never overflows. *)
Theorem retarget_bounds `{CryptoPrims} network chain parent height max_bits ref last :
  max_difficulty_compact (E:=anyhow) network = Ok max_bits ->
  allowed_bits network (difficulty (raw parent)) last -> is_u 32 (time (raw parent)) ->
  get_header_by_level chain (u32 (height - RETARGETING_INTERVAL)) = Ok (Some ref) ->
  is_u 32 (time (raw ref)) ->
  exists bits t, work_required_retarget chain parent height max_bits = Ok bits /\
    allowed_bits network bits t /\ t <= 4 * last /\ last / 4 * (2 ^ 15 - 1) <= t * 2 ^ 15.
Proof. apply retarget_ok. Qed.

Lemma retarget_bounds_witness :
  exists bits t, work_required_retarget (constant_reader (example_indexed 0x1c0fff00 0 1000))
      (example_indexed 0x1c0fff00 10079 700000) 10080 0x1d0fff00 = Ok bits /\
    allowed_bits Alphanet bits t /\ t <= 4 * (0x0fff00 * 256 ^ 25) /\
    0x0fff00 * 256 ^ 25 / 4 * (2 ^ 15 - 1) <= t * 2 ^ 15.
Proof.
  apply (retarget_bounds Alphanet (constant_reader (example_indexed 0x1c0fff00 0 1000))
    (example_indexed 0x1c0fff00 10079 700000) 10080 0x1d0fff00 (example_indexed 0x1c0fff00 0 1000));
    vm_compute; intuition congruence.
Defined.

(** ** Work of a block *)

(** An accepted compact target is never the largest 256-bit number. *)
Lemma to_u256_not_max c t : is_u 32 c -> to_u256 c = Ok t -> t + 1 < 2 ^ 256.
Proof.
  intros Hc E. pose proof (to_u256_spec c Hc) as S. cbv zeta in S.
  destruct S as [(v & E' & Hv & F)|(v & E' & _)]; rewrite E in E'; [|discriminate].
  injection E' as <-. pose proof (compact_value_bound _ _ F) as B. rewrite <- Hv in B.
  unfold compact_value, is_u in *. destruct F as (Hm & Hs & _).
  destruct (Z.leb_spec (c / 2 ^ 24) 3).
  - assert (t <= c mod 2 ^ 23); [|lia]. subst t. apply Z.div_le_upper_bound; [lia|].
    assert (0 < 2 ^ (8 * (3 - c / 2 ^ 24))) by lia. nia.
  - assert (t <> 2 ^ 256 - 1); [|lia]. intros Et. rewrite Hv in Et.
    apply (f_equal Z.odd) in Et.
    replace (8 * (c / 2 ^ 24 - 3)) with (1 + (8 * (c / 2 ^ 24 - 3) - 1)) in Et by lia.
    rewrite Z.pow_add_r, !Z.odd_mul in Et by lia. simpl in Et.
    rewrite andb_false_r in Et. discriminate.
Qed.

(** The work of a block is 2^256 / (target + 1), although 2^256 does not fit
    in the 256-bit arithmetic that computes it. *)
Theorem block_proof_exact h t :
  is_u 32 (difficulty (raw h)) -> to_u256 (difficulty (raw h)) = Ok t -> 0 < t ->
  block_proof h = Ok (2 ^ 256 / (t + 1)).
Proof.
  intros Hd E Ht. pose proof (to_u256_not_max _ _ Hd E) as Hmax.
  unfold block_proof. rewrite E. unfold U256_add, U256_div.
  rewrite (proj2 (Z.ltb_lt (t + 1) _)) by lia. cbn [mbind result_bind].
  rewrite (proj2 (Z.eqb_neq (t + 1) 0)) by lia. cbn [mbind result_bind].
  unfold U256_not, U256_MAX.
  assert ((2 ^ 256 - 1 - t) / (t + 1) + 1 = 2 ^ 256 / (t + 1)) as Eq.
  { replace (2 ^ 256) with ((2 ^ 256 - 1 - t) + 1 * (t + 1)) at 2 by lia.
    rewrite Z.div_add by lia. lia. }
  rewrite Eq, (proj2 (Z.ltb_lt _ _)); [reflexivity|].
  apply Z.div_lt; lia.
Qed.

Lemma block_proof_exact_witness :
  block_proof (example_indexed 0x1d00ffff 1 1) = Ok (2 ^ 256 / (0xffff * 256 ^ 26 + 1)).
Proof.
  apply block_proof_exact; [vm_compute; intuition congruence | vm_compute; reflexivity | lia].
Defined.

(** The block the adjusted retarget starts from is one of the last three
    headers, and its time is the median of their times. *)
Theorem suitable_block_median chain h2 h1 h0 :
  get_header_by_hash chain (parent_hash (raw h2)) = Ok (Some h1) ->
  get_header_by_hash chain (parent_hash (raw h1)) = Ok (Some h0) ->
  let a := time (raw h0) in let b := time (raw h1) in let c := time (raw h2) in
  exists h, suitable_block chain h2 = Ok h /\ (h = h0 \/ h = h1 \/ h = h2) /\
    time (raw h) = Z.max (Z.min a b) (Z.min (Z.max a b) c).
Proof.
  intros E1 E0 a b c. unfold suitable_block.
  rewrite E1. cbn [unwrap_expect mbind result_bind]. rewrite E0. cbn [unwrap_expect mbind result_bind].
  subst a b c.
  destruct (Z.ltb_spec (time (raw h2)) (time (raw h0)));
  match goal with |- context [Z.ltb ?x ?y] => destruct (Z.ltb_spec x y) end;
  match goal with |- context [Z.ltb ?x ?y] => destruct (Z.ltb_spec x y) end;
  eexists; (split; [reflexivity|]); (split; [tauto | lia]).
Qed.

(** Three headers linked by their parent hashes, with times 5, 9 and 7. *)
Definition example_at (own parent : Z) (time_ : Z) : IndexedBlockHeader :=
  {| ih_hash := repeat own 32;
     raw := {| parent_hash := repeat parent 32; receipt_hash := H256_zero; tx_root := H256_zero;
               state_root := H256_zero; mix_nonce := 0; coinbase := Address_default;
               difficulty := 0x1d00ffff; header_chain_id := 2; level := own; time := time_;
               header_nonce := 0 |} |}.
Definition example_chain : ChainHeadReader :=
  let by_hash h := if bool_decide (h = repeat 1 32) then Ok (Some (example_at 1 0 5))
                   else if bool_decide (h = repeat 2 32) then Ok (Some (example_at 2 1 9))
                   else Ok None in
  {| get_header h _ := by_hash h; get_header_by_hash := by_hash; get_header_by_level _ := Ok None |}.

Lemma suitable_block_median_witness :
  exists h, suitable_block example_chain (example_at 3 2 7) = Ok h /\
    (h = example_at 1 0 5 \/ h = example_at 2 1 9 \/ h = example_at 3 2 7) /\ time (raw h) = 7.
Proof.
  apply (suitable_block_median example_chain (example_at 3 2 7) (example_at 2 1 9) (example_at 1 0 5));
    reflexivity.
Defined.

(** ** Block rewards *)

Lemma SPREAD_value : SPREAD = 39062500000000000000.
Proof. reflexivity. Qed.

(** Up to the last rewarded height the block reward is the polynomial
    schedule: no intermediate value wraps, it starts at the initial reward, it
    never increases and it reaches zero. *)
Theorem miner_reward_schedule h :
  0 <= h <= MAX_BLOCK_HEIGHT ->
  Barossa_miner_reward h = INITIAL_REWARD - h ^ 4 / SPREAD /\
  0 <= Barossa_miner_reward h <= INITIAL_REWARD /\
  (forall h', h <= h' <= MAX_BLOCK_HEIGHT -> Barossa_miner_reward h' <= Barossa_miner_reward h) /\
  Barossa_miner_reward 0 = INITIAL_REWARD /\ Barossa_miner_reward MAX_BLOCK_HEIGHT = 0.
Proof.
  assert (forall x, 0 <= x <= MAX_BLOCK_HEIGHT ->
    Barossa_miner_reward x = INITIAL_REWARD - x ^ 4 / SPREAD /\ 0 <= x ^ 4 / SPREAD <= INITIAL_REWARD)
    as Spec.
  { intros x Hx. unfold Barossa_miner_reward, miner_reward.
    assert (0 <= x ^ 4 <= MAX_BLOCK_HEIGHT ^ 4) as Hp
      by (split; [apply Z.pow_nonneg | apply Z.pow_le_mono_l]; lia).
    assert (0 <= x ^ 4 / SPREAD <= INITIAL_REWARD) as Hq.
    { split; [apply Z.div_pos; [lia|reflexivity]|].
      apply Z.div_le_upper_bound; [reflexivity|]. exact (proj2 Hp). }
    change (MAX_BLOCK_HEIGHT ^ 4) with 390625000000000000000000000000 in Hp.
    change INITIAL_REWARD with 10000000000 in *.
    rewrite (wrap_id 128 (x ^ 4)), (wrap_id 128), wrap_id by (unfold is_u; lia). auto. }
  intros Hh. destruct (Spec h Hh) as [-> Hq]. repeat split; try lia; try reflexivity.
  intros h' Hh'. destruct (Spec h' ltac:(lia)) as [-> _].
  assert (h ^ 4 / SPREAD <= h' ^ 4 / SPREAD); [|lia].
  apply Z.div_le_mono; [reflexivity|]. apply Z.pow_le_mono_l. lia.
Qed.

Lemma miner_reward_schedule_witness :
  Barossa_miner_reward 1000000 = INITIAL_REWARD - 1000000 ^ 4 / SPREAD /\
  Barossa_miner_reward 2000000 <= Barossa_miner_reward 1000000.
Proof.
  destruct (miner_reward_schedule 1000000) as (E & _ & M & _); [vm_compute; intuition congruence|].
  split; [exact E | apply M; vm_compute; intuition congruence].
Defined.

(** Above the last rewarded height the reward wraps around: every block
    beyond level 25,000,000 is paid more than 2^63 units. *)
Theorem miner_reward_wraps h :
  MAX_BLOCK_HEIGHT < h < 2 ^ 32 -> 2 ^ 63 < Barossa_miner_reward h.
Proof.
  intros Hh. unfold Barossa_miner_reward, miner_reward. rewrite SPREAD_value.
  change MAX_BLOCK_HEIGHT with 25000000 in Hh. change INITIAL_REWARD with 10000000000.
  assert (25000001 ^ 4 <= h ^ 4 <= (2 ^ 32 - 1) ^ 4) as Hp by (split; apply Z.pow_le_mono_l; lia).
  change (25000001 ^ 4) with 390625062500003750000100000001 in Hp.
  change ((2 ^ 32 - 1) ^ 4) with 340282366604025813516997721482669850625 in Hp.
  rewrite (wrap_id 128 (h ^ 4)) by (unfold is_u; lia).
  set (q := h ^ 4 / 39062500000000000000).
  assert (10000000001 <= q <= 8711228585063060826) as Hq.
  { split; [apply Z.div_le_lower_bound | apply Z.lt_succ_r, Z.div_lt_upper_bound]; lia. }
  unfold wrap. rewrite Z.mod_mod_divide by (exists (2 ^ 64); reflexivity).
  replace ((10000000000 - q) mod 2 ^ 64) with (2 ^ 64 + 10000000000 - q); [lia|].
  apply Z.mod_unique with (-1); lia.
Qed.

Lemma miner_reward_wraps_witness : 2 ^ 63 < Barossa_miner_reward 25000001.
Proof. apply miner_reward_wraps. vm_compute. intuition congruence. Defined.

(** ** Which height the required work is for *)

(** [prepare_header] asks for the work of the level after the header's own:
    at the header just before a retarget level it already retargets, while the
    trait's [work_required] for the same parent does not. *)
Theorem prepare_header_height `{CryptoPrims} :
  let bits := 0x1c0fff00 in
  let chain := constant_reader (example_indexed bits (RETARGETING_INTERVAL - 2) 1000) in
  let child := raw (example_indexed bits (RETARGETING_INTERVAL - 1) 1000) in
  exists h b, prepare_header Alphanet chain child = Ok h /\
    Consensus_work_required Alphanet chain (parent_hash child) (time child) = Ok b /\
    is_retarget_height (level child) = false /\ b = bits /\ difficulty h <> b.
Proof. do 2 eexists. repeat (split; [vm_compute; reflexivity|]). vm_compute. congruence. Qed.
