(* ===== verification/Smt.v ===== *)
(** * Sparse Merkle tree: the code

    The 256-level sparse Merkle tree of src/smt/src/: the node store, the hasher,
    lookups of the side nodes of a path, insertion, deletion, proofs and their
    verification.  Nodes are byte strings stored under their hash, as in the
    source; SmtTree.v gives the tree they describe and SmtProofs.v relates the
    two. *)
From S2P Require Import Prelude Crypto Types.

Inductive SmtError :=
| KeyAlreadyEmpty
| NonMembershipPathError (actual_path path : bytes)
| StorageError
| StorageErrorKeyNotFound
| BadProof (updates : list (list bytes)).

(** ** Storage (lib.rs, [MemoryStorage]) *)

Abbreviation MemoryStorage := (gmap (list Z) (list Z)).
Definition StorageBackendSnapshot := list (bytes * bytes).

Definition Storage_put (key value : bytes) : stM MemoryStorage SmtError unit := modify (<[key := value]>).
Definition Storage_get (data : MemoryStorage) (key : bytes) : result SmtError bytes :=
  ok_or (data !! key) StorageErrorKeyNotFound.
Definition Storage_delete (key : bytes) : stM MemoryStorage SmtError unit := fun data =>
  if bool_decide (is_Some (data !! key)) then (Ok tt, delete key data) else (Err StorageError, data).
Definition get_or_default (data : MemoryStorage) (key dflt : bytes) : result SmtError bytes :=
  Ok (default dflt (data !! key)).
(** [BTreeMap] iteration is by increasing key. *)
Definition key_le (a b : bytes * bytes) : Prop := bytes_cmp a.1 b.1 <> Gt.
#[export] Instance key_le_dec a b : Decision (key_le a b).
Proof. unfold key_le. apply _. Defined.
Definition snapshot (data : MemoryStorage) : StorageBackendSnapshot := merge_sort key_le (map_to_list data).
Definition from_snapshot (l : StorageBackendSnapshot) : MemoryStorage :=
  fold_left (fun data '(k, v) => <[k := v]> data) l ∅.

(** ** Bits (utils.rs) *)

Definition get_bits_at_from_msb {E} (data : bytes) (position : nat) : result E Z :=
  b ← unwrap (data !! (position / 8)%nat);
  let t := Z.land b (Z.shiftl 1 (8 - 1 - Z.of_nat position mod 8)) in
  Ok (if 0 <? t then 1 else 0).

Fixpoint common_prefix_loop {E} (n i : nat) (lhs rhs : bytes) (count : nat) : result E nat :=
  match n with
  | O => Ok count
  | S n =>
    a ← get_bits_at_from_msb lhs i;
    b ← get_bits_at_from_msb rhs i;
    if a =? b then common_prefix_loop n (S i) lhs rhs (S count) else Ok count
  end.
Definition count_common_prefix {E} (lhs rhs : bytes) : result E nat :=
  common_prefix_loop (length lhs * 8) 0 lhs rhs 0.

(** ** Hashing (treehasher.rs, constants.rs) *)

Definition LEAF_PREFIX : bytes := [0].
Definition NODE_PREFIX : bytes := [1].
Definition HASH_LEN : nat := 32.

Definition parse_hashes {E} (data : bytes) : result E (bytes * bytes) :=
  '(_, rest) ← take_bytes 1 data; take_bytes HASH_LEN rest.
Definition parse_leaf {E} (data : bytes) : result E (bytes * bytes) := parse_hashes data.
Definition parse_node {E} (data : bytes) : result E (bytes * bytes) := parse_hashes data.
Definition is_leaf {E} (data : bytes) : result E bool :=
  '(p, _) ← take_bytes 1 data; Ok (bool_decide (p = LEAF_PREFIX)).
Definition placeholder : H256 := H256_zero.
Definition is_zero_hash (h : H256) : bool := bool_decide (h = H256_zero).
Definition path_size : nat := HASH_LEN.
Definition depth : nat := path_size * 8.

Section Hasher.
(** The required method of [TreeHasher]; [DefaultTreeHasher] uses [keccak256]. *)
Variable digest : bytes -> H256.

Definition path (key : bytes) : H256 := digest key.
Definition digest_leaf (path leaf_data : bytes) : H256 * bytes :=
  let value := LEAF_PREFIX ++ path ++ leaf_data in (digest value, value).
Definition digest_node (left_data right_data : bytes) : H256 * bytes :=
  let value := NODE_PREFIX ++ left_data ++ right_data in (digest value, value).

(** One step of a path towards the root: the sibling goes on the side the bit
    of the path does not take. *)
Definition digest_step {E} (path : H256) (position : nat) (side_node current : bytes) :
    result E (H256 * bytes) :=
  b ← get_bits_at_from_msb path position;
  Ok (if b =? 1 then digest_node side_node current else digest_node current side_node).

(** ** Proofs (proof.rs) *)

Record Proof := {
  side_nodes : list H256;
  non_membership_leaf_data : option bytes;
  sibling_data : option bytes }.

(** The loop over the side nodes, deepest first. *)
Fixpoint verify_loop (path : H256) (sides : list H256) (current_hash : H256) (updates : list (list bytes)) :
    result SmtError (H256 * list (list bytes)) :=
  match sides with
  | [] => Ok (current_hash, updates)
  | node :: rest =>
    '(h, current_data) ← digest_step path (length rest) node current_hash;
    verify_loop path rest h (updates ++ [[h; current_data]])
  end.

Definition verify_proof_with_updates (proof : Proof) (root : H256) (key value : bytes) :
    result SmtError (list (list bytes)) :=
  let path := path key in
  '(current_hash, updates) ←
    (if bool_decide (value = []) then
       match non_membership_leaf_data proof with
       | None => Ok (placeholder, [])
       | Some leaf_data =>
         '(actual_path, value_hash) ← parse_leaf leaf_data;
         if bool_decide (actual_path = path) then Err (NonMembershipPathError actual_path path)
         else let '(l, current_data) := digest_leaf actual_path value_hash in
              Ok (l, [[l; current_data]])
       end
     else
       let value_hash := digest value in
       let '(l, current_data) := digest_leaf path value_hash in
       Ok (l, [[l; current_data]]));
  '(current_hash, updates) ← verify_loop path (side_nodes proof) current_hash updates;
  if negb (bool_decide (current_hash = root)) then Err (BadProof updates) else Ok updates.

Definition verify_proof (proof : Proof) (root : H256) (key value : bytes) : result SmtError bool :=
  match verify_proof_with_updates proof root key value with
  | Ok _ => Ok true
  | Err _ => Ok false
  | Panic => Panic
  end.

(** ** The tree (smt.rs) *)

Record SparseMerkleTree := {
  nodes : MemoryStorage; values : MemoryStorage; root : H256; parent : H256 }.

Definition smt_new : SparseMerkleTree :=
  {| nodes := ∅; values := ∅; root := H256_zero; parent := H256_zero |}.

Definition set_nodes (n : MemoryStorage) (t : SparseMerkleTree) : SparseMerkleTree :=
  {| nodes := n; values := values t; root := root t; parent := parent t |}.
Definition set_values (v : MemoryStorage) (t : SparseMerkleTree) : SparseMerkleTree :=
  {| nodes := nodes t; values := v; root := root t; parent := parent t |}.
Definition set_root (r : H256) (t : SparseMerkleTree) : SparseMerkleTree :=
  {| nodes := nodes t; values := values t; root := r; parent := parent t |}.

Abbreviation smtM := (stM SparseMerkleTree SmtError).
Definition put_node (k v : bytes) : smtM unit := zoom nodes set_nodes (Storage_put k v).
Definition delete_node (k : bytes) : smtM unit := zoom nodes set_nodes (Storage_delete k).
Definition put_value (k v : bytes) : smtM unit := zoom values set_values (Storage_put k v).
Definition delete_value (k : bytes) : smtM unit := zoom values set_values (Storage_delete k).

Record SideNodesForRootResult := {
  r_side_nodes : list H256; r_path_nodes : list H256; r_leaf_data : bytes;
  r_sibling_data : option bytes }.

(** The descent of [side_nodes_for_root].  The source pushes and reverses at the
    end; consing gives the deepest node first. *)
Fixpoint side_nodes_loop (store : MemoryStorage) (path : H256) (n i : nat) (current_data side_node : bytes)
    (sides pnodes : list H256) : result SmtError (bytes * bytes * list H256 * list H256) :=
  match n with
  | O => Ok (current_data, side_node, sides, pnodes)
  | S n =>
    '(left_node, right_node) ← parse_node current_data;
    b ← get_bits_at_from_msb path i;
    let '(side_node, next) := if b =? 1 then (left_node, right_node) else (right_node, left_node) in
    node_hash ← fixed_bytes 32 next;
    side_hash ← fixed_bytes 32 side_node;
    let sides := side_hash :: sides in
    let pnodes := node_hash :: pnodes in
    if is_zero_hash node_hash then Ok ([], side_node, sides, pnodes)
    else
      current_data ← Storage_get store node_hash;
      leaf ← is_leaf current_data;
      if (leaf : bool) then Ok (current_data, side_node, sides, pnodes)
      else side_nodes_loop store path n (S i) current_data side_node sides pnodes
  end.

Definition side_nodes_for_root (t : SparseMerkleTree) (path root : H256) (get_sibling_data : bool) :
    result SmtError SideNodesForRootResult :=
  if is_zero_hash root then
    Ok {| r_side_nodes := []; r_path_nodes := [root]; r_leaf_data := []; r_sibling_data := None |}
  else
    current_data ← Storage_get (nodes t) root;
    leaf ← is_leaf current_data;
    if (leaf : bool) then
      Ok {| r_side_nodes := []; r_path_nodes := [root]; r_leaf_data := current_data;
            r_sibling_data := None |}
    else
      '(current_data, side_node, sides, pnodes) ←
        side_nodes_loop (nodes t) path depth 0 current_data [] [] [root];
      sibling_data ← (if get_sibling_data then Storage_get (nodes t) side_node else Ok []);
      Ok {| r_side_nodes := sides; r_path_nodes := pnodes; r_leaf_data := current_data;
            r_sibling_data := Some sibling_data |}.

(** [path_nodes[0]] and the like *)
Definition index0 (l : list H256) : smtM H256 := lift (unwrap (head l)).

(** The loop of [delete_with_sides_nodes]; [i] counts the side nodes done. *)
Fixpoint delete_loop (path : H256) (total i : nat) (sides : list H256) (current_hash : H256)
    (current_data : bytes) (non_placeholder_reached : bool) : smtM H256 :=
  match sides with
  | [] => mret current_hash
  | side_node :: rest =>
    (* an empty [current_data]: the first side node decides *)
    '(bubble, current_data, non_placeholder_reached) ←
      (if bool_decide (current_data = []) then
         store ← gets nodes;
         side_node_value ← lift (Storage_get store side_node);
         leaf ← lift (is_leaf side_node_value);
         if (leaf : bool) then mret (true, current_data, non_placeholder_reached)
         else mret (false, placeholder, true)
       else mret (false, current_data, non_placeholder_reached));
    if (bubble : bool) then delete_loop path total (S i) rest side_node side_node non_placeholder_reached
    else if negb non_placeholder_reached && bool_decide (side_node = placeholder) then
      delete_loop path total (S i) rest current_hash current_data non_placeholder_reached
    else
      '(current_hash, data) ← lift (digest_step path (total - 1 - i) side_node current_data);
      _ ← put_node current_hash data;
      delete_loop path total (S i) rest current_hash current_hash true
  end.

Definition delete_with_sides_nodes (path : H256) (sides pnodes : list H256) (old_leaf_data : bytes) :
    smtM H256 :=
  p0 ← index0 pnodes;
  if is_zero_hash p0 then lift (Err KeyAlreadyEmpty)
  else
    '(actual_path, _) ← lift (parse_leaf old_leaf_data);
    if negb (bool_decide (actual_path = path)) then lift (Err KeyAlreadyEmpty)
    else
      _ ← for_each pnodes delete_node;
      delete_loop path (length sides) 0 sides H256_zero [] false.

(** The side node the final loop of [update_with_sides_nodes] uses at iteration
    [i]; [None] is [continue]. *)
Definition update_side_node (sides : list H256) (common_prefix_count i : nat) : option H256 :=
  let offset_side_nodes := (depth - length sides)%nat in
  if (i <? offset_side_nodes)%nat || bool_decide (sides !! (i - offset_side_nodes)%nat = None) then
    if negb (common_prefix_count =? depth)%nat && (depth - 1 - i <? common_prefix_count)%nat
    then Some placeholder else None
  else sides !! (i - offset_side_nodes)%nat.

(** The loop for [i] in [depth - n .. depth]. *)
Fixpoint update_loop (path : H256) (sides : list H256) (common_prefix_count n : nat)
    (current_hash : H256) (current_data : bytes) : smtM H256 :=
  match n with
  | O => mret current_hash
  | S n =>
    let i := (depth - S n)%nat in
    match update_side_node sides common_prefix_count i with
    | None => update_loop path sides common_prefix_count n current_hash current_data
    | Some side_node =>
      '(current_hash, data) ← lift (digest_step path (depth - 1 - i) side_node current_data);
      _ ← put_node current_hash data;
      update_loop path sides common_prefix_count n current_hash current_hash
    end
  end.

Definition update_with_sides_nodes (path : H256) (value : bytes) (sides pnodes : list H256)
    (old_leaf_data : bytes) : smtM H256 :=
  let value_hash := digest value in
  let '(current_hash, leaf_data) := digest_leaf path value_hash in
  _ ← put_node current_hash leaf_data;
  let current_data := current_hash in
  p0 ← index0 pnodes;
  '(common_prefix_count, old_value_hash) ←
    (if is_zero_hash p0 then mret (depth, None)
     else
       '(ap, op) ← lift (parse_leaf old_leaf_data);
       actual_path ← lift (fixed_bytes 32 ap);
       old_value_hash ← lift (fixed_bytes 32 op);
       c ← lift (count_common_prefix path actual_path);
       mret (c, Some old_value_hash));
  (* [inl]: an early return *)
  step ←
    (if negb (common_prefix_count =? depth)%nat then
       '(current_hash, data) ← lift (digest_step path common_prefix_count p0 current_data);
       _ ← put_node current_hash data;
       mret (inr (current_hash, current_hash))
     else
       match old_value_hash with
       | Some old_value_hash =>
         if bool_decide (old_value_hash = value_hash) then r ← gets root; mret (inl r)
         else
           _ ← delete_node p0;
           _ ← ignore (delete_value path);
           mret (inr (current_hash, current_data))
       | None => mret (inr (current_hash, current_data))
       end);
  match step with
  | inl r => mret r
  | inr (current_hash, current_data) =>
    _ ← for_each (drop 1 pnodes) delete_node;
    current_hash ← update_loop path sides common_prefix_count depth current_hash current_data;
    _ ← put_value path value;
    mret current_hash
  end.

Definition update_for_root (key value : bytes) (root : H256) : smtM H256 :=
  let path := path key in
  t ← gets (fun t => t);
  r ← lift (side_nodes_for_root t path root false);
  if bool_decide (value = []) then
    _ ← delete_value path;
    delete_with_sides_nodes path (r_side_nodes r) (r_path_nodes r) (r_leaf_data r)
  else update_with_sides_nodes path value (r_side_nodes r) (r_path_nodes r) (r_leaf_data r).

Definition update (key value : bytes) : smtM H256 :=
  r ← gets root;
  new_root ← update_for_root key value r;
  _ ← modify (set_root new_root);
  mret new_root.

Definition get (t : SparseMerkleTree) (key : bytes) : result SmtError bytes :=
  if is_zero_hash (root t) then Ok [] else get_or_default (values t) (path key) [].

Definition do_proof_for_root (t : SparseMerkleTree) (key : bytes) (root : H256) (is_updatable : bool) :
    result SmtError Proof :=
  let path := path key in
  r ← side_nodes_for_root t path root is_updatable;
  p0 ← unwrap (head (r_path_nodes r));
  non_membership ←
    (if negb (is_zero_hash p0) then
       '(actual_path, _) ← parse_leaf (r_leaf_data r);
       Ok (if negb (bool_decide (actual_path = path)) then Some (r_leaf_data r) else None)
     else Ok None);
  Ok {| side_nodes := r_side_nodes r; non_membership_leaf_data := non_membership;
        sibling_data := r_sibling_data r |}.

Definition proof (t : SparseMerkleTree) (key : bytes) : result SmtError Proof :=
  do_proof_for_root t key (root t) false.
Definition proof_updatable (t : SparseMerkleTree) (key : bytes) : result SmtError Proof :=
  do_proof_for_root t key (root t) true.

Definition get_with_proof_for_root (t : SparseMerkleTree) (key : bytes) (root : H256) :
    result SmtError (bytes * Proof) :=
  value ← get t key; proof ← do_proof_for_root t key root false; Ok (value, proof).
Definition get_with_proof_updatable_for_root (t : SparseMerkleTree) (key : bytes) (root : H256) :
    result SmtError (bytes * Proof) :=
  value ← get t key; proof ← do_proof_for_root t key root true; Ok (value, proof).
Definition get_with_proof (t : SparseMerkleTree) (key : bytes) := get_with_proof_for_root t key (root t).
Definition get_with_proof_updatable (t : SparseMerkleTree) (key : bytes) :=
  get_with_proof_updatable_for_root t key (root t).

(** ** Copies *)

Definition add_branch (proof : Proof) (root : H256) (key value : bytes) : smtM unit :=
  updates ← lift (verify_proof_with_updates proof root key value);
  _ ← (if negb (bool_decide (value = [])) then put_value (path key) value else mret tt);
  _ ← for_each updates (fun update =>
        match update with
        | k :: v :: _ => put_node k v
        | _ => lift Panic
        end);
  match sibling_data proof, side_nodes proof with
  | Some data, s0 :: _ => put_node s0 data
  | _, _ => mret tt
  end.

Inductive CopyStrategy := Partial | Full | NoCopy.

Definition subtree (t : SparseMerkleTree) (strategy : CopyStrategy) (import_keys : list bytes) :
    result SmtError SparseMerkleTree :=
  let sub := {| nodes := ∅; values := ∅; root := root t; parent := root t |} in
  match strategy with
  | Partial =>
    exec (for_each import_keys (fun key =>
            '(value, proof) ← lift (get_with_proof_updatable t key);
            add_branch proof (root t) key value))
      (set_nodes (nodes t) sub)
  | Full => Ok t
  | NoCopy => Ok sub
  end.

End Hasher.
