(* ===== verification/Codec.v ===== *)
(** * Codecs

    The traits of crate codec and their implementations for integers, hashes,
    addresses and strings, and the bincode encodings built on them: the sparse
    Merkle tree (smt.rs) and the versioned values of the state database
    (tree.rs).  bincode itself is a parameter, [Bincode], of which only the
    round trip and the size of an enum tag are used ([BincodeLaws]); so is the
    prost encoding of accounts. *)
From S2P Require Import Prelude Types Smt.

(** ** The traits [Encodable] and [Decodable] *)

Record Codec (A : Type) := { encode : A -> result anyhow bytes; decode : bytes -> result anyhow A }.
Arguments encode {A} _ _.
Arguments decode {A} _ _.

(** The values of [P] survive a round trip. *)
Definition codec_ok {A} (C : Codec A) (P : A -> Prop) : Prop :=
  forall a, P a -> exists b, encode C a = Ok b /\ decode C b = Ok a.

(** [[u8; 32]], [H160], [H256] and [Address]: [copy_from_slice] and [from_slice]
    panic on another length. *)
Definition codec_fixed (n : nat) : Codec bytes := {| encode := Ok; decode := fixed_bytes n |}.
Definition codec_Hash : Codec bytes := codec_fixed 32.
Definition codec_H160 : Codec bytes := codec_fixed 20.
Definition codec_H256 : Codec H256 := codec_fixed 32.
Definition codec_Address : Codec Address := codec_fixed ADDRESS_LEN.
Definition codec_Vec : Codec bytes := {| encode := Ok; decode := Ok |}.

(** [impl_codec_primitives!] for an integer of [n] bytes: [try_into] fails on
    another length. *)
Definition codec_uint (n : nat) : Codec Z := {|
  encode v := Ok (to_be n v);
  decode buf := if decide (length buf = n) then Ok (from_be buf) else Err "TryFromSliceError" |}.
Definition codec_u8 := codec_uint 1.
Definition codec_u16 := codec_uint 2.
Definition codec_u32 := codec_uint 4.
Definition codec_u64 := codec_uint 8.
Definition codec_u128 := codec_uint 16.

Definition codec_String : Codec str := {|
  encode s := Ok (utf8 s);
  decode buf := Ok (from_utf8_lossy buf) |}.

(** [BlockPrimaryKey] (block.rs) *)
Definition codec_BlockPrimaryKey : Codec BlockPrimaryKey := {|
  encode k := Ok (BlockPrimaryKey_encode k); decode := BlockPrimaryKey_decode |}.

(** ** Values of the state database (tree.rs, app.rs) *)

Inductive IValue := Deleted | Value (v : bytes).
Record AppStateKey := { app_address : Address; app_root : H256 }.
Record AppMetadata := { binary : bytes; descriptor : bytes }.

(** ** bincode and prost *)

(** An encoder and a decoder that returns the bytes it leaves. *)
Record Coder (A : Type) := { enc : A -> bytes; dec : bytes -> result anyhow (A * bytes) }.
Arguments enc {A} _ _.
Arguments dec {A} _ _.
Definition coder_ok {A} (c : Coder A) (P : A -> Prop) : Prop :=
  forall a rest, P a -> dec c (enc c a ++ rest) = Ok (a, rest).

Class Bincode := {
  bin_snapshot : Coder StorageBackendSnapshot;
  bin_hasher : Coder unit;
  bin_H256 : Coder H256;
  bin_IValue : Coder IValue;
  bin_AppStateKey : Coder AppStateKey;
  bin_AppMetadata : Coder AppMetadata;
  prost_AccountState : Codec AccountState;
}.

(** The strings a program can hold. *)
Definition is_vec (b : bytes) : Prop := Forall is_byte b.
Definition wf_snapshot (s : StorageBackendSnapshot) : Prop := Forall (fun kv => is_vec kv.1 /\ is_vec kv.2) s.
Definition wf_IValue (v : IValue) : Prop := match v with Deleted => True | Value b => is_vec b end.
Definition wf_app_state (a : AppState) : Prop :=
  is_bytes 32 (root_hash a) /\ is_bytes 32 (code_hash a) /\ is_bytes 44 (creator a) /\ is_u 32 (app_version a).
Definition wf_account (s : AccountState) : Prop :=
  is_u 64 (free_balance s) /\ is_u 64 (reserve_balance s) /\ is_u 64 (acc_nonce s) /\
  match app_state s with None => True | Some a => wf_app_state a end.

(** What bincode and prost document: decoding inverts encoding, and an enum is
    encoded with its tag first. *)
Class BincodeLaws `{Bincode} := {
  bin_snapshot_ok : coder_ok bin_snapshot wf_snapshot;
  bin_hasher_ok : coder_ok bin_hasher (fun _ => True);
  bin_H256_ok : coder_ok bin_H256 (is_bytes 32);
  bin_IValue_ok : coder_ok bin_IValue wf_IValue;
  bin_IValue_tag v : enc bin_IValue v <> [];
  bin_IValue_vec v : wf_IValue v -> is_vec (enc bin_IValue v);
  prost_AccountState_ok : codec_ok prost_AccountState wf_account;
  prost_AccountState_vec s b : encode prost_AccountState s = Ok b -> is_vec b;
}.

Section Bincode.
Context `{Bincode}.

(** [bincode::encode_to_vec] and [decode_from_slice] of a whole value *)
Definition codec_bincode {A} (c : Coder A) : Codec A := {|
  encode a := Ok (enc c a);
  decode buf := '(a, _) ← dec c buf; Ok a |}.
Definition codec_IValue : Codec IValue := codec_bincode bin_IValue.
Definition codec_AppStateKey : Codec AppStateKey := codec_bincode bin_AppStateKey.
Definition codec_AppMetadata : Codec AppMetadata := codec_bincode bin_AppMetadata.

(** [Encode] and [Decode] of [SparseMerkleTree] (smt.rs) *)
Definition smt_encode (t : SparseMerkleTree) : bytes :=
  enc bin_snapshot (snapshot (nodes t)) ++ enc bin_snapshot (snapshot (values t)) ++
  enc bin_hasher tt ++ enc bin_H256 (root t) ++ enc bin_H256 (parent t).
Definition smt_decode (buf : bytes) : result anyhow (SparseMerkleTree * bytes) :=
  '(nodes_snapshot, buf) ← dec bin_snapshot buf;
  '(values_snapshot, buf) ← dec bin_snapshot buf;
  '(_, buf) ← dec bin_hasher buf;
  '(root, buf) ← dec bin_H256 buf;
  '(parent, buf) ← dec bin_H256 buf;
  Ok ({| nodes := from_snapshot nodes_snapshot; values := from_snapshot values_snapshot;
         root := root; parent := parent |}, buf).
Definition codec_SparseMerkleTree : Codec SparseMerkleTree :=
  codec_bincode {| enc := smt_encode; dec := smt_decode |}.

End Bincode.

(** ** Trees made of bytes

    [update] keeps the stores and the hashes of a tree within bytes, so that a
    stored tree can be read back. *)

Definition vec_store (m : MemoryStorage) : Prop := map_Forall (fun k v => is_vec k /\ is_vec v) m.
Record wf_smt (t : SparseMerkleTree) : Prop := {
  wf_nodes : vec_store (nodes t);
  wf_values : vec_store (values t);
  wf_root : is_bytes 32 (root t);
  wf_parent : is_bytes 32 (parent t);
}.

(** [m] keeps [I] and, when it succeeds, returns a value in [Q]. *)
Definition keeps {S E A} (I : S -> Prop) (m : stM S E A) (Q : A -> Prop) : Prop :=
  forall s, I s -> I (m s).2 /\ forall a, (m s).1 = Ok a -> Q a.

Lemma keeps_ret {S E A} (I : S -> Prop) (a : A) (Q : A -> Prop) : Q a -> keeps (E:=E) I (mret a) Q.
Proof. intros H s Hs. split; auto. now intros a' [= <-]. Qed.
Lemma keeps_lift {S E A} (I : S -> Prop) (r : result E A) (Q : A -> Prop) :
  (forall a, r = Ok a -> Q a) -> keeps I (lift r) Q.
Proof. intros H s Hs. split; auto. Qed.
Lemma keeps_gets {S E A} (I : S -> Prop) (f : S -> A) (Q : A -> Prop) :
  (forall s, I s -> Q (f s)) -> keeps (E:=E) I (gets f) Q.
Proof. intros H s Hs. split; auto. intros a [= <-]. auto. Qed.
Lemma keeps_bind {S E A B} (I : S -> Prop) (m : stM S E A) (f : A -> stM S E B) (P : A -> Prop) (Q : B -> Prop) :
  keeps I m P -> (forall a, P a -> keeps I (f a) Q) -> keeps I (m ≫= f) Q.
Proof.
  intros Hm Hf s Hs. destruct (Hm s Hs) as [H1 H2]. unfold mbind, stM_bind.
  destruct (m s) as [[a|e|] s']; simpl in *; [apply Hf; auto | split; auto; discriminate..].
Qed.
Lemma keeps_ignore {S E A} (I : S -> Prop) (m : stM S E A) (P : A -> Prop) :
  keeps I m P -> keeps I (ignore m) (fun _ => True).
Proof.
  intros H s Hs. destruct (H s Hs) as [H1 _]. unfold ignore. destruct (m s) as [[a|e|] s']; split; auto.
Qed.
Lemma keeps_for_each {S E A} (I : S -> Prop) (l : list A) (body : A -> stM S E unit) (P : A -> Prop) :
  Forall P l -> (forall x, P x -> keeps I (body x) (fun _ => True)) -> keeps I (for_each l body) (fun _ => True).
Proof.
  intros Hl Hb. induction Hl as [|x l Hx _ IH]; simpl; [now apply keeps_ret|].
  eapply keeps_bind; [now apply Hb|]. auto.
Qed.
Lemma keeps_weaken {S E A} (I : S -> Prop) (m : stM S E A) (P Q : A -> Prop) :
  keeps I m P -> (forall a, P a -> Q a) -> keeps I m Q.
Proof. intros H HPQ s Hs. destruct (H s Hs) as [H1 H2]. auto. Qed.

Lemma is_vec_app a b : is_vec (a ++ b) <-> is_vec a /\ is_vec b.
Proof. apply Forall_app. Qed.
Lemma is_bytes_vec n b : is_bytes n b -> is_vec b.
Proof. now intros []. Qed.

Lemma keeps_put_node k v : is_vec k -> is_vec v -> keeps wf_smt (put_node k v) (fun _ => True).
Proof. intros Hk Hv s [Hn Hvs Hr Hp]. split; auto. split; auto. now apply map_Forall_insert_2. Qed.
Lemma keeps_put_value k v : is_vec k -> is_vec v -> keeps wf_smt (put_value k v) (fun _ => True).
Proof. intros Hk Hv s [Hn Hvs Hr Hp]. split; auto. split; auto. now apply map_Forall_insert_2. Qed.
Lemma keeps_delete_node k : keeps wf_smt (delete_node k) (fun _ => True).
Proof.
  intros s [Hn Hvs Hr Hp]. unfold delete_node, zoom, Storage_delete. case_bool_decide; split; auto; split; auto.
  now apply map_Forall_delete.
Qed.
Lemma keeps_delete_value k : keeps wf_smt (delete_value k) (fun _ => True).
Proof.
  intros s [Hn Hvs Hr Hp]. unfold delete_value, zoom, Storage_delete. case_bool_decide; split; auto; split; auto.
  now apply map_Forall_delete.
Qed.

Section KeepsUpdate.
Variable digest : bytes -> H256.
Hypothesis digest_len : forall m, is_bytes 32 (digest m).

Lemma digest_step_vec {E} p d s h r :
  is_vec s -> is_vec h -> digest_step (E:=E) digest p d s h = Ok r -> is_bytes 32 r.1 /\ is_vec r.2.
Proof.
  intros Hs Hh. unfold digest_step. destruct (get_bits_at_from_msb p d) as [b|e|]; try discriminate.
  assert (is_vec NODE_PREFIX) as HN by (constructor; [split; reflexivity || lia | constructor]).
  cbn [mbind result_bind]. intros [= <-].
  destruct (b =? 1); (split; [apply digest_len|]); cbn [digest_node snd]; rewrite !is_vec_app; auto.
Qed.

Lemma parse_hashes_vec {E} data a b :
  is_vec data -> parse_hashes (E:=E) data = Ok (a, b) -> is_vec a /\ is_vec b.
Proof.
  unfold parse_hashes. intros Hd. destruct (take_bytes 1 data) as [[x rest]|e|] eqn:E1; try discriminate.
  cbn [mbind result_bind]. intros E2. apply take_bytes_inv in E1 as [_ ->], E2 as [_ ->].
  rewrite !is_vec_app in Hd. tauto.
Qed.

Lemma Storage_get_vec m k v : vec_store m -> Storage_get m k = Ok v -> is_vec v.
Proof.
  unfold Storage_get. intros Hm. destruct (m !! k) as [x|] eqn:E; simpl; [|discriminate].
  intros [= <-]. now apply (Hm k x).
Qed.

Lemma fixed_bytes_vec {E} n b h : is_vec b -> fixed_bytes (E:=E) n b = Ok h -> is_bytes n h.
Proof. unfold fixed_bytes. intros Hb. case_decide; [|discriminate]. intros [= <-]. now split. Qed.

Lemma side_nodes_loop_vec st p n i data side sides pnodes data' side' sides' pnodes' :
  vec_store st -> is_vec data -> Forall (is_bytes 32) sides -> Forall (is_bytes 32) pnodes ->
  side_nodes_loop st p n i data side sides pnodes = Ok (data', side', sides', pnodes') ->
  is_vec data' /\ Forall (is_bytes 32) sides' /\ Forall (is_bytes 32) pnodes'.
Proof.
  intros Hst. revert i data side sides pnodes.
  induction n as [|n IH]; intros i data side sides pnodes Hd Hs Hp; cbn [side_nodes_loop].
  { intros [= <- <- <- <-]. auto. }
  destruct (parse_node data) as [[l r]|e|] eqn:Ep; try discriminate. apply parse_hashes_vec in Ep as [Hl Hr]; auto.
  cbn [mbind result_bind]. destruct (get_bits_at_from_msb p i) as [b|e|]; try discriminate.
  cbn [mbind result_bind].
  assert (exists s x, (if b =? 1 then (l, r) else (r, l)) = (s, x) /\ is_vec s /\ is_vec x) as (s & x & -> & Hsv & Hx)
    by (destruct (b =? 1); eauto).
  destruct (fixed_bytes 32 x) as [nh|e|] eqn:En; try discriminate. cbn [mbind result_bind].
  destruct (fixed_bytes 32 s) as [sh|e|] eqn:Esh; try discriminate. cbn [mbind result_bind].
  apply fixed_bytes_vec in En, Esh; auto.
  destruct (is_zero_hash nh).
  { intros [= <- <- <- <-]. repeat split; auto. constructor. }
  destruct (Storage_get st nh) as [d|e|] eqn:Eg; try discriminate. apply Storage_get_vec in Eg; auto.
  cbn [mbind result_bind]. destruct (is_leaf d) as [lf|e|]; try discriminate. cbn [mbind result_bind].
  destruct lf; [intros [= <- <- <- <-]; auto | apply IH; auto].
Qed.

Lemma side_nodes_for_root_vec t p r0 g r :
  wf_smt t -> is_bytes 32 r0 -> side_nodes_for_root t p r0 g = Ok r ->
  Forall (is_bytes 32) (r_side_nodes r) /\ Forall (is_bytes 32) (r_path_nodes r) /\ is_vec (r_leaf_data r).
Proof.
  intros W Hr. unfold side_nodes_for_root. destruct (is_zero_hash r0).
  { intros [= <-]. simpl. repeat split; auto; constructor. }
  destruct (Storage_get (nodes t) r0) as [d|e|] eqn:Eg; try discriminate.
  apply Storage_get_vec in Eg; [|apply W]. cbn [mbind result_bind].
  destruct (is_leaf d) as [lf|e|]; try discriminate. cbn [mbind result_bind]. destruct lf.
  { intros [= <-]. simpl. repeat split; auto. }
  destruct (side_nodes_loop (nodes t) p depth 0 d [] [] [r0]) as [[[[d' s'] ss'] ps']|e|] eqn:El; try discriminate.
  apply side_nodes_loop_vec in El as (? & ? & ?); auto; [|apply W].
  cbn [mbind result_bind]. destruct (if g then Storage_get (nodes t) s' else Ok []) as [sd|e|]; try discriminate.
  cbn [mbind result_bind]. intros [= <-]. auto.
Qed.

Lemma index0_ok l : Forall (is_bytes 32) l -> keeps wf_smt (index0 l) (is_bytes 32).
Proof. intros H. apply keeps_lift. intros h. destruct H; simpl; [discriminate|]. now intros [= <-]. Qed.

Lemma update_loop_keeps p sides cpc n h d :
  Forall (is_bytes 32) sides -> is_bytes 32 h -> is_vec d ->
  keeps wf_smt (update_loop digest p sides cpc n h d) (is_bytes 32).
Proof.
  intros Hs. revert h d. induction n as [|n IH]; intros h d Hh Hd; cbn [update_loop]; [now apply keeps_ret|].
  destruct (update_side_node sides cpc (depth - S n)) as [s|] eqn:Eu; auto.
  assert (is_vec s) as Hsv.
  { unfold update_side_node in Eu. destruct (_ || _).
    - destruct (_ && _); [|discriminate]. injection Eu as <-. apply (is_bytes_vec 32).
      split; [reflexivity|]. repeat constructor; lia.
    - eapply is_bytes_vec. eapply Forall_lookup_1; eauto. }
  eapply keeps_bind; [apply keeps_lift; intros r; now apply digest_step_vec|].
  intros [h' d'] [Hh' Hd']. simpl in *. eapply keeps_bind; [apply keeps_put_node; auto; now apply is_bytes_vec in Hh'|].
  intros _ _. apply IH; auto. now apply is_bytes_vec in Hh'.
Qed.

Lemma digest_leaf_vec p v : is_vec p -> is_bytes 32 (digest_leaf digest p (digest v)).1 /\
  is_vec (digest_leaf digest p (digest v)).2.
Proof.
  intros Hp. split; [apply digest_len|]. cbn [digest_leaf snd]. rewrite !is_vec_app.
  repeat split; auto; [repeat constructor; lia | eapply is_bytes_vec, digest_len].
Qed.

Lemma update_with_sides_nodes_keeps p v sides pnodes data :
  is_vec p -> is_vec v -> Forall (is_bytes 32) sides -> Forall (is_bytes 32) pnodes ->
  keeps wf_smt (update_with_sides_nodes digest p v sides pnodes data) (is_bytes 32).
Proof.
  intros Hp Hv Hs Hpn. unfold update_with_sides_nodes. destruct (digest_leaf_vec p v Hp) as [Hh Hd].
  destruct (digest_leaf digest p (digest v)) as [h d]. simpl in Hh, Hd.
  eapply keeps_bind; [apply keeps_put_node; auto; now apply is_bytes_vec in Hh|]. intros _ _.
  eapply keeps_bind; [now apply index0_ok|]. intros p0 Hp0.
  eapply (keeps_bind _ _ _ (fun _ => True)).
  { destruct (is_zero_hash p0); [now apply keeps_ret|].
    repeat (eapply keeps_bind; [apply (keeps_lift _ _ (fun _ => True)); auto|]; intros ? _; try destruct_and?).
    all: match goal with |- context [match ?x with (_, _) => _ end] => destruct x end.
    all: repeat (eapply keeps_bind; [apply (keeps_lift _ _ (fun _ => True)); auto|]; intros ? _).
    all: now apply keeps_ret. }
  intros [cpc old] _.
  eapply (keeps_bind _ _ _ (fun r => match r with inl r => is_bytes 32 r | inr (h, d) => is_bytes 32 h /\ is_vec d end)).
  - destruct (negb (cpc =? depth)%nat).
    + eapply keeps_bind; [apply keeps_lift; intros r; apply digest_step_vec;
        [now apply is_bytes_vec in Hp0 | now apply is_bytes_vec in Hh]|].
      intros [h' d'] [Hh' Hd']. simpl in *. pose proof (is_bytes_vec _ _ Hh').
      eapply keeps_bind; [now apply keeps_put_node|]. intros _ _. now apply keeps_ret.
    + pose proof (is_bytes_vec _ _ Hh). destruct old as [o|]; [|now apply keeps_ret].
      case_bool_decide.
      * eapply keeps_bind; [apply keeps_gets; intros s Hw; apply (wf_root _ Hw)|]. intros r Hr. now apply keeps_ret.
      * eapply keeps_bind; [apply keeps_delete_node|]. intros _ _.
        eapply keeps_bind; [eapply keeps_ignore, keeps_delete_value|]. intros _ _. now apply keeps_ret.
  - intros [r|[h' d']] Hr; [now apply keeps_ret|]. destruct Hr as [Hh' Hd'].
    eapply keeps_bind; [apply (keeps_for_each _ _ _ (fun _ => True)); [now apply Forall_true|];
      intros; apply keeps_delete_node|]. intros _ _.
    eapply keeps_bind; [now apply update_loop_keeps|]. intros r Hr.
    eapply keeps_bind; [now apply keeps_put_value|]. intros _ _. now apply keeps_ret.
Qed.

Lemma delete_loop_keeps p total i sides h d b :
  Forall (is_bytes 32) sides -> is_bytes 32 h -> is_vec d ->
  keeps wf_smt (delete_loop digest p total i sides h d b) (is_bytes 32).
Proof.
  intros Hs. revert i h d b. induction Hs as [|s sides Hs1 Hs IH]; intros i h d b Hh Hd; cbn [delete_loop];
    [now apply keeps_ret|].
  pose proof (is_bytes_vec _ _ Hs1) as Hsv.
  eapply (keeps_bind _ _ _ (fun '(_, d, _) => is_vec d)).
  - case_bool_decide; [|now apply keeps_ret].
    eapply (keeps_bind _ _ _ (fun _ => True)); [now apply keeps_gets|]. intros st _.
    eapply (keeps_bind _ _ _ (fun _ => True)); [now apply keeps_lift|]. intros dv _.
    eapply (keeps_bind _ _ _ (fun _ => True)); [now apply keeps_lift|]. intros lf _.
    destruct lf; apply keeps_ret; auto. repeat constructor; lia.
  - intros [[bub d'] b'] Hd'. destruct bub; [now apply IH|]. destruct (negb b' && _); [now apply IH|].
    eapply keeps_bind; [apply keeps_lift; intros r; now apply digest_step_vec|].
    intros [h' dd] [Hh' Hdd]. simpl in *. pose proof (is_bytes_vec _ _ Hh').
    eapply keeps_bind; [now apply keeps_put_node|]. intros _ _. now apply IH.
Qed.

Lemma update_keeps key v : is_vec v -> keeps wf_smt (update digest key v) (is_bytes 32).
Proof.
  intros Hv. unfold update. eapply keeps_bind; [apply keeps_gets; intros s Hw; apply (wf_root _ Hw)|]. intros r0 Hr0.
  eapply (keeps_bind _ _ _ (is_bytes 32)).
  - unfold update_for_root. intros s Hw.
    revert s Hw. eapply (keeps_bind _ _ _ wf_smt); [now apply keeps_gets|]. intros t Wt.
    eapply keeps_bind; [apply keeps_lift; intros r; apply side_nodes_for_root_vec; auto|].
    intros r (Hs & Hp & Hl). case_bool_decide.
    + eapply keeps_bind; [apply keeps_delete_value|]. intros _ _. unfold delete_with_sides_nodes.
      eapply keeps_bind; [now apply index0_ok|]. intros p0 _.
      destruct (is_zero_hash p0); [now apply keeps_lift|].
      eapply (keeps_bind _ _ _ (fun _ => True)); [now apply keeps_lift|]. intros [ap vh] _.
      destruct (negb _); [now apply keeps_lift|].
      eapply keeps_bind; [apply (keeps_for_each _ _ _ (fun _ => True)); [now apply Forall_true|];
        intros; apply keeps_delete_node|]. intros _ _.
      apply delete_loop_keeps; auto; [split; [reflexivity|]; repeat constructor; lia | constructor].
    + apply update_with_sides_nodes_keeps; auto. eapply is_bytes_vec, digest_len.
  - intros r Hr. eapply (keeps_bind _ _ _ (fun _ => True)).
    + intros s [Hn Hvs Hrt Hp]. split; auto. split; auto.
    + intros _ _. now apply keeps_ret.
Qed.

End KeepsUpdate.

(** ** The round trip of a tree *)

Lemma from_snapshot_snapshot m : from_snapshot (snapshot m) = m.
Proof.
  unfold from_snapshot. rewrite <- fold_left_rev_right.
  assert (forall l, fold_right (fun y (x : MemoryStorage) => let '(k, v) := y in <[k:=v]> x) ∅ l = list_to_map l) as E.
  { induction l as [|[k v] l IH]; simpl; [reflexivity | now rewrite IH]. }
  rewrite E. etransitivity; [symmetry; apply (list_to_map_proper (map_to_list m))|apply list_to_map_to_list].
  - apply NoDup_fst_map_to_list.
  - etransitivity; [|apply Permutation_rev]. symmetry. apply merge_sort_Permutation.
Qed.

Lemma snapshot_vec m : vec_store m -> wf_snapshot (snapshot m).
Proof.
  intros H. unfold wf_snapshot, snapshot. rewrite merge_sort_Permutation. apply Forall_forall.
  intros [k v] Hin. apply list_elem_of_In, elem_of_map_to_list in Hin. now apply (H k v).
Qed.

Lemma codec_SparseMerkleTree_ok `{BincodeLaws} : codec_ok codec_SparseMerkleTree wf_smt.
Proof.
  intros t [Hn Hv Hr Hp]. eexists. split; [reflexivity|].
  cbn [codec_SparseMerkleTree codec_bincode decode enc dec]. unfold smt_decode, smt_encode.
  rewrite <- (app_nil_r (enc bin_H256 (parent t))).
  rewrite bin_snapshot_ok by now apply snapshot_vec. cbn [mbind result_bind].
  rewrite bin_snapshot_ok by now apply snapshot_vec. cbn [mbind result_bind].
  rewrite bin_hasher_ok by auto. cbn [mbind result_bind].
  rewrite bin_H256_ok by auto. cbn [mbind result_bind].
  rewrite bin_H256_ok by auto. cbn [mbind result_bind].
  rewrite !from_snapshot_snapshot. now destruct t.
Qed.

(** ** A concrete instance

    Stand-ins that satisfy [BincodeLaws], on which definitions can be
    evaluated. *)

(** A string, every byte announced by a one and the end by a zero. *)
Fixpoint toy_dec_bytes (buf : bytes) : result anyhow (bytes * bytes) :=
  match buf with
  | 1 :: x :: buf => '(b, rest) ← toy_dec_bytes buf; Ok (x :: b, rest)
  | 0 :: rest => Ok ([], rest)
  | _ => Err "UnexpectedEnd"
  end.
Definition toy_bytes : Coder bytes := {| enc b := flat_map (fun x => [1; x]) b ++ [0]; dec := toy_dec_bytes |}.
Lemma toy_bytes_ok : coder_ok toy_bytes (fun _ => True).
Proof.
  intros b rest _. cbn [enc dec toy_bytes]. induction b as [|x b IH]; [reflexivity|].
  cbn [flat_map app toy_dec_bytes]. cbn [app] in IH. now rewrite IH.
Qed.
Definition toy_pair {A B} (a : Coder A) (b : Coder B) : Coder (A * B) := {|
  enc x := enc a x.1 ++ enc b x.2;
  dec buf := '(x, buf) ← dec a buf; '(y, buf) ← dec b buf; Ok ((x, y), buf) |}.
Lemma toy_pair_ok {A B} (a : Coder A) (b : Coder B) P Q :
  coder_ok a P -> coder_ok b Q -> coder_ok (toy_pair a b) (fun x => P x.1 /\ Q x.2).
Proof.
  intros Ha Hb [x y] rest [Hx Hy]. cbn [enc dec toy_pair fst snd]. rewrite <- app_assoc, Ha by auto.
  cbn [mbind result_bind]. now rewrite Hb.
Qed.
Fixpoint toy_dec_list {A} (c : Coder A) (n : nat) (buf : bytes) : result anyhow (list A * bytes) :=
  match n with
  | O => Ok ([], buf)
  | S n => '(x, buf) ← dec c buf; '(l, buf) ← toy_dec_list c n buf; Ok (x :: l, buf)
  end.
Definition toy_list {A} (c : Coder A) : Coder (list A) := {|
  enc l := Z.of_nat (length l) :: flat_map (enc c) l;
  dec buf := match buf with n :: buf => toy_dec_list c (Z.to_nat n) buf | [] => Err "UnexpectedEnd" end |}.
Lemma toy_list_ok {A} (c : Coder A) P : coder_ok c P -> coder_ok (toy_list c) (Forall P).
Proof.
  intros Hc l rest Hl. cbn [enc dec toy_list app]. rewrite Nat2Z.id.
  induction Hl as [|x l Hx Hl IH]; [reflexivity|]. cbn [length flat_map toy_dec_list].
  rewrite <- app_assoc, Hc by auto. cbn [mbind result_bind]. now rewrite IH.
Qed.
Definition toy_IValue : Coder IValue := {|
  enc v := match v with Deleted => [0] | Value b => 1 :: enc toy_bytes b end;
  dec buf := match buf with
             | 0 :: rest => Ok (Deleted, rest)
             | 1 :: buf => '(b, rest) ← dec toy_bytes buf; Ok (Value b, rest)
             | _ => Err "UnexpectedVariant"
             end |}.
Definition toy_H256 : Coder H256 := {| enc h := h; dec buf := take_bytes 32 buf |}.

Definition toy_AppState (a : AppState) : bytes := root_hash a ++ code_hash a ++ creator a ++ to_be 4 (app_version a).
Definition toy_account (s : AccountState) : bytes :=
  to_be 8 (free_balance s) ++ to_be 8 (reserve_balance s) ++ to_be 8 (acc_nonce s) ++
  match app_state s with None => [0] | Some a => 1 :: toy_AppState a end.
Definition toy_AccountState : Codec AccountState := {|
  encode s := if bool_decide (is_vec (toy_account s)) then Ok (toy_account s) else Err "account"%string;
  decode buf :=
    '(f, buf) ← take_bytes 8 buf; '(r, buf) ← take_bytes 8 buf; '(n, buf) ← take_bytes 8 buf;
    let account a := {| free_balance := from_be f; reserve_balance := from_be r; acc_nonce := from_be n;
                        app_state := a |} in
    match buf with
    | 1 :: buf =>
      '(rh, buf) ← take_bytes 32 buf; '(ch, buf) ← take_bytes 32 buf; '(cr, buf) ← take_bytes 44 buf;
      Ok (account (Some {| root_hash := rh; code_hash := ch; creator := cr; app_version := from_be buf |}))
    | _ => Ok (account None)
    end |}.

#[export] Instance toy_bincode : Bincode := {|
  bin_snapshot := toy_list (toy_pair toy_bytes toy_bytes);
  bin_hasher := {| enc _ := []; dec buf := Ok (tt, buf) |};
  bin_H256 := toy_H256;
  bin_IValue := toy_IValue;
  bin_AppStateKey := {|
    enc k := enc (toy_pair toy_bytes toy_bytes) (app_address k, app_root k);
    dec buf := '((a, r), rest) ← dec (toy_pair toy_bytes toy_bytes) buf;
               Ok ({| app_address := a; app_root := r |}, rest) |};
  bin_AppMetadata := {|
    enc k := enc (toy_pair toy_bytes toy_bytes) (binary k, descriptor k);
    dec buf := '((a, r), rest) ← dec (toy_pair toy_bytes toy_bytes) buf;
               Ok ({| binary := a; descriptor := r |}, rest) |};
  prost_AccountState := toy_AccountState;
|}.

Lemma is_vec_to_be n v : is_vec (to_be n v).
Proof. eapply is_bytes_vec, is_bytes_to_be. Qed.

Lemma toy_account_vec s : wf_account s -> is_vec (toy_account s).
Proof.
  intros (Hf & Hr & Hn & Ha). unfold toy_account.
  repeat (apply is_vec_app; split; [apply is_vec_to_be|]).
  destruct (app_state s) as [a|]; [|exact (is_vec_to_be 1 0)].
  destruct Ha as (H1 & H2 & H3 & H4). constructor; [split; lia|]. unfold toy_AppState.
  rewrite !is_vec_app. repeat split; try (eapply is_bytes_vec; eassumption). apply is_vec_to_be.
Qed.
Lemma toy_account_decode s : wf_account s -> decode toy_AccountState (toy_account s) = Ok s.
Proof.
  intros (Hf & Hr & Hn & Ha). cbn [decode toy_AccountState]. unfold toy_account.
  do 3 (rewrite take_bytes_app by apply is_bytes_to_be; cbn [mbind result_bind]).
  destruct s as [f r n [[rh ch cr ver]|]]; cbn [free_balance reserve_balance acc_nonce app_state] in *.
  - destruct Ha as (H1 & H2 & H3 & H4). unfold toy_AppState. cbn [root_hash code_hash creator app_version] in *.
    cbv beta iota zeta.
    rewrite take_bytes_app by apply H1. cbn [mbind result_bind].
    rewrite take_bytes_app by apply H2. cbn [mbind result_bind].
    rewrite take_bytes_app by apply H3. cbn [mbind result_bind].
    now rewrite !from_to_be_id.
  - now rewrite !from_to_be_id.
Qed.

#[export] Instance toy_bincode_laws : BincodeLaws.
Proof.
  constructor.
  - intros l rest Hl. apply (toy_list_ok _ (fun _ => True)); [|now apply Forall_true].
    intros a r _. now apply (toy_pair_ok _ _ _ _ toy_bytes_ok toy_bytes_ok).
  - now intros [] rest _.
  - intros h rest [Hh _]. apply take_bytes_app. exact Hh.
  - intros [|b] rest _; [reflexivity|]. cbn [enc dec bin_IValue toy_bincode toy_IValue app].
    rewrite (toy_bytes_ok b rest Logic.I). reflexivity.
  - intros [|b]; discriminate.
  - intros [|b] Hb; cbn [enc bin_IValue toy_bincode toy_IValue]; [repeat constructor; lia|].
    constructor; [split; lia|]. apply is_vec_app. split; [|repeat constructor; lia].
    apply Forall_flat_map. eapply Forall_impl; [|exact Hb]. intros x Hx.
    constructor; [split; lia|]. constructor; [exact Hx | constructor].
  - intros s W. exists (toy_account s). cbn [encode decode prost_AccountState toy_bincode toy_AccountState].
    rewrite bool_decide_eq_true_2 by now apply toy_account_vec. split; [reflexivity | now apply toy_account_decode].
  - intros s b. cbn [encode prost_AccountState toy_bincode toy_AccountState]. case_bool_decide; [|discriminate].
    now intros [= <-].
Qed.
