(* ===== verification/SmtTree.v ===== *)
(** * Sparse Merkle tree: the trees the nodes describe

    Binary tries over 256-bit paths in which a subtree with a single leaf is
    that leaf and a subtree without leaves is empty, as the store of Smt.v
    represents them.  The file has their hashes, lookup, well-formedness,
    insertion and removal through a path's context, and the fact that a
    well-formed tree is determined by its lookups. *)
From S2P Require Import Prelude Types Smt.

(** ** Bits of a path *)

Definition bit (p : bytes) (i : nat) : bool :=
  match p !! (i / 8)%nat with Some b => Z.testbit b (7 - Z.of_nat i mod 8) | None => false end.

Lemma land_pow2 b k : 0 <= k -> (0 <? Z.land b (Z.shiftl 1 k)) = Z.testbit b k.
Proof.
  intros Hk. rewrite Z.shiftl_1_l. destruct (Z.testbit b k) eqn:E.
  - replace (Z.land b (2 ^ k)) with (2 ^ k); [apply Z.ltb_lt; lia|].
    apply Z.bits_inj'. intros i Hi. rewrite Z.land_spec.
    destruct (Z.eq_dec i k) as [->|Hne]; [now rewrite E, Z.pow2_bits_true|].
    now rewrite Z.pow2_bits_false, andb_false_r by auto.
  - replace (Z.land b (2 ^ k)) with 0; [reflexivity|].
    apply Z.bits_inj'. intros i Hi. rewrite Z.land_spec, Z.bits_0.
    destruct (Z.eq_dec i k) as [->|Hne]; [now rewrite E|].
    now rewrite Z.pow2_bits_false, andb_false_r by auto.
Qed.

Lemma get_bits_ok {E} p i :
  (i < 8 * length p)%nat -> get_bits_at_from_msb (E:=E) p i = Ok (Z.b2z (bit p i)).
Proof.
  intros Hi. unfold get_bits_at_from_msb, bit.
  assert (i / 8 < length p)%nat as Hlt by (apply Nat.Div0.div_lt_upper_bound; lia).
  apply lookup_lt_is_Some_2 in Hlt as [b ->]. cbn [unwrap mbind result_bind].
  rewrite land_pow2 by dlia. replace (8 - 1 - Z.of_nat i mod 8) with (7 - Z.of_nat i mod 8) by lia.
  now destruct (Z.testbit b _).
Qed.

Lemma bit_ext p q n :
  is_bytes n p -> is_bytes n q -> (forall i, (i < 8 * n)%nat -> bit p i = bit q i) -> p = q.
Proof.
  intros [Hp Bp] [Hq Bq] H. apply list_eq. intros j.
  destruct (Nat.lt_ge_cases j n) as [Hj|Hj].
  2: { rewrite !lookup_ge_None_2 by lia. reflexivity. }
  destruct (lookup_lt_is_Some_2 p j ltac:(lia)) as [a Ha].
  destruct (lookup_lt_is_Some_2 q j ltac:(lia)) as [b Hb]. rewrite Ha, Hb. f_equal.
  eapply Forall_lookup_1 in Bp, Bq; eauto. unfold is_byte, is_u in Bp, Bq.
  apply Z.bits_inj'. intros k Hk. destruct (Z.lt_ge_cases k 8).
  - specialize (H (8 * j + Z.to_nat (7 - k))%nat ltac:(lia)). unfold bit in H.
    rewrite Nat.mul_comm, Nat.div_add_l, Nat.div_small, Nat.add_0_r in H by lia.
    rewrite Ha, Hb in H.
    replace (7 - Z.of_nat (j * 8 + Z.to_nat (7 - k)) mod 8) with k in H; [exact H|]. dlia.
  - rewrite !(testbit_high 8) by lia. reflexivity.
Qed.

(** The two paths agree on the bits [d .. d + n - 1]. *)
Definition agree (p q : bytes) (d n : nat) : Prop := forall i, (d <= i < d + n)%nat -> bit p i = bit q i.

Lemma common_prefix_loop_ok {E} p q n i count :
  (i + n <= 8 * length p)%nat -> (i + n <= 8 * length q)%nat ->
  exists k, common_prefix_loop (E:=E) n i p q count = Ok (count + k)%nat /\ (k <= n)%nat /\
    agree p q i k /\ ((k < n)%nat -> bit p (i + k) <> bit q (i + k)).
Proof.
  revert i count. induction n as [|n IH]; intros i count Hp Hq; cbn [common_prefix_loop].
  - exists 0%nat. rewrite Nat.add_0_r. repeat split; try lia. intros j. lia.
  - rewrite !get_bits_ok by lia. cbn [mbind result_bind].
    destruct (bit p i) eqn:Bp, (bit q i) eqn:Bq; simpl.
    2,3: exists 0%nat; rewrite !Nat.add_0_r; repeat split; try lia;
         [intros j; lia | intros _; congruence].
    all: destruct (IH (S i) (S count) ltac:(lia) ltac:(lia)) as (k & -> & Hk & Ha & Hd).
    all: exists (S k); split; [f_equal; lia|]; split; [lia|].
    all: split; [intros j Hj; destruct (Nat.eq_dec j i) as [->|]; [congruence | apply Ha; lia]|].
    all: intros Hlt; replace (i + S k)%nat with (S i + k)%nat by lia; apply Hd; lia.
Qed.

(** The number of leading bits two paths share. *)
Definition common (p q : bytes) : nat :=
  match count_common_prefix (E:=unit) p q with Ok c => c | _ => 0 end.

Lemma common_prefix_spec {E} p q :
  is_bytes 32 p -> is_bytes 32 q ->
  count_common_prefix (E:=E) p q = Ok (common p q) /\ agree p q 0 (common p q) /\
  (common p q <= depth)%nat /\
  (p <> q -> (common p q < depth)%nat /\ bit p (common p q) <> bit q (common p q)).
Proof.
  intros Hp Hq. unfold common, count_common_prefix. change depth with 256%nat.
  destruct (common_prefix_loop_ok (E:=E) p q (length p * 8) 0 0) as (k & -> & Hk & Ha & Hd);
    [rewrite (proj1 Hp); lia | rewrite (proj1 Hp), (proj1 Hq); lia |].
  destruct (common_prefix_loop_ok (E:=unit) p q (length p * 8) 0 0) as (k' & -> & Hk' & Ha' & Hd');
    [rewrite (proj1 Hp); lia | rewrite (proj1 Hp), (proj1 Hq); lia |].
  rewrite (proj1 Hp) in *. simpl in *.
  assert (k' = k) as ->.
  { destruct (Nat.lt_trichotomy k k') as [Hlt|[->|Hlt]]; auto; exfalso.
    - apply (Hd ltac:(lia)). apply Ha'. lia.
    - apply (Hd' ltac:(lia)). apply Ha. lia. }
  split; [reflexivity|]. split; [exact Ha|]. split; [lia|]. intros Hne.
  assert (k < 256)%nat; [|auto]. destruct (Nat.lt_ge_cases k 256); [assumption|].
  exfalso. apply Hne, (bit_ext p q 32); auto. intros i Hi. apply Ha. lia.
Qed.

Lemma count_common_same {E} p : is_bytes 32 p -> count_common_prefix (E:=E) p p = Ok depth.
Proof.
  intros Hp. unfold count_common_prefix.
  destruct (common_prefix_loop_ok (E:=E) p p (length p * 8) 0 0) as (k & -> & Hk & _ & Hd);
    [rewrite (proj1 Hp); lia..|].
  rewrite (proj1 Hp) in *. destruct (Nat.lt_ge_cases k (32 * 8)); [now destruct (Hd H)|].
  f_equal. unfold depth, path_size, HASH_LEN. lia.
Qed.

(** ** Trees *)

Inductive tree :=
| TEmpty
| TLeaf (p : bytes) (vh : H256)
| TNode (l r : tree).
#[export] Instance tree_eq_dec : EqDecision tree.
Proof. solve_decision. Defined.

Fixpoint leaves (t : tree) : list (bytes * H256) :=
  match t with
  | TEmpty => []
  | TLeaf p vh => [(p, vh)]
  | TNode l r => leaves l ++ leaves r
  end.

Fixpoint tlookup (t : tree) (q : bytes) (d : nat) : option H256 :=
  match t with
  | TEmpty => None
  | TLeaf p vh => if decide (p = q) then Some vh else None
  | TNode l r => tlookup (if bit q d then r else l) q (S d)
  end.

(** Two children a node never has: a subtree with fewer than two leaves is not
    a node. *)
Definition collapsible (l r : tree) : bool :=
  match l, r with
  | TEmpty, TEmpty | TEmpty, TLeaf _ _ | TLeaf _ _, TEmpty => true
  | _, _ => false
  end.

Fixpoint wf_tree (t : tree) (d : nat) : Prop :=
  match t with
  | TEmpty => True
  | TLeaf p vh => is_bytes 32 p /\ is_bytes 32 vh
  | TNode l r =>
    (d < depth)%nat /\ collapsible l r = false /\
    Forall (fun x => bit x.1 d = false) (leaves l) /\ Forall (fun x => bit x.1 d = true) (leaves r) /\
    wf_tree l (S d) /\ wf_tree r (S d)
  end.

Lemma wf_leaves t d : wf_tree t d -> Forall (fun x => is_bytes 32 x.1 /\ is_bytes 32 x.2) (leaves t).
Proof.
  revert d. induction t as [|p vh|l IHl r IHr]; intros d H; simpl in *; auto.
  destruct H as (_ & _ & _ & _ & Hl & Hr). apply Forall_app; eauto.
Qed.

Lemma tlookup_leaf t d q vh : wf_tree t d -> tlookup t q d = Some vh <-> In (q, vh) (leaves t).
Proof.
  revert d. induction t as [|p v|l IHl r IHr]; intros d H; simpl in *.
  - split; [discriminate | tauto].
  - case_decide; split; intros; naive_solver.
  - destruct H as (_ & _ & Fl & Fr & Hl & Hr). rewrite in_app_iff.
    rewrite Forall_forall in Fl, Fr. destruct (bit q d) eqn:B.
    + rewrite (IHr (S d)) by auto. split; [auto|]. intros [Hin|]; auto.
      apply Fl in Hin. simpl in Hin. congruence.
    + rewrite (IHl (S d)) by auto. split; [auto|]. intros [|Hin]; auto.
      apply Fr in Hin. simpl in Hin. congruence.
Qed.

Lemma tlookup_None t d q : wf_tree t d -> (forall vh, ~ In (q, vh) (leaves t)) -> tlookup t q d = None.
Proof.
  intros H Hn. destruct (tlookup t q d) as [vh|] eqn:E; auto. apply tlookup_leaf in E; auto. naive_solver.
Qed.

Lemma wf_nonempty t d : wf_tree t d -> t <> TEmpty -> exists x, In x (leaves t).
Proof.
  revert d. induction t as [|p v|l IHl r IHr]; intros d H Hne; simpl in *; [congruence|eauto|].
  destruct H as (_ & Hc & _ & _ & Hl & Hr).
  destruct (decide (l = TEmpty)) as [->|Hl'].
  - destruct (decide (r = TEmpty)) as [->|Hr']; [discriminate|].
    destruct (IHr _ Hr Hr') as [x Hx]. exists x. now apply in_or_app; right.
  - destruct (IHl _ Hl Hl') as [x Hx]. exists x. apply in_or_app; now left.
Qed.

(** A node has two leaves with different paths. *)
Lemma wf_node_two l r d :
  wf_tree (TNode l r) d -> exists x y, In x (leaves (TNode l r)) /\ In y (leaves (TNode l r)) /\ x.1 <> y.1.
Proof.
  remember (TNode l r) as t eqn:Et. revert l r d Et.
  induction t as [|p v|l IHl r IHr]; intros l' r' d Et H; try discriminate.
  injection Et as <- <-. simpl in H. destruct H as (_ & Hc & Fl & Fr & Hl & Hr).
  rewrite Forall_forall in Fl, Fr. cbn [leaves].
  destruct (decide (l = TEmpty)) as [->|Hl'].
  - destruct r as [|? ?|rl rr]; try discriminate.
    destruct (IHr _ _ _ eq_refl Hr) as (x & y & Hx & Hy & Hne). exists x, y. auto using in_or_app.
  - destruct (decide (r = TEmpty)) as [->|Hr'].
    + destruct l as [|? ?|ll lr]; try discriminate.
      destruct (IHl _ _ _ eq_refl Hl) as (x & y & Hx & Hy & Hne). exists x, y. auto using in_or_app.
    + destruct (wf_nonempty _ _ Hl Hl') as [x Hx], (wf_nonempty _ _ Hr Hr') as [y Hy].
      exists x, y. repeat split; auto using in_or_app. intros E.
      specialize (Fl _ Hx). specialize (Fr _ Hy). congruence.
Qed.

(** A well-formed tree is determined by its lookups. *)
Lemma wf_canonical t1 t2 d :
  wf_tree t1 d -> wf_tree t2 d -> (forall q, tlookup t1 q d = tlookup t2 q d) -> t1 = t2.
Proof.
  revert t2 d. induction t1 as [|p v|l IHl r IHr]; intros t2 d H1 H2 E.
  - destruct (decide (t2 = TEmpty)) as [->|Hne]; auto.
    destruct (wf_nonempty _ _ H2 Hne) as [[q vh] Hin]. apply (tlookup_leaf _ d) in Hin; auto.
    rewrite <- E in Hin. discriminate.
  - destruct t2 as [|p' v'|l' r'].
    + specialize (E p). simpl in E. rewrite decide_True in E by auto. discriminate.
    + specialize (E p). simpl in E. rewrite decide_True in E by auto.
      case_decide; [|discriminate]. congruence.
    + destruct (wf_node_two _ _ _ H2) as ([q1 v1] & [q2 v2] & I1 & I2 & Hne).
      apply (tlookup_leaf _ d) in I1, I2; auto. rewrite <- E in I1, I2. simpl in *.
      repeat case_decide; try discriminate. congruence.
  - destruct t2 as [|p' v'|l' r'].
    + destruct (wf_nonempty _ _ H1 ltac:(discriminate)) as [[q vh] Hin].
      apply (tlookup_leaf _ d) in Hin; auto. rewrite E in Hin. discriminate.
    + destruct (wf_node_two _ _ _ H1) as ([q1 v1] & [q2 v2] & I1 & I2 & Hne).
      apply (tlookup_leaf _ d) in I1, I2; auto. rewrite E in I1, I2. simpl in *.
      repeat case_decide; try discriminate. congruence.
    + destruct H1 as (_ & _ & Fl & Fr & Wl & Wr), H2 as (_ & _ & Fl' & Fr' & Wl' & Wr').
      rewrite Forall_forall in Fl, Fr, Fl', Fr'.
      assert (forall u b q, wf_tree u (S d) -> (forall x, In x (leaves u) -> bit x.1 d = b) ->
        bit q d <> b -> tlookup u q (S d) = None) as Off.
      { intros u b q Hu Hb Hq. apply tlookup_None; auto. intros vh Hin. apply Hq, (Hb (q, vh) Hin). }
      f_equal; [apply (IHl _ (S d)) | apply (IHr _ (S d))]; auto; intros q; specialize (E q);
        cbn [tlookup] in E; destruct (bit q d) eqn:B; auto.
      * rewrite (Off l false), (Off l' false); auto; congruence.
      * rewrite (Off r true), (Off r' true); auto; congruence.
Qed.

Lemma lookup_repeat {A} (x : A) n j : (j < n)%nat -> repeat x n !! j = Some x.
Proof. revert j. induction n as [|n IH]; intros [|j] H; simpl; auto; try lia. apply IH. lia. Qed.

(** ** Contexts

    The siblings met on the way from the root along a path, root first. *)

(** The node at depth [d] of path [p] with sibling [s] and the child [t] the
    path goes through. *)
Definition join (p : bytes) (d : nat) (s t : tree) : tree := if bit p d then TNode s t else TNode t s.

(** [join], except that a lone leaf takes the place of its parent. *)
Definition mk (p : bytes) (d : nat) (s t : tree) : tree :=
  match s, t with
  | TLeaf _ _, TEmpty => s
  | TEmpty, TLeaf _ _ => t
  | _, _ => join p d s t
  end.

Fixpoint plug (p : bytes) (d : nat) (c : list tree) (t : tree) : tree :=
  match c with [] => t | s :: c => join p d s (plug p (S d) c t) end.
Fixpoint splug (p : bytes) (d : nat) (c : list tree) (t : tree) : tree :=
  match c with [] => t | s :: c => mk p d s (splug p (S d) c t) end.

(** The context of the place where the path [p] leaves the tree, and what is there. *)
Fixpoint descend (p : bytes) (t : tree) (d : nat) : list tree * tree :=
  match t with
  | TNode l r =>
    if bit p d then let '(c, u) := descend p r (S d) in (l :: c, u)
    else let '(c, u) := descend p l (S d) in (r :: c, u)
  | _ => ([], t)
  end.

Definition is_node (t : tree) : bool := match t with TNode _ _ => true | _ => false end.

Lemma descend_plug p t d c u : descend p t d = (c, u) -> t = plug p d c u /\ is_node u = false.
Proof.
  revert d c u. induction t as [|q v|l IHl r IHr]; intros d c u E; cbn [descend] in E.
  1,2: injection E as <- <-; auto.
  destruct (bit p d) eqn:B.
  - destruct (descend p r (S d)) as [c' u'] eqn:E'. injection E as <- <-.
    destruct (IHr _ _ _ E') as [-> Hu]. simpl. unfold join. now rewrite B.
  - destruct (descend p l (S d)) as [c' u'] eqn:E'. injection E as <- <-.
    destruct (IHl _ _ _ E') as [-> Hu]. simpl. unfold join. now rewrite B.
Qed.

Lemma descend_plug_node p d c u : is_node u = false -> descend p (plug p d c u) d = (c, u).
Proof.
  intros Hu. revert d. induction c as [|s c IH]; intros d; cbn [plug].
  - now destruct u.
  - unfold join. destruct (bit p d) eqn:B; cbn [descend]; now rewrite B, IH.
Qed.

Lemma plug_app p d c1 c2 t : plug p d (c1 ++ c2) t = plug p d c1 (plug p (d + length c1) c2 t).
Proof.
  revert d. induction c1 as [|s c1 IH]; intros d; simpl; [now rewrite Nat.add_0_r|].
  now rewrite IH, Nat.add_succ_r.
Qed.
Lemma splug_app p d c1 c2 t : splug p d (c1 ++ c2) t = splug p d c1 (splug p (d + length c1) c2 t).
Proof.
  revert d. induction c1 as [|s c1 IH]; intros d; simpl; [now rewrite Nat.add_0_r|].
  now rewrite IH, Nat.add_succ_r.
Qed.

Lemma plug_is_node p d c t : c <> [] -> is_node (plug p d c t) = true.
Proof. destruct c; [congruence|]. intros _. simpl. unfold join. now destruct (bit p d). Qed.

Lemma leaves_join p d s t x : In x (leaves (join p d s t)) <-> In x (leaves s) \/ In x (leaves t).
Proof. unfold join. destruct (bit p d); simpl; rewrite in_app_iff; tauto. Qed.
Lemma leaves_mk p d s t x : In x (leaves (mk p d s t)) <-> In x (leaves s) \/ In x (leaves t).
Proof. unfold mk. destruct s, t; rewrite ?leaves_join; simpl; tauto. Qed.

(** The leaves of the siblings of a context. *)
Definition in_context (c : list tree) (x : bytes * H256) : Prop := exists s, In s c /\ In x (leaves s).

Lemma in_context_cons s c x : in_context (s :: c) x <-> In x (leaves s) \/ in_context c x.
Proof. unfold in_context. simpl. naive_solver. Qed.
Lemma in_context_app c1 c2 x : in_context (c1 ++ c2) x <-> in_context c1 x \/ in_context c2 x.
Proof. unfold in_context. setoid_rewrite in_app_iff. naive_solver. Qed.
Lemma in_context_empties k x : ~ in_context (repeat TEmpty k) x.
Proof. intros (s & Hs & Hx). apply repeat_spec in Hs. now subst. Qed.

Lemma leaves_plug p d c t x : In x (leaves (plug p d c t)) <-> In x (leaves t) \/ in_context c x.
Proof.
  revert d. induction c as [|s c IH]; intros d; cbn [plug].
  - unfold in_context. simpl. naive_solver.
  - rewrite leaves_join, in_context_cons, IH. tauto.
Qed.
Lemma leaves_splug p d c t x : In x (leaves (splug p d c t)) <-> In x (leaves t) \/ in_context c x.
Proof.
  revert d. induction c as [|s c IH]; intros d; cbn [splug].
  - unfold in_context. simpl. naive_solver.
  - rewrite leaves_mk, in_context_cons, IH. tauto.
Qed.

(** ** Well-formed contexts *)

(** The siblings branch off the path [p] at their depth. *)
Fixpoint wf_context (p : bytes) (d : nat) (c : list tree) : Prop :=
  match c with
  | [] => True
  | s :: c =>
    (d < depth)%nat /\ wf_tree s (S d) /\
    (forall x, In x (leaves s) -> agree p x.1 0 d /\ bit x.1 d = negb (bit p d)) /\
    wf_context p (S d) c
  end.

(** No node of the context collapses. *)
Fixpoint tight (p : bytes) (d : nat) (c : list tree) (t : tree) : Prop :=
  match c with
  | [] => True
  | s :: c => collapsible s (plug p (S d) c t) = false /\ tight p (S d) c t
  end.

Lemma collapsible_comm s t : collapsible s t = collapsible t s.
Proof. now destruct s, t. Qed.
Lemma collapsible_node s t : is_node t = true -> collapsible s t = false.
Proof. destruct s, t; simpl; congruence. Qed.

Lemma agree_S p q d : agree p q 0 (S d) <-> agree p q 0 d /\ bit p d = bit q d.
Proof.
  unfold agree. split.
  - intros H. split; [intros i Hi; apply H; lia | apply H; lia].
  - intros [H E] i Hi. destruct (Nat.eq_dec i d) as [->|]; auto. apply H. lia.
Qed.

Lemma wf_join p d s t :
  wf_tree (join p d s t) d <->
  (d < depth)%nat /\ collapsible s t = false /\ wf_tree s (S d) /\ wf_tree t (S d) /\
  (forall x, In x (leaves s) -> bit x.1 d = negb (bit p d)) /\
  (forall x, In x (leaves t) -> bit x.1 d = bit p d).
Proof.
  unfold join. destruct (bit p d); cbn [wf_tree negb]; rewrite !Forall_forall;
    rewrite ?(collapsible_comm t s); tauto.
Qed.

Lemma wf_plug p d c t :
  (forall x, In x (leaves (plug p d c t)) -> agree p x.1 0 d) ->
  wf_tree (plug p d c t) d <->
  wf_context p d c /\ tight p d c t /\ wf_tree t (d + length c) /\
  (forall x, In x (leaves t) -> agree p x.1 0 (d + length c)).
Proof.
  revert d. induction c as [|s c IH]; intros d Hag; cbn [plug wf_context tight length].
  - rewrite Nat.add_0_r. simpl in Hag. tauto.
  - cbn [plug] in Hag. setoid_rewrite leaves_join in Hag. rewrite wf_join.
    replace (d + S (length c))%nat with (S d + length c)%nat by lia. split.
    + intros (Hd & Hc & Ws & Wt & Bs & Bt).
      apply IH in Wt as (Wc & T & Wu & Au);
        [|intros x Hx; apply agree_S; split; [now apply Hag; right | symmetry; now apply Bt]].
      repeat split; auto.
    + intros ((Hd & Ws & Bs & Wc) & (Hc & T) & Wu & Au).
      assert (forall x, In x (leaves (plug p (S d) c t)) -> bit x.1 d = bit p d) as Bt.
      { intros x Hx. apply leaves_plug in Hx as [Hx|(s' & Hs' & Hx)].
        - symmetry. apply (Au x Hx). lia.
        - clear -Wc Hs' Hx. revert Wc Hs'. generalize (S d) (Nat.lt_succ_diag_r d). revert c.
          induction c as [|s c IHc]; intros e He Wc Hs'; [contradiction|].
          destruct Wc as (_ & _ & Bs & Wc). destruct Hs' as [->|Hs'].
          + symmetry. apply (Bs x Hx). lia.
          + apply (IHc (S e)); auto. }
      repeat split; auto.
      * apply IH; auto. intros x Hx. apply agree_S. split; [now apply Hag; right|].
        symmetry. now apply Bt.
      * intros x Hx. now apply Bs.
Qed.

(** Filling a place that held at most one leaf with something that is not empty. *)
Lemma tight_fill p d c u t :
  tight p d c u -> is_node u = false -> t <> TEmpty -> tight p d c t.
Proof.
  intros H Hu Ht. revert d H. induction c as [|s c IH]; intros d; simpl; auto.
  intros [Hc H]. split; [|auto]. destruct c as [|s' c].
  - simpl in *. destruct u, s, t; simpl in *; congruence.
  - apply collapsible_node, plug_is_node. discriminate.
Qed.

Lemma tight_app p d c1 c2 t :
  tight p d (c1 ++ c2) t <-> tight p d c1 (plug p (d + length c1) c2 t) /\ tight p (d + length c1) c2 t.
Proof.
  revert d. induction c1 as [|s c1 IH]; intros d; simpl; [rewrite Nat.add_0_r; tauto|].
  rewrite IH, plug_app, Nat.add_succ_r. simpl. tauto.
Qed.

Lemma tight_empties p d k t : is_node t = true -> tight p d (repeat TEmpty k) t.
Proof.
  intros Ht. revert d. induction k as [|k IH]; intros d; cbn [repeat tight]; auto. split; [|auto].
  apply collapsible_node. destruct k; auto. now apply plug_is_node.
Qed.

Lemma wf_context_app p d c1 c2 :
  wf_context p d (c1 ++ c2) <-> wf_context p d c1 /\ wf_context p (d + length c1) c2.
Proof.
  revert d. induction c1 as [|s c1 IH]; intros d; simpl; [rewrite Nat.add_0_r; tauto|].
  rewrite IH, Nat.add_succ_r. simpl. tauto.
Qed.

Lemma wf_context_empties p d k : (d + k <= depth)%nat -> wf_context p d (repeat TEmpty k).
Proof.
  revert d. induction k as [|k IH]; intros d H; cbn [repeat wf_context]; auto.
  repeat split; try lia; try (simpl in *; tauto). apply IH. lia.
Qed.

(** No sibling of the path [p] has a leaf at [p]. *)
Lemma wf_context_off p d c vh : wf_context p d c -> ~ in_context c (p, vh).
Proof.
  revert d. induction c as [|s c IH]; intros d H (s' & Hs & Hx); [contradiction|].
  destruct H as (_ & _ & Bs & Wc). destruct Hs as [->|Hs].
  - destruct (Bs _ Hx) as [_ E]. simpl in E. destruct (bit p d); discriminate.
  - apply (IH (S d) Wc). now exists s'.
Qed.

Lemma wf_context_in p d c s : wf_context p d c -> In s c -> exists d', wf_tree s d'.
Proof.
  revert d. induction c as [|s' c IH]; intros d H Hs; [contradiction|].
  destruct H as (_ & Ws & _ & Wc). destruct Hs as [->|Hs]; eauto.
Qed.

Lemma wf_context_length p d c : wf_context p d c -> (d <= depth)%nat -> (d + length c <= depth)%nat.
Proof.
  revert d. induction c as [|s c IH]; intros d H Hd; simpl in *; [lia|].
  destruct H as (Hlt & _ & _ & H). specialize (IH (S d) H). lia.
Qed.

(** ** Insertion and removal *)

Definition tinsert (p : bytes) (vh : H256) (t : tree) : tree :=
  let '(c, u) := descend p t 0 in
  match u with
  | TLeaf p' vh' =>
    if decide (p = p') then plug p 0 c (TLeaf p vh)
    else plug p 0 (c ++ repeat TEmpty (common p p' - length c))
           (join p (common p p') (TLeaf p' vh') (TLeaf p vh))
  | _ => plug p 0 c (TLeaf p vh)
  end.

Definition tremove (p : bytes) (t : tree) : tree :=
  let '(c, u) := descend p t 0 in
  match u with
  | TLeaf p' _ => if decide (p = p') then splug p 0 c TEmpty else t
  | _ => t
  end.

Lemma agree_0 p q : agree p q 0 0.
Proof. intros i. lia. Qed.

(** The place where a path leaves a well-formed tree. *)
Lemma descend_wf p t c u :
  wf_tree t 0 -> descend p t 0 = (c, u) ->
  t = plug p 0 c u /\ is_node u = false /\ wf_context p 0 c /\ tight p 0 c u /\
  wf_tree u (length c) /\ (forall x, In x (leaves u) -> agree p x.1 0 (length c)) /\
  (length c <= depth)%nat.
Proof.
  intros W E. destruct (descend_plug _ _ _ _ _ E) as [-> Hu].
  apply wf_plug in W as (Wc & T & Wu & Au); [|intros; apply agree_0].
  repeat split; auto. apply (wf_context_length p 0); auto. lia.
Qed.

(** The depth at which a new leaf parts from the leaf found in its place. *)
Lemma common_split p p' n :
  is_bytes 32 p -> is_bytes 32 p' -> p <> p' -> agree p p' 0 n ->
  (n <= common p p' < depth)%nat /\ bit p' (common p p') = negb (bit p (common p p')).
Proof.
  intros Hp Hp' Hne Ha. destruct (common_prefix_spec (E:=unit) p p' Hp Hp') as (_ & _ & _ & H).
  destruct (H Hne) as [Hlt Hd]. split.
  - split; auto. destruct (Nat.le_gt_cases n (common p p')); auto. exfalso. apply Hd, Ha. lia.
  - destruct (bit p _), (bit p' _); simpl; congruence.
Qed.

Lemma wf_join_leaves p vh p' vh' :
  is_bytes 32 p -> is_bytes 32 vh -> is_bytes 32 p' -> is_bytes 32 vh' -> p <> p' ->
  wf_tree (join p (common p p') (TLeaf p' vh') (TLeaf p vh)) (common p p').
Proof.
  intros Hp Hv Hp' Hv' Hne.
  destruct (common_split p p' 0 Hp Hp' Hne (agree_0 _ _)) as [Hlt Hb].
  apply wf_join. simpl. repeat split; try lia; try apply Hp'; try apply Hv'; try apply Hp; try apply Hv;
    naive_solver.
Qed.

Lemma tinsert_spec p vh t :
  wf_tree t 0 -> is_bytes 32 p -> is_bytes 32 vh ->
  wf_tree (tinsert p vh t) 0 /\
  (forall x, In x (leaves (tinsert p vh t)) <-> x = (p, vh) \/ (In x (leaves t) /\ x.1 <> p)).
Proof.
  intros W Hp Hv. unfold tinsert. destruct (descend p t 0) as [c u] eqn:E.
  destruct (descend_wf _ _ _ _ W E) as (-> & Hu & Wc & T & Wu & Au & Hlen).
  assert (forall x, in_context c x -> x.1 <> p) as Off.
  { intros [q v] Hx Eq. simpl in Eq. subst q. now apply (wf_context_off p 0 c v). }
  assert (wf_tree (plug p 0 c (TLeaf p vh)) 0) as Wplug.
  { apply wf_plug; [intros; apply agree_0|]. repeat split; auto; try apply Hp; try apply Hv.
    - eapply tight_fill; eauto; discriminate.
    - intros x [<-|[]] i _. reflexivity. }
  destruct u as [|p' vh'|l r]; [| |discriminate]; [|case_decide as Hpp].
  - split; [exact Wplug|]. intros x. rewrite !leaves_plug. simpl. naive_solver.
  - subst p'. split; [exact Wplug|]. intros x. rewrite !leaves_plug. simpl. naive_solver.
  - destruct Wu as [Hp' Hv']. specialize (Au (p', vh') ltac:(now left)). simpl in Au.
    destruct (common_split p p' _ Hp Hp' Hpp Au) as [Hk Hb].
    destruct (common_prefix_spec (E:=unit) p p' Hp Hp') as (_ & Hag & _).
    split.
    + apply wf_plug; [intros; apply agree_0|]. rewrite Nat.add_0_l, length_app, repeat_length.
      replace (length c + (common p p' - length c))%nat with (common p p') by lia.
      assert (is_node (join p (common p p') (TLeaf p' vh') (TLeaf p vh)) = true) as Hj
        by (unfold join; now destruct (bit p _)).
      repeat split.
      * apply wf_context_app. split; auto. apply wf_context_empties. simpl. lia.
      * apply tight_app. split; [|now apply tight_empties].
        eapply tight_fill; eauto. intros Ee. apply (f_equal is_node) in Ee.
        destruct (common p p' - length c)%nat eqn:Ek; [simpl in Ee; congruence|].
        rewrite plug_is_node in Ee by discriminate. discriminate.
      * now apply wf_join_leaves.
      * intros x Hx. apply leaves_join in Hx as [[<-|[]]|[<-|[]]]; [exact Hag | now intros i _].
    + intros x. rewrite !leaves_plug, in_context_app, leaves_join. simpl.
      pose proof (in_context_empties (common p p' - length c) x). naive_solver.
Qed.

Lemma wf_mk p d s t :
  (d < depth)%nat -> wf_tree s (S d) -> wf_tree t (S d) ->
  (forall x, In x (leaves s) -> bit x.1 d = negb (bit p d)) ->
  (forall x, In x (leaves t) -> bit x.1 d = bit p d) ->
  s <> TEmpty \/ t <> TEmpty ->
  wf_tree (mk p d s t) d /\ mk p d s t <> TEmpty.
Proof.
  intros Hd Ws Wt Bs Bt Hne. destruct (collapsible s t) eqn:C.
  - destruct s, t; simpl in C; try discriminate; simpl in *; split; auto; try discriminate;
      destruct Hne; congruence.
  - assert (mk p d s t = join p d s t) as -> by (destruct s, t; simpl in *; congruence).
    split; [apply wf_join; auto 10|]. unfold join. now destruct (bit p d).
Qed.

Lemma wf_splug p d c vh :
  wf_context p d c -> tight p d c (TLeaf p vh) ->
  wf_tree (splug p d c TEmpty) d /\ (c <> [] -> splug p d c TEmpty <> TEmpty) /\
  (forall x, In x (leaves (splug p d c TEmpty)) -> agree p x.1 0 d).
Proof.
  revert d. induction c as [|s c IH]; intros d Wc T; [simpl; repeat split; tauto|].
  destruct Wc as (Hd & Ws & Bs & Wc). destruct T as [Hc T].
  destruct (IH (S d) Wc T) as (Wt & Hne & Hag). cbn [splug].
  destruct (wf_mk p d s (splug p (S d) c TEmpty)) as [W N]; auto.
  - intros x Hx. now apply Bs.
  - intros x Hx. symmetry. apply (Hag x Hx). lia.
  - destruct c as [|s' c]; [|right; now apply Hne]. left. simpl in Hc. now destruct s.
  - repeat split; auto. intros x Hx. apply leaves_mk in Hx as [Hx|Hx].
    + now apply Bs.
    + now apply agree_S, (Hag x Hx).
Qed.

Lemma tremove_spec p t :
  wf_tree t 0 ->
  wf_tree (tremove p t) 0 /\
  (forall x, In x (leaves (tremove p t)) <-> In x (leaves t) /\ x.1 <> p).
Proof.
  intros W. unfold tremove. destruct (descend p t 0) as [c u] eqn:E.
  destruct (descend_wf _ _ _ _ W E) as (-> & Hu & Wc & T & Wu & Au & Hlen).
  assert (forall x, in_context c x -> x.1 <> p) as Off.
  { intros [q v] Hx Eq. simpl in Eq. subst q. now apply (wf_context_off p 0 c v). }
  destruct u as [|p' vh'|l r]; [| |discriminate]; [|case_decide as Hpp].
  - split; auto. intros x. rewrite leaves_plug. simpl. naive_solver.
  - subst p'. destruct (wf_splug p 0 c vh' Wc T) as (W' & _). split; auto.
    intros x. rewrite leaves_plug, leaves_splug. simpl. naive_solver.
  - split; auto. intros x. rewrite leaves_plug. simpl. naive_solver.
Qed.

Lemma option_ext {A} (o1 o2 : option A) : (forall a, o1 = Some a <-> o2 = Some a) -> o1 = o2.
Proof. intros H. destruct o1, o2; naive_solver. Qed.

Lemma tlookup_tinsert p vh t q :
  wf_tree t 0 -> is_bytes 32 p -> is_bytes 32 vh ->
  tlookup (tinsert p vh t) q 0 = if decide (q = p) then Some vh else tlookup t q 0.
Proof.
  intros W Hp Hv. destruct (tinsert_spec p vh t W Hp Hv) as [W' L]. apply option_ext. intros v.
  rewrite tlookup_leaf, L by auto. case_decide as Hq; simpl.
  - subst q. naive_solver.
  - rewrite tlookup_leaf by auto. naive_solver.
Qed.

Lemma tlookup_tremove p t q :
  wf_tree t 0 -> tlookup (tremove p t) q 0 = if decide (q = p) then None else tlookup t q 0.
Proof.
  intros W. destruct (tremove_spec p t W) as [W' L]. apply option_ext. intros v.
  rewrite tlookup_leaf, L by auto. case_decide as Hq; simpl.
  - naive_solver.
  - rewrite tlookup_leaf by auto. naive_solver.
Qed.
