(* ===== verification/SmtProofs.v ===== *)
(** * Sparse Merkle tree: the code implements a map

    The store of Smt.v represents a tree of SmtTree.v, and through it a map from
    paths to values.  Updates, deletions and lookups of the code are the
    operations of that map, the root depends only on the map, the proofs the code
    produces verify, and a proof that verifies tells the truth about the map
    unless the hashes it contains exhibit a collision.

    No global assumption is made on the hash function beyond its output length;
    where distinct nodes must have distinct hashes, the hypothesis
    [collision_free] speaks of the finitely many nodes involved. *)
From S2P Require Import Prelude Crypto Types Smt SmtTree.

Section SmtProofs.
Variable digest : bytes -> H256.
Hypothesis digest_len : forall m, is_bytes 32 (digest m).

(** ** Hashes of trees *)

Fixpoint thash (t : tree) : H256 :=
  match t with
  | TEmpty => placeholder
  | TLeaf p vh => (digest_leaf digest p vh).1
  | TNode l r => (digest_node digest (thash l) (thash r)).1
  end.

Definition tdata (t : tree) : bytes :=
  match t with
  | TEmpty => []
  | TLeaf p vh => (digest_leaf digest p vh).2
  | TNode l r => (digest_node digest (thash l) (thash r)).2
  end.

Fixpoint node_data (t : tree) : list bytes :=
  match t with
  | TEmpty => []
  | TLeaf _ _ => [tdata t]
  | TNode l r => tdata t :: node_data l ++ node_data r
  end.

(** The strings of [U] have distinct hashes, none of which is the placeholder. *)
Definition collision_free (U : list bytes) : Prop :=
  (forall x y, In x U -> In y U -> digest x = digest y -> x = y) /\
  (forall x, In x U -> digest x <> placeholder).

Lemma collision_free_sub U V : collision_free U -> incl V U -> collision_free V.
Proof. intros [H1 H2] Hi. split; auto. Qed.

Lemma thash_len t : is_bytes 32 (thash t).
Proof. destruct t; simpl; auto. split; [reflexivity|]. repeat constructor; lia. Qed.

Lemma thash_digest t : t <> TEmpty -> thash t = digest (tdata t) /\ In (tdata t) (node_data t).
Proof. destruct t; simpl; [congruence | auto..]. Qed.

Lemma parse_leaf_data {E} p vh : is_bytes 32 p -> parse_leaf (E:=E) (tdata (TLeaf p vh)) = Ok (p, vh).
Proof.
  intros Hp. unfold parse_leaf, parse_hashes, tdata, digest_leaf. cbn [snd].
  rewrite take_bytes_app by reflexivity. cbn [mbind result_bind]. now rewrite take_bytes_app by apply Hp.
Qed.
Lemma parse_node_data {E} l r : parse_node (E:=E) (tdata (TNode l r)) = Ok (thash l, thash r).
Proof.
  unfold parse_node, parse_hashes, tdata, digest_node. cbn [snd].
  rewrite take_bytes_app by reflexivity. cbn [mbind result_bind].
  now rewrite take_bytes_app by apply thash_len.
Qed.
Lemma is_leaf_data {E} t : t <> TEmpty -> is_leaf (E:=E) (tdata t) = Ok (negb (is_node t)).
Proof.
  destruct t; [congruence|..]; intros _; unfold is_leaf, tdata, digest_leaf, digest_node;
    cbn [snd]; rewrite take_bytes_app by reflexivity; reflexivity.
Qed.

(** Equal hashes, equal trees, when the nodes involved do not collide. *)
Lemma thash_inj U t1 t2 d1 d2 :
  collision_free U -> incl (node_data t1) U -> incl (node_data t2) U ->
  wf_tree t1 d1 -> wf_tree t2 d2 -> thash t1 = thash t2 -> t1 = t2.
Proof.
  intros [Hinj Hnz] I1 I2 W1 W2. revert t2 d1 d2 I1 I2 W1 W2.
  induction t1 as [|p v|l IHl r IHr]; intros t2 d1 d2 I1 I2 W1 W2 E.
  - destruct (decide (t2 = TEmpty)) as [->|Hne]; auto. exfalso.
    destruct (thash_digest _ Hne) as [E2 Hin]. apply (Hnz (tdata t2)); auto. now rewrite <- E2, <- E.
  - destruct (decide (t2 = TEmpty)) as [->|Hne].
    { exfalso. apply (Hnz (tdata (TLeaf p v))); auto. apply I1. now left. }
    destruct (thash_digest _ Hne) as [E2 Hin]. rewrite E2 in E.
    assert (tdata (TLeaf p v) = tdata t2) as Ed by (apply Hinj; auto; apply I1; now left).
    destruct t2 as [|p' v'|l' r']; [congruence| |discriminate Ed].
    injection Ed as Ed. apply app_inj_len in Ed as [-> ->]; auto.
    destruct W1 as [[H1 _] _], W2 as [[H2 _] _]. congruence.
  - destruct (decide (t2 = TEmpty)) as [->|Hne].
    { exfalso. apply (Hnz (tdata (TNode l r))); auto. apply I1. now left. }
    destruct (thash_digest _ Hne) as [E2 Hin]. rewrite E2 in E.
    assert (tdata (TNode l r) = tdata t2) as Ed by (apply Hinj; auto; apply I1; now left).
    destruct t2 as [|p' v'|l' r']; [congruence|discriminate Ed|].
    injection Ed as Ed.
    apply app_inj_len in Ed as [El Er]; [|now rewrite (proj1 (thash_len l)), (proj1 (thash_len l'))].
    destruct W1 as (_ & _ & _ & _ & Wl & Wr), W2 as (_ & _ & _ & _ & Wl' & Wr').
    assert (incl (node_data l) U /\ incl (node_data r) U /\ incl (node_data l') U /\ incl (node_data r') U)
      as (? & ? & ? & ?) by (repeat split; intros x Hx; [apply I1|apply I1|apply I2|apply I2];
        right; apply in_or_app; auto).
    f_equal; [eapply IHl | eapply IHr]; eauto.
Qed.

(** ** Stored trees *)

Fixpoint stored (st : MemoryStorage) (t : tree) : Prop :=
  match t with
  | TEmpty => True
  | TLeaf _ _ => thash t <> placeholder /\ st !! thash t = Some (tdata t)
  | TNode l r => (thash t <> placeholder /\ st !! thash t = Some (tdata t)) /\ stored st l /\ stored st r
  end.

Lemma stored_root st t :
  stored st t -> t <> TEmpty -> thash t <> placeholder /\ st !! thash t = Some (tdata t).
Proof. destruct t; simpl; tauto. Qed.

Lemma stored_zero st t : stored st t -> is_zero_hash (thash t) = bool_decide (t = TEmpty).
Proof.
  intros H. unfold is_zero_hash. fold placeholder. destruct (decide (t = TEmpty)) as [->|Hne].
  - rewrite !bool_decide_eq_true_2; auto.
  - rewrite !bool_decide_eq_false_2; auto. now apply (stored_root st).
Qed.

Lemma stored_insert U st t v :
  collision_free U -> incl (node_data t) U -> In v U ->
  stored st t -> stored (<[digest v := v]> st) t.
Proof.
  intros HU. revert U HU.
  assert (forall U t, collision_free U -> t <> TEmpty -> In (tdata t) U -> In v U ->
    st !! thash t = Some (tdata t) -> <[digest v := v]> st !! thash t = Some (tdata t)) as Step.
  { intros U u [Hinj _] Hne Hu Hv Hs. destruct (thash_digest u Hne) as [E _].
    destruct (decide (digest v = thash u)) as [Ed|Hd]; [|now rewrite lookup_insert_ne].
    rewrite <- Ed, lookup_insert_eq. f_equal. apply Hinj; auto. congruence. }
  induction t as [|p w|l IHl r IHr]; intros U HU Hi Hv Hs; auto.
  - destruct Hs as [Hz Hs]. split; auto. apply (Step U (TLeaf p w)); auto.
    apply Hi. now left.
  - destruct Hs as ([Hz Hs] & Hl & Hr). assert (incl (node_data l ++ node_data r) U) as Hlr
      by (intros x Hx; apply Hi; now right).
    apply incl_app_inv in Hlr as [Il Ir]. split; [split; auto|split; eauto].
    apply (Step U (TNode l r)); auto. apply Hi. now left.
Qed.

Fixpoint subtrees (t : tree) : list tree :=
  t :: match t with TNode l r => subtrees l ++ subtrees r | _ => [] end.

Lemma stored_delete st t k :
  (forall s, In s (subtrees t) -> s <> TEmpty -> thash s <> k) -> stored st t -> stored (delete k st) t.
Proof.
  induction t as [|p w|l IHl r IHr]; intros Hk Hs; auto.
  - destruct Hs as [Hz Hs]. split; auto. rewrite lookup_delete_ne; auto. apply not_eq_sym, Hk.
    + now left.
    + discriminate.
  - destruct Hs as ([Hz Hs] & Hl & Hr). split; [split; auto|].
    + rewrite lookup_delete_ne; auto. apply not_eq_sym, Hk; [now left | discriminate].
    + split; [apply IHl | apply IHr]; auto; intros s Hs'; apply Hk; right; apply in_or_app; auto.
Qed.

Lemma subtrees_data t s : In s (subtrees t) -> incl (node_data s) (node_data t).
Proof.
  revert s. induction t as [|p w|l IHl r IHr]; intros s [<-|Hs]; try apply incl_refl; try contradiction.
  apply in_app_or in Hs. intros x Hx. right. apply in_or_app.
  destruct Hs as [Hs|Hs]; [left; now apply (IHl s) | right; now apply (IHr s)].
Qed.

Lemma subtrees_leaves t s x : In s (subtrees t) -> In x (leaves s) -> In x (leaves t).
Proof.
  induction t as [|p w|l IHl r IHr]; intros [<-|Hs]; auto; try contradiction.
  apply in_app_or in Hs. intros Hx. simpl. apply in_or_app. destruct Hs; auto.
Qed.

Lemma subtrees_wf t s d : In s (subtrees t) -> wf_tree t d -> exists d', wf_tree s d'.
Proof.
  revert d. induction t as [|p w|l IHl r IHr]; intros d [<-|Hs] W; eauto; try contradiction.
  apply in_app_or in Hs. destruct W as (_ & _ & _ & _ & Wl & Wr). destruct Hs; eauto.
Qed.

Lemma subtrees_refl t : In t (subtrees t).
Proof. destruct t; now left. Qed.

(** [thash_inj] for subtrees of two trees over [U]. *)
Lemma subtree_inj U w1 w2 d1 d2 s1 s2 :
  collision_free U -> wf_tree w1 d1 -> incl (node_data w1) U -> wf_tree w2 d2 -> incl (node_data w2) U ->
  In s1 (subtrees w1) -> In s2 (subtrees w2) -> thash s1 = thash s2 -> s1 = s2.
Proof.
  intros HU W1 I1 W2 I2 H1 H2 E.
  destruct (subtrees_wf _ _ _ H1 W1) as [e1 V1], (subtrees_wf _ _ _ H2 W2) as [e2 V2].
  apply (thash_inj U s1 s2 e1 e2); auto; (eapply incl_tran; [apply subtrees_data; eassumption | assumption]).
Qed.

Fixpoint tsize (t : tree) : nat := match t with TNode l r => S (tsize l + tsize r) | _ => 1 end.

Lemma subtrees_size t s : In s (subtrees t) -> (tsize s <= tsize t)%nat.
Proof.
  induction t as [|p w|l IHl r IHr]; intros [<-|Hs]; auto; try contradiction.
  apply in_app_or in Hs. simpl. destruct Hs as [Hs|Hs]; [apply IHl in Hs | apply IHr in Hs]; lia.
Qed.

(** ** Descending along a path *)

(** The inner nodes on the path, root first. *)
Fixpoint ispine (p : bytes) (d : nat) (c : list tree) (u : tree) : list tree :=
  match c with [] => [] | _ :: c' => plug p d c u :: ispine p (S d) c' u end.
(** With the place [u] at the end. *)
Definition spine (p : bytes) (d : nat) (c : list tree) (u : tree) : list tree := ispine p d c u ++ [u].

(** The hashes of a list of trees, deepest first. *)
Definition rhashes (l : list tree) : list H256 := reverse (thash <$> l).

Lemma rhashes_cons t l : rhashes (t :: l) = rhashes l ++ [thash t].
Proof. unfold rhashes. now rewrite fmap_cons, reverse_cons. Qed.

Lemma stored_join st p d s t : stored st (join p d s t) -> stored st s /\ stored st t.
Proof. unfold join. destruct (bit p d); simpl; tauto. Qed.

Lemma parse_join {E} p d s t :
  exists l r, parse_node (E:=E) (tdata (join p d s t)) = Ok (l, r) /\
    (if bit p d then (l, r) else (r, l)) = (thash s, thash t).
Proof. unfold join. destruct (bit p d); rewrite parse_node_data; eauto. Qed.

Lemma side_nodes_step st p n d s t side sides pnodes :
  is_bytes 32 p -> (d < depth)%nat ->
  side_nodes_loop st p (S n) d (tdata (join p d s t)) side sides pnodes =
  if is_zero_hash (thash t) then Ok ([], thash s, thash s :: sides, thash t :: pnodes)
  else
    current_data ← Storage_get st (thash t);
    leaf ← is_leaf current_data;
    if (leaf : bool) then Ok (current_data, thash s, thash s :: sides, thash t :: pnodes)
    else side_nodes_loop st p n (S d) current_data (thash s) (thash s :: sides) (thash t :: pnodes).
Proof.
  intros Hp Hd. cbn [side_nodes_loop]. destruct (parse_join (E:=SmtError) p d s t) as (l & r & -> & Hlr).
  cbn [mbind result_bind]. rewrite get_bits_ok by (rewrite (proj1 Hp); unfold depth in Hd; simpl in Hd; lia).
  cbn [mbind result_bind].
  replace (Z.b2z (bit p d) =? 1) with (bit p d) by now destruct (bit p d).
  rewrite Hlr, !fixed_bytes_ok by apply thash_len. reflexivity.
Qed.

Lemma side_nodes_loop_spec st p c u s d side sides pnodes :
  is_bytes 32 p -> is_node u = false -> wf_context p d (s :: c) -> stored st (plug p d (s :: c) u) ->
  exists side', side_nodes_loop st p (depth - d) d (tdata (plug p d (s :: c) u)) side sides pnodes
    = Ok (tdata u, side', rhashes (s :: c) ++ sides, rhashes (spine p (S d) c u) ++ pnodes).
Proof.
  intros Hp Hu. revert s d side sides pnodes.
  induction c as [|s' c IH]; intros s d side sides pnodes Wc Hst; destruct Wc as (Hd & _ & _ & Wc);
    replace (depth - d)%nat with (S (depth - S d)) by lia; cbn [plug] in *;
    rewrite side_nodes_step by auto; apply stored_join in Hst as [Hs Ht]; rewrite (stored_zero st) by auto.
  - destruct (decide (u = TEmpty)) as [->|Hne]; [simpl; eauto|].
    rewrite bool_decide_eq_false_2 by auto. destruct (stored_root _ _ Ht Hne) as [_ E].
    unfold Storage_get. rewrite E. cbn [ok_or mbind result_bind].
    rewrite is_leaf_data, Hu by auto. simpl. eauto.
  - set (t := join p (S d) s' (plug p (S (S d)) c u)) in *.
    assert (is_node t = true) as Hnode by (subst t; unfold join; now destruct (bit p (S d))).
    assert (t <> TEmpty) as Hne by (intros E; rewrite E in Hnode; discriminate).
    rewrite bool_decide_eq_false_2 by auto. destruct (stored_root _ _ Ht Hne) as [_ E].
    unfold Storage_get. rewrite E. cbn [ok_or mbind result_bind].
    rewrite is_leaf_data, Hnode by auto. cbn [negb mbind result_bind].
    destruct (IH s' (S d) (thash s) (thash s :: sides) (thash t :: pnodes) Wc Ht) as [side' E'].
    cbn [plug] in E'. fold t in E'. rewrite E'. exists side'.
    unfold spine. cbn [ispine app]. cbn [plug]. fold t.
    rewrite (rhashes_cons s), (rhashes_cons t), <- !app_assoc. reflexivity.
Qed.

Lemma side_nodes_for_root_spec smt p t c u :
  is_bytes 32 p -> wf_tree t 0 -> stored (nodes smt) t -> descend p t 0 = (c, u) ->
  exists sib, side_nodes_for_root smt p (thash t) false =
    Ok {| r_side_nodes := rhashes c; r_path_nodes := rhashes (spine p 0 c u); r_leaf_data := tdata u;
          r_sibling_data := sib |}.
Proof.
  intros Hp W Hst E. destruct (descend_wf _ _ _ _ W E) as (-> & Hu & Wc & _).
  unfold side_nodes_for_root. rewrite (stored_zero (nodes smt)) by auto.
  destruct c as [|s c].
  - simpl plug in *. destruct (decide (u = TEmpty)) as [->|Hne]; [simpl; eauto|].
    rewrite bool_decide_eq_false_2 by auto. destruct (stored_root _ _ Hst Hne) as [_ Eu].
    unfold Storage_get. rewrite Eu. cbn [ok_or mbind result_bind].
    rewrite is_leaf_data, Hu by auto. simpl. eauto.
  - set (t := plug p 0 (s :: c) u) in *.
    assert (is_node t = true) as Hnode by (apply plug_is_node; discriminate).
    assert (t <> TEmpty) as Hne by (intros Et; rewrite Et in Hnode; discriminate).
    rewrite bool_decide_eq_false_2 by auto. destruct (stored_root _ _ Hst Hne) as [_ Eu].
    unfold Storage_get. rewrite Eu. cbn [ok_or mbind result_bind].
    rewrite is_leaf_data, Hnode by auto. cbn [negb mbind result_bind].
    destruct (side_nodes_loop_spec (nodes smt) p c u s 0 [] [] [thash t] Hp Hu Wc Hst) as [side' El].
    rewrite Nat.sub_0_r in El. fold t in El. rewrite El. cbn [mbind result_bind].
    unfold spine. cbn [ispine app]. fold t. rewrite app_nil_r, (rhashes_cons t). eauto.
Qed.

(** ** Nodes of the path are not nodes of its siblings *)

Lemma tsize_join p d s t : tsize (join p d s t) = S (tsize s + tsize t).
Proof. unfold join. destruct (bit p d); simpl; lia. Qed.

Lemma tsize_plug p d c u s : In s c -> (tsize s < tsize (plug p d c u))%nat.
Proof.
  revert d. induction c as [|s' c IH]; intros d; [contradiction|].
  cbn [plug]. rewrite tsize_join. intros [->|Hs]; [lia|]. specialize (IH (S d) Hs). lia.
Qed.

Lemma ispine_size p d c u x : In x (ispine p d c u) -> (tsize x <= tsize (plug p d c u))%nat.
Proof.
  revert d. induction c as [|s c IH]; intros d; [contradiction|]. cbn [ispine]. intros [<-|Hx]; [lia|].
  apply IH in Hx. cbn [plug]. rewrite tsize_join. lia.
Qed.

Lemma ispine_subtree p d c u x : In x (ispine p d c u) -> In x (subtrees (plug p d c u)).
Proof.
  revert d. induction c as [|s c IH]; intros d; [contradiction|]. cbn [ispine]. intros [<-|Hx].
  - cbn [plug]. unfold join. destruct (bit p d); now left.
  - apply IH in Hx. cbn [plug]. unfold join. destruct (bit p d); right; apply in_or_app; auto.
Qed.

Lemma ispine_node p d c u x : In x (ispine p d c u) -> is_node x = true.
Proof.
  revert d. induction c as [|s c IH]; intros d; [contradiction|]. cbn [ispine]. intros [<-|Hx]; eauto.
  now apply plug_is_node.
Qed.

Lemma ispine_NoDup p d c u : NoDup (ispine p d c u).
Proof.
  revert d. induction c as [|s c IH]; intros d; cbn [ispine]; constructor; auto.
  rewrite list_elem_of_In. intros Hx. apply ispine_size in Hx. cbn [plug] in Hx.
  rewrite tsize_join in Hx. lia.
Qed.

Lemma ispine_off p d c u x s :
  wf_tree (plug p d c u) d -> In x (ispine p d c u) -> In s c -> ~ In x (subtrees s).
Proof.
  revert d. induction c as [|s0 c IH]; intros d W; [contradiction|]. cbn [ispine plug] in *.
  apply wf_join in W as (Hd & Hc & Ws & Wt & Bs & Bt). intros [<-|Hx] Hs Hsub.
  - apply subtrees_size in Hsub. rewrite tsize_join in Hsub.
    destruct Hs as [->|Hs]; [lia|]. apply (tsize_plug p (S d) c u) in Hs. lia.
  - destruct Hs as [->|Hs]; [|now apply (IH (S d))].
    pose proof (ispine_node _ _ _ _ _ Hx) as Hn. apply ispine_subtree in Hx.
    destruct (subtrees_wf _ _ _ Hx Wt) as [d' Wx].
    destruct (wf_nonempty _ _ Wx) as [y Hy]; [intros ->; discriminate|].
    pose proof (Bt y (subtrees_leaves _ _ _ Hx Hy)) as E1.
    pose proof (Bs y (subtrees_leaves _ _ _ Hsub Hy)) as E2.
    rewrite E1 in E2. destruct (bit p d); discriminate.
Qed.

Lemma plug_subtree p d c u : In u (subtrees (plug p d c u)).
Proof.
  revert d. induction c as [|s c IH]; intros d; [apply subtrees_refl|]. cbn [plug].
  unfold join. destruct (bit p d); right; apply in_or_app; auto.
Qed.

Lemma node_data_plug p d c u s : s = u \/ In s c -> incl (node_data s) (node_data (plug p d c u)).
Proof.
  revert d. induction c as [|s0 c IH]; intros d [->|Hs]; try apply incl_refl; try contradiction;
    cbn [plug]; [specialize (IH (S d) (or_introl eq_refl))|destruct Hs as [->|Hs];
      [|specialize (IH (S d) (or_intror Hs))]];
    unfold join; destruct (bit p d); intros x Hx; right; apply in_or_app; auto.
Qed.

(** ** Deleting the old path *)

Definition del_all (st : MemoryStorage) (ks : list bytes) : MemoryStorage :=
  fold_left (fun st k => delete k st) ks st.

Lemma del_all_nodes ks smt :
  NoDup ks -> (forall k, In k ks -> is_Some (nodes smt !! k)) ->
  for_each ks delete_node smt = (Ok tt, set_nodes (del_all (nodes smt) ks) smt).
Proof.
  revert smt. induction ks as [|k ks IH]; intros smt Hnd Hin; [now destruct smt|].
  inversion_clear Hnd as [|? ? Hk Hnd']. cbn [for_each].
  erewrite bind_st_ok.
  2: { unfold delete_node, zoom, Storage_delete. rewrite bool_decide_eq_true_2 by (apply Hin; now left).
       reflexivity. }
  rewrite IH; auto. intros k' Hk'. simpl.
  rewrite lookup_delete_ne; [apply Hin; now right|]. intros ->. apply Hk. now apply list_elem_of_In.
Qed.

Lemma stored_del_all st t ks :
  (forall s, In s (subtrees t) -> s <> TEmpty -> ~ In (thash s) ks) ->
  stored st t -> stored (del_all st ks) t.
Proof.
  revert st. induction ks as [|k ks IH]; intros st Hk Hs; simpl; auto.
  apply IH; [intros s Hin Hne Hin'; eapply Hk; eauto; now right|].
  apply stored_delete; auto. intros s Hin Hne E. apply (Hk s Hin Hne). now left.
Qed.

(** Trees that are not among the deleted ones keep their nodes. *)
Lemma fresh_hashes U xs w d :
  collision_free U -> (forall x, In x xs -> incl (node_data x) U /\ exists d', wf_tree x d') ->
  wf_tree w d -> incl (node_data w) U -> (forall x, In x xs -> ~ In x (subtrees w)) ->
  forall s, In s (subtrees w) -> s <> TEmpty -> ~ In (thash s) (rhashes xs).
Proof.
  intros HU Hxs Ww Iw Hoff s Hs Hne Hin. unfold rhashes in Hin.
  apply list_elem_of_In, elem_of_reverse, list_elem_of_fmap in Hin as (x & E & Hx).
  apply list_elem_of_In in Hx. destruct (Hxs x Hx) as [Ix [d' Wx]].
  destruct (subtrees_wf _ _ _ Hs Ww) as [d'' Ws].
  assert (s = x) as ->; [|exact (Hoff x Hx Hs)].
  eapply (thash_inj U); eauto. intros y Hy. apply Iw. now apply (subtrees_data w s).
Qed.

Lemma rhashes_NoDup U xs :
  collision_free U -> (forall x, In x xs -> incl (node_data x) U /\ exists d', wf_tree x d') ->
  NoDup xs -> NoDup (rhashes xs).
Proof.
  intros HU Hxs Hnd. unfold rhashes. rewrite reverse_Permutation.
  induction Hnd as [|x xs Hx Hnd IH]; [constructor|]. rewrite fmap_cons. constructor.
  - intros Hin. apply list_elem_of_fmap in Hin as (y & E & Hy).
    destruct (Hxs x) as [Ix [dx Wx]]; [now left|].
    destruct (Hxs y) as [Iy [dy Wy]]; [right; now apply list_elem_of_In|].
    assert (x = y) as -> by (eapply (thash_inj U); eauto). contradiction.
  - apply IH. intros y Hy. apply Hxs. now right.
Qed.

(** ** Rebuilding a path *)

(** The tree built from [t] with siblings [rc], deepest first, and the nodes it
    puts in the store. *)
Fixpoint rplug (p : bytes) (rc : list tree) (t : tree) : tree :=
  match rc with [] => t | s :: rc => rplug p rc (join p (length rc) s t) end.
Fixpoint put_chain (p : bytes) (rc : list tree) (t : tree) (st : MemoryStorage) : MemoryStorage :=
  match rc with
  | [] => st
  | s :: rc => let t' := join p (length rc) s t in put_chain p rc t' (<[thash t' := tdata t']> st)
  end.

Lemma rplug_plug p c t : rplug p (reverse c) t = plug p 0 c t.
Proof.
  revert t. induction c as [|s c IH] using rev_ind; intros t; [reflexivity|].
  rewrite reverse_snoc. cbn [rplug]. rewrite length_reverse, IH, plug_app. reflexivity.
Qed.

Lemma node_data_rplug p rc t s : s = t \/ In s rc -> incl (node_data s) (node_data (rplug p rc t)).
Proof.
  intros H. rewrite <- (reverse_involutive rc), rplug_plug. apply node_data_plug.
  destruct H as [->|H]; [now left|]. right.
  apply list_elem_of_In, elem_of_reverse, list_elem_of_In. exact H.
Qed.

Lemma join_nonempty p d s t : join p d s t <> TEmpty.
Proof. unfold join. now destruct (bit p d). Qed.

Lemma stored_join_insert U st p d s t :
  collision_free U -> incl (node_data (join p d s t)) U -> stored st s -> stored st t ->
  stored (<[thash (join p d s t) := tdata (join p d s t)]> st) (join p d s t).
Proof.
  intros HU HI Hs Ht. set (j := join p d s t) in *.
  destruct (thash_digest j (join_nonempty _ _ _ _)) as [E Hin].
  assert (thash j <> placeholder) as Hz by (rewrite E; apply HU; auto).
  assert (incl (node_data s) U /\ incl (node_data t) U) as [Is It].
  { split; intros x Hx; apply HI; [apply (node_data_plug p d [s] t s) |
      apply (node_data_plug p d [s] t t)]; auto. right. now left. }
  assert (stored (<[thash j := tdata j]> st) s /\ stored (<[thash j := tdata j]> st) t) as [Ss St].
  { rewrite E. split; apply (stored_insert U); auto. }
  pose proof (lookup_insert_eq st (thash j) (tdata j)) as L.
  revert Hz L Ss St. subst j. unfold join. destruct (bit p d); simpl; auto.
Qed.

Lemma put_chain_stored U p rc t st :
  collision_free U -> incl (node_data (rplug p rc t)) U -> stored st t -> Forall (stored st) rc ->
  stored (put_chain p rc t st) (rplug p rc t).
Proof.
  intros HU. revert t st. induction rc as [|s rc IH]; intros t st HI Ht Hrc; [exact Ht|].
  cbn [rplug put_chain] in *. apply Forall_cons_iff in Hrc as [Hs Hrc].
  set (j := join p (length rc) s t) in *.
  assert (incl (node_data j) U) as Ij by (intros x Hx; apply HI, (node_data_rplug p rc j j); auto).
  apply IH; auto; [now apply (stored_join_insert U)|].
  destruct (thash_digest j (join_nonempty _ _ _ _)) as [E Hin]. rewrite E.
  rewrite Forall_forall in Hrc |- *. intros s' Hs'. apply (stored_insert U); auto.
  intros x Hx. apply HI, (node_data_rplug p rc j s'); auto.
Qed.

Lemma digest_step_join {E} p d s t :
  is_bytes 32 p -> (d < depth)%nat ->
  digest_step (E:=E) digest p d (thash s) (thash t) = Ok (thash (join p d s t), tdata (join p d s t)).
Proof.
  intros Hp Hd. unfold digest_step.
  rewrite get_bits_ok by (rewrite (proj1 Hp); unfold depth in Hd; simpl in Hd; lia).
  cbn [mbind result_bind]. unfold join. now destruct (bit p d).
Qed.

Lemma update_loop_chain p sides cpc rc t n smt :
  is_bytes 32 p -> (length rc <= n <= depth)%nat ->
  (forall j s, (j < length rc)%nat -> rc !! (length rc - S j)%nat = Some s ->
     update_side_node sides cpc (depth - S j) = Some (thash s)) ->
  (forall j, (length rc <= j < n)%nat -> update_side_node sides cpc (depth - S j) = None) ->
  update_loop digest p sides cpc n (thash t) (thash t) smt
  = (Ok (thash (rplug p rc t)), set_nodes (put_chain p rc t (nodes smt)) smt).
Proof.
  intros Hp. revert rc t smt. induction n as [|n IH]; intros rc t smt Hn Hin Hout.
  - destruct rc; simpl in Hn; [|lia]. now destruct smt.
  - cbn [update_loop]. destruct (Nat.eq_dec (length rc) (S n)) as [Hl|Hl].
    + destruct rc as [|s rc]; [discriminate|]. injection Hl as Hl.
      rewrite (Hin n s) by (simpl; rewrite Hl; try lia; now rewrite Nat.sub_diag).
      replace (depth - 1 - (depth - S n))%nat with n by lia.
      st_step (unfold lift; rewrite digest_step_join by (auto; lia); reflexivity).
      st_step reflexivity. cbn [rplug put_chain]. rewrite Hl, (IH rc); try lia; [reflexivity|..].
      intros j s' Hj Hs'. apply Hin; [simpl; lia|]. cbn [length].
      replace (S (length rc) - S j)%nat with (S (length rc - S j)) by lia. exact Hs'.
    + rewrite Hout by lia. apply IH; auto; try lia. intros j Hj. apply Hout. lia.
Qed.

(** The side node the final loop uses at depth [j]. *)
Lemma update_side_node_spec c cpc j :
  (length c <= depth)%nat -> (j < depth)%nat ->
  update_side_node (rhashes c) cpc (depth - S j) =
  if decide (j < length c)%nat then thash <$> c !! j
  else if negb (cpc =? depth)%nat && (j <? cpc)%nat then Some placeholder else None.
Proof.
  intros Hc Hj. unfold update_side_node, rhashes. rewrite length_reverse, length_fmap.
  replace (depth - S j - (depth - length c))%nat with (length c - S j)%nat by lia.
  replace (depth - 1 - (depth - S j))%nat with j by lia.
  case_decide as H.
  - rewrite (proj2 (Nat.ltb_ge _ _)) by lia. cbn [orb].
    assert (reverse (thash <$> c) !! (length c - S j)%nat = thash <$> c !! j) as ->.
    { rewrite reverse_lookup by (rewrite length_fmap; lia). rewrite length_fmap, list_lookup_fmap.
      f_equal. f_equal. lia. }
    destruct (lookup_lt_is_Some_2 c j H) as [s ->]. now rewrite bool_decide_eq_false_2.
  - now rewrite (proj2 (Nat.ltb_lt _ _)) by lia.
Qed.

(** The context after an insertion: the old one, then empty siblings down to the
    depth where the new leaf parts from the old one. *)
Definition grown (c : list tree) (cpc : nat) : list tree :=
  if (cpc =? depth)%nat then c else c ++ repeat TEmpty (cpc - length c).

Lemma grown_loop p c cpc t smt :
  is_bytes 32 p -> (length c <= cpc <= depth)%nat ->
  update_loop digest p (rhashes c) cpc depth (thash t) (thash t) smt
  = (Ok (thash (plug p 0 (grown c cpc) t)),
     set_nodes (put_chain p (reverse (grown c cpc)) t (nodes smt)) smt).
Proof.
  intros Hp Hc. rewrite <- rplug_plug.
  assert (length c <= length (grown c cpc) <= depth)%nat as Hg.
  { unfold grown. destruct (Nat.eqb_spec cpc depth); rewrite ?length_app, ?repeat_length; lia. }
  assert (forall j, (j < depth)%nat -> update_side_node (rhashes c) cpc (depth - S j)
    = thash <$> grown c cpc !! j) as Hside.
  { intros j Hj. rewrite update_side_node_spec by lia. unfold grown.
    destruct (Nat.eqb_spec cpc depth); cbn [negb andb].
    - case_decide; auto. rewrite lookup_ge_None_2 by lia. reflexivity.
    - case_decide; [rewrite lookup_app_l by lia; reflexivity|].
      rewrite lookup_app_r by lia. destruct (Nat.ltb_spec j cpc).
      + rewrite lookup_repeat by lia. reflexivity.
      + rewrite lookup_ge_None_2 by (rewrite repeat_length; lia). reflexivity. }
  apply update_loop_chain; auto; rewrite ?length_reverse; try lia.
  - intros j s Hj Hs. rewrite reverse_lookup in Hs by lia.
    replace (length (grown c cpc) - S (length (grown c cpc) - S j))%nat with j in Hs by lia.
    rewrite Hside by lia. now rewrite Hs.
  - intros j Hj. rewrite Hside by lia. rewrite lookup_ge_None_2 by lia. reflexivity.
Qed.

(** Deleting the old path and rebuilding it around [t] leaves the new tree stored. *)
Lemma finish_update U p c cpc u t smt :
  collision_free U -> is_bytes 32 p -> (length c <= cpc <= depth)%nat ->
  wf_tree (plug p 0 c u) 0 -> incl (node_data (plug p 0 c u)) U ->
  wf_tree (plug p 0 (grown c cpc) t) 0 -> incl (node_data (plug p 0 (grown c cpc) t)) U ->
  (forall x, In x (ispine p 0 c u) -> is_Some (nodes smt !! thash x) /\ ~ In x (subtrees t)) ->
  Forall (stored (nodes smt)) c -> stored (nodes smt) t ->
  exists st st',
    for_each (rhashes (ispine p 0 c u)) delete_node smt = (Ok tt, set_nodes st smt) /\
    update_loop digest p (rhashes c) cpc depth (thash t) (thash t) (set_nodes st smt)
    = (Ok (thash (plug p 0 (grown c cpc) t)), set_nodes st' smt) /\
    stored st' (plug p 0 (grown c cpc) t).
Proof.
  intros HU Hp Hc W I W' I' Hsp Hsc Hst.
  assert (forall x, In x (ispine p 0 c u) -> incl (node_data x) U /\ exists d, wf_tree x d) as Hx.
  { intros x Hx. apply ispine_subtree in Hx. split; [|now apply (subtrees_wf _ _ _ Hx W)].
    intros y Hy. apply I. now apply (subtrees_data _ x). }
  pose proof (wf_plug p 0 (grown c cpc) t ltac:(intros; apply agree_0)) as Wp.
  apply Wp in W' as W''. destruct W'' as (Wc' & _ & Wt & _).
  apply wf_plug in W as W2; [|intros; apply agree_0]. destruct W2 as (Wc & _).
  set (st := del_all (nodes smt) (rhashes (ispine p 0 c u))).
  exists st, (put_chain p (reverse (grown c cpc)) t st).
  split; [|split; [exact (grown_loop p c cpc t (set_nodes st smt) Hp Hc)|]].
  - apply del_all_nodes; [apply (rhashes_NoDup U); auto using ispine_NoDup|].
    intros k Hk. unfold rhashes in Hk.
    apply list_elem_of_In, elem_of_reverse, list_elem_of_fmap in Hk as (x & -> & Hin).
    apply Hsp. now apply list_elem_of_In.
  - cbn [nodes set_nodes]. rewrite <- rplug_plug. apply (put_chain_stored U); auto.
    + now rewrite rplug_plug.
    + apply stored_del_all; auto. eapply (fresh_hashes U); eauto.
      * intros x Hin. apply I', (node_data_plug p 0 (grown c cpc) t t); auto.
      * intros x Hin. now apply Hsp.
    + apply Forall_reverse. unfold grown.
      assert (Forall (stored st) c) as Hfc.
      { rewrite Forall_forall in Hsc |- *. intros s Hs. apply stored_del_all; auto.
        destruct (wf_context_in _ _ _ _ Wc Hs) as [d Ws].
        eapply (fresh_hashes U); eauto.
        - intros x Hin. apply I, (node_data_plug p 0 c u s); auto.
        - intros x Hin. now apply (ispine_off p 0 c u). }
      destruct (_ =? _)%nat; auto. apply Forall_app. split; auto.
      apply Forall_forall. intros s Hs. apply repeat_spec in Hs. now subst.
Qed.

(** ** Insertion *)

Lemma rhashes_snoc l t : rhashes (l ++ [t]) = thash t :: rhashes l.
Proof. unfold rhashes. now rewrite fmap_app, reverse_app. Qed.

Lemma stored_plug st p d c u :
  stored st (plug p d c u) ->
  Forall (stored st) c /\ stored st u /\
  (forall x, In x (ispine p d c u) -> is_Some (st !! thash x)).
Proof.
  revert d. induction c as [|s c IH]; intros d H; [repeat split; auto; contradiction|].
  cbn [plug] in H. destruct (stored_root _ _ H (join_nonempty _ _ _ _)) as [_ Hr].
  apply stored_join in H as [Hs H]. destruct (IH _ H) as (Hc & Hu & Hx).
  repeat split; auto. cbn [ispine plug]. intros x [<-|Hin]; eauto.
Qed.

(** The leaf [update_with_sides_nodes] writes first. *)
Lemma stored_new_leaf U st p vh :
  collision_free U -> In (tdata (TLeaf p vh)) U ->
  stored (<[thash (TLeaf p vh) := tdata (TLeaf p vh)]> st) (TLeaf p vh).
Proof. intros HU Hin. split; [apply HU, Hin | apply lookup_insert_eq]. Qed.

(** Facts shared by the cases of an insertion: [st1] is the store after the new
    leaf was written. *)
Record insertion (U : list bytes) (smt : SparseMerkleTree) (p v : bytes) (c : list tree) (u : tree)
    (st1 : MemoryStorage) : Prop := {
  ins_cf : collision_free U;
  ins_p : is_bytes 32 p;
  ins_wf : wf_tree (plug p 0 c u) 0;
  ins_old : incl (node_data (plug p 0 c u)) U;
  ins_leaf : In (tdata (TLeaf p (digest v))) U;
  ins_node : is_node u = false;
  ins_len : (length c <= depth)%nat;
  ins_st1 : st1 = <[thash (TLeaf p (digest v)) := tdata (TLeaf p (digest v))]> (nodes smt);
  ins_tree : stored st1 (plug p 0 c u);
  ins_ctx : Forall (stored st1) c;
  ins_place : stored st1 u;
  ins_new : stored st1 (TLeaf p (digest v));
  ins_path : forall x, In x (ispine p 0 c u) -> is_Some (st1 !! thash x);
}.

Lemma insertion_intro U smt p v c u t :
  collision_free U -> is_bytes 32 p -> wf_tree t 0 -> stored (nodes smt) t ->
  incl (node_data t) U -> In (tdata (TLeaf p (digest v))) U -> descend p t 0 = (c, u) ->
  exists st1, insertion U smt p v c u st1.
Proof.
  intros HU Hp W Hst HI Hin E. destruct (descend_wf _ _ _ _ W E) as (-> & Hu & Wc & _ & _ & _ & Hlen).
  exists (<[thash (TLeaf p (digest v)) := tdata (TLeaf p (digest v))]> (nodes smt)).
  assert (stored (<[thash (TLeaf p (digest v)) := tdata (TLeaf p (digest v))]> (nodes smt))
    (plug p 0 c u)) as Hst1 by (apply (stored_insert U); auto).
  destruct (stored_plug _ _ _ _ _ Hst1) as (Hc & Hu' & Hx).
  split; auto. now apply (stored_new_leaf U).
Qed.

(** What a successful insertion leaves. *)
(** The outcome of a successful insertion; [same]: the tree holds the value
    already, in which case [update_with_sides_nodes] leaves [values] as they
    are. *)
Definition inserted (smt : SparseMerkleTree) (p v : bytes) (same : Prop) (t : tree)
    (r : result SmtError H256 * SparseMerkleTree) :=
  exists smt', r = (Ok (thash t), smt') /\ stored (nodes smt') t /\
    (values smt' = <[p := v]> (values smt) \/ same /\ values smt' = values smt) /\ parent smt' = parent smt.

(** The end of [update_with_sides_nodes], once the new subtree [t] is in the store. *)
Lemma finish_spec U smt p v same c u st1 cpc t smt1 :
  insertion U smt p v c u st1 -> (length c <= cpc <= depth)%nat ->
  wf_tree (plug p 0 (grown c cpc) t) 0 -> incl (node_data (plug p 0 (grown c cpc) t)) U ->
  (forall x, In x (ispine p 0 c u) -> is_Some (nodes smt1 !! thash x) /\ ~ In x (subtrees t)) ->
  Forall (stored (nodes smt1)) c -> stored (nodes smt1) t ->
  <[p := v]> (values smt1) = <[p := v]> (values smt) -> parent smt1 = parent smt ->
  inserted smt p v same (plug p 0 (grown c cpc) t)
    ((_ ← for_each (rhashes (ispine p 0 c u)) delete_node;
      current_hash ← update_loop digest p (rhashes c) cpc depth (thash t) (thash t);
      _ ← put_value p v;
      mret current_hash) smt1).
Proof.
  intros I Hc W' I' Hx Hcs Ht Hv Hr.
  destruct (finish_update U p c cpc u t smt1) as (st & st' & E1 & E2 & Hst);
    try apply I; auto.
  st_step (exact E1). st_step (exact E2). st_step reflexivity.
  eexists. split; [reflexivity|]. cbn. auto.
Qed.

Lemma put_leaf U smt p v c u st1 :
  insertion U smt p v c u st1 ->
  put_node (thash (TLeaf p (digest v))) (tdata (TLeaf p (digest v))) smt = (Ok tt, set_nodes st1 smt).
Proof. intros I. now rewrite (ins_st1 _ _ _ _ _ _ _ I). Qed.

(** The case analysis of [update_with_sides_nodes] on what is found at the place
    of the path: nothing, a leaf for the same path, or another leaf. *)
Lemma update_empty U smt p v same c st1 :
  insertion U smt p v c TEmpty st1 ->
  wf_tree (plug p 0 c (TLeaf p (digest v))) 0 -> incl (node_data (plug p 0 c (TLeaf p (digest v)))) U ->
  inserted smt p v same (plug p 0 c (TLeaf p (digest v)))
    (update_with_sides_nodes digest p v (rhashes c) (rhashes (spine p 0 c TEmpty)) (tdata TEmpty) smt).
Proof.
  intros I W' I'. unfold update_with_sides_nodes, spine. rewrite rhashes_snoc.
  change (digest_leaf digest p (digest v)) with (thash (TLeaf p (digest v)), tdata (TLeaf p (digest v))).
  cbv beta iota zeta. st_step (exact (put_leaf _ _ _ _ _ _ _ I)). st_step reflexivity.
  change (is_zero_hash (thash TEmpty)) with true. cbv iota. st_step reflexivity.
  rewrite Nat.eqb_refl. cbn [negb]. st_step reflexivity. cbn [drop].
  assert (grown c depth = c) as Hg by (unfold grown; now rewrite Nat.eqb_refl).
  rewrite <- Hg at 1. pose proof (ins_len _ _ _ _ _ _ _ I).
  eapply (finish_spec U); eauto; rewrite ?Hg; auto; try apply I.
  intros x Hx. split; [now apply (ins_path _ _ _ _ _ _ _ I)|].
  apply ispine_node in Hx. intros [<-|[]]. discriminate.
Qed.

Lemma ignore_delete_value p smt :
  ignore (delete_value p) smt = (Ok tt, set_values (delete p (values smt)) smt).
Proof.
  unfold ignore, delete_value, zoom, Storage_delete. case_bool_decide as Hs; [reflexivity|].
  rewrite delete_id by (destruct (values smt !! p); naive_solver). reflexivity.
Qed.

Lemma update_same_path U smt p v c vh st1 :
  insertion U smt p v c (TLeaf p vh) st1 -> is_bytes 32 vh ->
  root smt = thash (plug p 0 c (TLeaf p vh)) ->
  wf_tree (plug p 0 c (TLeaf p (digest v))) 0 -> incl (node_data (plug p 0 c (TLeaf p (digest v)))) U ->
  inserted smt p v (vh = digest v) (plug p 0 c (TLeaf p (digest v)))
    (update_with_sides_nodes digest p v (rhashes c) (rhashes (spine p 0 c (TLeaf p vh)))
       (tdata (TLeaf p vh)) smt).
Proof.
  intros I Hvh Hroot W' I'. unfold update_with_sides_nodes, spine. rewrite rhashes_snoc.
  change (digest_leaf digest p (digest v)) with (thash (TLeaf p (digest v)), tdata (TLeaf p (digest v))).
  cbv beta iota zeta. st_step (exact (put_leaf _ _ _ _ _ _ _ I)). st_step reflexivity.
  pose proof (ins_p _ _ _ _ _ _ _ I) as Hp. pose proof (ins_place _ _ _ _ _ _ _ I) as Hplace.
  rewrite (stored_zero st1) by exact Hplace. rewrite bool_decide_eq_false_2 by discriminate.
  st_step (st_step (unfold lift; rewrite parse_leaf_data by auto; reflexivity);
    st_step (unfold lift; rewrite fixed_bytes_ok by apply Hp; reflexivity);
    st_step (unfold lift; rewrite fixed_bytes_ok by apply Hvh; reflexivity);
    st_step (unfold lift; rewrite count_common_same by auto; reflexivity); reflexivity).
  rewrite Nat.eqb_refl. cbn [negb]. case_bool_decide as Hv.
  - (* unchanged value *)
    st_step reflexivity. subst vh. eexists. split; [cbn; rewrite Hroot; reflexivity|].
    cbn. repeat split; auto. apply (ins_tree _ _ _ _ _ _ _ I).
  - st_step (st_step (unfold delete_node, zoom, Storage_delete; cbn [nodes set_nodes];
        rewrite bool_decide_eq_true_2 by (rewrite (proj2 Hplace); eauto); reflexivity);
      st_step (apply ignore_delete_value); reflexivity).
    cbn [drop].
    assert (grown c depth = c) as Hg by (unfold grown; now rewrite Nat.eqb_refl).
    rewrite <- Hg at 1. pose proof (ins_len _ _ _ _ _ _ _ I).
    pose proof (ins_cf _ _ _ _ _ _ _ I) as HU. pose proof (ins_wf _ _ _ _ _ _ _ I) as W.
    pose proof (ins_old _ _ _ _ _ _ _ I) as Iold.
    assert (In (TLeaf p vh) (subtrees (plug p 0 c (TLeaf p vh)))) as Hin by apply plug_subtree.
    (* the old leaf is neither the new one nor a node of the context or of the path *)
    assert (forall w d, wf_tree w d -> incl (node_data w) U -> stored st1 w -> ~ In (TLeaf p vh) (subtrees w) ->
      stored (delete (thash (TLeaf p vh)) st1) w) as Keep.
    { intros w d Ww Iw Hst Hoff. apply stored_delete; auto. intros s Hs Hne E. apply Hoff.
      rewrite <- (subtree_inj U w _ d 0 s (TLeaf p vh) HU Ww Iw W Iold Hs Hin E). exact Hs. }
    pose proof (wf_plug p 0 c (TLeaf p vh) ltac:(intros; apply agree_0)) as Wp.
    destruct (proj1 Wp W) as (Wc & _).
    eapply (finish_spec U); eauto; rewrite ?Hg; auto; cbn [nodes values root set_nodes set_values].
    + intros x Hx. pose proof (ispine_node _ _ _ _ _ Hx) as Hn. split.
      * rewrite lookup_delete_ne; [now apply (ins_path _ _ _ _ _ _ _ I)|]. intros E.
        apply ispine_subtree in Hx.
        rewrite <- (subtree_inj U _ _ 0 0 _ _ HU W Iold W Iold Hin Hx E) in Hn. discriminate.
      * intros [<-|[]]. discriminate.
    + pose proof (ins_ctx _ _ _ _ _ _ _ I) as Hc. rewrite Forall_forall in Hc |- *. intros s Hs.
      destruct (wf_context_in _ _ _ _ Wc Hs) as [d Ws]. apply (Keep s d); auto.
      * eapply incl_tran; [apply (node_data_plug p 0 c (TLeaf p vh) s); auto | exact Iold].
      * intros Hsub. apply (wf_context_off p 0 c vh Wc). exists s. split; auto.
        eapply subtrees_leaves; [exact Hsub | now left].
    + apply (Keep (TLeaf p (digest v)) 0%nat); [now split | | apply I |].
      * eapply incl_tran; [|exact I']. apply (node_data_plug p 0 c _ (TLeaf p (digest v))). now left.
      * intros [[= E]|[]]. congruence.
    + now rewrite insert_delete_eq.
Qed.

Lemma update_split U smt p v same c p' vh st1 :
  let k := common p p' in
  let t := join p k (TLeaf p' vh) (TLeaf p (digest v)) in
  insertion U smt p v c (TLeaf p' vh) st1 -> is_bytes 32 p' -> is_bytes 32 vh -> p <> p' ->
  wf_tree (plug p 0 (grown c k) t) 0 -> incl (node_data (plug p 0 (grown c k) t)) U ->
  inserted smt p v same (plug p 0 (grown c k) t)
    (update_with_sides_nodes digest p v (rhashes c) (rhashes (spine p 0 c (TLeaf p' vh)))
       (tdata (TLeaf p' vh)) smt).
Proof.
  intros k t I Hp' Hvh Hne W' I'. unfold update_with_sides_nodes, spine. rewrite rhashes_snoc.
  change (digest_leaf digest p (digest v)) with (thash (TLeaf p (digest v)), tdata (TLeaf p (digest v))).
  cbv beta iota zeta. st_step (exact (put_leaf _ _ _ _ _ _ _ I)). st_step reflexivity.
  pose proof (ins_p _ _ _ _ _ _ _ I) as Hp. pose proof (ins_place _ _ _ _ _ _ _ I) as Hplace.
  pose proof (ins_cf _ _ _ _ _ _ _ I) as HU. pose proof (ins_wf _ _ _ _ _ _ _ I) as W.
  destruct (proj1 (wf_plug p 0 c (TLeaf p' vh) ltac:(intros; apply agree_0)) W) as (Wc & _ & _ & Au).
  specialize (Au (p', vh) ltac:(now left)). simpl in Au.
  destruct (common_split p p' _ Hp Hp' Hne Au) as [Hk _]. fold k in Hk.
  rewrite (stored_zero st1) by exact Hplace. rewrite bool_decide_eq_false_2 by discriminate.
  st_step (st_step (unfold lift; rewrite parse_leaf_data by auto; reflexivity);
    st_step (unfold lift; rewrite fixed_bytes_ok by apply Hp'; reflexivity);
    st_step (unfold lift; rewrite fixed_bytes_ok by apply Hvh; reflexivity);
    st_step (unfold lift; rewrite (proj1 (common_prefix_spec p p' Hp Hp')); reflexivity); reflexivity).
  fold k. rewrite (proj2 (Nat.eqb_neq k depth)) by lia. cbn [negb].
  st_step (st_step (unfold lift; rewrite digest_step_join by (auto; lia); reflexivity);
    st_step reflexivity; reflexivity).
  cbn [drop]. fold t.
  assert (incl (node_data t) U) as It.
  { eapply incl_tran; [|exact I']. apply (node_data_plug p 0 _ t t). now left. }
  eapply (finish_spec U); eauto; try lia; cbn [nodes values root set_nodes].
  - intros x Hx. split.
    + destruct (decide (thash t = thash x)) as [->|]; [rewrite lookup_insert_eq; eauto|].
      rewrite lookup_insert_ne by auto. now apply (ins_path _ _ _ _ _ _ _ I).
    + pose proof (ispine_node _ _ _ _ _ Hx) as Hn. apply ispine_subtree in Hx. intros Hin.
      assert (x = t) as ->.
      { revert Hin. subst t. unfold join. destruct (bit p k); simpl; intros [E|[E|[E|[]]]]; auto;
          subst x; discriminate. }
      assert (In (p, digest v) (leaves (plug p 0 c (TLeaf p' vh)))) as Hl.
      { eapply subtrees_leaves; [exact Hx|]. apply leaves_join. right. now left. }
      apply leaves_plug in Hl as [[[= E _]|[]]|Hl]; [congruence|]. now apply (wf_context_off p 0 c _ Wc) in Hl.
  - destruct (thash_digest t (join_nonempty _ _ _ _)) as [E Hin]. rewrite E.
    pose proof (ins_ctx _ _ _ _ _ _ _ I) as Hc. rewrite Forall_forall in Hc |- *. intros s Hs.
    apply (stored_insert U); auto.
    eapply incl_tran; [|exact (ins_old _ _ _ _ _ _ _ I)].
    apply (node_data_plug p 0 c (TLeaf p' vh) s). now right.
  - apply (stored_join_insert U); auto. apply I.
Qed.

(** ** The map a tree represents *)

(** The nodes and the root represent the map; the values are not looked at. *)
Record shape (smt : SparseMerkleTree) (t : tree) (m : gmap bytes bytes) : Prop := {
  sh_wf : wf_tree t 0;
  sh_root : root smt = thash t;
  sh_nodes : stored (nodes smt) t;
  sh_lookup q : tlookup t q 0 = digest <$> m !! q;
  sh_nonempty q v : m !! q = Some v -> v <> [];
}.

Record represents (smt : SparseMerkleTree) (t : tree) (m : gmap bytes bytes) : Prop := {
  rep_shape : shape smt t m;
  rep_values : values smt = m;
}.
Lemma rep_wf smt t m : represents smt t m -> wf_tree t 0.
Proof. intros [[]]. auto. Qed.
Lemma rep_root smt t m : represents smt t m -> root smt = thash t.
Proof. intros [[]]. auto. Qed.
Lemma rep_nodes smt t m : represents smt t m -> stored (nodes smt) t.
Proof. intros [[]]. auto. Qed.
Lemma rep_lookup smt t m : represents smt t m -> forall q, tlookup t q 0 = digest <$> m !! q.
Proof. intros [[]]. auto. Qed.
Lemma rep_nonempty smt t m : represents smt t m -> forall q v, m !! q = Some v -> v <> [].
Proof. intros [[]]. eauto. Qed.

Lemma tinsert_plug p vh c u :
  is_node u = false ->
  tinsert p vh (plug p 0 c u) =
  match u with
  | TLeaf p' vh' => if decide (p = p') then plug p 0 c (TLeaf p vh)
                    else plug p 0 (c ++ repeat TEmpty (common p p' - length c))
                           (join p (common p p') (TLeaf p' vh') (TLeaf p vh))
  | _ => plug p 0 c (TLeaf p vh)
  end.
Proof. intros Hu. unfold tinsert. now rewrite descend_plug_node. Qed.

Lemma leaf_in_tinsert p vh t : In (tdata (TLeaf p vh)) (node_data (tinsert p vh t)).
Proof.
  assert (forall c s, In (tdata (TLeaf p vh)) (node_data s) ->
    In (tdata (TLeaf p vh)) (node_data (plug p 0 c s))) as Plug.
  { intros c s Hs. apply (node_data_plug p 0 c s s); auto. }
  unfold tinsert. destruct (descend p t 0) as [c [|p' vh'|l r]]; try case_decide;
    apply Plug; try (now left). unfold join. destruct (bit p _); simpl; auto.
Qed.

(** Writing a value. *)
Lemma insert_shape smt t m key v :
  let p := path digest key in
  let t' := tinsert p (digest v) t in
  shape smt t m -> v <> [] -> collision_free (node_data t ++ node_data t') ->
  exists smt', update digest key v smt = (Ok (thash t'), smt') /\ shape smt' t' (<[p := v]> m) /\
    (values smt' = <[p := v]> (values smt) \/
     tlookup t p 0 = Some (digest v) /\ values smt' = values smt) /\ parent smt' = parent smt.
Proof.
  intros p t' R Hv HU. pose proof (sh_wf _ _ _ R) as W. assert (is_bytes 32 p) as Hp by apply digest_len.
  destruct (tinsert_spec p (digest v) t W Hp (digest_len v)) as [W' _].
  destruct (descend p t 0) as [c u] eqn:E.
  destruct (descend_wf _ _ _ _ W E) as (Et & Hu & _ & _ & Wu & _).
  assert (incl (node_data t) (node_data t ++ node_data t')) as Iold by apply incl_appl, incl_refl.
  assert (incl (node_data t') (node_data t ++ node_data t')) as It by apply incl_appr, incl_refl.
  remember (node_data t ++ node_data t') as U eqn:EU. clear EU.
  destruct (insertion_intro U smt p v c u t HU Hp W (sh_nodes _ _ _ R)) as [st1 I]; auto.
  { apply It, leaf_in_tinsert. }
  assert (inserted smt p v (tlookup t p 0 = Some (digest v)) t' (update_with_sides_nodes digest p v (rhashes c)
    (rhashes (spine p 0 c u)) (tdata u) smt)) as (smt1 & E1 & Hst & Hval & Hparent).
  { revert W' It. subst t'.
    assert (tinsert p (digest v) t = tinsert p (digest v) (plug p 0 c u)) as -> by now rewrite <- Et.
    rewrite tinsert_plug by auto. intros W' It.
    destruct u as [|p' vh'|]; [apply (update_empty _ _ _ _ _ _ _ I); assumption| |discriminate].
    destruct Wu as [Hp' Hvh']. case_decide as Hpp.
    - subst p'. destruct (update_same_path _ _ _ _ _ _ _ I) as (smt1 & H1 & H2 & H3 & H4); auto.
      + now rewrite (sh_root _ _ _ R), Et.
      + exists smt1. repeat split; auto. destruct H3 as [|[-> H3]]; auto. right. split; auto.
        apply tlookup_leaf; auto. rewrite Et. apply leaves_plug. left. now left.
    - destruct (common_prefix_spec (E:=unit) p p' Hp Hp') as (_ & _ & _ & Hk).
      destruct (Hk Hpp) as [Hk' _].
      assert (grown c (common p p') = c ++ repeat TEmpty (common p p' - length c)) as Eg
        by (unfold grown; now rewrite (proj2 (Nat.eqb_neq _ _)) by lia).
      rewrite <- Eg in W', It |- *. now apply (update_split _ _ _ _ _ _ _ _ _ I). }
  exists (set_root (thash t') smt1). repeat split; auto; cbn.
  - unfold update. st_step reflexivity. unfold update_for_root. fold p.
    destruct (side_nodes_for_root_spec smt p t c u Hp W (sh_nodes _ _ _ R) E) as [sib Es].
    st_step (st_step reflexivity;
      st_step (unfold lift; rewrite (sh_root _ _ _ R); rewrite Es; reflexivity);
      rewrite bool_decide_eq_false_2 by exact Hv; exact E1).
    st_step reflexivity. reflexivity.
  - intros q. subst t'. rewrite tlookup_tinsert by auto. case_decide as Hq.
    + subst q. now rewrite lookup_insert_eq.
    + rewrite lookup_insert_ne by auto. apply R.
  - intros q w Hq. destruct (decide (q = p)) as [->|Hne].
    + rewrite lookup_insert_eq in Hq. congruence.
    + rewrite lookup_insert_ne in Hq by auto. now apply (sh_nonempty _ _ _ R q).
Qed.

Lemma insert_represents smt t m key v :
  let p := path digest key in
  let t' := tinsert p (digest v) t in
  represents smt t m -> v <> [] -> collision_free (node_data t ++ node_data t') ->
  (forall v', m !! p = Some v' -> digest v' = digest v -> v' = v) ->
  exists smt', update digest key v smt = (Ok (thash t'), smt') /\ represents smt' t' (<[p := v]> m).
Proof.
  intros p t' R Hv HU Hold. destruct (insert_shape smt t m key v (rep_shape _ _ _ R) Hv HU)
    as (smt' & E & S & Hval & _). exists smt'. split; [exact E|]. split; auto.
  rewrite (rep_values _ _ _ R) in Hval. destruct Hval as [|[L ->]]; auto.
  rewrite (rep_lookup _ _ _ R) in L. fold p in L |- *. destruct (m !! p) as [v'|] eqn:Em; [|discriminate].
  injection L as L. symmetry. apply insert_id. rewrite Em. f_equal. now apply Hold.
Qed.

(** ** Deletion *)

(** A leaf without a sibling. *)
Definition lone (s t : tree) : bool :=
  match s, t with TLeaf _ _, TEmpty | TEmpty, TLeaf _ _ => true | _, _ => false end.

(** [rplug] and [put_chain] with lone leaves taking the place of their parents. *)
Fixpoint rsplug (p : bytes) (rc : list tree) (t : tree) : tree :=
  match rc with [] => t | s :: rc => rsplug p rc (mk p (length rc) s t) end.
Fixpoint put_schain (p : bytes) (rc : list tree) (t : tree) (st : MemoryStorage) : MemoryStorage :=
  match rc with
  | [] => st
  | s :: rc => let t' := mk p (length rc) s t in
               put_schain p rc t' (if lone s t then st else <[thash t' := tdata t']> st)
  end.

Lemma rsplug_splug p c t : rsplug p (reverse c) t = splug p 0 c t.
Proof.
  revert t. induction c as [|s c IH] using rev_ind; intros t; [reflexivity|].
  rewrite reverse_snoc. cbn [rsplug]. rewrite length_reverse, IH, splug_app. reflexivity.
Qed.

Lemma mk_join p d s t : lone s t = false -> mk p d s t = join p d s t.
Proof. destruct s, t; simpl; congruence. Qed.

Lemma node_data_mk p d s t : incl (node_data s) (node_data (mk p d s t)) /\ incl (node_data t) (node_data (mk p d s t)).
Proof.
  destruct (lone s t) eqn:C.
  - destruct s, t; simpl in C; try discriminate; simpl; split; auto using incl_refl, incl_nil_l.
  - rewrite mk_join by auto. split; [apply (node_data_plug p d [s] t s) | apply (node_data_plug p d [s] t t)];
      simpl; auto.
Qed.

Lemma node_data_rsplug p rc t s : s = t \/ In s rc -> incl (node_data s) (node_data (rsplug p rc t)).
Proof.
  revert s t. induction rc as [|s' rc IH]; intros s t [->|Hs]; try apply incl_refl; try contradiction;
    cbn [rsplug].
  - eapply incl_tran; [apply (node_data_mk p (length rc) s' t) | apply IH; now left].
  - destruct Hs as [->|Hs]; [|now apply IH; right].
    eapply incl_tran; [apply (node_data_mk p (length rc) s t) | apply IH; now left].
Qed.

Lemma put_schain_stored U p rc t st :
  collision_free U -> incl (node_data (rsplug p rc t)) U -> stored st t -> Forall (stored st) rc ->
  stored (put_schain p rc t st) (rsplug p rc t).
Proof.
  intros HU. revert t st. induction rc as [|s rc IH]; intros t st HI Ht Hrc; [exact Ht|].
  cbn [rsplug put_schain] in *. apply Forall_cons_iff in Hrc as [Hs Hrc].
  set (j := mk p (length rc) s t) in *.
  assert (incl (node_data j) U) as Ij by (intros x Hx; apply HI, (node_data_rsplug p rc j j); auto).
  destruct (lone s t) eqn:C.
  - apply IH; auto. subst j. clear HI Ij. destruct s, t; try discriminate C; assumption.
  - assert (j = join p (length rc) s t) as Ej by now apply mk_join.
    apply IH; auto; [rewrite Ej in *; now apply (stored_join_insert U)|].
    destruct (thash_digest j) as [E Hin]; [rewrite Ej; apply join_nonempty|]. rewrite E.
    rewrite Forall_forall in Hrc |- *. intros s' Hs'. apply (stored_insert U); auto.
    intros x Hx. apply HI, (node_data_rsplug p rc j s'); auto.
Qed.

Lemma thash_nil t : bool_decide (thash t = []) = false.
Proof. apply bool_decide_eq_false_2. intros E. pose proof (thash_len t) as [H _]. rewrite E in H. discriminate. Qed.

(** One combining step of the deletion loop. *)
Lemma delete_loop_join p total i s rc h t npr smt :
  is_bytes 32 p -> (total = i + S (length rc))%nat -> (length rc < depth)%nat ->
  negb npr && bool_decide (thash s = placeholder) = false ->
  delete_loop digest p total i (thash s :: (thash <$> rc)) h (thash t) npr smt =
  delete_loop digest p total (S i) (thash <$> rc) (thash (join p (length rc) s t))
    (thash (join p (length rc) s t)) true
    (set_nodes (<[thash (join p (length rc) s t) := tdata (join p (length rc) s t)]> (nodes smt)) smt).
Proof.
  intros Hp Ht Hd Hb. cbn [delete_loop]. rewrite thash_nil. st_step reflexivity. rewrite Hb.
  replace (total - 1 - i)%nat with (length rc) by lia.
  st_step (unfold lift; rewrite digest_step_join by auto; reflexivity). st_step reflexivity. reflexivity.
Qed.

(** Once a sibling has been combined, all others are. *)
Lemma delete_loop_reached p total i rc t smt :
  is_bytes 32 p -> (total = i + length rc)%nat -> (length rc <= depth)%nat -> is_node t = true ->
  delete_loop digest p total i (thash <$> rc) (thash t) (thash t) true smt
  = (Ok (thash (rsplug p rc t)), set_nodes (put_schain p rc t (nodes smt)) smt).
Proof.
  intros Hp. revert i t smt. induction rc as [|s rc IH]; intros i t smt Ht Hd Hn; [now destruct smt|].
  rewrite fmap_cons, delete_loop_join by (auto; simpl in *; lia). cbn [rsplug put_schain].
  assert (lone s t = false) as C by (destruct s, t; simpl in *; congruence). rewrite C, (mk_join _ _ _ _ C).
  rewrite IH; try (simpl in *; lia); [reflexivity|]. unfold join. now destruct (bit p _).
Qed.

(** A lone leaf moves up past empty siblings. *)
Lemma delete_loop_bubble p total i rc q vh smt :
  is_bytes 32 p -> (total = i + length rc)%nat -> (length rc <= depth)%nat ->
  Forall (stored (nodes smt)) rc ->
  delete_loop digest p total i (thash <$> rc) (thash (TLeaf q vh)) (thash (TLeaf q vh)) false smt
  = (Ok (thash (rsplug p rc (TLeaf q vh))), set_nodes (put_schain p rc (TLeaf q vh) (nodes smt)) smt).
Proof.
  intros Hp. revert i. induction rc as [|s rc IH]; intros i Ht Hd Hst; [now destruct smt|].
  apply Forall_cons_iff in Hst as [Hs Hst]. rewrite fmap_cons.
  pose proof (stored_zero _ _ Hs) as Hz. unfold is_zero_hash in Hz. fold placeholder in Hz.
  destruct (decide (s = TEmpty)) as [->|Hne].
  - cbn [delete_loop]. rewrite thash_nil. st_step reflexivity.
    rewrite Hz. cbn [negb andb]. rewrite bool_decide_eq_true_2 by auto.
    rewrite IH; try (simpl in *; lia); auto.
  - rewrite delete_loop_join; auto; try (simpl in *; lia);
      [|now rewrite Hz, bool_decide_eq_false_2].
    assert (lone s (TLeaf q vh) = false) as C by (destruct s; simpl; congruence).
    cbn [rsplug put_schain]. rewrite C, (mk_join _ _ _ _ C), delete_loop_reached;
      try (simpl in *; lia); auto. unfold join. now destruct (bit p _).
Qed.

Lemma delete_loop_spec p c smt :
  is_bytes 32 p -> (length c <= depth)%nat -> Forall (stored (nodes smt)) c ->
  (forall s c', c = c' ++ [s] -> s <> TEmpty) ->
  delete_loop digest p (length c) 0 (rhashes c) H256_zero [] false smt
  = (Ok (thash (splug p 0 c TEmpty)), set_nodes (put_schain p (reverse c) TEmpty (nodes smt)) smt).
Proof.
  intros Hp Hd Hst Hlast. rewrite <- rsplug_splug. unfold rhashes. rewrite <- fmap_reverse.
  destruct (reverse c) as [|s rc] eqn:Er; [now destruct smt|].
  assert (c = reverse rc ++ [s]) as Ec by (rewrite <- (reverse_involutive c), Er; apply reverse_cons).
  assert (length c = S (length rc)) as Hl by (rewrite Ec, length_app, length_reverse; simpl; lia).
  assert (s <> TEmpty) as Hne by (eapply Hlast; eauto).
  assert (Forall (stored (nodes smt)) (s :: rc)) as Hst' by (rewrite <- Er; now apply Forall_reverse).
  apply Forall_cons_iff in Hst' as [Hs Hrc]. destruct (stored_root _ _ Hs Hne) as [_ Es].
  rewrite fmap_cons. destruct (is_node s) eqn:Hn.
  - assert (lone s TEmpty = false) as C by (destruct s; simpl in *; congruence).
    cbn [delete_loop]. rewrite (bool_decide_eq_true_2 ([] = [])) by auto.
    st_step (st_step reflexivity; st_step (unfold lift, Storage_get; rewrite Es; reflexivity);
      st_step (unfold lift; rewrite is_leaf_data, Hn by auto; reflexivity); reflexivity).
    cbn [negb andb]. replace (length c - 1 - 0)%nat with (length rc) by lia.
    change placeholder with (thash TEmpty).
    st_step (unfold lift; rewrite digest_step_join by (auto; lia); reflexivity).
    st_step reflexivity. cbn [rsplug put_schain]. rewrite C, (mk_join _ _ _ _ C).
    rewrite delete_loop_reached; auto; try lia. unfold join. now destruct (bit p _).
  - destruct s as [|q vh|]; try congruence; [|discriminate].
    cbn [delete_loop]. rewrite (bool_decide_eq_true_2 ([] = [])) by auto.
    st_step (st_step reflexivity; st_step (unfold lift, Storage_get; rewrite Es; reflexivity);
      st_step (unfold lift; rewrite is_leaf_data, Hn by auto; reflexivity); reflexivity).
    cbv iota. rewrite delete_loop_bubble; auto; lia.
Qed.

Lemma delete_with_sides_spec U smt p c vh :
  collision_free U -> is_bytes 32 p -> wf_tree (plug p 0 c (TLeaf p vh)) 0 ->
  incl (node_data (plug p 0 c (TLeaf p vh))) U -> incl (node_data (splug p 0 c TEmpty)) U ->
  stored (nodes smt) (plug p 0 c (TLeaf p vh)) ->
  exists st, delete_with_sides_nodes digest p (rhashes c) (rhashes (spine p 0 c (TLeaf p vh)))
      (tdata (TLeaf p vh)) smt = (Ok (thash (splug p 0 c TEmpty)), set_nodes st smt) /\
    stored st (splug p 0 c TEmpty).
Proof.
  intros HU Hp W Iold Inew Hst.
  destruct (proj1 (wf_plug p 0 c (TLeaf p vh) ltac:(intros; apply agree_0)) W) as (Wc & T & _).
  destruct (stored_plug _ _ _ _ _ Hst) as (Hc & Hu & Hx).
  assert (forall x, In x (spine p 0 c (TLeaf p vh)) -> incl (node_data x) U /\ exists d, wf_tree x d) as Hsp.
  { intros x Hin. assert (In x (subtrees (plug p 0 c (TLeaf p vh)))) as Hs.
    { apply in_app_or in Hin as [Hin|[<-|[]]]; [now apply ispine_subtree | apply plug_subtree]. }
    split; [|now apply (subtrees_wf _ _ _ Hs W)].
    eapply incl_tran; [apply subtrees_data, Hs | exact Iold]. }
  assert (NoDup (spine p 0 c (TLeaf p vh))) as Hnd.
  { unfold spine. apply list.NoDup_app. split; [apply ispine_NoDup|]. split.
    - intros x Hin E. apply list_elem_of_In in Hin. apply ispine_node in Hin.
      apply list_elem_of_singleton in E. subst x. discriminate.
    - apply NoDup_singleton. }
  set (st := del_all (nodes smt) (rhashes (spine p 0 c (TLeaf p vh)))).
  assert (Forall (stored st) c) as Hc'.
  { rewrite Forall_forall in Hc |- *. intros s Hs. apply stored_del_all; auto.
    destruct (wf_context_in _ _ _ _ Wc Hs) as [d Ws]. eapply (fresh_hashes U); eauto.
    - eapply incl_tran; [apply (node_data_plug p 0 c (TLeaf p vh) s); auto | exact Iold].
    - intros x Hin. apply in_app_or in Hin as [Hin|[<-|[]]]; [now apply (ispine_off p 0 c (TLeaf p vh))|].
      intros Hsub. apply (wf_context_off p 0 c vh Wc). exists s. split; auto.
      eapply subtrees_leaves; [exact Hsub | now left]. }
  exists (put_schain p (reverse c) TEmpty st). split.
  - unfold delete_with_sides_nodes, spine. rewrite rhashes_snoc. st_step reflexivity.
    rewrite (stored_zero (nodes smt)) by exact Hu. rewrite bool_decide_eq_false_2 by discriminate.
    st_step (unfold lift; rewrite parse_leaf_data by auto; reflexivity).
    rewrite bool_decide_eq_true_2 by auto. cbn [negb]. rewrite <- rhashes_snoc. fold (spine p 0 c (TLeaf p vh)).
    st_step (apply del_all_nodes; [apply (rhashes_NoDup U); auto|];
      intros k Hk; unfold rhashes in Hk;
      apply list_elem_of_In, elem_of_reverse, list_elem_of_fmap in Hk as (x & -> & Hin);
      apply list_elem_of_In, in_app_or in Hin as [Hin|[<-|[]]]; [now apply Hx | rewrite (proj2 Hu); eauto]).
    fold st. replace (length (rhashes c)) with (length c)
      by (unfold rhashes; now rewrite length_reverse, length_fmap).
    rewrite delete_loop_spec; auto.
    + apply (wf_context_length p 0); auto. lia.
    + intros s c' ->. apply tight_app in T as [_ T]. destruct T as [C _]. intros ->. discriminate C.
  - rewrite <- rsplug_splug. apply (put_schain_stored U); auto; [now rewrite rsplug_splug | exact Logic.I|].
    now apply Forall_reverse.
Qed.

(** Deleting a present key. *)
Lemma delete_represents smt t m key v :
  let p := path digest key in
  let t' := tremove p t in
  represents smt t m -> m !! p = Some v -> collision_free (node_data t ++ node_data t') ->
  exists smt', update digest key [] smt = (Ok (thash t'), smt') /\ represents smt' t' (delete p m).
Proof.
  intros p t' R Hv HU. pose proof (rep_wf _ _ _ R) as W. assert (is_bytes 32 p) as Hp by apply digest_len.
  destruct (tremove_spec p t W) as [W' _].
  destruct (descend p t 0) as [c u] eqn:E.
  destruct (descend_wf _ _ _ _ W E) as (Et & Hu & Wc & _).
  assert (tlookup t p 0 = Some (digest v)) as L by (rewrite (rep_lookup _ _ _ R), Hv; reflexivity).
  assert (u = TLeaf p (digest v)) as ->.
  { apply tlookup_leaf in L; auto. rewrite Et in L. apply leaves_plug in L as [L|L].
    - destruct u; simpl in L; [contradiction| |discriminate]. destruct L as [[= -> ->]|[]]. reflexivity.
    - now apply (wf_context_off p 0 c) in L. }
  assert (t' = splug p 0 c TEmpty) as Et' by (subst t'; unfold tremove; rewrite E; now rewrite decide_True).
  destruct (delete_with_sides_spec (node_data t ++ node_data t') (set_values (delete p (values smt)) smt)
    p c (digest v)) as (st & Ed & Hst); auto.
  { now rewrite <- Et. }
  { rewrite <- Et. apply incl_appl, incl_refl. }
  { rewrite <- Et'. apply incl_appr, incl_refl. }
  { rewrite <- Et. apply R. }
  exists (set_root (thash t') (set_nodes st (set_values (delete p (values smt)) smt))). split.
  - unfold update. st_step reflexivity. unfold update_for_root. fold p.
    destruct (side_nodes_for_root_spec smt p t c _ Hp W (rep_nodes _ _ _ R) E) as [sib Es].
    st_step (st_step reflexivity;
      st_step (unfold lift; rewrite (rep_root _ _ _ R); rewrite Es; reflexivity);
      rewrite bool_decide_eq_true_2 by auto;
      st_step (unfold delete_value, zoom, Storage_delete;
        rewrite bool_decide_eq_true_2 by (rewrite (rep_values _ _ _ R), Hv; eauto); reflexivity);
      exact Ed).
    st_step reflexivity. now rewrite Et'.
  - split; [split|]; auto; cbn.
    + now rewrite Et'.
    + intros q. subst t'. rewrite tlookup_tremove by auto. case_decide as Hq.
      * subst q. now rewrite lookup_delete_eq.
      * rewrite lookup_delete_ne by auto. now apply rep_lookup with smt.
    + intros q w Hq. apply lookup_delete_Some in Hq as [_ Hq]. now apply (rep_nonempty _ _ _ R q).
    + now rewrite (rep_values _ _ _ R).
Qed.

(** Deleting an absent key is an error and changes nothing. *)
Lemma delete_absent smt t m key :
  represents smt t m -> m !! path digest key = None ->
  update digest key [] smt = (Err StorageError, smt).
Proof.
  intros R Hm. set (p := path digest key) in *. pose proof (rep_wf _ _ _ R) as W.
  assert (is_bytes 32 p) as Hp by apply digest_len. destruct (descend p t 0) as [c u] eqn:E.
  destruct (side_nodes_for_root_spec smt p t c _ Hp W (rep_nodes _ _ _ R) E) as [sib Es].
  unfold update. st_step reflexivity. unfold update_for_root. fold p.
  unfold gets at 1, mbind, stM_bind, lift. cbv beta iota.
  rewrite (rep_root _ _ _ R), Es. cbv beta iota. rewrite bool_decide_eq_true_2 by auto.
  unfold delete_value, zoom, Storage_delete. rewrite bool_decide_eq_false_2.
  - now destruct smt.
  - rewrite (rep_values _ _ _ R), Hm. apply is_Some_None.
Qed.

End SmtProofs.
