(* ===== verification/SmtTheorems.v ===== *)
(** * The sparse Merkle tree as a map

    What the tree promises to its clients (the state database and, through the
    state root, every block): started empty and driven by [update], it answers
    [get] with the last value written, its root identifies its contents
    whatever the order of the writes, and its proofs are complete and sound.

    [run] drives the model of smt.rs, [spec_run] the map it implements and
    [tree_of] the abstract tree in between; [history] lists the finitely many
    strings hashed on the way, and the theorems assume that those do not
    collide. *)
From S2P Require Import Prelude Crypto Types Smt SmtTree SmtProofs.

Section Runs.
Variable digest : bytes -> H256.
Hypothesis digest_len : forall m, is_bytes 32 (digest m).

Abbreviation op := (bytes * bytes)%type.
Abbreviation contents := (gmap bytes bytes).

(** ** The specification *)

(** What [update] does to the contents, which are indexed by path. *)
Definition spec_update (key value : bytes) (m : contents) : result SmtError contents :=
  if bool_decide (value = []) then
    match m !! path digest key with Some _ => Ok (delete (path digest key) m) | None => Err StorageError end
  else Ok (<[path digest key := value]> m).

Definition tupdate (key value : bytes) (t : tree) : tree :=
  if bool_decide (value = []) then tremove (path digest key) t
  else tinsert (path digest key) (digest value) t.

(** Successive updates, errors ignored. *)
Definition run_from (smt : SparseMerkleTree) (ops : list op) : SparseMerkleTree :=
  fold_left (fun smt o => (update digest o.1 o.2 smt).2) ops smt.
Definition run := run_from smt_new.
Definition spec_step (m : contents) (o : op) : contents :=
  match spec_update o.1 o.2 m with Ok m' => m' | _ => m end.
Definition spec_run (ops : list op) : contents := fold_left spec_step ops ∅.
Definition tree_of (ops : list op) : tree := fold_left (fun t o => tupdate o.1 o.2 t) ops TEmpty.

(** The strings hashed along a run: keys, values and the nodes of every tree. *)
Fixpoint history_from (t : tree) (ops : list op) : list bytes :=
  node_data digest t ++
  match ops with
  | [] => []
  | (k, v) :: ops =>
    k :: (if bool_decide (v = []) then [] else [v]) ++ history_from (tupdate k v t) ops
  end.
Definition history := history_from TEmpty.

(** The last value written under a key. *)
Definition last_write (key : bytes) (ops : list op) : bytes :=
  fold_left (fun acc o => if bool_decide (o.1 = key) then o.2 else acc) ops [].

(** ** Refinement *)

Lemma represents_new : represents digest smt_new TEmpty ∅.
Proof. split; [split|]; simpl; auto. Qed.

Lemma tremove_absent p t : wf_tree t 0 -> tlookup t p 0 = None -> tremove p t = t.
Proof.
  intros W L. unfold tremove. destruct (descend p t 0) as [c u] eqn:E.
  destruct (descend_wf _ _ _ _ W E) as (Et & _). destruct u as [|p' vh|]; auto.
  case_decide as Hp; auto. subst p'. exfalso.
  assert (tlookup t p 0 = Some vh) as H; [|congruence].
  apply tlookup_leaf; auto. rewrite Et. apply leaves_plug. left. now left.
Qed.

Lemma update_represents smt t m key v :
  represents digest smt t m ->
  collision_free digest (node_data digest t ++ node_data digest (tupdate key v t)) ->
  (v <> [] -> forall v', m !! path digest key = Some v' -> digest v' = digest v -> v' = v) ->
  match spec_update key v m with
  | Ok m' => exists smt', update digest key v smt = (Ok (root smt'), smt') /\
                          represents digest smt' (tupdate key v t) m'
  | Err e => update digest key v smt = (Err e, smt) /\ tupdate key v t = t
  | Panic => False
  end.
Proof.
  intros R HU Hv. unfold spec_update, tupdate in *. case_bool_decide as Ev.
  - subst v. destruct (m !! path digest key) as [v|] eqn:Em.
    + destruct (delete_represents digest digest_len smt t m key v R Em HU) as (smt' & E & R').
      exists smt'. split; auto. now rewrite (rep_root _ _ _ _ R').
    + split; [now apply (delete_absent digest digest_len smt t m)|].
      apply tremove_absent; [eapply rep_wf; eauto|]. rewrite (rep_lookup _ _ _ _ R). now rewrite Em.
  - destruct (insert_represents digest digest_len smt t m key v R Ev HU (Hv Ev)) as (smt' & E & R').
    exists smt'. split; auto. now rewrite (rep_root _ _ _ _ R').
Qed.

Lemma history_root t ops : incl (node_data digest t) (history_from t ops).
Proof. destruct ops as [|[k v] ops]; simpl; apply incl_appl, incl_refl. Qed.

Lemma history_cons t k v ops :
  incl (k :: (if bool_decide (v = []) then [] else [v]) ++ history_from (tupdate k v t) ops)
    (history_from t ((k, v) :: ops)).
Proof. cbn [history_from]. apply incl_appr, incl_refl. Qed.

(** A run carries [represents] along. *)
Lemma run_represents_from U ops smt t m :
  collision_free digest U -> incl (history_from t ops) U -> represents digest smt t m ->
  (forall q v, m !! q = Some v -> In v U) ->
  represents digest (run_from smt ops) (fold_left (fun t o => tupdate o.1 o.2 t) ops t)
    (fold_left spec_step ops m) /\
  (forall q v, fold_left spec_step ops m !! q = Some v -> In v U).
Proof.
  intros HU. revert smt t m. induction ops as [|[k v] ops IH]; intros smt t m I R Hval; auto.
  pose proof (history_cons t k v ops) as I'.
  assert (v <> [] -> In v U) as HvU.
  { intros Hne. apply I, I'. rewrite bool_decide_eq_false_2 by auto. right. now left. }
  assert (incl (history_from (tupdate k v t) ops) U) as I2.
  { intros x Hx. apply I, I'. right. apply in_or_app. now right. }
  pose proof (update_represents smt t m k v R) as HR. unfold spec_update in HR.
  cbn [fold_left run_from spec_step fst snd]. unfold run_from. cbn [fold_left fst snd].
  assert (spec_step m (k, v) = match spec_update k v m with Ok m' => m' | _ => m end) as Es by reflexivity.
  unfold spec_update in Es.
  assert (collision_free digest (node_data digest t ++ node_data digest (tupdate k v t))) as HU2.
  { apply (collision_free_sub digest U); auto. apply incl_app.
    - eapply incl_tran; [apply history_root | exact I].
    - eapply incl_tran; [apply history_root | exact I2]. }
  specialize (HR HU2). case_bool_decide as Ev.
  - destruct (m !! path digest k) as [w|] eqn:Em.
    + destruct HR as (smt' & E & R').
      { congruence. }
      rewrite E, Es. cbn [snd]. apply IH; auto.
      intros q v0 Hq. apply lookup_delete_Some in Hq as [_ Hq]. eauto.
    + destruct HR as [E Et]; [congruence|]. rewrite E, Et, Es. cbn [snd]. rewrite Et in I2. now apply IH.
  - destruct HR as (smt' & E & R').
    { intros _ v' Hv' Hd. apply HU; eauto. }
    rewrite E, Es. cbn [snd]. apply IH; auto.
    intros q v' Hq. apply lookup_insert_Some in Hq as [[_ <-]|[_ Hq]]; eauto.
Qed.

Lemma run_represents U ops :
  collision_free digest U -> incl (history ops) U ->
  represents digest (run ops) (tree_of ops) (spec_run ops) /\
  (forall q v, spec_run ops !! q = Some v -> In v U).
Proof.
  intros HU I. apply (run_represents_from U); auto using represents_new.
  intros q v H. discriminate H.
Qed.

Lemma run_data_from ops t :
  incl (node_data digest (fold_left (fun t o => tupdate o.1 o.2 t) ops t)) (history_from t ops).
Proof.
  revert t. induction ops as [|[k v] ops IH]; intros t; [simpl; rewrite app_nil_r; apply incl_refl|].
  eapply incl_tran; [apply IH|]. eapply incl_tran; [|apply history_cons]. apply incl_tl, incl_appr, incl_refl.
Qed.
Lemma run_data ops : incl (node_data digest (tree_of ops)) (history ops).
Proof. apply run_data_from. Qed.

Lemma get_represents smt t m key :
  represents digest smt t m -> get digest smt key = Ok (default [] (m !! path digest key)).
Proof.
  intros R. unfold get, get_or_default. rewrite (rep_root _ _ _ _ R), (rep_values _ _ _ _ R).
  rewrite (stored_zero digest (nodes smt)) by apply R. case_bool_decide as E; auto. subst t.
  pose proof (rep_lookup _ _ _ _ R (path digest key)) as L. simpl in L.
  now destruct (m !! path digest key).
Qed.

Lemma history_keys ops t k v : In (k, v) ops -> In k (history_from t ops).
Proof.
  revert t. induction ops as [|[k' v'] ops IH]; intros t; [intros []|]. intros H.
  apply history_cons. destruct H as [[= -> ->]|H]; [now left|]. right. apply in_or_app. right. auto.
Qed.

Lemma spec_step_lookup m k v q :
  spec_step m (k, v) !! q =
  if decide (path digest k = q) then (if bool_decide (v = []) then None else Some v) else m !! q.
Proof.
  unfold spec_step, spec_update. cbn [fst snd]. case_bool_decide as Ev.
  - destruct (m !! path digest k) eqn:Em; case_decide as Hq; subst; auto.
    + now rewrite lookup_delete_eq.
    + now rewrite lookup_delete_ne.
  - case_decide as Hq; [subst; now rewrite lookup_insert_eq | now rewrite lookup_insert_ne].
Qed.

Lemma spec_run_last_write ops key :
  (forall k v, In (k, v) ops -> digest k = digest key -> k = key) ->
  default [] (spec_run ops !! path digest key) = last_write key ops.
Proof.
  induction ops as [|[k v] ops IH] using rev_ind; intros H; auto.
  unfold spec_run, last_write in *. rewrite !fold_left_app. cbn [fold_left fst snd].
  rewrite spec_step_lookup. destruct (decide (k = key)) as [->|Hk].
  - rewrite decide_True, (bool_decide_eq_true_2 (key = key)) by auto. now case_bool_decide.
  - rewrite (bool_decide_eq_false_2 (k = key)) by auto. rewrite decide_False.
    + apply IH. intros k' v' Hin. apply (H k' v'). apply in_or_app. now left.
    + intros E. apply Hk. apply (H k v); auto. apply in_or_app. right. now left.
Qed.

(** ** Proofs *)

Lemma get_bits_inv {E} p i b : get_bits_at_from_msb (E:=E) p i = Ok b -> b = Z.b2z (bit p i).
Proof.
  intros H. destruct (Nat.lt_ge_cases i (8 * length p)) as [Hi|Hi].
  - rewrite get_bits_ok in H by auto. congruence.
  - unfold get_bits_at_from_msb in H. rewrite lookup_ge_None_2 in H; [discriminate|].
    apply Nat.div_le_lower_bound; lia.
Qed.

(** The hash of a node of the path, and the hash a list of side nodes, root
    first, leads to. *)
Definition step_data (p : bytes) (d : nat) (s h : H256) : bytes :=
  (if bit p d then digest_node digest s h else digest_node digest h s).2.
Fixpoint climb (p : bytes) (d : nat) (rc : list H256) (h : H256) : H256 :=
  match rc with [] => h | s :: rc => digest (step_data p d s (climb p (S d) rc h)) end.
Fixpoint climb_data (p : bytes) (d : nat) (rc : list H256) (h : H256) : list bytes :=
  match rc with
  | [] => []
  | s :: rc => step_data p d s (climb p (S d) rc h) :: climb_data p (S d) rc h
  end.

Lemma climb_snoc p d rc s h :
  climb p d (rc ++ [s]) h = climb p d rc (digest (step_data p (d + length rc) s h)).
Proof.
  revert d. induction rc as [|x rc IH]; intros d; simpl; [now rewrite Nat.add_0_r|].
  now rewrite IH, Nat.add_succ_r.
Qed.
Lemma climb_data_snoc p d rc s h :
  Permutation (climb_data p d (rc ++ [s]) h)
    (step_data p (d + length rc) s h :: climb_data p d rc (digest (step_data p (d + length rc) s h))).
Proof.
  revert d. induction rc as [|x rc IH]; intros d; simpl; [now rewrite Nat.add_0_r|].
  rewrite climb_snoc, IH, Nat.add_succ_r. apply Permutation_swap.
Qed.

(** The node data among the updates [verify_proof_with_updates] returns. *)
Definition update_data (updates : list (list bytes)) : list bytes := omap (fun u => u !! 1%nat) updates.

Lemma digest_step_inv {E} p d s h r :
  digest_step (E:=E) digest p d s h = Ok r -> r = (digest (step_data p d s h), step_data p d s h).
Proof.
  unfold digest_step, step_data. destruct (get_bits_at_from_msb p d) as [b|e|] eqn:Eb; try discriminate.
  apply get_bits_inv in Eb. subst b. cbn [mbind result_bind]. intros [= <-]. now destruct (bit p d).
Qed.

Lemma verify_loop_inv p sides h ups h' ups' :
  verify_loop digest p sides h ups = Ok (h', ups') ->
  h' = climb p 0 (rev sides) h /\
  Permutation (update_data ups') (update_data ups ++ climb_data p 0 (rev sides) h).
Proof.
  revert h ups. induction sides as [|s sides IH]; intros h ups.
  - simpl. intros [= <- <-]. split; auto. now rewrite app_nil_r.
  - cbn [verify_loop]. destruct (digest_step digest p (length sides) s h) as [r|e|] eqn:Es; try discriminate.
    apply digest_step_inv in Es. subst r. cbn [mbind result_bind]. intros H.
    destruct (IH _ _ H) as [-> Hp]. cbn [rev]. rewrite climb_snoc, climb_data_snoc, length_rev, Nat.add_0_l.
    split; auto. rewrite Hp. unfold update_data. rewrite omap_app. simpl. rewrite <- app_assoc. reflexivity.
Qed.

Lemma climb_len p d rc h : is_bytes 32 h -> is_bytes 32 (climb p d rc h).
Proof. destruct rc; simpl; auto. Qed.

(** Side nodes that lead to the root of a tree lead there from a node of the
    tree at which the path can be looked up as well. *)
Lemma climb_sound U p rc d d0 t h :
  collision_free digest U -> incl (node_data digest t) U -> incl (climb_data p d rc h) U -> wf_tree t d0 ->
  Forall (is_bytes 32) rc -> is_bytes 32 h -> climb p d rc h = thash digest t ->
  exists t' d', incl (node_data digest t') U /\ (exists d0', wf_tree t' d0') /\ thash digest t' = h /\
    tlookup t p d = tlookup t' p d'.
Proof.
  intros HU. revert t d d0. induction rc as [|s rc IH]; intros t d d0 It Id W Hrc Hh E.
  { exists t, d. eauto. }
  cbn [climb climb_data] in *. inversion_clear Hrc as [|? ? Hs Hrc'].
  assert (In (step_data p d s (climb p (S d) rc h)) U) as Hd by (apply Id; now left).
  assert (t <> TEmpty) as Hne by (intros ->; now apply (proj2 HU) in Hd).
  destruct (thash_digest digest t Hne) as [Et Hin]. rewrite Et in E.
  apply (proj1 HU) in E; auto.
  pose proof (climb_len p (S d) rc h Hh) as Hl.
  assert (forall a b l r, is_bytes 32 a -> (digest_node digest a b).2 = tdata digest (TNode l r) ->
    a = thash digest l /\ b = thash digest r) as Inj.
  { intros a b l r Ha Ee. unfold digest_node, tdata in Ee. cbn [snd] in Ee. injection Ee as Ee.
    apply app_inj_len in Ee; auto. now rewrite (proj1 Ha), (proj1 (thash_len _ digest_len l)). }
  unfold step_data in E.
  destruct t as [|q vh|l r]; [congruence | destruct (bit p d); discriminate E|].
  destruct W as (_ & _ & _ & _ & Wl & Wr).
  assert (incl (node_data digest l) U /\ incl (node_data digest r) U) as [Il Ir].
  { split; intros x Hx; apply It; right; apply in_or_app; auto. }
  assert (incl (climb_data p (S d) rc h) U) as Id' by (intros x Hx; apply Id; now right).
  cbn [tlookup]. destruct (bit p d); apply Inj in E as [E1 E2]; auto.
  - destruct (IH r (S d) (S d0)) as (t' & d' & H); eauto.
  - destruct (IH l (S d) (S d0)) as (t' & d' & H); eauto.
Qed.

Lemma tlookup_descend p t d c u :
  descend p t d = (c, u) -> tlookup t p d = tlookup u p (d + length c).
Proof.
  revert d c. induction t as [|q vh|l IHl r IHr]; intros d c; cbn [descend].
  - intros [= <- <-]. reflexivity.
  - intros [= <- <-]. reflexivity.
  - cbn [tlookup]. destruct (bit p d).
    + destruct (descend p r (S d)) as [c' u'] eqn:E. intros [= <- <-].
      rewrite (IHr _ _ E). f_equal. simpl. lia.
    + destruct (descend p l (S d)) as [c' u'] eqn:E. intros [= <- <-].
      rewrite (IHl _ _ E). f_equal. simpl. lia.
Qed.

Lemma verify_loop_plug p rc t ups :
  is_bytes 32 p -> (length rc <= depth)%nat ->
  exists ups', verify_loop digest p (thash digest <$> rc) (thash digest t) ups =
    Ok (thash digest (rplug p rc t), ups').
Proof.
  intros Hp. revert t ups. induction rc as [|s rc IH]; intros t ups Hl; [simpl; eauto|].
  cbn [fmap list_fmap verify_loop]. rewrite length_fmap, digest_step_join by (auto; simpl in Hl; lia).
  cbn [mbind result_bind rplug]. apply IH. simpl in Hl. lia.
Qed.

(** What [verify_proof_with_updates] computes for the hashes beside a path of
    the tree, from the hash found at its end. *)
Lemma verify_finish p c u ups :
  is_bytes 32 p -> (length c <= depth)%nat ->
  exists ups', verify_loop digest p (rhashes digest c) (thash digest u) ups =
    Ok (thash digest (plug p 0 c u), ups').
Proof.
  intros Hp Hlen. unfold rhashes. rewrite <- fmap_reverse, <- rplug_plug.
  apply verify_loop_plug; auto. rewrite length_reverse. lia.
Qed.

Ltac verify_from p c u Hp Hlen :=
  cbn [digest_leaf mbind result_bind side_nodes];
  match goal with |- context [verify_loop _ p _ ?h _] => change h with (thash digest u) end;
  match goal with |- context [verify_loop _ p _ _ ?ups] =>
    destruct (verify_finish p c u ups Hp Hlen) as [? ->];
    cbn [mbind result_bind]; rewrite bool_decide_eq_true_2 by reflexivity; reflexivity end.

(** The proof of a key verifies for the value the key has. *)
Lemma proof_represents smt t m key :
  represents digest smt t m ->
  exists pf, proof digest smt key = Ok pf /\
    verify_proof digest pf (root smt) key (default [] (m !! path digest key)) = Ok true.
Proof.
  intros R. pose proof (rep_wf _ _ _ _ R) as W. set (p := path digest key).
  assert (is_bytes 32 p) as Hp by apply digest_len. destruct (descend p t 0) as [c u] eqn:E.
  destruct (side_nodes_for_root_spec digest digest_len smt p t c u Hp W (rep_nodes _ _ _ _ R) E) as [sib Es].
  destruct (descend_wf _ _ _ _ W E) as (Et & Hu & _ & _ & Wu & _ & Hlen).
  pose proof (rep_lookup _ _ _ _ R p) as L. rewrite (tlookup_descend _ _ _ _ _ E) in L.
  assert (stored digest (nodes smt) u) as Su.
  { pose proof (rep_nodes _ _ _ _ R) as S. rewrite Et in S. now apply stored_plug in S as (_ & Su & _). }
  unfold proof, do_proof_for_root. fold p. rewrite (rep_root _ _ _ _ R), Es. cbn [mbind result_bind].
  cbn [r_path_nodes r_side_nodes r_leaf_data r_sibling_data]. unfold spine. rewrite rhashes_snoc.
  cbn [head unwrap mbind result_bind]. rewrite (stored_zero digest (nodes smt)) by exact Su.
  destruct (m !! p) as [v|] eqn:Em.
  - pose proof (rep_nonempty _ _ _ _ R p v Em) as Hv.
    destruct u as [|p' vh|]; try discriminate. cbn [tlookup] in L. case_decide; [|discriminate].
    injection L as ->. subst p'. rewrite bool_decide_eq_false_2 by discriminate. cbn [negb].
    rewrite parse_leaf_data by auto. cbn [mbind result_bind]. rewrite bool_decide_eq_true_2 by auto.
    eexists. split; [reflexivity|]. unfold verify_proof, verify_proof_with_updates. cbn [default].
    rewrite bool_decide_eq_false_2 by auto. fold p. cbn [side_nodes mbind result_bind]. rewrite Et.
    verify_from p c (TLeaf p (digest v)) Hp Hlen.
  - destruct u as [|p' vh|]; [| |discriminate].
    + rewrite bool_decide_eq_true_2 by auto. eexists. split; [reflexivity|].
      unfold verify_proof, verify_proof_with_updates. cbn [default non_membership_leaf_data].
      rewrite bool_decide_eq_true_2 by auto. fold p. cbn [side_nodes mbind result_bind]. rewrite Et.
      verify_from p c TEmpty Hp Hlen.
    + cbn [tlookup] in L. case_decide as Hne; [discriminate|]. destruct Wu as [Hp' _].
      rewrite bool_decide_eq_false_2 by discriminate. cbn [negb].
      rewrite parse_leaf_data by auto. cbn [mbind result_bind]. rewrite bool_decide_eq_false_2 by auto.
      eexists. split; [reflexivity|]. unfold verify_proof, verify_proof_with_updates.
      cbn [default negb non_membership_leaf_data]. rewrite (bool_decide_eq_true_2 ([] = [])) by auto. fold p.
      rewrite parse_leaf_data by auto. cbn [mbind result_bind]. rewrite bool_decide_eq_false_2 by auto.
      cbn [side_nodes mbind result_bind]. rewrite Et.
      verify_from p c (TLeaf p' vh) Hp Hlen.
Qed.

(** Where a verification starts. *)
Lemma verify_start (pf : Proof) (p v : bytes) h (ups : list (list bytes)) :
  (if bool_decide (v = []) then
     match non_membership_leaf_data pf with
     | None => Ok (placeholder, [])
     | Some leaf_data =>
       '(actual_path, value_hash) ← parse_leaf leaf_data;
       if bool_decide (actual_path = p) then Err (NonMembershipPathError actual_path p)
       else let '(l, current_data) := digest_leaf digest actual_path value_hash in
            Ok (l, [[l; current_data]])
     end
   else
     let '(l, current_data) := digest_leaf digest p (digest v) in Ok (l, [[l; current_data]])) =
  Ok (h, ups) ->
  v = [] /\ h = placeholder \/
  exists q w, h = digest (LEAF_PREFIX ++ q ++ w) /\ update_data ups = [LEAF_PREFIX ++ q ++ w] /\
    (v = [] /\ length q = 32%nat /\ q <> p \/ v <> [] /\ q = p /\ w = digest v).
Proof.
  case_bool_decide as Hv.
  - destruct (non_membership_leaf_data pf) as [data|]; [|intros [= <- <-]; auto].
    unfold parse_leaf, parse_hashes. destruct (take_bytes 1 data) as [[a b]|e|]; try discriminate.
    cbn [mbind result_bind]. destruct (take_bytes HASH_LEN b) as [[q w]|e|] eqn:Eq; try discriminate.
    cbn [mbind result_bind]. case_bool_decide as Hq; [discriminate|]. intros [= <- <-]. right.
    exists q, w. split_and!; auto. left. split_and!; auto. now apply take_bytes_inv in Eq as [? _].
  - intros [= <- <-]. right. exists p, (digest v). auto 10.
Qed.

(** What a verified proof shows about the tree it was verified against. *)
Lemma verified_lookup t pf key v ups :
  let p := path digest key in
  wf_tree t 0 -> Forall (is_bytes 32) (side_nodes pf) ->
  verify_proof_with_updates digest pf (thash digest t) key v = Ok ups ->
  collision_free digest (node_data digest t ++ update_data ups) ->
  tlookup t p 0 = if bool_decide (v = []) then None else Some (digest v).
Proof.
  intros p W Hs H HU. unfold verify_proof_with_updates in H. fold p in H.
  match type of H with (?s ≫= _) = _ => destruct s as [[h ups0]|e|] eqn:Estart end; try discriminate.
  apply verify_start in Estart. cbn [mbind result_bind] in H.
  destruct (verify_loop digest p (side_nodes pf) h ups0) as [[h' ups']|e|] eqn:El; try discriminate.
  cbn [mbind result_bind] in H. case_bool_decide as Hr; [|discriminate]. injection H as <-.
  destruct (verify_loop_inv _ _ _ _ _ _ El) as [-> HP].
  set (U := node_data digest t ++ update_data ups') in *.
  assert (incl (update_data ups0) U /\ incl (climb_data p 0 (rev (side_nodes pf)) h) U) as [I0 Ic].
  { split; intros x Hx; apply in_or_app; right; eapply Permutation_in; [symmetry; exact HP| |
      symmetry; exact HP|]; apply in_or_app; auto. }
  assert (is_bytes 32 h) as Hh.
  { destruct Estart as [[_ ->]|(q & w & -> & _)]; [apply (thash_len _ digest_len TEmpty) | apply digest_len]. }
  destruct (climb_sound U p (rev (side_nodes pf)) 0 0 t h HU) as (t' & d' & It & [d0 W'] & Ht & ->); auto.
  { apply incl_appl, incl_refl. }
  { apply Forall_rev. exact Hs. }
  destruct Estart as [[-> Eh]|(q & w & Eh & Eu & Hq)].
  - destruct (decide (t' = TEmpty)) as [->|Hne]; auto. exfalso.
    destruct (thash_digest digest _ Hne) as [E Hin]. apply (proj2 HU (tdata digest t')); auto. congruence.
  - rewrite Eu in I0. assert (In (LEAF_PREFIX ++ q ++ w) U) as Hin by (apply I0; now left).
    destruct (decide (t' = TEmpty)) as [->|Hne].
    { exfalso. apply (proj2 HU _ Hin). rewrite <- Eh, <- Ht. reflexivity. }
    destruct (thash_digest digest _ Hne) as [E Hin']. rewrite E, Eh in Ht.
    apply (proj1 HU) in Ht; auto. destruct t' as [|q' w'|]; [congruence| |discriminate Ht].
    injection Ht as Ht. destruct W' as [[Hl' _] _].
    assert (length q = 32%nat) as Hl.
    { destruct Hq as [(_ & ? & _)|(_ & -> & _)]; auto. apply digest_len. }
    apply app_inj_len in Ht as [-> ->]; [|congruence]. cbn [tlookup].
    destruct Hq as [(-> & _ & Hq)|(Hv & -> & ->)].
    + now rewrite decide_False.
    + rewrite decide_True, bool_decide_eq_false_2 by auto. reflexivity.
Qed.

Lemma verify_loop_total p sides h ups :
  is_bytes 32 p -> (length sides <= depth)%nat -> exists r, verify_loop digest p sides h ups = Ok r.
Proof.
  intros Hp. revert h ups. induction sides as [|s sides IH]; intros h ups Hl; [simpl; eauto|].
  cbn [verify_loop]. unfold digest_step. simpl in Hl.
  rewrite get_bits_ok by (rewrite (proj1 Hp); unfold depth in Hl; simpl in Hl; lia).
  cbn [mbind result_bind]. destruct (_ =? 1); simpl; apply IH; lia.
Qed.

Lemma parse_leaf_total {E} data :
  (33 <= length data)%nat -> exists r, parse_leaf (E:=E) data = Ok r.
Proof.
  intros H. unfold parse_leaf, parse_hashes, take_bytes. rewrite decide_True by lia.
  cbn [mbind result_bind]. rewrite decide_True by (rewrite length_drop; unfold HASH_LEN; lia). eauto.
Qed.
Lemma parse_leaf_short {E} data : (length data < 33)%nat -> parse_leaf (E:=E) data = Panic.
Proof.
  intros H. unfold parse_leaf, parse_hashes, take_bytes. case_decide; [|reflexivity].
  cbn [mbind result_bind]. rewrite decide_False by (rewrite length_drop; unfold HASH_LEN; lia). reflexivity.
Qed.

(** A proof a tree can produce: at most one side node for each bit of the path,
    and a leaf long enough to hold a path. *)
Definition wf_proof (pf : Proof) : Prop :=
  (length (side_nodes pf) <= depth)%nat /\
  forall data, non_membership_leaf_data pf = Some data -> (33 <= length data)%nat.

(** ** Theorems *)

(** C1 [update] implements the map update: an insertion, the deletion of a
    present key, or an error that leaves the tree as it was when the key to
    delete is absent; the result is the root of the new tree. *)
Theorem update_refines smt t m key v :
  represents digest smt t m ->
  collision_free digest (node_data digest t ++ node_data digest (tupdate key v t)) ->
  (v <> [] -> forall v', m !! path digest key = Some v' -> digest v' = digest v -> v' = v) ->
  match spec_update key v m with
  | Ok m' => exists smt', update digest key v smt = (Ok (root smt'), smt') /\
                          represents digest smt' (tupdate key v t) m'
  | Err e => update digest key v smt = (Err e, smt)
  | Panic => False
  end.
Proof.
  intros R HU Hv. pose proof (update_represents smt t m key v R HU Hv) as H.
  destruct (spec_update key v m); auto. apply H.
Qed.

(** C2 After any sequence of updates of an empty tree, [get] returns the last
    value written under the key, and the empty value for a key never written or
    deleted since. *)
Theorem get_last_write ops key :
  collision_free digest (key :: history ops) -> get digest (run ops) key = Ok (last_write key ops).
Proof.
  intros HU. destruct (run_represents (key :: history ops) ops HU) as [R _]; [apply incl_tl, incl_refl|].
  rewrite (get_represents _ _ _ _ R), spec_run_last_write; auto.
  intros k v Hin E. apply HU; auto; [|now left]. right. now apply (history_keys ops TEmpty k v).
Qed.

(** C3 The root identifies the contents: two sequences of updates reach the same
    root exactly when they leave the same map, whatever the order of the
    updates and the keys written and deleted on the way. *)
Theorem root_iff_contents ops1 ops2 :
  collision_free digest (history ops1 ++ history ops2) ->
  root (run ops1) = root (run ops2) <-> spec_run ops1 = spec_run ops2.
Proof.
  intros HU. destruct (run_represents _ ops1 HU) as [R1 V1]; [apply incl_appl, incl_refl|].
  destruct (run_represents _ ops2 HU) as [R2 V2]; [apply incl_appr, incl_refl|].
  rewrite (rep_root _ _ _ _ R1), (rep_root _ _ _ _ R2). split; intros E.
  - assert (tree_of ops1 = tree_of ops2) as Et.
    { apply (thash_inj digest digest_len _ _ _ 0 0 HU); auto; try apply R1; try apply R2.
      - apply incl_appl, run_data.
      - apply incl_appr, run_data. }
    apply map_eq. intros q. pose proof (rep_lookup _ _ _ _ R1 q) as L.
    rewrite Et, (rep_lookup _ _ _ _ R2 q) in L.
    destruct (spec_run ops1 !! q) as [v1|] eqn:E1, (spec_run ops2 !! q) as [v2|] eqn:E2; try discriminate; auto.
    injection L as L. f_equal. symmetry. apply HU; eauto.
  - f_equal. apply (wf_canonical _ _ 0); [apply R1 | apply R2|]. intros q.
    now rewrite (rep_lookup _ _ _ _ R1), (rep_lookup _ _ _ _ R2), E.
Qed.

(** C5 Proofs are complete: after any sequence of updates the tree gives a proof
    for every key, which verifies against the root for the value [get] returns. *)
Theorem proof_complete ops key :
  collision_free digest (history ops) ->
  exists pf v, get digest (run ops) key = Ok v /\ proof digest (run ops) key = Ok pf /\
    verify_proof digest pf (root (run ops)) key v = Ok true.
Proof.
  intros HU. destruct (run_represents _ ops HU (incl_refl _)) as [R _].
  destruct (proof_represents _ _ _ key R) as (pf & E & V).
  exists pf. eexists. split; [apply (get_represents _ _ _ _ R)|]. auto.
Qed.

(** C4 Proofs are sound: a proof that verifies against the root of a tree for a
    value shows that [get] returns that value, the empty value standing for
    absence.  The nodes of the tree and of the proof and the values compared
    are assumed not to collide. *)
Theorem proof_sound ops pf key v ups :
  Forall (is_bytes 32) (side_nodes pf) ->
  verify_proof_with_updates digest pf (root (run ops)) key v = Ok ups ->
  collision_free digest (v :: history ops ++ update_data ups) ->
  get digest (run ops) key = Ok v.
Proof.
  intros Hs H HU. destruct (run_represents _ ops HU) as [R V]; [apply incl_tl, incl_appl, incl_refl|].
  rewrite (rep_root _ _ _ _ R) in H.
  pose proof (verified_lookup _ _ _ _ _ (rep_wf _ _ _ _ R) Hs H) as L.
  rewrite (get_represents _ _ _ _ R). rewrite (rep_lookup _ _ _ _ R) in L.
  destruct (spec_run ops !! path digest key) as [w|] eqn:E; simpl in L.
  - case_bool_decide; try discriminate L.
    all: specialize (L (collision_free_sub _ _ _ HU ltac:(apply incl_tl, incl_app_app;
      [apply run_data | apply incl_refl]))).
    all: try discriminate L. injection L as L. simpl. f_equal. apply HU; eauto. now left.
  - case_bool_decide as Hv; [now subst|].
    specialize (L (collision_free_sub _ _ _ HU ltac:(apply incl_tl, incl_app_app;
      [apply run_data | apply incl_refl]))). discriminate L.
Qed.

(** Verification answers every proof of the shape the tree produces, but a
    non-membership leaf of less than 33 bytes makes it panic instead of
    rejecting the proof. *)
Theorem verify_proof_answers pf root key v :
  (wf_proof pf -> exists b, verify_proof digest pf root key v = Ok b) /\
  (forall data, v = [] -> non_membership_leaf_data pf = Some data -> (length data < 33)%nat ->
    verify_proof digest pf root key v = Panic).
Proof.
  split.
  - intros [Hl Hd]. unfold verify_proof, verify_proof_with_updates.
    assert (forall h ups, exists r, verify_loop digest (path digest key) (side_nodes pf) h ups = Ok r) as T
      by (intros; apply verify_loop_total; auto; apply digest_len).
    assert (forall h ups, exists b, match ('(h, ups) ← verify_loop digest (path digest key) (side_nodes pf) h ups;
        if negb (bool_decide (h = root)) then Err (BadProof ups) else Ok ups) with
      | Ok _ => Ok true | Err _ => Ok false | Panic => Panic end = Ok b :> result SmtError bool) as F.
    { intros h ups. destruct (T h ups) as [[h' ups'] ->]. cbn [mbind result_bind].
      destruct (negb _); eauto. }
    case_bool_decide as Hv; cbn [mbind result_bind]; [destruct (non_membership_leaf_data pf) as [data|]|].
    + destruct (parse_leaf_total (E:=SmtError) data (Hd _ eq_refl)) as [[q w] ->]. cbn [mbind result_bind].
      case_bool_decide; [eauto | apply F].
    + apply F.
    + apply F.
  - intros data -> Hd Hl. unfold verify_proof, verify_proof_with_updates.
    rewrite bool_decide_eq_true_2, Hd, parse_leaf_short by auto. reflexivity.
Qed.

End Runs.

(** ** Witnesses

    A tree with the keccak of [toy_crypto] through writes, overwrites and
    deletions. *)

Section Check.
Variable digest : bytes -> H256.

Definition collision_freeb (U : list bytes) : bool :=
  let hashed := map (fun x => (digest x, x)) U in
  forallb (fun '(h, x) => negb (bool_decide (h = placeholder)) &&
    forallb (fun '(h', y) => negb (bool_decide (h = h')) || bool_decide (x = y)) hashed) hashed.

Lemma collision_freeb_ok U : collision_freeb U = true -> collision_free digest U.
Proof.
  unfold collision_freeb. rewrite forallb_forall. intros H.
  assert (forall x, In x U -> In (digest x, x) (map (fun x => (digest x, x)) U)) as Hm
    by (intros x Hx; apply in_map_iff; eauto).
  split.
  - intros x y Hx Hy E. apply Hm, H, andb_prop in Hx as [_ Hx]. rewrite forallb_forall in Hx.
    apply Hm, Hx, orb_prop in Hy as [Hy|Hy]; [|now apply bool_decide_eq_true_1 in Hy].
    now apply negb_true_iff, bool_decide_eq_false_1 in Hy.
  - intros x Hx. apply Hm, H, andb_prop in Hx as [Hx _]. now apply negb_true_iff, bool_decide_eq_false_1 in Hx.
Qed.
End Check.

Definition demo_ops : list (bytes * bytes) :=
  [([1], [10]); ([2], [20; 21]); ([3], [30]); ([2], []); ([1], [11]); ([4], []); ([5], [50])].
Definition demo_ops2 : list (bytes * bytes) := [([5], [50]); ([3], [30]); ([1], [11])].

Lemma update_refines_witness :
  exists smt', update keccak256 [1] [10] smt_new = (Ok (root smt'), smt') /\
    represents keccak256 smt' (tupdate keccak256 [1] [10] TEmpty) {[ path keccak256 [1] := [10] ]}.
Proof.
  apply (update_refines keccak256 keccak256_len smt_new TEmpty ∅ [1] [10]).
  - apply represents_new.
  - apply collision_freeb_ok. vm_compute. reflexivity.
  - intros _ v' H. discriminate H.
Defined.
Lemma get_last_write_witness : get keccak256 (run keccak256 demo_ops) [1] = Ok [11].
Proof.
  apply (get_last_write keccak256 keccak256_len demo_ops [1]).
  apply collision_freeb_ok. vm_compute. reflexivity.
Defined.
Lemma root_iff_contents_witness : root (run keccak256 demo_ops) = root (run keccak256 demo_ops2).
Proof.
  apply (root_iff_contents keccak256 keccak256_len demo_ops demo_ops2).
  - apply collision_freeb_ok. vm_compute. reflexivity.
  - apply (bool_decide_unpack _). vm_compute. exact Logic.I.
Defined.
Lemma proof_complete_witness :
  exists pf v, get keccak256 (run keccak256 demo_ops) [2] = Ok v /\ proof keccak256 (run keccak256 demo_ops) [2] = Ok pf /\
    verify_proof keccak256 pf (root (run keccak256 demo_ops)) [2] v = Ok true.
Proof.
  apply (proof_complete keccak256 keccak256_len demo_ops [2]).
  apply collision_freeb_ok. vm_compute. reflexivity.
Defined.

Definition demo_proof : Proof :=
  ok_default {| side_nodes := []; non_membership_leaf_data := None; sibling_data := None |}
    (proof keccak256 (run keccak256 demo_ops) [3]).
Definition demo_updates : list (list bytes) :=
  ok_default [] (verify_proof_with_updates keccak256 demo_proof (root (run keccak256 demo_ops)) [3] [30]).
Lemma proof_sound_witness : get keccak256 (run keccak256 demo_ops) [3] = Ok [30].
Proof.
  apply (proof_sound keccak256 keccak256_len demo_ops demo_proof [3] [30] demo_updates).
  - apply (bool_decide_unpack _). vm_compute. exact Logic.I.
  - vm_compute. reflexivity.
  - apply collision_freeb_ok. vm_compute. reflexivity.
Defined.
Lemma verify_proof_answers_witness :
  verify_proof keccak256 {| side_nodes := []; non_membership_leaf_data := Some []; sibling_data := None |}
    placeholder [1] [] = Panic.
Proof.
  apply (verify_proof_answers keccak256 keccak256_len
    {| side_nodes := []; non_membership_leaf_data := Some []; sibling_data := None |} placeholder [1] [])
    with (data := []); auto. simpl. lia.
Defined.
