(* ===== verification/TreeDb.v ===== *)
(** * The state database

    Crate state below the accounts: the key-value backend (persistent.rs,
    [MemoryStore]), the column of trees kept by root (store.rs), the versioned
    tree [TreeDB] with its head and staging trees (tree.rs) and the plain
    key-value database [KvDB] (kvdb.rs).

    A stored tree has all the nodes of its version but only the values written
    in it; a value is searched from the newest version towards its ancestors,
    following [parent]. *)
From S2P Require Import Prelude Crypto Types Smt Codec SmtTree SmtProofs SmtTheorems.

(** ** The backend (persistent.rs) *)

Abbreviation Column := (gmap bytes bytes).
Abbreviation MemoryStore := (gmap string (gmap bytes bytes)).

(** [entry(name).or_default()]: no operation tells an empty column from a
    missing one. *)
Definition column (s : MemoryStore) (name : string) : Column := default ∅ (s !! name).

Definition put_cn (name : string) (key value : bytes) : stM MemoryStore anyhow unit :=
  modify (fun s => <[name := <[key := value]> (column s name)]> s).
Definition get_cn (s : MemoryStore) (name : string) (key : bytes) : result anyhow bytes :=
  ok_or_else (column s name !! key) "Invalid Key".
Definition delete_cn (name : string) (key : bytes) : stM MemoryStore anyhow unit := fun s =>
  if bool_decide (is_Some (column s name !! key))
  then (Ok tt, <[name := delete key (column s name)]> s) else (Err "Invalid Key", s).
Definition get_or_default_cn (s : MemoryStore) (name : string) (key dflt : bytes) : result anyhow bytes :=
  Ok (default dflt (column s name !! key)).
Definition store_put (key value : bytes) := put_cn "_" key value.
Definition store_get (s : MemoryStore) (key : bytes) := get_cn s "_" key.
Definition store_delete (key : bytes) := delete_cn "_" key.
Definition store_get_or_default (s : MemoryStore) (key dflt : bytes) := get_or_default_cn s "_" key dflt.

(** Errors of a callee converted by [?]. *)
Definition map_err {S E F A} (f : E -> F) (m : stM S E A) : stM S F A := fun s =>
  match m s with (Ok a, s') => (Ok a, s') | (Err e, s') => (Err (f e), s') | (Panic, s') => (Panic, s') end.
Definition conv {E F A} (f : E -> F) (r : result E A) : result F A :=
  match r with Ok a => Ok a | Err e => Err (f e) | Panic => Panic end.
Definition smt_error (e : SmtError) : anyhow :=
  match e with
  | StorageError => "StorageError"
  | StorageErrorKeyNotFound => "StorageErrorKeyNotFound"
  | KeyAlreadyEmpty => "KeyAlreadyEmpty"
  | BadProof _ => "BadProof"
  | NonMembershipPathError _ _ => "NonMembershipPathError"
  end.

(** [Op] (tree.rs) *)
Inductive Op (K V : Type) := OpDelete (k : K) | OpPut (k : K) (v : V).
Arguments OpDelete {K V} _.
Arguments OpPut {K V} _ _.

(** ** Trees by root (store.rs) *)

Definition COLUMN_TREES : string := "t".
Definition COLUMN_ROOT : string := "r".

Section Store.
Context `{Bincode}.

Definition trie_put (key : H256) (value : SparseMerkleTree) : stM MemoryStore anyhow unit :=
  k ← lift (encode codec_H256 key);
  v ← lift (encode codec_SparseMerkleTree value);
  put_cn COLUMN_TREES k v.
Definition trie_get (s : MemoryStore) (key : H256) : result anyhow SparseMerkleTree :=
  k ← encode codec_H256 key;
  raw ← get_cn s COLUMN_TREES k;
  decode codec_SparseMerkleTree raw.
Definition trie_delete (key : H256) : stM MemoryStore anyhow unit :=
  k ← lift (encode codec_H256 key);
  delete_cn COLUMN_TREES k.
Definition trie_set_root (new_root : H256) : stM MemoryStore anyhow unit :=
  r ← lift (encode codec_H256 new_root);
  put_cn COLUMN_ROOT (utf8 (lit "root")) r.
Definition load_root (s : MemoryStore) : result anyhow SparseMerkleTree :=
  r ← get_cn s COLUMN_ROOT (utf8 (lit "root"));
  r ← decode codec_H256 r;
  trie_get s r.

(** ** Key-value databases (kvdb.rs) *)

Record KvDB := { kv_inner : MemoryStore; kv_read_only : bool; kv_staging : Column }.
Definition set_kv_inner (s : MemoryStore) (k : KvDB) : KvDB :=
  {| kv_inner := s; kv_read_only := kv_read_only k; kv_staging := kv_staging k |}.
Definition set_kv_staging (s : Column) (k : KvDB) : KvDB :=
  {| kv_inner := kv_inner k; kv_read_only := kv_read_only k; kv_staging := s |}.
Definition KvDB_open (s : MemoryStore) (read_only : bool) : KvDB :=
  {| kv_inner := s; kv_read_only := read_only; kv_staging := ∅ |}.

Section KvDB.
Context {K V : Type} (KC : Codec K) (VC : Codec V).

Definition KvDB_put (key : K) (value : V) : stM KvDB anyhow unit :=
  k ← lift (encode KC key);
  v ← lift (encode VC value);
  ro ← gets kv_read_only;
  if (ro : bool) then modify (fun d => set_kv_staging (<[k := v]> (kv_staging d)) d)
  else zoom kv_inner set_kv_inner (store_put k v).
Definition KvDB_get (d : KvDB) (key : K) : result anyhow V :=
  k ← encode KC key;
  match kv_staging d !! k with
  | Some v => decode VC v
  | None => raw ← store_get (kv_inner d) k; decode VC raw
  end.
Definition KvDB_delete (key : K) : stM KvDB anyhow unit :=
  k ← lift (encode KC key);
  ro ← gets kv_read_only;
  if (ro : bool) then modify (fun d => set_kv_staging (delete k (kv_staging d)) d)
  else zoom kv_inner set_kv_inner (store_delete k).

End KvDB.

(** ** The versioned tree (tree.rs) *)

Record TreeDB := { db : MemoryStore; head : SparseMerkleTree; staging : SparseMerkleTree;
                   strategy : CopyStrategy }.
Definition set_db (s : MemoryStore) (t : TreeDB) : TreeDB :=
  {| db := s; head := head t; staging := staging t; strategy := strategy t |}.
Definition set_head (h : SparseMerkleTree) (t : TreeDB) : TreeDB :=
  {| db := db t; head := h; staging := staging t; strategy := strategy t |}.
Definition set_staging (h : SparseMerkleTree) (t : TreeDB) : TreeDB :=
  {| db := db t; head := head t; staging := h; strategy := strategy t |}.

Section TreeDB.
Variable digest : bytes -> H256.
Context {K V : Type} (KC : Codec K) (VC : Codec V).
(** The order in which a [HashMap] is iterated. *)
Variable hash_order : Column -> list (bytes * bytes).

Definition tree_update (key value : bytes) : stM SparseMerkleTree anyhow H256 :=
  map_err smt_error (update digest key value).
Definition tree_subtree (t : SparseMerkleTree) (s : CopyStrategy) (keys : list bytes) :
    result anyhow SparseMerkleTree := conv smt_error (subtree digest t s keys).
Definition tree_get (t : SparseMerkleTree) (key : bytes) : result anyhow bytes := conv smt_error (get digest t key).

Definition TreeDB_open (s : MemoryStore) : result anyhow TreeDB :=
  tree ← (match load_root s with Ok tree => Ok tree | Err _ => Ok smt_new | Panic => Panic end);
  staging_tree ← tree_subtree tree Partial [];
  Ok {| db := s; head := tree; staging := staging_tree; strategy := Partial |}.
Definition TreeDB_open_read_only_at_root (s : MemoryStore) (root : H256) : result anyhow TreeDB :=
  tree ← trie_get s root;
  Ok {| db := s; head := tree; staging := tree; strategy := Partial |}.

(** [*staging = head.subtree(..)?] *)
Definition restage : stM TreeDB anyhow unit :=
  t ← gets (fun t => t);
  st ← lift (tree_subtree (head t) (strategy t) []);
  modify (set_staging st).

Definition TreeDB_reset (root : H256) : stM TreeDB anyhow unit :=
  s ← gets db;
  new_head ← lift (trie_get s root);
  _ ← modify (set_head new_head);
  restage.
Definition TreeDB_rollback : stM TreeDB anyhow unit := restage.

(** An error of [self.db.put] is only logged. *)
Definition TreeDB_commit (persist : bool) : stM TreeDB anyhow H256 :=
  t ← gets (fun t => t);
  if bool_decide (root (head t) = root (staging t)) then mret (root (head t))
  else
    _ ← (if persist then ignore (zoom db set_db (trie_put (root (staging t)) (staging t))) else mret tt);
    _ ← modify (set_head (staging t));
    _ ← restage;
    gets (fun t => root (head t)).

Definition encode_op (op : Op K V) : result anyhow (bytes * bytes) :=
  match op with
  | OpDelete key => k ← encode KC key; v ← encode codec_IValue Deleted; Ok (k, v)
  | OpPut key value =>
    k ← encode KC key; b ← encode VC value; v ← encode codec_IValue (Value b); Ok (k, v)
  end.
(** [collect] into a [HashMap]: a later entry replaces an earlier one. *)
Fixpoint encode_batch (batch : list (Op K V)) (acc : Column) : result anyhow Column :=
  match batch with
  | [] => Ok acc
  | op :: batch => '(k, v) ← encode_op op; encode_batch batch (<[k := v]> acc)
  end.

Definition update_all (batch : Column) : stM SparseMerkleTree anyhow unit :=
  for_each (hash_order batch) (fun '(k, v) => _ ← tree_update k v; mret tt).

Definition TreeDB_apply (batch : list (Op K V)) (persist : bool) : stM TreeDB anyhow H256 :=
  _ ← TreeDB_commit persist;
  batch ← lift (encode_batch batch ∅);
  _ ← zoom head set_head (update_all batch);
  h ← gets head;
  _ ← zoom db set_db (trie_put (root h) h);
  _ ← restage;
  mret (root h).

Definition TreeDB_apply_non_commit (at_root : H256) (batch : list (Op K V)) : stM TreeDB anyhow H256 :=
  s ← gets db;
  tree ← lift (trie_get s at_root);
  batch ← lift (encode_batch batch ∅);
  tree ← lift (exec (update_all batch) tree);
  _ ← zoom db set_db (trie_put (root tree) tree);
  mret (root tree).

Definition TreeDB_put (key : K) (value : V) : stM TreeDB anyhow unit :=
  '(k, v) ← lift (encode_op (OpPut key value));
  _ ← zoom staging set_staging (tree_update k v);
  mret tt.
Definition TreeDB_delete (key : K) : stM TreeDB anyhow unit :=
  '(k, v) ← lift (encode_op (OpDelete key));
  _ ← zoom staging set_staging (tree_update k v);
  mret tt.

(** The loop of [_get_descend], [fuel] iterations of it. *)
Fixpoint get_descend_loop (fuel : nat) (s : MemoryStore) (key : bytes) (r : H256) :
    result anyhow (option bytes) :=
  match fuel with
  | O => Panic
  | S fuel =>
    tree ← trie_get s r;
    value ← tree_get tree key;
    if bool_decide (value = []) && negb (bool_decide (root tree = parent tree)) then
      get_descend_loop fuel s key (parent tree)
    else if bool_decide (value = []) then Ok None
    else Ok (Some value)
  end.
(** Every iteration but the last reads a stored tree: when there are more
    iterations than stored trees a root is met twice and the loop never
    returns, which [Panic] stands for ([get_descend_stuck] below). *)
Definition get_descend_raw (s : MemoryStore) (key : bytes) (r : H256) : result anyhow (option bytes) :=
  get_descend_loop (S (size (column s COLUMN_TREES))) s key r.

Definition decode_value (value : bytes) : result anyhow (option V) :=
  v ← decode codec_IValue value;
  match v with Deleted => Ok None | Value b => x ← decode VC b; Ok (Some x) end.

(** What [get_descend] and [get_descend_from_root] have in common: [first] is
    searched before the versions from [r] on. *)
Definition get_from (t : TreeDB) (first : SparseMerkleTree) (r : H256) (key : bytes) (descend : bool)
    (fallback : SparseMerkleTree) : result anyhow (option V) :=
  value ← tree_get first key;
  if bool_decide (value = []) then
    if descend then
      res ← get_descend_raw (db t) key r;
      match res with
      | None => Ok None
      | Some value => if bool_decide (value = []) then Ok None else decode_value value
      end
    else
      value ← tree_get fallback key;
      if bool_decide (value = []) then Ok None else decode_value value
  else decode_value value.

Definition get_descend (t : TreeDB) (key : K) (descend : bool) : result anyhow (option V) :=
  k ← encode KC key;
  get_from t (staging t) (root (head t)) k descend (head t).
Definition get_descend_from_root (t : TreeDB) (from_root : H256) (key : K) (descend : bool) :
    result anyhow (option V) :=
  k ← encode KC key;
  h ← trie_get (db t) from_root;
  get_from t h (root h) k descend h.
Definition descends (s : CopyStrategy) : bool := match s with Partial => true | _ => false end.
Definition TreeDB_get (t : TreeDB) (key : K) : result anyhow (option V) :=
  get_descend t key (descends (strategy t)).
Definition get_at_root (t : TreeDB) (from_root : H256) (key : K) : result anyhow (option V) :=
  get_descend_from_root t from_root key (descends (strategy t)).
Definition TreeDB_get_with_proof (t : TreeDB) (key : K) : result anyhow (V * Proof) :=
  raw_key ← encode KC key;
  o ← TreeDB_get t key;
  value ← ok_or_else o "Invalid Key";
  pf ← conv smt_error (proof digest (head t) raw_key);
  Ok (value, pf).
Definition TreeDB_root (t : TreeDB) : result anyhow H256 := Ok (root (head t)).

(** [Verifier::verify_proof] *)
Definition Verifier_verify_proof (pf : Proof) (root : H256) (key : K) (value : V) : result anyhow unit :=
  k ← encode KC key;
  b ← encode VC value;
  v ← encode codec_IValue (Value b);
  _ ← conv smt_error (verify_proof_with_updates digest pf root k v);
  Ok tt.

End TreeDB.
End Store.

(** ** The search through the versions terminates or never returns *)

Section Descend.
Context `{Bincode} (digest : bytes -> H256) (s : MemoryStore) (key : bytes).

Abbreviation loop := (fun n r => get_descend_loop digest n s key r).

(** The root the search goes on with, and its result when it stops. *)
Definition descend_next (r : H256) : option H256 :=
  match trie_get s r with
  | Ok tree =>
    match tree_get digest tree key with
    | Ok value => if bool_decide (value = []) && negb (bool_decide (root tree = parent tree))
                  then Some (parent tree) else None
    | _ => None
    end
  | _ => None
  end.

Lemma tree_get_total t : exists v, tree_get digest t key = Ok v.
Proof. unfold tree_get, get, get_or_default. destruct (is_zero_hash (root t)); simpl; eauto. Qed.

Lemma loop_next n r r' : descend_next r = Some r' -> loop (S n) r = loop n r'.
Proof.
  unfold descend_next. cbn [get_descend_loop]. destruct (trie_get s r) as [tree|e|]; try discriminate.
  cbn [mbind result_bind]. destruct (tree_get_total tree) as (v & ->). cbn [mbind result_bind].
  destruct (bool_decide (v = []) && _); [|discriminate]. now intros [= <-].
Qed.
Lemma loop_stop n m r : descend_next r = None -> loop (S n) r = loop (S m) r.
Proof.
  unfold descend_next. cbn [get_descend_loop]. destruct (trie_get s r) as [tree|e|]; try reflexivity.
  cbn [mbind result_bind]. destruct (tree_get_total tree) as (v & ->). cbn [mbind result_bind].
  destruct (bool_decide (v = []) && _); [discriminate | reflexivity].
Qed.

(** [l] lists the roots the search goes through from [r] until it stops at [e]. *)
Fixpoint descent (r : H256) (l : list H256) (e : H256) : Prop :=
  match l with
  | [] => r = e /\ descend_next e = None
  | x :: l => x = r /\ exists r', descend_next r = Some r' /\ descent r' l e
  end.

Lemma descent_loop r l e n : descent r l e -> (length l <= n)%nat -> loop (S n) r = loop 1%nat e.
Proof.
  revert r n. induction l as [|x l IH]; intros r n; cbn [descent length].
  - intros [-> He] _. now apply loop_stop.
  - intros [-> (r' & Hn & Hd)] Hl. rewrite (loop_next _ _ _ Hn). destruct n as [|n]; [lia|].
    apply IH; auto. lia.
Qed.
Lemma loop_descent n r : loop n r <> Panic -> exists l e, descent r l e.
Proof.
  revert r. induction n as [|n IH]; intros r Hn; [now destruct Hn|].
  destruct (descend_next r) as [r'|] eqn:E.
  - rewrite (loop_next _ _ _ E) in Hn. destruct (IH _ Hn) as (l & e & Hd). exists (r :: l), e. simpl. eauto.
  - exists [], r. now split.
Qed.

Lemma descent_det r l1 l2 e1 e2 : descent r l1 e1 -> descent r l2 e2 -> l1 = l2.
Proof.
  revert r l2. induction l1 as [|x l1 IH]; intros r l2 H1 H2; destruct l2 as [|y l2]; simpl in *; auto.
  - destruct H1 as [-> H1], H2 as [-> (r' & H2 & _)]. congruence.
  - destruct H2 as [-> H2], H1 as [-> (r' & H1 & _)]. congruence.
  - destruct H1 as [-> (r1 & N1 & H1)], H2 as [-> (r2 & N2 & H2)].
    assert (r1 = r2) as -> by congruence. f_equal. eauto.
Qed.
Lemma descent_in r l e x : descent r l e -> In x l -> exists l1 l2, l = l1 ++ x :: l2 /\ descent x (x :: l2) e.
Proof.
  revert r. induction l as [|y l IH]; intros r Hd Hin; [destruct Hin|].
  destruct Hin as [<-|Hin].
  - exists [], l. split; auto. cbn [descent] in Hd |- *. destruct Hd as [-> H']. auto.
  - destruct Hd as [-> (r' & Hn & Hd)]. destruct (IH _ Hd Hin) as (l1 & l2 & -> & H'). exists (r :: l1), l2. auto.
Qed.
Lemma descent_NoDup r l e : descent r l e -> NoDup l.
Proof.
  revert r. induction l as [|x l IH]; intros r Hd; [constructor|].
  pose proof Hd as Hd0. destruct Hd as [-> (r' & Hn & Hd)]. constructor; [|eauto].
  intros Hin. apply list_elem_of_In in Hin. destruct (descent_in _ _ _ _ Hd Hin) as (l1 & l2 & -> & H').
  pose proof (descent_det _ _ _ _ _ Hd0 H') as E. injection E as E.
  apply (f_equal length) in E. rewrite length_app in E. simpl in E. lia.
Qed.
Lemma descent_stored r l e : descent r l e -> Forall (fun x => x ∈ dom (column s COLUMN_TREES)) l.
Proof.
  revert r. induction l as [|x l IH]; intros r Hd; constructor.
  - destruct Hd as [-> (r' & Hn & _)]. unfold descend_next, trie_get in Hn. simpl in Hn.
    unfold get_cn, ok_or_else in Hn. destruct (column s COLUMN_TREES !! r) eqn:E; [|discriminate].
    apply elem_of_dom. eauto.
  - destruct Hd as [_ (r' & _ & Hd)]. eauto.
Qed.

Lemma descent_length r l e : descent r l e -> (length l <= size (column s COLUMN_TREES))%nat.
Proof.
  intros Hd. pose proof (descent_NoDup _ _ _ Hd) as Hn. pose proof (descent_stored _ _ _ Hd) as Hs.
  rewrite <- size_dom, <- (size_list_to_set (C:=gset (list Z)) l) by auto.
  apply subseteq_size. intros x Hx. apply elem_of_list_to_set in Hx.
  rewrite Forall_forall in Hs. apply Hs. now apply list_elem_of_In.
Qed.

(** As many iterations as there are stored trees decide: the search returns what
    any longer one returns, and when they are not enough none is. *)
Lemma get_descend_stuck r :
  (forall n, (size (column s COLUMN_TREES) <= n)%nat -> loop (S n) r = get_descend_raw digest s key r) /\
  (get_descend_raw digest s key r = Panic -> forall n, loop n r = Panic).
Proof.
  assert (forall n, loop n r <> Panic -> exists l e, descent r l e /\ (length l <= size (column s COLUMN_TREES))%nat) as D.
  { intros n Hn. destruct (loop_descent _ _ Hn) as (l & e & Hd). eauto using descent_length. }
  assert (forall r : result anyhow (option bytes), r = Panic \/ r <> Panic) as Dec
    by (intros []; [right|right|left]; congruence).
  unfold get_descend_raw. split.
  - intros n Hn. destruct (Dec (loop (S n) r)) as [E|E].
    + destruct (Dec (loop (S (size (column s COLUMN_TREES))) r)) as [E'|E']; [congruence|].
      destruct (D _ E') as (l & e & Hd & Hl). rewrite !(descent_loop r l e) in * by (auto; lia). congruence.
    + destruct (D _ E) as (l & e & Hd & Hl). now rewrite !(descent_loop r l e) by (auto; lia).
  - intros E n. destruct (Dec (loop n r)) as [|E']; auto. exfalso. destruct (D _ E') as (l & e & Hd & Hl).
    destruct n as [|n]; [now apply E'|].
    rewrite (descent_loop r l e) in E by (auto; lia).
    destruct (Nat.le_gt_cases (length l) n) as [Hn|Hn]; [rewrite (descent_loop r l e) in E' by auto; congruence|].
    clear D Hl. revert r n E' Hd Hn. induction l as [|x l IH]; intros r n E' Hd Hn; simpl in Hn; [lia|].
    destruct Hd as [-> (r' & Hx & Hd)]. rewrite (loop_next _ _ _ Hx) in E'.
    destruct n as [|n]; [now apply E'|]. apply (IH r' n); auto. lia.
Qed.

End Descend.

(** ** What the database represents *)

Section Versions.
Context `{BincodeLaws} (digest : bytes -> H256).
Hypothesis digest_len : forall m, is_bytes 32 (digest m).

Abbreviation contents := (gmap bytes bytes).
Definition no_tree (s : MemoryStore) (r : H256) : Prop := column s COLUMN_TREES !! r = None.

Definition put_tree (r : H256) (T : SparseMerkleTree) (s : MemoryStore) : MemoryStore := (trie_put r T s).2.
Lemma trie_put_ok r T s : trie_put r T s = (Ok tt, put_tree r T s).
Proof. reflexivity. Qed.
Lemma column_put_tree r T s :
  column (put_tree r T s) COLUMN_TREES = <[r := smt_encode T]> (column s COLUMN_TREES).
Proof.
  change (put_tree r T s) with (<[COLUMN_TREES := <[r := smt_encode T]> (column s COLUMN_TREES)]> s).
  unfold column. now rewrite lookup_insert_eq.
Qed.
Lemma trie_get_put_eq r T s : wf_smt T -> trie_get (put_tree r T s) r = Ok T.
Proof.
  intros W. unfold trie_get, get_cn, ok_or_else. cbn [encode codec_H256 codec_fixed mbind result_bind].
  rewrite column_put_tree, lookup_insert_eq. cbn [ok_or mbind result_bind].
  destruct (codec_SparseMerkleTree_ok T W) as (b & E & D). cbn in E. injection E as <-. exact D.
Qed.
Lemma trie_get_put_ne r r' T s : r <> r' -> trie_get (put_tree r T s) r' = trie_get s r'.
Proof.
  intros Hne. unfold trie_get, get_cn. cbn [encode codec_H256 codec_fixed mbind result_bind].
  now rewrite column_put_tree, lookup_insert_ne.
Qed.
Lemma no_tree_put r r' T s : r <> r' -> no_tree s r' -> no_tree (put_tree r T s) r'.
Proof. unfold no_tree. intros Hne Hn. now rewrite column_put_tree, lookup_insert_ne. Qed.
Lemma trie_get_stored s r T : trie_get s r = Ok T -> ~ no_tree s r.
Proof.
  unfold no_tree, trie_get, get_cn. cbn [encode codec_H256 codec_fixed mbind result_bind].
  intros E Hn. now rewrite Hn in E.
Qed.

(** The root [r] is stored, its tree has the shape of [m], and every value of
    [m] is found in it or in an ancestor. *)
Inductive version (s : MemoryStore) : H256 -> contents -> Prop :=
| version_base r T t m :
    trie_get s r = Ok T -> root T = r -> wf_smt T -> shape digest T t m ->
    values T = m ->
    parent T = r \/ parent T = H256_zero /\ no_tree s H256_zero ->
    version s r m
| version_step r T t m m' :
    trie_get s r = Ok T -> root T = r -> wf_smt T -> shape digest T t m ->
    (forall q v, values T !! q = Some v -> m !! q = Some v) ->
    (forall q, values T !! q = None -> m !! q = m' !! q) ->
    parent T <> r -> version s (parent T) m' ->
    version s r m.

(** What a search returns for a value or its absence. *)
Definition found (o : option bytes) (res : result anyhow (option bytes)) : Prop :=
  match o with Some v => res = Ok (Some v) | None => res = Ok None \/ exists e, res = Err e end.

Lemma tree_get_shape T t m key :
  shape digest T t m -> (forall q v, values T !! q = Some v -> m !! q = Some v) ->
  tree_get digest T key = Ok (default [] (values T !! path digest key)).
Proof.
  intros Sh Hv. unfold tree_get, get, get_or_default. rewrite (sh_root _ _ _ _ Sh).
  rewrite (stored_zero digest (nodes T)) by apply Sh. case_bool_decide as E; auto. subst t.
  destruct (values T !! path digest key) as [v|] eqn:Ev; auto. apply Hv in Ev.
  pose proof (sh_lookup _ _ _ _ Sh (path digest key)) as L. rewrite Ev in L. discriminate L.
Qed.

Lemma version_found s r m key :
  version s r m -> exists n, found (m !! path digest key) (get_descend_loop digest n s key r).
Proof.
  induction 1 as [r T t m E Er W Sh Hval Hp | r T t m m' E Er W Sh Hval Hfall Hp Hv IH].
  - destruct (m !! path digest key) as [v|] eqn:Em.
    + exists 1%nat. cbn [get_descend_loop]. rewrite E. cbn [mbind result_bind].
      rewrite (tree_get_shape T t m key Sh) by (intros; congruence). rewrite Hval, Em. cbn [default mbind result_bind].
      rewrite !(bool_decide_eq_false_2 (v = [])) by (now apply (sh_nonempty _ _ _ _ Sh (path digest key))). reflexivity.
    + destruct Hp as [Hp|[Hp Hz]].
      * exists 1%nat. cbn [get_descend_loop]. rewrite E. cbn [mbind result_bind].
        rewrite (tree_get_shape T t m key Sh) by (intros; congruence). rewrite Hval, Em. cbn [default mbind result_bind].
        rewrite Hp, Er. rewrite !bool_decide_eq_true_2 by auto. simpl. auto.
      * exists 2%nat. cbn [get_descend_loop]. rewrite E. cbn [mbind result_bind].
        rewrite (tree_get_shape T t m key Sh) by (intros; congruence). rewrite Hval, Em. cbn [default mbind result_bind].
        rewrite (bool_decide_eq_true_2 ([] = [])) by auto. simpl andb. destruct (negb _); [|simpl; auto].
        rewrite Hp. unfold trie_get, get_cn. cbn [encode codec_H256 codec_fixed mbind result_bind].
        rewrite Hz. simpl. right. eauto.
  - destruct IH as [n IH]. exists (S n). cbn [get_descend_loop]. rewrite E. cbn [mbind result_bind].
    rewrite (tree_get_shape T t m key Sh Hval). cbn [mbind result_bind].
    destruct (values T !! path digest key) as [v|] eqn:Ev; cbn [default].
    + apply Hval in Ev. rewrite Ev.
      rewrite !(bool_decide_eq_false_2 (v = [])) by (now apply (sh_nonempty _ _ _ _ Sh (path digest key))). reflexivity.
    + rewrite (bool_decide_eq_true_2 ([] = [])), bool_decide_eq_false_2 by congruence. simpl.
      now rewrite Hfall.
Qed.

Lemma loop_mono s key n k r :
  get_descend_loop digest n s key r <> Panic ->
  get_descend_loop digest (n + k) s key r = get_descend_loop digest n s key r.
Proof.
  revert r. induction n as [|n IH]; intros r Hn; [now destruct Hn|].
  change (S n + k)%nat with (S (n + k)).
  destruct (descend_next digest s key r) as [r'|] eqn:E.
  - rewrite !(loop_next digest s key _ _ _ E) in *. auto.
  - now apply loop_stop.
Qed.

Lemma version_get s r m key : version s r m -> found (m !! path digest key) (get_descend_raw digest s key r).
Proof.
  intros Hv. destruct (version_found s r m key Hv) as [n Hn].
  assert (get_descend_loop digest n s key r <> Panic) as Hp.
  { intros E. rewrite E in Hn. destruct (m !! path digest key); simpl in Hn; [discriminate|].
    destruct Hn as [|[e He]]; discriminate. }
  destruct (get_descend_stuck digest s key r) as [H1 _].
  rewrite <- (H1 (n + size (column s COLUMN_TREES))%nat) by lia.
  replace (S (n + size (column s COLUMN_TREES))) with (n + S (size (column s COLUMN_TREES)))%nat by lia.
  now rewrite loop_mono.
Qed.

(** Storing a new version keeps the others. *)
Lemma version_put s r m r0 T0 :
  version s r m -> no_tree s r0 -> r0 <> H256_zero -> version (put_tree r0 T0 s) r m.
Proof.
  intros Hv Hn Hz. induction Hv as [r T t m E Er W Sh Hval Hp | r T t m m' E Er W Sh Hval Hfall Hp Hv IH].
  - assert (r0 <> r) by (intros ->; now apply trie_get_stored in E).
    apply (version_base _ _ T t); auto; [now rewrite trie_get_put_ne|].
    destruct Hp as [|[Hp Hz']]; auto. right. split; auto. now apply no_tree_put.
  - assert (r0 <> r) by (intros ->; now apply trie_get_stored in E).
    apply (version_step _ _ T t m m'); auto. now rewrite trie_get_put_ne.
Qed.

Lemma version_tree s r m :
  version s r m -> exists T t, trie_get s r = Ok T /\ root T = r /\ wf_smt T /\ shape digest T t m.
Proof. destruct 1; eauto 8. Qed.

(** ** The invariant *)

(** The staging copy of a tree: its nodes without its values. *)
Definition staged (T : SparseMerkleTree) : SparseMerkleTree :=
  {| nodes := nodes T; values := ∅; root := root T; parent := root T |}.

Definition head_ok (s : MemoryStore) (T : SparseMerkleTree) (m : contents) : Prop :=
  root T = H256_zero /\ m = ∅ /\ no_tree s H256_zero \/ version s (root T) m.

(** [mh] is committed, [ms] is staged. *)
Record tdb_inv (t : TreeDB) (th ts : tree) (mh ms : contents) : Prop := {
  inv_strategy : strategy t = Partial;
  inv_head : head_ok (db t) (head t) mh;
  inv_head_shape : shape digest (head t) th mh;
  inv_head_wf : wf_smt (head t);
  inv_shape : shape digest (staging t) ts ms;
  inv_wf : wf_smt (staging t);
  inv_sub q v : values (staging t) !! q = Some v -> ms !! q = Some v;
  inv_fall q : values (staging t) !! q = None -> ms !! q = mh !! q;
  inv_parent : parent (staging t) = root (head t);
}.

Lemma shape_staged T t m : shape digest T t m -> shape digest (staged T) t m.
Proof. intros []. now split. Qed.
Lemma wf_staged T : wf_smt T -> wf_smt (staged T).
Proof. intros [Hn _ Hr _]. split; auto. apply map_Forall_empty. Qed.

Lemma restage_ok t : strategy t = Partial -> restage digest t = (Ok tt, set_staging (staged (head t)) t).
Proof. intros Hs. unfold restage. st_step reflexivity. rewrite Hs. reflexivity. Qed.

Lemma staged_inv t th m :
  strategy t = Partial -> head_ok (db t) (head t) m -> shape digest (head t) th m -> wf_smt (head t) ->
  tdb_inv (set_staging (staged (head t)) t) th th m m.
Proof.
  intros Hs Hh Sh W. split; auto; cbn [staging set_staging].
  - now apply shape_staged.
  - now apply wf_staged.
  - intros q v Hq. discriminate Hq.
Qed.

Lemma found_head s T m key : head_ok s T m -> found (m !! path digest key) (get_descend_raw digest s key (root T)).
Proof.
  intros [(Hr & -> & Hz)|Hv]; [|now apply version_get].
  rewrite lookup_empty, Hr. right. unfold get_descend_raw. cbn [get_descend_loop].
  unfold trie_get, get_cn. cbn [encode codec_H256 codec_fixed mbind result_bind]. rewrite Hz. simpl. eauto.
Qed.

Section Ops.
Context {K V : Type} (KC : Codec K) (VC : Codec V).

(** Reads return what is staged. *)
Lemma get_spec t th ts mh ms key k :
  tdb_inv t th ts mh ms -> encode KC key = Ok k ->
  match ms !! path digest k with
  | Some b => TreeDB_get digest KC VC t key = decode_value VC b
  | None => TreeDB_get digest KC VC t key = Ok None \/ exists e, TreeDB_get digest KC VC t key = Err e
  end.
Proof.
  intros I Hk. unfold TreeDB_get, get_descend, get_from. rewrite Hk, (inv_strategy _ _ _ _ _ I).
  cbn [mbind result_bind descends].
  rewrite (tree_get_shape _ ts ms k (inv_shape _ _ _ _ _ I) (inv_sub _ _ _ _ _ I)). cbn [mbind result_bind].
  destruct (values (staging t) !! path digest k) as [v|] eqn:Ev; cbn [default].
  - apply (inv_sub _ _ _ _ _ I) in Ev. rewrite Ev.
    now rewrite bool_decide_eq_false_2 by (apply (sh_nonempty _ _ _ _ (inv_shape _ _ _ _ _ I) _ _ Ev)).
  - rewrite bool_decide_eq_true_2 by auto.
    pose proof (found_head _ _ _ k (inv_head _ _ _ _ _ I)) as F.
    rewrite (inv_fall _ _ _ _ _ I) by auto. destruct (mh !! path digest k) as [b|] eqn:Em; simpl in F.
    + rewrite F. cbn [mbind result_bind].
      now rewrite bool_decide_eq_false_2 by (apply (sh_nonempty _ _ _ _ (inv_head_shape _ _ _ _ _ I) _ _ Em)).
    + destruct F as [->|[e ->]]; simpl; eauto.
Qed.

(** Writing an encoded value. *)
Lemma staging_update_spec t th ts mh ms k v :
  let p := path digest k in
  let ts' := tinsert p (digest v) ts in
  tdb_inv t th ts mh ms -> v <> [] -> is_vec v ->
  collision_free digest (node_data digest ts ++ node_data digest ts') ->
  (forall v', ms !! p = Some v' -> digest v' = digest v -> v' = v) ->
  exists t', zoom staging set_staging (tree_update digest k v) t = (Ok (thash digest ts'), t') /\
    tdb_inv t' th ts' mh (<[p := v]> ms) /\ db t' = db t /\ head t' = head t.
Proof.
  intros p ts' I Hv Hvec HU Hold.
  destruct (insert_shape digest digest_len (staging t) ts ms k v (inv_shape _ _ _ _ _ I) Hv HU)
    as (T' & E & Sh & Hval & Hpar).
  exists (set_staging T' t). unfold zoom, tree_update, map_err. rewrite E. split; [reflexivity|].
  pose proof (update_keeps digest digest_len k v Hvec (staging t) (inv_wf _ _ _ _ _ I)) as [W _].
  rewrite E in W. cbn [snd] in W. split; [|split; reflexivity].
  destruct Hval as [Hval|[L Hval]].
  - split; auto; cbn [staging set_staging head db strategy]; try apply I.
    + intros q w. rewrite Hval. fold p. destruct (decide (q = p)) as [->|Hq].
      * now rewrite !lookup_insert_eq.
      * rewrite !lookup_insert_ne by auto. apply I.
    + intros q. rewrite Hval. fold p. destruct (decide (q = p)) as [->|Hq].
      * now rewrite lookup_insert_eq.
      * rewrite !lookup_insert_ne by auto. apply I.
    + rewrite Hpar. apply I.
  - rewrite (sh_lookup _ _ _ _ (inv_shape _ _ _ _ _ I)) in L. fold p in L, Sh |- *.
    destruct (ms !! p) as [v'|] eqn:Em; [|discriminate]. injection L as L.
    assert (v' = v) as -> by now apply Hold.
    assert (<[p := v]> ms = ms) as Ems by now apply insert_id.
    rewrite Ems in Sh |- *. split; auto; cbn [staging set_staging head db strategy]; try apply I.
    + rewrite Hval. apply I.
    + rewrite Hval. apply I.
    + rewrite Hpar. apply I.
Qed.

(** Committing what is staged. *)
Lemma commit_spec t th ts mh ms :
  tdb_inv t th ts mh ms -> root (head t) <> root (staging t) ->
  no_tree (db t) (root (staging t)) -> root (staging t) <> H256_zero ->
  exists t', TreeDB_commit digest true t = (Ok (root (staging t)), t') /\
    tdb_inv t' ts ts ms ms /\ root (head t') = root (staging t) /\
    (forall r m, version (db t) r m -> version (db t') r m) /\ version (db t') (root (staging t)) ms.
Proof.
  intros I Hne Hn Hz. set (T := staging t) in *. set (s' := put_tree (root T) T (db t)).
  assert (forall r m, version (db t) r m -> version s' r m) as Keep by (intros; now apply version_put).
  assert (version s' (root T) ms) as Hv.
  { pose proof (inv_parent _ _ _ _ _ I) as Hp. fold T in Hp.
    destruct (inv_head _ _ _ _ _ I) as [(Hr & -> & Hz')|Hv].
    - apply (version_base _ _ T ts); auto; try apply I.
      + apply trie_get_put_eq, I.
      + apply map_eq. intros q. destruct (values T !! q) as [v|] eqn:Ev.
        * symmetry. now apply (inv_sub _ _ _ _ _ I).
        * symmetry. rewrite (inv_fall _ _ _ _ _ I) by auto. apply lookup_empty.
      + right. split; [congruence|]. now apply no_tree_put.
    - apply (version_step _ _ T ts ms mh); auto; try apply I.
      + apply trie_get_put_eq, I.
      + congruence.
      + rewrite Hp. auto. }
  exists (set_staging (staged T) (set_head T (set_db s' t))). split; [|split; [|auto]].
  - unfold TreeDB_commit. st_step reflexivity. rewrite bool_decide_eq_false_2 by exact Hne.
    st_step reflexivity. st_step reflexivity. st_step (apply restage_ok, (inv_strategy _ _ _ _ _ I)). reflexivity.
  - apply (staged_inv (set_head T (set_db s' t))); try apply I. now right.
Qed.

(** Returning to a stored version. *)
Lemma reset_spec t r m :
  strategy t = Partial -> version (db t) r m ->
  exists t' tr, TreeDB_reset digest r t = (Ok tt, t') /\ tdb_inv t' tr tr m m /\ db t' = db t /\ root (head t') = r.
Proof.
  intros Hs Hv. destruct (version_tree _ _ _ Hv) as (T & tr & E & Hr & W & Sh).
  exists (set_staging (staged T) (set_head T t)), tr. split; [|split; [|auto]].
  - unfold TreeDB_reset. st_step reflexivity. st_step (unfold lift; rewrite E; reflexivity).
    st_step reflexivity. now apply restage_ok.
  - apply (staged_inv (set_head T t)); auto. right. cbn. now rewrite Hr.
Qed.

(** Discarding what is staged. *)
Lemma rollback_spec t th ts mh ms :
  tdb_inv t th ts mh ms ->
  exists t', TreeDB_rollback digest t = (Ok tt, t') /\ tdb_inv t' th th mh mh /\ db t' = db t /\ head t' = head t.
Proof.
  intros I. exists (set_staging (staged (head t)) t). split; [|split; [|auto]].
  - apply restage_ok, I.
  - apply staged_inv; apply I.
Qed.

(** What a client sees under a key: [None] for an absent or deleted key and for
    an error. *)
Definition reads (t : TreeDB) (key : K) : option V :=
  match TreeDB_get digest KC VC t key with Ok o => o | _ => None end.
Definition value_of (o : option bytes) : option V :=
  match o with
  | Some b => match decode_value VC b with Ok o => o | _ => None end
  | None => None
  end.

Lemma reads_spec t th ts mh ms key k :
  tdb_inv t th ts mh ms -> encode KC key = Ok k -> reads t key = value_of (ms !! path digest k).
Proof.
  intros I Hk. pose proof (get_spec t th ts mh ms key k I Hk) as G. unfold reads, value_of.
  destruct (ms !! path digest k) as [b|]; [now rewrite G|]. now destruct G as [->|[e ->]].
Qed.

Lemma value_of_put x b :
  encode VC x = Ok b -> decode VC b = Ok x -> is_vec b ->
  value_of (Some (enc bin_IValue (Value b))) = Some x.
Proof.
  intros E D Hb. unfold value_of, decode_value. cbn [decode codec_IValue codec_bincode].
  rewrite <- (app_nil_r (enc bin_IValue (Value b))). rewrite bin_IValue_ok by exact Hb.
  cbn [mbind result_bind]. now rewrite D.
Qed.

(** A write, its encodings given. *)
Lemma put_spec t th ts mh ms key x k b :
  let p := path digest k in
  let v := enc bin_IValue (Value b) in
  let ts' := tinsert p (digest v) ts in
  tdb_inv t th ts mh ms -> encode KC key = Ok k -> encode VC x = Ok b -> is_vec b ->
  collision_free digest (node_data digest ts ++ node_data digest ts') ->
  (forall v', ms !! p = Some v' -> digest v' = digest v -> v' = v) ->
  exists t', TreeDB_put digest KC VC key x t = (Ok tt, t') /\
    tdb_inv t' th ts' mh (<[p := v]> ms) /\ db t' = db t /\ head t' = head t.
Proof.
  intros p v ts' I Hk Hx Hb HU Hold.
  destruct (staging_update_spec t th ts mh ms k v I (bin_IValue_tag _) (bin_IValue_vec (Value b) Hb) HU Hold)
    as (t' & E & I' & Hd & Hh).
  exists t'. split; [|auto]. unfold TreeDB_put.
  st_step (unfold lift, encode_op; rewrite Hk, Hx; reflexivity). st_step (exact E). reflexivity.
Qed.

(** C21 A write to the state database is read back, and the other keys read as
    before, whichever versions their values are found in. *)
Theorem treedb_put_reads t th ts mh ms key x k b :
  let p := path digest k in
  let v := enc bin_IValue (Value b) in
  tdb_inv t th ts mh ms -> encode KC key = Ok k -> encode VC x = Ok b -> decode VC b = Ok x -> is_vec b ->
  collision_free digest (node_data digest ts ++ node_data digest (tinsert p (digest v) ts)) ->
  (forall v', ms !! p = Some v' -> digest v' = digest v -> v' = v) ->
  exists t', TreeDB_put digest KC VC key x t = (Ok tt, t') /\ reads t' key = Some x /\
    (forall key' k', encode KC key' = Ok k' -> digest k' <> digest k -> reads t' key' = reads t key').
Proof.
  intros p v I Hk Hx Hd Hb HU Hold.
  destruct (put_spec t th ts mh ms key x k b I Hk Hx Hb HU Hold) as (t' & E & I' & _).
  exists t'. split; [exact E|]. split.
  - rewrite (reads_spec _ _ _ _ _ _ _ I' Hk). fold p. rewrite lookup_insert_eq. now apply value_of_put.
  - intros key' k' Hk' Hne. rewrite (reads_spec _ _ _ _ _ _ _ I' Hk'), (reads_spec _ _ _ _ _ _ _ I Hk').
    rewrite lookup_insert_ne; auto.
Qed.

(** C22 A commit does not change what is read; resetting to the root it returns
    reads the same again, and resetting to any older version reads what that
    version held.  Assumed: the root committed is new, not zero and not the root
    of the head; without this reads can be lost, see [treedb_repeated_root]. *)
Theorem treedb_commit_reset t th ts mh ms r m :
  tdb_inv t th ts mh ms -> root (head t) <> root (staging t) ->
  no_tree (db t) (root (staging t)) -> root (staging t) <> H256_zero -> version (db t) r m ->
  exists t1 t2 t3, TreeDB_commit digest true t = (Ok (root (staging t)), t1) /\
    TreeDB_reset digest (root (staging t)) t1 = (Ok tt, t2) /\ TreeDB_reset digest r t1 = (Ok tt, t3) /\
    (forall key k, encode KC key = Ok k ->
       reads t1 key = reads t key /\ reads t2 key = reads t key /\ reads t3 key = value_of (m !! path digest k)).
Proof.
  intros I Hne Hn Hz Hv. destruct (commit_spec t th ts mh ms I Hne Hn Hz) as (t1 & E1 & I1 & _ & Keep & Hnew).
  destruct (reset_spec t1 _ _ (inv_strategy _ _ _ _ _ I1) Hnew) as (t2 & tr2 & E2 & I2 & _).
  destruct (reset_spec t1 _ _ (inv_strategy _ _ _ _ _ I1) (Keep _ _ Hv)) as (t3 & tr3 & E3 & I3 & _).
  exists t1, t2, t3. repeat split; auto.
  - now rewrite (reads_spec _ _ _ _ _ _ _ I1 H1), (reads_spec _ _ _ _ _ _ _ I H1).
  - now rewrite (reads_spec _ _ _ _ _ _ _ I2 H1), (reads_spec _ _ _ _ _ _ _ I H1).
  - now rewrite (reads_spec _ _ _ _ _ _ _ I3 H1).
Qed.

End Ops.
End Versions.

(** ** Concrete databases

    Strings under string keys, hashed by the keccak of [toy_crypto]. *)

Lemma open_inv `{BincodeLaws} digest t :
  TreeDB_open digest ∅ = Ok t -> tdb_inv digest t TEmpty TEmpty ∅ ∅.
Proof.
  intros [= <-]. apply (staged_inv digest
    {| db := ∅; head := smt_new; staging := smt_new; strategy := Partial |} TEmpty); auto.
  - left. repeat split.
  - apply (rep_shape _ _ _ _ (represents_new digest)).
  - assert (is_bytes 32 H256_zero) by (apply (bool_decide_unpack _); vm_compute; exact Logic.I).
    split; try exact H1; apply map_Forall_empty.
Qed.

Abbreviation demo_put := (TreeDB_put keccak256 codec_Vec codec_Vec).
Abbreviation demo_get := (TreeDB_get keccak256 codec_Vec codec_Vec).
Definition demo_open : TreeDB :=
  ok_default {| db := ∅; head := smt_new; staging := smt_new; strategy := Partial |} (TreeDB_open keccak256 ∅).
(** Key 1 is written once; key 2 is written in each of three commits. *)
Definition demo_commits (third : bytes) : TreeDB :=
  ((_ ← demo_put [1] [7]; _ ← demo_put [2] [8]; _ ← TreeDB_commit keccak256 true;
    _ ← demo_put [2] [9]; _ ← TreeDB_commit keccak256 true;
    _ ← demo_put [2] third; TreeDB_commit keccak256 true) demo_open).2.

(** When a commit returns the state to an earlier root, the older tree stored
    under that root is overwritten and the parents form a cycle: the value of a
    key written before is lost and reading it never returns.  With a third
    commit that leads to a new root the key still reads its value. *)
Theorem treedb_repeated_root :
  demo_get (demo_commits [10]) [1] = Ok (Some [7]) /\
  demo_get (demo_commits [8]) [1] = Panic /\
  forall n, get_descend_loop keccak256 n (db (demo_commits [8])) [1] (root (head (demo_commits [8]))) = Panic.
Proof.
  split; [vm_compute; reflexivity|]. split; [vm_compute; reflexivity|].
  apply get_descend_stuck. vm_compute. reflexivity.
Qed.

Definition demo_staged : TreeDB := (demo_put [2] [8] (demo_put [1] [7] demo_open).2).2.

Lemma demo_inv1 :
  let v := enc bin_IValue (Value [7]) in
  tdb_inv keccak256 (demo_put [1] [7] demo_open).2 TEmpty (tinsert (path keccak256 [1]) (keccak256 v) TEmpty) ∅
    (<[path keccak256 [1] := v]> ∅).
Proof.
  intros v. destruct (put_spec keccak256 keccak256_len codec_Vec codec_Vec demo_open TEmpty TEmpty ∅ ∅ [1] [7] [1] [7])
    as (t' & E & I & _); auto.
  - now apply open_inv.
  - repeat constructor; lia.
  - apply collision_freeb_ok. vm_compute. reflexivity.
  - intros v' Hv'. discriminate Hv'.
  - now rewrite E.
Qed.

Lemma treedb_put_reads_witness :
  exists t', demo_put [2] [8] (demo_put [1] [7] demo_open).2 = (Ok tt, t') /\
    reads keccak256 codec_Vec codec_Vec t' [2] = Some [8].
Proof.
  destruct (treedb_put_reads keccak256 keccak256_len codec_Vec codec_Vec (demo_put [1] [7] demo_open).2 TEmpty
    _ ∅ _ [2] [8] [2] [8] demo_inv1) as (t' & E & R & _); auto.
  - repeat constructor; lia.
  - apply collision_freeb_ok. vm_compute. reflexivity.
  - intros v' Hv'. exfalso. revert Hv'. vm_compute. discriminate.
  - exists t'. auto.
Defined.

Definition demo_value (b : bytes) : bytes := enc bin_IValue (Value b).
Definition demo_tree (k b : bytes) (t : tree) : tree :=
  tinsert (path keccak256 k) (keccak256 (demo_value b)) t.

Lemma demo_put_inv t th ts mh ms k b :
  tdb_inv keccak256 t th ts mh ms -> is_vec b ->
  collision_freeb keccak256 (node_data keccak256 ts ++ node_data keccak256 (demo_tree k b ts)) = true ->
  match ms !! path keccak256 k with
  | Some v => keccak256 v <> keccak256 (demo_value b)
  | None => True
  end ->
  tdb_inv keccak256 (demo_put k b t).2 th (demo_tree k b ts) mh (<[path keccak256 k := demo_value b]> ms).
Proof.
  intros I Hb HU Hold. destruct (put_spec keccak256 keccak256_len codec_Vec codec_Vec t th ts mh ms k b k b)
    as (t' & E & I' & _); auto.
  - now apply collision_freeb_ok.
  - intros v Hv Hd. now rewrite Hv in Hold.
  - now rewrite E.
Qed.

Definition demo_tree1 := demo_tree [2] [8] (demo_tree [1] [7] TEmpty).
Definition demo_map1 : gmap bytes bytes :=
  <[path keccak256 [2] := demo_value [8]]> (<[path keccak256 [1] := demo_value [7]]> ∅).
Definition demo_committed : TreeDB := (TreeDB_commit keccak256 true demo_staged).2.
Definition demo_root1 : H256 := root (staging demo_staged).

Lemma demo_committed_inv :
  tdb_inv keccak256 demo_committed demo_tree1 demo_tree1 demo_map1 demo_map1 /\
  version keccak256 (db demo_committed) demo_root1 demo_map1.
Proof.
  assert (tdb_inv keccak256 demo_staged TEmpty demo_tree1 ∅ demo_map1) as I.
  { apply demo_put_inv; [apply demo_inv1 | repeat constructor; lia | vm_compute; reflexivity | vm_compute; exact Logic.I]. }
  destruct (commit_spec keccak256 demo_staged _ _ _ _ I) as (t1 & E & I1 & _ & _ & Hv).
  - vm_compute. discriminate.
  - vm_compute. reflexivity.
  - vm_compute. discriminate.
  - unfold demo_committed. rewrite E. auto.
Qed.

Lemma treedb_commit_reset_witness :
  exists t1 t2 t3, TreeDB_commit keccak256 true (demo_put [2] [9] demo_committed).2 =
      (Ok (root (staging (demo_put [2] [9] demo_committed).2)), t1) /\
    TreeDB_reset keccak256 (root (staging (demo_put [2] [9] demo_committed).2)) t1 = (Ok tt, t2) /\
    TreeDB_reset keccak256 demo_root1 t1 = (Ok tt, t3) /\
    reads keccak256 codec_Vec codec_Vec t3 [2] = Some [8].
Proof.
  destruct demo_committed_inv as [I Hv].
  destruct (treedb_commit_reset keccak256 codec_Vec codec_Vec (demo_put [2] [9] demo_committed).2
    demo_tree1 (demo_tree [2] [9] demo_tree1) demo_map1 (<[path keccak256 [2] := demo_value [9]]> demo_map1)
    demo_root1 demo_map1) as (t1 & t2 & t3 & E1 & E2 & E3 & R).
  - apply demo_put_inv; [exact I | repeat constructor; lia | vm_compute; reflexivity | vm_compute; discriminate].
  - vm_compute. discriminate.
  - vm_compute. reflexivity.
  - vm_compute. discriminate.
  - assert (db (demo_put [2] [9] demo_committed).2 = db demo_committed) as -> by (vm_compute; reflexivity). exact Hv.
  - exists t1, t2, t3. repeat split; auto. destruct (R [2] [2] eq_refl) as (_ & _ & ->). vm_compute. reflexivity.
Defined.
