(* ===== verification/Storage.v ===== *)
(** * Block storage

    Crate storage (the [KVStore] trait and its in-memory implementation,
    memstore.rs) and the storages of crate blockchain built on it: headers,
    transactions, the indexes by hash and by level (block_storage.rs) and the
    current head (chain_state.rs).  The protobuf encodings of headers and
    transaction lists are parameters ([ChainCodecs]). *)
From S2P Require Import Prelude Crypto Types Consensus Smt Codec TreeDb.

(** ** Key-value storage (storage/src) *)

Record Schema := {
  s_key : Type; s_value : Type; key_codec : Codec s_key; value_codec : Codec s_value; s_column : string }.

(** Columns exist from the creation of the store on. *)
Abbreviation MemStore := (gmap string Column).
Definition MemStore_new (columns : list string) : MemStore :=
  list_to_map (map (fun name => (name, ∅)) columns).
Definition MemStore_column (s : MemStore) (name : string) : result anyhow Column := ok_or_else (s !! name) EmptyString.

Section KVStore.
Variable S : Schema.

Definition KV_get (s : MemStore) (key : s_key S) : result anyhow (option (s_value S)) :=
  k ← encode (key_codec S) key;
  col ← MemStore_column s (s_column S);
  match col !! k with
  | None => Ok None
  | Some v => x ← decode (value_codec S) v; Ok (Some x)
  end.
Definition KV_put (key : s_key S) (value : s_value S) : stM MemStore anyhow unit :=
  k ← lift (encode (key_codec S) key);
  v ← lift (encode (value_codec S) value);
  s ← gets (fun s => s);
  col ← lift (MemStore_column s (s_column S));
  modify (<[s_column S := <[k := v]> col]>).
Definition KV_delete (key : s_key S) : stM MemStore anyhow unit :=
  k ← lift (encode (key_codec S) key);
  s ← gets (fun s => s);
  col ← lift (MemStore_column s (s_column S));
  modify (<[s_column S := delete k col]>).
Definition KV_contains (s : MemStore) (key : s_key S) : result anyhow bool :=
  k ← encode (key_codec S) key;
  col ← MemStore_column s (s_column S);
  Ok (bool_decide (is_Some (col !! k))).
(** [iter]: entries by increasing encoded key *)
Definition KV_iter (s : MemStore) : result anyhow (list (result anyhow (s_key S) * result anyhow (s_value S))) :=
  col ← MemStore_column s (s_column S);
  Ok (map (fun '(k, v) => (decode (key_codec S) k, decode (value_codec S) v)) (btree_entries col)).

(** [prefix_iter] is a [todo!()] in this backend. *)
Definition KV_prefix_iter (s : MemStore) (start : s_key S) :
    result anyhow (list (result anyhow (s_key S) * result anyhow (s_value S))) := Panic.

End KVStore.

(** ** Schemas (block_storage.rs, chain_state.rs) *)

Class ChainCodecs := {
  prost_BlockHeader : Codec BlockHeader;
  prost_Transactions : Codec (list SignedTransaction);
  prost_ChainStateValue : Codec BlockHeader;
}.

Section BlockStorage.
Context `{ChainCodecs} `{CryptoPrims}.

Definition BlockHeaderStorage : Schema := {|
  key_codec := codec_BlockPrimaryKey; value_codec := prost_BlockHeader; s_column := "block_storage" |}.
Definition BlockTransactionsStorage : Schema := {|
  key_codec := codec_BlockPrimaryKey; value_codec := prost_Transactions;
  s_column := "block_transactions_storage" |}.
Definition BlockByLevel : Schema := {|
  key_codec := codec_u32; value_codec := codec_BlockPrimaryKey; s_column := "block_level_storage" |}.
Definition BlockByHash : Schema := {|
  key_codec := codec_H256; value_codec := codec_BlockPrimaryKey; s_column := "block_hash_storage" |}.
Definition ChainStateStorage : Schema := {|
  key_codec := codec_String; value_codec := prost_ChainStateValue; s_column := "chain_state" |}.
Definition column_family_names : list string :=
  [s_column BlockHeaderStorage; s_column BlockTransactionsStorage; s_column BlockByLevel;
   s_column BlockByHash; s_column ChainStateStorage].

Definition block_key (h : BlockHeader) : BlockPrimaryKey := {| key_level := level h; key_hash := header_hash h |}.
Definition indexed (h : BlockHeader) : IndexedBlockHeader := {| ih_hash := header_hash h; raw := h |}.

(** ** Headers, transactions and indexes *)

Definition headers_put (h : BlockHeader) : stM MemStore anyhow BlockPrimaryKey :=
  let key := block_key h in
  s ← gets (fun s => s);
  c ← lift (KV_contains BlockHeaderStorage s key);
  if (c : bool) then mret key
  else _ ← KV_put BlockHeaderStorage key h; mret key.
Definition by_level_put (lvl : Z) (key : BlockPrimaryKey) : stM MemStore anyhow unit :=
  s ← gets (fun s => s);
  c ← lift (KV_contains BlockByLevel s lvl);
  if (c : bool) then mret tt else KV_put BlockByLevel lvl key.

Definition BlockStorage_put (b : Block) : stM MemStore anyhow unit :=
  key ← headers_put (header b);
  _ ← KV_put BlockTransactionsStorage key (transactions b);
  _ ← KV_put BlockByHash (key_hash key) key;
  by_level_put (key_level key) key.
(** Only the index by level is changed. *)
Definition BlockStorage_delete (hash : H256) (lvl : Z) : stM MemStore anyhow unit := KV_delete BlockByLevel lvl.

Definition headers_get (s : MemStore) (key : BlockPrimaryKey) : result anyhow (option BlockHeader) :=
  KV_get BlockHeaderStorage s key.
Definition headers_delete (key : BlockPrimaryKey) : stM MemStore anyhow unit := KV_delete BlockHeaderStorage key.
Definition headers_has (s : MemStore) (key : BlockPrimaryKey) : result anyhow bool := KV_contains BlockHeaderStorage s key.
Definition transactions_delete (key : BlockPrimaryKey) : stM MemStore anyhow unit :=
  KV_delete BlockTransactionsStorage key.
Definition transactions_has (s : MemStore) (key : BlockPrimaryKey) : result anyhow bool :=
  KV_contains BlockTransactionsStorage s key.
Definition by_hash_delete (hash : H256) : stM MemStore anyhow unit := KV_delete BlockByHash hash.

(** ** Reading *)

Definition BS_get_header (s : MemStore) (hash : H256) (lvl : Z) : result anyhow (option IndexedBlockHeader) :=
  o ← KV_get BlockHeaderStorage s {| key_level := lvl; key_hash := hash |};
  Ok (option_map indexed o).
Definition BS_get_header_by_hash (s : MemStore) (hash : H256) : result anyhow (option IndexedBlockHeader) :=
  o ← KV_get BlockByHash s hash;
  match o with Some key => BS_get_header s (key_hash key) (key_level key) | None => Ok None end.
Definition BS_get_header_by_level (s : MemStore) (lvl : Z) : result anyhow (option IndexedBlockHeader) :=
  o ← KV_get BlockByLevel s lvl;
  match o with Some key => BS_get_header s (key_hash key) (key_level key) | None => Ok None end.
Definition BS_get_block (s : MemStore) (hash : H256) (lvl : Z) : result anyhow (option Block) :=
  let key := {| key_level := lvl; key_hash := hash |} in
  h ← KV_get BlockHeaderStorage s key;
  txs ← KV_get BlockTransactionsStorage s key;
  match h, txs with
  | Some h, Some txs => Ok (Some {| header := h; transactions := txs |})
  | _, _ => Ok None
  end.
Definition BS_get_block_by_hash (s : MemStore) (hash : H256) : result anyhow (option Block) :=
  o ← KV_get BlockByHash s hash;
  match o with Some key => BS_get_block s (key_hash key) (key_level key) | None => Ok None end.
Definition BS_get_block_by_level (s : MemStore) (lvl : Z) : result anyhow (option Block) :=
  o ← KV_get BlockByLevel s lvl;
  match o with Some key => BS_get_block s (key_hash key) (key_level key) | None => Ok None end.

(** Blocks from a key on: headers and transaction lists side by side. *)
Definition BS_get_blocks (s : MemStore) (hash : H256) (lvl : Z) : result anyhow (list (result anyhow Block)) :=
  let key := {| key_level := lvl; key_hash := hash |} in
  hs ← KV_prefix_iter BlockHeaderStorage s key;
  ts ← KV_prefix_iter BlockTransactionsStorage s key;
  Ok (zip_with (fun (h : result anyhow BlockPrimaryKey * result anyhow BlockHeader)
                    (t : result anyhow BlockPrimaryKey * result anyhow (list SignedTransaction)) =>
                  header ← h.2; txs ← t.2; Ok {| header := header; transactions := txs |}) hs ts).

Definition chain_reader (s : MemStore) : ChainHeadReader := {|
  get_header := BS_get_header s;
  get_header_by_hash := BS_get_header_by_hash s;
  get_header_by_level := BS_get_header_by_level s |}.

(** ** The current head *)

Definition CURR_HEAD : str := lit "ch".
Definition set_current_header (h : BlockHeader) : stM MemStore anyhow unit := KV_put ChainStateStorage CURR_HEAD h.
Definition get_current_header (s : MemStore) : result anyhow (option BlockHeader) :=
  KV_get ChainStateStorage s CURR_HEAD.

End BlockStorage.

(** ** Reading back what was written *)

Section KVLemmas.
Context (S : Schema).

Lemma KV_put_ok s k v kb vb col :
  encode (key_codec S) k = Ok kb -> encode (value_codec S) v = Ok vb -> s !! s_column S = Some col ->
  KV_put S k v s = (Ok tt, <[s_column S := <[kb := vb]> col]> s).
Proof.
  intros Hk Hv Hc. unfold KV_put. st_step (unfold lift; rewrite Hk; reflexivity).
  st_step (unfold lift; rewrite Hv; reflexivity). st_step reflexivity.
  st_step (unfold lift, MemStore_column; rewrite Hc; reflexivity). reflexivity.
Qed.
Lemma KV_get_ok s k kb col :
  encode (key_codec S) k = Ok kb -> s !! s_column S = Some col ->
  KV_get S s k = match col !! kb with
                 | None => Ok None
                 | Some v => x ← decode (value_codec S) v; Ok (Some x)
                 end.
Proof. intros Hk Hc. unfold KV_get, MemStore_column. rewrite Hk. cbn [mbind result_bind]. now rewrite Hc. Qed.
Lemma KV_contains_ok s k kb col :
  encode (key_codec S) k = Ok kb -> s !! s_column S = Some col ->
  KV_contains S s k = Ok (bool_decide (is_Some (col !! kb))).
Proof. intros Hk Hc. unfold KV_contains, MemStore_column. rewrite Hk. cbn [mbind result_bind]. now rewrite Hc. Qed.

(** A successful write. *)
Definition written (k : s_key S) (v : s_value S) (s s' : MemStore) : Prop :=
  exists kb vb col, encode (key_codec S) k = Ok kb /\ encode (value_codec S) v = Ok vb /\
    s !! s_column S = Some col /\ s' = <[s_column S := <[kb := vb]> col]> s.

Lemma written_get k v s s' :
  written k v s s' -> (forall vb, encode (value_codec S) v = Ok vb -> decode (value_codec S) vb = Ok v) ->
  KV_get S s' k = Ok (Some v).
Proof.
  intros (kb & vb & col & Hk & Hv & Hc & ->) Hd.
  rewrite (KV_get_ok _ k kb (<[kb := vb]> col) Hk) by apply lookup_insert_eq.
  now rewrite lookup_insert_eq, (Hd _ Hv).
Qed.
Lemma written_get_ne k v s s' k' :
  written k v s s' -> (forall kb, encode (key_codec S) k = Ok kb -> encode (key_codec S) k' <> Ok kb) ->
  is_ok (encode (key_codec S) k') = true -> KV_get S s' k' = KV_get S s k'.
Proof.
  intros (kb & vb & col & Hk & Hv & Hc & ->) Hne Hok. apply is_ok_true in Hok as [kb' Hk'].
  rewrite (KV_get_ok _ k' kb' (<[kb := vb]> col) Hk') by apply lookup_insert_eq.
  rewrite (KV_get_ok _ k' kb' col Hk' Hc). rewrite lookup_insert_ne; auto. intros ->. now apply (Hne _ Hk).
Qed.
End KVLemmas.

Lemma written_other S S' k v s s' k' :
  written S k v s s' -> s_column S <> s_column S' -> KV_get S' s' k' = KV_get S' s k'.
Proof.
  intros (kb & vb & col & Hk & Hv & Hc & ->) Hne. unfold KV_get, MemStore_column.
  now rewrite lookup_insert_ne.
Qed.
Lemma written_contains_other S S' k v s s' k' :
  written S k v s s' -> s_column S <> s_column S' -> KV_contains S' s' k' = KV_contains S' s k'.
Proof.
  intros (kb & vb & col & Hk & Hv & Hc & ->) Hne. unfold KV_contains, MemStore_column.
  now rewrite lookup_insert_ne.
Qed.

Section BlockStorageTheorems.
Context `{ChainCodecs} `{CryptoLaws}.

Definition has_columns (s : MemStore) : Prop := Forall (fun c => is_Some (s !! c)) column_family_names.
Lemma has_columns_insert s c col : has_columns s -> has_columns (<[c := col]> s).
Proof.
  unfold has_columns. intros Hs. eapply Forall_impl; [|exact Hs]. intros x Hx.
  destruct (decide (c = x)) as [->|Hne]; [rewrite lookup_insert_eq; eauto | now rewrite lookup_insert_ne].
Qed.
Lemma has_columns_in s c : has_columns s -> In c column_family_names -> is_Some (s !! c).
Proof. unfold has_columns. rewrite Forall_forall. auto. Qed.

Lemma put_written S k v s kb vb :
  has_columns s -> In (s_column S) column_family_names ->
  encode (key_codec S) k = Ok kb -> encode (value_codec S) v = Ok vb ->
  exists s', KV_put S k v s = (Ok tt, s') /\ written S k v s s' /\ has_columns s'.
Proof.
  intros Hs Hin Hk Hv. destruct (has_columns_in _ _ Hs Hin) as [col Hc].
  eexists. split; [apply (KV_put_ok S s k v kb vb col); auto|]. split.
  - exists kb, vb, col. auto.
  - now apply has_columns_insert.
Qed.
Lemma contains_get S k s :
  has_columns s -> In (s_column S) column_family_names -> is_ok (encode (key_codec S) k) = true ->
  (KV_get S s k = Ok None -> KV_contains S s k = Ok false) /\
  (forall v, KV_get S s k = Ok (Some v) -> KV_contains S s k = Ok true).
Proof.
  intros Hs Hin Hk. apply is_ok_true in Hk as [kb Hk]. destruct (has_columns_in _ _ Hs Hin) as [col Hc].
  rewrite (KV_get_ok S s k kb col Hk Hc), (KV_contains_ok S s k kb col Hk Hc).
  destruct (col !! kb) as [v|] eqn:E; split.
  - destruct (decode (value_codec S) v); discriminate.
  - intros v' _. rewrite bool_decide_eq_true_2; eauto.
  - intros _. now rewrite bool_decide_eq_false_2 by (apply is_Some_None).
  - discriminate.
Qed.

Lemma header_hash_len h : is_bytes 32 (header_hash h).
Proof. unfold header_hash. apply sha256_len. Qed.
Lemma wf_block_key h : wf_header h -> wf_key (block_key h).
Proof. intros W. split; [apply W | apply header_hash_len]. Qed.

Lemma BlockPrimaryKey_encode_inj k1 k2 :
  wf_key k1 -> wf_key k2 -> BlockPrimaryKey_encode k1 = BlockPrimaryKey_encode k2 -> k1 = k2.
Proof.
  intros W1 W2 E. apply (f_equal (BlockPrimaryKey_decode (E:=unit))) in E.
  rewrite !BlockPrimaryKey_decode_encode in E by assumption. now injection E.
Qed.

(** Headers are written once. *)
Lemma headers_put_spec h s :
  codec_ok prost_BlockHeader wf_header -> has_columns s -> wf_header h ->
  KV_get BlockHeaderStorage s (block_key h) = Ok None \/
    KV_get BlockHeaderStorage s (block_key h) = Ok (Some h) ->
  exists s', headers_put h s = (Ok (block_key h), s') /\ has_columns s' /\
    KV_get BlockHeaderStorage s' (block_key h) = Ok (Some h) /\
    (forall k, wf_key k -> k <> block_key h -> KV_get BlockHeaderStorage s' k = KV_get BlockHeaderStorage s k) /\
    (forall k, KV_get BlockHeaderStorage s' k = Ok (Some h) \/ KV_get BlockHeaderStorage s' k = KV_get BlockHeaderStorage s k) /\
    (forall S k, s_column S <> s_column BlockHeaderStorage -> KV_get S s' k = KV_get S s k).
Proof.
  intros Hcod Hs W Hget. destruct (Hcod h W) as (vb & Hv & Hd).
  destruct (contains_get BlockHeaderStorage (block_key h) s Hs) as [C1 C2]; [now left | reflexivity|].
  unfold headers_put. destruct Hget as [Hget|Hget].
  - destruct (put_written BlockHeaderStorage (block_key h) h s _ vb Hs (or_introl eq_refl) eq_refl Hv)
      as (s' & E & Wr & Hs').
    exists s'. st_step reflexivity. st_step (unfold lift; rewrite (C1 Hget); reflexivity).
    st_step (exact E). split; [reflexivity|]. split; auto. split.
    + apply (written_get _ _ _ _ _ Wr). intros vb' E'. change (encode prost_BlockHeader h = Ok vb') in E'.
      assert (vb' = vb) as -> by congruence. exact Hd.
    + assert (forall k, BlockPrimaryKey_encode k <> BlockPrimaryKey_encode (block_key h) ->
        KV_get BlockHeaderStorage s' k = KV_get BlockHeaderStorage s k) as Fr.
      { intros k Hne. apply (written_get_ne BlockHeaderStorage _ _ _ _ k Wr); [|reflexivity].
        intros kb E1 E2. change (Ok (E:=anyhow) (BlockPrimaryKey_encode (block_key h)) = Ok kb) in E1.
        change (Ok (E:=anyhow) (BlockPrimaryKey_encode k) = Ok kb) in E2. congruence. }
      split; [|split; [|intros S k Hne; apply (written_other _ _ _ _ _ _ _ Wr); congruence]].
      * intros k Wk Hne. apply Fr. intros Ee. apply Hne, BlockPrimaryKey_encode_inj; auto using wf_block_key.
      * intros k. destruct (decide (BlockPrimaryKey_encode k = BlockPrimaryKey_encode (block_key h))) as [Ee|]; auto.
        left. transitivity (KV_get BlockHeaderStorage s' (block_key h)).
        -- unfold KV_get. cbn [encode key_codec BlockHeaderStorage codec_BlockPrimaryKey]. now rewrite Ee.
        -- apply (written_get _ _ _ _ _ Wr). intros vb' E'. change (encode prost_BlockHeader h = Ok vb') in E'.
           assert (vb' = vb) as -> by congruence. exact Hd.
  - exists s. st_step reflexivity. st_step (unfold lift; rewrite (C2 _ Hget); reflexivity). auto 10.
Qed.

Lemma by_level_put_spec lvl key s :
  has_columns s -> wf_key key ->
  exists s', by_level_put lvl key s = (Ok tt, s') /\ has_columns s' /\
    (KV_get BlockByLevel s lvl = Ok None -> KV_get BlockByLevel s' lvl = Ok (Some key)) /\
    (forall k, KV_get BlockByLevel s lvl = Ok (Some k) -> KV_get BlockByLevel s' lvl = Ok (Some k)) /\
    (forall S k, s_column S <> s_column BlockByLevel -> KV_get S s' k = KV_get S s k).
Proof.
  intros Hs Wk. destruct (has_columns_in s _ Hs (or_intror (or_intror (or_introl eq_refl)))) as [col Hc].
  assert (KV_contains BlockByLevel s lvl = Ok (bool_decide (is_Some (col !! to_be 4 lvl)))) as Hcon
    by now apply KV_contains_ok.
  unfold by_level_put. case_bool_decide as Hb.
  - exists s. st_step reflexivity. st_step (unfold lift; rewrite Hcon; reflexivity).
    split; [reflexivity|]. split; auto. split; auto. intros Hn.
    rewrite (KV_get_ok BlockByLevel s lvl (to_be 4 lvl) col eq_refl Hc) in Hn. destruct Hb as [x Hx].
    rewrite Hx in Hn. destruct (decode _ x); discriminate Hn.
  - destruct (put_written BlockByLevel lvl key s (to_be 4 lvl) (BlockPrimaryKey_encode key) Hs) as (s' & E & Wr & Hs');
      auto; [right; right; now left|].
    exists s'. st_step reflexivity. st_step (unfold lift; rewrite Hcon; reflexivity).
    split; [exact E|]. split; auto. split; [|split].
    + intros _. apply (written_get _ _ _ _ _ Wr). intros vb [= <-]. now apply BlockPrimaryKey_decode_encode.
    + intros k Hk. rewrite (KV_get_ok BlockByLevel s lvl (to_be 4 lvl) col eq_refl Hc) in Hk.
      destruct (col !! to_be 4 lvl) eqn:E'; [|discriminate]. exfalso. apply Hb. eauto.
    + intros S k Hne. apply (written_other _ _ _ _ _ _ _ Wr). congruence.
Qed.

(** What is read after a block is stored. *)
Record stored_block (b : Block) (s s' : MemStore) : Prop := {
  sb_columns : has_columns s';
  sb_hash : KV_get BlockByHash s' (block_hash b) = Ok (Some (block_key (header b)));
  sb_header : KV_get BlockHeaderStorage s' (block_key (header b)) = Ok (Some (header b));
  sb_transactions : decode prost_Transactions (ok_default [] (encode prost_Transactions (transactions b))) =
    Ok (transactions b) ->
    KV_get BlockTransactionsStorage s' (block_key (header b)) = Ok (Some (transactions b));
  sb_level_free : KV_get BlockByLevel s (level (header b)) = Ok None ->
    KV_get BlockByLevel s' (level (header b)) = Ok (Some (block_key (header b)));
  sb_level_taken k : KV_get BlockByLevel s (level (header b)) = Ok (Some k) ->
    KV_get BlockByLevel s' (level (header b)) = Ok (Some k);
  sb_other_hash h : h <> block_hash b -> KV_get BlockByHash s' h = KV_get BlockByHash s h;
  sb_other_header k : wf_key k -> k <> block_key (header b) ->
    KV_get BlockHeaderStorage s' k = KV_get BlockHeaderStorage s k;
  sb_any_header k : KV_get BlockHeaderStorage s' k = Ok (Some (header b)) \/
    KV_get BlockHeaderStorage s' k = KV_get BlockHeaderStorage s k;
  sb_head k : KV_get ChainStateStorage s' k = KV_get ChainStateStorage s k;
}.

Lemma BlockStorage_put_spec b s tb :
  codec_ok prost_BlockHeader wf_header -> has_columns s -> wf_header (header b) ->
  encode prost_Transactions (transactions b) = Ok tb ->
  KV_get BlockHeaderStorage s (block_key (header b)) = Ok None \/
    KV_get BlockHeaderStorage s (block_key (header b)) = Ok (Some (header b)) ->
  exists s', BlockStorage_put b s = (Ok tt, s') /\ stored_block b s s'.
Proof.
  intros Hcod Hs W Et Hget. set (key := block_key (header b)) in *. pose proof (wf_block_key _ W) as Wk. fold key in Wk.
  destruct (headers_put_spec (header b) s Hcod Hs W Hget) as (s1 & E1 & Hs1 & G1 & F1 & A1 & L1).
  destruct (put_written BlockTransactionsStorage key (transactions b) s1 _ tb Hs1 (or_intror (or_introl eq_refl)) eq_refl Et)
    as (s2 & E2 & W2 & Hs2).
  destruct (put_written BlockByHash (key_hash key) key s2 _ (BlockPrimaryKey_encode key) Hs2
    (or_intror (or_intror (or_intror (or_introl eq_refl)))) eq_refl eq_refl) as (s3 & E3 & W3 & Hs3).
  destruct (by_level_put_spec (key_level key) key s3 Hs3 Wk) as (s4 & E4 & Hs4 & L4 & K4 & O4).
  assert (forall S k, s_column S <> s_column BlockHeaderStorage -> s_column S <> s_column BlockTransactionsStorage ->
    s_column S <> s_column BlockByHash -> KV_get S s3 k = KV_get S s k) as F3.
  { intros S k N1 N2 N3. rewrite (written_other _ S _ _ _ _ k W3), (written_other _ S _ _ _ _ k W2) by auto. now apply L1. }
  assert (forall k, KV_get BlockHeaderStorage s4 k = KV_get BlockHeaderStorage s1 k) as H4.
  { intros k. now rewrite O4, (written_other _ BlockHeaderStorage _ _ _ _ k W3), (written_other _ BlockHeaderStorage _ _ _ _ k W2). }
  exists s4. split; [unfold BlockStorage_put; st_step (exact E1); st_step (exact E2); st_step (exact E3); exact E4|].
  split; change (block_hash b) with (key_hash key); change (level (header b)) with (key_level key); fold key.
  - exact Hs4.
  - rewrite O4 by discriminate. apply (written_get _ _ _ _ _ W3). intros vb [= <-]. now apply BlockPrimaryKey_decode_encode.
  - rewrite H4. exact G1.
  - intros D. rewrite O4, (written_other _ BlockTransactionsStorage _ _ _ _ key W3) by discriminate.
    apply (written_get _ _ _ _ _ W2). intros vb E'. change (encode prost_Transactions (transactions b) = Ok vb) in E'.
    rewrite E' in D. exact D.
  - intros Hn. apply L4. now rewrite F3.
  - intros k Hk. apply K4. now rewrite F3.
  - intros h Hne. rewrite O4 by discriminate. rewrite (written_get_ne BlockByHash _ _ _ _ h W3), (written_other _ BlockByHash _ _ _ _ h W2).
    + now apply L1.
    + discriminate.
    + intros kb E E'. change (Ok (E:=anyhow) (key_hash key) = Ok kb) in E. change (Ok (E:=anyhow) h = Ok kb) in E'. congruence.
    + reflexivity.
  - intros k Wk' Hne. rewrite H4. now apply F1.
  - intros k. rewrite H4. apply A1.
  - intros k. rewrite O4 by discriminate. now apply F3.
Qed.

(** C27 A stored block is read back by its hash, and by its level when the level
    was free; the index by level keeps the first block stored until it is
    deleted. *)
Theorem block_storage_put_get b s tb :
  codec_ok prost_BlockHeader wf_header -> has_columns s -> wf_header (header b) ->
  encode prost_Transactions (transactions b) = Ok tb -> decode prost_Transactions tb = Ok (transactions b) ->
  KV_get BlockHeaderStorage s (block_key (header b)) = Ok None \/
    KV_get BlockHeaderStorage s (block_key (header b)) = Ok (Some (header b)) ->
  exists s', BlockStorage_put b s = (Ok tt, s') /\
    BS_get_block_by_hash s' (block_hash b) = Ok (Some b) /\
    BS_get_header_by_hash s' (block_hash b) = Ok (Some (indexed (header b))) /\
    (KV_get BlockByLevel s (level (header b)) = Ok None ->
       BS_get_block_by_level s' (level (header b)) = Ok (Some b)) /\
    (forall k, KV_get BlockByLevel s (level (header b)) = Ok (Some k) ->
       KV_get BlockByLevel s' (level (header b)) = Ok (Some k)).
Proof.
  intros Hcod Hs W Et Dt Hget. destruct (BlockStorage_put_spec b s tb Hcod Hs W Et Hget) as (s' & E & Sb).
  assert (KV_get BlockTransactionsStorage s' (block_key (header b)) = Ok (Some (transactions b))) as GT.
  { apply (sb_transactions _ _ _ Sb). now rewrite Et. }
  assert (BS_get_block s' (header_hash (header b)) (level (header b)) = Ok (Some b)) as Gb.
  { unfold BS_get_block. change {| key_level := _; key_hash := _ |} with (block_key (header b)).
    rewrite (sb_header _ _ _ Sb). cbn [mbind result_bind]. rewrite GT. cbn [mbind result_bind]. now destruct b. }
  exists s'. split; [exact E|]. split; [|split; [|split]].
  - unfold BS_get_block_by_hash. now rewrite (sb_hash _ _ _ Sb).
  - unfold BS_get_header_by_hash. rewrite (sb_hash _ _ _ Sb). cbn [mbind result_bind].
    unfold BS_get_header. change {| key_level := _; key_hash := _ |} with (block_key (header b)).
    now rewrite (sb_header _ _ _ Sb).
  - intros Hn. unfold BS_get_block_by_level. now rewrite (sb_level_free _ _ _ Sb).
  - apply (sb_level_taken _ _ _ Sb).
Qed.

End BlockStorageTheorems.

(** ** An instance: headers in their consensus encoding, lists of no transactions *)

Definition toy_header : Codec BlockHeader := {|
  encode h := Ok (consensus_encode h);
  decode buf := conv (fun _ => "header"%string) (consensus_decode buf) |}.
#[export] Instance toy_codecs : ChainCodecs := {|
  prost_BlockHeader := toy_header;
  prost_Transactions := {|
    encode l := match l with [] => Ok [] | _ => Err "transactions"%string end;
    decode buf := match buf with [] => Ok [] | _ => Err "transactions"%string end |};
  prost_ChainStateValue := toy_header |}.
Lemma toy_header_ok : codec_ok toy_header wf_header.
Proof.
  intros h W. exists (consensus_encode h). split; [reflexivity|]. cbn [decode toy_header].
  rewrite <- (app_nil_r (consensus_encode h)). now rewrite consensus_decode_app.
Qed.

Lemma toy_BlockHeader_ok : codec_ok prost_BlockHeader wf_header.
Proof. exact toy_header_ok. Qed.
Lemma toy_ChainStateValue_ok : codec_ok prost_ChainStateValue wf_header.
Proof. exact toy_header_ok. Qed.

Lemma block_storage_put_get_witness :
  let b := {| header := example_header; transactions := [] |} in
  exists s', BlockStorage_put b (MemStore_new column_family_names) = (Ok tt, s') /\
    BS_get_block_by_hash s' (block_hash b) = Ok (Some b) /\
    BS_get_header_by_hash s' (block_hash b) = Ok (Some (indexed (header b))) /\
    (KV_get BlockByLevel (MemStore_new column_family_names) (level (header b)) = Ok None ->
       BS_get_block_by_level s' (level (header b)) = Ok (Some b)) /\
    (forall k, KV_get BlockByLevel (MemStore_new column_family_names) (level (header b)) = Ok (Some k) ->
       KV_get BlockByLevel s' (level (header b)) = Ok (Some k)).
Proof.
  intros b. apply (block_storage_put_get b (MemStore_new column_family_names) []).
  - exact toy_header_ok.
  - apply (bool_decide_unpack _). vm_compute. exact Logic.I.
  - apply (bool_decide_unpack _). vm_compute. exact Logic.I.
  - reflexivity.
  - reflexivity.
  - left. vm_compute. reflexivity.
Defined.
