(* ===== verification/State.v ===== *)
(** * The account state

    [State] of crate state (lib.rs): the accounts in a [TreeDB], the data and
    the code of applications in two [KvDB]s, and the execution of the
    transactions of a block.  The WebAssembly machine is a parameter
    ([WasmVMInstance], the trait of crate traits), and so are the encodings
    [register_namespace] (dapps/builtin) obtains from generated code. *)
From S2P Require Import Prelude Crypto Types Smt Codec SmtTree SmtProofs SmtTheorems TreeDb.

Record Changelist := {
  account_changes : gmap Address AccountState; logs : list (str * bytes); storage : SparseMerkleTree }.

Record State := { trie : TreeDB; appdata : KvDB; metadata : KvDB; read_only : bool }.
Definition set_trie (t : TreeDB) (s : State) : State :=
  {| trie := t; appdata := appdata s; metadata := metadata s; read_only := read_only s |}.
Definition set_appdata (d : KvDB) (s : State) : State :=
  {| trie := trie s; appdata := d; metadata := metadata s; read_only := read_only s |}.
Definition set_metadata (d : KvDB) (s : State) : State :=
  {| trie := trie s; appdata := appdata s; metadata := d; read_only := read_only s |}.

(** The machine reads the state database it is given. *)
Class WasmVMInstance := {
  execute_app_create : State -> Address -> Z -> str -> bytes -> result anyhow (bytes * Changelist);
  execute_app_tx : State -> Address -> Z -> Address -> Z -> Z -> bytes -> result anyhow Changelist;
  (** generated code used by [register_namespace]: the encoded message with the
      namespace and its owner, and the hash naming services and methods *)
  encode_namespace : H256 -> Address -> result anyhow bytes;
  twox_64_hash : bytes -> Z;
}.

(** [AccountState::default] (derived): unlike [AccountState::new], nonce 0. *)
Definition AccountState_default : AccountState :=
  {| free_balance := 0; reserve_balance := 0; acc_nonce := 0; app_state := None |}.
Definition set_free_balance (b : Z) (a : AccountState) : AccountState :=
  {| free_balance := b; reserve_balance := reserve_balance a; acc_nonce := acc_nonce a; app_state := app_state a |}.
Definition set_acc_nonce (n : Z) (a : AccountState) : AccountState :=
  {| free_balance := free_balance a; reserve_balance := reserve_balance a; acc_nonce := n; app_state := app_state a |}.
Definition set_app_state (s : option AppState) (a : AccountState) : AccountState :=
  {| free_balance := free_balance a; reserve_balance := reserve_balance a; acc_nonce := acc_nonce a; app_state := s |}.
Definition set_root_hash (r : H256) (a : AppState) : AppState :=
  {| root_hash := r; code_hash := code_hash a; creator := creator a; app_version := app_version a |}.

(** ** Transactions by nonce and price (transaction/src/lib.rs) *)

(** [Ord] of [NoncePricedTransaction] *)
Definition nonce_price_cmp (a b : SignedTransaction) : comparison :=
  match Z.compare (tx_nonce a) (tx_nonce b) with
  | Eq => CompOpp (Z.compare (price a) (price b))
  | c => c
  end.
(** [BTreeSet::insert] in a sorted list: an element that compares equal to one
    already present is dropped. *)
Fixpoint btree_insert {A} (cmp : A -> A -> comparison) (x : A) (l : list A) : list A :=
  match l with
  | [] => [x]
  | y :: l' =>
    match cmp x y with
    | Lt => x :: l
    | Eq => l
    | Gt => y :: btree_insert cmp x l'
    end
  end.
Abbreviation TransactionsByNonceAndPrice := (list SignedTransaction).

Abbreviation Accounts := (gmap Address AccountState).
(** The state and the account map a block is executed on. *)
Record Exec := { ex_state : State; ex_accounts : Accounts }.
Definition set_ex_state (s : State) (e : Exec) : Exec := {| ex_state := s; ex_accounts := ex_accounts e |}.
Definition set_ex_accounts (a : Accounts) (e : Exec) : Exec := {| ex_state := ex_state e; ex_accounts := a |}.

(** [states.get_mut(addr).ok_or(err)?] followed by an assignment *)
Definition account_mut (addr : Address) (err : anyhow) (f : AccountState -> AccountState) : stM Exec anyhow unit :=
  m ← gets ex_accounts;
  a ← lift (ok_or_else (m !! addr) err);
  modify (set_ex_accounts (<[addr := f a]> m)).

(** [NetworkRegistry] (dapps) *)
Definition nameregistry : str := lit "network.odax.nameregistry".
Definition ADMIN : Address :=
  [111; 100; 97; 110; 120; 49; 107; 122; 50; 55; 109; 112; 106; 104; 50; 113; 110; 106; 54; 56;
   112; 115; 97; 110; 54; 51; 103; 109; 116; 119; 51; 113; 52; 54; 122; 104; 97; 50; 119; 102;
   117; 99; 100; 50].

Section State.
Context `{CryptoPrims} `{Bincode}.
(** The order in which a [HashMap] is iterated. *)
Variable hash_order : Column -> list (bytes * bytes).

Abbreviation trie_get_account := (TreeDB_get keccak256 codec_Address prost_AccountState).
Abbreviation trie_put_account := (TreeDB_put keccak256 codec_Address prost_AccountState).
Abbreviation trie_get_at_root := (get_at_root keccak256 codec_Address prost_AccountState).

(** ** Accounts *)

Definition get_account_state (s : State) (address : Address) : result anyhow AccountState :=
  match trie_get_account (trie s) address with
  | Ok (Some account_state) => Ok account_state
  | Panic => Panic
  | _ => Ok AccountState_new
  end.
Definition get_account_state_at_root (s : State) (at_root : H256) (address : Address) :
    result anyhow AccountState :=
  match trie_get_at_root (trie s) at_root address with
  | Ok (Some account_state) => Ok account_state
  | Panic => Panic
  | _ => Ok AccountState_new
  end.
Definition account_state (s : State) (address : Address) : result anyhow AccountState :=
  get_account_state s address.
Definition state_nonce (s : State) (address : Address) : result anyhow Z :=
  a ← account_state s address; Ok (acc_nonce a).
Definition balance (s : State) (address : Address) : result anyhow Z :=
  a ← account_state s address; Ok (free_balance a).

Definition put_account (address : Address) (a : AccountState) : stM State anyhow unit :=
  zoom trie set_trie (trie_put_account address a).
Definition state_root_hash (s : State) : result anyhow H256 := TreeDB_root (trie s).
Definition set_account_state (address : Address) (a : AccountState) : stM State anyhow H256 :=
  _ ← put_account address a;
  s ← gets (fun s => s);
  lift (state_root_hash s).
Definition credit_balance (address : Address) (amount : Z) : stM State anyhow H256 :=
  s ← gets (fun s => s);
  a ← lift (get_account_state s address);
  _ ← put_account address (set_free_balance (u64 (free_balance a + amount)) a);
  s ← gets (fun s => s);
  lift (state_root_hash s).
Definition debit_balance (address : Address) (amount : Z) : stM State anyhow H256 :=
  s ← gets (fun s => s);
  a ← lift (get_account_state s address);
  _ ← put_account address (set_free_balance (u64 (free_balance a - amount)) a);
  s ← gets (fun s => s);
  lift (state_root_hash s).

Definition get_account_state_with_proof (s : State) (address : Address) :
    result anyhow (AccountState * (Proof * H256)) :=
  '(a, pf) ← TreeDB_get_with_proof keccak256 codec_Address prost_AccountState (trie s) address;
  r ← TreeDB_root (trie s);
  Ok (a, (pf, r)).
Definition check_transaction (s : State) (t : SignedTransaction) : result anyhow unit := Ok tt.

(** ** Versions *)

(** The contents of the three databases under the path. *)
Definition State_new (accounts appdata_ metadata_ : MemoryStore) : result anyhow State :=
  t ← TreeDB_open keccak256 accounts;
  Ok {| trie := t; appdata := KvDB_open appdata_ false; metadata := KvDB_open metadata_ false; read_only := false |}.

Definition State_reset (root : H256) : stM State anyhow unit :=
  zoom trie set_trie (TreeDB_reset keccak256 root).
Definition State_commit : stM State anyhow unit :=
  ro ← gets read_only;
  _ ← zoom trie set_trie (TreeDB_commit keccak256 (negb ro));
  mret tt.
Definition State_root {E} (s : State) : result E H256 :=
  match state_root_hash s with Ok r => Ok r | _ => Panic end.
(** Opens the same files again, read-only. *)
Definition get_sate_at (s : State) (root : H256) : result anyhow State :=
  t ← TreeDB_open_read_only_at_root (db (trie s)) root;
  Ok {| trie := t; appdata := KvDB_open (kv_inner (appdata s)) true;
        metadata := KvDB_open (kv_inner (metadata s)) true; read_only := true |}.
Definition State_snapshot (s : State) : result anyhow State :=
  r ← State_root s; get_sate_at s r.

(** ** Applications *)

Definition set_app_data (k : AppStateKey) (d : SparseMerkleTree) : stM State anyhow unit :=
  zoom appdata set_appdata (KvDB_put codec_AppStateKey codec_SparseMerkleTree k d).
Definition get_app_data (s : State) (app_id : Address) : result anyhow SparseMerkleTree :=
  match trie_get_account (trie s) app_id with
  | Ok (Some account) =>
    match app_state account with
    | None => bail "app not initialized"
    | Some a =>
      match KvDB_get codec_AppStateKey codec_SparseMerkleTree (appdata s)
              {| app_address := app_id; app_root := root_hash a |} with
      | Ok d => Ok d
      | Err _ => Ok smt_new
      | Panic => Panic
      end
    end
  | Panic => Panic
  | _ => bail "app not found"
  end.
Definition get_app_metadata (s : State) (app_id : Address) : result anyhow AppMetadata :=
  o ← trie_get_account (trie s) app_id;
  account ← ok_or_else o "app not found";
  match app_state account with
  | None => bail "address is not an application address"
  | Some a => KvDB_get codec_H256 codec_AppMetadata (metadata s) (code_hash a)
  end.
Definition get_app_source (s : State) (app_id : Address) : result anyhow bytes :=
  m ← get_app_metadata s app_id; Ok (binary m).
Definition get_app_descriptor (s : State) (app_id : Address) : result anyhow bytes :=
  m ← get_app_metadata s app_id; Ok (descriptor m).
Definition put_metadata (code_hash : H256) (m : AppMetadata) : stM State anyhow unit :=
  zoom metadata set_metadata (KvDB_put codec_H256 codec_AppMetadata code_hash m).
Definition set_app_metadata (bin desc : bytes) : stM State anyhow unit :=
  put_metadata (keccak256 bin) {| binary := bin; descriptor := desc |}.

(** ** Execution *)

Definition execute_payment_tx (t : SignedTransaction) : stM Exec anyhow unit :=
  m ← gets ex_accounts;
  from_account_state ← lift (ok_or_else (m !! sender t) "AccountNotFound");
  let amount := u64 (price t + fees t) in
  if free_balance from_account_state <? amount then lift (Err "InsufficientFunds")
  else
    _ ← account_mut (sender t) "AccountNotFound"
          (fun a => set_free_balance (u64 (free_balance a - amount)) a);
    to ← lift (to t);
    account_mut to "AccountNotFound" (fun a => set_free_balance (u64 (free_balance a + price t)) a).

(** [for (addr, state) in changes { states.insert(addr, state); }], in any order *)
Definition insert_changes (c : Changelist) : stM Exec anyhow unit :=
  modify (fun e => set_ex_accounts (account_changes c ∪ ex_accounts e) e).

(** Point the account of an application at the new root of its storage, and store it. *)
Definition set_app_root (app : Address) (c : Changelist) : stM Exec anyhow unit :=
  m ← gets ex_accounts;
  a ← lift (ok_or_else (m !! app ≫= app_state) "app state not found");
  account_mut app "app state not found" (set_app_state (Some (set_root_hash (root (storage c)) a))).
Definition store_app_data (app : Address) (c : Changelist) : stM Exec anyhow unit :=
  zoom ex_state set_ex_state
    (set_app_data {| app_address := app; app_root := root (storage c) |} (storage c)).

Section Vm.
Context `{WasmVMInstance}.

Definition tx_network (t : SignedTransaction) : Network := default Testnet (address_network (sender t)).

(** The methods that the descriptor of service.Registry lists
    (dapps/namespace-registry/proto/service.proto), and the search for one. *)
Definition registry_methods : list str :=
  [lit "Register"; lit "GetOwner"; lit "SetOwner"; lit "GetNamespace"].
Definition registry_method (name : str) : result anyhow str :=
  ok_or_else (List.find (fun m => bool_decide (m = name)) registry_methods)
    "GetOwner method not found in NameRegistry service".

(** dapps/builtin; the transaction is a [Create] *)
Definition register_namespace (t : SignedTransaction) (package_name : str) : stM Exec anyhow unit :=
  pkn ← lift (conv (fun _ => "invalid package name") (PackageName_parse package_name));
  app_id ← lift (conv (fun _ => "invalid package name")
                   (get_address_from_package_name nameregistry (tx_network t)));
  _ ← lift (registry_method (lit "RegisterNameSpace"));
  args ← lift (encode_namespace (organisation_id pkn) (sender t));
  s ← gets ex_state;
  changes ← lift (execute_app_tx s ADMIN 0 app_id (twox_64_hash (utf8 (lit "service.Registry")))
                    (twox_64_hash (utf8 (lit "/service.Registry/Register"))) args);
  _ ← insert_changes changes;
  _ ← set_app_root app_id changes;
  store_app_data app_id changes.

(** What [apply_transaction] does with the data of a transaction. *)
Definition apply_data (t : SignedTransaction) (d : TransactionData) : stM Exec anyhow unit :=
  match d with
  | Payment _ => execute_payment_tx t
  | Call app_id service method args =>
    app_address ← lift (to t);
    s ← gets ex_state;
    changelist ← lift (execute_app_tx s (sender t) (price t) app_id service method args);
    _ ← insert_changes changelist;
    _ ← set_app_root app_address changelist;
    store_app_data app_address changelist
  | Create package_name bin =>
    app_address ← lift (to t);
    s ← gets ex_state;
    existing ← lift (match trie_get_account (trie s) app_address with
                     | Ok o => Ok o | Err _ => Ok None | Panic => Panic end);
    if bool_decide (is_Some existing) then lift (bail "app address already exists")
    else
      _ ← register_namespace t package_name;
      let code_hash := keccak256 bin in
      s ← gets ex_state;
      '(desc, changelist) ← lift (execute_app_create s (sender t) (price t) package_name bin);
      _ ← insert_changes changelist;
      _ ← account_mut app_address "app state not found"
            (set_app_state (Some {| root_hash := root (storage changelist); code_hash := code_hash;
                                    creator := sender t; app_version := 1 |}));
      _ ← zoom ex_state set_ex_state (put_metadata code_hash {| binary := bin; descriptor := desc |});
      store_app_data app_address changelist
  | Update _ _ _ => lift Panic
  | RawData _ => mret tt
  end.

(** The nonce of an account after a transaction with nonce [n]. *)
Definition next_nonce (n current : Z) : Z := if current <? n then u64 (n + 1) else u64 (current + 1).

Definition apply_transaction (t : SignedTransaction) : stM Exec anyhow unit :=
  d ← lift (unwrap (data (tx t)));
  _ ← apply_data t d;
  account_mut (sender t) "AccountNotFound" (fun a => set_acc_nonce (next_nonce (tx_nonce t) (acc_nonce a)) a).

(** The loop that sorts the transactions of a block by sender and loads the
    accounts they touch; [load] reads an account. *)
Definition entry_account (load : Address -> result anyhow AccountState) (a : Address) (states : Accounts) :
    result anyhow Accounts :=
  match states !! a with
  | Some _ => Ok states
  | None => st ← load a; Ok (<[a := st]> states)
  end.
Fixpoint collect_txs (load : Address -> result anyhow AccountState) (txs : list SignedTransaction)
    (accounts : gmap Address TransactionsByNonceAndPrice) (states : Accounts) :
    result anyhow (gmap Address TransactionsByNonceAndPrice * Accounts) :=
  match txs with
  | [] => Ok (accounts, states)
  | t :: txs =>
    states ← entry_account load (sender t) states;
    to ← to t;
    states ← entry_account load to states;
    let l := default [] (accounts !! sender t) in
    collect_txs load txs (<[sender t := btree_insert nonce_price_cmp t l]> accounts) states
  end.

(** Senders by address, the transactions of each by nonce. *)
Definition execution_order (accounts : gmap Address TransactionsByNonceAndPrice) : list SignedTransaction :=
  concat (btree_entries accounts).*2.

(** Execute on a copy of the account map and return it. *)
Definition run_block (accounts : gmap Address TransactionsByNonceAndPrice) (states : Accounts) :
    stM State anyhow Accounts := fun s =>
  match for_each (execution_order accounts) apply_transaction {| ex_state := s; ex_accounts := states |} with
  | (Ok _, e) => (Ok (ex_accounts e), ex_state e)
  | (Err x, e) => (Err x, ex_state e)
  | (Panic, e) => (Panic, ex_state e)
  end.

(** Inherent [State::apply_txs] *)
Definition apply_txs (txs : list SignedTransaction) : stM State anyhow unit :=
  s ← gets (fun s => s);
  '(accounts, states) ← lift (collect_txs (get_account_state s) txs ∅ ∅);
  states ← run_block accounts states;
  for_each (btree_entries states) (fun '(acc, st) => put_account acc st).
(** [StateDB::apply_txs] *)
Definition StateDB_apply_txs (txs : list SignedTransaction) : stM State anyhow H256 :=
  _ ← apply_txs txs;
  s ← gets (fun s => s);
  lift (state_root_hash s).

Definition apply_txs_no_commit (at_root : H256) (reward : Z) (coinbase : Address)
    (txs : list SignedTransaction) : stM State anyhow H256 :=
  s ← gets (fun s => s);
  '(accounts, states) ← lift (collect_txs (get_account_state_at_root s at_root) txs ∅ ∅);
  states ← run_block accounts states;
  s ← gets (fun s => s);
  coinbase_account ← lift (match trie_get_at_root (trie s) at_root coinbase with
                           | Ok (Some a) => Ok a
                           | Panic => Panic
                           | _ => Ok AccountState_default
                           end);
  let batch := map (fun '(k, v) => OpPut k v) (btree_entries states) ++
    [OpPut coinbase (set_free_balance (u64 (free_balance coinbase_account + reward)) coinbase_account)] in
  zoom trie set_trie
    (TreeDB_apply_non_commit keccak256 codec_Address prost_AccountState hash_order at_root batch).

End Vm.
End State.
