(* ===== verification/StateProofs.v ===== *)
(** * Executing payments

    What a block does to the accounts it touches: the order of execution, each
    branch of a payment, and the coins in circulation. *)
From S2P Require Import Prelude Crypto Types Smt Codec SmtTree SmtProofs SmtTheorems TreeDb State.

(** ** Coins in circulation *)

Definition supply (m : Accounts) : Z := map_fold (fun _ a acc => free_balance a + acc) 0 m.

Lemma supply_delete m k a : m !! k = Some a -> supply m = free_balance a + supply (delete k m).
Proof.
  intros E. unfold supply.
  now rewrite (map_fold_delete_L (fun _ (a : AccountState) acc => free_balance a + acc) 0 k a m) by (auto; intros; lia).
Qed.
Lemma supply_insert m k a b :
  m !! k = Some a -> supply (<[k := b]> m) = supply m - free_balance a + free_balance b.
Proof.
  intros E. rewrite (supply_delete m k a E), (supply_delete (<[k := b]> m) k b) by apply lookup_insert_eq.
  rewrite delete_insert_eq. lia.
Qed.

(** Balances are 64-bit unsigned integers. *)
Definition wf_accounts (m : Accounts) : Prop := map_Forall (fun _ a => is_u 64 (free_balance a)) m.

Lemma supply_nonneg m : wf_accounts m -> 0 <= supply m.
Proof.
  induction m as [|k a m Hk IH] using map_ind; intros W; [reflexivity|].
  apply map_Forall_insert in W as [Ha W]; auto.
  rewrite (supply_delete _ k a) by apply lookup_insert_eq. rewrite delete_insert_id by auto.
  specialize (IH W). unfold is_u in Ha. lia.
Qed.
Lemma supply_ge m k a : wf_accounts m -> m !! k = Some a -> free_balance a <= supply m.
Proof.
  intros W E. rewrite (supply_delete m k a E).
  pose proof (supply_nonneg (delete k m) (map_Forall_delete _ _ _ W)). lia.
Qed.
Lemma supply_ge2 m k1 k2 a b :
  wf_accounts m -> k1 <> k2 -> m !! k1 = Some a -> m !! k2 = Some b ->
  free_balance a + free_balance b <= supply m.
Proof.
  intros W Hne E1 E2. rewrite (supply_delete m k1 a E1).
  pose proof (supply_ge (delete k1 m) k2 b (map_Forall_delete _ _ _ W) ltac:(now rewrite lookup_delete_ne)). lia.
Qed.

(** ** One payment *)

Section Payments.
Context `{CryptoPrims} `{Bincode} `{WasmVMInstance}.

Definition is_payment (t : SignedTransaction) : Prop := exists dst, data (tx t) = Some (Payment dst).
(** The amounts of a transaction add up within 64 bits. *)
Definition no_overflow (t : SignedTransaction) : Prop :=
  0 <= price t /\ 0 <= fees t /\ price t + fees t < 2 ^ 64.

Lemma to_payment {E} t dst : data (tx t) = Some (Payment dst) -> to (E:=E) t = Ok dst.
Proof. intros Hd. unfold to. now rewrite Hd. Qed.

Definition account_nonce_step (t : SignedTransaction) (a : AccountState) : AccountState :=
  set_acc_nonce (next_nonce (tx_nonce t) (acc_nonce a)) a.
Definition debited (t : SignedTransaction) (a : AccountState) : AccountState :=
  set_free_balance (u64 (free_balance a - u64 (price t + fees t))) a.
Definition credited (t : SignedTransaction) (a : AccountState) : AccountState :=
  set_free_balance (u64 (free_balance a + price t)) a.

Lemma account_mut_ok k err f e a :
  ex_accounts e !! k = Some a ->
  account_mut k err f e = (Ok tt, set_ex_accounts (alter f k (ex_accounts e)) e).
Proof.
  intros E. unfold account_mut. st_step reflexivity. st_step (unfold lift; rewrite E; reflexivity).
  unfold modify. do 2 f_equal. apply map_eq. intros i. destruct (decide (i = k)) as [->|Hne].
  - now rewrite lookup_insert_eq, lookup_alter_eq, E.
  - now rewrite lookup_insert_ne, lookup_alter_ne.
Qed.

(** The accounts a payment leaves behind. *)
Definition paid (t : SignedTransaction) (dst : Address) (m : Accounts) : Accounts :=
  alter (account_nonce_step t) (sender t) (alter (credited t) dst (alter (debited t) (sender t) m)).

Lemma apply_payment t dst e a b :
  data (tx t) = Some (Payment dst) -> ex_accounts e !! sender t = Some a -> ex_accounts e !! dst = Some b ->
  apply_transaction t e =
    if free_balance a <? u64 (price t + fees t) then (Err "InsufficientFunds", e)
    else (Ok tt, set_ex_accounts (paid t dst (ex_accounts e)) e).
Proof.
  intros Hd Ha Hb. unfold apply_transaction.
  st_step (unfold lift; rewrite Hd; reflexivity). cbn [apply_data].
  destruct (free_balance a <? u64 (price t + fees t)) eqn:Hlt.
  - unfold execute_payment_tx, mbind, stM_bind, gets, lift, ok_or_else. rewrite Ha. cbn. now rewrite Hlt.
  - assert (is_Some (alter (debited t) (sender t) (ex_accounts e) !! dst)) as [b' Hb'].
    { apply lookup_alter_is_Some. eauto. }
    assert (is_Some (alter (credited t) dst (alter (debited t) (sender t) (ex_accounts e)) !! sender t)) as [a' Ha'].
    { apply lookup_alter_is_Some, lookup_alter_is_Some. eauto. }
    st_step (unfold execute_payment_tx; st_step reflexivity;
      st_step (unfold lift; rewrite Ha; reflexivity); rewrite Hlt;
      st_step (apply (account_mut_ok _ _ _ _ a Ha));
      st_step (unfold lift; rewrite (to_payment _ _ Hd); reflexivity);
      apply (account_mut_ok _ _ _ _ b'); exact Hb').
    rewrite (account_mut_ok _ _ _ _ a') by exact Ha'. reflexivity.
Qed.

Lemma alter_insert_id (f : AccountState -> AccountState) (k : Address) (m : Accounts) a :
  m !! k = Some a -> alter f k m = <[k := f a]> m.
Proof.
  intros E. apply map_eq. intros i. destruct (decide (i = k)) as [->|Hne].
  - now rewrite lookup_insert_eq, lookup_alter_eq, E.
  - now rewrite lookup_insert_ne, lookup_alter_ne.
Qed.
Lemma supply_alter (f : AccountState -> AccountState) (k : Address) (m : Accounts) a :
  m !! k = Some a -> supply (alter f k m) = supply m - free_balance a + free_balance (f a).
Proof. intros E. rewrite (alter_insert_id f k m a E). now apply supply_insert. Qed.
Lemma wf_alter (f : AccountState -> AccountState) (k : Address) (m : Accounts) :
  wf_accounts m -> (forall a, is_u 64 (free_balance a) -> is_u 64 (free_balance (f a))) -> wf_accounts (alter f k m).
Proof.
  intros W Hf i a Hi. apply lookup_alter_Some in Hi as [(-> & b & Hb & ->)|[_ Hi]]; [apply Hf|]; eauto.
Qed.
Lemma wf_paid t dst m : wf_accounts m -> wf_accounts (paid t dst m).
Proof. intros W. repeat apply wf_alter; auto; intros a Ha; (exact Ha || (apply wrap_bound; lia)). Qed.

(** What a payment does to the coins in circulation, wherever the sums wrap. *)
Lemma supply_paid t dst m a b :
  m !! sender t = Some a -> m !! dst = Some b ->
  let a' := u64 (free_balance a - u64 (price t + fees t)) in
  let b0 := if decide (dst = sender t) then a' else free_balance b in
  supply (paid t dst m) = supply m - free_balance a + a' - b0 + u64 (b0 + price t).
Proof.
  intros Ha Hb a' b0. unfold paid.
  assert (alter (debited t) (sender t) m !! sender t = Some (debited t a)) as Ha1 by now rewrite lookup_alter_eq, Ha.
  assert (exists c, alter (debited t) (sender t) m !! dst = Some c /\ free_balance c = b0) as (c & Hc & Ec).
  { subst b0. case_decide as E; [subst dst; eauto|]. exists b. now rewrite lookup_alter_ne. }
  assert (exists d, alter (credited t) dst (alter (debited t) (sender t) m) !! sender t = Some d) as [d Hd].
  { destruct (decide (dst = sender t)) as [->|Hne].
    - rewrite lookup_alter_eq, Hc. simpl. eauto.
    - rewrite lookup_alter_ne, Ha1 by auto. eauto. }
  rewrite (supply_alter _ _ _ d Hd), (supply_alter _ _ _ c Hc), (supply_alter _ _ _ a Ha).
  cbn [account_nonce_step debited credited set_acc_nonce set_free_balance free_balance]. rewrite Ec. subst a'. lia.
Qed.

Lemma supply_paid_exact t dst m a b :
  wf_accounts m -> supply m < 2 ^ 64 -> no_overflow t ->
  m !! sender t = Some a -> m !! dst = Some b -> price t + fees t <= free_balance a ->
  supply (paid t dst m) = supply m - fees t.
Proof.
  intros W Hs (Hp & Hf & Hsum) Ha Hb Hle. rewrite (supply_paid t dst m a b Ha Hb).
  pose proof (W _ _ Ha) as Ua. pose proof (W _ _ Hb) as Ub. unfold is_u in Ua, Ub.
  rewrite (wrap_id 64 (price t + fees t)) by (unfold is_u; lia).
  rewrite (wrap_id 64 (free_balance a - (price t + fees t))) by (unfold is_u; lia).
  case_decide as E.
  - rewrite wrap_id by (unfold is_u; lia). lia.
  - assert (sender t <> dst) as E' by congruence. pose proof (supply_ge2 _ _ _ _ _ W E' Ha Hb).
    rewrite wrap_id by (unfold is_u; lia). lia.
Qed.

(** ** A block of payments *)

Definition sum_fees (l : list SignedTransaction) : Z := fold_right (fun t acc => fees t + acc) 0 l.

(** All accounts a transaction touches are loaded. *)
Definition loaded (m : Accounts) (t : SignedTransaction) : Prop :=
  is_Some (m !! sender t) /\ exists dst, data (tx t) = Some (Payment dst) /\ is_Some (m !! dst).
Lemma loaded_paid m t' t dst : loaded m t -> loaded (paid t' dst m) t.
Proof.
  intros [Hs (d & Hd & Hm)]. unfold loaded, paid. setoid_rewrite lookup_alter_is_Some.
  setoid_rewrite lookup_alter_is_Some. setoid_rewrite lookup_alter_is_Some. eauto.
Qed.

Lemma payments_supply l e e' :
  Forall (loaded (ex_accounts e)) l -> Forall no_overflow l ->
  wf_accounts (ex_accounts e) -> supply (ex_accounts e) < 2 ^ 64 ->
  for_each l apply_transaction e = (Ok tt, e') ->
  supply (ex_accounts e') = supply (ex_accounts e) - sum_fees l /\
  wf_accounts (ex_accounts e') /\ ex_state e' = ex_state e.
Proof.
  revert e. induction l as [|t l IH]; intros e Hl Ho W Hs; cbn [for_each sum_fees fold_right].
  { intros [= <-]. split; [lia | auto]. }
  inversion_clear Hl as [|? ? Ht0 Hl']. destruct Ht0 as [[a Ha] (dst & Hd & [b Hb])].
  inversion_clear Ho as [|? ? Ht Ho'].
  intros E. apply bind_st_inv in E as (u & e1 & E1 & E2). rewrite (apply_payment t dst e a b Hd Ha Hb) in E1.
  destruct (free_balance a <? u64 (price t + fees t)) eqn:Hlt; [discriminate|]. injection E1 as _ <-.
  apply Z.ltb_ge in Hlt. rewrite wrap_id in Hlt by (destruct Ht; unfold is_u; lia).
  pose proof (supply_paid_exact t dst _ a b W Hs Ht Ha Hb Hlt) as S1. destruct Ht as (Hp & Hf & _).
  destruct (IH (set_ex_accounts (paid t dst (ex_accounts e)) e)) as (S2 & W2 & St2); auto; cbn [ex_accounts set_ex_accounts ex_state] in *.
  - eapply Forall_impl; [|exact Hl']. intros t' Ht'. now apply loaded_paid.
  - now apply wf_paid.
  - lia.
  - fold (sum_fees l). split; [lia | auto].
Qed.

(** ** The order of execution *)

Lemma nonce_price_cmp_eq a b : nonce_price_cmp a b = Eq <-> tx_nonce a = tx_nonce b /\ price a = price b.
Proof.
  unfold nonce_price_cmp. destruct (Z.compare_spec (tx_nonce a) (tx_nonce b)); try (split; [discriminate | lia]).
  destruct (Z.compare_spec (price a) (price b)); simpl; split; try discriminate; try lia; auto.
Qed.
Lemma nonce_price_cmp_le a b :
  match nonce_price_cmp a b with
  | Lt => tx_nonce a <= tx_nonce b
  | Eq => True
  | Gt => tx_nonce b <= tx_nonce a
  end.
Proof.
  unfold nonce_price_cmp. destruct (Z.compare_spec (tx_nonce a) (tx_nonce b)); try lia.
  destruct (Z.compare_spec (price a) (price b)); simpl; auto; lia.
Qed.

Lemma btree_insert_in {A} (cmp : A -> A -> comparison) x l y :
  In y (btree_insert cmp x l) -> y = x \/ In y l.
Proof.
  induction l as [|z l IH]; simpl; [intuition congruence|]. destruct (cmp x z); simpl; intuition congruence.
Qed.
Lemma btree_insert_keep {A} (cmp : A -> A -> comparison) x l y : In y l -> In y (btree_insert cmp x l).
Proof. induction l as [|z l IH]; simpl; [tauto|]. destruct (cmp x z); simpl; intuition auto. Qed.
Lemma btree_insert_found {A} (cmp : A -> A -> comparison) x l :
  cmp x x = Eq -> exists y, In y (btree_insert cmp x l) /\ cmp x y = Eq.
Proof.
  intros Hx. induction l as [|z l [y [Hy Ey]]]; simpl; [eauto|].
  destruct (cmp x z) eqn:E; simpl; eauto.
Qed.
Definition nonce_le (a b : SignedTransaction) : Prop := tx_nonce a <= tx_nonce b.
Lemma btree_insert_sorted x l :
  StronglySorted nonce_le l -> StronglySorted nonce_le (btree_insert nonce_price_cmp x l).
Proof.
  induction 1 as [|z l Hs IH Hz]; simpl; [repeat constructor|].
  pose proof (nonce_price_cmp_le x z) as C. destruct (nonce_price_cmp x z) eqn:E.
  - now constructor.
  - constructor; [now constructor|]. constructor; [exact C|].
    eapply Forall_impl; [|exact Hz]. unfold nonce_le. lia.
  - constructor; auto. apply Forall_forall. intros y Hy. apply btree_insert_in in Hy as [->|Hy]; [exact C|].
    rewrite Forall_forall in Hz. auto.
Qed.

Abbreviation by_sender := (gmap Address TransactionsByNonceAndPrice).
Lemma collect_step load t txs acc st r :
  collect_txs load (t :: txs) acc st = Ok r -> exists st',
  collect_txs load txs
    (<[sender t := btree_insert nonce_price_cmp t (default [] (acc !! sender t))]> acc) st' = Ok r.
Proof.
  cbn [collect_txs]. destruct (entry_account load (sender t) st) as [st1|e|]; try discriminate.
  cbn [mbind result_bind]. destruct (to t) as [d|e|]; try discriminate. cbn [mbind result_bind].
  destruct (entry_account load d st1) as [st2|e|]; try discriminate. eauto.
Qed.

(** Every list holds transactions of its sender, from the block, by nonce. *)
Definition sorted_lists (txs : list SignedTransaction) (acc : by_sender) : Prop :=
  forall a l, acc !! a = Some l ->
    StronglySorted nonce_le l /\ forall t, In t l -> sender t = a /\ In t txs.
Lemma collect_sorted load txs all acc st acc' st' :
  collect_txs load txs acc st = Ok (acc', st') -> incl txs all -> sorted_lists all acc -> sorted_lists all acc'.
Proof.
  revert acc st. induction txs as [|t txs IH]; intros acc st E I Hs; [now injection E as <- <-|].
  destruct (collect_step _ _ _ _ _ _ E) as [st1 E1]. apply (IH _ _ E1); [now apply incl_cons_inv in I|].
  intros a l Hl. apply lookup_insert_Some in Hl as [[<- <-]|[_ Hl]]; [|now apply Hs].
  assert (StronglySorted nonce_le (default [] (acc !! sender t)) /\
    forall t', In t' (default [] (acc !! sender t)) -> sender t' = sender t /\ In t' all) as [H1' H2'].
  { destruct (acc !! sender t) as [l0|] eqn:E0; simpl; [now apply Hs|]. split; [constructor | intros t' []]. }
  split; [now apply btree_insert_sorted|]. intros t' Ht'.
  apply btree_insert_in in Ht' as [->|Ht']; auto. split; auto. apply I. now left.
Qed.

(** No transaction is lost, except to one with the same nonce and price. *)
Definition stands_for (acc : by_sender) (t : SignedTransaction) : Prop :=
  exists l t', acc !! sender t = Some l /\ In t' l /\ tx_nonce t = tx_nonce t' /\ price t = price t'.
Lemma collect_covers load txs acc st acc' st' t :
  collect_txs load txs acc st = Ok (acc', st') -> In t txs \/ stands_for acc t -> stands_for acc' t.
Proof.
  revert acc st. induction txs as [|x txs IH]; intros acc st E Ht.
  - injection E as <- <-. now destruct Ht as [[]|].
  - destruct (collect_step _ _ _ _ _ _ E) as [st1 E1]. apply (IH _ _ E1).
    destruct Ht as [[->|Ht]|Ht]; auto; right.
    + destruct (btree_insert_found nonce_price_cmp t (default [] (acc !! sender t))) as (y & Hy & Ey).
      { now apply nonce_price_cmp_eq. }
      apply nonce_price_cmp_eq in Ey as [En Ep]. eexists _, y. rewrite lookup_insert_eq. eauto.
    + destruct Ht as (l & t' & Hl & Hin & Hn & Hp). destruct (decide (sender x = sender t)) as [E'|Hne].
      * eexists _, t'. rewrite E', lookup_insert_eq. split; [reflexivity|]. rewrite <- E', E', Hl. simpl.
        split; auto. now apply btree_insert_keep.
      * exists l, t'. now rewrite lookup_insert_ne.
Qed.

Lemma execution_order_in acc t : In t (execution_order acc) <-> exists a l, acc !! a = Some l /\ In t l.
Proof.
  unfold execution_order. rewrite in_concat. split.
  - intros (l & Hl & Ht). apply list_elem_of_In, list_elem_of_fmap in Hl as ([a l'] & -> & Hin).
    apply list_elem_of_In, btree_entries_lookup in Hin. eauto.
  - intros (a & l & Hl & Ht). exists l. split; auto. apply list_elem_of_In, list_elem_of_fmap.
    exists (a, l). split; auto. now apply list_elem_of_In, btree_entries_lookup.
Qed.

Lemma entry_account_spec load a st st' :
  entry_account load a st = Ok st' -> is_Some (st' !! a) /\ forall b, is_Some (st !! b) -> is_Some (st' !! b).
Proof.
  unfold entry_account. destruct (st !! a) eqn:E; [intros [= <-]; eauto|].
  destruct (load a) as [x|e|]; try discriminate. intros [= <-]. split.
  - rewrite lookup_insert_eq. eauto.
  - intros b Hb. destruct (decide (a = b)) as [->|Hne]; [rewrite lookup_insert_eq; eauto|].
    now rewrite lookup_insert_ne.
Qed.
Lemma collect_loaded load txs acc st acc' st' :
  collect_txs load txs acc st = Ok (acc', st') ->
  (forall b, is_Some (st !! b) -> is_Some (st' !! b)) /\
  forall t, In t txs -> is_payment t -> loaded st' t.
Proof.
  revert acc st. induction txs as [|t txs IH]; intros acc st; cbn [collect_txs].
  { intros [= <- <-]. split; auto. intros t []. }
  destruct (entry_account load (sender t) st) as [st1|e|] eqn:E1; try discriminate. cbn [mbind result_bind].
  destruct (to t) as [d|e|] eqn:Ed; try discriminate. cbn [mbind result_bind].
  destruct (entry_account load d st1) as [st2|e|] eqn:E2; try discriminate. cbn [mbind result_bind].
  intros E. apply IH in E as [K L]. apply entry_account_spec in E1 as [F1 K1], E2 as [F2 K2].
  split; [auto|]. intros t' [<-|Hin] Hp; [|now apply L]. destruct Hp as [dst Hd].
  rewrite (to_payment _ _ Hd) in Ed. injection Ed as <-. split; [auto|]. eauto.
Qed.

(** ** The order of execution *)

(** By address of the sender, then by nonce, then by decreasing price. *)
Definition runs_before (a b : SignedTransaction) : Prop :=
  bytes_cmp (sender a) (sender b) = Lt \/ sender a = sender b /\ nonce_price_cmp a b = Lt.

Lemma nonce_price_cmp_lt a b :
  nonce_price_cmp a b = Lt <-> tx_nonce a < tx_nonce b \/ tx_nonce a = tx_nonce b /\ price b < price a.
Proof.
  unfold nonce_price_cmp. destruct (Z.compare_spec (tx_nonce a) (tx_nonce b)); [|split; [lia|easy]|split; [easy|lia]].
  destruct (Z.compare_spec (price a) (price b)); simpl; split; try easy; lia.
Qed.
Lemma nonce_price_cmp_trans a b c :
  nonce_price_cmp a b = Lt -> nonce_price_cmp b c = Lt -> nonce_price_cmp a c = Lt.
Proof. rewrite !nonce_price_cmp_lt. lia. Qed.
Lemma nonce_price_cmp_gt a b : nonce_price_cmp a b = Gt -> nonce_price_cmp b a = Lt.
Proof.
  unfold nonce_price_cmp. rewrite (Z.compare_antisym (tx_nonce a)), (Z.compare_antisym (price a)).
  destruct (tx_nonce a ?= tx_nonce b), (price a ?= price b); easy.
Qed.
Abbreviation nonce_lt := (fun a b => nonce_price_cmp a b = Lt).
Lemma btree_insert_increasing x l :
  StronglySorted nonce_lt l -> StronglySorted nonce_lt (btree_insert nonce_price_cmp x l).
Proof.
  induction 1 as [|z l Hs IH Hz]; simpl; [repeat constructor|]. destruct (nonce_price_cmp x z) eqn:E.
  - now constructor.
  - constructor; [now constructor|]. constructor; [exact E|].
    eapply Forall_impl; [|exact Hz]. intros y Hy. exact (nonce_price_cmp_trans _ _ _ E Hy).
  - constructor; auto. apply List.Forall_forall. intros y Hy. apply btree_insert_in in Hy as [->|Hy]; [now apply nonce_price_cmp_gt|].
    rewrite List.Forall_forall in Hz. auto.
Qed.
Lemma collect_increasing load txs acc st acc' st' :
  collect_txs load txs acc st = Ok (acc', st') ->
  map_Forall (fun _ l => StronglySorted nonce_lt l) acc -> map_Forall (fun _ l => StronglySorted nonce_lt l) acc'.
Proof.
  revert acc st. induction txs as [|t txs IH]; intros acc st E Hs; [now injection E as <- <-|].
  destruct (collect_step _ _ _ _ _ _ E) as [st1 E1]. apply (IH _ _ E1), map_Forall_insert_2; auto.
  apply btree_insert_increasing. destruct (acc !! sender t) as [l|] eqn:El; [exact (Hs _ _ El)|constructor].
Qed.
Lemma concat_sorted entries :
  StronglySorted (fun a b : Address * TransactionsByNonceAndPrice => bytes_cmp a.1 b.1 = Lt) entries ->
  Forall (fun e => StronglySorted nonce_lt e.2 /\ forall t, In t e.2 -> sender t = e.1) entries ->
  StronglySorted runs_before (concat entries.*2).
Proof.
  induction 1 as [|[a l] entries Hs IH Hx]; intros Hf; [constructor|]. inversion_clear Hf as [|? ? [Hl Ha] Hf'].
  rewrite List.Forall_forall in Hx. pose proof Hf' as Hf. rewrite List.Forall_forall in Hf'.
  cbn [fmap list_fmap concat snd fst] in *. apply StronglySorted_app_2; [| |now apply IH].
  - intros x1 x2 I1 I2. apply list_elem_of_In in I1, I2. apply in_concat in I2 as (l2 & Hl2 & I2).
    apply list_elem_of_In, list_elem_of_fmap in Hl2 as ([b l2'] & -> & Hin). apply list_elem_of_In in Hin.
    left. rewrite (Ha _ I1), (proj2 (Hf' _ Hin) _ I2). exact (Hx _ Hin).
  - clear -Hl Ha. induction Hl as [|x l Hl IH Hx]; constructor; [apply IH; intros t Ht; apply Ha; now right|].
    apply List.Forall_forall. intros y Hy. right. rewrite List.Forall_forall in Hx. split; [|now apply Hx].
    rewrite (Ha x), (Ha y); [reflexivity|now right|now left].
Qed.

Lemma runs_before_irrefl t : ~ runs_before t t.
Proof.
  assert (nonce_price_cmp t t = Eq) as E by (unfold nonce_price_cmp; now rewrite !Z.compare_refl).
  intros [Hb|[_ Hb]]; [|congruence]. now rewrite bytes_cmp_refl in Hb.
Qed.
Lemma sorted_NoDup l : StronglySorted runs_before l -> NoDup l.
Proof.
  induction 1 as [|x l Hs IH Hx]; constructor; auto. rewrite list_elem_of_In. intros Hin.
  rewrite List.Forall_forall in Hx. exact (runs_before_irrefl x (Hx x Hin)).
Qed.

(** What two transactions of a sender are told apart by. *)
Definition tx_key (t : SignedTransaction) : Address * Z * Z := (sender t, tx_nonce t, price t).
Lemma tx_key_inj txs t t' :
  NoDup (map tx_key txs) -> In t txs -> In t' txs -> tx_key t = tx_key t' -> t = t'.
Proof.
  induction txs as [|x txs IH]; [easy|]. intros Hnd Ht Ht' Hk. inversion_clear Hnd as [|? ? Hx Hnd'].
  rewrite list_elem_of_In in Hx. destruct Ht as [<-|Ht], Ht' as [<-|Ht']; auto.
  - destruct Hx. rewrite Hk. now apply in_map.
  - destruct Hx. rewrite <- Hk. now apply in_map.
Qed.
Lemma sum_fees_Permutation l l' : Permutation l l' -> sum_fees l = sum_fees l'.
Proof. unfold sum_fees. induction 1; cbn [fold_right]; lia. Qed.

(** ** Theorems *)

Lemma execution_sound load txs accounts states :
  collect_txs load txs ∅ ∅ = Ok (accounts, states) ->
  (forall t, In t (execution_order accounts) -> In t txs) /\
  (forall t, In t txs -> exists t', In t' (execution_order accounts) /\ tx_key t' = tx_key t) /\
  StronglySorted runs_before (execution_order accounts).
Proof.
  intros E. assert (sorted_lists txs accounts) as Hs.
  { apply (collect_sorted _ _ _ _ _ _ _ E (incl_refl _)). intros a l Hl. discriminate Hl. }
  split; [|split].
  - intros t Ht. apply execution_order_in in Ht as (a & l & Hl & Ht). now apply (proj2 (Hs a l Hl)).
  - intros t Ht. destruct (collect_covers _ _ _ _ _ _ t E (or_introl Ht)) as (l & t' & Hl & Hin & Hn & Hp).
    exists t'. rewrite execution_order_in. split; [eauto|]. unfold tx_key. rewrite Hn, Hp.
    now rewrite (proj1 (proj2 (Hs _ l Hl) t' Hin)).
  - apply concat_sorted; [apply btree_entries_increasing|]. apply List.Forall_forall. intros [a l] Hin.
    apply btree_entries_lookup in Hin. cbn [fst snd]. split; [|intros t Ht; now apply (proj2 (Hs a l Hin))].
    exact (collect_increasing _ _ _ _ _ _ E (map_Forall_empty _) a l Hin).
Qed.

(** C17 The order in which a block is executed: its transactions run by
    increasing address of the sender, those of one sender by increasing nonce,
    and those with the same nonce by decreasing price; only transactions of the
    block run, and each does unless another of the same sender with the same
    nonce and price runs.  This determines the order. *)
Theorem block_order load txs accounts states :
  collect_txs load txs ∅ ∅ = Ok (accounts, states) ->
  (forall t, In t (execution_order accounts) -> In t txs) /\
  (forall t, In t txs -> exists t', In t' (execution_order accounts) /\
     sender t' = sender t /\ tx_nonce t' = tx_nonce t /\ price t' = price t) /\
  StronglySorted runs_before (execution_order accounts).
Proof.
  intros E. destruct (execution_sound _ _ _ _ E) as (O1 & O2 & O3). split; [exact O1|]. split; [|exact O3].
  intros t Ht. destruct (O2 t Ht) as (t' & Hin & [= ? ? ?]). eauto.
Qed.

(** C18 Executing a block of payments neither creates nor destroys coins: the
    accounts it touched hold together what they held before less the fees of the
    transactions executed, which go to no account; the state is not changed.  When no
    two transactions of the block have the same sender, nonce and price these are
    the fees of the whole block.  Assumed: value and fee of each payment fit
    together in 64 bits, and so do the balances of all accounts touched. *)
Theorem block_supply load txs accounts states states' s s' :
  collect_txs load txs ∅ ∅ = Ok (accounts, states) ->
  Forall is_payment txs -> Forall no_overflow txs -> wf_accounts states -> supply states < 2 ^ 64 ->
  run_block accounts states s = (Ok states', s') ->
  supply states' = supply states - sum_fees (execution_order accounts) /\ wf_accounts states' /\ s' = s /\
  (NoDup (map tx_key txs) -> supply states' = supply states - sum_fees txs).
Proof.
  intros E Hp Ho W Hs. destruct (execution_sound _ _ _ _ E) as (Hin & Hcov & Hsort). unfold run_block.
  destruct (for_each _ _ _) as [[u|e|] e'] eqn:Ef; try discriminate. intros [= <- <-]. destruct u.
  rewrite Forall_forall in Hp, Ho. destruct (collect_loaded _ _ _ _ _ _ E) as [_ L].
  apply payments_supply in Ef as (E1 & E2 & E3); auto; try (apply Forall_forall; intros t Ht; auto).
  split; [exact E1|]. split; [exact E2|]. split; [exact E3|]. intros Hnd.
  rewrite (sum_fees_Permutation txs (execution_order accounts)); [exact E1|].
  apply NoDup_Permutation; [exact (NoDup_fmap_1 _ _ Hnd) | exact (sorted_NoDup _ Hsort)|].
  intros t. rewrite !list_elem_of_In. split; [|apply Hin]. intros Ht. destruct (Hcov t Ht) as (t' & Ht' & Hk).
  assert (t' = t) as <-; [|exact Ht'].
  apply (tx_key_inj txs); auto.
Qed.

(** The amount of a payment is added in 64 bits: when value and fee overflow,
    a sender that can pay the wrapped sum pays only that, the recipient receives
    the whole value, and [2^64 - fee] coins are created. *)
Theorem payment_overflow_mints t dst e a b :
  data (tx t) = Some (Payment dst) -> dst <> sender t ->
  ex_accounts e !! sender t = Some a -> ex_accounts e !! dst = Some b ->
  is_u 64 (price t) -> is_u 64 (fees t) -> 2 ^ 64 <= price t + fees t ->
  is_u 64 (free_balance a) -> price t + fees t - 2 ^ 64 <= free_balance a ->
  0 <= free_balance b -> free_balance b + price t < 2 ^ 64 ->
  exists e', apply_transaction t e = (Ok tt, e') /\
    supply (ex_accounts e') = supply (ex_accounts e) + 2 ^ 64 - fees t.
Proof.
  intros Hd Hne Ha Hb Up Uf Hov Ua Hle Hb0 Hb1. unfold is_u in *.
  assert (u64 (price t + fees t) = price t + fees t - 2 ^ 64) as Ew.
  { unfold wrap. rewrite (Z.mod_eq _ (2 ^ 64)) by lia.
    replace ((price t + fees t) / 2 ^ 64) with 1; [lia|]. apply (Z.div_unique _ _ _ (price t + fees t - 2 ^ 64)); lia. }
  rewrite (apply_payment t dst e a b Hd Ha Hb), Ew. rewrite (proj2 (Z.ltb_ge _ _)) by lia.
  eexists. split; [reflexivity|]. cbn [ex_accounts set_ex_accounts].
  rewrite (supply_paid t dst _ a b Ha Hb), Ew. rewrite decide_False by auto.
  rewrite !wrap_id by (unfold is_u; lia). lia.
Qed.

(** Nothing stops a payment from being executed again: once executed, the
    same transaction executes a second time whenever the balance of its sender
    still covers it, whatever the nonces of the sender and of the transaction. *)
Theorem payment_replays t e e' a' :
  is_payment t -> loaded (ex_accounts e) t ->
  apply_transaction t e = (Ok tt, e') -> ex_accounts e' !! sender t = Some a' ->
  u64 (price t + fees t) <= free_balance a' ->
  exists e'', apply_transaction t e' = (Ok tt, e'').
Proof.
  intros _ [[a Ha] (dst & Hd & [b Hb])] E Ha' Hle. rewrite (apply_payment t dst e a b Hd Ha Hb) in E.
  destruct (_ <? _); [discriminate|]. injection E as <-.
  assert (loaded (ex_accounts (set_ex_accounts (paid t dst (ex_accounts e)) e)) t) as (_ & dst' & Hd' & [b' Hb'])
    by (apply loaded_paid; split; eauto).
  rewrite (apply_payment t dst' _ a' b' Hd' Ha' Hb'). rewrite (proj2 (Z.ltb_ge _ _)) by exact Hle. eauto.
Qed.

(** Two transactions of one sender with the same nonce and value, whatever
    their recipients and fees, do not both execute: the second is left out of
    the block without an error. *)
Theorem same_nonce_price_dropped load t1 t2 accounts states :
  sender t1 = sender t2 -> tx_nonce t1 = tx_nonce t2 -> price t1 = price t2 ->
  collect_txs load [t1; t2] ∅ ∅ = Ok (accounts, states) -> execution_order accounts = [t1].
Proof.
  intros Hs Hn Hp E. destruct (collect_step _ _ _ _ _ _ E) as [st1 E1].
  destruct (collect_step _ _ _ _ _ _ E1) as [st2 E2]. cbn [collect_txs] in E2. injection E2 as <- _.
  rewrite <- Hs, lookup_empty, insert_insert_eq, lookup_insert_eq. cbn [default btree_insert id].
  rewrite (proj2 (nonce_price_cmp_eq t2 t1)) by auto.
  unfold execution_order, btree_entries. rewrite insert_empty, map_to_list_singleton. reflexivity.
Qed.

End Payments.

(** ** Witnesses *)

#[local] Instance demo_vm : WasmVMInstance := {|
  execute_app_create _ _ _ _ _ := Err "no machine";
  execute_app_tx _ _ _ _ _ _ _ := Err "no machine";
  encode_namespace _ _ := Err "no machine";
  twox_64_hash _ := 0;
|}.
Definition demo_tx (n p f : Z) (dst : Address) : SignedTransaction := {|
  tx := {| nonce := n; tx_chain_id := 1; genesis_hash := H256_zero; fee := f; value := p;
           data := Some (Payment dst) |};
  sig_r := H256_zero; sig_s := H256_zero; sig_v := 0 |}.
Definition demo_dst (n : Z) : Address := n :: repeat 0 43.
Definition demo_state : State := {|
  trie := demo_open; appdata := KvDB_open ∅ false; metadata := KvDB_open ∅ false; read_only := false |}.
Definition demo_load (_ : Address) : result anyhow AccountState := Ok (set_free_balance 100 AccountState_new).
Definition demo_txs : list SignedTransaction :=
  [demo_tx 2 10 1 (demo_dst 1); demo_tx 1 5 2 (demo_dst 2); demo_tx 2 10 3 (demo_dst 3)].
Definition demo_collected := ok_default (∅, ∅) (collect_txs demo_load demo_txs ∅ ∅).
Definition demo_exec : Exec := {| ex_state := demo_state; ex_accounts := demo_collected.2 |}.

Lemma demo_collected_ok : collect_txs demo_load demo_txs ∅ ∅ = Ok (demo_collected.1, demo_collected.2).
Proof. apply ok_default_pair. vm_compute. reflexivity. Qed.

Lemma block_order_witness :
  (forall t, In t (execution_order demo_collected.1) -> In t demo_txs) /\
  (forall t, In t demo_txs -> exists t', In t' (execution_order demo_collected.1) /\
     sender t' = sender t /\ tx_nonce t' = tx_nonce t /\ price t' = price t) /\
  StronglySorted runs_before (execution_order demo_collected.1).
Proof. exact (block_order demo_load demo_txs _ _ demo_collected_ok). Defined.

Abbreviation demo_run := (run_block demo_collected.1 demo_collected.2 demo_state).
Lemma block_supply_witness : supply (ok_default ∅ demo_run.1) = 397.
Proof.
  assert (demo_run = (Ok (ok_default ∅ demo_run.1), demo_run.2)) as E.
  { rewrite <- (ok_default_eq ∅ demo_run.1) by (vm_compute; reflexivity). apply surjective_pairing. }
  refine (eq_trans (proj1 (block_supply demo_load demo_txs demo_collected.1 demo_collected.2
    (ok_default ∅ demo_run.1) demo_state demo_run.2 demo_collected_ok _ _ _ _ E)) _).
  - repeat constructor; eexists; reflexivity.
  - repeat constructor; vm_compute; congruence.
  - apply (bool_decide_unpack _). vm_compute. exact Logic.I.
  - vm_compute. reflexivity.
  - vm_compute. reflexivity.
Defined.

Definition demo_big : SignedTransaction := demo_tx 1 (2 ^ 64 - 200) 250 (demo_dst 1).
Definition demo_big_exec : Exec := {| ex_state := demo_state;
  ex_accounts := <[sender demo_big := set_free_balance 60 AccountState_new]>
                 {[ demo_dst 1 := set_free_balance 10 AccountState_new ]} |}.
Lemma payment_overflow_mints_witness :
  exists e', apply_transaction demo_big demo_big_exec = (Ok tt, e') /\
    supply (ex_accounts e') = supply (ex_accounts demo_big_exec) + 2 ^ 64 - fees demo_big.
Proof.
  apply (payment_overflow_mints demo_big (demo_dst 1) demo_big_exec
    (set_free_balance 60 AccountState_new) (set_free_balance 10 AccountState_new));
    vm_compute; try reflexivity; try congruence; split; congruence.
Defined.
Lemma payment_replays_witness :
  exists e'', apply_transaction (demo_tx 1 5 2 (demo_dst 2))
    (apply_transaction (demo_tx 1 5 2 (demo_dst 2)) demo_exec).2 = (Ok tt, e'').
Proof.
  destruct (ex_accounts (apply_transaction (demo_tx 1 5 2 (demo_dst 2)) demo_exec).2
    !! sender (demo_tx 1 5 2 (demo_dst 2))) as [a'|] eqn:E; [|exfalso; vm_compute in E; discriminate E].
  apply (payment_replays (demo_tx 1 5 2 (demo_dst 2)) demo_exec _ a').
  - eexists. reflexivity.
  - split; [apply (bool_decide_unpack _); vm_compute; exact Logic.I|]. eexists. split; [reflexivity|].
    apply (bool_decide_unpack _). vm_compute. exact Logic.I.
  - rewrite (surjective_pairing (apply_transaction _ _)) at 1. f_equal.
  - exact E.
  - vm_compute in E. injection E as <-. vm_compute. congruence.
Defined.
Definition demo_twin1 : SignedTransaction := demo_tx 2 10 1 (demo_dst 1).
Definition demo_twin2 : SignedTransaction := demo_tx 2 10 3 (demo_dst 3).
Lemma demo_twins_sender : sender demo_twin1 = sender demo_twin2.
Proof. vm_compute. reflexivity. Qed.
Lemma demo_twins_ok : is_ok (collect_txs demo_load [demo_twin1; demo_twin2] ∅ ∅) = true.
Proof. vm_compute. reflexivity. Qed.
Lemma same_nonce_price_dropped_witness :
  execution_order (ok_default (∅, ∅) (collect_txs demo_load [demo_twin1; demo_twin2] ∅ ∅)).1 = [demo_twin1].
Proof.
  exact (same_nonce_price_dropped demo_load demo_twin1 demo_twin2 _ _ demo_twins_sender eq_refl eq_refl
    (ok_default_pair (∅, ∅) _ demo_twins_ok)).
Defined.
