(* ===== verification/Chain.v ===== *)
(** * The chain

    [finalize] of the consensus (consensus/src/barossa.rs) and [ChainState]
    (blockchain/src/chain_state.rs): the genesis, the checks a block passes,
    how it is applied to the head or to another branch, and [put_chain].  The
    WebAssembly machine and the transaction pool are interfaces; the clock
    gives the time at which each block is verified. *)
From S2P Require Import Prelude Crypto Types Consensus Smt Codec SmtTree SmtProofs SmtTheorems TreeDb Storage State.

(** Loading and creating applications at start-up, and the pool that is told
    about a new head. *)
Class ChainServices := {
  load_application : State -> Address -> result anyhow unit;
  create_application : State -> Address -> Address -> Z -> bytes -> result anyhow (bytes * Changelist);
  TxPool : Type;
  repack : State -> MemStore -> option BlockHeader -> BlockHeader -> TxPool -> result anyhow unit * TxPool;
}.

(** [events]: what was sent to the node, [None] when the receiver is gone. *)
Record ChainState := { cs_state : State; cs_store : MemStore; cs_events : option (list BlockHeader) }.
Definition set_cs_state (s : State) (c : ChainState) : ChainState :=
  {| cs_state := s; cs_store := cs_store c; cs_events := cs_events c |}.
Definition set_cs_store (s : MemStore) (c : ChainState) : ChainState :=
  {| cs_state := cs_state c; cs_store := s; cs_events := cs_events c |}.
Definition set_cs_events (e : option (list BlockHeader)) (c : ChainState) : ChainState :=
  {| cs_state := cs_state c; cs_store := cs_store c; cs_events := e |}.

Definition ROOT : Address := ADMIN.

Definition set_roots (h : BlockHeader) (state_root_ tx_root_ : H256) : BlockHeader :=
  {| parent_hash := parent_hash h; receipt_hash := receipt_hash h; tx_root := tx_root_;
     state_root := state_root_; mix_nonce := mix_nonce h; coinbase := coinbase h;
     difficulty := difficulty h; header_chain_id := header_chain_id h; level := level h;
     time := time h; header_nonce := header_nonce h |}.
Definition set_state_root (h : BlockHeader) (r : H256) : BlockHeader := set_roots h r (tx_root h).

Section Chain.
Context `{CryptoPrims} `{Bincode} `{ChainCodecs} `{WasmVMInstance} `{ChainServices}.
(** The order in which a [HashMap] is iterated. *)
Variable hash_order : Column -> list (bytes * bytes).
Variable network : Network.
Variable clock : BlockHeader -> Z.

(** ** finalize (barossa.rs) *)

(** The tree of the hashes of the transactions of a block. *)
Definition tx_merkle (txs : list SignedTransaction) : result anyhow SparseMerkleTree :=
  exec (for_each txs (fun t => _ ← tree_update keccak256 (tx_hash t) (tx_hash t); mret tt)) smt_new.

(** What a block does to a state: run its transactions, pay the miner, commit. *)
Definition apply_block {A} (run : stM State anyhow A) (miner : Address) (lvl : Z) : stM State anyhow unit :=
  _ ← run;
  _ ← credit_balance miner (Barossa_miner_reward lvl);
  State_commit.

Definition finalize (h : BlockHeader) (txs : list SignedTransaction) : stM State anyhow BlockHeader :=
  merkle ← lift (tx_merkle txs);
  _ ← apply_block (StateDB_apply_txs txs) (coinbase h) (level h);
  s ← gets (fun s => s);
  r ← lift (State_root s);
  mret (set_roots h r (root merkle)).
Definition finalize_and_assemble (h : BlockHeader) (txs : list SignedTransaction) : stM State anyhow (option Block) :=
  h ← finalize h txs;
  mret (Some {| header := h; transactions := txs |}).

(** ** ChainState *)

Definition current_header (c : ChainState) : result anyhow (option IndexedBlockHeader) :=
  o ← get_current_header (cs_store c);
  Ok (option_map indexed o).
Definition chain_genesis (c : ChainState) : result anyhow IndexedBlockHeader :=
  match BS_get_header_by_level (cs_store c) 0 with Ok (Some g) => Ok g | _ => Panic end.
Definition chain_network : Network := network.
Definition get_state_at (c : ChainState) (r : H256) : result anyhow State := get_sate_at (cs_state c) r.

Definition write_state {A} : stM State anyhow A -> stM ChainState anyhow A := zoom cs_state set_cs_state.
Definition write_store {A} : stM MemStore anyhow A -> stM ChainState anyhow A := zoom cs_store set_cs_store.

(** [self.sender.send(..)?] *)
Definition send_event (h : BlockHeader) : stM ChainState anyhow unit :=
  e ← gets cs_events;
  match e with
  | Some l => modify (set_cs_events (Some (l ++ [h])))
  | None => lift (Err "channel closed")
  end.

(** [new] when there is a head *)
Fixpoint load_applications (s : State) (built_in : list (str * bytes)) : result anyhow unit :=
  match built_in with
  | [] => Ok tt
  | (pkn, _) :: rest =>
    a ← conv (fun _ => "invalid package name"%string) (get_address_from_package_name pkn network);
    _ ← load_application s a;
    load_applications s rest
  end.
Definition restore (head : BlockHeader) (built_in : list (str * bytes)) : stM ChainState anyhow unit :=
  _ ← write_state (State_reset (state_root head));
  s ← gets cs_state;
  lift (load_applications s built_in).

(** [new] when there is none *)
Definition create_builtin (app : str * bytes) : stM Exec anyhow unit :=
  let '(pkn, binary) := app in
  app_address ← lift (conv (fun _ => "invalid package name"%string) (get_address_from_package_name pkn network));
  s ← gets ex_state;
  '(descriptor, changelist) ← lift (create_application s ROOT app_address 0 binary);
  let code_hash := keccak256 binary in
  _ ← insert_changes changelist;
  _ ← account_mut app_address "app state not found"
        (set_app_state (Some {| root_hash := root (storage changelist); code_hash := code_hash;
                                creator := ROOT; app_version := 1 |}));
  _ ← store_app_data app_address changelist;
  zoom ex_state set_ex_state (set_app_metadata binary descriptor).
Definition create_builtins (built_in : list (str * bytes)) : stM State anyhow Accounts := fun s =>
  match for_each built_in create_builtin {| ex_state := s; ex_accounts := ∅ |} with
  | (Ok _, e) => (Ok (ex_accounts e), ex_state e)
  | (Err x, e) => (Err x, ex_state e)
  | (Panic, e) => (Panic, ex_state e)
  end.
(** The order of the accounts is that of a [HashMap]. *)
Definition start (account_order : Accounts -> list (Address * AccountState)) (built_in : list (str * bytes)) :
    stM ChainState anyhow unit :=
  genesis ← lift (get_genesis_header network);
  _ ← write_state (credit_balance Address_default 1000000000000);
  states ← write_state (create_builtins built_in);
  _ ← write_state (for_each (account_order states) (fun '(a, st) => _ ← set_account_state a st; mret tt));
  _ ← write_state State_commit;
  s ← gets cs_state;
  r ← lift (State_root s);
  let genesis := set_state_root genesis r in
  _ ← write_store (BlockStorage_put {| header := genesis; transactions := [] |});
  write_store (set_current_header genesis).
Definition ChainState_new (account_order : Accounts -> list (Address * AccountState)) (built_in : list (str * bytes)) :
    stM ChainState anyhow unit :=
  c ← gets (fun c => c);
  o ← lift (get_current_header (cs_store c));
  match o with
  | Some current_head => restore current_head built_in
  | None => start account_order built_in
  end.

(** ** Accepting blocks *)

(** The header a block has to have.  The state is opened again read-only at the
    parent: nothing is changed. *)
Definition expected_header (c : ChainState) (b : Block) : result anyhow BlockHeader :=
  h ← prepare_header network (chain_reader (cs_store c)) (header b);
  o ← BS_get_header_by_hash (cs_store c) (parent_hash (header b));
  parent_header ← ok_or_else o "error processing block parent block not found";
  parent_state ← get_state_at c (state_root (raw parent_header));
  (finalize h (transactions b) parent_state).1.
Definition process_block (c : ChainState) (b : Block) : result anyhow Block :=
  h ← expected_header c b;
  _ ← conv (fun _ => "FailedToVerifyHeader"%string)
        (verify_header network (chain_reader (cs_store c)) (clock h) h);
  if bool_decide (header_hash h = block_hash b) then Ok b else Err "InvalidBlock"%string.

Definition accept_on_head (b : Block) : stM ChainState anyhow unit :=
  _ ← write_state (apply_block (apply_txs (transactions b)) (coinbase (header b)) (level (header b)));
  _ ← write_store (set_current_header (header b));
  c ← gets (fun c => c);
  o ← lift (match current_header c with Ok (Some h) => Ok h | _ => Panic end);
  send_event (raw o).
(** Whether the head changed. *)
Definition accept_on_branch (current_head : IndexedBlockHeader) (b : Block) : stM ChainState anyhow bool :=
  c ← gets (fun c => c);
  o ← lift (BS_get_header_by_hash (cs_store c) (parent_hash (header b)));
  parent_header ← lift (ok_or_else o "error accepting block non commit");
  commit_state ← write_state (apply_txs_no_commit hash_order (state_root (raw parent_header))
                    (Barossa_miner_reward (level (header b))) (coinbase (header b)) (transactions b));
  if negb (bool_decide (commit_state = state_root (header b))) then lift (bail "Invalid or Corrupt Block")
  else if level (raw current_head) <? level (header b) then
    _ ← write_state (State_reset (state_root (header b)));
    _ ← write_store (set_current_header (header b));
    mret true
  else mret false.
(** Whether to tell the pool, whether to store the block. *)
Definition accept_block (b : Block) : stM ChainState anyhow (bool * bool * Block) :=
  c ← gets (fun c => c);
  o ← lift (current_header c);
  current_head ← lift (ok_or_else o "failed to load current head, state invalid");
  repack ←
    (if bool_decide (parent_hash (header b) = ih_hash current_head) then
       _ ← accept_on_head b; mret true
     else accept_on_branch current_head b);
  mret (repack, true, b).

(** ** put_chain *)

(** The loop that removes the stale chain.  The second iteration starts at
    [fork], and every later one too: three iterations decide. *)
Fixpoint remove_stale_loop (fuel : nat) (fork head : H256) : stM MemStore anyhow unit :=
  match fuel with
  | O => lift Panic
  | S fuel =>
    s ← gets (fun s => s);
    match BS_get_header_by_hash s head with
    | Ok (Some block) =>
      let next := parent_hash (raw block) in
      _ ← BlockStorage_delete head (level (raw block));
      if negb (bool_decide (next = fork)) then mret tt else remove_stale_loop fuel fork next
    | Panic => lift Panic
    | _ => mret tt
    end
  end.
Definition remove_stale (fork head : H256) : stM MemStore anyhow unit := remove_stale_loop 3 fork head.

(** Go back to the parent of the first block. *)
Definition rollback_to (current_head : IndexedBlockHeader) (first_block : Block) : stM ChainState anyhow unit :=
  c ← gets (fun c => c);
  o ← lift (BS_get_header_by_hash (cs_store c) (parent_hash (header first_block)));
  parent_header ← lift (ok_or_else o "error accepting block non commit");
  _ ← write_state (State_reset (state_root (raw parent_header)));
  _ ← write_store (set_current_header (raw parent_header));
  write_store (remove_stale (ih_hash parent_header) (header_hash (raw current_head))).

(** The chain and the pool. *)
Record Node := { node_chain : ChainState; node_pool : TxPool }.
Definition set_node_chain (c : ChainState) (n : Node) : Node := {| node_chain := c; node_pool := node_pool n |}.
Definition set_node_pool (p : TxPool) (n : Node) : Node := {| node_chain := node_chain n; node_pool := p |}.

Definition put_block (current_head : IndexedBlockHeader) (b : Block) : stM Node anyhow unit :=
  c ← gets node_chain;
  b ← lift (process_block c b);
  '(should_repack, store_block, b) ← zoom node_chain set_node_chain (accept_block b);
  _ ← (if (store_block : bool)
       then zoom node_chain set_node_chain (write_store (BlockStorage_put b)) else mret tt);
  if (should_repack : bool) then
    c ← gets node_chain;
    zoom node_pool set_node_pool
      (repack (cs_state c) (cs_store c) (Some (raw current_head)) (header b))
  else mret tt.

Definition put_chain (blocks : list Block) : stM Node anyhow unit :=
  c ← gets node_chain;
  o ← lift (current_header c);
  current_head ← lift (ok_or_else o "failed to load current head, state invalid");
  first_block ← lift (unwrap (hd_error blocks));
  _ ← (if negb (bool_decide (parent_hash (header first_block) = ih_hash current_head))
          && (u32 (level (header first_block) - 1) <? level (raw current_head))
       then zoom node_chain set_node_chain (rollback_to current_head first_block)
       else mret tt);
  for_each blocks (put_block current_head).

End Chain.
