(* ===== verification/Replay.v ===== *)
(** * Executing a block twice

    A block is executed on a copy of the parent state that [process_block]
    opens read-only, and again on the state of the node by [accept_block].
    The copy works on the stored tree, the node on a staging tree without the
    values, and their writes to the key-value databases go to different places;
    this file relates the two ([twin_state]) and shows that both executions
    read the same and lead to the same root ([apply_block_replay]), for every
    kind of transaction, when the machine only uses the trait [StateDB]
    ([WasmVMLaws]). *)
From S2P Require Import Prelude Crypto Types Consensus Smt Codec SmtTree SmtProofs SmtTheorems TreeDb State Chain.

(** ** Computations that agree on related states *)

Definition agree {S E A} (R : S -> S -> Prop) (m : stM S E A) : Prop :=
  forall s1 s2, R s1 s2 -> (m s1).1 = (m s2).1 /\ R (m s1).2 (m s2).2.

Lemma agree_ret {S E A} (R : S -> S -> Prop) (a : A) : agree (E:=E) R (mret a).
Proof. intros s1 s2 HR. auto. Qed.
Lemma agree_lift {S E A} (R : S -> S -> Prop) (r : result E A) : agree R (lift r).
Proof. intros s1 s2 HR. auto. Qed.
Lemma agree_bind {S E A B} (R : S -> S -> Prop) (m : stM S E A) (f : A -> stM S E B) :
  agree R m -> (forall a, agree R (f a)) -> agree R (m ≫= f).
Proof.
  intros Hm Hf s1 s2 HR. destruct (Hm _ _ HR) as [H1 H2]. unfold mbind, stM_bind.
  destruct (m s1) as [[a|e|] s1'], (m s2) as [[a'|e'|] s2']; simpl in *; try discriminate; auto;
    injection H1 as <-; auto. now apply Hf.
Qed.
Lemma agree_lift_bind {S E A B} (R : S -> S -> Prop) (r : result E A) (f : A -> stM S E B) :
  (forall a, r = Ok a -> agree R (f a)) -> agree R (lift r ≫= f).
Proof.
  intros Hf s1 s2 HR. unfold mbind, stM_bind, lift. destruct r as [a|e|]; auto. now apply (Hf a).
Qed.
(** Reading the state, when what follows only depends on what agrees. *)
Lemma agree_gets {S E A B} (R : S -> S -> Prop) (f : S -> A) (k : A -> stM S E B) :
  (forall s1 s2, R s1 s2 -> forall s, k (f s1) s = k (f s2) s) -> (forall s, agree R (k (f s))) ->
  agree R (gets f ≫= k).
Proof.
  intros Heq Hk s1 s2 HR. change ((gets f ≫= k) s1) with (k (f s1) s1). change ((gets f ≫= k) s2) with (k (f s2) s2).
  rewrite <- (Heq s1 s2 HR s2). now apply Hk.
Qed.
Lemma agree_for_each {S E A} (R : S -> S -> Prop) (l : list A) (body : A -> stM S E unit) :
  (forall x, agree R (body x)) -> agree R (for_each l body).
Proof. intros Hb. induction l as [|x l IH]; [apply agree_ret|]. apply agree_bind; auto. Qed.
Lemma agree_map_err {S E F A} (R : S -> S -> Prop) (f : E -> F) (m : stM S E A) : agree R m -> agree R (map_err f m).
Proof.
  intros Hm s1 s2 HR. destruct (Hm _ _ HR) as [H1 H2]. unfold map_err.
  destruct (m s1) as [[a|e|] s1'], (m s2) as [[a'|e'|] s2']; simpl in *; try discriminate; split; auto; congruence.
Qed.
Lemma agree_zoom {S T E A} (R : S -> S -> Prop) (Q : T -> T -> Prop) (get : S -> T) (set : T -> S -> S) (m : stM T E A) :
  (forall s1 s2, R s1 s2 -> Q (get s1) (get s2)) ->
  (forall s1 s2 t1 t2, R s1 s2 -> Q t1 t2 -> R (set t1 s1) (set t2 s2)) ->
  agree Q m -> agree R (zoom get set m).
Proof.
  intros Hg Hs Hm s1 s2 HR. destruct (Hm _ _ (Hg _ _ HR)) as [H1 H2]. unfold zoom.
  destruct (m (get s1)) as [r1 t1], (m (get s2)) as [r2 t2]. simpl in *. auto.
Qed.

Lemma agree_keeps {S E A} (R : S -> S -> Prop) (I : S -> Prop) (m : stM S E A) (Q : A -> Prop) :
  agree R m -> keeps I m Q -> agree (fun s1 s2 => R s1 s2 /\ I s2) m.
Proof. intros Hm Hk s1 s2 [HR HI]. destruct (Hm _ _ HR) as [H1 H2]. destruct (Hk _ HI) as [H3 _]. auto. Qed.

(** ** Trees with the same nodes

    The values are those of the second tree, completed by values of [base]. *)

Section Twin.
Variable digest : bytes -> H256.
Variable base : MemoryStorage.

Record twin (T1 T2 : SparseMerkleTree) : Prop := {
  twin_nodes : nodes T1 = nodes T2;
  twin_root : root T1 = root T2;
  twin_values q : values T1 !! q = values T2 !! q \/ values T2 !! q = None /\ values T1 !! q = base !! q;
}.

Lemma agree_put_node k v : agree twin (put_node k v).
Proof. intros T1 T2 [Hn Hr Hv]. split; [reflexivity|]. split; auto. simpl. now rewrite Hn. Qed.
Lemma agree_delete_node k : agree twin (delete_node k).
Proof.
  intros T1 T2 [Hn Hr Hv]. unfold delete_node, zoom, Storage_delete. rewrite Hn.
  case_bool_decide; split; auto; split; auto.
Qed.
Lemma agree_put_value k v : agree twin (put_value k v).
Proof.
  intros T1 T2 [Hn Hr Hv]. split; [reflexivity|]. split; auto. simpl. intros q.
  destruct (decide (k = q)) as [->|Hq]; [left; now rewrite !lookup_insert_eq|]. rewrite !lookup_insert_ne by auto. auto.
Qed.
Lemma ignored_delete k T :
  ignore (delete_value k) T = (Ok tt, set_values (delete k (values T)) T).
Proof.
  unfold ignore, delete_value, zoom, Storage_delete. case_bool_decide as E; [reflexivity|].
  rewrite delete_id; [now destruct T|]. destruct (values T !! k); [destruct E; eauto | reflexivity].
Qed.
Lemma agree_delete_value k : agree twin (ignore (delete_value k)).
Proof.
  intros T1 T2 [Hn Hr Hv]. rewrite !ignored_delete. split; [reflexivity|]. split; auto. simpl. intros q.
  destruct (decide (k = q)) as [->|Hq]; [left; now rewrite !lookup_delete_eq|]. rewrite !lookup_delete_ne by auto. auto.
Qed.
Lemma agree_set_root r : agree twin (modify (E:=SmtError) (set_root r)).
Proof. intros T1 T2 [Hn Hr Hv]. split; [reflexivity|]. split; auto. Qed.
Lemma agree_root {A} (k : H256 -> stM SparseMerkleTree SmtError A) : (forall r, agree twin (k r)) -> agree twin (gets root ≫= k).
Proof. intros Hk. apply agree_gets; auto. intros T1 T2 [_ -> _]. reflexivity. Qed.

Lemma agree_update_loop p sides c n h d : agree twin (update_loop digest p sides c n h d).
Proof.
  revert h d. induction n as [|n IH]; intros h d; cbn [update_loop]; [apply agree_ret|].
  destruct (update_side_node _ _ _) as [s|]; [|apply IH].
  apply agree_bind; [apply agree_lift|]. intros [ch data]. apply agree_bind; [apply agree_put_node | auto].
Qed.

Lemma agree_update_with_sides p v sides pnodes old : agree twin (update_with_sides_nodes digest p v sides pnodes old).
Proof.
  unfold update_with_sides_nodes. cbv zeta. destruct (digest_leaf digest p (digest v)) as [ch ld].
  apply agree_bind; [apply agree_put_node|]. intros _. apply agree_bind; [apply agree_lift|]. intros p0.
  apply agree_bind.
  { destruct (is_zero_hash p0); [apply agree_ret|]. apply agree_bind; [apply agree_lift|]. intros [ap op].
    repeat (apply agree_bind; [apply agree_lift|]; intros ?). apply agree_ret. }
  intros [c ovh]. apply agree_bind.
  { destruct (negb _).
    - apply agree_bind; [apply agree_lift|]. intros [h d]. apply agree_bind; [apply agree_put_node|]. intros _. apply agree_ret.
    - destruct ovh as [ovh|]; [|apply agree_ret]. case_bool_decide; [apply agree_root; intros; apply agree_ret|].
      apply agree_bind; [apply agree_delete_node|]. intros _. apply agree_bind; [apply agree_delete_value|].
      intros _. apply agree_ret. }
  intros [r|[h d]]; [apply agree_ret|]. apply agree_bind; [apply agree_for_each, agree_delete_node|]. intros _.
  apply agree_bind; [apply agree_update_loop|]. intros h'. apply agree_bind; [apply agree_put_value|]. intros _. apply agree_ret.
Qed.

Lemma agree_update k v : v <> [] -> agree twin (update digest k v).
Proof.
  intros Hv. unfold update. apply agree_root. intros r. apply agree_bind.
  - unfold update_for_root. cbv zeta. apply agree_gets.
    + intros T1 T2 [Hn _ _] T. unfold side_nodes_for_root. now rewrite Hn.
    + intros T. apply agree_bind; [apply agree_lift|]. intros res. rewrite bool_decide_eq_false_2 by exact Hv.
      apply agree_update_with_sides.
  - intros nr. apply agree_bind; [apply agree_set_root|]. intros _. apply agree_ret.
Qed.
End Twin.

(** ** Databases that read the same

    [T] is the tree both start from, stored in [D]. *)

Section TwinDb.
Context `{BincodeLaws}.
Variable digest : bytes -> H256.
Hypothesis digest_len : forall m, is_bytes 32 (digest m).
Context {K V : Type} (KC : Codec K) (VC : Codec V).
Hypothesis VC_vec : forall x b, encode VC x = Ok b -> is_vec b.
Variables (D : MemoryStore) (T : SparseMerkleTree).

Record twin_db (t1 t2 : TreeDB) : Prop := {
  td_db1 : db t1 = D;
  td_db2 : db t2 = D;
  td_head1 : head t1 = T;
  td_head2 : head t2 = T;
  td_strategy1 : strategy t1 = Partial;
  td_strategy2 : strategy t2 = Partial;
  td_stored : trie_get D (root T) = Ok T;
  td_nonzero : root T <> H256_zero;
  td_staging : twin (values T) (staging t1) (staging t2);
  td_wf : wf_smt (staging t2);
}.

Lemma tree_get_nonzero T' key :
  root T' <> H256_zero -> tree_get digest T' key = Ok (default [] (values T' !! path digest key)).
Proof.
  intros Hz. unfold tree_get, get, is_zero_hash. now rewrite bool_decide_eq_false_2.
Qed.

(** The search in the stored trees starts with [T]. *)
Lemma descend_first s key v :
  trie_get s (root T) = Ok T -> root T <> H256_zero -> values T !! path digest key = Some v -> v <> [] ->
  get_descend_raw digest s key (root T) = Ok (Some v).
Proof.
  intros Hs Hz Hv Hne. unfold get_descend_raw. cbn [get_descend_loop]. rewrite Hs. cbn [mbind result_bind].
  rewrite tree_get_nonzero, Hv by exact Hz. cbn [default mbind result_bind].
  now rewrite !(bool_decide_eq_false_2 (v = [])).
Qed.

Lemma twin_db_get t1 t2 key : twin_db t1 t2 -> TreeDB_get digest KC VC t1 key = TreeDB_get digest KC VC t2 key.
Proof.
  intros [Hd1 Hd2 H1' H2' Hs1 Hs2 Hst Hz [Hn Hr Hv] _]. unfold TreeDB_get, get_descend. rewrite Hs1, Hs2.
  destruct (encode KC key) as [k|e|]; auto. cbn [mbind result_bind descends]. unfold get_from.
  rewrite Hd1, Hd2, H1', H2'. unfold tree_get, get. rewrite Hr. destruct (is_zero_hash _) eqn:Ez; [reflexivity|].
  cbn [get_or_default conv mbind result_bind]. unfold get_or_default. cbn [conv mbind result_bind].
  destruct (Hv (path digest k)) as [->|[-> ->]]; auto. cbn [default].
  rewrite (bool_decide_eq_true_2 ([] = [])) by auto.
  destruct (values T !! path digest k) as [v|] eqn:Ev; cbn [default]; [|now rewrite bool_decide_eq_true_2].
  case_bool_decide as Hne; [reflexivity|].
  rewrite (descend_first _ _ _ Hst Hz Ev Hne). cbn [mbind result_bind]. now rewrite bool_decide_eq_false_2.
Qed.

Lemma encode_put_vec key x k v : encode_op KC VC (OpPut key x) = Ok (k, v) -> v <> [] /\ is_vec v.
Proof.
  unfold encode_op. destruct (encode KC key); try discriminate. destruct (encode VC x) as [b|e|] eqn:E; try discriminate.
  intros [= _ <-]. split; [apply bin_IValue_tag|]. apply bin_IValue_vec. exact (VC_vec x b E).
Qed.
Lemma agree_db_put key x : agree twin_db (TreeDB_put digest KC VC key x).
Proof.
  unfold TreeDB_put. apply agree_lift_bind. intros [k v] E. apply encode_put_vec in E as [Hv Hvec].
  apply agree_bind; [|intros ?; apply agree_ret].
  apply (agree_zoom _ (fun T1 T2 => twin (values T) T1 T2 /\ wf_smt T2)).
  - now intros t1 t2 [].
  - intros t1 t2 T1 T2 [] [HT W]. now split.
  - apply agree_map_err. eapply agree_keeps; [now apply agree_update | now apply update_keeps].
Qed.
End TwinDb.

(** The key-value databases: the copy keeps its writes in [kv_staging]. *)
Record twin_kv (d1 d2 : KvDB) : Prop := {
  tk_ro : kv_read_only d1 = true;
  tk_rw : kv_read_only d2 = false;
  tk_staging : kv_staging d2 = ∅;
  tk_entries k : match kv_staging d1 !! k with Some v => Some v | None => column (kv_inner d1) "_" !! k end =
                 column (kv_inner d2) "_" !! k;
}.
Lemma twin_kv_open d : kv_read_only d = false -> kv_staging d = ∅ -> twin_kv (KvDB_open (kv_inner d) true) d.
Proof. now split. Qed.
Lemma twin_kv_get {K V} (KC : Codec K) (VC : Codec V) d1 d2 k : twin_kv d1 d2 -> KvDB_get KC VC d1 k = KvDB_get KC VC d2 k.
Proof.
  intros [_ _ Hst He]. unfold KvDB_get. destruct (encode KC k) as [b|e|]; auto. cbn [mbind result_bind].
  rewrite Hst, lookup_empty. specialize (He b). unfold store_get, get_cn. rewrite <- He.
  now destruct (kv_staging d1 !! b).
Qed.
Lemma agree_kv_put {K V} (KC : Codec K) (VC : Codec V) k v : agree twin_kv (KvDB_put KC VC k v).
Proof.
  unfold KvDB_put. apply agree_lift_bind. intros kb _. apply agree_lift_bind. intros vb _.
  intros d1 d2 HR. destruct HR as [Hro Hrw Hst He].
  change ((gets kv_read_only ≫= ?f) d1) with (f (kv_read_only d1) d1).
  change ((gets kv_read_only ≫= ?f) d2) with (f (kv_read_only d2) d2). rewrite Hro, Hrw.
  split; [reflexivity|]. split; auto. intros q. specialize (He q).
  cbn [zoom store_put put_cn modify snd kv_staging kv_inner set_kv_staging set_kv_inner].
  unfold column at 2. rewrite lookup_insert_eq. cbn [default id].
  destruct (decide (kb = q)) as [->|Hq]; [now rewrite !lookup_insert_eq | now rewrite !lookup_insert_ne].
Qed.

(** ** States that read the same *)

Section Observes.
Context `{CryptoLaws} `{BincodeLaws} `{WasmVMInstance}.

(** What the readers of trait [StateDB] return. *)
Record observes (s1 s2 : State) : Prop := {
  obs_account a : account_state s1 a = account_state s2 a;
  obs_data a : get_app_data s1 a = get_app_data s2 a;
  obs_source a : get_app_source s1 a = get_app_source s2 a;
  obs_descriptor a : get_app_descriptor s1 a = get_app_descriptor s2 a;
  obs_root : state_root_hash s1 = state_root_hash s2;
}.
(** The machine accesses the state through that trait only. *)
Class WasmVMLaws := {
  execute_app_create_ext s1 s2 a v p b :
    observes s1 s2 -> execute_app_create s1 a v p b = execute_app_create s2 a v p b;
  execute_app_tx_ext s1 s2 a v app sv m args :
    observes s1 s2 -> execute_app_tx s1 a v app sv m args = execute_app_tx s2 a v app sv m args;
}.
End Observes.

(** ** Executing a block

    On states related by [RS], which read the same and keep doing so. *)

Section Execution.
Context `{CryptoLaws} `{BincodeLaws} `{WasmVMInstance} `{!WasmVMLaws}.
Variable RS : State -> State -> Prop.
Hypothesis RS_observes : forall s1 s2, RS s1 s2 -> observes s1 s2.
Hypothesis RS_get : forall s1 s2 a, RS s1 s2 ->
  TreeDB_get keccak256 codec_Address prost_AccountState (trie s1) a =
  TreeDB_get keccak256 codec_Address prost_AccountState (trie s2) a.
Hypothesis RS_app_data : forall k d, agree RS (set_app_data k d).
Hypothesis RS_metadata : forall k d, agree RS (put_metadata k d).

Definition twin_exec (e1 e2 : Exec) : Prop :=
  RS (ex_state e1) (ex_state e2) /\ ex_accounts e1 = ex_accounts e2.

Lemma agree_accounts {A} (k : Accounts -> stM Exec anyhow A) :
  (forall m, agree twin_exec (k m)) -> agree twin_exec (gets ex_accounts ≫= k).
Proof. intros Hk. apply agree_gets; auto. now intros e1 e2 [_ ->]. Qed.
Lemma agree_set_accounts f :
  agree twin_exec (modify (E:=anyhow) (fun e => set_ex_accounts (f (ex_accounts e)) e)).
Proof. intros e1 e2 [Hs Ha]. split; [reflexivity|]. split; [exact Hs|]. simpl. now rewrite Ha. Qed.
Lemma agree_account_mut a err f : agree twin_exec (account_mut a err f).
Proof.
  unfold account_mut. apply agree_accounts. intros m. apply agree_lift_bind. intros x _.
  apply (agree_set_accounts (fun _ => <[a := f x]> m)).
Qed.
Lemma agree_on_state {A} (m : stM State anyhow A) : agree RS m -> agree twin_exec (zoom ex_state set_ex_state m).
Proof.
  intros Hm. apply (agree_zoom _ RS); auto; [now intros e1 e2 []|]. intros e1 e2 t1 t2 [] Ht. now split.
Qed.
Lemma agree_store_app_data a c : agree twin_exec (store_app_data a c).
Proof. apply agree_on_state, RS_app_data. Qed.
Lemma agree_set_app_root a c : agree twin_exec (set_app_root a c).
Proof.
  unfold set_app_root. apply agree_accounts. intros m. apply agree_lift_bind. intros x _. apply agree_account_mut.
Qed.
Lemma agree_insert_changes c : agree twin_exec (insert_changes c).
Proof. apply (agree_set_accounts (fun m => account_changes c ∪ m)). Qed.
(** A run of the machine. *)
Lemma agree_machine {A B} (f : State -> result anyhow A) (k : A -> stM Exec anyhow B) :
  (forall s1 s2, observes s1 s2 -> f s1 = f s2) -> (forall a, agree twin_exec (k a)) ->
  agree twin_exec (s ← gets ex_state; x ← lift (f s); k x).
Proof.
  intros Hf Hk. apply agree_gets.
  - intros e1 e2 [Hs _] e. now rewrite (Hf _ _ (RS_observes _ _ Hs)).
  - intros e. apply agree_lift_bind. auto.
Qed.

Lemma agree_register t p : agree twin_exec (register_namespace t p).
Proof.
  unfold register_namespace. do 4 (apply agree_lift_bind; intros ? _).
  apply (agree_machine (fun s => execute_app_tx s _ _ _ _ _ _)); [intros; now apply execute_app_tx_ext|]. intros c.
  apply agree_bind; [apply agree_insert_changes|]. intros _.
  apply agree_bind; [apply agree_set_app_root|]. intros _. apply agree_store_app_data.
Qed.
Lemma agree_payment t : agree twin_exec (execute_payment_tx t).
Proof.
  unfold execute_payment_tx. apply agree_accounts. intros m. apply agree_lift_bind. intros a _. cbv zeta.
  destruct (_ <? _); [apply agree_lift|]. apply agree_bind; [apply agree_account_mut|]. intros _.
  apply agree_lift_bind. intros d _. apply agree_account_mut.
Qed.
Lemma agree_apply_data t d : agree twin_exec (apply_data t d).
Proof.
  destruct d as [dst|app sv m args|p b|a b c|raw]; cbn [apply_data].
  - apply agree_payment.
  - apply agree_lift_bind. intros app_address _.
    apply (agree_machine (fun s => execute_app_tx s _ _ _ _ _ _)); [intros; now apply execute_app_tx_ext|]. intros c.
    apply agree_bind; [apply agree_insert_changes|]. intros _.
    apply agree_bind; [apply agree_set_app_root|]. intros _. apply agree_store_app_data.
  - apply agree_lift_bind. intros app_address _. apply agree_gets.
    { intros e1 e2 [Hs _] e. now rewrite (RS_get _ _ app_address Hs). }
    intros e0. apply agree_lift_bind. intros existing _. case_bool_decide; [apply agree_lift|].
    apply agree_bind; [apply agree_register|]. intros _. cbv zeta.
    apply (agree_machine (fun s => execute_app_create s _ _ _ _)); [intros; now apply execute_app_create_ext|].
    intros [desc c]. apply agree_bind; [apply agree_insert_changes|]. intros _.
    apply agree_bind; [apply agree_account_mut|]. intros _.
    apply agree_bind; [apply agree_on_state, RS_metadata|]. intros _. apply agree_store_app_data.
  - apply agree_lift.
  - apply agree_ret.
Qed.
Lemma agree_apply_transaction t : agree twin_exec (apply_transaction t).
Proof.
  unfold apply_transaction. apply agree_lift_bind. intros d _.
  apply agree_bind; [apply agree_apply_data|]. intros _. apply agree_account_mut.
Qed.

Lemma agree_run_block accounts states : agree RS (run_block accounts states).
Proof.
  intros s1 s2 HR. unfold run_block.
  destruct (agree_for_each twin_exec (execution_order accounts) apply_transaction agree_apply_transaction
    {| ex_state := s1; ex_accounts := states |} {| ex_state := s2; ex_accounts := states |}) as [E1 [E2 E3]];
    [now split|].
  destruct (for_each _ _ {| ex_state := s1; ex_accounts := states |}) as [[[]|e|] e1];
    destruct (for_each _ _ {| ex_state := s2; ex_accounts := states |}) as [[[]|e'|] e2];
    cbn [fst snd] in *; try discriminate; split; auto; congruence.
Qed.

End Execution.

(** ** States over twin databases *)

Section TwinState.
Context `{CryptoLaws} `{BincodeLaws} `{WasmVMInstance} `{!WasmVMLaws}.
Variables (D : MemoryStore) (T : SparseMerkleTree).

(** The first is read-only. *)
Record twin_state (s1 s2 : State) : Prop := {
  ts_ro : read_only s1 = true;
  ts_rw : read_only s2 = false;
  ts_trie : twin_db D T (trie s1) (trie s2);
  ts_appdata : twin_kv (appdata s1) (appdata s2);
  ts_metadata : twin_kv (metadata s1) (metadata s2);
}.

Lemma twin_get s1 s2 a : twin_state s1 s2 ->
  TreeDB_get keccak256 codec_Address prost_AccountState (trie s1) a =
  TreeDB_get keccak256 codec_Address prost_AccountState (trie s2) a.
Proof. intros HR. now apply (twin_db_get keccak256 _ _ D T), HR. Qed.
Lemma twin_account s1 s2 a : twin_state s1 s2 -> get_account_state s1 a = get_account_state s2 a.
Proof. intros HR. unfold get_account_state. now rewrite (twin_get s1 s2 a HR). Qed.
Lemma twin_root_hash s1 s2 : twin_state s1 s2 -> state_root_hash s1 = state_root_hash s2.
Proof. intros [_ _ [_ _ E1 E2 _ _ _ _ _] _ _]. unfold state_root_hash, TreeDB_root. congruence. Qed.
Lemma twin_app_metadata s1 s2 a : twin_state s1 s2 -> get_app_metadata s1 a = get_app_metadata s2 a.
Proof.
  intros HR. unfold get_app_metadata. rewrite (twin_get s1 s2 a HR).
  destruct (TreeDB_get _ _ _ _ _) as [[acc|]|e|]; auto.
  cbn [mbind result_bind ok_or_else ok_or]. destruct (app_state acc); auto. now apply twin_kv_get, HR.
Qed.
Lemma twin_observes s1 s2 : twin_state s1 s2 -> observes s1 s2.
Proof.
  intros HR. split; intros.
  - now apply twin_account.
  - unfold get_app_data. rewrite (twin_get s1 s2 a HR). destruct (TreeDB_get _ _ _ _ _) as [[acc|]|e|]; auto.
    destruct (app_state acc); auto. now rewrite (twin_kv_get _ _ (appdata s1) (appdata s2)) by apply HR.
  - unfold get_app_source. now rewrite (twin_app_metadata s1 s2 a HR).
  - unfold get_app_descriptor. now rewrite (twin_app_metadata s1 s2 a HR).
  - now apply twin_root_hash.
Qed.

Lemma agree_put_account a x : agree twin_state (put_account a x).
Proof.
  apply (agree_zoom _ (twin_db D T)); [now intros s1 s2 []| |].
  - intros s1 s2 t1 t2 [] Ht. now split.
  - apply agree_db_put; [apply keccak256_len | apply prost_AccountState_vec].
Qed.
Lemma agree_set_app_data k d : agree twin_state (set_app_data k d).
Proof.
  apply (agree_zoom _ twin_kv); [now intros s1 s2 []| |apply agree_kv_put]. intros s1 s2 t1 t2 [] Ht. now split.
Qed.
Lemma agree_put_metadata k d : agree twin_state (put_metadata k d).
Proof.
  apply (agree_zoom _ twin_kv); [now intros s1 s2 []| |apply agree_kv_put]. intros s1 s2 t1 t2 [] Ht. now split.
Qed.

Lemma agree_run_block_twin accounts states : agree twin_state (run_block accounts states).
Proof.
  apply agree_run_block; [apply twin_observes | apply twin_get | apply agree_set_app_data | apply agree_put_metadata].
Qed.

Lemma collect_ext load1 load2 txs acc st :
  (forall a, load1 a = load2 a) -> collect_txs load1 txs acc st = collect_txs load2 txs acc st.
Proof.
  intros Hl. assert (forall a st, entry_account load1 a st = entry_account load2 a st) as He.
  { intros a st'. unfold entry_account. now rewrite Hl. }
  revert acc st. induction txs as [|t txs IH]; intros acc st; cbn [collect_txs]; auto.
  rewrite He. destruct (entry_account load2 (sender t) st); auto. cbn [mbind result_bind].
  destruct (to t); auto. cbn [mbind result_bind]. rewrite He. destruct (entry_account load2 _ _); auto.
  cbn [mbind result_bind]. apply IH.
Qed.

Lemma agree_apply_txs txs : agree twin_state (apply_txs txs).
Proof.
  unfold apply_txs. apply agree_gets.
  - intros s1 s2 HR s. rewrite (collect_ext (get_account_state s1) (get_account_state s2)); auto.
    intros a. now apply twin_account.
  - intros s. apply agree_lift_bind. intros [accounts states] _. apply agree_bind; [apply agree_run_block_twin|].
    intros st. apply agree_for_each. intros [a x]. apply agree_put_account.
Qed.
Lemma agree_root_hash : agree twin_state (s ← gets (fun s => s); lift (state_root_hash s)).
Proof.
  apply agree_gets; [|intros; apply agree_lift]. intros s1 s2 HR s. now rewrite (twin_root_hash s1 s2 HR).
Qed.
Lemma agree_StateDB_apply_txs txs : agree twin_state (StateDB_apply_txs txs).
Proof. unfold StateDB_apply_txs. apply agree_bind; [apply agree_apply_txs|]. intros _. apply agree_root_hash. Qed.
Lemma agree_credit a x : agree twin_state (credit_balance a x).
Proof.
  unfold credit_balance. apply agree_gets.
  - intros s1 s2 HR s. now rewrite (twin_account s1 s2 a HR).
  - intros s. apply agree_lift_bind. intros acc _. apply agree_bind; [apply agree_put_account|]. intros _.
    apply agree_root_hash.
Qed.

End TwinState.

(** ** The state of a running node *)

(** Between blocks: nothing is staged, and the tree of the head is stored. *)
Record live `{Bincode} (s : State) (r : H256) : Prop := {
  live_root : root (head (trie s)) = r;
  live_nonzero : r <> H256_zero;
  live_strategy : strategy (trie s) = Partial;
  live_stored : trie_get (db (trie s)) r = Ok (head (trie s));
  live_staged : staging (trie s) = staged (head (trie s));
  live_wf : wf_smt (head (trie s));
  live_rw : read_only s = false;
  live_kv : Forall (fun d => kv_read_only d = false /\ kv_staging d = ∅) [appdata s; metadata s];
}.

Section Live.
Context `{CryptoLaws} `{BincodeLaws} `{WasmVMInstance} `{!WasmVMLaws}.

Lemma twin_staged T : twin (values T) T (staged T).
Proof. split; auto. Qed.

(** The copy [process_block] opens reads the same. *)
Lemma open_twin s r :
  live s r -> exists s1, get_sate_at s r = Ok s1 /\ twin_state (db (trie s)) (head (trie s)) s1 s.
Proof.
  intros [Hr Hz Hst Hs Hg W Hrw Hkv]. pose proof (Forall_inv Hkv) as [Ha1 Ha2].
  pose proof (Forall_inv (Forall_inv_tail Hkv)) as [Hm1 Hm2].
  eexists. split.
  - unfold get_sate_at, TreeDB_open_read_only_at_root. rewrite Hs. reflexivity.
  - split; auto; [|now apply twin_kv_open..]. split; auto; cbn [head staging trie db]; rewrite ?Hr, ?Hg;
      auto using twin_staged, wf_staged.
Qed.

Lemma commit_changed p t :
  root (head t) <> root (staging t) -> strategy t = Partial ->
  TreeDB_commit keccak256 p t =
    (Ok (root (staging t)),
     set_staging (staged (staging t)) (set_head (staging t)
       (if p then set_db (put_tree (root (staging t)) (staging t) (db t)) t else t))).
Proof.
  intros Hne Hs. unfold TreeDB_commit. st_step reflexivity. rewrite bool_decide_eq_false_2 by exact Hne.
  destruct p; st_step reflexivity; st_step reflexivity; st_step (now apply restage_ok); reflexivity.
Qed.
Lemma commit_same p t : root (head t) = root (staging t) -> TreeDB_commit keccak256 p t = (Ok (root (head t)), t).
Proof. intros E. unfold TreeDB_commit. st_step reflexivity. now rewrite bool_decide_eq_true_2. Qed.

Lemma State_commit_run s :
  State_commit s = match TreeDB_commit keccak256 (negb (read_only s)) (trie s) with
                   | (Ok _, t) => (Ok tt, set_trie t s) | (Err e, t) => (Err e, set_trie t s)
                   | (Panic, t) => (Panic, set_trie t s) end.
Proof.
  unfold State_commit. st_step reflexivity. unfold mbind, stM_bind, zoom.
  destruct (TreeDB_commit _ _ _) as [[h|e|] t]; reflexivity.
Qed.

(** Committing both leads to the same root; the node stores the new tree. *)
Lemma commit_twin D T s1 s2 s1' :
  twin_state D T s1 s2 -> State_commit s1 = (Ok tt, s1') -> root (head (trie s1')) <> root T ->
  root (head (trie s1')) <> H256_zero -> trie_get D (root T) = Ok T ->
  exists s2', State_commit s2 = (Ok tt, s2') /\ live s2' (root (head (trie s1'))) /\
    db (trie s2') = put_tree (root (head (trie s1'))) (head (trie s2')) D.
Proof.
  intros [Hro Hrw [D1 D2 T1 T2 S1 S2 Hst Hz [Hn Hr Hv] W] Ha Hm] E Hne Hnz HT.
  rewrite State_commit_run, Hro in E. cbn [negb] in E.
  assert (root (head (trie s1)) <> root (staging (trie s1))) as Hch.
  { intros Hs. rewrite (commit_same _ _ Hs) in E. injection E as <-. apply Hne. cbn. now rewrite T1. }
  rewrite (commit_changed _ _ Hch S1) in E. injection E as <-. cbn [set_trie trie head set_staging set_head] in *.
  rewrite Hr in *. rewrite State_commit_run, Hrw. cbn [negb].
  rewrite commit_changed by (auto; congruence). eexists. split; [reflexivity|].
  cbn [set_trie trie head set_staging set_head]. rewrite D2. split; [|reflexivity].
  split; cbn [set_trie trie head set_staging set_head db set_db staging strategy read_only appdata metadata]; auto.
  - now apply trie_get_put_eq.
  - repeat constructor; auto; apply Ha || apply Hm.
Qed.

Lemma apply_txs_of_trait txs s h s' : StateDB_apply_txs txs s = (Ok h, s') -> apply_txs txs s = (Ok tt, s').
Proof.
  unfold StateDB_apply_txs. intros E. apply bind_st_inv in E as ([] & s0 & E0 & E).
  apply bind_st_inv in E as (x & s2 & E2 & E). injection E2 as <- <-.
  unfold lift, state_root_hash, TreeDB_root in E. injection E as _ <-. exact E0.
Qed.

(** The node follows the execution on the copy. *)
Lemma apply_block_replay s r s1 txs miner lvl s1' :
  live s r -> get_sate_at s r = Ok s1 ->
  apply_block (StateDB_apply_txs txs) miner lvl s1 = (Ok tt, s1') ->
  root (head (trie s1')) <> r -> root (head (trie s1')) <> H256_zero ->
  exists s', apply_block (apply_txs txs) miner lvl s = (Ok tt, s') /\ live s' (root (head (trie s1'))) /\
    db (trie s') = put_tree (root (head (trie s1'))) (head (trie s')) (db (trie s)).
Proof.
  intros L Eo E Hne Hnz. destruct (open_twin s r L) as (s1x & Eo' & HR).
  assert (s1x = s1) as -> by congruence. unfold apply_block in *.
  apply bind_st_inv in E as (h & sa & Ea & E). apply bind_st_inv in E as (c & sb & Eb & E).
  pose proof (agree_StateDB_apply_txs _ _ txs _ _ HR) as [A1 A2]. rewrite Ea in A1, A2. cbn [fst snd] in A1, A2.
  destruct (StateDB_apply_txs txs s) as [ra sa2] eqn:Ea2. cbn [fst snd] in A1, A2. subst ra.
  pose proof (agree_credit _ _ miner (Barossa_miner_reward lvl) _ _ A2) as [B1 B2]. rewrite Eb in B1, B2.
  cbn [fst snd] in B1, B2.
  destruct (credit_balance miner (Barossa_miner_reward lvl) sa2) as [rb sb2] eqn:Eb2. cbn [fst snd] in B1, B2. subst rb.
  rewrite <- (live_root _ _ L) in Hne.
  destruct (commit_twin _ _ _ _ _ B2 E Hne Hnz) as (s' & Ec & L' & Hdb).
  { rewrite (live_root _ _ L). apply L. }
  exists s'. split; auto. apply apply_txs_of_trait in Ea2.
  st_step (exact Ea2). st_step (exact Eb2). exact Ec.
Qed.

End Live.

(** ** What executing a block preserves *)

Definition preserves {S E A} (I : S -> Prop) (m : stM S E A) : Prop := keeps I m (fun _ => True).
Definition diag {S} (I : S -> Prop) (s1 s2 : S) : Prop := s1 = s2 /\ I s1.

Lemma agree_preserves {S E A} (I : S -> Prop) (m : stM S E A) : agree (diag I) m -> preserves I m.
Proof. intros Hm s Hs. destruct (Hm s s (conj eq_refl Hs)) as [_ [_ H2]]. auto. Qed.
Lemma preserves_agree {S E A} (I : S -> Prop) (m : stM S E A) : preserves I m -> agree (diag I) m.
Proof. intros Hm s1 s2 [<- Hs]. destruct (Hm s1 Hs) as [H1 _]. split; [reflexivity|]. now split. Qed.
Lemma preserves_bind {S E A B} (I : S -> Prop) (m : stM S E A) (f : A -> stM S E B) :
  preserves I m -> (forall a, preserves I (f a)) -> preserves I (m ≫= f).
Proof. intros Hm Hf. eapply keeps_bind; [exact Hm|]. intros a _. apply Hf. Qed.
Lemma preserves_gets {S E A} (I : S -> Prop) (f : S -> A) : preserves (E:=E) I (gets f).
Proof. now apply keeps_gets. Qed.
Lemma preserves_lift {S E A} (I : S -> Prop) (r : result E A) : preserves I (lift r).
Proof. now apply keeps_lift. Qed.
Lemma preserves_lift_bind {S E A B} (I : S -> Prop) (r : result E A) (f : A -> stM S E B) :
  (forall a, r = Ok a -> preserves I (f a)) -> preserves I (lift r ≫= f).
Proof.
  intros Hf s Hs. unfold mbind, stM_bind, lift. destruct r as [a|e|]; [now apply (Hf a) | split; auto..].
Qed.
Lemma preserves_ret {S E A} (I : S -> Prop) (a : A) : preserves (E:=E) I (mret a).
Proof. now apply keeps_ret. Qed.
Lemma preserves_for_each {S E A} (I : S -> Prop) (l : list A) (body : A -> stM S E unit) (P : A -> Prop) :
  Forall P l -> (forall x, P x -> preserves I (body x)) -> preserves I (for_each l body).
Proof. apply keeps_for_each. Qed.
Lemma preserves_map_err {S E F A} (I : S -> Prop) (f : E -> F) (m : stM S E A) : preserves I m -> preserves I (map_err f m).
Proof.
  intros Hm s Hs. destruct (Hm s Hs) as [H1 _]. unfold map_err.
  destruct (m s) as [[a|e|] s']; split; auto.
Qed.
Lemma preserves_zoom {S T E A} (I : S -> Prop) (J : T -> Prop) (get : S -> T) (set : T -> S -> S) (m : stM T E A) :
  (forall s, I s -> J (get s)) -> (forall s t, I s -> J t -> I (set t s)) -> preserves J m -> preserves I (zoom get set m).
Proof.
  intros Hg Hs Hm s HI. destruct (Hm _ (Hg _ HI)) as [H1 _]. unfold zoom.
  destruct (m (get s)) as [r t]. split; auto. now apply Hs.
Qed.

Section Preserved.
Context `{CryptoLaws} `{BincodeLaws} `{WasmVMInstance} `{!WasmVMLaws}.

Lemma observes_refl s : observes s s.
Proof. now split. Qed.

Lemma run_block_preserves (I : State -> Prop) accounts states :
  (forall k d, preserves I (set_app_data k d)) -> (forall k d, preserves I (put_metadata k d)) ->
  preserves I (run_block accounts states).
Proof.
  intros Ha Hm. apply agree_preserves. apply agree_run_block; auto using preserves_agree.
  - intros s1 s2 [-> _]. apply observes_refl.
  - intros s1 s2 a [-> _]. reflexivity.
Qed.

(** The trees hold bytes. *)
Definition wf_tdb (t : TreeDB) : Prop := strategy t = Partial /\ wf_smt (head t) /\ wf_smt (staging t).
Definition wf_state (s : State) : Prop := wf_tdb (trie s).

Lemma update_preserves k v : is_vec v -> preserves wf_smt (update keccak256 k v).
Proof. intros Hv. eapply keeps_weaken; [apply update_keeps; [apply keccak256_len | exact Hv] | auto]. Qed.
Lemma put_account_preserves a x : preserves wf_state (put_account a x).
Proof.
  apply (preserves_zoom _ wf_tdb); auto. unfold TreeDB_put.
  apply preserves_lift_bind. intros [k v] E.
  apply (encode_put_vec codec_Address prost_AccountState prost_AccountState_vec) in E as [_ Hv].
  apply preserves_bind; [|intros; apply preserves_ret].
  apply (preserves_zoom _ wf_smt); [now intros t (_ & _ & W) | intros t T (Hs & Hh & _) W; now split|].
  now apply preserves_map_err, update_preserves.
Qed.
Lemma set_app_data_preserves k d : preserves wf_state (set_app_data k d).
Proof. intros s Hs. unfold set_app_data, zoom. destruct (KvDB_put _ _ _ _ _) as [r t]. split; auto. Qed.
Lemma put_metadata_preserves k d : preserves wf_state (put_metadata k d).
Proof. intros s Hs. unfold put_metadata, zoom. destruct (KvDB_put _ _ _ _ _) as [r t]. split; auto. Qed.
Lemma apply_txs_preserves txs : preserves wf_state (apply_txs txs).
Proof.
  unfold apply_txs. apply preserves_bind; [apply preserves_gets|]. intros s.
  apply preserves_bind; [apply preserves_lift|]. intros [accounts states]. apply preserves_bind.
  - apply run_block_preserves; [apply set_app_data_preserves | apply put_metadata_preserves].
  - intros st. apply (preserves_for_each _ _ _ (fun _ => True)); [now apply Forall_true|].
    intros [a x] _. apply put_account_preserves.
Qed.
Lemma root_hash_preserves (I : State -> Prop) : preserves I (s ← gets (fun s => s); lift (state_root_hash s)).
Proof. apply preserves_bind; [apply preserves_gets|]. intros s. apply preserves_lift. Qed.
Lemma commit_preserves : preserves wf_state State_commit.
Proof.
  intros s Ht. rewrite State_commit_run. destruct Ht as (Hs & Wh & Ws).
  destruct (decide (root (head (trie s)) = root (staging (trie s)))) as [E|E].
  - rewrite (commit_same _ _ E). split; auto. split; auto.
  - rewrite (commit_changed _ _ E Hs). split; auto. split; [|split].
    + now destruct (negb (read_only s)).
    + exact Ws.
    + now apply wf_staged.
Qed.
Lemma apply_block_preserves txs miner lvl : preserves wf_state (apply_block (StateDB_apply_txs txs) miner lvl).
Proof.
  unfold apply_block. apply preserves_bind.
  - unfold StateDB_apply_txs. apply preserves_bind; [apply apply_txs_preserves|]. intros _. apply root_hash_preserves.
  - intros _. apply preserves_bind; [|intros _; apply commit_preserves].
    unfold credit_balance. apply preserves_bind; [apply preserves_gets|]. intros s.
    apply preserves_bind; [apply preserves_lift|]. intros a.
    apply preserves_bind; [apply put_account_preserves|]. intros _. apply root_hash_preserves.
Qed.

Lemma tx_merkle_wf txs T : tx_merkle txs = Ok T -> wf_smt T.
Proof.
  unfold tx_merkle, exec. assert (preserves wf_smt (for_each txs (fun t =>
    _ ← tree_update keccak256 (tx_hash t) (tx_hash t); mret tt))) as Hp.
  { apply (preserves_for_each _ _ _ (fun _ => True)); [now apply Forall_true|]. intros t _.
    apply preserves_bind; [|intros; apply preserves_ret]. apply preserves_map_err, update_preserves.
    eapply is_bytes_vec, keccak256_len. }
  destruct (Hp smt_new) as [W _].
  { assert (is_bytes 32 H256_zero) by (apply (bool_decide_unpack _); vm_compute; exact Logic.I).
    split; auto; apply map_Forall_empty. }
  destruct (for_each _ _ smt_new) as [[[]|e|] T']; try discriminate. now intros [= <-].
Qed.

End Preserved.
