(* ===== verification/ChainProofs.v ===== *)
(** * Theorems on the chain

    What a block accepted by [process_block] satisfies; that the state of the
    node stays the one its current header commits to; and how stale and side
    chains are handled. *)
From S2P Require Import Prelude Compact Crypto Types Consensus Smt Codec SmtTree SmtProofs SmtTheorems TreeDb Storage State.
From S2P Require Import Chain Replay.

(** ** The fields of a prepared header have their widths *)

Lemma is_u_lor w a b : 0 <= w -> is_u w a -> is_u w b -> is_u w (Z.lor a b).
Proof.
  unfold is_u. intros Hw Ha Hb. assert (0 <= Z.lor a b) by (apply Z.lor_nonneg; lia). split; auto.
  destruct (Z.eq_dec (Z.lor a b) 0) as [->|Hne]; [lia|]. apply Z.log2_lt_pow2; [lia|].
  rewrite Z.log2_lor by lia. assert (forall x, 0 <= x < 2 ^ w -> 0 < w -> Z.log2 x < w) as Hl.
  { intros x Hx Hw'. destruct (Z.eq_dec x 0) as [->|]; [exact Hw'|]. apply Z.log2_lt_pow2; lia. }
  destruct (Z.eq_dec w 0) as [->|]; [|apply Z.max_lub_lt; apply Hl; lia].
  exfalso. apply Hne. assert (a = 0) as -> by lia. assert (b = 0) as -> by lia. reflexivity.
Qed.
Lemma from_u256_u32 {E} v c : from_u256 (E:=E) v = Ok c -> is_u 32 c.
Proof.
  unfold from_u256. set (k := if _ <=? 3 then _ else _).
  assert (is_u 32 k) as Hk by (subst k; destruct (_ <=? 3); apply wrap_bound; lia). clearbody k.
  assert (is_u 32 (Z.shiftr k 8)) as Hs.
  { unfold is_u in *. rewrite Z.shiftr_div_pow2 by lia. split; [apply Z.div_pos; lia|].
    apply Z.div_lt_upper_bound; lia. }
  destruct (negb (Z.land k _ =? 0)); cbv beta iota.
  all: destruct (negb _); [discriminate|]; destruct (negb _); [discriminate|]; intros [= <-];
    apply is_u_lor; auto; [lia | apply wrap_bound; lia].
Qed.

Section Prepared.
Context `{CryptoPrims}.
Variables (network : Network) (chain : ChainHeadReader).
Hypothesis headers_wf : forall h ih, get_header_by_hash chain h = Ok (Some ih) -> wf_header (raw ih).

Lemma stored_difficulty h ih : get_header_by_hash chain h = Ok (Some ih) -> is_u 32 (difficulty (raw ih)).
Proof. intros E. now apply headers_wf in E as (_ & _ & _ & _ & _ & _ & Hd & _). Qed.
Lemma max_difficulty_u32 {E} c : max_difficulty_compact (E:=E) network = Ok c -> is_u 32 c.
Proof. unfold max_difficulty_compact. destruct network; apply from_u256_u32. Qed.
Lemma ancestor_bits_u32 n h bits : ancestor_bits chain n h = Ok bits -> Forall (is_u 32) bits.
Proof.
  revert h bits. induction n as [|n IH]; intros h bits; cbn [ancestor_bits]; [intros [= <-]; constructor|].
  destruct (get_header_by_hash chain h) as [[ih|]|e|] eqn:E; try discriminate; [|intros [= <-]; constructor].
  destruct (ancestor_bits chain n _) as [l|e|] eqn:El; try discriminate. intros [= <-].
  constructor; eauto using stored_difficulty.
Qed.
Lemma first_real_bits_u32 bits i height m : Forall (is_u 32) bits -> is_u 32 m -> is_u 32 (first_real_bits bits i height m).
Proof.
  intros Hb Hm. revert i. induction Hb as [|b bits Hb _ IH]; intros i; cbn [first_real_bits]; auto.
  destruct (_ || _); auto.
Qed.
Lemma work_required_u32 p t height bits : work_required network chain p t height = Ok bits -> is_u 32 bits.
Proof.
  unfold work_required. destruct (max_difficulty_compact network) as [m|e|] eqn:Em; try discriminate.
  pose proof (max_difficulty_u32 _ Em) as Hm. cbn [mbind result_bind].
  destruct (height =? 0); [now intros [= <-]|].
  destruct (get_header_by_hash chain p) as [[ih|]|e|] eqn:E; try discriminate. cbn [unwrap_expect mbind result_bind].
  destruct (is_retarget_height height); [|case_bool_decide].
  - unfold work_required_retarget. destruct (unwrap_expect _) as [rh|e|]; try discriminate. cbn [mbind result_bind].
    destruct (U256_mul _ _) as [x|e|]; try discriminate. cbn [mbind result_bind].
    destruct (U256_div _ _) as [y|e|]; try discriminate. cbn [mbind result_bind].
    destruct (_ <? _); [now intros [= <-] | apply from_u256_u32].
  - unfold work_required_testnet. destruct (height =? 0); [discriminate|]. rewrite E. cbn [unwrap_expect mbind result_bind].
    rewrite Em. cbn [mbind result_bind]. destruct (_ <? _); [now intros [= <-]|].
    destruct (ancestor_bits _ _ _) as [l|e|] eqn:El; try discriminate. intros [= <-].
    apply first_real_bits_u32; auto. exact (ancestor_bits_u32 _ _ _ El).
  - intros [= <-]. exact (stored_difficulty _ _ E).
Qed.

(** What [prepare_header] sets. *)
Lemma prepare_header_inv h h' :
  prepare_header network chain h = Ok h' ->
  exists parent bits, get_header chain (parent_hash h) (u32 (level h - 1)) = Ok (Some parent) /\
    work_required network chain (ih_hash parent) (time h) (u32 (level h + 1)) = Ok bits /\
    h' = set_work h (chain_id network) bits.
Proof.
  unfold prepare_header. destruct (get_header chain _ _) as [[p|]|e|]; try discriminate.
  cbn [ok_or_else ok_or mbind result_bind]. destruct (work_required _ _ _ _ _) as [bits|e|] eqn:E; try discriminate.
  intros [= <-]. eauto.
Qed.
End Prepared.

(** ** What an accepted block satisfies *)

Section Soundness.
Context `{CryptoLaws} `{BincodeLaws} `{ChainCodecs} `{WasmVMInstance} `{!WasmVMLaws}.
Variables (network : Network) (clock : BlockHeader -> Z).

(** How the expected header of a block is made. *)
Record processed (c : ChainState) (b : Block) (h : BlockHeader) (bits : Z) (s0 s1 : State) (merkle : SparseMerkleTree) :
    Prop := {
  pr_header : h = set_roots (set_work (header b) (chain_id network) bits) (root (head (trie s1))) (root merkle);
  pr_work : exists p,
    get_header (chain_reader (cs_store c)) (parent_hash (header b)) (u32 (level (header b) - 1)) = Ok (Some p) /\
    work_required network (chain_reader (cs_store c)) (ih_hash p) (time (header b)) (u32 (level (header b) + 1)) = Ok bits;
  pr_state : exists parent,
    BS_get_header_by_hash (cs_store c) (parent_hash (header b)) = Ok (Some parent) /\
    get_sate_at (cs_state c) (state_root (raw parent)) = Ok s0;
  pr_merkle : tx_merkle (transactions b) = Ok merkle;
  pr_run : apply_block (StateDB_apply_txs (transactions b)) (coinbase (header b)) (level (header b)) s0 = (Ok tt, s1);
}.

Lemma finalize_inv h txs s h' s' :
  finalize h txs s = (Ok h', s') ->
  exists merkle, tx_merkle txs = Ok merkle /\
    apply_block (StateDB_apply_txs txs) (coinbase h) (level h) s = (Ok tt, s') /\
    h' = set_roots h (root (head (trie s'))) (root merkle).
Proof.
  unfold finalize. intros E. apply bind_st_inv in E as (m & sa & Ea & E). injection Ea as Em <-.
  apply bind_st_inv in E as ([] & sb & Eb & E). apply bind_st_inv in E as (x & sc & Ec & E). injection Ec as <- <-.
  apply bind_st_inv in E as (r & sd & Ed & E). unfold lift, State_root, state_root_hash, TreeDB_root in Ed.
  injection Ed as <- <-. injection E as <- <-. eauto.
Qed.

Lemma expected_header_inv c b h :
  expected_header network c b = Ok h -> exists bits s0 s1 merkle, processed c b h bits s0 s1 merkle.
Proof.
  unfold expected_header. destruct (prepare_header _ _ _) as [h1|e|] eqn:Ep; try discriminate. cbn [mbind result_bind].
  apply prepare_header_inv in Ep as (p & bits & Hp & Hw & ->).
  destruct (BS_get_header_by_hash _ _) as [[parent|]|e|] eqn:Eh; try discriminate. cbn [ok_or_else ok_or mbind result_bind].
  unfold get_state_at. destruct (get_sate_at _ _) as [s0|e|] eqn:Es; try discriminate. cbn [mbind result_bind].
  destruct (finalize _ _ s0) as [r s1] eqn:Ef. cbn [fst]. intros ->.
  apply finalize_inv in Ef as (merkle & Em & Er & ->). cbn [set_work coinbase level] in Er.
  exists bits, s0, s1, merkle. split; eauto.
Qed.

Lemma process_block_inv c b b' :
  process_block network clock c b = Ok b' ->
  b' = b /\ exists h, expected_header network c b = Ok h /\ header_hash h = block_hash b /\
    verify_header network (chain_reader (cs_store c)) (clock h) h = Ok tt.
Proof.
  unfold process_block. destruct (expected_header _ _ _) as [h|e|]; try discriminate. cbn [mbind result_bind].
  destruct (verify_header _ _ _ _) as [[]|e|] eqn:Ev; try discriminate. cbn [conv mbind result_bind].
  case_bool_decide as Hh; try discriminate. intros [= <-]. eauto 6.
Qed.

(** A block whose header says what it has to. *)
Record justified (c : ChainState) (b : Block) : Prop := {
  j_chain : header_chain_id (header b) = chain_id network;
  j_work : exists p,
    get_header (chain_reader (cs_store c)) (parent_hash (header b)) (u32 (level (header b) - 1)) = Ok (Some p) /\
    work_required network (chain_reader (cs_store c)) (ih_hash p) (time (header b)) (u32 (level (header b) + 1)) =
      Ok (difficulty (header b));
  j_transactions : exists merkle, tx_merkle (transactions b) = Ok merkle /\ root merkle = tx_root (header b);
  j_state : exists parent s0 s1,
    BS_get_header_by_hash (cs_store c) (parent_hash (header b)) = Ok (Some parent) /\
    get_sate_at (cs_state c) (state_root (raw parent)) = Ok s0 /\
    apply_block (StateDB_apply_txs (transactions b)) (coinbase (header b)) (level (header b)) s0 = (Ok tt, s1) /\
    root (head (trie s1)) = state_root (header b);
  j_pow : exists max, from_u256 (E:=anyhow) (max_difficulty network) = Ok max /\
    is_valid_proof_of_work max (difficulty (header b)) (block_hash b) = true;
  j_time : i64 (time (header b)) < i64 (BLOCK_MAX_FUTURE + clock (header b));
}.

Lemma verify_header_inv chain now h :
  verify_header network chain now h = Ok tt ->
  i64 (time h) < i64 (BLOCK_MAX_FUTURE + now) /\
  exists max, from_u256 (E:=anyhow) (max_difficulty network) = Ok max /\
    is_valid_proof_of_work max (difficulty h) (header_hash h) = true.
Proof.
  unfold verify_header. destruct (get_header chain _ _) as [[p|]|e|]; try discriminate.
  cbn [ok_or_else ok_or mbind result_bind]. destruct (_ <? _) eqn:Et; cbn [ensure mbind result_bind]; [|discriminate].
  apply Z.ltb_lt in Et. destruct (from_u256 _) as [max|e|]; try discriminate. cbn [mbind result_bind].
  destruct (is_valid_proof_of_work _ _ _) eqn:Ew; [|discriminate]. eauto.
Qed.

Lemma processed_justified c b bits s0 s1 merkle :
  processed c b (header b) bits s0 s1 merkle ->
  verify_header network (chain_reader (cs_store c)) (clock (header b)) (header b) = Ok tt -> justified c b.
Proof.
  intros [Ph Pw (parent & Hp & Hs) Pm Pr] Pv. apply verify_header_inv in Pv as [Ht Hpow].
  assert (bits = difficulty (header b)) as -> by (rewrite Ph; reflexivity).
  split; auto.
  - rewrite Ph. reflexivity.
  - exists merkle. split; auto. rewrite Ph. reflexivity.
  - exists parent, s0, s1. repeat split; auto. rewrite Ph. reflexivity.
Qed.

(** The stored headers and trees are what their types say. *)
Record typed_store (c : ChainState) : Prop := {
  ty_headers h ih : BS_get_header_by_hash (cs_store c) h = Ok (Some ih) -> wf_header (raw ih);
  ty_trees r T : trie_get (db (trie (cs_state c))) r = Ok T -> wf_smt T;
}.

Lemma expected_header_wf c b h bits s0 s1 merkle :
  typed_store c -> wf_header (header b) -> processed c b h bits s0 s1 merkle -> wf_header h.
Proof.
  intros [Th Tt] (H1' & H2' & H3' & H4' & H5' & H6' & H7' & H8' & H9' & H10' & H11')
    [-> (p & _ & Hw) (parent & _ & Hs) Pm Pr].
  assert (is_u 32 bits) as Hb by (eapply work_required_u32; [|exact Hw]; exact Th).
  assert (wf_state s0) as W0.
  { unfold get_sate_at, TreeDB_open_read_only_at_root in Hs.
    destruct (trie_get _ _) as [T|e|] eqn:E; try discriminate. apply Tt in E. injection Hs as <-. now split. }
  destruct (apply_block_preserves (transactions b) (coinbase (header b)) (level (header b)) s0 W0) as [W1 _].
  rewrite Pr in W1. destruct W1 as (_ & W1 & _). apply tx_merkle_wf in Pm.
  split; [exact H1'|]. split; [exact H2'|]. split; [apply Pm|]. split; [apply W1|].
  split; [exact H5'|]. split; [exact H6'|]. split; [exact Hb|]. split; [|auto].
  change (is_u 32 (chain_id network)). unfold is_u. destruct network; cbn [chain_id]; lia.
Qed.

(** A block with another header than the expected one has a hash with two preimages. *)
Lemma expected_header_cases c b h :
  typed_store c -> wf_header (header b) -> expected_header network c b = Ok h -> header_hash h = block_hash b ->
  h = header b \/ collides dhash256 (consensus_encode h) (consensus_encode (header b)).
Proof.
  intros Ty W E Hh. destruct (decide (h = header b)) as [|Hne]; [now left | right]. split; [|exact Hh].
  apply expected_header_inv in E as (bits & s0 & s1 & merkle & P).
  intros Ee. apply Hne, consensus_encode_inj; auto. eapply expected_header_wf; eauto.
Qed.

(** C7 A block that passes the checks of [process_block] has the chain
    identifier of the network, the work required at its place in the chain, the
    root of its transactions and the state root its execution on the parent
    state leads to, and its hash meets its target: else its header and the
    expected header, two different headers, have the same hash. *)
Theorem process_block_sound c b b' :
  typed_store c -> wf_header (header b) -> process_block network clock c b = Ok b' ->
  b' = b /\ (justified c b \/
    exists h, expected_header network c b = Ok h /\
      collides dhash256 (consensus_encode h) (consensus_encode (header b))).
Proof.
  intros Ty W E. apply process_block_inv in E as (-> & h & Ee & Hh & Hv). split; auto.
  destruct (expected_header_cases _ _ _ Ty W Ee Hh) as [->|F]; [left | right; eauto].
  apply expected_header_inv in Ee as (bits & s0 & s1 & merkle & P). eauto using processed_justified.
Qed.

End Soundness.

(** ** Blocks on other branches *)

Section Branch.
Context `{CryptoLaws} `{BincodeLaws} `{WasmVMInstance} `{!WasmVMLaws}.
Variable hash_order : Column -> list (bytes * bytes).
(** Iterating over a [HashMap] yields its entries. *)
Hypothesis hash_order_in : forall m k v, In (k, v) (hash_order m) -> m !! k = Some v.

Lemma encode_op_vec op k v : encode_op codec_Address prost_AccountState op = Ok (k, v) -> is_vec v.
Proof.
  destruct op as [a|a x]; [|intros E; now apply (encode_put_vec _ _ prost_AccountState_vec) in E].
  intros [= _ <-]. now apply (bin_IValue_vec Deleted).
Qed.
Lemma encode_batch_vec batch acc m :
  map_Forall (fun _ v => is_vec v) acc -> encode_batch codec_Address prost_AccountState batch acc = Ok m ->
  map_Forall (fun _ v => is_vec v) m.
Proof.
  revert acc. induction batch as [|op batch IH]; intros acc Ha; cbn [encode_batch]; [now intros [= <-]|].
  destruct (encode_op _ _ op) as [[k v]|e|] eqn:E; try discriminate. cbn [mbind result_bind].
  apply IH, map_Forall_insert_2; auto. exact (encode_op_vec _ _ _ E).
Qed.
Lemma update_all_preserves m :
  map_Forall (fun _ v => is_vec v) m -> preserves wf_smt (update_all keccak256 hash_order m).
Proof.
  intros Hm. apply (preserves_for_each _ _ _ (fun kv => is_vec kv.2)).
  - apply Forall_forall. intros [k v] Hin. apply hash_order_in in Hin. exact (Hm k v Hin).
  - intros [k v] Hv. apply preserves_bind; [|intros; apply preserves_ret].
    now apply preserves_map_err, update_preserves.
Qed.

(** The state apart from the contents of the key-value databases. *)
Record idle (t : TreeDB) (s : State) : Prop := {
  idle_trie : trie s = t;
  idle_rw : read_only s = false;
  idle_kv : Forall (fun d => kv_read_only d = false /\ kv_staging d = ∅) [appdata s; metadata s];
}.
Lemma kv_put_idle {K V} (KC : Codec K) (VC : Codec V) k v :
  preserves (fun d => kv_read_only d = false /\ kv_staging d = ∅) (KvDB_put KC VC k v).
Proof.
  unfold KvDB_put. do 2 (apply preserves_lift_bind; intros ? _). intros d [Hr Hs].
  change ((gets kv_read_only ≫= ?f) d) with (f (kv_read_only d) d). rewrite Hr. now split.
Qed.
Lemma run_block_idle t accounts states : preserves (idle t) (run_block accounts states).
Proof.
  apply run_block_preserves; intros k d;
    (eapply preserves_zoom; [| |apply kv_put_idle]; intros s; [intros [_ _ Hk] | intros x [Ht Hr Hk] Hx]).
  - exact (Forall_inv Hk).
  - split; auto. constructor; [exact Hx | exact (Forall_inv_tail Hk)].
  - exact (Forall_inv (Forall_inv_tail Hk)).
  - split; auto. constructor; [exact (Forall_inv Hk) | constructor; [exact Hx | constructor]].
Qed.

(** Executing without committing stores the resulting tree and leaves the head alone. *)
Lemma apply_no_commit_quiet s r at_root reward miner txs r' s' :
  live s r -> (forall r T, trie_get (db (trie s)) r = Ok T -> wf_smt T) ->
  apply_txs_no_commit hash_order at_root reward miner txs s = (Ok r', s') ->
  exists T, root T = r' /\ wf_smt T /\ idle (set_db (put_tree r' T (db (trie s))) (trie s)) s'.
Proof.
  intros L Tt E. unfold apply_txs_no_commit in E. apply bind_st_inv in E as (x & sx & Ex & E). injection Ex as <- <-.
  apply bind_st_inv in E as ([accounts states] & sa & Ea & E). injection Ea as _ <-.
  apply bind_st_inv in E as (st & sb & Eb & E).
  destruct (run_block_idle (trie s) accounts states s) as [[Ib1 Ib2 Ib3] _]; [split; auto; apply L|].
  rewrite Eb in Ib1, Ib2, Ib3. cbn [snd] in Ib1, Ib2, Ib3.
  apply bind_st_inv in E as (y & sy & Ey & E). injection Ey as <- <-.
  apply bind_st_inv in E as (acc & sc & Ec & E). injection Ec as _ <-.
  cbv zeta in E. unfold zoom in E. rewrite Ib1 in E.
  destruct (TreeDB_apply_non_commit _ _ _ _ _ _ (trie s)) as [res t'] eqn:Et. injection E as -> <-.
  unfold TreeDB_apply_non_commit in Et. apply bind_st_inv in Et as (D & t1 & E1 & Et). injection E1 as <- <-.
  apply bind_st_inv in Et as (T0 & t2 & E2 & Et). injection E2 as E2 <-. apply Tt in E2.
  apply bind_st_inv in Et as (m & t3 & E3 & Et). injection E3 as E3 <-.
  apply encode_batch_vec in E3; [|apply map_Forall_empty].
  apply bind_st_inv in Et as (T & t4 & E4 & Et). injection E4 as E4 <-.
  destruct (update_all_preserves m E3 T0 E2) as [W _]. unfold exec in E4.
  destruct (update_all _ _ m T0) as [[[]|e|] T1]; try discriminate. injection E4 as ->. cbn [snd] in W.
  apply bind_st_inv in Et as ([] & t5 & E5 & Et). injection E5 as <-. injection Et as <- <-.
  exists T. split; [reflexivity|]. split; [exact W|]. split; auto.
Qed.

(** When that fails, no tree is stored either. *)
Lemma non_commit_fails at_root batch t r t' :
  TreeDB_apply_non_commit keccak256 codec_Address prost_AccountState hash_order at_root batch t = (r, t') ->
  (forall x, r <> Ok x) -> t' = t.
Proof.
  unfold TreeDB_apply_non_commit, mbind, stM_bind, gets, lift.
  destruct (trie_get _ _) as [T|e|]; [|congruence..]. destruct (encode_batch _ _ _ _) as [m|e|]; [|congruence..].
  destruct (exec _ _) as [T1|e|]; [|congruence..]. intros [= <- <-] Hr. now destruct (Hr (root T1)).
Qed.
Lemma apply_no_commit_fails s r at_root reward miner txs res s' :
  live s r -> apply_txs_no_commit hash_order at_root reward miner txs s = (res, s') ->
  (forall x, res <> Ok x) -> idle (trie s) s'.
Proof.
  intros L. assert (idle (trie s) s) as I by (split; auto; apply L). unfold apply_txs_no_commit.
  unfold mbind at 1, stM_bind at 1, gets at 1. unfold mbind at 1, stM_bind at 1, lift at 1.
  destruct (collect_txs _ _ _ _) as [[accounts states]|e|]; [|intros [= _ <-] _; exact I..].
  unfold mbind at 1, stM_bind at 1. destruct (run_block_idle (trie s) accounts states s I) as [I1 _].
  destruct (run_block accounts states s) as [[st|e|] s1]; cbn [snd] in I1; [|intros [= _ <-] _; exact I1..].
  unfold mbind at 1, stM_bind at 1, gets at 1. unfold mbind at 1, stM_bind at 1, lift at 1.
  destruct (get_at_root _ _ _ _ _ _) as [[a|]|e|]; [| | |intros [= _ <-] _; exact I1].
  all: cbv zeta; unfold zoom; destruct (TreeDB_apply_non_commit _ _ _ _ _ _ (trie s1)) as [r1 t1] eqn:E;
    intros [= -> <-] Hr; rewrite (non_commit_fails _ _ _ _ _ E Hr); destruct I1 as [It Ir Ik]; now split.
Qed.

(** Resetting to a tree just stored. *)
Lemma reset_live t s r T :
  idle t s -> strategy t = Partial -> r <> H256_zero -> root T = r -> wf_smt T -> trie_get (db t) r = Ok T ->
  exists s', State_reset r s = (Ok tt, s') /\ live s' r /\ db (trie s') = db t.
Proof.
  intros [It Ir Ik] Hst Hz Hr W Hg. unfold State_reset, zoom, TreeDB_reset. rewrite It.
  eexists. split; [|split].
  - st_step reflexivity. st_step (unfold lift; rewrite Hg; reflexivity). st_step reflexivity.
    rewrite restage_ok by exact Hst. reflexivity.
  - split; auto. 
  - reflexivity.
Qed.

End Branch.

(** ** Removing the stale chain *)

Section Stale.
Context `{ChainCodecs} `{CryptoPrims}.

(** Deleting a block only frees its level. *)
Lemma BlockStorage_delete_spec hash lvl s :
  has_columns s -> exists s', BlockStorage_delete hash lvl s = (Ok tt, s') /\ has_columns s' /\
    KV_get BlockByLevel s' lvl = Ok None /\
    (forall l, to_be 4 l <> to_be 4 lvl -> KV_get BlockByLevel s' l = KV_get BlockByLevel s l) /\
    (forall S k, s_column S <> s_column BlockByLevel -> KV_get S s' k = KV_get S s k).
Proof.
  intros Hs. destruct (has_columns_in s _ Hs (or_intror (or_intror (or_introl eq_refl)))) as [col Hc].
  exists (<[s_column BlockByLevel := delete (to_be 4 lvl) col]> s). split; [|split; [|split; [|split]]].
  - unfold BlockStorage_delete, KV_delete. st_step reflexivity. st_step reflexivity.
    st_step (unfold lift, MemStore_column; rewrite Hc; reflexivity). reflexivity.
  - now apply has_columns_insert.
  - rewrite (KV_get_ok BlockByLevel _ lvl (to_be 4 lvl) (delete (to_be 4 lvl) col) eq_refl) by apply lookup_insert_eq.
    now rewrite lookup_delete_eq.
  - intros l Hl. rewrite (KV_get_ok BlockByLevel _ l (to_be 4 l) (delete (to_be 4 lvl) col) eq_refl) by apply lookup_insert_eq.
    rewrite (KV_get_ok BlockByLevel s l (to_be 4 l) col eq_refl Hc). now rewrite lookup_delete_ne.
  - intros S k Hne. unfold KV_get, MemStore_column. now rewrite lookup_insert_ne.
Qed.
Lemma delete_get_header s s' :
  (forall S k, s_column S <> s_column BlockByLevel -> KV_get S s' k = KV_get S s k) ->
  forall h, BS_get_header_by_hash s' h = BS_get_header_by_hash s h.
Proof.
  intros Hf h. unfold BS_get_header_by_hash, BS_get_header. rewrite Hf by discriminate.
  destruct (KV_get BlockByHash s h) as [[k|]|e|]; auto. cbn [mbind result_bind]. now rewrite Hf.
Qed.

(** The loop that removes the stale chain stops too early or too late: unless
    the head is a child of the fork point only the level of the head is freed,
    and if it is, the level of the fork point, which stays on the chain, is
    freed as well. *)
Theorem remove_stale_levels fork head_ h s :
  has_columns s -> BS_get_header_by_hash s head_ = Ok (Some h) ->
  (parent_hash (raw h) <> fork ->
     exists s', remove_stale fork head_ s = (Ok tt, s') /\ KV_get BlockByLevel s' (level (raw h)) = Ok None /\
       forall l, to_be 4 l <> to_be 4 (level (raw h)) -> KV_get BlockByLevel s' l = KV_get BlockByLevel s l) /\
  (forall f, parent_hash (raw h) = fork -> BS_get_header_by_hash s fork = Ok (Some f) -> parent_hash (raw f) <> fork ->
     exists s', remove_stale fork head_ s = (Ok tt, s') /\ KV_get BlockByLevel s' (level (raw f)) = Ok None).
Proof.
  intros Hs Hh. destruct (BlockStorage_delete_spec head_ (level (raw h)) s Hs) as (s1 & E1 & Hs1 & G1 & L1 & F1).
  unfold remove_stale. cbn [remove_stale_loop]. split.
  - intros Hp. exists s1. split; auto. st_step reflexivity. rewrite Hh. cbv zeta. st_step (exact E1).
    now rewrite bool_decide_eq_false_2.
  - intros f Hp Hf Hpf.
    destruct (BlockStorage_delete_spec fork (level (raw f)) s1 Hs1) as (s2 & E2 & _ & G2 & _).
    exists s2. split; [|exact G2]. st_step reflexivity. rewrite Hh. cbv zeta. st_step (exact E1).
    rewrite bool_decide_eq_true_2 by exact Hp. cbn [negb]. rewrite Hp.
    st_step reflexivity. rewrite (delete_get_header s s1 F1), Hf. cbv zeta. st_step (exact E2).
    now rewrite bool_decide_eq_false_2.
Qed.

(** One iteration. *)
Lemma remove_stale_step n fork head_ h s :
  has_columns s -> BS_get_header_by_hash s head_ = Ok (Some h) ->
  exists s', has_columns s' /\ (forall x, BS_get_header_by_hash s' x = BS_get_header_by_hash s x) /\
    remove_stale_loop (S n) fork head_ s =
      if bool_decide (parent_hash (raw h) = fork) then remove_stale_loop n fork fork s' else (Ok tt, s').
Proof.
  intros Hs Hh. destruct (BlockStorage_delete_spec head_ (level (raw h)) s Hs) as (s1 & E1 & Hs1 & _ & _ & F1).
  exists s1. split; auto. split; [now apply delete_get_header|]. cbn [remove_stale_loop]. st_step reflexivity.
  rewrite Hh. cbv zeta. st_step (exact E1). case_bool_decide as Hp; [now rewrite Hp | reflexivity].
Qed.
(** Three iterations decide: a loop that has not stopped by then never stops. *)
Lemma remove_stale_loop_stuck fork head_ s n :
  has_columns s -> (remove_stale_loop 3 fork head_ s).1 = Panic -> (remove_stale_loop n fork head_ s).1 = Panic.
Proof.
  assert (forall n s h, has_columns s -> BS_get_header_by_hash s fork = Ok (Some h) -> parent_hash (raw h) = fork ->
    (remove_stale_loop n fork fork s).1 = Panic) as Hloop.
  { clear. intros n. induction n as [|n IH]; intros s h Hs Hh Hp; [reflexivity|].
    destruct (remove_stale_step n fork fork h s Hs Hh) as (s1 & Hs1 & F & ->). rewrite bool_decide_eq_true_2 by exact Hp.
    apply (IH s1 h); auto. now rewrite F. }
  assert (forall n x s, (forall h, BS_get_header_by_hash s x <> Ok (Some h)) ->
    (remove_stale_loop (S n) fork x s).1 = (remove_stale_loop 1 fork x s).1) as Hstop.
  { clear. intros n x s Hn. cbn [remove_stale_loop]. unfold mbind, stM_bind, gets.
    destruct (BS_get_header_by_hash s x) as [[h|]|e|]; auto. now destruct (Hn h). }
  destruct n as [|n]; [reflexivity|]. intros Hs.
  destruct (BS_get_header_by_hash s head_) as [[h|]|e|] eqn:Hh; [| rewrite (Hstop 2%nat head_ s), (Hstop n head_ s) by congruence; auto..].
  destruct (remove_stale_step 2 fork head_ h s Hs Hh) as (s2 & Hs2 & F2 & ->).
  destruct (remove_stale_step n fork head_ h s Hs Hh) as (s1 & Hs1 & F1 & ->).
  case_bool_decide as Hp; [|discriminate].
  destruct (BS_get_header_by_hash s fork) as [[f|]|e|] eqn:Hf.
  - destruct (remove_stale_step 1 fork fork f s2 Hs2) as (s3 & Hs3 & F3 & ->); [now rewrite F2|].
    case_bool_decide as Hpf; [|discriminate]. intros _. apply (Hloop n s1 f); auto. now rewrite F1.
  - destruct n as [|n]; auto. rewrite (Hstop 1%nat fork s2), (Hstop n fork s1) by (rewrite ?F1, ?F2, Hf; congruence).
    cbn [remove_stale_loop]. unfold mbind, stM_bind, gets. rewrite F1, F2, Hf. discriminate.
  - destruct n as [|n]; auto. rewrite (Hstop 1%nat fork s2), (Hstop n fork s1) by (rewrite ?F1, ?F2, Hf; congruence).
    cbn [remove_stale_loop]. unfold mbind, stM_bind, gets. rewrite F1, F2, Hf. discriminate.
  - destruct n as [|n]; auto. rewrite (Hstop 1%nat fork s2), (Hstop n fork s1) by (rewrite ?F1, ?F2, Hf; congruence).
    cbn [remove_stale_loop]. unfold mbind, stM_bind, gets. now rewrite F1, F2, Hf.
Qed.

(** Whatever its result, the loop changes the index by level only. *)
Lemma remove_stale_loop_frame n fork head_ s :
  has_columns s -> has_columns (remove_stale_loop n fork head_ s).2 /\
    forall S k, s_column S <> s_column BlockByLevel ->
      KV_get S (remove_stale_loop n fork head_ s).2 k = KV_get S s k.
Proof.
  revert head_ s. induction n as [|n IH]; intros head_ s Hs; [now split|].
  destruct (BS_get_header_by_hash s head_) as [[h|]|e|] eqn:Hh;
    [|now (split; cbn [remove_stale_loop]; unfold mbind, stM_bind, gets; rewrite Hh)..].
  destruct (BlockStorage_delete_spec head_ (level (raw h)) s Hs) as (s1 & E1 & Hs1 & _ & _ & F1).
  cbn [remove_stale_loop]. unfold mbind, stM_bind, gets. rewrite Hh. cbv zeta. rewrite E1.
  destruct (negb _); [split; [exact Hs1|]; exact F1|].
  destruct (IH (parent_hash (raw h)) s1 Hs1) as [Hc Hf]. split; [exact Hc|].
  intros S k Hne. now rewrite Hf, F1.
Qed.

End Stale.

(** ** The state of the node is the one its head commits to *)

Section Consistency.
Context `{CryptoLaws} `{BincodeLaws} `{ChainCodecs} `{WasmVMInstance} `{!WasmVMLaws} `{ChainServices}.
Variable hash_order : Column -> list (bytes * bytes).
Hypothesis hash_order_in : forall m k v, In (k, v) (hash_order m) -> m !! k = Some v.
Variables (network : Network) (clock : BlockHeader -> Z).
Hypothesis header_codec : codec_ok prost_BlockHeader wf_header.
Hypothesis head_codec : codec_ok prost_ChainStateValue wf_header.

(** A header found by some hash is found by its own, and commits to a state. *)
Record found (s : MemStore) (h : BlockHeader) : Prop := {
  found_hash : KV_get BlockByHash s (header_hash h) = Ok (Some (block_key h));
  found_header : KV_get BlockHeaderStorage s (block_key h) = Ok (Some h);
  found_nonzero : state_root h <> H256_zero;
}.
Record consistent (c : ChainState) (h : BlockHeader) : Prop := {
  con_columns : has_columns (cs_store c);
  con_wf : wf_header h;
  con_current : get_current_header (cs_store c) = Ok (Some h);
  con_hash : KV_get BlockByHash (cs_store c) (header_hash h) = Ok (Some (block_key h));
  con_header : KV_get BlockHeaderStorage (cs_store c) (block_key h) = Ok (Some h);
  con_headers k h' : KV_get BlockHeaderStorage (cs_store c) k = Ok (Some h') -> wf_header h';
  con_live : live (cs_state c) (state_root h);
  con_trees r T : trie_get (db (trie (cs_state c))) r = Ok T -> wf_smt T;
  con_roots r T : trie_get (db (trie (cs_state c))) r = Ok T -> root T = r;
  con_found x ih : BS_get_header_by_hash (cs_store c) x = Ok (Some ih) -> found (cs_store c) (raw ih);
}.

Lemma get_header_wf s h ih :
  (forall k h', KV_get BlockHeaderStorage s k = Ok (Some h') -> wf_header h') ->
  BS_get_header_by_hash s h = Ok (Some ih) -> wf_header (raw ih).
Proof.
  intros Hw. unfold BS_get_header_by_hash, BS_get_header.
  destruct (KV_get BlockByHash s h) as [[k|]|e|]; try discriminate. cbn [mbind result_bind].
  destruct (KV_get BlockHeaderStorage s _) as [[h'|]|e|] eqn:E; try discriminate. intros [= <-]. exact (Hw _ _ E).
Qed.
Lemma consistent_typed c h : consistent c h -> typed_store c.
Proof. intros C. split; [|apply C]. intros x ih. apply get_header_wf, C. Qed.
Lemma consistent_current c h : consistent c h -> current_header c = Ok (Some (indexed h)).
Proof. intros C. unfold current_header. now rewrite (con_current _ _ C). Qed.
Lemma consistent_by_hash c h : consistent c h -> BS_get_header_by_hash (cs_store c) (header_hash h) = Ok (Some (indexed h)).
Proof.
  intros C. unfold BS_get_header_by_hash. rewrite (con_hash _ _ C). cbn [mbind result_bind].
  unfold BS_get_header. change {| key_level := _; key_hash := _ |} with (block_key h). now rewrite (con_header _ _ C).
Qed.

Lemma set_current_header_spec h s :
  has_columns s -> wf_header h ->
  exists s', set_current_header h s = (Ok tt, s') /\ has_columns s' /\ get_current_header s' = Ok (Some h) /\
    (forall S k, s_column S <> s_column ChainStateStorage -> KV_get S s' k = KV_get S s k).
Proof.
  intros Hs W. destruct (head_codec h W) as (vb & Hv & Hd).
  destruct (put_written ChainStateStorage CURR_HEAD h s (ok_default [] (encode codec_String CURR_HEAD)) vb Hs) as (s' & E & Wr & Hs');
    [do 4 right; now left | vm_compute; reflexivity | exact Hv|].
  exists s'. split; [exact E|]. split; auto. split.
  - apply (written_get _ _ _ _ _ Wr). intros vb' E'. change (encode prost_ChainStateValue h = Ok vb') in E'.
    assert (vb' = vb) as -> by congruence. exact Hd.
  - intros S k Hne. apply (written_other _ _ _ _ _ _ _ Wr). congruence.
Qed.

(** Storing a block in a chain that already has the state of its head. *)
Lemma BlockStorage_put_encodes b s s' :
  BlockStorage_put b s = (Ok tt, s') -> exists tb, encode prost_Transactions (transactions b) = Ok tb.
Proof.
  unfold BlockStorage_put. intros E. apply bind_st_inv in E as (key & s1 & _ & E).
  apply bind_st_inv in E as ([] & s2 & E & _). unfold KV_put in E.
  apply bind_st_inv in E as (k & s3 & _ & E). apply bind_st_inv in E as (v & s4 & E & _).
  unfold lift in E. injection E as E _. eauto.
Qed.

Definition fresh (s : MemStore) (b : Block) : Prop :=
  KV_get BlockHeaderStorage s (block_key (header b)) = Ok None \/
  KV_get BlockHeaderStorage s (block_key (header b)) = Ok (Some (header b)).

(** No stored header has the hash of the block, but the block's own. *)
Definition distinct (s : MemStore) (b : Block) : Prop :=
  forall x ih, BS_get_header_by_hash s x = Ok (Some ih) ->
    ~ collides dhash256 (consensus_encode (raw ih)) (consensus_encode (header b)).

(** The chain once the state and the head are updated, the block not yet stored. *)
Record advanced (c c1 : ChainState) (h' : BlockHeader) : Prop := {
  adv_columns : has_columns (cs_store c1);
  adv_current : get_current_header (cs_store c1) = Ok (Some h');
  adv_frame S k : s_column S <> s_column ChainStateStorage -> KV_get S (cs_store c1) k = KV_get S (cs_store c) k;
  adv_live : live (cs_state c1) (state_root h');
  adv_trees r T : trie_get (db (trie (cs_state c1))) r = Ok T -> wf_smt T;
  adv_roots r T : trie_get (db (trie (cs_state c1))) r = Ok T -> root T = r;
  adv_events : cs_events c <> None -> cs_events c1 <> None;
}.

(** The head after a block: the block, or the head there was. *)
Lemma store_block_consistent c h b store' h' c1 :
  consistent c h -> wf_header (header b) -> fresh (cs_store c) b -> distinct (cs_store c) b ->
  state_root (header b) <> state_root h -> state_root (header b) <> H256_zero ->
  h' = header b \/ h' = h -> advanced c c1 h' ->
  BlockStorage_put b (cs_store c1) = (Ok tt, store') -> consistent (set_cs_store store' c1) h'.
Proof.
  intros C W Fr Nf Hr Hz Hh [Hcol Hcur Hfr Hl Ht Hrt _] E. destruct (BlockStorage_put_encodes _ _ _ E) as [tb Etb].
  destruct (BlockStorage_put_spec b (cs_store c1) tb header_codec Hcol W Etb) as (s2 & E2 & Sb).
  { rewrite Hfr by discriminate. exact Fr. }
  assert (s2 = store') as -> by congruence.
  assert (forall x ih, BS_get_header_by_hash (cs_store c) x = Ok (Some ih) -> raw ih <> header b ->
    header_hash (raw ih) <> block_hash b) as Hnf.
  { intros x ih Hx Hn Eh. apply (Nf x ih Hx). split; [|exact Eh].
    intros Ee. apply Hn, consensus_encode_inj; auto. exact (get_header_wf _ _ _ (con_headers _ _ C) Hx). }
  assert (header_hash h <> block_hash b) as Hne.
  { apply (Hnf _ _ (consistent_by_hash _ _ C)). intros Ee. apply Hr. now rewrite <- Ee. }
  assert (wf_header h') as W' by (destruct Hh as [->| ->]; [exact W | apply C]).
  split; cbn [cs_store set_cs_store cs_state]; auto.
  - apply Sb.
  - unfold get_current_header in *. now rewrite (sb_head _ _ _ Sb).
  - destruct Hh as [->| ->]; [apply Sb|].
    rewrite (sb_other_hash _ _ _ Sb), Hfr by (auto || discriminate). apply C.
  - destruct Hh as [->| ->]; [apply Sb|].
    rewrite (sb_other_header _ _ _ Sb), Hfr; [apply C | discriminate | now apply wf_block_key|].
    intros Ek. apply Hne. exact (f_equal key_hash Ek).
  - intros k x. destruct (sb_any_header _ _ _ Sb k) as [->| ->]; [now intros [= <-]|].
    rewrite Hfr by discriminate. apply (con_headers _ _ C).
  - intros x ih Hx. destruct (decide (raw ih = header b)) as [->|Hb]; [split; [apply Sb | apply Sb | exact Hz]|].
    assert (BS_get_header_by_hash (cs_store c) x = Ok (Some ih)) as Hx'.
    { revert Hx. unfold BS_get_header_by_hash. destruct (decide (x = block_hash b)) as [->|Hxb].
      - rewrite (sb_hash _ _ _ Sb). intros Hx. change (BS_get_header store' (key_hash (block_key (header b)))
          (key_level (block_key (header b))) = Ok (Some ih)) in Hx. unfold BS_get_header in Hx.
        change {| key_level := _; key_hash := _ |} with (block_key (header b)) in Hx. rewrite (sb_header _ _ _ Sb) in Hx.
        injection Hx as <-. now destruct Hb.
      - rewrite (sb_other_hash _ _ _ Sb), Hfr by (auto || discriminate).
        destruct (KV_get BlockByHash (cs_store c) x) as [[k|]|e|]; try discriminate. cbn [mbind result_bind].
        unfold BS_get_header. set (key := {| key_level := _; key_hash := _ |}).
        destruct (sb_any_header _ _ _ Sb key) as [Ek|Ek]; rewrite Ek;
          [intros Hx; injection Hx as <-; now destruct Hb|]. now rewrite Hfr. }
    destruct (con_found _ _ C _ _ Hx') as [F1 F2 F3]. pose proof (Hnf _ _ Hx' Hb) as Hn.
    pose proof (get_header_wf _ _ _ (con_headers _ _ C) Hx') as Wi. split; auto.
    + now rewrite (sb_other_hash _ _ _ Sb), Hfr by (auto || discriminate).
    + rewrite (sb_other_header _ _ _ Sb), Hfr; [exact F2 | discriminate | now apply wf_block_key|].
      intros Ek. apply Hn. exact (f_equal key_hash Ek).
Qed.

(** Changing the state and the head. *)
Lemma advance c h h' s' :
  consistent c h -> wf_header h' -> live s' (state_root h') ->
  (forall r T, trie_get (db (trie s')) r = Ok T -> wf_smt T) ->
  (forall r T, trie_get (db (trie s')) r = Ok T -> root T = r) ->
  exists store1, set_current_header h' (cs_store c) = (Ok tt, store1) /\
    advanced c {| cs_state := s'; cs_store := store1; cs_events := cs_events c |} h'.
Proof.
  intros C W L Ht Hrt. destruct (set_current_header_spec h' (cs_store c)) as (store1 & E & Hc & Hg & Hf); auto; [apply C|].
  exists store1. split; [exact E|]. now split.
Qed.

Lemma put_tree_typed r T s :
  wf_smt T -> (forall r T, trie_get s r = Ok T -> wf_smt T) ->
  forall r' T', trie_get (put_tree r T s) r' = Ok T' -> wf_smt T'.
Proof.
  intros W Ht r' T'. destruct (decide (r = r')) as [->|Hne].
  - rewrite trie_get_put_eq by exact W. now intros [= <-].
  - rewrite trie_get_put_ne by exact Hne. apply Ht.
Qed.

Lemma put_tree_rooted r T s :
  wf_smt T -> root T = r -> (forall r T, trie_get s r = Ok T -> root T = r) ->
  forall r' T', trie_get (put_tree r T s) r' = Ok T' -> root T' = r'.
Proof.
  intros W Hr Ht r' T'. destruct (decide (r = r')) as [<-|Hne].
  - rewrite trie_get_put_eq by exact W. now intros [= <-].
  - rewrite trie_get_put_ne by exact Hne. apply Ht.
Qed.

(** The block extends the head: once [process_block] accepts it, applying it
    cannot fail, but for the receiver of events. *)
Lemma accept_on_head_advances c h b :
  consistent c h -> wf_header (header b) -> expected_header network c b = Ok (header b) ->
  parent_hash (header b) = header_hash h -> state_root (header b) <> state_root h ->
  state_root (header b) <> H256_zero ->
  exists c1, accept_on_head b c = (if cs_events c then Ok tt else Err "channel closed", c1) /\
    advanced c c1 (header b).
Proof.
  intros C W Ee Hp Hne Hz. apply expected_header_inv in Ee as (bits & s0 & s1 & merkle & [Ph _ (parent & Ep & Es) _ Er]).
  rewrite Hp, (consistent_by_hash _ _ C) in Ep. injection Ep as <-. cbn [raw indexed] in Es.
  assert (root (head (trie s1)) = state_root (header b)) as Hroot by (rewrite Ph; reflexivity).
  destruct (apply_block_replay _ _ _ _ _ _ _ (con_live _ _ C) Es Er) as (s' & Ea & L & Hdb); try congruence.
  rewrite Hroot in L, Hdb.
  destruct (advance c h (header b) s' C W L) as (store1 & Eh & [A1 A2 A3 A4 A5 A6 A7]).
  { rewrite Hdb. apply put_tree_typed; [apply L | apply C]. }
  { rewrite Hdb. apply put_tree_rooted; [apply L | apply L | apply C]. }
  unfold accept_on_head.
  st_step (unfold write_state, zoom; rewrite Ea; reflexivity).
  st_step (unfold write_store, zoom; cbn [cs_store set_cs_state]; rewrite Eh; reflexivity).
  st_step reflexivity. st_step (unfold lift, current_header; cbn [cs_store set_cs_store set_cs_state] in *; rewrite A2; reflexivity).
  unfold send_event. st_step reflexivity. cbn [cs_events set_cs_store set_cs_state].
  destruct (cs_events c) as [l|]; eexists; (split; [reflexivity|]); now split.
Qed.

(** Storing further trees leaves the chain consistent. *)
Lemma idle_consistent c h t s' :
  consistent c h -> idle t s' -> head t = head (trie (cs_state c)) -> staging t = staging (trie (cs_state c)) ->
  strategy t = strategy (trie (cs_state c)) -> trie_get (db t) (state_root h) = Ok (head t) ->
  (forall r T, trie_get (db t) r = Ok T -> wf_smt T) -> (forall r T, trie_get (db t) r = Ok T -> root T = r) ->
  consistent (set_cs_state s' c) h.
Proof.
  intros C [It Ir Ik] Eh Es Et Hg Hw Hr. destruct (con_live _ _ C) as [L1 L2 L3 L4 L5 L6 L7 L8].
  split; cbn [cs_store cs_state set_cs_state]; try apply C; rewrite ?It; auto.
  split; rewrite ?It; auto; congruence.
Qed.

(** The root executing a block of another branch leads to, if it does. *)
Definition computed_root (c : ChainState) (b : Block) (r : H256) : Prop :=
  exists ph s', BS_get_header_by_hash (cs_store c) (parent_hash (header b)) = Ok (Some ph) /\
    apply_txs_no_commit hash_order (state_root (raw ph)) (Barossa_miner_reward (level (header b)))
      (coinbase (header b)) (transactions b) (cs_state c) = (Ok r, s').

(** The block is on another branch: it is accepted, or the chain is as before
    but for the tree the execution stored. *)
Lemma accept_on_branch_cases c h b res c1 :
  consistent c h -> wf_header (header b) -> state_root (header b) <> state_root h ->
  state_root (header b) <> H256_zero -> ~ computed_root c b (state_root h) ->
  accept_on_branch hash_order (indexed h) b c = (res, c1) ->
  match res with
  | Ok moved => advanced c c1 (if (moved : bool) then header b else h)
  | _ => consistent c1 h /\ cs_events c1 = cs_events c
  end.
Proof.
  intros C W Hne Hz Hcr. unfold accept_on_branch, computed_root in *.
  unfold mbind at 1, stM_bind at 1, gets at 1. unfold mbind at 1, stM_bind at 1, lift at 1.
  destruct (BS_get_header_by_hash _ _) as [[ph|]|e|] eqn:Ep; [|intros [= <- <-]; now split..].
  unfold mbind at 1, stM_bind at 1, lift at 1. cbn [ok_or_else ok_or].
  unfold mbind at 1, stM_bind at 1, write_state at 1, zoom at 1.
  destruct (apply_txs_no_commit _ _ _ _ _ _) as [r s'] eqn:En.
  assert ((forall x, r <> Ok x) -> consistent (set_cs_state s' c) h) as Hfail.
  { intros Hr. pose proof (apply_no_commit_fails hash_order _ _ _ _ _ _ _ _ (con_live _ _ C) En Hr) as I.
    eapply idle_consistent; eauto; apply C. }
  destruct r as [r|e|]; [|intros [= <- <-]; (split; [now apply Hfail | reflexivity])..]. clear Hfail.
  destruct (apply_no_commit_quiet hash_order hash_order_in _ _ _ _ _ _ _ _ (con_live _ _ C) (con_trees _ _ C) En)
    as (T & Hr & WT & I).
  set (t1 := set_db _ _) in I.
  assert (forall r T, trie_get (db t1) r = Ok T -> wf_smt T) as Ht1 by (apply put_tree_typed; [exact WT | apply C]).
  assert (forall r T, trie_get (db t1) r = Ok T -> root T = r) as Hr1 by (apply put_tree_rooted; [exact WT | exact Hr | apply C]).
  assert (r <> state_root h) as Hrh by (intros ->; apply Hcr; eauto).
  assert (consistent (set_cs_state s' c) h) as C'.
  { eapply idle_consistent; eauto. unfold t1. cbn [db set_db head]. rewrite trie_get_put_ne by exact Hrh. apply (con_live _ _ C). }
  case_bool_decide as Hroot; cbn [negb]; [|intros [= <- <-]; now split].
  destruct (_ <? _).
  - unfold mbind at 1, stM_bind at 1, write_state at 1, zoom at 1. cbn [cs_state set_cs_state].
    destruct (reset_live t1 s' (state_root (header b)) T I) as (s2 & Er & L & Hdb); auto; [apply (con_live _ _ C) | congruence | |].
    { rewrite <- Hroot. unfold t1. cbn [db set_db]. now apply trie_get_put_eq. }
    rewrite Er. unfold mbind at 1, stM_bind at 1, write_store at 1, zoom at 1. cbn [cs_store set_cs_state].
    destruct (advance c h (header b) s2 C W L) as (store1 & Eh & A); [now rewrite Hdb..|]. rewrite Eh.
    intros [= <- <-]. exact A.
  - intros [= <- <-]. destruct C' as [? ? ? ? ? ? L' T' R' ?]. split; auto; apply C.
Qed.

(** The conditions on a block: it leads to a state root other than the
    current one, and no two of the headers compared have the same hash. *)
Record regular (c : ChainState) (h : BlockHeader) (b : Block) : Prop := {
  rg_wf : wf_header (header b);
  rg_fresh : fresh (cs_store c) b;
  rg_encodes : exists tb, encode prost_Transactions (transactions b) = Ok tb;
  rg_root : state_root (header b) <> state_root h;
  rg_computed : ~ computed_root c b (state_root h);
  rg_nonzero : state_root (header b) <> H256_zero;
  rg_distinct : distinct (cs_store c) b;
  rg_expected h2 : expected_header network c b = Ok h2 ->
    ~ collides dhash256 (consensus_encode h2) (consensus_encode (header b));
}.

(** The state of the node stays the one its current header commits to: after a
    block is put, whatever the result, its state root is the one in the header
    of the head, nothing is staged, and its tree is stored.  This holds for every
    kind of transaction; the block has to lead to a new state root
    ([treedb_repeated_root] shows why) and the headers involved not to collide. *)
Definition healthy (c : ChainState) : Prop := (exists h, consistent c h) /\ cs_events c <> None.
Lemma accept_block_cases c h b res c1 :
  consistent c h -> cs_events c <> None -> regular c h b -> expected_header network c b = Ok (header b) ->
  accept_block hash_order b c = (res, c1) ->
  match res with
  | Ok (moved, stored, b') => b' = b /\ stored = true /\ advanced c c1 (if (moved : bool) then header b else h)
  | _ => consistent c1 h /\ cs_events c1 = cs_events c
  end.
Proof.
  intros C Ho [W Fr _ Hne Hcr Hz N1 N2] Ee. unfold accept_block.
  unfold mbind at 1, stM_bind at 1, gets at 1. unfold mbind at 1, stM_bind at 1, lift at 1.
  rewrite (consistent_current _ _ C). unfold mbind at 1, stM_bind at 1, lift at 1. cbn [ok_or_else ok_or].
  unfold mbind at 1, stM_bind at 1. case_bool_decide as Hp; cbn [ih_hash indexed] in Hp.
  - destruct (accept_on_head_advances _ _ _ C W Ee Hp Hne Hz) as (c2 & E2 & A).
    destruct (cs_events c) as [l|]; [|now destruct Ho].
    unfold mbind at 1, stM_bind at 1. rewrite E2. intros [= <- <-]. auto.
  - destruct (accept_on_branch hash_order (indexed h) b c) as [r c2] eqn:Ea.
    pose proof (accept_on_branch_cases _ _ _ _ _ C W Hne Hz Hcr Ea) as A.
    destruct r as [moved|e|]; intros [= <- <-]; auto.
Qed.
Lemma put_block_keeps n h b cur :
  consistent (node_chain n) h -> cs_events (node_chain n) <> None -> regular (node_chain n) h b ->
  healthy (node_chain (put_block hash_order network clock cur b n).2).
Proof.
  intros C Ho R. unfold put_block. unfold mbind at 1, stM_bind at 1, gets at 1. unfold mbind at 1, stM_bind at 1, lift at 1.
  destruct (process_block network clock (node_chain n) b) as [b'|e|] eqn:E1; [|now (split; [exists h|])..].
  apply process_block_inv in E1 as (-> & h2 & Ee & Hh & _).
  destruct (expected_header_cases _ _ _ _ (consistent_typed _ _ C) (rg_wf _ _ _ R) Ee Hh) as [->|F]; [|now apply (rg_expected _ _ _ R) in F].
  unfold mbind at 1, stM_bind at 1, zoom at 1.
  destruct (accept_block hash_order b (node_chain n)) as [res c1] eqn:Ea.
  pose proof (accept_block_cases _ _ _ _ _ C Ho R Ee Ea) as A.
  destruct res as [[[rep st] b']|e|]; [|destruct A as [A1 A2]; (split; [now exists h | cbn; now rewrite A2])..].
  destruct A as (-> & -> & A). unfold mbind at 1, stM_bind at 1, zoom at 1. cbn [node_chain set_node_chain].
  destruct (rg_encodes _ _ _ R) as [tb Etb].
  destruct (BlockStorage_put_spec b (cs_store c1) tb header_codec (adv_columns _ _ _ A) (rg_wf _ _ _ R) Etb) as (s2 & E2 & _).
  { rewrite (adv_frame _ _ _ A) by discriminate. apply R. }
  unfold write_store, zoom. rewrite E2.
  assert (consistent (set_cs_store s2 c1) (if rep then header b else h)) as C'.
  { eapply store_block_consistent; eauto; try apply R. destruct rep; auto. }
  pose proof (adv_events _ _ _ A Ho) as Ho'.
  destruct rep; [|split; [now exists h | exact Ho']].
  unfold mbind, stM_bind, gets. cbn [node_chain node_pool set_node_chain].
  destruct (repack _ _ _ _ _) as [rr pool]. split; [now exists (header b) | exact Ho'].
Qed.

(** Going back to the parent of a block, whatever the result. *)
Lemma rollback_keeps c h b cur :
  consistent c h -> cs_events c <> None -> healthy (rollback_to cur b c).2.
Proof.
  intros C Ho. unfold rollback_to.
  unfold mbind at 1, stM_bind at 1, gets at 1. unfold mbind at 1, stM_bind at 1, lift at 1.
  destruct (BS_get_header_by_hash _ _) as [[ph|]|e|] eqn:Ep; [|now (split; [exists h|])..].
  unfold mbind at 1, stM_bind at 1, lift at 1. cbn [ok_or_else ok_or].
  unfold mbind at 1, stM_bind at 1, write_state, zoom at 1.
  destruct (con_found _ _ C _ _ Ep) as [F1 F2 F3]. destruct (con_live _ _ C) as [L1 L2 L3 L4 L5 L6 L7 L8].
  destruct (trie_get (db (trie (cs_state c))) (state_root (raw ph))) as [T|e|] eqn:Et.
  2,3: unfold State_reset, TreeDB_reset, zoom, mbind, stM_bind, gets, lift; rewrite Et;
    destruct c as [[t a m ro] st ev]; now (split; [exists h|]).
  destruct (reset_live (trie (cs_state c)) (cs_state c) (state_root (raw ph)) T) as (s2 & Er & L & Hdb); auto;
    [now split | exact (con_roots _ _ C _ _ Et) | exact (con_trees _ _ C _ _ Et)|].
  rewrite Er. pose proof (get_header_wf _ _ _ (con_headers _ _ C) Ep) as W.
  unfold mbind at 1, stM_bind at 1, write_store at 1, zoom at 1. cbn [cs_store set_cs_state].
  destruct (advance c h (raw ph) s2 C W L) as (store1 & Eh & [A1 A2 A3 A4 A5 A6 A7]); [rewrite Hdb; apply C..|].
  cbn [cs_store cs_state] in *. rewrite Eh. unfold write_store, zoom. cbn [cs_store set_cs_store set_cs_state].
  destruct (remove_stale_loop_frame 3 (ih_hash ph) (header_hash (raw cur)) store1 A1) as [R1 R2].
  fold (remove_stale (ih_hash ph) (header_hash (raw cur))) in R1, R2.
  destruct (remove_stale _ _ store1) as [r s3]. cbn [snd] in *. split; [exists (raw ph) | exact Ho].
  assert (forall S k, s_column S <> s_column BlockByLevel -> s_column S <> s_column ChainStateStorage ->
    KV_get S s3 k = KV_get S (cs_store c) k) as Fr by (intros S k N1 N2; now rewrite R2, A3).
  split; cbn [cs_store cs_state set_cs_store set_cs_state]; auto.
  - unfold get_current_header in *. now rewrite R2.
  - now rewrite Fr.
  - now rewrite Fr.
  - intros k h'. rewrite Fr by discriminate. apply (con_headers _ _ C).
  - intros x ih. unfold BS_get_header_by_hash, BS_get_header. rewrite Fr by discriminate.
    intros Hx. assert (BS_get_header_by_hash (cs_store c) x = Ok (Some ih)) as Hx'.
    { revert Hx. unfold BS_get_header_by_hash, BS_get_header.
      destruct (KV_get BlockByHash (cs_store c) x) as [[k|]|e|]; auto. cbn [mbind result_bind]. now rewrite Fr. }
    destruct (con_found _ _ C _ _ Hx') as [G1 G2 G3]. split; auto; now rewrite Fr.
Qed.

(** [put_chain] up to its loop, and the loop. *)
Definition put_start (blocks : list Block) : stM Node anyhow IndexedBlockHeader :=
  c ← gets node_chain;
  o ← lift (current_header c);
  current_head ← lift (ok_or_else o "failed to load current head, state invalid");
  first_block ← lift (unwrap (hd_error blocks));
  _ ← (if negb (bool_decide (parent_hash (header first_block) = ih_hash current_head))
          && (u32 (level (header first_block) - 1) <? level (raw current_head))
       then zoom node_chain set_node_chain (rollback_to current_head first_block)
       else mret tt);
  mret current_head.
Lemma put_chain_split blocks n :
  put_chain hash_order network clock blocks n =
    (cur ← put_start blocks; for_each blocks (put_block hash_order network clock cur)) n.
Proof.
  unfold put_chain, put_start, mbind, stM_bind, gets, lift.
  destruct (current_header (node_chain n)) as [o|e|]; [|reflexivity..].
  destruct (ok_or_else o _) as [cur|e|]; [|reflexivity..]. destruct (unwrap (hd_error blocks)) as [b|e|]; [|reflexivity..].
  destruct (_ && _); [|reflexivity]. now destruct (zoom node_chain set_node_chain _ n) as [[[]|e|] n'].
Qed.
Lemma put_start_keeps blocks n h :
  consistent (node_chain n) h -> cs_events (node_chain n) <> None -> healthy (node_chain (put_start blocks n).2).
Proof.
  intros C Ho. unfold put_start, mbind, stM_bind, gets, lift. rewrite (consistent_current _ _ C). cbn [ok_or_else ok_or].
  destruct (unwrap (hd_error blocks)) as [b|e|]; [|now (split; [exists h|])..]. destruct (_ && _); [|now (split; [exists h|])].
  pose proof (rollback_keeps _ _ b (indexed h) C Ho) as R. unfold zoom.
  now destruct (rollback_to (indexed h) b (node_chain n)) as [[[]|e|] c'].
Qed.

(** Every block is regular when its turn comes. *)
Fixpoint regular_run (cur : IndexedBlockHeader) (blocks : list Block) (n : Node) : Prop :=
  match blocks with
  | [] => True
  | b :: blocks =>
    (forall h, get_current_header (cs_store (node_chain n)) = Ok (Some h) -> regular (node_chain n) h b) /\
    (forall n', put_block hash_order network clock cur b n = (Ok tt, n') -> regular_run cur blocks n')
  end.
Lemma put_blocks_keep cur blocks n :
  healthy (node_chain n) -> regular_run cur blocks n ->
  healthy (node_chain (for_each blocks (put_block hash_order network clock cur) n).2).
Proof.
  revert n. induction blocks as [|b blocks IH]; intros n Hn; [easy|]. destruct Hn as [[h C] Ho]. intros [R1 R2].
  pose proof (put_block_keeps n h b cur C Ho (R1 h (con_current _ _ C))) as K.
  cbn [for_each]. unfold mbind, stM_bind. destruct (put_block _ _ _ cur b n) as [[[]|e|] n1] eqn:E; [|exact K..].
  apply IH; auto.
Qed.

End Consistency.

(** ** The genesis *)

Section Genesis.
Context `{CryptoLaws} `{BincodeLaws} `{ChainCodecs} `{WasmVMInstance} `{!WasmVMLaws} `{ChainServices}.
Variable network : Network.
Variable account_order : Accounts -> list (Address * AccountState).
Hypothesis header_codec : codec_ok prost_BlockHeader wf_header.
Hypothesis head_codec : codec_ok prost_ChainStateValue wf_header.

(** A state in which only the staging tree and the key-value databases changed. *)
Record begun (D : MemoryStore) (T : SparseMerkleTree) (s : State) : Prop := {
  bg_db : db (trie s) = D;
  bg_head : head (trie s) = T;
  bg_wf : wf_state s;
  bg_rw : read_only s = false;
  bg_kv : Forall (fun d => kv_read_only d = false /\ kv_staging d = ∅) [appdata s; metadata s];
}.

Lemma begun_put_account D T a x : preserves (begun D T) (put_account a x).
Proof.
  intros s [Hd Hh W Hr Hk]. destruct (put_account_preserves a x s W) as [W' _].
  split; [|auto]. assert (db (trie (put_account a x s).2) = db (trie s) /\ head (trie (put_account a x s).2) = head (trie s) /\
    read_only (put_account a x s).2 = read_only s /\ appdata (put_account a x s).2 = appdata s /\
    metadata (put_account a x s).2 = metadata s) as (E1 & E2 & E3 & E4 & E5).
  { unfold put_account, zoom, TreeDB_put, mbind, stM_bind, lift. destruct (encode_op _ _ _) as [[k v]|e|]; [|auto 6..].
    unfold zoom. destruct (tree_update _ _ _ _) as [[r|e|] T']; repeat split. }
  split; auto; rewrite ?E1, ?E2, ?E3, ?E4, ?E5; auto.
Qed.
Lemma begun_set_app_data D T k d : preserves (begun D T) (set_app_data k d).
Proof.
  eapply preserves_zoom; [| |apply kv_put_idle]; [intros s [_ _ _ _ Hk]; exact (Forall_inv Hk)|].
  intros s x [Hd Hh W Hr Hk] Hx. split; auto. constructor; [exact Hx | exact (Forall_inv_tail Hk)].
Qed.
Lemma begun_put_metadata D T k d : preserves (begun D T) (put_metadata k d).
Proof.
  eapply preserves_zoom; [| |apply kv_put_idle]; [intros s [_ _ _ _ Hk]; exact (Forall_inv (Forall_inv_tail Hk))|].
  intros s x [Hd Hh W Hr Hk] Hx. split; auto. constructor; [exact (Forall_inv Hk) | constructor; [exact Hx | constructor]].
Qed.

Lemma begun_builtin D T app : preserves (fun e => begun D T (ex_state e)) (create_builtin network app).
Proof.
  assert (forall m : stM State anyhow unit, preserves (begun D T) m ->
    preserves (fun e => begun D T (ex_state e)) (zoom ex_state set_ex_state m)) as Hz.
  { intros m. now apply preserves_zoom. }
  destruct app as [pkn bin]. unfold create_builtin. apply preserves_lift_bind. intros a _.
  apply preserves_bind; [apply preserves_gets|]. intros s. apply preserves_lift_bind. intros [desc c] _. cbv zeta.
  apply preserves_bind; [now intros e He|]. intros _. apply preserves_bind.
  - unfold account_mut. apply preserves_bind; [apply preserves_gets|]. intros m. apply preserves_lift_bind. now intros x _ e He.
  - intros _. apply preserves_bind; [apply Hz, begun_set_app_data|]. intros _. apply Hz, begun_put_metadata.
Qed.
Lemma begun_builtins D T apps : preserves (begun D T) (create_builtins network apps).
Proof.
  intros s Hs. unfold create_builtins.
  destruct (preserves_for_each (fun e => begun D T (ex_state e)) apps (create_builtin network) (fun _ => True)
    (Forall_true _ _ (fun _ => Logic.I)) (fun x _ => begun_builtin D T x) {| ex_state := s; ex_accounts := ∅ |} Hs) as [B _].
  destruct (for_each _ _ _) as [[[]|e|] e1]; split; auto.
Qed.
Lemma begun_root_hash D T : preserves (begun D T) (s ← gets (fun s => s); lift (state_root_hash s)).
Proof. apply root_hash_preserves. Qed.

Lemma commit_begun D T s s' :
  begun D T s -> State_commit s = (Ok tt, s') -> root (head (trie s')) <> root T -> root (head (trie s')) <> H256_zero ->
  live s' (root (head (trie s'))) /\ db (trie s') = put_tree (root (head (trie s'))) (head (trie s')) D.
Proof.
  intros [Hd Hh (Hs & Wh & Ws) Hr Hk] E Hne Hz. rewrite State_commit_run, Hr in E. cbn [negb] in E.
  assert (root (head (trie s)) <> root (staging (trie s))) as Hch.
  { intros Hs'. rewrite (commit_same _ _ Hs') in E. injection E as <-. apply Hne. cbn. now rewrite Hh. }
  rewrite (commit_changed _ _ Hch Hs) in E. injection E as <-. cbn [set_trie trie head set_staging set_head] in *.
  rewrite Hd. split; [|reflexivity].
  split; cbn [set_trie trie head set_staging set_head db set_db staging strategy read_only appdata metadata]; auto.
  now apply trie_get_put_eq.
Qed.

(** A node that has not started yet. *)
Record blank (c : ChainState) : Prop := {
  bl_state : State_new ∅ ∅ ∅ = Ok (cs_state c);
  bl_columns : has_columns (cs_store c);
  bl_current : get_current_header (cs_store c) = Ok None;
  bl_headers k : KV_get BlockHeaderStorage (cs_store c) k = Ok None;
}.

Lemma blank_begun c : blank c -> begun ∅ smt_new (cs_state c).
Proof.
  intros [E _ _ _]. unfold State_new in E. destruct (TreeDB_open keccak256 ∅) as [t|e|] eqn:Et; try discriminate.
  injection E as <-. pose proof (open_inv keccak256 t Et) as I. injection Et as <-.
  split; auto. split; [reflexivity|]. split; [apply (inv_head_wf _ _ _ _ _ _ I) | apply (inv_wf _ _ _ _ _ _ I)].
Qed.

Lemma genesis_header_wf h : get_genesis_header network = Ok h -> wf_header h.
Proof.
  unfold get_genesis_header. destruct (max_difficulty_compact network) as [bits|e|] eqn:E; try discriminate.
  apply max_difficulty_u32 in E. intros [= <-].
  assert (is_bytes 32 H256_zero) as Hz by (apply (bool_decide_unpack _); vm_compute; exact Logic.I).
  split; [exact Hz|]. split; [exact Hz|]. split; [exact Hz|].
  split; [apply (bool_decide_unpack _); vm_compute; exact Logic.I|]. split; [unfold is_u; cbn; lia|].
  split; [apply (bool_decide_unpack _); vm_compute; exact Logic.I|]. split; [exact E|].
  split; [cbn [header_chain_id]; unfold is_u; destruct network; cbn [chain_id]; lia|].
  repeat split; cbn; lia.
Qed.

(** The state part of [start]. *)
Lemma start_state c built_in genesis c1 c2 c3 c4 h0 st :
  blank c -> get_genesis_header network = Ok genesis ->
  write_state (credit_balance Address_default 1000000000000) c = (Ok h0, c1) ->
  write_state (create_builtins network built_in) c1 = (Ok st, c2) ->
  write_state (for_each (account_order st) (fun '(a, x) => _ ← set_account_state a x; mret tt)) c2 = (Ok tt, c3) ->
  write_state State_commit c3 = (Ok tt, c4) ->
  root (head (trie (cs_state c4))) <> H256_zero ->
  live (cs_state c4) (root (head (trie (cs_state c4)))) /\
  db (trie (cs_state c4)) = put_tree (root (head (trie (cs_state c4)))) (head (trie (cs_state c4))) ∅ /\
  cs_store c4 = cs_store c.
Proof.
  intros B Eg E1 E2 E3 E4 Hz. unfold write_state, zoom in *. apply blank_begun in B.
  destruct (credit_balance _ _ (cs_state c)) as [r1 s1] eqn:R1. injection E1 as -> <-. cbn [cs_state set_cs_state] in *.
  destruct (create_builtins network built_in s1) as [r2 s2] eqn:R2. injection E2 as -> <-. cbn [cs_state set_cs_state] in *.
  destruct (for_each _ _ s2) as [r3 s3] eqn:R3. injection E3 as -> <-. cbn [cs_state set_cs_state] in *.
  destruct (State_commit s3) as [r4 s4] eqn:R4. injection E4 as -> <-. cbn [cs_state cs_store set_cs_state] in *.
  assert (preserves (begun ∅ smt_new) (credit_balance Address_default 1000000000000)) as P1.
  { unfold credit_balance. apply preserves_bind; [apply preserves_gets|]. intros s.
    apply preserves_bind; [apply preserves_lift|]. intros a.
    apply preserves_bind; [apply begun_put_account|]. intros _. apply begun_root_hash. }
  destruct (P1 _ B) as [B1 _]. rewrite R1 in B1. cbn [snd] in B1.
  destruct (begun_builtins ∅ smt_new built_in _ B1) as [B2 _]. rewrite R2 in B2. cbn [snd] in B2.
  assert (preserves (begun ∅ smt_new) (for_each (account_order st) (fun '(a, x) => _ ← set_account_state a x; mret tt))) as P3.
  { apply (preserves_for_each _ _ _ (fun _ => True)); [now apply Forall_true|]. intros [a x] _.
    apply preserves_bind; [|intros; apply preserves_ret]. unfold set_account_state.
    apply preserves_bind; [apply begun_put_account|]. intros _. apply begun_root_hash. }
  destruct (P3 _ B2) as [B3 _]. rewrite R3 in B3. cbn [snd] in B3.
  destruct (commit_begun ∅ smt_new s3 s4 B3 R4 Hz Hz) as [L Hdb]. auto.
Qed.

(** Starting from nothing establishes the invariant. *)
Lemma start_consistent c built_in c' :
  blank c -> ChainState_new network account_order built_in c = (Ok tt, c') ->
  root (head (trie (cs_state c'))) <> H256_zero -> exists h, consistent c' h.
Proof.
  intros B E Hz. unfold ChainState_new in E. apply bind_st_inv in E as (x & cx & Ex & E). injection Ex as <- <-.
  apply bind_st_inv in E as (o & co & Eo & E). unfold lift in Eo. rewrite (bl_current _ B) in Eo. injection Eo as <- <-.
  unfold start in E. apply bind_st_inv in E as (genesis & cg & Eg & E). injection Eg as Eg <-.
  apply bind_st_inv in E as (h0 & c1 & E1 & E). apply bind_st_inv in E as (st & c2 & E2 & E).
  apply bind_st_inv in E as ([] & c3 & E3 & E). apply bind_st_inv in E as ([] & c4 & E4 & E).
  apply bind_st_inv in E as (y & cy & Ey & E). injection Ey as <- <-.
  apply bind_st_inv in E as (r & cr & Er & E). unfold lift, State_root, state_root_hash, TreeDB_root in Er. injection Er as <- <-.
  cbv zeta in E. set (g := set_state_root genesis (root (head (trie (cs_state c4))))) in *.
  apply bind_st_inv in E as ([] & c5 & E5 & E). unfold write_store, zoom in E5, E.
  destruct (BlockStorage_put _ (cs_store c4)) as [r5 s5] eqn:R5. injection E5 as -> <-. cbn [cs_store set_cs_store] in E.
  destruct (set_current_header g s5) as [r6 s6] eqn:R6. injection E as -> <-. cbn [cs_state set_cs_store] in Hz.
  destruct (start_state _ _ _ _ _ _ _ _ _ B Eg E1 E2 E3 E4 Hz) as (L & Hdb & Hst).
  assert (wf_header g) as W.
  { apply genesis_header_wf in Eg as (H1' & H2' & H3' & H4' & Hr). split; [exact H1'|]. split; [exact H2'|].
    split; [exact H3'|]. split; [apply (wf_root _ (live_wf _ _ L)) | exact Hr]. }
  destruct (BlockStorage_put_encodes _ _ _ R5) as [tb Etb]. rewrite Hst in R5.
  destruct (BlockStorage_put_spec {| header := g; transactions := [] |} (cs_store c) tb header_codec (bl_columns _ B) W Etb)
    as (s5' & R5' & Sb); [left; apply B|].
  assert (s5' = s5) as -> by congruence. cbn [header] in Sb.
  destruct (set_current_header_spec head_codec g s5 (sb_columns _ _ _ Sb) W) as (s6' & R6' & Hc & Hg & Hf).
  assert (s6' = s6) as -> by congruence. exists g.
  split; cbn [cs_store cs_state set_cs_store]; auto.
  - rewrite Hf by discriminate. apply (sb_hash _ _ _ Sb).
  - rewrite Hf by discriminate. apply (sb_header _ _ _ Sb).
  - intros k h'. rewrite Hf by discriminate. destruct (sb_any_header _ _ _ Sb k) as [->| ->]; [now intros [= <-]|].
    now rewrite (bl_headers _ B).
  - rewrite Hdb. apply put_tree_typed; [apply L|]. intros r T Hr. now destruct (trie_get_stored _ _ _ Hr).
  - rewrite Hdb. apply put_tree_rooted; [apply L | reflexivity|]. intros r T Hr. now destruct (trie_get_stored _ _ _ Hr).
  - intros x ih Hx. assert (raw ih = g) as ->.
    { revert Hx. unfold BS_get_header_by_hash, BS_get_header. destruct (KV_get BlockByHash s6 x) as [[k|]|e|]; try discriminate.
      cbn [mbind result_bind]. rewrite Hf by discriminate.
      destruct (sb_any_header _ _ _ Sb {| key_level := key_level k; key_hash := key_hash k |}) as [Ek|Ek]; rewrite Ek;
        [now intros [= <-]|]. now rewrite (bl_headers _ B). }
    split; [rewrite Hf by discriminate; apply Sb.. | exact Hz].
Qed.

End Genesis.

(** ** Every chain a node can reach *)

Section Reachable.
Context `{CryptoLaws} `{BincodeLaws} `{ChainCodecs} `{WasmVMInstance} `{!WasmVMLaws} `{ChainServices}.
Variable hash_order : Column -> list (bytes * bytes).
Hypothesis hash_order_in : forall m k v, In (k, v) (hash_order m) -> m !! k = Some v.
Variables (network : Network) (clock : BlockHeader -> Z).
Variable account_order : Accounts -> list (Address * AccountState).
Hypothesis header_codec : codec_ok prost_BlockHeader wf_header.
Hypothesis head_codec : codec_ok prost_ChainStateValue wf_header.

(** Nodes that started from nothing and put lists of blocks, with whatever
    result: lists that are rejected, wholly or from some block on, and lists
    that start below the head, for which the chain is rolled back first.  What
    happens to the pool in between is left open. *)
Inductive reachable : Node -> Prop :=
| reach_start c built_in c' pool :
    blank c -> ChainState_new network account_order built_in c = (Ok tt, c') ->
    root (head (trie (cs_state c'))) <> H256_zero -> cs_events c' <> None ->
    reachable {| node_chain := c'; node_pool := pool |}
| reach_chain n blocks :
    reachable n ->
    (forall cur n1, put_start blocks n = (Ok cur, n1) -> regular_run hash_order network clock cur blocks n1) ->
    reachable (put_chain hash_order network clock blocks n).2
| reach_pool n pool : reachable n -> reachable (set_node_pool pool n).


(** C8 A block on top of the head that [process_block] accepts is applied: no
    error can occur any more, the new state root is the one in its header, and
    its header is the current one.  Assumed: the chain is consistent, the block
    leads to a new, nonzero state root, its header and the expected one do not
    collide, and the events of the chain have a receiver.  The results of the
    virtual machine are a function of what the application reads. *)
Theorem accepted_block_applies c h b b' :
  consistent c h -> wf_header (header b) -> parent_hash (header b) = header_hash h ->
  state_root (header b) <> state_root h -> state_root (header b) <> H256_zero ->
  (forall h2, expected_header network c b = Ok h2 ->
     ~ collides dhash256 (consensus_encode h2) (consensus_encode (header b))) ->
  cs_events c <> None -> process_block network clock c b = Ok b' ->
  exists c', accept_block hash_order b c = (Ok (true, true, b), c') /\
    root (head (trie (cs_state c'))) = state_root (header b) /\
    get_current_header (cs_store c') = Ok (Some (header b)).
Proof.
  intros C W Hp Hr Hz N2 Hev E. apply process_block_inv in E as (-> & h2 & Ee & Hh & _).
  destruct (expected_header_cases _ _ _ _ (consistent_typed _ _ C) W Ee Hh) as [->|F]; [|now apply N2 in F].
  destruct (accept_on_head_advances network head_codec _ _ _ C W Ee Hp Hr Hz) as (c1 & E1 & A).
  exists c1. split; [|split; [apply A | apply A]]. unfold accept_block.
  st_step reflexivity. st_step (unfold lift; rewrite (consistent_current _ _ C); reflexivity). st_step reflexivity.
  rewrite bool_decide_eq_true_2 by exact Hp.
  destruct (cs_events c); [|now destruct Hev].
  assert ((_ ← accept_on_head b; mret true) c = (Ok true, c1)) as E2 by (st_step (exact E1); reflexivity).
  st_step (exact E2). reflexivity.
Qed.

End Reachable.

(** ** A small chain

    Hashes with eight leading zeros, so that every header meets the easiest
    target; no applications; headers in their consensus encoding. *)

#[local] Instance easy_crypto : CryptoPrims := {|
  sha256_raw m := repeat 0 8 ++ toy_hash 7 6 m;
  keccak256_raw := keccak256_raw (CryptoPrims:=toy_crypto);
  ripemd160_raw := ripemd160_raw (CryptoPrims:=toy_crypto);
  SigningKey := Byte.byte;
  VerifyingKey := Byte.byte;
  RecoverableSignature := Byte.byte;
  signing_key_from_bytes := signing_key_from_bytes (CryptoPrims:=toy_crypto);
  verifying_key := verifying_key (CryptoPrims:=toy_crypto);
  to_encoded_point := to_encoded_point (CryptoPrims:=toy_crypto);
  sign_digest := sign_digest (CryptoPrims:=toy_crypto);
  signature_from_bytes := signature_from_bytes (CryptoPrims:=toy_crypto);
  signature_as_bytes := signature_as_bytes (CryptoPrims:=toy_crypto);
  recover_verifying_key_from_digest := recover_verifying_key_from_digest (CryptoPrims:=toy_crypto) |}.
#[local] Instance easy_crypto_laws : CryptoLaws.
Proof.
  split; [|exact (keccak256_len (CryptoLaws:=toy_crypto_laws)) | exact (ripemd160_len (CryptoLaws:=toy_crypto_laws)) | exact (encoded_point_len (CryptoLaws:=toy_crypto_laws)) | exact (signature_len (CryptoLaws:=toy_crypto_laws))
    | exact (signature_roundtrip (CryptoLaws:=toy_crypto_laws)) | exact (recover_sign (CryptoLaws:=toy_crypto_laws))].
  intros m. destruct (toy_hash_len 7 6 m) as [Hl Hb].
  split; [cbn [sha256_raw easy_crypto]; rewrite length_app, Hl; reflexivity|].
  apply Forall_app. split; [|exact Hb]. repeat constructor; unfold is_byte, is_u; lia.
Qed.
#[local] Instance no_machine : WasmVMInstance := {|
  execute_app_create _ _ _ _ _ := Err "no machine";
  execute_app_tx _ _ _ _ _ _ _ := Err "no machine";
  encode_namespace _ _ := Err "no machine";
  twox_64_hash _ := 0 |}.
#[local] Instance no_machine_laws : WasmVMLaws.
Proof. now split. Qed.
#[local] Instance no_services : ChainServices := {|
  load_application _ _ := Ok tt;
  create_application _ _ _ _ _ := Err "no machine";
  TxPool := unit;
  repack _ _ _ _ p := (Ok tt, p) |}.

Definition demo_blank : ChainState := {|
  cs_state := ok_default {| trie := {| db := ∅; head := smt_new; staging := smt_new; strategy := Partial |};
                            appdata := KvDB_open ∅ false; metadata := KvDB_open ∅ false; read_only := false |}
                (State_new ∅ ∅ ∅);
  cs_store := MemStore_new column_family_names; cs_events := Some [] |}.
Definition demo_chain : ChainState := (ChainState_new Testnet map_to_list [] demo_blank).2.
Definition demo_genesis : BlockHeader :=
  match get_current_header (cs_store demo_chain) with Ok (Some h) => h | _ => example_header end.
(** A block without transactions on top of [parent], its roots as expected. *)
Definition demo_draft (parent : BlockHeader) (miner : Z) : Block := {|
  header := {| parent_hash := header_hash parent; receipt_hash := H256_zero; tx_root := H256_zero;
               state_root := H256_zero; mix_nonce := 0; coinbase := miner :: repeat 0 43; difficulty := 0;
               header_chain_id := 0; level := level parent + 1; time := time parent + 1000; header_nonce := 0 |};
  transactions := [] |}.
Definition demo_block (c : ChainState) (parent : BlockHeader) (miner : Z) : Block := {|
  header := ok_default example_header (expected_header Testnet c (demo_draft parent miner)); transactions := [] |}.
Definition demo_clock (h : BlockHeader) : Z := 2000.
Definition demo_block1 : Block := demo_block demo_chain demo_genesis 1.
Definition demo_order (m : Column) : list (bytes * bytes) := map_to_list m.
Definition demo_node0 : Node := {| node_chain := demo_chain; node_pool := tt |}.
Definition demo_node1 : Node :=
  (put_block demo_order Testnet demo_clock (indexed demo_genesis) demo_block1 demo_node0).2.

Lemma run_ok {S E} (m : stM S E unit) s : is_ok (m s).1 = true -> m s = (Ok tt, (m s).2).
Proof. destruct (m s) as [[[]|e|] s']; simpl; congruence. Qed.
Lemma ok_det {E A} (r : result E A) a b : r = Ok a -> r = Ok b -> b = a.
Proof. congruence. Qed.
Lemma demo_order_in m k v : In (k, v) (demo_order m) -> m !! k = Some v.
Proof. intros Hin. apply elem_of_map_to_list. now apply list_elem_of_In. Qed.
Lemma demo_blank_ok : blank demo_blank.
Proof.
  split.
  - reflexivity.
  - apply (bool_decide_unpack _). vm_compute. exact Logic.I.
  - vm_compute. reflexivity.
  - intros k. rewrite (KV_get_ok BlockHeaderStorage _ k (BlockPrimaryKey_encode k) ∅); auto.
Qed.
Lemma demo_start : ChainState_new Testnet map_to_list [] demo_blank = (Ok tt, demo_chain).
Proof. refine (run_ok (ChainState_new Testnet map_to_list []) demo_blank _). vm_compute. reflexivity. Qed.
Lemma demo_chain_root : root (head (trie (cs_state demo_chain))) <> H256_zero.
Proof. vm_compute. discriminate. Qed.
Lemma demo_chain_consistent : consistent demo_chain demo_genesis.
Proof.
  destruct (start_consistent Testnet map_to_list toy_BlockHeader_ok toy_ChainStateValue_ok _ _ _ demo_blank_ok demo_start demo_chain_root)
    as [h C]. assert (h = demo_genesis) as <-; [|exact C].
  pose proof (con_current _ _ C) as E. unfold demo_genesis. now rewrite E.
Qed.
Lemma demo_expected : expected_header Testnet demo_chain demo_block1 = Ok (header demo_block1).
Proof. vm_compute. reflexivity. Qed.
Lemma some_det {E A} (a b : A) : Ok (E:=E) (Some a) = Ok (Some b) -> a = b.
Proof. congruence. Qed.
Definition demo_headers : Column := ok_default ∅ (MemStore_column (cs_store demo_chain) (s_column BlockHeaderStorage)).
Lemma demo_headers_single : demo_headers = {[ BlockPrimaryKey_encode (block_key demo_genesis) := consensus_encode demo_genesis ]}.
Proof. apply (bool_decide_unpack _). vm_compute. exact Logic.I. Qed.
Lemma demo_headers_column : cs_store demo_chain !! s_column BlockHeaderStorage = Some demo_headers.
Proof. vm_compute. reflexivity. Qed.
Lemma demo_genesis_decodes : decode (value_codec BlockHeaderStorage) (consensus_encode demo_genesis) = Ok demo_genesis.
Proof. vm_compute. reflexivity. Qed.
(** The genesis is the only header stored. *)
Lemma demo_headers_only k h : KV_get BlockHeaderStorage (cs_store demo_chain) k = Ok (Some h) -> h = demo_genesis.
Proof.
  rewrite (KV_get_ok BlockHeaderStorage _ k (BlockPrimaryKey_encode k) demo_headers eq_refl demo_headers_column), demo_headers_single.
  destruct (decide (BlockPrimaryKey_encode (block_key demo_genesis) = BlockPrimaryKey_encode k)) as [<-|Hne].
  - rewrite lookup_singleton_eq, demo_genesis_decodes.
    intros E. symmetry. exact (some_det _ _ E).
  - rewrite (lookup_singleton_ne _ _ _ Hne). discriminate.
Qed.
Lemma only_header s g x ih :
  (forall k h, KV_get BlockHeaderStorage s k = Ok (Some h) -> h = g) ->
  BS_get_header_by_hash s x = Ok (Some ih) -> raw ih = g.
Proof.
  intros Hg. unfold BS_get_header_by_hash, BS_get_header.
  destruct (KV_get BlockByHash s x) as [[k|]|e|]; try discriminate. cbn [mbind result_bind].
  destruct (KV_get BlockHeaderStorage s _) as [[h|]|e|] eqn:E; try discriminate. intros [= <-]. exact (Hg _ _ E).
Qed.
Lemma demo_hashes : bool_decide (dhash256 (consensus_encode demo_genesis) = dhash256 (consensus_encode (header demo_block1))) = false.
Proof. vm_compute. reflexivity. Qed.
Lemma demo_distinct : distinct (cs_store demo_chain) demo_block1.
Proof.
  intros x ih E. rewrite (only_header _ demo_genesis x ih demo_headers_only E).
  intros [_ Ec]. exact (bool_decide_eq_false_1 _ demo_hashes Ec).
Qed.
Definition demo_outcome : result anyhow H256 :=
  (apply_txs_no_commit demo_order (state_root demo_genesis) (Barossa_miner_reward (level (header demo_block1)))
     (coinbase (header demo_block1)) (transactions demo_block1) (cs_state demo_chain)).1.
Lemma demo_outcome_ne :
  match demo_outcome with Ok r => bool_decide (r = state_root demo_genesis) | _ => false end = false.
Proof. vm_compute. reflexivity. Qed.
Lemma demo_parent :
  BS_get_header_by_hash (cs_store demo_chain) (parent_hash (header demo_block1)) = Ok (Some (indexed demo_genesis)).
Proof. vm_compute. reflexivity. Qed.
Lemma demo_computed : ~ computed_root demo_order demo_chain demo_block1 (state_root demo_genesis).
Proof.
  intros (ph & s' & E1 & E2). rewrite demo_parent in E1. apply some_det in E1. rewrite <- E1 in E2.
  pose proof (f_equal fst E2 : demo_outcome = Ok (state_root demo_genesis)) as E3.
  pose proof demo_outcome_ne as Hne. rewrite E3 in Hne. exact (bool_decide_eq_false_1 _ Hne eq_refl).
Qed.
Lemma demo_regular : regular demo_order Testnet demo_chain demo_genesis demo_block1.
Proof.
  split.
  - apply (bool_decide_unpack _). vm_compute. exact Logic.I.
  - left. vm_compute. reflexivity.
  - eexists. vm_compute. reflexivity.
  - vm_compute. discriminate.
  - exact demo_computed.
  - vm_compute. discriminate.
  - exact demo_distinct.
  - intros h2 E2 [Hne _]. apply Hne. now rewrite (ok_det _ _ _ demo_expected E2).
Qed.
Lemma demo_run cur n1 : put_start [demo_block1] demo_node0 = (Ok cur, n1) ->
  regular_run demo_order Testnet demo_clock cur [demo_block1] n1.
Proof.
  assert (put_start [demo_block1] demo_node0 = (Ok (indexed demo_genesis), demo_node0)) as E0.
  { unfold put_start, mbind, stM_bind, gets, lift. cbn [node_chain demo_node0].
    rewrite (consistent_current _ _ demo_chain_consistent). cbn [ok_or_else ok_or hd_error unwrap].
    rewrite bool_decide_eq_true_2 by (vm_compute; reflexivity). reflexivity. }
  rewrite E0. intros [= <- <-]. split; [|now intros].
  intros h Hh. cbn [node_chain demo_node0] in Hh. rewrite (con_current _ _ demo_chain_consistent) in Hh.
  apply some_det in Hh. rewrite <- Hh. exact demo_regular.
Qed.

Lemma process_block_sound_witness :
  justified Testnet demo_clock demo_chain demo_block1 \/
  exists h, expected_header Testnet demo_chain demo_block1 = Ok h /\
    collides dhash256 (consensus_encode h) (consensus_encode (header demo_block1)).
Proof.
  apply (process_block_sound Testnet demo_clock demo_chain demo_block1 demo_block1).
  - exact (consistent_typed _ _ demo_chain_consistent).
  - apply demo_regular.
  - vm_compute. reflexivity.
Defined.
Lemma accepted_block_applies_witness :
  exists c', accept_block demo_order demo_block1 demo_chain = (Ok (true, true, demo_block1), c') /\
    root (head (trie (cs_state c'))) = state_root (header demo_block1) /\
    get_current_header (cs_store c') = Ok (Some (header demo_block1)).
Proof.
  apply (accepted_block_applies demo_order Testnet demo_clock toy_ChainStateValue_ok demo_chain demo_genesis demo_block1 demo_block1).
  - exact demo_chain_consistent.
  - apply demo_regular.
  - vm_compute. reflexivity.
  - apply demo_regular.
  - apply demo_regular.
  - apply demo_regular.
  - vm_compute. discriminate.
  - vm_compute. reflexivity.
Defined.

(** Side chains are checked by executing the block a second way, which gives
    a miner without an account nonce 0 instead of 1: a valid block on a side
    chain whose miner is new is rejected, the same block with a known miner is
    accepted. *)
Theorem side_chain_new_miner_rejected :
  let c := node_chain demo_node1 in
  let b new_miner := demo_block c demo_genesis new_miner in
  process_block Testnet demo_clock c (b 2) = Ok (b 2) /\
  (accept_block demo_order (b 2) c).1 = Err "Invalid or Corrupt Block"%string /\
  process_block Testnet demo_clock c (b 0) = Ok (b 0) /\
  (accept_block demo_order (b 0) c).1 = Ok (false, true, b 0).
Proof. vm_compute. repeat split. Qed.

Lemma remove_stale_levels_witness :
  let s := cs_store (node_chain demo_node1) in
  let h := {| ih_hash := block_hash demo_block1; raw := header demo_block1 |} in
  exists s', remove_stale (header_hash demo_genesis) (block_hash demo_block1) s = (Ok tt, s') /\
    KV_get BlockByLevel s' 0 = Ok None.
Proof.
  intros s h. destruct (remove_stale_levels (header_hash demo_genesis) (block_hash demo_block1) h s) as [_ R].
  - apply (bool_decide_unpack _). vm_compute. exact Logic.I.
  - vm_compute. reflexivity.
  - apply (R (indexed demo_genesis)); [vm_compute; reflexivity.. | vm_compute; discriminate].
Defined.
