(* ===== verification/PrQue.v ===== *)
(** * The priority queue

    [PriorityQueue] of txpool/src/prque.rs: a binary heap of elements compared
    by priority only.  The heap is the array of [std::collections::BinaryHeap],
    with its own order among equal priorities: [push] sifts the new element up,
    [pop] moves the last element to the root, sifts it down to the bottom and
    then up again. *)
From S2P Require Import Prelude.

Section Heap.
Context {V : Type}.
Local Open Scope nat_scope.

Record Element := { el_value : V; el_priority : Z }.
Abbreviation Heap := (list Element).

Definition el_le (a b : Element) : bool := Z.leb (el_priority a) (el_priority b).

Definition swap_at (i j : nat) (l : Heap) : Heap :=
  match l !! i, l !! j with
  | Some x, Some y => <[i := y]> (<[j := x]> l)
  | _, _ => l
  end.
Definition le_at (l : Heap) (i j : nat) : bool :=
  match l !! i, l !! j with Some x, Some y => el_le x y | _, _ => true end.

(** [BinaryHeap::sift_up] from the position [pos] to the root. *)
Fixpoint sift_up (fuel pos : nat) (l : Heap) : Heap :=
  match fuel with
  | O => l
  | S fuel =>
    if pos =? 0 then l
    else
      let parent := (pos - 1) / 2 in
      if le_at l pos parent then l else sift_up fuel parent (swap_at pos parent l)
  end.

(** [BinaryHeap::sift_down_to_bottom]: the element at [pos] changes places with
    its greater child until it has none, then goes up. *)
Fixpoint sift_down (fuel pos : nat) (l : Heap) : Heap * nat :=
  match fuel with
  | O => (l, pos)
  | S fuel =>
    let child := 2 * pos + 1 in
    if S child <? length l then
      let child := if le_at l child (S child) then S child else child in
      sift_down fuel child (swap_at pos child l)
    else if child <? length l then (swap_at pos child l, child)
    else (l, pos)
  end.

Definition heap_push (x : Element) (l : Heap) : Heap :=
  sift_up (length l) (length l) (l ++ [x]).
Definition heap_pop (l : Heap) : option (Element * Heap) :=
  match l !! (length l - 1) with
  | None => None
  | Some item =>
    match removelast l with
    | [] => Some (item, [])
    | top :: rest =>
      let '(l', pos) := sift_down (length l) 0 (item :: rest) in
      Some (top, sift_up pos pos l')
    end
  end.

(** [PriorityQueue] *)
Abbreviation PriorityQueue := Heap.
Definition pq_new : PriorityQueue := [].
Definition pq_push (v : V) (priority : Z) (q : PriorityQueue) : PriorityQueue :=
  heap_push {| el_value := v; el_priority := priority |} q.
Definition pq_pop (q : PriorityQueue) : option ((V * Z) * PriorityQueue) :=
  match heap_pop q with
  | Some (el, q) => Some ((el_value el, el_priority el), q)
  | None => None
  end.
Definition pq_len (q : PriorityQueue) : nat := length q.
Definition pq_is_empty (q : PriorityQueue) : bool := match q with [] => true | _ => false end.

(** Push a list, pop everything. *)
Definition pq_of (l : list (V * Z)) : PriorityQueue :=
  fold_left (fun q x => pq_push x.1 x.2 q) l pq_new.
Fixpoint pq_drain (fuel : nat) (q : PriorityQueue) : list (V * Z) :=
  match fuel with
  | O => []
  | S fuel => match pq_pop q with Some (x, q) => x :: pq_drain fuel q | None => [] end
  end.

(** ** Swapping *)

Lemma length_swap_at i j l : length (swap_at i j l) = length l.
Proof. unfold swap_at. repeat case_match; now rewrite ?length_insert. Qed.

Lemma swap_at_lookup i j l k : i < length l -> j < length l ->
  swap_at i j l !! k = if k =? i then l !! j else if k =? j then l !! i else l !! k.
Proof.
  intros Hi Hj. unfold swap_at.
  destruct (lookup_lt_is_Some_2 l i Hi) as [x Hx], (lookup_lt_is_Some_2 l j Hj) as [y Hy]. rewrite Hx, Hy.
  destruct (Nat.eqb_spec k i) as [->|Hki].
  - apply list_lookup_insert_eq. now rewrite length_insert.
  - rewrite list_lookup_insert_ne by congruence. destruct (Nat.eqb_spec k j) as [->|Hkj].
    + now apply list_lookup_insert_eq.
    + now rewrite list_lookup_insert_ne by congruence.
Qed.

Lemma swap_at_Permutation i j l : Permutation (swap_at i j l) l.
Proof.
  unfold swap_at. destruct (l !! i) as [x|] eqn:Hx, (l !! j) as [y|] eqn:Hy; try reflexivity.
  destruct (Nat.eq_dec i j) as [->|Hij].
  { replace y with x by congruence. now rewrite list_insert_insert_eq, list_insert_id. }
  apply Permutation_inj. split; [now rewrite !length_insert|].
  exists (fun k => if k =? i then j else if k =? j then i else k). split.
  - intros a b. cbv beta. destruct (Nat.eqb_spec a i), (Nat.eqb_spec a j), (Nat.eqb_spec b i), (Nat.eqb_spec b j); lia.
  - intros k. destruct (Nat.eqb_spec k i) as [->|Hki].
    + rewrite list_lookup_insert_eq; [easy|]. rewrite length_insert. eauto using lookup_lt_Some.
    + rewrite list_lookup_insert_ne by congruence. destruct (Nat.eqb_spec k j) as [->|Hkj].
      * rewrite list_lookup_insert_eq; eauto using lookup_lt_Some.
      * now rewrite list_lookup_insert_ne by congruence.
Qed.

(** ** The heap order *)

Definition prio (l : Heap) (i : nat) : Z := match l !! i with Some x => el_priority x | None => 0 end.
Definition parent (i : nat) : nat := (i - 1) / 2.
Definition heap_ok (l : Heap) : Prop := forall i, 0 < i < length l -> (prio l i <= prio l (parent i))%Z.

(** Everything is in order but the element at [pos], which may be greater than
    its parent. *)
Definition heap_up (pos : nat) (l : Heap) : Prop :=
  (forall i, 0 < i < length l -> i <> pos -> (prio l i <= prio l (parent i))%Z) /\
  (forall i, 0 < i < length l -> 0 < pos -> parent i = pos -> (prio l i <= prio l (parent pos))%Z).
(** Everything is in order but the element at [pos], above and below. *)
Definition heap_down (pos : nat) (l : Heap) : Prop :=
  (forall i, 0 < i < length l -> i <> pos -> parent i <> pos -> (prio l i <= prio l (parent i))%Z) /\
  (forall i, 0 < i < length l -> 0 < pos -> parent i = pos -> (prio l i <= prio l (parent pos))%Z).

Lemma parent_lt i : 0 < i -> parent i < i.
Proof. unfold parent. intros. apply Nat.Div0.div_lt_upper_bound; lia. Qed.
Lemma parent_child i p : 0 < i -> parent i = p -> i = 2 * p + 1 \/ i = 2 * p + 2.
Proof. unfold parent. intros ? <-. pose proof (Nat.div_mod_eq (i - 1) 2). pose proof (Nat.mod_upper_bound (i - 1) 2). lia. Qed.
Lemma parent_left p : parent (2 * p + 1) = p.
Proof. unfold parent. replace (2 * p + 1 - 1) with (p * 2) by lia. now apply Nat.div_mul. Qed.
Lemma parent_right p : parent (S (2 * p + 1)) = p.
Proof.
  unfold parent. replace (S (2 * p + 1) - 1) with (1 + p * 2) by lia.
  rewrite Nat.div_add by lia. reflexivity.
Qed.

Lemma le_at_prio l i j : i < length l -> j < length l -> le_at l i j = (prio l i <=? prio l j)%Z.
Proof.
  intros Hi Hj. unfold le_at, prio.
  destruct (lookup_lt_is_Some_2 l i Hi) as [x ->], (lookup_lt_is_Some_2 l j Hj) as [y ->]. reflexivity.
Qed.
Lemma prio_swap i j l k : i < length l -> j < length l ->
  prio (swap_at i j l) k = if k =? i then prio l j else if k =? j then prio l i else prio l k.
Proof. intros Hi Hj. unfold prio. rewrite swap_at_lookup by easy. destruct (k =? i), (k =? j); reflexivity. Qed.

(** Read the priorities of a swapped array at the indices in sight. *)
Ltac swapped Hi Hj :=
  rewrite !(prio_swap _ _ _ _ Hi Hj);
  repeat match goal with |- context [?a =? ?b] => destruct (Nat.eqb_spec a b) end;
  try lia.

Lemma sift_up_ok fuel pos l : pos <= fuel -> pos < length l -> heap_up pos l -> heap_ok (sift_up fuel pos l).
Proof.
  revert pos l. induction fuel as [|fuel IH]; intros pos l Hf Hp [H1 H2]; cbn [sift_up].
  { intros i Hi. apply H1; lia. }
  destruct (Nat.eqb_spec pos 0) as [->|Hpos]; [intros i Hi; apply H1; lia|].
  change ((pos - 1) / 2) with (parent pos). pose proof (parent_lt pos ltac:(lia)) as Hlt.
  rewrite le_at_prio by lia. destruct (Z.leb_spec (prio l pos) (prio l (parent pos))) as [Hle|Hgt].
  { intros i Hi. destruct (Nat.eq_dec i pos) as [->|]; auto. }
  assert (Hpar : parent pos < length l) by lia.
  apply IH; rewrite ?length_swap_at; [lia..|]. split; rewrite length_swap_at.
  - intros i Hi Hne. pose proof (parent_lt i ltac:(lia)).
    assert (i <> pos -> (prio l i <= prio l (parent i))%Z) by (apply H1; lia).
    assert (parent i = pos -> (prio l i <= prio l (parent pos))%Z) by (apply H2; lia).
    destruct (Nat.eq_dec i pos) as [->|Hip]; swapped Hp Hpar; try congruence.
    match goal with E : parent i = parent pos |- _ => rewrite E in *; lia end.
  - intros i Hi Hgp Epar. pose proof (parent_lt i ltac:(lia)). pose proof (parent_lt (parent pos) Hgp).
    pose proof (H1 (parent pos) ltac:(lia) ltac:(lia)). pose proof (H1 i ltac:(lia)) as Hi'. rewrite Epar in Hi'.
    swapped Hp Hpar.
Qed.

Lemma length_sift_up fuel pos l : length (sift_up fuel pos l) = length l.
Proof.
  revert pos l. induction fuel as [|fuel IH]; intros; cbn [sift_up]; [easy|].
  repeat case_match; rewrite ?IH, ?length_swap_at; easy.
Qed.
Lemma sift_up_Permutation fuel pos l : Permutation (sift_up fuel pos l) l.
Proof.
  revert pos l. induction fuel as [|fuel IH]; intros; cbn [sift_up]; [easy|].
  repeat case_match; rewrite ?IH, ?swap_at_Permutation; easy.
Qed.

(** The element goes down to its greater child. *)
Lemma heap_down_step pos child l : heap_down pos l -> 0 < child < length l -> parent child = pos ->
  (forall i, 0 < i < length l -> parent i = pos -> (prio l i <= prio l child)%Z) ->
  heap_down child (swap_at pos child l).
Proof.
  intros [H1 H2] Hc Hpc Hmax. pose proof (parent_lt child ltac:(lia)).
  assert (Hp : pos < length l) by lia. assert (Hcl : child < length l) by lia.
  split; rewrite length_swap_at.
  - intros i Hi Hne Hpi. pose proof (parent_lt i ltac:(lia)).
    assert (i <> pos -> parent i <> pos -> (prio l i <= prio l (parent i))%Z) by (apply H1; lia).
    assert (parent i = pos -> (prio l i <= prio l child)%Z) by (apply Hmax; lia).
    destruct (Nat.eq_dec i pos) as [->|Hip]; swapped Hp Hcl; try congruence.
    apply (H2 child); lia.
  - intros i Hi _ Hpi. pose proof (parent_lt i ltac:(lia)).
    assert (Hi' : (prio l i <= prio l (parent i))%Z) by (apply H1; lia).
    rewrite Hpi in Hi'. swapped Hp Hcl.
Qed.

Lemma heap_down_bottom pos l : heap_down pos l -> length l <= 2 * pos + 1 -> heap_up pos l.
Proof.
  intros [H1 H2] Hlen. split; [|auto]. intros i Hi Hne. apply H1; [lia..|].
  intros E. apply parent_child in E; lia.
Qed.

Lemma sift_down_spec fuel pos l : length l <= fuel + pos -> pos < length l -> heap_down pos l ->
  heap_up (sift_down fuel pos l).2 (sift_down fuel pos l).1 /\ (sift_down fuel pos l).2 < length l.
Proof.
  revert pos l. induction fuel as [|fuel IH]; intros pos l Hf Hp Hd; [lia|]. cbn [sift_down].
  destruct (Nat.ltb_spec (S (2 * pos + 1)) (length l)) as [Hr|Hr]; cbv zeta.
  - set (child := if le_at l (2 * pos + 1) (S (2 * pos + 1)) then S (2 * pos + 1) else 2 * pos + 1).
    assert (Hc : 0 < child < length l /\ parent child = pos /\
                 forall i, 0 < i < length l -> parent i = pos -> (prio l i <= prio l child)%Z).
    { subst child. rewrite le_at_prio by lia.
      destruct (Z.leb_spec (prio l (2 * pos + 1)) (prio l (S (2 * pos + 1)))) as [Hle|Hgt].
      all: split; [lia|]; split; [apply parent_left || apply parent_right|].
      all: intros i Hi E; apply parent_child in E as [->| ->]; try lia;
        now rewrite <- ?Nat.add_succ_r in *; try lia. }
    clearbody child. destruct Hc as (Hc & Hpc & Hmax). pose proof (parent_lt child ltac:(lia)).
    rewrite <- (length_swap_at pos child l). apply IH; rewrite ?length_swap_at; [lia..|].
    now apply heap_down_step.
  - destruct (Nat.ltb_spec (2 * pos + 1) (length l)) as [Hl|Hl]; cbn [fst snd].
    + split; [|lia]. apply heap_down_bottom; [|rewrite length_swap_at; lia].
      apply heap_down_step; [easy|lia|apply parent_left|].
      intros i Hi E. apply parent_child in E as [->| ->]; lia.
    + split; [|lia]. apply heap_down_bottom; [easy|lia].
Qed.
Lemma length_sift_down fuel pos l : length (sift_down fuel pos l).1 = length l.
Proof.
  revert pos l. induction fuel as [|fuel IH]; intros; cbn [sift_down]; [easy|].
  repeat case_match; rewrite ?IH; cbn; rewrite ?length_swap_at; easy.
Qed.
Lemma sift_down_Permutation fuel pos l : Permutation (sift_down fuel pos l).1 l.
Proof.
  revert pos l. induction fuel as [|fuel IH]; intros; cbn [sift_down]; [easy|].
  repeat case_match; rewrite ?IH; cbn; rewrite ?swap_at_Permutation; easy.
Qed.

(** ** Push and pop *)

Lemma heap_push_ok x l : heap_ok l -> heap_ok (heap_push x l).
Proof.
  intros H. apply sift_up_ok; rewrite ?length_app; simpl; [lia..|].
  assert (Hl : forall i, i < length l -> prio (l ++ [x]) i = prio l i).
  { intros i Hi. unfold prio. now rewrite lookup_app_l. }
  split; rewrite length_app; simpl; intros i Hi.
  - intros Hne. pose proof (parent_lt i ltac:(lia)). rewrite !Hl by lia. apply H. lia.
  - intros _ E. pose proof (parent_lt i ltac:(lia)). lia.
Qed.
Lemma heap_push_Permutation x l : Permutation (heap_push x l) (x :: l).
Proof. unfold heap_push. rewrite sift_up_Permutation. symmetry. apply Permutation_cons_append. Qed.

(** The root is a greatest element. *)
Lemma heap_ok_root l i : heap_ok l -> i < length l -> (prio l i <= prio l 0)%Z.
Proof.
  intros H. induction (lt_wf i) as [i _ IH]. intros Hi.
  destruct (Nat.eq_dec i 0) as [->|]; [lia|]. pose proof (parent_lt i ltac:(lia)).
  pose proof (IH (parent i) ltac:(lia) ltac:(lia)). pose proof (H i ltac:(lia)). lia.
Qed.
Lemma heap_pop_Permutation l x l' : heap_pop l = Some (x, l') -> Permutation l (x :: l').
Proof.
  unfold heap_pop. destruct l as [|item init _] using rev_ind; [discriminate|].
  rewrite length_app, Nat.add_sub, lookup_app_r, Nat.sub_diag, removelast_last by (simpl; lia). simpl.
  destruct init as [|top rest]; [now intros [= <- <-]|].
  pose proof (sift_down_Permutation (length (top :: rest) + 1) 0 (item :: rest)) as Hperm.
  set (r := sift_down _ _ _). destruct r as [l1 pos] eqn:Er. intros [= <- <-]. subst r.
  simpl in *. rewrite Er in Hperm. simpl in Hperm. rewrite sift_up_Permutation, Hperm. simpl. apply perm_skip.
  symmetry. apply Permutation_cons_append.
Qed.
(** The last element in the place of the root. *)
Lemma heap_swap_last top item rest : heap_ok ((top :: rest) ++ [item]) -> heap_down 0 (item :: rest).
Proof.
  intros H. split; [|lia]. intros i Hi Hne Hp.
  assert (Hl : forall j, 0 < j < length (item :: rest) -> prio (item :: rest) j = prio ((top :: rest) ++ [item]) j).
  { intros [|j] Hj; [lia|]. unfold prio. simpl in *. now rewrite lookup_app_l by lia. }
  pose proof (parent_lt i ltac:(lia)). rewrite !Hl by lia. apply H. simpl in *. rewrite length_app. lia.
Qed.
Lemma heap_pop_spec l x l' : heap_ok l -> heap_pop l = Some (x, l') ->
  heap_ok l' /\ Permutation l (x :: l') /\ Forall (fun y => (el_priority y <= el_priority x)%Z) l'.
Proof.
  intros H. unfold heap_pop.
  destruct l as [|item init _] using rev_ind; [discriminate|].
  rewrite length_app, Nat.add_sub, lookup_app_r, Nat.sub_diag, removelast_last by (simpl; lia). simpl.
  destruct init as [|top rest]; [intros [= <- <-]; split; [intros i Hi; simpl in Hi; lia|now split]|].
  pose proof (heap_swap_last top item rest H) as Hd.
  set (r := sift_down _ _ _). destruct r as [l1 pos] eqn:Er. intros [= <- <-]. subst r.
  destruct (sift_down_spec (length (top :: rest) + 1) 0 (item :: rest)) as [Hup Hpos]; simpl; [lia..|easy|].
  pose proof (sift_down_Permutation (length (top :: rest) + 1) 0 (item :: rest)) as Hperm.
  pose proof (length_sift_down (length (top :: rest) + 1) 0 (item :: rest)) as Hlen.
  simpl in *. rewrite Er in *. simpl in *.
  assert (HP : Permutation (sift_up pos pos l1) (rest ++ [item])).
  { rewrite sift_up_Permutation, Hperm. apply Permutation_cons_append. }
  repeat split; [apply sift_up_ok; [lia..|easy]|now rewrite HP|].
  rewrite HP. apply Forall_forall. intros y Hy.
  apply list_elem_of_In, list_elem_of_lookup in Hy as [i Hi].
  pose proof (lookup_lt_Some _ _ _ Hi).
  pose proof (heap_ok_root _ (S i) H ltac:(simpl; lia)) as Hroot.
  unfold prio in Hroot. simpl in Hroot. now rewrite Hi in Hroot.
Qed.

Lemma heap_pop_None l : heap_pop l = None -> l = [].
Proof.
  unfold heap_pop. destruct l as [|x l]; [easy|]. simpl length. rewrite Nat.sub_succ, Nat.sub_0_r.
  destruct (lookup_lt_is_Some_2 (x :: l) (length l)) as [y ->]; [simpl; lia|].
  destruct (removelast (x :: l)); [discriminate|]. now destruct (sift_down _ _ _).
Qed.

Lemma pq_of_ok l q : heap_ok q ->
  let q' := fold_left (fun q x => pq_push x.1 x.2 q) l q in
  heap_ok q' /\ Permutation q' (q ++ map (fun x => {| el_value := x.1; el_priority := x.2 |}) l).
Proof.
  revert q. induction l as [|x l IH]; intros q Hq; simpl; [now rewrite app_nil_r|].
  destruct (IH (pq_push x.1 x.2 q)) as [H1 H2]; [now apply heap_push_ok|]. split; [easy|].
  rewrite H2. unfold pq_push. rewrite heap_push_Permutation. apply Permutation_middle.
Qed.

Definition unpack (el : Element) : V * Z := (el_value el, el_priority el).

Lemma pq_drain_ok fuel q : heap_ok q -> length q <= fuel ->
  Permutation (pq_drain fuel q) (map unpack q) /\
  StronglySorted (fun a b => (b.2 <= a.2)%Z) (pq_drain fuel q).
Proof.
  revert q. induction fuel as [|fuel IH]; intros q Hq Hf.
  { destruct q; [|simpl in Hf; lia]. split; constructor. }
  simpl. unfold pq_pop. destruct (heap_pop q) as [[x q']|] eqn:Ep.
  - destruct (heap_pop_spec _ _ _ Hq Ep) as (Hok & HP & Hall). apply Permutation_length in HP as Hlen.
    destruct (IH q') as [IH1 IH2]; [easy|simpl in Hlen; lia|].
    split; [now rewrite HP, IH1|]. constructor; [easy|].
    rewrite IH1. apply Forall_map. easy.
  - apply heap_pop_None in Ep as ->. split; constructor.
Qed.

(** Popping everything from a queue gives what was pushed, from the greatest
    priority to the least: no element is lost, duplicated or popped early. *)
Theorem pq_drain_sorted (l : list (V * Z)) :
  Permutation (pq_drain (length l) (pq_of l)) l /\
  StronglySorted (fun a b => (b.2 <= a.2)%Z) (pq_drain (length l) (pq_of l)).
Proof.
  destruct (pq_of_ok l pq_new) as [Hok HP]; [intros i Hi; simpl in Hi; lia|]. simpl in HP.
  change (fold_left _ _ _) with (pq_of l) in Hok, HP.
  destruct (pq_drain_ok (length l) (pq_of l)) as [H1 H2]; [easy|now rewrite HP, length_map|].
  split; [|easy]. rewrite H1, HP, map_map.
  erewrite map_ext; [now rewrite map_id|now intros []].
Qed.
End Heap.
Arguments Element : clear implicits.
