(* ===== verification/TxList.v ===== *)
(** * The collections of the transaction pool

    crate txpool: [TxSortedList], [TxList], [TxPricedList] (tx_list.rs),
    [AccountSet], [TxLookup] (tx_lookup.rs), [TxNoncer] (tx_noncer.rs) and the
    slots a transaction takes (lib.rs).  A [BTreeMap] is a finite map iterated
    by increasing key, a [BTreeSet] ordered by a comparison is the sorted list
    of its elements. *)
From S2P Require Import Prelude Crypto Types Smt Codec SmtTree TreeDb State.
From stdpp Require Import list.
#[local] Open Scope Z_scope.

(** [BTreeMap<u64, _>] *)
Definition key_le {A} (a b : Z * A) : Prop := a.1 <= b.1.
#[export] Instance key_le_dec {A} (a b : Z * A) : Decision (key_le a b).
Proof. unfold key_le. apply _. Defined.
Definition nonce_entries {A} (m : gmap Z A) : list (Z * A) := merge_sort key_le (map_to_list m).

(** ** TxSortedList *)
Abbreviation TxSortedList := (gmap Z SignedTransaction).

Definition sorted_new : TxSortedList := ∅.
Definition sorted_put (t : SignedTransaction) (l : TxSortedList) : TxSortedList := <[tx_nonce t := t]> l.
Definition sorted_get (l : TxSortedList) (nonce : Z) : option SignedTransaction := l !! nonce.
Definition sorted_remove (nonce : Z) (l : TxSortedList) : bool * TxSortedList :=
  (bool_decide (is_Some (l !! nonce)), delete nonce l).
(** [drain_filter]: what satisfies [f], in order, and what is left *)
Definition sorted_filter (f : Z -> SignedTransaction -> bool) (l : TxSortedList) :
    list SignedTransaction * TxSortedList :=
  ((filter (fun e => f e.1 e.2 = true) (nonce_entries l)).*2, filter (fun e => f e.1 e.2 = false) l).
Definition sorted_forward (threshold : Z) : TxSortedList -> list SignedTransaction * TxSortedList :=
  sorted_filter (fun nonce _ => nonce <? threshold).
Definition sorted_ready (start : Z) : TxSortedList -> list SignedTransaction * TxSortedList :=
  sorted_filter (fun nonce _ => start <=? nonce).
(** [pop_first] while there are more than [threshold] entries; there are as
    many steps as entries at most *)
Fixpoint sorted_cap_loop (fuel threshold : nat) (l : TxSortedList) : list SignedTransaction * TxSortedList :=
  match fuel with
  | O => ([], l)
  | S fuel =>
    if (threshold <? size l)%nat then
      match nonce_entries l with
      | [] => ([], l)
      | (nonce, t) :: _ =>
        let '(drops, l) := sorted_cap_loop fuel threshold (delete nonce l) in (t :: drops, l)
      end
    else ([], l)
  end.
Definition sorted_cap (threshold : nat) (l : TxSortedList) : list SignedTransaction * TxSortedList :=
  if (size l <=? threshold)%nat then ([], l) else sorted_cap_loop (size l) threshold l.
Definition sorted_len (l : TxSortedList) : nat := size l.
Definition sorted_is_empty (l : TxSortedList) : bool := bool_decide (l = ∅).
Definition sorted_last_element (l : TxSortedList) : option SignedTransaction :=
  snd <$> hd_error (nonce_entries l).
Definition sorted_flatten (l : TxSortedList) : list SignedTransaction := (nonce_entries l).*2.
Definition sorted_overlaps (l : TxSortedList) (nonce : Z) : bool := bool_decide (is_Some (l !! nonce)).
Definition sorted_has (l : TxSortedList) (nonce : Z) : bool := bool_decide (is_Some (l !! nonce)).

(** ** TxList *)
Record TxList := { is_strict : bool; list_txs : TxSortedList }.
Definition set_list_txs (l : TxSortedList) (t : TxList) : TxList := {| is_strict := is_strict t; list_txs := l |}.

Definition list_new (strict_ : bool) : TxList := {| is_strict := strict_; list_txs := ∅ |}.
(** The bump is computed in [i128], where these values do not overflow; the
    division truncates, and panics on a fee of zero. *)
Definition list_add {E} (t : SignedTransaction) (price_bump : Z) (l : TxList) :
    result E (bool * option SignedTransaction * TxList) :=
  let put := set_list_txs (sorted_put t (list_txs l)) l in
  match sorted_get (list_txs l) (tx_nonce t) with
  | None => Ok (true, None, put)
  | Some old =>
    if fees t =? 0 then Panic
    else
      let bump := Z.quot ((fees t - fees old) * 100) (fees t) in
      if (fees old <=? fees t) && (bump <? i128 price_bump) then Ok (false, None, l)
      else Ok (true, Some old, put)
  end.
Definition list_remove (t : SignedTransaction) (l : TxList) : bool * list SignedTransaction * TxList :=
  let nonce := tx_nonce t in
  let '(removed, txs) := sorted_remove nonce (list_txs l) in
  if removed : bool then (false, [], set_list_txs txs l)
  else if is_strict l then
    let '(invalids, txs) := sorted_filter (fun _ t => nonce <? tx_nonce t) txs in
    (true, invalids, set_list_txs txs l)
  else (true, [], set_list_txs txs l).
Definition list_forward (threshold : Z) (l : TxList) : list SignedTransaction * TxList :=
  let '(olds, txs) := sorted_forward threshold (list_txs l) in (olds, set_list_txs txs l).
Definition U64_MAX : Z := 2 ^ 64 - 1.
Definition lowest_nonce (removed : list SignedTransaction) : Z :=
  fold_left (fun lowest t => if tx_nonce t <? lowest then tx_nonce t else lowest) removed U64_MAX.
Definition list_filter_price (price_limit : Z) (l : TxList) :
    option (list SignedTransaction * list SignedTransaction) * TxList :=
  if price_limit =? 0 then (None, l)
  else
    let '(removed, txs) := sorted_filter (fun _ t => price_limit <? price t) (list_txs l) in
    if is_strict l then
      let lowest := lowest_nonce removed in
      let '(invalids, txs) := sorted_filter (fun _ t => lowest <? tx_nonce t) txs in
      (Some (removed, invalids), set_list_txs txs l)
    else (Some (removed, []), set_list_txs txs l).
Definition list_ready (start : Z) (l : TxList) : list SignedTransaction * TxList :=
  let '(readies, txs) := sorted_ready start (list_txs l) in (readies, set_list_txs txs l).
Definition list_cap (threshold : nat) (l : TxList) : list SignedTransaction * TxList :=
  let '(drops, txs) := sorted_cap threshold (list_txs l) in (drops, set_list_txs txs l).
Definition list_len (l : TxList) : nat := sorted_len (list_txs l).
Definition list_is_empty (l : TxList) : bool := sorted_is_empty (list_txs l).
Definition list_flatten (l : TxList) : list SignedTransaction := sorted_flatten (list_txs l).
Definition list_last_element (l : TxList) : option SignedTransaction := sorted_last_element (list_txs l).
Definition list_overlaps (l : TxList) (t : SignedTransaction) : bool := sorted_overlaps (list_txs l) (tx_nonce t).

(** ** TxPricedList *)

(** [Ord] of [PricedTransaction]: the greatest fee first, then the greatest
    nonce; transactions of different senders can compare equal. *)
Definition priced_cmp (a b : SignedTransaction) : comparison :=
  match CompOpp (Z.compare (fees a) (fees b)) with
  | Eq => CompOpp (Z.compare (tx_nonce a) (tx_nonce b))
  | c => c
  end.
(** [Ord] of [NonceTransaction] *)
Definition nonce_cmp (a b : SignedTransaction) : comparison := CompOpp (Z.compare (tx_nonce a) (tx_nonce b)).

(** [BTreeSet::remove], [BTreeSet::intersection] (in the order of the first) *)
Fixpoint btree_remove {A} (cmp : A -> A -> comparison) (x : A) (l : list A) : bool * list A :=
  match l with
  | [] => (false, [])
  | y :: l =>
    match cmp x y with
    | Eq => (true, l)
    | _ => let '(removed, l) := btree_remove cmp x l in (removed, y :: l)
    end
  end.
Definition btree_mem {A} (cmp : A -> A -> comparison) (x : A) (l : list A) : bool :=
  existsb (fun y => match cmp x y with Eq => true | _ => false end) l.
Definition btree_extend {A} (cmp : A -> A -> comparison) (l xs : list A) : list A :=
  fold_left (fun l x => btree_insert cmp x l) xs l.
Definition btree_intersection {A} (cmp : A -> A -> comparison) (l1 l2 : list A) : list A :=
  List.filter (fun x => btree_mem cmp x l2) l1.

Record TxPricedList := { priced_txs : list SignedTransaction; total_fee : Z }.
Definition priced_new : TxPricedList := {| priced_txs := []; total_fee := 0 |}.
Definition priced_put (t : SignedTransaction) (is_local : bool) (l : TxPricedList) : TxPricedList :=
  if is_local then l
  else {| priced_txs := btree_insert priced_cmp t (priced_txs l); total_fee := usize (total_fee l + fees t) |}.
Definition priced_remove (t : SignedTransaction) (l : TxPricedList) : bool * TxPricedList :=
  let '(removed, txs) := btree_remove priced_cmp t (priced_txs l) in
  (removed, {| priced_txs := txs;
               total_fee := if removed : bool then usize (total_fee l - fees t) else total_fee l |}).
Definition last_opt {A} (l : list A) : option A := l !! (length l - 1)%nat.
Definition priced_underpriced {E} (t : SignedTransaction) (l : TxPricedList) : result E bool :=
  match last_opt (priced_txs l) with
  | None => Ok false
  | Some least => Ok (match priced_cmp least t with Lt => false | _ => true end)
  end.
(** [pop_first] into [remain] while [slots] is positive *)
Fixpoint discard_loop (slots : Z) (txs remain : list SignedTransaction) :
    list SignedTransaction * list SignedTransaction :=
  match txs with
  | [] => ([], remain)
  | t :: txs' =>
    if 0 <? slots then discard_loop (slots - 1) txs' (btree_insert priced_cmp t remain) else (txs, remain)
  end.
Definition priced_discard {E} (slots : Z) : stM TxPricedList E (list SignedTransaction) := fun l =>
  if Z.of_nat (length (priced_txs l)) <=? slots then (Ok [], l)
  else
    let '(drops, remain) := discard_loop slots (priced_txs l) [] in
    (Ok drops, {| priced_txs := remain; total_fee := total_fee l |}).

(** ** Sizes and slots

    The lengths computed by crate prost and by the code it derives for
    [Transaction] are parameters. *)
Class ProstLen := {
  key_len : Z -> Z;
  encoded_len_varint : Z -> Z;
  uint32_encoded_len : Z -> Z -> Z;
  Transaction_encoded_len : Transaction -> Z;
}.

Abbreviation AccountSet := (gset Address).

(** [StateDB] (crate traits), as the pool reads it *)
Record StateDB := { db_nonce : Address -> Z; db_balance : Address -> Z }.

Section Collections.
Context `{CryptoPrims} `{ProstLen}.

Definition H256_encoded_len : Z := key_len 1 + encoded_len_varint 32 + 32.
(** [prost::encoding::message::encoded_len] *)
Definition message_encoded_len (tag len : Z) : Z := key_len tag + encoded_len_varint len + len.
Definition SignedTransaction_encoded_len (t : SignedTransaction) : Z :=
  usize (message_encoded_len 1 (Transaction_encoded_len (tx t)) + message_encoded_len 2 H256_encoded_len
         + message_encoded_len 3 H256_encoded_len + uint32_encoded_len 4 (sig_v t)).
Definition tx_size (t : SignedTransaction) : Z := u64 (SignedTransaction_encoded_len t).
Definition TX_SLOT_SIZE : Z := 32 * 1024.
Definition num_slots (t : SignedTransaction) : Z := u64 (tx_size t + TX_SLOT_SIZE - 1) / TX_SLOT_SIZE.

(** ** AccountSet: a [BTreeSet] of addresses *)
Definition accounts_new : AccountSet := ∅.
Definition accounts_from (l : list Address) : AccountSet := list_to_set l.
Definition accounts_contains (s : AccountSet) (a : Address) : bool := bool_decide (a ∈ s).
Definition accounts_is_empty (s : AccountSet) : bool := bool_decide (s = ∅).
Definition accounts_contains_tx (s : AccountSet) (t : SignedTransaction) : bool := accounts_contains s (sender t).
Definition accounts_add (a : Address) (s : AccountSet) : AccountSet := {[a]} ∪ s.
Definition accounts_add_tx (t : SignedTransaction) (s : AccountSet) : AccountSet := accounts_add (sender t) s.
Definition accounts_flatten (s : AccountSet) : list Address :=
  (btree_entries (gset_to_gmap tt s)).*1.
Definition accounts_merge (s other : AccountSet) : AccountSet := s ∪ other.

(** ** TxLookup *)
Record TxLookup := {
  lk_slots : Z; lk_locals : gmap H256 SignedTransaction; lk_remotes : gmap H256 SignedTransaction }.
Definition lookup_new : TxLookup := {| lk_slots := 0; lk_locals := ∅; lk_remotes := ∅ |}.
Definition lookup_get (l : TxLookup) (hash : H256) : option SignedTransaction :=
  match lk_locals l !! hash with
  | Some t => Some t
  | None => lk_remotes l !! hash
  end.
Definition lookup_contains (l : TxLookup) (hash : H256) : bool :=
  bool_decide (is_Some (lk_locals l !! hash)) || bool_decide (is_Some (lk_remotes l !! hash)).
Definition lookup_get_local (l : TxLookup) (hash : H256) : option SignedTransaction := lk_locals l !! hash.
Definition lookup_get_remote (l : TxLookup) (hash : H256) : option SignedTransaction := lk_remotes l !! hash.
Definition lookup_count (l : TxLookup) : nat := size (lk_locals l) + size (lk_remotes l).
Definition lookup_local_count (l : TxLookup) : nat := size (lk_locals l).
Definition lookup_remote_count (l : TxLookup) : nat := size (lk_remotes l).
Definition lookup_add (t : SignedTransaction) (local : bool) (l : TxLookup) : TxLookup :=
  let slots := u64 (lk_slots l + num_slots t) in
  if local
  then {| lk_slots := slots; lk_locals := <[tx_hash t := t]> (lk_locals l); lk_remotes := lk_remotes l |}
  else {| lk_slots := slots; lk_locals := lk_locals l; lk_remotes := <[tx_hash t := t]> (lk_remotes l) |}.
Definition lookup_remove (hash : H256) (l : TxLookup) : TxLookup :=
  {| lk_slots := match lk_locals l !! hash with
                 | Some t => u64 (lk_slots l - num_slots t)
                 | None => match lk_remotes l !! hash with
                           | Some t => u64 (lk_slots l - num_slots t)
                           | None => lk_slots l
                           end
                 end;
     lk_locals := delete hash (lk_locals l);
     lk_remotes := delete hash (lk_remotes l) |}.
Definition lookup_remote_to_locals (local_accounts : AccountSet) (l : TxLookup) :
    list SignedTransaction * TxLookup :=
  let filtered := List.filter (fun e => accounts_contains_tx local_accounts e.2) (btree_entries (lk_remotes l)) in
  (filtered.*2,
   {| lk_slots := lk_slots l;
      lk_locals := fold_left (fun m e => <[e.1 := e.2]> m) filtered (lk_locals l);
      lk_remotes := filter (fun e => accounts_contains_tx local_accounts e.2 = false) (lk_remotes l) |}).

(** [range]: the entries [f] is called on, up to the first it refuses *)
Fixpoint range_calls (f : H256 -> SignedTransaction -> bool) (l : list (H256 * SignedTransaction)) :
    list (H256 * SignedTransaction) * bool :=
  match l with
  | [] => ([], true)
  | e :: l => if f e.1 e.2 then let '(calls, go) := range_calls f l in (e :: calls, go) else ([e], false)
  end.
Definition lookup_range (f : H256 -> SignedTransaction -> bool -> bool) (local remote : bool) (l : TxLookup) :
    list (H256 * SignedTransaction * bool) :=
  let '(calls, go) :=
    if local then range_calls (fun k t => f k t true) (btree_entries (lk_locals l)) else ([], true) in
  let calls := map (fun e => (e, true)) calls in
  if go && remote
  then calls ++ map (fun e => (e, false)) (range_calls (fun k t => f k t false) (btree_entries (lk_remotes l))).1
  else calls.

(** ** TxNoncer: the nonces known, and the state read for the others *)
Record TxNoncer := { fallback : StateDB; nonces : gmap Address Z }.
Definition set_nonces (m : gmap Address Z) (n : TxNoncer) : TxNoncer := {| fallback := fallback n; nonces := m |}.
Definition noncer_new (state : StateDB) : TxNoncer := {| fallback := state; nonces := ∅ |}.
(** [entry(..).or_insert_with(..)]: the value is kept *)
Definition noncer_get (a : Address) (n : TxNoncer) : Z * TxNoncer :=
  match nonces n !! a with
  | Some v => (v, n)
  | None => let v := db_nonce (fallback n) a in (v, set_nonces (<[a := v]> (nonces n)) n)
  end.
Definition noncer_set (a : Address) (v : Z) (n : TxNoncer) : TxNoncer := set_nonces (<[a := v]> (nonces n)) n.
Definition noncer_set_if_lower (a : Address) (v : Z) (n : TxNoncer) : TxNoncer :=
  let '(cur, n) := noncer_get a n in
  if cur <=? v then n else noncer_set a v n.
Definition noncer_set_all (all : gmap Address Z) (n : TxNoncer) : TxNoncer := set_nonces all n.

End Collections.

(** ** Iteration by nonce *)

Lemma nonce_entries_Permutation {A} (m : gmap Z A) : Permutation (nonce_entries m) (map_to_list m).
Proof. apply merge_sort_Permutation. Qed.
Lemma nonce_entries_lookup {A} (m : gmap Z A) k v : (k, v) ∈ nonce_entries m <-> m !! k = Some v.
Proof. rewrite <- elem_of_map_to_list. now rewrite nonce_entries_Permutation. Qed.
Lemma length_nonce_entries {A} (m : gmap Z A) : length (nonce_entries m) = size m.
Proof. rewrite nonce_entries_Permutation. apply length_map_to_list. Qed.
Lemma nonce_entries_sorted {A} (m : gmap Z A) : StronglySorted key_le (nonce_entries m).
Proof.
  assert (Transitive (@key_le A)) by (intros ? ? ?; unfold key_le; lia).
  assert (Total (@key_le A)) by (intros ? ?; unfold key_le; lia).
  now apply StronglySorted_merge_sort.
Qed.
Lemma NoDup_nonce_entries {A} (m : gmap Z A) : NoDup (nonce_entries m).*1.
Proof. rewrite nonce_entries_Permutation. apply NoDup_fst_map_to_list. Qed.
(** The first entry has the least key. *)
Lemma nonce_entries_head {A} (m : gmap Z A) k v l : nonce_entries m = (k, v) :: l ->
  m !! k = Some v /\ forall k' v', m !! k' = Some v' -> k' <> k -> k < k'.
Proof.
  intros E. split; [apply nonce_entries_lookup; rewrite E; left|].
  intros k' v' Hk' Hne. apply nonce_entries_lookup in Hk' as Hin. rewrite E in Hin.
  apply elem_of_cons in Hin as [[= ? ?]|Hin]; [congruence|].
  pose proof (nonce_entries_sorted m) as Hs. rewrite E in Hs. apply StronglySorted_inv in Hs as [_ Hall].
  rewrite Forall_forall in Hall. pose proof (Hall _ Hin) as Hle. unfold key_le in Hle. simpl in Hle. lia.
Qed.
Lemma nonce_entries_nil {A} (m : gmap Z A) : nonce_entries m = [] -> m = ∅.
Proof.
  intros E. apply map_empty. intros k. destruct (m !! k) as [v|] eqn:Hk; [|easy].
  apply nonce_entries_lookup in Hk. rewrite E in Hk. inversion Hk.
Qed.

(** ** Sorted lists *)

Section SortedList.
Context (l : TxSortedList).

Lemma sorted_filter_removed f t :
  t ∈ (sorted_filter f l).1 <-> exists n, l !! n = Some t /\ f n t = true.
Proof.
  unfold sorted_filter. simpl. rewrite list_elem_of_fmap. split.
  - intros ([n t'] & -> & Hin). apply list_elem_of_filter in Hin as [Hf Hin].
    apply nonce_entries_lookup in Hin. eauto.
  - intros (n & Hn & Hf). exists (n, t). split; [easy|]. apply list_elem_of_filter.
    now rewrite nonce_entries_lookup.
Qed.
Lemma sorted_filter_kept f n t :
  (sorted_filter f l).2 !! n = Some t <-> l !! n = Some t /\ f n t = false.
Proof. unfold sorted_filter. simpl. rewrite map_lookup_filter_Some. reflexivity. Qed.
Lemma sorted_flatten_elem t : t ∈ sorted_flatten l <-> exists n, l !! n = Some t.
Proof.
  unfold sorted_flatten. rewrite list_elem_of_fmap. split.
  - intros ([n t'] & -> & Hin). apply nonce_entries_lookup in Hin. eauto.
  - intros [n Hn]. exists (n, t). now rewrite nonce_entries_lookup.
Qed.
End SortedList.

(** What [cap] takes away and leaves. *)
Record capped (l : TxSortedList) (threshold : nat) (drops : list SignedTransaction) (l' : TxSortedList) : Prop := {
  capped_size : size l' = Nat.min threshold (size l);
  capped_count : (length drops + size l' = size l)%nat;
  capped_sub : l' ⊆ l;
  capped_drop : forall t, t ∈ drops <-> exists n, l !! n = Some t /\ l' !! n = None;
  capped_order : forall n t n' t', l !! n = Some t -> l' !! n = None -> l' !! n' = Some t' -> n < n';
}.

Lemma capped_refl l threshold : (size l <= threshold)%nat -> capped l threshold [] l.
Proof.
  intros Hle. split; [lia|easy|easy| |congruence].
  intros t. split; [intros Hin; inversion Hin|]. intros (n & H1 & H2). congruence.
Qed.

Lemma sorted_cap_loop_spec fuel threshold l : (size l <= fuel + threshold)%nat ->
  capped l threshold (sorted_cap_loop fuel threshold l).1 (sorted_cap_loop fuel threshold l).2.
Proof.
  revert l. induction fuel as [|fuel IH]; intros l Hf; [now apply capped_refl|]. simpl.
  destruct (Nat.ltb_spec threshold (size l)) as [Hlt|Hge]; [|now apply capped_refl].
  destruct (nonce_entries l) as [|[n t] rest] eqn:E.
  { apply nonce_entries_nil in E as ->. rewrite map_size_empty in Hlt. lia. }
  apply nonce_entries_head in E as [Hn Hmin].
  assert (Hsize : (size l = S (size (delete n l)))%nat).
  { rewrite <- (insert_delete_id l n t Hn) at 1. apply map_size_insert_None, lookup_delete_eq. }
  destruct (IH (delete n l) ltac:(lia)) as [C1 C2 C3 C4 C5].
  destruct (sorted_cap_loop fuel threshold (delete n l)) as [drops l'] eqn:Eloop. simpl in *.
  assert (Hn' : l' !! n = None).
  { destruct (l' !! n) as [u|] eqn:Hu; [|easy].
    apply (lookup_weaken _ _ _ _ Hu) in C3. now rewrite lookup_delete_eq in C3. }
  split; [lia|simpl; lia|transitivity (delete n l); [easy|apply delete_subseteq]| |].
  - intros u. rewrite elem_of_cons, C4. split.
    + intros [->|(m & Hm & Hm')]; [eauto|]. apply lookup_delete_Some in Hm as [? ?]. eauto.
    + intros (m & Hm & Hm'). destruct (decide (m = n)) as [->|Hne]; [left; congruence|right].
      exists m. now rewrite lookup_delete_ne by congruence.
  - intros m u m' u' Hm Hm' Hu'. destruct (decide (m = n)) as [->|Hne].
    + eapply lookup_weaken in C3; [|exact Hu']. apply lookup_delete_Some in C3 as [? ?]. eauto.
    + apply (C5 m u m' u'); [|easy..]. now rewrite lookup_delete_ne by congruence.
Qed.

Lemma sorted_cap_spec threshold l : capped l threshold (sorted_cap threshold l).1 (sorted_cap threshold l).2.
Proof.
  unfold sorted_cap. destruct (Nat.leb_spec (size l) threshold); [now apply capped_refl|].
  apply sorted_cap_loop_spec. lia.
Qed.

(** [cap] leaves at most [threshold] transactions, loses none, and what it
    returns are the transactions of lowest nonce: the executable head of the
    list goes first, and the rest stays behind a gap. *)
Theorem cap_drops_lowest_nonces threshold l :
  let '(drops, l') := sorted_cap threshold l in
  size l' = Nat.min threshold (size l) /\ (length drops + size l' = size l)%nat /\ l' ⊆ l /\
  forall n t n' t', l !! n = Some t -> l' !! n = None -> l' !! n' = Some t' -> t ∈ drops /\ n < n'.
Proof.
  pose proof (sorted_cap_spec threshold l) as [C1 C2 C3 C4 C5]. destruct (sorted_cap threshold l) as [drops l'].
  repeat split; try easy; [apply C4; eauto|eauto].
Qed.

(** ** Replacement *)

(** A transaction takes the place of one with the same nonce exactly when its
    fee is at least the configured percentage (of its own fee) above the old
    one, or when its fee is lower than the old one; a fee of zero panics. *)
Theorem replacement_rule {E} t old price_bump l :
  list_txs l !! tx_nonce t = Some old -> is_u 64 (fees t) -> is_u 64 (fees old) -> 0 < price_bump < 2 ^ 127 ->
  list_add (E:=E) t price_bump l =
    if fees t =? 0 then Panic
    else if (fees t <? fees old) || (price_bump * fees t <=? (fees t - fees old) * 100)
    then Ok (true, Some old, {| is_strict := is_strict l; list_txs := <[tx_nonce t := t]> (list_txs l) |})
    else Ok (false, None, l).
Proof.
  intros Hold Ht Ho Hb. unfold list_add, sorted_get. rewrite Hold.
  destruct (Z.eqb_spec (fees t) 0) as [|Hz]; [easy|].
  unfold is_u in *. rewrite (swrap_id 128 price_bump) by lia.
  destruct (Z.leb_spec (fees old) (fees t)) as [Hle|Hgt]; simpl.
  - rewrite (proj2 (Z.ltb_ge (fees t) (fees old))) by lia. simpl.
    rewrite Z.quot_div_nonneg by lia.
    destruct (Z.leb_spec (price_bump * fees t) ((fees t - fees old) * 100)) as [Hb1|Hb1],
      (Z.ltb_spec ((fees t - fees old) * 100 / fees t) price_bump) as [Hb2|Hb2]; try easy; exfalso.
    + apply Z.lt_nge in Hb2. apply Hb2, Z.div_le_lower_bound; lia.
    + assert ((fees t - fees old) * 100 / fees t < price_bump); [|lia]. apply Z.div_lt_upper_bound; lia.
  - rewrite (proj2 (Z.ltb_lt (fees t) (fees old))) by lia. reflexivity.
Qed.

Definition plain_tx (n fee_ : Z) : SignedTransaction :=
  {| tx := {| nonce := n; tx_chain_id := 1; genesis_hash := H256_zero; fee := fee_; value := 0; data := None |};
     sig_r := H256_zero; sig_s := H256_zero; sig_v := 0 |}.

(** A transaction of fee 1 replaces one of fee 100. *)
Lemma replacement_rule_witness :
  list_add (E:=unit) (plain_tx 3 1) 10 {| is_strict := true; list_txs := {[3 := plain_tx 3 100]} |}
  = Ok (true, Some (plain_tx 3 100), {| is_strict := true; list_txs := {[3 := plain_tx 3 1]} |}).
Proof.
  rewrite (replacement_rule _ (plain_tx 3 100)); [reflexivity|reflexivity|vm_compute..].
  - split; [discriminate|reflexivity].
  - split; [discriminate|reflexivity].
  - split; reflexivity.
Defined.

(** ** Transactions by price *)

Definition priced_sorted (l : list SignedTransaction) : Prop :=
  StronglySorted (fun a b => priced_cmp a b = Lt) l.

Lemma priced_cmp_Lt a b :
  priced_cmp a b = Lt <-> fees b < fees a \/ fees a = fees b /\ tx_nonce b < tx_nonce a.
Proof.
  unfold priced_cmp. destruct (Z.compare_spec (fees a) (fees b)), (Z.compare_spec (tx_nonce a) (tx_nonce b));
    simpl; split; try discriminate; try lia; easy.
Qed.
Lemma priced_cmp_antisym a b : priced_cmp a b = CompOpp (priced_cmp b a).
Proof.
  unfold priced_cmp. rewrite (Z.compare_antisym (fees b)), (Z.compare_antisym (tx_nonce b)).
  destruct (fees b ?= fees a), (tx_nonce b ?= tx_nonce a); reflexivity.
Qed.

(** Inserting after everything. *)
Lemma btree_insert_last l t : Forall (fun u => priced_cmp u t = Lt) l ->
  btree_insert priced_cmp t l = l ++ [t].
Proof.
  induction 1 as [|u l Hu _ IH]; [easy|]. simpl. rewrite priced_cmp_antisym, Hu. simpl. now rewrite IH.
Qed.
Lemma discard_loop_split slots txs remain : priced_sorted (remain ++ txs) -> 0 <= slots ->
  discard_loop slots txs remain = (drop (Z.to_nat slots) txs, remain ++ take (Z.to_nat slots) txs).
Proof.
  revert slots remain. induction txs as [|t txs IH]; intros slots remain Hs Hp; simpl.
  { now rewrite drop_nil, take_nil, app_nil_r. }
  destruct (Z.ltb_spec 0 slots) as [Hpos|Hz].
  - replace (Z.to_nat slots) with (S (Z.to_nat (slots - 1))) by lia. simpl.
    rewrite btree_insert_last.
    + rewrite IH; [|now rewrite <- app_assoc|lia]. now rewrite <- app_assoc.
    + clear IH. induction remain as [|u remain IHr]; constructor;
        apply StronglySorted_inv in Hs as [Hs Hall]; [|now apply IHr].
      rewrite Forall_forall in Hall. apply Hall, elem_of_app. right. left.
  - replace (Z.to_nat slots) with O by lia. now rewrite app_nil_r.
Qed.

Lemma priced_cmp_trans a b c : priced_cmp a b = Lt -> priced_cmp b c = Lt -> priced_cmp a c = Lt.
Proof. rewrite !priced_cmp_Lt. lia. Qed.
Lemma priced_insert_sorted t l : priced_sorted l -> priced_sorted (btree_insert priced_cmp t l).
Proof.
  induction 1 as [|u l Hs IH Hall]; simpl; [repeat constructor|].
  destruct (priced_cmp t u) eqn:E; [now constructor|constructor..].
  - now constructor.
  - constructor; [easy|]. rewrite Forall_forall in *. intros v Hv. eapply priced_cmp_trans; eauto.
  - easy.
  - apply Forall_forall. intros v Hv. rewrite Forall_forall in Hall.
    assert (Hin : v = t \/ v ∈ l).
    { clear -Hv. induction l as [|w l IHl]; simpl in Hv; [apply elem_of_cons in Hv; set_solver|].
      destruct (priced_cmp t w); rewrite ?elem_of_cons in *; naive_solver. }
    destruct Hin as [->|Hin]; [|auto]. rewrite priced_cmp_antisym, E. reflexivity.
Qed.
Lemma btree_remove_sublist t l : sublist (btree_remove priced_cmp t l).2 l.
Proof.
  induction l as [|u l IH]; simpl; [easy|]. destruct (priced_cmp t u); [now apply sublist_cons|..];
    destruct (btree_remove priced_cmp t l); now apply sublist_skip.
Qed.
Lemma priced_sorted_sublist l1 l2 : sublist l1 l2 -> priced_sorted l2 -> priced_sorted l1.
Proof.
  induction 1 as [|x l1 l2 Hsub IH|x l1 l2 Hsub IH]; intros Hs; [easy|..]; apply StronglySorted_inv in Hs as [Hs Hall].
  - constructor; [now apply IH|]. rewrite Forall_forall in *. intros y Hy. apply Hall.
    eapply elem_of_sublist; eauto.
  - now apply IH.
Qed.
Lemma priced_put_sorted t local l : priced_sorted (priced_txs l) -> priced_sorted (priced_txs (priced_put t local l)).
Proof. destruct local; [easy|]. apply priced_insert_sorted. Qed.
Lemma priced_remove_sorted t l : priced_sorted (priced_txs l) -> priced_sorted (priced_txs (priced_remove t l).2).
Proof.
  intros Hs. unfold priced_remove. pose proof (btree_remove_sublist t (priced_txs l)) as Hsub.
  destruct (btree_remove _ _ _). eapply priced_sorted_sublist; eauto.
Qed.

(** [discard] keeps only the [slots] best-paying remote transactions and drops
    all the others, instead of making [slots] slots free. *)
Theorem discard_keeps_only_slots {E} slots l :
  priced_sorted (priced_txs l) -> 0 <= slots < Z.of_nat (length (priced_txs l)) ->
  exists drops l', priced_discard (E:=E) slots l = (Ok drops, l') /\
    priced_txs l' = take (Z.to_nat slots) (priced_txs l) /\ drops = drop (Z.to_nat slots) (priced_txs l) /\
    Z.of_nat (length (priced_txs l')) = slots /\
    Z.of_nat (length drops) = Z.of_nat (length (priced_txs l)) - slots.
Proof.
  intros Hs Hb. unfold priced_discard. rewrite (proj2 (Z.leb_gt _ _)) by lia.
  rewrite discard_loop_split by (simpl; auto with lia). do 2 eexists. split; [reflexivity|]. simpl.
  rewrite length_take, length_drop. repeat split; lia.
Qed.
Lemma priced_discard_sorted {E} slots l : 0 <= slots ->
  priced_sorted (priced_txs l) -> priced_sorted (priced_txs (priced_discard (E:=E) slots l).2).
Proof.
  intros Hp Hs. unfold priced_discard. destruct (_ <=? _); [easy|].
  rewrite discard_loop_split by easy. simpl. eapply priced_sorted_sublist; [apply sublist_take|easy].
Qed.
Definition three_priced : TxPricedList :=
  {| priced_txs := [plain_tx 1 30; plain_tx 1 20; plain_tx 1 10]; total_fee := 60 |}.
Lemma three_priced_sorted : priced_sorted (priced_txs three_priced).
Proof. repeat constructor. Qed.
(** One slot is asked for, two of three transactions go. *)
Lemma discard_keeps_only_slots_witness :
  exists drops l', priced_discard (E:=unit) 1 three_priced = (Ok drops, l') /\ length drops = 2%nat.
Proof.
  destruct (discard_keeps_only_slots (E:=unit) 1 three_priced three_priced_sorted) as (drops & l' & -> & _ & _ & _ & Hd).
  { split; reflexivity || discriminate. }
  exists drops, l'. split; [easy|]. apply Nat2Z.inj. exact Hd.
Defined.

Lemma last_opt_cons {A} (x : A) l : exists y, last_opt (x :: l) = Some y /\ y ∈ x :: l.
Proof.
  unfold last_opt. destruct (lookup_lt_is_Some_2 (x :: l) (length (x :: l) - 1)) as [y Hy]; [simpl; lia|].
  exists y. split; [easy|]. eapply list_elem_of_lookup_2. exact Hy.
Qed.
(** When the pool is full, a remote transaction that pays more than all the
    others is refused as underpriced, and one that pays less than all the
    others is not. *)
Theorem underpriced_inverted {E} t l : priced_txs l <> [] ->
  (Forall (fun u => fees u < fees t) (priced_txs l) -> priced_underpriced (E:=E) t l = Ok true) /\
  (Forall (fun u => fees t < fees u) (priced_txs l) -> priced_underpriced (E:=E) t l = Ok false).
Proof.
  unfold priced_underpriced. destruct (priced_txs l) as [|x xs]; [easy|]. intros _.
  destruct (last_opt_cons x xs) as (y & -> & Hy).
  split; intros Hall; rewrite Forall_forall in Hall; pose proof (Hall y Hy) as Hf; unfold priced_cmp.
  - rewrite (proj2 (Z.compare_lt_iff _ _)) by easy. reflexivity.
  - rewrite (proj2 (Z.compare_gt_iff _ _)) by easy. reflexivity.
Qed.
Lemma underpriced_inverted_witness :
  priced_underpriced (E:=unit) (plain_tx 1 1000) three_priced = Ok true /\
  priced_underpriced (E:=unit) (plain_tx 1 1) three_priced = Ok false.
Proof.
  split.
  - apply (underpriced_inverted (plain_tx 1 1000) three_priced); [discriminate|]. repeat constructor.
  - apply (underpriced_inverted (plain_tx 1 1) three_priced); [discriminate|]. repeat constructor.
Defined.

(** ** The lookup table *)

Section LookupTheorems.
Context `{CryptoPrims} `{ProstLen}.

Definition slot_sum (m : gmap H256 SignedTransaction) : Z := map_fold (fun _ t n => num_slots t + n) 0 m.

(** Each transaction is stored under its hash, once, and the slots are counted
    (modulo 2^64). *)
Record lookup_wf (l : TxLookup) : Prop := {
  lk_hash_local : forall h t, lk_locals l !! h = Some t -> tx_hash t = h;
  lk_hash_remote : forall h t, lk_remotes l !! h = Some t -> tx_hash t = h;
  lk_disjoint : lk_locals l ##ₘ lk_remotes l;
  lk_count : lk_slots l = u64 (slot_sum (lk_locals l) + slot_sum (lk_remotes l));
}.

Lemma slot_sum_insert m h t : m !! h = None -> slot_sum (<[h := t]> m) = num_slots t + slot_sum m.
Proof. intros Hm. apply (map_fold_insert_L (fun _ t n => num_slots t + n)); [intros; lia|easy]. Qed.
Lemma slot_sum_delete m h t : m !! h = Some t -> slot_sum (delete h m) = slot_sum m - num_slots t.
Proof.
  intros Hm. rewrite <- (insert_delete_id m h t Hm) at 2.
  rewrite slot_sum_insert by apply lookup_delete_eq. lia.
Qed.
Lemma slot_sum_union m1 m2 : m1 ##ₘ m2 -> slot_sum (m1 ∪ m2) = slot_sum m1 + slot_sum m2.
Proof.
  induction m1 as [|h t m1 Hh IH] using map_ind; intros Hd; [now rewrite (left_id ∅ (∪))|].
  apply map_disjoint_insert_l in Hd as [Hn Hd].
  rewrite <- insert_union_l, slot_sum_insert, slot_sum_insert, IH; [lia|easy..|].
  now apply lookup_union_None.
Qed.
Lemma wrap_sub_r w a b : wrap w (wrap w a - b) = wrap w (a - b).
Proof. unfold wrap. apply Zminus_mod_idemp_l. Qed.
Lemma wrap_add_l w a b : wrap w (wrap w a + b) = wrap w (a + b).
Proof. unfold wrap. apply Zplus_mod_idemp_l. Qed.

Lemma lookup_contains_false l h :
  lookup_contains l h = false <-> lk_locals l !! h = None /\ lk_remotes l !! h = None.
Proof.
  unfold lookup_contains. rewrite orb_false_iff, !bool_decide_eq_false.
  now rewrite <- !eq_None_not_Some.
Qed.
Lemma lookup_get_contains l h : lookup_contains l h = bool_decide (is_Some (lookup_get l h)).
Proof.
  unfold lookup_contains, lookup_get. destruct (lk_locals l !! h); simpl;
    rewrite ?bool_decide_eq_false_2 by (now intros []); reflexivity || now rewrite bool_decide_eq_true_2 by eauto.
Qed.
Lemma lookup_get_hash l h t : lookup_wf l -> lookup_get l h = Some t -> tx_hash t = h.
Proof.
  intros W. unfold lookup_get. destruct (lk_locals l !! h) eqn:E; [intros [= <-]; now apply (lk_hash_local l W)|].
  now apply (lk_hash_remote l W).
Qed.

Lemma lookup_new_wf : lookup_wf lookup_new.
Proof. split; simpl; [intros ? ?; now rewrite lookup_empty..|apply map_disjoint_empty_l|reflexivity]. Qed.

Lemma lookup_add_wf t local l :
  lookup_wf l -> lookup_contains l (tx_hash t) = false -> lookup_wf (lookup_add t local l).
Proof.
  intros [W1 W2 W3 W4] [Hl Hr]%lookup_contains_false. unfold lookup_add. destruct local; split; simpl.
  - intros h u [[<- <-]|[_ ?]]%lookup_insert_Some; auto.
  - easy.
  - now apply map_disjoint_insert_l_2.
  - rewrite W4, wrap_add_l, slot_sum_insert by easy. f_equal. lia.
  - easy.
  - intros h u [[<- <-]|[_ ?]]%lookup_insert_Some; auto.
  - now apply map_disjoint_insert_r_2.
  - rewrite W4, wrap_add_l, slot_sum_insert by easy. f_equal. lia.
Qed.
Lemma lookup_remove_wf h l : lookup_wf l -> lookup_wf (lookup_remove h l).
Proof.
  intros [W1 W2 W3 W4]. split; simpl.
  - intros h' u [_ ?]%lookup_delete_Some; auto.
  - intros h' u [_ ?]%lookup_delete_Some; auto.
  - now apply map_disjoint_delete_l, map_disjoint_delete_r.
  - destruct (lk_locals l !! h) as [t|] eqn:El.
    + assert (lk_remotes l !! h = None) by (eapply map_disjoint_Some_l; eauto).
      rewrite (delete_id (lk_remotes l)), (slot_sum_delete _ _ t) by easy. rewrite W4, wrap_sub_r. f_equal. lia.
    + rewrite (delete_id (lk_locals l)) by easy. destruct (lk_remotes l !! h) as [t|] eqn:Er.
      * rewrite (slot_sum_delete _ _ t) by easy. rewrite W4, wrap_sub_r. f_equal. lia.
      * now rewrite delete_id by easy.
Qed.
Lemma lookup_remove_get h l h' : lookup_get (lookup_remove h l) h' = if decide (h' = h) then None else lookup_get l h'.
Proof.
  unfold lookup_get. simpl. destruct (decide (h' = h)) as [->|Hne].
  - now rewrite !lookup_delete_eq.
  - now rewrite !lookup_delete_ne by congruence.
Qed.
Lemma lookup_remove_contains h l h' : lookup_contains l h' = false -> lookup_contains (lookup_remove h l) h' = false.
Proof.
  rewrite !lookup_contains_false. intros [H1 H2]. simpl. now rewrite !lookup_delete_None; auto.
Qed.
Lemma lookup_add_get t local l :
  lookup_contains l (tx_hash t) = false -> lookup_get (lookup_add t local l) (tx_hash t) = Some t.
Proof.
  intros [Hl Hr]%lookup_contains_false. unfold lookup_get, lookup_add.
  destruct local; simpl; rewrite ?Hl, lookup_insert_eq; easy.
Qed.

Lemma fold_insert_union {A} (l : list (H256 * A)) (m : gmap H256 A) : NoDup l.*1 ->
  fold_left (fun m e => <[e.1 := e.2]> m) l m = list_to_map l ∪ m.
Proof.
  revert m. induction l as [|[k v] l IH]; intros m Hn; simpl; [now rewrite (left_id ∅ (∪))|].
  apply NoDup_cons in Hn as [Hk Hn]. rewrite IH by easy.
  rewrite <- insert_union_r by now apply not_elem_of_list_to_map_1. now rewrite insert_union_l.
Qed.
Lemma filter_split_disjoint {A} (f : H256 * A -> bool) (m : gmap H256 A) :
  filter (fun e => f e = true) m ##ₘ filter (fun e => f e = false) m.
Proof.
  apply map_disjoint_spec. intros h x y [? ?]%map_lookup_filter_Some [? ?]%map_lookup_filter_Some. congruence.
Qed.
Lemma filter_split_union {A} (f : H256 * A -> bool) (m : gmap H256 A) :
  filter (fun e => f e = true) m ∪ filter (fun e => f e = false) m = m.
Proof.
  apply map_eq. intros h. apply option_eq. intros x.
  rewrite lookup_union_Some by apply filter_split_disjoint. rewrite !map_lookup_filter_Some.
  destruct (f (h, x)); naive_solver.
Qed.
(** Migration moves the transactions of the local accounts. *)
Lemma migrated_eq accs l :
  (lookup_remote_to_locals accs l).2 =
  {| lk_slots := lk_slots l;
     lk_locals := filter (fun e => accounts_contains_tx accs e.2 = true) (lk_remotes l) ∪ lk_locals l;
     lk_remotes := filter (fun e => accounts_contains_tx accs e.2 = false) (lk_remotes l) |}.
Proof.
  unfold lookup_remote_to_locals. simpl. f_equal.
  assert (Hnd : NoDup (btree_entries (lk_remotes l)).*1).
  { rewrite btree_entries_Permutation. apply NoDup_fst_map_to_list. }
  set (fl := List.filter _ _).
  assert (Hnd' : NoDup fl.*1).
  { subst fl. induction (btree_entries (lk_remotes l)) as [|e es IH]; [easy|]. simpl in *.
    apply NoDup_cons in Hnd as [Hin Hnd]. destruct (accounts_contains_tx accs e.2); [|auto].
    simpl. constructor; [|auto]. intros Hc. apply Hin. apply list_elem_of_fmap in Hc as (e' & -> & He').
    apply list_elem_of_fmap. exists e'. split; [easy|]. apply list_elem_of_In. apply list_elem_of_In in He'.
    now apply filter_In in He'. }
  rewrite fold_insert_union by easy. f_equal. apply map_eq. intros h.
  apply option_eq. intros t. rewrite <- elem_of_list_to_map by easy.
  rewrite list_elem_of_In. subst fl. rewrite filter_In, btree_entries_lookup, map_lookup_filter_Some. reflexivity.
Qed.
Lemma remote_to_locals_wf accs l : lookup_wf l -> lookup_wf (lookup_remote_to_locals accs l).2.
Proof.
  intros [W1 W2 W3 W4]. rewrite migrated_eq.
  assert (Hd : filter (fun e : H256 * SignedTransaction => accounts_contains_tx accs e.2 = true) (lk_remotes l) ##ₘ lk_locals l).
  { eapply map_disjoint_weaken_l; [symmetry; exact W3|apply map_filter_subseteq]. }
  split; simpl.
  - intros h t [[? _]%map_lookup_filter_Some|?]%lookup_union_Some; auto.
  - intros h t [? _]%map_lookup_filter_Some; auto.
  - apply map_disjoint_union_l. split.
    + apply (filter_split_disjoint (fun e => accounts_contains_tx accs e.2)).
    + eapply map_disjoint_weaken_r; [exact W3|apply map_filter_subseteq].
  - rewrite slot_sum_union by easy. rewrite W4. f_equal.
    rewrite <- (filter_split_union (fun e => accounts_contains_tx accs e.2) (lk_remotes l)) at 1.
    rewrite slot_sum_union by apply filter_split_disjoint. lia.
Qed.
Lemma remote_to_locals_get accs l h : lookup_wf l -> lookup_get (lookup_remote_to_locals accs l).2 h = lookup_get l h.
Proof.
  intros [_ _ Hd _]. rewrite migrated_eq. unfold lookup_get. simpl.
  destruct (lk_locals l !! h) as [u|] eqn:El.
  - assert (Er : lk_remotes l !! h = None) by (eapply map_disjoint_Some_l; eauto).
    rewrite lookup_union_r; [now rewrite El|]. apply map_lookup_filter_None. now left.
  - rewrite lookup_union_l by easy. destruct (lk_remotes l !! h) as [u|] eqn:Er.
    + destruct (accounts_contains_tx accs u) eqn:Ea.
      * now erewrite map_lookup_filter_Some_2.
      * rewrite (proj2 (map_lookup_filter_None _ _ _)); [now erewrite map_lookup_filter_Some_2|].
        right. intros v Hv. rewrite Er in Hv. injection Hv as <-. simpl. congruence.
    + now rewrite !(proj2 (map_lookup_filter_None _ _ _)) by now left.
Qed.
Lemma remote_to_locals_contains accs l h :
  lookup_contains l h = false -> lookup_contains (lookup_remote_to_locals accs l).2 h = false.
Proof.
  rewrite migrated_eq, !lookup_contains_false. simpl. intros [H1 H2].
  rewrite lookup_union_None, !map_lookup_filter_None. auto.
Qed.
End LookupTheorems.
