(* ===== verification/TxPool.v ===== *)
(** * The transaction pool

    [TxPool] of txpool/src/lib.rs: the checks on a new transaction, the queued
    and the pending transactions of each account, promotion and demotion, the
    limits, and the repacking when the chain has a new head.  The chain and the
    states it gives are the traits of crate traits; the instants at which the
    clock is read and the order in which a hash map is iterated are
    parameters. *)
From S2P Require Import Prelude Crypto Types Smt Codec SmtTree TreeDb State PrQue TxList.

(** [TxPoolError] (error.rs).  [CompositeErrors] keeps the errors its strings
    are the text of. *)
Inductive TxPoolError :=
| RWPoison
| MutexGuardError (msg : string)
| CompositeErrors (errors : list TxPoolError)
| GenericError (msg : anyhow)
| TransactionAlreadyKnown
| NonceTooLow
| FeeTooLow
| BadOrigin
| InsufficientFunds (fee amount : Z)
| ExplictCoinbase
| TransactionNotFoundInPrimary
| Underpriced
| TxPoolOverflow
| ReplaceUnderpriced
| MissingBlock
| HexError (msg : string)
(** an error of another crate, passed on *)
| Foreign (msg : anyhow).

(** [Blockchain] and [ChainReader] (crate traits) *)
Class Blockchain := {
  chain_get_block : H256 -> Z -> result anyhow (option Block);
  chain_get_current_state : result anyhow StateDB;
  chain_get_state_at : H256 -> result anyhow StateDB;
}.
Definition foreign {A} (r : result anyhow A) : result TxPoolError A :=
  match r with Ok a => Ok a | Err e => Err (Foreign e) | Panic => Panic end.

(** [TxPoolConfig] (types/src/lib.rs); [price_ratio] is only compared with its
    default, [life_time] is in nanoseconds. *)
Record TxPoolConfig := {
  no_locals : bool; price_ratio_default : bool; price_bump : Z; account_slots : Z; global_slots : Z;
  account_queue : Z; global_queue : Z; life_time : Z }.
Definition SECOND : Z := 10 ^ 9.
Definition DEFAULT_TX_POOL_CONFIG : TxPoolConfig :=
  {| no_locals := false; price_ratio_default := true; price_bump := 10; account_slots := 16;
     global_slots := 4096; account_queue := 64; global_queue := 1024; life_time := 3 * 3600 * SECOND |}.
Definition sanitize (c : TxPoolConfig) : TxPoolConfig :=
  let d := DEFAULT_TX_POOL_CONFIG in
  {| no_locals := no_locals c;
     price_ratio_default := true;
     price_bump := if price_bump c <? 1 then price_bump d else price_bump c;
     account_slots := if account_slots c <? 1 then account_slots d else account_slots c;
     global_slots := if global_slots c <? 1 then global_slots d else global_slots c;
     account_queue := if account_queue c <? 1 then account_queue d else account_queue c;
     global_queue := if global_queue c <? 1 then global_queue d else global_queue c;
     life_time := if life_time c <? SECOND then life_time d else life_time c |}.

(** [lmpsc]: the messages sent, [None] when the receiver is gone; [ticks]: how
    often the clock has been read. *)
Record TxPool := {
  config : TxPoolConfig;
  locals : AccountSet;
  current_state : StateDB;
  pending_nonce : TxNoncer;
  lmpsc : option (list (list SignedTransaction));
  queued_events : gmap Address TxSortedList;
  pending : gmap Address TxList;
  queue : gmap Address TxList;
  beats : gmap Address Z;
  all : TxLookup;
  priced : TxPricedList;
  changes_since_repack : Z;
  ticks : nat;
}.
Definition set_locals x p := {|
  config := config p; locals := x; current_state := current_state p; pending_nonce := pending_nonce p;
  lmpsc := lmpsc p; queued_events := queued_events p; pending := pending p; queue := queue p;
  beats := beats p; all := all p; priced := priced p; changes_since_repack := changes_since_repack p; ticks := ticks p |}.
Definition set_current_state x p := {|
  config := config p; locals := locals p; current_state := x; pending_nonce := pending_nonce p;
  lmpsc := lmpsc p; queued_events := queued_events p; pending := pending p; queue := queue p;
  beats := beats p; all := all p; priced := priced p; changes_since_repack := changes_since_repack p; ticks := ticks p |}.
Definition set_pending_nonce x p := {|
  config := config p; locals := locals p; current_state := current_state p; pending_nonce := x;
  lmpsc := lmpsc p; queued_events := queued_events p; pending := pending p; queue := queue p;
  beats := beats p; all := all p; priced := priced p; changes_since_repack := changes_since_repack p; ticks := ticks p |}.
Definition set_lmpsc x p := {|
  config := config p; locals := locals p; current_state := current_state p; pending_nonce := pending_nonce p;
  lmpsc := x; queued_events := queued_events p; pending := pending p; queue := queue p;
  beats := beats p; all := all p; priced := priced p; changes_since_repack := changes_since_repack p; ticks := ticks p |}.
Definition set_queued_events x p := {|
  config := config p; locals := locals p; current_state := current_state p; pending_nonce := pending_nonce p;
  lmpsc := lmpsc p; queued_events := x; pending := pending p; queue := queue p;
  beats := beats p; all := all p; priced := priced p; changes_since_repack := changes_since_repack p; ticks := ticks p |}.
Definition set_pending x p := {|
  config := config p; locals := locals p; current_state := current_state p; pending_nonce := pending_nonce p;
  lmpsc := lmpsc p; queued_events := queued_events p; pending := x; queue := queue p;
  beats := beats p; all := all p; priced := priced p; changes_since_repack := changes_since_repack p; ticks := ticks p |}.
Definition set_queue x p := {|
  config := config p; locals := locals p; current_state := current_state p; pending_nonce := pending_nonce p;
  lmpsc := lmpsc p; queued_events := queued_events p; pending := pending p; queue := x;
  beats := beats p; all := all p; priced := priced p; changes_since_repack := changes_since_repack p; ticks := ticks p |}.
Definition set_beats x n p := {|
  config := config p; locals := locals p; current_state := current_state p; pending_nonce := pending_nonce p;
  lmpsc := lmpsc p; queued_events := queued_events p; pending := pending p; queue := queue p;
  beats := x; all := all p; priced := priced p; changes_since_repack := changes_since_repack p; ticks := n |}.
Definition set_all x p := {|
  config := config p; locals := locals p; current_state := current_state p; pending_nonce := pending_nonce p;
  lmpsc := lmpsc p; queued_events := queued_events p; pending := pending p; queue := queue p;
  beats := beats p; all := x; priced := priced p; changes_since_repack := changes_since_repack p; ticks := ticks p |}.
Definition set_priced x p := {|
  config := config p; locals := locals p; current_state := current_state p; pending_nonce := pending_nonce p;
  lmpsc := lmpsc p; queued_events := queued_events p; pending := pending p; queue := queue p;
  beats := beats p; all := all p; priced := x; changes_since_repack := changes_since_repack p; ticks := ticks p |}.
Definition set_changes x p := {|
  config := config p; locals := locals p; current_state := current_state p; pending_nonce := pending_nonce p;
  lmpsc := lmpsc p; queued_events := queued_events p; pending := pending p; queue := queue p;
  beats := beats p; all := all p; priced := priced p; changes_since_repack := x; ticks := ticks p |}.

Abbreviation poolM := (stM TxPool TxPoolError).
Definition pool : poolM TxPool := gets (fun p => p).
Definition ensure_st (b : bool) (e : TxPoolError) : poolM unit := lift (ensure b e).

Section Pool.
Context {Cr : CryptoPrims} {Pl : ProstLen} {Bc : Blockchain}.
(** The [n]-th reading of the clock. *)
Variable instant : nat -> Z.
(** The order in which a [HashMap] is iterated. *)
Variable hash_keys : forall {A}, gmap Address A -> list Address.

Definition upd_all (f : TxLookup -> TxLookup) : poolM unit := modify (fun p => set_all (f (all p)) p).
Definition upd_priced (f : TxPricedList -> TxPricedList) : poolM unit := modify (fun p => set_priced (f (priced p)) p).
Definition upd_noncer (f : TxNoncer -> TxNoncer) : poolM unit :=
  modify (fun p => set_pending_nonce (f (pending_nonce p)) p).
Definition get_pending_nonce (a : Address) : poolM Z := fun p =>
  let '(n, noncer) := noncer_get a (pending_nonce p) in (Ok n, set_pending_nonce noncer p).
Definition put_pending (a : Address) (l : TxList) : poolM unit :=
  modify (fun p => set_pending (<[a := l]> (pending p)) p).
Definition put_queue (a : Address) (l : TxList) : poolM unit :=
  modify (fun p => set_queue (<[a := l]> (queue p)) p).

(** [beats.entry(a).or_insert_with(Instant::now)] and [beats.insert(a, Instant::now())] *)
Definition beat_if_absent (a : Address) : poolM unit := modify (fun p =>
  match beats p !! a with
  | Some _ => p
  | None => set_beats (<[a := instant (ticks p)]> (beats p)) (S (ticks p)) p
  end).
Definition beat (a : Address) : poolM unit :=
  modify (fun p => set_beats (<[a := instant (ticks p)]> (beats p)) (S (ticks p)) p).

(** The state is the one the chain itself works on, until the first [reset]
    replaces it: what later blocks do to it before that is the step
    [step_chain] of TxPoolProofs.v. *)
Definition TxPool_new (conf : option TxPoolConfig) (local_accounts : option (list Address)) :
    result TxPoolError TxPool :=
  state ← foreign chain_get_current_state;
  Ok {| config := match conf with Some c => sanitize c | None => DEFAULT_TX_POOL_CONFIG end;
        locals := match local_accounts with Some l => accounts_from l | None => accounts_new end;
        current_state := state; pending_nonce := noncer_new state; lmpsc := Some [];
        queued_events := ∅; pending := ∅; queue := ∅; beats := ∅; all := lookup_new;
        priced := priced_new; changes_since_repack := 0; ticks := 0 |}.

Definition validate_tx (p : TxPool) (t : SignedTransaction) : result TxPoolError unit :=
  let from := sender t in
  if tx_nonce t <? db_nonce (current_state p) from then Err NonceTooLow
  else if db_balance (current_state p) from <? u64 (fees t + price t)
  then Err (InsufficientFunds (fees t) (price t))
  else Ok tt.

(** ** Queueing and removing *)

Definition queue_event (t : SignedTransaction) : poolM unit := modify (fun p =>
  let events := default sorted_new (queued_events p !! sender t) in
  set_queued_events (<[sender t := sorted_put t events]> (queued_events p)) p).

(** The entry of a transaction that has been replaced goes. *)
Definition forget (t : SignedTransaction) : poolM unit :=
  _ ← upd_all (lookup_remove (tx_hash t));
  upd_priced (fun l => (priced_remove t l).2).
Definition forget_old (old : option SignedTransaction) : poolM unit :=
  match old with Some old => forget old | None => mret tt end.

Definition enqueue_tx (hash : H256) (t : SignedTransaction) (local add_all : bool) : poolM bool :=
  let from := sender t in
  p ← pool;
  let l := default (list_new false) (queue p !! from) in
  _ ← put_queue from l;
  '(inserted, old, l) ← lift (list_add t (price_bump (config p)) l);
  _ ← put_queue from l;
  _ ← ensure_st inserted ReplaceUnderpriced;
  _ ← forget_old old;
  _ ← (if add_all then _ ← upd_all (lookup_add t local); upd_priced (priced_put t local) else mret tt);
  _ ← beat_if_absent from;
  mret (bool_decide (is_Some old)).

(** The part of [remove_tx] about the pending list: whether the function returns there. *)
Definition remove_pending (t : SignedTransaction) : poolM bool :=
  let sender_ := sender t in
  p ← pool;
  match pending p !! sender_ with
  | None => mret false
  | Some l =>
    let '(removed, invalids, l) := list_remove t l in
    _ ← put_pending sender_ l;
    if removed : bool then
      _ ← (if list_is_empty l then modify (fun p => set_pending (delete sender_ (pending p)) p) else mret tt);
      _ ← for_each invalids (fun t => _ ← enqueue_tx (tx_hash t) t false false; mret tt);
      _ ← upd_noncer (noncer_set_if_lower sender_ (tx_nonce t));
      mret true
    else mret false
  end.
Definition remove_queued (t : SignedTransaction) : poolM unit :=
  let sender_ := sender t in
  p ← pool;
  match queue p !! sender_ with
  | None => mret tt
  | Some l =>
    let '(removed, _, l) := list_remove t l in
    _ ← put_queue sender_ l;
    if removed && bool_decide (pending p = ∅)
    then modify (fun p => set_queue (delete sender_ (queue p)) p)
    else mret tt
  end.
Definition remove_tx (hash : H256) (outofbound : bool) : poolM unit :=
  p ← pool;
  match lookup_get (all p) hash with
  | None => mret tt
  | Some t =>
    _ ← upd_all (lookup_remove hash);
    _ ← (if outofbound then upd_priced (fun l => (priced_remove t l).2) else mret tt);
    returned ← remove_pending t;
    if returned : bool then mret tt else remove_queued t
  end.

(** ** Adding *)

(** Make room when all slots are taken (lib.rs, in [add]). *)
Definition make_room (t : SignedTransaction) (is_local : bool) : poolM unit :=
  p ← pool;
  let capacity := u64 (global_slots (config p) + global_queue (config p)) in
  if capacity <? u64 (lk_slots (all p) + num_slots t) then
    _ ← (if is_local then mret tt
         else under ← lift (priced_underpriced t (priced p)); ensure_st (negb under) Underpriced);
    _ ← ensure_st (changes_since_repack p <? i32 (global_slots (config p) / 4)) TxPoolOverflow;
    drop ← zoom priced set_priced (priced_discard (u64 (u64 (lk_slots (all p) - capacity) + num_slots t)));
    _ ← modify (set_changes (i32 (Z.of_nat (length drop))));
    for_each drop (fun t => remove_tx (tx_hash t) false)
  else mret tt.

Definition migrate_locals (from : Address) : poolM unit :=
  _ ← modify (fun p => set_locals (accounts_add from (locals p)) p);
  p ← pool;
  let '(migrated, all') := lookup_remote_to_locals (locals p) (all p) in
  _ ← modify (set_all all');
  for_each migrated (fun t => upd_priced (fun l => (priced_remove t l).2)).

(** A new transaction in the place of a pending one with its nonce, or one that
    waits in the queue. *)
Definition add_pending (t : SignedTransaction) (is_local : bool) (l : TxList) : poolM bool :=
  p ← pool;
  '(inserted, old, l) ← lift (list_add t (price_bump (config p)) l);
  _ ← put_pending (sender t) l;
  _ ← ensure_st inserted ReplaceUnderpriced;
  _ ← forget_old old;
  _ ← upd_all (lookup_add t is_local);
  _ ← upd_priced (priced_put t is_local);
  _ ← queue_event t;
  mret (bool_decide (is_Some old)).
Definition add_queued (t : SignedTransaction) (local is_local : bool) : poolM bool :=
  replaced ← enqueue_tx (tx_hash t) t is_local true;
  p ← pool;
  _ ← (if local && negb (accounts_contains (locals p) (sender t))
       then migrate_locals (sender t) else mret tt);
  mret replaced.
Definition add (t : SignedTransaction) (local : bool) : poolM bool :=
  p ← pool;
  _ ← ensure_st (negb (lookup_contains (all p) (tx_hash t))) TransactionAlreadyKnown;
  let is_local := local || accounts_contains_tx (locals p) t in
  _ ← lift (validate_tx p t);
  _ ← make_room t is_local;
  p ← pool;
  match pending p !! sender t with
  | Some l => if list_overlaps l t then add_pending t is_local l else add_queued t local is_local
  | None => add_queued t local is_local
  end.

(** Run an action and look at its error; a panic goes through. *)
Definition attempt {A} (m : poolM A) : poolM (result TxPoolError A) := fun p =>
  match m p with
  | (Ok a, p) => (Ok (Ok a), p)
  | (Err e, p) => (Ok (Err e), p)
  | (Panic, p) => (Panic, p)
  end.

(** [Vec::insert], which panics past the end *)
Definition vec_insert {A} (i : nat) (x : A) (l : list A) : result TxPoolError (list A) :=
  if (length l <? i)%nat then Panic else Ok (take i l ++ x :: drop i l).

Fixpoint add_each (i : nat) (tsx : list SignedTransaction) (local : bool) (dirty : AccountSet)
    (errors : list TxPoolError) : poolM (AccountSet * list TxPoolError) :=
  match tsx with
  | [] => mret (dirty, errors)
  | t :: tsx =>
    r ← attempt (add t local);
    match r with
    | Ok replaced => add_each (S i) tsx local (if replaced : bool then dirty else accounts_add_tx t dirty) errors
    | Err error => errors ← lift (vec_insert i error errors); add_each (S i) tsx local dirty errors
    | Panic => lift Panic
    end
  end.
Definition add_txs_locked (tsx : list SignedTransaction) (local : bool) : poolM (AccountSet * list TxPoolError) :=
  add_each 0 tsx local accounts_new [].

Definition promote_tx (addr : Address) (hash : H256) (t : SignedTransaction) : poolM bool :=
  p ← pool;
  let l := default (list_new true) (pending p !! addr) in
  _ ← put_pending addr l;
  '(inserted, old, l) ← lift (list_add t (price_bump (config p)) l);
  _ ← put_pending addr l;
  if inserted : bool then
    _ ← forget_old old;
    _ ← upd_noncer (noncer_set addr (u64 (tx_nonce t + 1)));
    _ ← beat addr;
    mret true
  else
    _ ← upd_all (lookup_remove hash);
    _ ← upd_priced (fun l => (priced_remove t l).2);
    mret false.

(** ** A new head *)

(** Go back along the parents of a block down to a level, collecting the
    transactions in a set ordered by nonce; [None] when a block is missing.  A
    block at level [n] has at most [n] ancestors. *)
Fixpoint descend (fuel : nat) (target : Z) (b : Block) (acc : list SignedTransaction) :
    result TxPoolError (option (Block * list SignedTransaction)) :=
  match fuel with
  | O => Panic
  | S fuel =>
    if target <? block_level b then
      let acc := btree_extend nonce_cmp acc (transactions b) in
      o ← foreign (chain_get_block (parent_hash (header b)) (u32 (block_level b - 1)));
      match o with
      | Some b => descend fuel target b acc
      | None => Ok None
      end
    else Ok (Some (b, acc))
  end.
(** Go back on both sides until the blocks are the same. *)
Fixpoint rewind (fuel : nat) (rem add : Block) (discarded included : list SignedTransaction) :
    result TxPoolError (option (list SignedTransaction * list SignedTransaction)) :=
  match fuel with
  | O => Panic
  | S fuel =>
    if negb (bool_decide (block_hash rem = block_hash add)) then
      let discarded := btree_extend nonce_cmp discarded (transactions rem) in
      o ← foreign (chain_get_block (parent_hash (header rem)) (u32 (block_level rem - 1)));
      match o with
      | None => Ok None
      | Some rem =>
        let included := btree_extend nonce_cmp included (transactions add) in
        o ← foreign (chain_get_block (parent_hash (header add)) (u32 (block_level add - 1)));
        match o with
        | None => Ok None
        | Some add => rewind fuel rem add discarded included
        end
      end
    else Ok (Some (discarded, included))
  end.
Definition level_fuel (b : Block) : nat := S (Z.to_nat (block_level b)).

(** The transactions to inject again; [None] when the function returns without
    going on to the new state. *)
Definition stale_txs (old_head : option BlockHeader) (new_head : BlockHeader) :
    result TxPoolError (option (list SignedTransaction)) :=
  match old_head with
  | None => Ok (Some [])
  | Some old_head =>
    if bool_decide (header_hash old_head = parent_hash new_head) then Ok (Some [])
    else
      let old_num := level old_head in
      let new_num := level new_head in
      let depth := i32 (Z.abs (i32 (i32 old_num - i32 new_num))) in
      if 64 <? depth then Ok (Some [])
      else
        rem ← foreign (chain_get_block (header_hash old_head) old_num);
        add ← foreign (chain_get_block (header_hash new_head) new_num);
        add ← ok_or add MissingBlock;
        match rem with
        | None => if old_num <? new_num then Ok None else Ok (Some [])
        | Some rem =>
          o ← descend (level_fuel rem) (block_level add) rem [];
          match o with
          | None => Ok None
          | Some (rem, discarded) =>
            o ← descend (level_fuel add) (block_level rem) add [];
            match o with
            | None => Ok None
            | Some (add, included) =>
              o ← rewind (level_fuel rem) rem add discarded included;
              match o with
              | None => Ok None
              | Some (discarded, included) =>
                Ok (Some (btree_intersection nonce_cmp discarded included))
              end
            end
          end
        end
  end.

Definition reset (old_head : option BlockHeader) (new_head : BlockHeader) : poolM unit :=
  o ← lift (stale_txs old_head new_head);
  match o with
  | None => mret tt
  | Some reinject =>
    state ← lift (foreign (chain_get_state_at (state_root new_head)));
    _ ← modify (set_current_state state);
    _ ← modify (set_pending_nonce (noncer_new state));
    _ ← add_txs_locked reinject false;
    mret tt
  end.

(** ** Limits *)

Definition pending_len (p : TxPool) (a : Address) : Z :=
  match pending p !! a with Some l => Z.of_nat (list_len l) | None => 0 end.

(** What [cap] returns is forgotten, and the nonce of the account goes back. *)
Definition drop_capped (a : Address) (caps : list SignedTransaction) : poolM unit :=
  for_each caps (fun t =>
    _ ← forget t;
    upd_noncer (noncer_set_if_lower a (tx_nonce t))).
Definition cap_one (a : Address) (l : TxList) : poolM unit :=
  let '(caps, l) := list_cap (list_len l - 1) l in
  _ ← put_pending a l;
  drop_capped a caps.

(** One transaction less for each offender; [None] when an offender has no
    pending list. *)
Fixpoint cap_offenders (offenders : list Address) (pending_ : Z) : poolM (option Z) :=
  match offenders with
  | [] => mret (Some pending_)
  | a :: offenders =>
    p ← pool;
    match pending p !! a with
    | None => mret None
    | Some l => _ ← cap_one a l; cap_offenders offenders (u64 (pending_ - 1))
    end
  end.
(** Bring the offenders down to [threshold], the length of the list of the last one. *)
Fixpoint equalize (fuel : nat) (threshold : Z) (prev : Address) (offenders : list Address) (pending_ : Z) :
    poolM (option Z) :=
  match fuel with
  | O => lift Panic
  | S fuel =>
    p ← pool;
    if (global_slots (config p) <? pending_) && (threshold <? pending_len p prev) then
      o ← cap_offenders offenders pending_;
      match o with
      | None => mret None
      | Some pending_ => equalize fuel threshold prev offenders pending_
      end
    else mret (Some pending_)
  end.
(** Pop the greatest spammers while there are too many pending transactions. *)
Fixpoint penalize (fuel : nat) (spammers : list (Element Address)) (offenders : list Address) (pending_ : Z) :
    poolM (option (list Address * Z)) :=
  match fuel with
  | O => lift Panic
  | S fuel =>
    p ← pool;
    if (global_slots (config p) <? pending_) && negb (pq_is_empty spammers) then
      match pq_pop spammers with
      | None => mret None
      | Some ((offender, _), spammers) =>
        let prev := last_opt offenders in
        let offenders := offenders ++ [offender] in
        match prev with
        | None => penalize fuel spammers offenders pending_
        | Some prev =>
          o ← equalize (S (Z.to_nat (pending_len p prev))) (pending_len p offender) prev offenders pending_;
          match o with
          | None => mret None
          | Some pending_ => penalize fuel spammers offenders pending_
          end
        end
      end
    else mret (Some (offenders, pending_))
  end.
Fixpoint shrink_offenders (offenders : list Address) (pending_ : Z) : poolM Z :=
  match offenders with
  | [] => mret pending_
  | a :: offenders =>
    p ← pool;
    match pending p !! a with
    | None => shrink_offenders offenders pending_
    | Some l => _ ← cap_one a l; shrink_offenders offenders (u64 (pending_ - 1))
    end
  end.
Fixpoint shrink (fuel : nat) (last_offender : Address) (offenders : list Address) (pending_ : Z) : poolM unit :=
  match fuel with
  | O => lift Panic
  | S fuel =>
    p ← pool;
    if (global_slots (config p) <? pending_) && (account_slots (config p) <? pending_len p last_offender) then
      pending_ ← shrink_offenders offenders pending_;
      shrink fuel last_offender offenders pending_
    else mret tt
  end.

Definition find_spammers (p : TxPool) : list (Element Address) :=
  fold_left (fun q a =>
      if negb (accounts_contains (locals p) a) && (account_slots (config p) <? pending_len p a)
      then pq_push a (i64 (pending_len p a)) q else q)
    (hash_keys (pending p)) pq_new.
Definition count_pending (p : TxPool) : Z :=
  u64 (fold_left (fun acc a => acc + pending_len p a) (hash_keys (pending p)) 0).

Definition truncate_pending : poolM unit :=
  p ← pool;
  let pending_ := count_pending p in
  if pending_ <=? global_slots (config p) then mret tt
  else
    let spammers := find_spammers p in
    o ← penalize (S (length spammers)) spammers [] pending_;
    match o with
    | None => mret tt
    | Some (offenders, pending_) =>
      p ← pool;
      if global_slots (config p) <? pending_ then
        match last_opt offenders with
        | None => mret tt
        | Some last_offender => shrink (S (Z.to_nat (pending_len p last_offender))) last_offender offenders pending_
        end
      else mret tt
    end.

(** [AddressByHeartbeat], ordered by the instant only *)
Definition heartbeat_cmp (a b : Address * Z) : comparison := Z.compare a.2 b.2.

(** The last transactions of an account are removed from the end: the first
    index read is the length of the list. *)
Fixpoint remove_from_end (fuel : nat) (txs : list SignedTransaction) (i drop : Z) : poolM Z :=
  match fuel with
  | O => lift Panic
  | S fuel =>
    if (0 <=? i) && (0 <? drop) then
      t ← lift (unwrap (txs !! Z.to_nat i));
      _ ← remove_tx (tx_hash t) true;
      remove_from_end fuel txs (i - 1) (drop - 1)
    else mret drop
  end.
(** [addresses] from the last to the first *)
Fixpoint drop_queued (addresses : list (Address * Z)) (drop : Z) : poolM unit :=
  match addresses with
  | [] => mret tt
  | (a, _) :: addresses =>
    if 0 <? drop then
      p ← pool;
      match queue p !! a with
      | None => mret tt
      | Some l =>
        let size := Z.of_nat (list_len l) in
        if size <=? drop then
          _ ← for_each (list_flatten l) (fun t => remove_tx (tx_hash t) true);
          drop_queued addresses (drop - size)
        else
          drop ← remove_from_end (S (S (list_len l))) (list_flatten l) size drop;
          drop_queued addresses drop
      end
    else mret tt
  end.
Fixpoint collect_addresses (p : TxPool) (keys : list Address) (acc : list (Address * Z)) :
    result TxPoolError (list (Address * Z)) :=
  match keys with
  | [] => Ok acc
  | a :: keys =>
    if accounts_contains (locals p) a then collect_addresses p keys acc
    else b ← unwrap (beats p !! a); collect_addresses p keys (btree_insert heartbeat_cmp (a, b) acc)
  end.
Definition queue_len (p : TxPool) (a : Address) : Z :=
  match queue p !! a with Some l => Z.of_nat (list_len l) | None => 0 end.
(** The closure of the fold ignores its accumulator. *)
Definition count_queued (p : TxPool) : Z :=
  u64 (fold_left (fun _ a => queue_len p a) (hash_keys (queue p)) 0).
Definition truncate_queue : poolM unit :=
  p ← pool;
  let queued := count_queued p in
  if queued <=? global_queue (config p) then mret tt
  else
    addresses ← lift (collect_addresses p (hash_keys (queue p)) []);
    drop_queued (reverse addresses) (queued - global_queue (config p)).

(** ** Promotion and demotion *)

(** A loop that pushes to a vector. *)
Fixpoint collect_each {A B} (l : list A) (body : A -> poolM (list B)) : poolM (list B) :=
  match l with
  | [] => mret []
  | x :: l => ys ← body x; zs ← collect_each l body; mret (ys ++ zs)
  end.
Definition forget_hashes (txs : list SignedTransaction) : poolM unit :=
  for_each txs (fun t => upd_all (lookup_remove (tx_hash t))).

(** One pending list in [demote_unexecutable]: the transactions to queue again. *)
Definition demote_list (a : Address) : poolM (list SignedTransaction) :=
  p ← pool;
  l ← lift (unwrap (pending p !! a));
  let nonce := db_nonce (current_state p) a in
  let '(olds, l) := list_forward nonce l in
  _ ← put_pending a l;
  _ ← forget_hashes olds;
  let '(o, l) := list_filter_price (db_balance (current_state p) a) l in
  _ ← put_pending a l;
  invalids ← match o with
             | None => mret []
             | Some (drops, invalids) => _ ← forget_hashes drops; mret invalids
             end;
  if negb (list_is_empty l) && negb (bool_decide (is_Some (sorted_get (list_txs l) nonce))) then
    let '(gapped, l) := list_cap 0 l in
    _ ← put_pending a l;
    mret (invalids ++ gapped)
  else mret invalids.
Definition demote_unexecutable : poolM unit :=
  p ← pool;
  enqueue ← collect_each (hash_keys (pending p)) demote_list;
  _ ← for_each enqueue (fun t => _ ← enqueue_tx (tx_hash t) t false false; mret tt);
  modify (fun p => set_pending (filter (fun e => list_is_empty e.2 = false) (pending p)) p).

Definition promote_account (a : Address) : poolM (list SignedTransaction) :=
  p ← pool;
  match queue p !! a with
  | None => mret []
  | Some l =>
    let '(olds, l) := list_forward (db_nonce (current_state p) a) l in
    _ ← put_queue a l;
    _ ← forget_hashes olds;
    let '(o, l) := list_filter_price (db_balance (current_state p) a) l in
    _ ← put_queue a l;
    _ ← forget_hashes (match o with Some (drops, _) => drops | None => [] end);
    start ← get_pending_nonce a;
    let '(readies, l) := list_ready start l in
    _ ← put_queue a l;
    collect_each readies (fun t =>
      promoted ← promote_tx a (tx_hash t) t;
      mret (if promoted : bool then [t] else []))
  end.
Definition cap_account (a : Address) : poolM unit :=
  p ← pool;
  match queue p !! a with
  | None => mret tt
  | Some l =>
    l ← (if accounts_contains (locals p) a then mret l
         else
           let '(caps, l) := list_cap (Z.to_nat (account_queue (config p))) l in
           _ ← put_queue a l;
           _ ← forget_hashes caps;
           mret l);
    if list_is_empty l then
      modify (fun p => set_beats (delete a (beats p)) (ticks p) (set_queue (delete a (queue p)) p))
    else mret tt
  end.
Definition promote_executable (accounts : list Address) : poolM (list SignedTransaction) :=
  promoted ← collect_each accounts promote_account;
  _ ← for_each accounts cap_account;
  mret promoted.

(** ** Repacking *)

Record ResetRequest := { old_head : option BlockHeader; new_head : BlockHeader }.
Definition ResetRequest_new (old : option BlockHeader) (new : BlockHeader) : ResetRequest :=
  {| old_head := old; new_head := new |}.

Definition send (txs : list SignedTransaction) : poolM unit := fun p =>
  match lmpsc p with
  | Some sent => (Ok tt, set_lmpsc (Some (sent ++ [txs])) p)
  | None => (Err (Foreign "channel closed"), p)
  end.

Fixpoint forward_events (keys : list Address) (events : gmap Address TxSortedList) :
    poolM (gmap Address TxSortedList) :=
  match keys with
  | [] => mret events
  | a :: keys =>
    n ← get_pending_nonce a;
    forward_events keys (alter (fun l => (sorted_forward n l).2) a events)
  end.
(** After a reset, the nonce of each pending account is taken from its list. *)
Definition pending_nonces (p : TxPool) : gmap Address Z :=
  omap (fun l => (fun t => u64 (tx_nonce t + 1)) <$> list_last_element l) (pending p).
Definition add_event (events : gmap Address TxSortedList) (t : SignedTransaction) : gmap Address TxSortedList :=
  <[sender t := sorted_put t (default sorted_new (events !! sender t))]> events.

Definition repack (dirty_accounts : AccountSet) (request : option ResetRequest) : poolM unit :=
  events ← gets queued_events;
  '(events, promote_addrs) ←
    match request with
    | None =>
      mret (events, if accounts_is_empty dirty_accounts then [] else accounts_flatten dirty_accounts)
    | Some r =>
      _ ← reset (old_head r) (new_head r);
      events ← forward_events (hash_keys events) events;
      p ← pool;
      mret (filter (fun e => sorted_is_empty e.2 = false) events, hash_keys (queue p))
    end;
  promoted ← promote_executable promote_addrs;
  _ ← match request with
      | None => mret tt
      | Some _ =>
        _ ← demote_unexecutable;
        p ← pool;
        if bool_decide (pending p = ∅) then mret tt
        else upd_noncer (noncer_set_all (pending_nonces p))
      end;
  _ ← truncate_pending;
  _ ← truncate_queue;
  _ ← modify (set_changes 0);
  let events := fold_left add_event promoted events in
  if bool_decide (events = ∅) then mret tt
  else send (concat (map (fun a => sorted_flatten (default sorted_new (events !! a))) (hash_keys events))).

Definition add_txs (tsx : list SignedTransaction) (local : bool) : poolM unit :=
  p ← pool;
  let known := List.filter (fun t => lookup_contains (all p) (tx_hash t)) tsx in
  let news := List.filter (fun t => negb (lookup_contains (all p) (tx_hash t))) tsx in
  let errors := map (fun _ => TransactionAlreadyKnown) known in
  match news with
  | [] => lift (Err (CompositeErrors errors))
  | _ =>
    '(dirty, new_errors) ← add_txs_locked news local;
    let errors := errors ++ new_errors in
    _ ← repack dirty None;
    _ ← modify (set_queued_events ∅);
    match errors with
    | [] => mret tt
    | _ => lift (Err (CompositeErrors errors))
    end
  end.

(** ** Public functions *)

Definition add_local (t : SignedTransaction) : poolM unit := add_txs [t] true.
Definition add_locals (txs : list SignedTransaction) : poolM unit := add_txs txs true.
Definition add_remote (t : SignedTransaction) : poolM unit := add_txs [t] false.
Definition add_remotes (txs : list SignedTransaction) : poolM unit := add_txs txs false.
Definition pool_get (p : TxPool) (hash : H256) : option SignedTransaction := lookup_get (all p) hash.
Definition pool_has (p : TxPool) (hash : H256) : bool := lookup_contains (all p) hash.
Definition tx_status (p : TxPool) (hash : H256) : TransactionStatus :=
  match pool_get p hash with
  | None => NotFound
  | Some t =>
    match pending p !! sender t with
    | Some l => if sorted_has (list_txs l) (tx_nonce t) then Pending else NotFound
    | None =>
      match queue p !! sender t with
      | Some l => if sorted_has (list_txs l) (tx_nonce t) then Pending else NotFound
      | None => NotFound
      end
    end
  end.
Definition pool_status (p : TxPool) (txs : list H256) : list TransactionStatus := map (tx_status p) txs.
Definition pool_nonce (a : Address) : poolM Z :=
  p ← pool;
  let nonce := db_nonce (current_state p) a in
  sn ← get_pending_nonce a;
  let nonce := if nonce <? sn then sn else nonce in
  _ ← (if sn <? nonce then upd_noncer (noncer_set a nonce) else mret tt);
  mret nonce.
Definition pool_stats (p : TxPool) : Z * Z :=
  (fold_left (fun acc a => acc + pending_len p a) (hash_keys (pending p)) 0,
   fold_left (fun acc a => acc + queue_len p a) (hash_keys (queue p)) 0).
Definition pool_pending (p : TxPool) : gmap Address (list SignedTransaction) := list_flatten <$> pending p.
Definition pool_content (p : TxPool) : gmap Address (list SignedTransaction) * gmap Address (list SignedTransaction) :=
  (pool_pending p, list_flatten <$> queue p).
Definition pool_content_from (p : TxPool) (a : Address) : list SignedTransaction * list SignedTransaction :=
  (match pending p !! a with Some l => list_flatten l | None => [] end,
   match queue p !! a with Some l => list_flatten l | None => [] end).
Definition pool_locals (p : TxPool) : list Address := accounts_flatten (locals p).
End Pool.
