(* ===== verification/TxPoolProofs.v ===== *)
(** * Theorems about the transaction pool

    A well-formedness invariant of [TxPool] that every operation keeps, the
    termination and the reach of [truncate_pending], the way of a new
    transaction to the pending list, and how [add_txs_locked], [reset] and
    [remove_tx] behave. *)
From S2P Require Import Prelude Crypto Types Smt Codec SmtTree TreeDb State PrQue TxList TxPool.
From stdpp Require Import list.
#[local] Open Scope Z_scope.

Section Invariant.
Context {Cr : CryptoPrims} {Pl : ProstLen} {Bc : Blockchain}.
Context (instant : nat -> Z) (hash_keys : forall A, gmap Address A -> list Address).

(** ** The invariant *)

Definition keyed (a : Address) (l : TxSortedList) : Prop :=
  forall n t, l !! n = Some t -> tx_nonce t = n /\ sender t = a.
Definition list_wf (strict_ : bool) (a : Address) (l : TxList) : Prop :=
  is_strict l = strict_ /\ keyed a (list_txs l).

(** The hashes in [absent] are not in the table and the accounts in [beating]
    have a heartbeat. *)
Record pool_inv (absent : H256 -> Prop) (beating : Address -> Prop) (p : TxPool) : Prop := {
  inv_pending : forall a l, pending p !! a = Some l -> list_wf true a l;
  inv_queue : forall a l, queue p !! a = Some l -> list_wf false a l;
  inv_events : forall a l, queued_events p !! a = Some l -> keyed a l;
  inv_lookup : lookup_wf (all p);
  inv_priced : priced_sorted (priced_txs (priced p));
  inv_beats : forall a l, queue p !! a = Some l -> is_Some (beats p !! a);
  inv_beating : forall a, beating a -> is_Some (beats p !! a);
  inv_absent : forall h, absent h -> lookup_contains (all p) h = false;
}.
Definition pool_wf : TxPool -> Prop := pool_inv (fun _ => False) (fun _ => False).

Lemma pool_inv_weaken (ab ab' : H256 -> Prop) (bt bt' : Address -> Prop) p :
  (forall h, ab' h -> ab h) -> (forall a, bt' a -> bt a) -> pool_inv ab bt p -> pool_inv ab' bt' p.
Proof. intros H1 H2 []. split; auto. Qed.
Lemma pool_inv_wf ab bt p : pool_inv ab bt p -> pool_wf p.
Proof. now apply pool_inv_weaken. Qed.

(** ** Lists keep their keys *)

Lemma keyed_empty a : keyed a ∅.
Proof. intros n t. now rewrite lookup_empty. Qed.
Lemma keyed_put a t l : keyed a l -> sender t = a -> keyed a (sorted_put t l).
Proof. unfold sorted_put. intros Hl Ht n u [[<- <-]|[_ ?]]%lookup_insert_Some; auto. Qed.
Lemma keyed_sub a l l' : keyed a l -> l' ⊆ l -> keyed a l'.
Proof. intros Hl Hs n t Hn. apply Hl. eapply lookup_weaken; eauto. Qed.
Lemma keyed_filter a f l : keyed a l -> keyed a (sorted_filter f l).2.
Proof. intros Hl. eapply keyed_sub; [exact Hl|apply map_filter_subseteq]. Qed.
Lemma keyed_removed a f l t : keyed a l -> t ∈ (sorted_filter f l).1 -> sender t = a.
Proof. intros Hl (n & Hn & _)%sorted_filter_removed. now apply Hl in Hn. Qed.

Lemma list_wf_new s a : list_wf s a (list_new s).
Proof. split; [easy|apply keyed_empty]. Qed.
Lemma list_wf_set s a l txs : list_wf s a l -> keyed a txs -> list_wf s a (set_list_txs txs l).
Proof. now intros [? ?]. Qed.
Lemma list_add_wf {E} s a t bump l inserted old l' : list_wf s a l -> sender t = a ->
  list_add (E:=E) t bump l = Ok (inserted, old, l') -> list_wf s a l'.
Proof.
  intros Hl Ht. unfold list_add. pose proof (keyed_put a t _ (proj2 Hl) Ht).
  repeat case_match; intros [= <- <- <-]; auto using list_wf_set.
Qed.
Lemma list_add_fresh {E} t bump s :
  list_add (E:=E) t bump (list_new s) = Ok (true, None, {| is_strict := s; list_txs := {[tx_nonce t := t]} |}).
Proof. reflexivity. Qed.

Lemma list_remove_wf s a t l : list_wf s a l -> list_wf s a (list_remove t l).2.
Proof.
  intros [Hs Hl]. assert (keyed a (delete (tx_nonce t) (list_txs l))) by (eapply keyed_sub; [exact Hl|apply delete_subseteq]).
  unfold list_remove, sorted_remove. destruct (bool_decide _); [now split|].
  destruct (is_strict l) eqn:Es; [|split; simpl; congruence || easy].
  destruct (sorted_filter _ _) as [inv txs] eqn:E. split; [simpl; congruence|]. simpl. change txs with (inv, txs).2. rewrite <- E. now apply keyed_filter.
Qed.
Lemma list_remove_invalids a s t l u : list_wf s a l -> u ∈ (list_remove t l).1.2 -> sender u = a.
Proof.
  intros [Hs Hl]. unfold list_remove, sorted_remove.
  destruct (bool_decide _); [intros Hu; inversion Hu|].
  destruct (is_strict l); [|intros Hu; inversion Hu].
  destruct (sorted_filter _ _) as [inv txs] eqn:E. simpl. change inv with (inv, txs).1. rewrite <- E.
  apply keyed_removed. eapply keyed_sub; [exact Hl|apply delete_subseteq].
Qed.
Lemma list_forward_wf s a n l : list_wf s a l -> list_wf s a (list_forward n l).2.
Proof. intros [Hs Hl]. split; [easy|]. now apply (keyed_filter a (fun nonce _ => nonce <? n)). Qed.
Lemma list_ready_wf s a n l : list_wf s a l -> list_wf s a (list_ready n l).2.
Proof. intros [Hs Hl]. split; [easy|]. now apply (keyed_filter a (fun nonce _ => n <=? nonce)). Qed.
Lemma list_ready_sender s a n l t : list_wf s a l -> t ∈ (list_ready n l).1 -> sender t = a.
Proof. intros [Hs Hl]. apply (keyed_removed a (fun nonce _ => n <=? nonce)), Hl. Qed.
Lemma list_filter_wf s a b l : list_wf s a l -> list_wf s a (list_filter_price b l).2.
Proof.
  intros [Hs Hl]. unfold list_filter_price. destruct (b =? 0); [now split|].
  destruct (sorted_filter _ _) as [removed txs] eqn:E.
  assert (Ht : keyed a txs) by (change txs with (removed, txs).2; rewrite <- E; now apply keyed_filter).
  destruct (is_strict l) eqn:Es; [|split; simpl; congruence || easy].
  destruct (sorted_filter _ txs) as [inv txs'] eqn:E'.
  simpl. split; [simpl; congruence|]. simpl. change txs' with (inv, txs').2. rewrite <- E'. now apply keyed_filter.
Qed.
Lemma list_filter_invalids s a b l drops invalids l' t : list_wf s a l ->
  list_filter_price b l = (Some (drops, invalids), l') -> t ∈ invalids -> sender t = a.
Proof.
  intros [Hs Hl]. unfold list_filter_price. destruct (b =? 0); [discriminate|].
  destruct (sorted_filter _ _) as [removed txs] eqn:E.
  assert (Ht : keyed a txs) by (change txs with (removed, txs).2; rewrite <- E; now apply keyed_filter).
  destruct (is_strict l); [|intros [= <- <- <-] Hin; inversion Hin].
  destruct (sorted_filter _ txs) as [inv txs'] eqn:E'. intros [= <- <- <-]. change inv with (inv, txs').1.
  rewrite <- E'. now apply keyed_removed.
Qed.
Lemma list_cap_wf s a k l : list_wf s a l -> list_wf s a (list_cap k l).2.
Proof.
  intros [Hs Hl]. pose proof (sorted_cap_spec k (list_txs l)) as Hc. unfold list_cap.
  destruct (sorted_cap k (list_txs l)) as [drops txs]. split; [easy|]. simpl.
  eapply keyed_sub; [exact Hl|]. apply Hc.
Qed.
Lemma list_cap_sender s a k l t : list_wf s a l -> t ∈ (list_cap k l).1 -> sender t = a.
Proof.
  intros [Hs Hl]. pose proof (sorted_cap_spec k (list_txs l)) as Hc. unfold list_cap.
  destruct (sorted_cap k (list_txs l)) as [drops txs]. simpl. intros (n & Hn & _)%(capped_drop _ _ _ _ Hc).
  now apply Hl in Hn.
Qed.

(** ** Steps that keep the invariant *)

Lemma keeps_modify {S E} (I : S -> Prop) (f : S -> S) : (forall s, I s -> I (f s)) ->
  keeps (E:=E) I (modify f) (fun _ => True).
Proof. intros Hf s Hs. split; [now apply Hf|easy]. Qed.
Lemma keeps_if {S E A} (I : S -> Prop) (b : bool) (m1 m2 : stM S E A) Q :
  (b = true -> keeps I m1 Q) -> (b = false -> keeps I m2 Q) -> keeps I (if b then m1 else m2) Q.
Proof. destruct b; auto. Qed.
Lemma keeps_true {S E A} (I : S -> Prop) (m : stM S E A) Q : keeps I m Q -> keeps I m (fun _ => True).
Proof. intros Hm. now apply (keeps_weaken _ _ Q). Qed.

Section Keep.
Context (ab : H256 -> Prop) (bt : Address -> Prop).
Abbreviation I := (pool_inv ab bt).
Abbreviation kept m := (keeps (E:=TxPoolError) I m (fun _ => True)).

Lemma kept_upd_all_remove h : kept (upd_all (lookup_remove h)).
Proof.
  apply keeps_modify. intros p []. split; simpl; auto using lookup_remove_wf, lookup_remove_contains.
Qed.
Lemma kept_upd_priced f : (forall l, priced_sorted (priced_txs l) -> priced_sorted (priced_txs (f l))) -> kept (upd_priced f).
Proof. intros Hf. apply keeps_modify. intros p []. split; simpl; auto. Qed.
Lemma kept_priced_remove t : kept (upd_priced (fun l => (priced_remove t l).2)).
Proof. apply kept_upd_priced. auto using priced_remove_sorted. Qed.
Lemma kept_upd_noncer f : kept (upd_noncer f).
Proof. apply keeps_modify. intros p []. split; auto. Qed.
Lemma kept_get_pending_nonce a : kept (get_pending_nonce a).
Proof. intros p []. unfold get_pending_nonce. destruct (noncer_get _ _). split; [|easy]. split; auto. Qed.
Lemma kept_put_pending a l : list_wf true a l -> kept (put_pending a l).
Proof.
  intros Hl. apply keeps_modify. intros p []. split; simpl; auto.
  intros b l' [[<- <-]|[_ ?]]%lookup_insert_Some; auto.
Qed.
Lemma kept_put_queue a l : list_wf false a l -> bt a -> kept (put_queue a l).
Proof.
  intros Hl Ha. apply keeps_modify. intros p []. split; simpl; auto;
    intros b l' [[<- <-]|[_ ?]]%lookup_insert_Some; eauto.
Qed.
Lemma kept_delete_pending a : kept (modify (fun p => set_pending (delete a (pending p)) p)).
Proof. apply keeps_modify. intros p []. split; simpl; auto. intros b l [_ ?]%lookup_delete_Some; auto. Qed.
Lemma kept_delete_queue a : kept (modify (fun p => set_queue (delete a (queue p)) p)).
Proof. apply keeps_modify. intros p []. split; simpl; auto; intros b l [_ ?]%lookup_delete_Some; eauto. Qed.
Lemma kept_pool {Q : TxPool -> Prop} : (forall p, I p -> Q p) -> keeps I pool Q.
Proof. apply keeps_gets. Qed.
Lemma kept_beat a : kept (beat instant a).
Proof.
  apply keeps_modify. intros p []. split; simpl; auto; intros b; intros;
    (destruct (decide (b = a)) as [->|]; [rewrite lookup_insert_eq; eauto|rewrite lookup_insert_ne by congruence; eauto]).
Qed.
Lemma kept_beat_if_absent a : kept (beat_if_absent instant a).
Proof.
  intros p Hp. split; [|easy]. apply (kept_beat a) in Hp as Hb. unfold beat_if_absent, modify. simpl.
  destruct (beats p !! a); [easy|apply Hb].
Qed.
Lemma kept_forget t : kept (forget t).
Proof. eapply keeps_bind; [apply kept_upd_all_remove|]. intros _ _. apply kept_priced_remove. Qed.
Lemma kept_forget_old o : kept (forget_old o).
Proof. destruct o; [apply kept_forget|now apply keeps_ret]. Qed.
Lemma kept_for_each {A} (l : list A) body : (forall x, x ∈ l -> kept (body x)) -> kept (for_each l body).
Proof. intros Hb. apply (keeps_for_each _ _ _ (fun x => x ∈ l)); [now apply Forall_forall|auto]. Qed.
Lemma kept_forget_hashes txs : kept (forget_hashes txs).
Proof. apply kept_for_each. intros. apply kept_upd_all_remove. Qed.
Lemma kept_collect_each {A B} (l : list A) (body : A -> poolM (list B)) (P : B -> Prop) :
  (forall x, x ∈ l -> keeps I (body x) (Forall P)) -> keeps I (collect_each l body) (Forall P).
Proof.
  induction l as [|x l IH]; intros Hb; simpl; [now apply keeps_ret|].
  eapply keeps_bind; [apply Hb; left|]. intros ys Hys.
  eapply keeps_bind; [apply IH; intros; apply Hb; now right|]. intros zs Hzs.
  apply keeps_ret. now apply Forall_app.
Qed.
End Keep.

(** Discharge a chain of binds with the lemmas above. *)
Create HintDb kept.
#[local] Hint Resolve kept_upd_all_remove kept_priced_remove kept_upd_noncer kept_get_pending_nonce kept_put_pending
  kept_put_queue kept_delete_pending kept_delete_queue kept_beat kept_beat_if_absent kept_forget kept_forget_old
  kept_forget_hashes : kept.
Ltac kstep := eapply keeps_bind; [solve [eauto with kept]|]; intros ? _.
Ltac kdone := solve [eauto with kept | now apply keeps_ret | now apply keeps_lift].

(** ** Queueing *)

Lemma keeps_list_add ab bt s a t bump l : list_wf s a l -> sender t = a ->
  keeps (E:=TxPoolError) (pool_inv ab bt) (lift (list_add t bump l)) (fun x => list_wf s a x.2).
Proof. intros Hl Ht. apply keeps_lift. intros [[i o] l'] E. now apply (list_add_wf _ _ _ _ _ _ _ _ Hl Ht E). Qed.
Lemma queue_default ab bt p a : pool_inv ab bt p -> list_wf false a (default (list_new false) (queue p !! a)).
Proof. intros Hp. destruct (queue p !! a) eqn:E; [now apply (inv_queue _ _ _ Hp)|apply list_wf_new]. Qed.
Lemma pending_default ab bt p a : pool_inv ab bt p -> list_wf true a (default (list_new true) (pending p !! a)).
Proof. intros Hp. destruct (pending p !! a) eqn:E; [now apply (inv_pending _ _ _ Hp)|apply list_wf_new]. Qed.

Definition with_beat (a : Address) (p : TxPool) : TxPool :=
  match beats p !! a with
  | Some _ => p
  | None => set_beats (<[a := instant (ticks p)]> (beats p)) (S (ticks p)) p
  end.
Lemma with_beat_inv ab bt a p : pool_inv ab bt p -> pool_inv ab (fun b => bt b \/ b = a) (with_beat a p).
Proof.
  intros []. unfold with_beat. destruct (beats p !! a) as [i|] eqn:E; split; simpl; auto.
  - intros b [?| ->]; eauto.
  - intros b l Hb. destruct (decide (b = a)) as [->|]; [rewrite lookup_insert_eq; eauto|].
    rewrite lookup_insert_ne by congruence. eauto.
  - intros b Hb. destruct (decide (b = a)) as [->|]; [rewrite lookup_insert_eq; eauto|].
    rewrite lookup_insert_ne by congruence. destruct Hb; [auto|congruence].
Qed.
(** A new queue gets its heartbeat: it could as well get it first. *)
Lemma enqueue_beat_first hash t local add_all p : queue p !! sender t = None ->
  enqueue_tx instant hash t local add_all p = enqueue_tx instant hash t local add_all (with_beat (sender t) p).
Proof.
  intros Hq. unfold enqueue_tx, with_beat.
  change ((pool ≫= ?f) ?p) with (f p p). cbv beta.
  destruct (beats p !! sender t) as [i|] eqn:Eb; [easy|]. cbn [queue set_beats]. rewrite Hq.
  cbn [default config set_beats]. rewrite list_add_fresh. unfold beat_if_absent, modify, mbind, stM_bind. simpl.
  destruct add_all; cbn; rewrite Eb, lookup_insert_eq; reflexivity.
Qed.

(** Another invariant holds after the last part of a sequence. *)
Lemma keeps_post {S E A B} (I J : S -> Prop) (m : stM S E A) (f : A -> stM S E B) P s :
  keeps I m P -> (forall s, I s -> J s) -> (forall a s, P a -> I s -> J (f a s).2) -> I s -> J ((m ≫= f) s).2.
Proof.
  intros Hm HIJ Hf Hs. destruct (Hm s Hs) as [H1 H2]. unfold mbind, stM_bind.
  destruct (m s) as [[a|e|] s']; simpl in *; auto.
Qed.
Lemma lookup_add_inv ab bt t local p : pool_inv ab bt p -> ab (tx_hash t) ->
  pool_inv (fun h => ab h /\ h <> tx_hash t) bt (set_all (lookup_add t local (all p)) p).
Proof.
  intros [] Ht. split; simpl; auto using lookup_add_wf.
  intros h [Hh Hne]. rewrite lookup_contains_false. unfold lookup_add.
  apply inv_absent0, lookup_contains_false in Hh as [? ?].
  destruct local; simpl; now rewrite lookup_insert_ne by congruence.
Qed.
Lemma then_keeps {S E A B} (J : S -> Prop) (m : stM S E A) (f : A -> stM S E B) s :
  J (m s).2 -> (forall a, keeps J (f a) (fun _ => True)) -> J ((m ≫= f) s).2.
Proof. intros Hm Hf. unfold mbind, stM_bind. destruct (m s) as [[a|e|] s']; simpl in *; [apply Hf|..]; easy. Qed.

Definition adding (add_all : bool) (t : SignedTransaction) (ab : H256 -> Prop) (h : H256) : Prop :=
  ab h /\ (add_all = true -> h <> tx_hash t).
Lemma adding_weaken add_all t ab bt p : pool_inv ab bt p -> pool_inv (adding add_all t ab) bt p.
Proof. apply pool_inv_weaken; [now intros h []|easy]. Qed.

Lemma enqueue_inv_beating ab bt hash t local add_all p :
  bt (sender t) -> (add_all = true -> ab (tx_hash t)) -> pool_inv ab bt p ->
  pool_inv (adding add_all t ab) bt (enqueue_tx instant hash t local add_all p).2.
Proof.
  intros Hb Hab Hp. unfold enqueue_tx. change ((pool ≫= ?f) p) with (f p p). cbv beta zeta.
  pose proof (queue_default _ _ p (sender t) Hp) as Hwf.
  eapply (keeps_post (pool_inv ab bt)); [eauto with kept|auto using adding_weaken| |easy]. intros _ s1 _ Hs1.
  eapply (keeps_post (pool_inv ab bt)); [apply (keeps_list_add _ _ _ _ _ _ _ Hwf eq_refl)|auto using adding_weaken| |easy].
  intros [[inserted old] l] s2 Hl Hs2. simpl in Hl.
  eapply (keeps_post (pool_inv ab bt)); [eauto with kept|auto using adding_weaken| |easy]. intros _ s3 _ Hs3.
  eapply (keeps_post (pool_inv ab bt) _ _ _ (fun _ => True)); [now apply keeps_lift|auto using adding_weaken| |easy].
  intros _ s4 _ Hs4.
  eapply (keeps_post (pool_inv ab bt)); [eauto with kept|auto using adding_weaken| |easy]. intros _ s5 _ Hs5.
  apply then_keeps.
  - destruct add_all; [|now apply adding_weaken].
    apply (pool_inv_weaken (fun h => ab h /\ h <> tx_hash t) _ bt bt); [intros h [? ?]; auto|easy|].
    apply (lookup_add_inv _ _ t local) in Hs5; [|auto]. destruct Hs5. split; simpl; auto using priced_put_sorted.
  - intros _. eapply keeps_bind; [apply kept_beat_if_absent|]. intros _ _. now apply keeps_ret.
Qed.
Lemma enqueue_inv ab bt hash t local add_all p : (add_all = true -> ab (tx_hash t)) -> pool_inv ab bt p ->
  pool_inv (adding add_all t ab) bt (enqueue_tx instant hash t local add_all p).2.
Proof.
  intros Hab Hp. set (bt' := fun a => bt a \/ a = sender t).
  apply (pool_inv_weaken (adding add_all t ab) _ bt'); [easy|now left|].
  destruct (queue p !! sender t) as [l|] eqn:El.
  - apply enqueue_inv_beating; [now right|easy|]. destruct Hp. split; auto. intros a [?| ->]; eauto.
  - rewrite enqueue_beat_first by easy. apply enqueue_inv_beating; [now right|easy|]. now apply with_beat_inv.
Qed.
Lemma kept_enqueue ab bt hash t local : keeps (pool_inv ab bt) (enqueue_tx instant hash t local false) (fun _ => True).
Proof.
  intros p Hp. split; [|easy]. apply (enqueue_inv _ _ hash t local false) in Hp; [|easy].
  revert Hp. apply pool_inv_weaken; [|easy]. now split.
Qed.
Lemma kept_requeue ab bt txs : keeps (pool_inv ab bt)
  (for_each txs (fun t => _ ← enqueue_tx instant (tx_hash t) t false false; mret tt)) (fun _ => True).
Proof.
  apply kept_for_each. intros t _. eapply keeps_bind; [apply kept_enqueue|]. intros _ _. now apply keeps_ret.
Qed.
#[local] Hint Resolve kept_enqueue kept_requeue : kept.

(** An account with a queue has a heartbeat while the queue is worked on. *)
Lemma keeps_at_queue {A} ab bt a l (m : poolM A) p : pool_inv ab bt p -> queue p !! a = Some l ->
  (list_wf false a l -> keeps (pool_inv ab (fun b => bt b \/ b = a)) m (fun _ => True)) -> pool_inv ab bt (m p).2.
Proof.
  intros Hp Hl Hm. apply (pool_inv_weaken ab ab (fun b => bt b \/ b = a)); [easy|now left|].
  apply Hm; [now apply (inv_queue _ _ _ Hp)|]. destruct Hp. split; auto. intros b [?| ->]; eauto.
Qed.
(** Reading the pool first. *)
Lemma keeps_read {A} (J : TxPool -> Prop) (f : TxPool -> poolM A) (Q : A -> Prop) :
  (forall p, J p -> J (f p p).2 /\ forall a, (f p p).1 = Ok a -> Q a) -> keeps J (pool ≫= f) Q.
Proof. intros Hf p Hp. apply Hf, Hp. Qed.
Lemma keeps_read_true {A} (J : TxPool -> Prop) (f : TxPool -> poolM A) :
  (forall p, J p -> J (f p p).2) -> keeps J (pool ≫= f) (fun _ => True).
Proof. intros Hf p Hp. split; [apply Hf, Hp|easy]. Qed.

Lemma kept_remove_pending ab bt t : keeps (pool_inv ab bt) (remove_pending instant t) (fun _ => True).
Proof.
  unfold remove_pending. eapply keeps_bind; [apply (kept_pool _ _ (Q:=pool_inv ab bt)); easy|]. intros p Hp.
  destruct (pending p !! sender t) as [l|] eqn:El; [|now apply keeps_ret].
  pose proof (list_remove_wf _ _ t _ (inv_pending _ _ _ Hp _ _ El)) as Hl.
  destruct (list_remove t l) as [[removed invalids] l']. simpl in Hl.
  kstep. apply keeps_if; intros _; [|now apply keeps_ret].
  eapply (keeps_bind _ _ _ (fun _ => True)); [apply keeps_if; intros _; kdone|]. intros _ _. kstep. kstep. now apply keeps_ret.
Qed.
Lemma kept_remove_queued ab bt t : keeps (pool_inv ab bt) (remove_queued t) (fun _ => True).
Proof.
  unfold remove_queued. apply keeps_read_true. intros p Hp.
  destruct (queue p !! sender t) as [l|] eqn:El; [|easy].
  apply (keeps_at_queue _ _ _ _ _ _ Hp El). intros Hwf. apply (list_remove_wf _ _ t) in Hwf.
  destruct (list_remove t l) as [[removed invalids] l']. simpl in Hwf.
  eapply keeps_bind; [apply kept_put_queue; auto|]. intros _ _. apply keeps_if; intros _; kdone.
Qed.
Lemma kept_remove_tx ab bt hash b : keeps (pool_inv ab bt) (remove_tx instant hash b) (fun _ => True).
Proof.
  unfold remove_tx. eapply keeps_bind; [apply (kept_pool _ _ (Q:=pool_inv ab bt)); easy|]. intros p Hp.
  destruct (lookup_get (all p) hash) as [t|]; [|now apply keeps_ret].
  kstep. eapply (keeps_bind _ _ _ (fun _ => True)); [apply keeps_if; intros _; kdone|]. intros _ _.
  eapply keeps_bind; [apply kept_remove_pending|]. intros r _.
  apply keeps_if; intros _; [now apply keeps_ret|apply kept_remove_queued].
Qed.
#[local] Hint Resolve kept_remove_tx : kept.

Lemma kept_set_changes ab bt n : keeps (E:=TxPoolError) (pool_inv ab bt) (modify (set_changes n)) (fun _ => True).
Proof. apply keeps_modify. intros p []. split; auto. Qed.
Lemma kept_ensure ab bt b e : keeps (pool_inv ab bt) (ensure_st b e) (fun _ => True).
Proof. now apply keeps_lift. Qed.
#[local] Hint Resolve kept_set_changes kept_ensure : kept.

Lemma kept_make_room ab bt t is_local : keeps (pool_inv ab bt) (make_room instant t is_local) (fun _ => True).
Proof.
  unfold make_room. eapply keeps_bind; [apply (kept_pool _ _ (Q:=pool_inv ab bt)); easy|]. intros p Hp.
  apply keeps_if; intros _; [|now apply keeps_ret].
  eapply (keeps_bind _ _ _ (fun _ => True)); [apply keeps_if; intros _; [now apply keeps_ret|]|].
  { eapply keeps_bind; [now apply (keeps_lift _ _ (fun _ => True))|]. intros. kdone. }
  intros _ _. kstep. eapply (keeps_bind _ _ _ (fun _ => True)).
  - intros s Hs. split; [|easy]. unfold zoom.
    pose proof (priced_discard_sorted (E:=TxPoolError)
      (u64 (u64 (lk_slots (all p) - u64 (global_slots (config p) + global_queue (config p))) + num_slots t)) (priced s)) as Hd.
    destruct (priced_discard _ (priced s)) as [r l]. simpl in *. destruct Hs. split; auto.
    apply Hd; [|easy]. now apply wrap_bound.
  - intros drop _. kstep. apply kept_for_each. intros. kdone.
Qed.
Lemma kept_migrate_locals ab bt a : keeps (pool_inv ab bt) (migrate_locals a) (fun _ => True).
Proof.
  unfold migrate_locals. eapply keeps_bind; [apply keeps_modify; intros p []; split; auto|]. intros _ _.
  eapply keeps_bind; [apply (kept_pool _ _ (Q:=pool_inv ab bt)); easy|]. intros p Hp.
  pose proof (remote_to_locals_wf (locals p) _ (inv_lookup _ _ _ Hp)) as Hw.
  pose proof (fun h => remote_to_locals_contains (locals p) (all p) h) as Hc.
  destruct (lookup_remote_to_locals _ _) as [migrated all']. simpl in *.
  eapply keeps_bind; [|intros _ _; apply kept_for_each; intros; kdone].
  apply keeps_modify. intros q []. split; simpl; auto. intros h Hh. apply Hc, (inv_absent _ _ _ Hp h Hh).
Qed.

(** ** Adding *)

Lemma queue_event_inv ab bt t p : pool_inv ab bt p ->
  pool_inv ab bt (queue_event t p).2.
Proof.
  intros []. split; simpl; auto. intros a l [[<- <-]|[_ ?]]%lookup_insert_Some; [|auto].
  apply keyed_put; [|easy]. destruct (queued_events p !! sender t) eqn:E; simpl; [auto|apply keyed_empty].
Qed.
Lemma add_pending_inv ab bt t is_local l p : ab (tx_hash t) -> list_wf true (sender t) l -> pool_inv ab bt p ->
  pool_wf (add_pending t is_local l p).2.
Proof.
  intros Hab Hl Hp. unfold add_pending. change ((pool ≫= ?f) p) with (f p p). cbv beta.
  eapply (keeps_post (pool_inv ab bt)); [apply (keeps_list_add _ _ _ _ _ _ _ Hl eq_refl)|apply pool_inv_wf| |easy].
  intros [[inserted old] l'] s1 Hl' Hs1. simpl in Hl'.
  eapply (keeps_post (pool_inv ab bt)); [eauto with kept|apply pool_inv_wf| |easy]. intros _ s2 _ Hs2.
  eapply (keeps_post (pool_inv ab bt)); [eauto with kept|apply pool_inv_wf| |easy]. intros _ s3 _ Hs3.
  eapply (keeps_post (pool_inv ab bt)); [eauto with kept|apply pool_inv_wf| |easy]. intros _ s4 _ Hs4.
  apply (then_keeps pool_wf); [eapply pool_inv_wf, lookup_add_inv; eauto|]. intros _.
  eapply keeps_bind; [apply kept_upd_priced; intros; now apply priced_put_sorted|]. intros _ _.
  eapply (keeps_bind _ _ _ (fun _ => True)); [|intros _ _; now apply keeps_ret].
  intros s5 Hs5. split; [now apply queue_event_inv|easy].
Qed.
Lemma add_queued_inv ab bt t local is_local p : ab (tx_hash t) -> pool_inv ab bt p ->
  pool_wf (add_queued instant t local is_local p).2.
Proof.
  intros Hab Hp. unfold add_queued. apply (then_keeps pool_wf); [eapply pool_inv_wf, enqueue_inv; eauto|].
  intros replaced. eapply keeps_bind; [now apply (kept_pool _ _ (Q:=pool_wf))|]. intros q _.
  eapply (keeps_bind _ _ _ (fun _ => True)); [|intros _ _; now apply keeps_ret].
  apply keeps_if; intros _; [apply kept_migrate_locals|now apply keeps_ret].
Qed.
Lemma kept_add t local : keeps pool_wf (add instant t local) (fun _ => True).
Proof.
  unfold add. apply keeps_read_true. intros p Hp.
  destruct (lookup_contains (all p) (tx_hash t)) eqn:Hc; [easy|].
  change ((ensure_st (negb false) _ ≫= ?f) p) with (f tt p). cbv beta zeta.
  set (ab := eq (tx_hash t)). set (bt := fun _ : Address => False).
  assert (Hi : pool_inv ab bt p) by (destruct Hp; split; auto; now intros h <-).
  eapply (keeps_post (pool_inv ab bt) _ _ _ (fun _ => True)); [now apply keeps_lift|apply pool_inv_wf| |easy].
  intros _ s1 _ Hs1.
  eapply (keeps_post (pool_inv ab bt)); [apply kept_make_room|apply pool_inv_wf| |easy]. intros _ s2 _ Hs2.
  change ((pool ≫= ?f) s2) with (f s2 s2). cbv beta.
  destruct (pending s2 !! sender t) as [l|] eqn:El; [|now apply (add_queued_inv ab bt)].
  destruct (list_overlaps l t); [|now apply (add_queued_inv ab bt)].
  apply (add_pending_inv ab bt); [easy| |easy]. now apply (inv_pending _ _ _ Hs2).
Qed.
Lemma kept_attempt {A} J (m : poolM A) : keeps J m (fun _ => True) -> keeps J (attempt m) (fun _ => True).
Proof. intros Hm p Hp. apply Hm in Hp as [Hp _]. unfold attempt. now destruct (m p) as [[] s]. Qed.
Lemma kept_add_each i tsx local dirty errors :
  keeps pool_wf (add_each instant i tsx local dirty errors) (fun _ => True).
Proof.
  revert i dirty errors. induction tsx as [|t tsx IH]; intros; simpl; [now apply keeps_ret|].
  eapply keeps_bind; [apply kept_attempt, kept_add|]. intros [replaced|e|] _; [apply IH| |now apply keeps_lift].
  eapply (keeps_bind _ _ _ (fun _ => True)); [now apply keeps_lift|]. intros. apply IH.
Qed.

(** ** Promotion, demotion and limits *)

Lemma kept_promote_tx ab bt addr hash t : sender t = addr -> keeps (pool_inv ab bt) (promote_tx instant addr hash t) (fun _ => True).
Proof.
  intros Ht. unfold promote_tx. eapply keeps_bind; [apply (kept_pool _ _ (Q:=pool_inv ab bt)); easy|]. intros p Hp.
  pose proof (pending_default _ _ p addr Hp) as Hl. kstep.
  eapply keeps_bind; [apply (keeps_list_add _ _ _ _ _ _ _ Hl Ht)|]. intros [[inserted old] l] Hl'. simpl in Hl'.
  kstep. apply keeps_if; intros _; repeat kstep; now apply keeps_ret.
Qed.
Lemma kept_cap_one ab bt a l : list_wf true a l -> keeps (pool_inv ab bt) (cap_one a l) (fun _ => True).
Proof.
  intros Hl. unfold cap_one. apply (list_cap_wf _ _ (list_len l - 1)) in Hl.
  destruct (list_cap (list_len l - 1) l) as [caps l']. simpl in Hl. kstep. apply kept_for_each. intros t _.
  repeat kstep. kdone.
Qed.
Lemma kept_cap_offenders ab bt offenders n : keeps (pool_inv ab bt) (cap_offenders offenders n) (fun _ => True).
Proof.
  revert n. induction offenders as [|a offenders IH]; intros n; simpl; [now apply keeps_ret|].
  eapply keeps_bind; [apply (kept_pool _ _ (Q:=pool_inv ab bt)); easy|]. intros p Hp.
  destruct (pending p !! a) as [l|] eqn:El; [|now apply keeps_ret].
  eapply keeps_bind; [apply kept_cap_one, (inv_pending _ _ _ Hp _ _ El)|]. auto.
Qed.
Lemma kept_shrink_offenders ab bt offenders n : keeps (pool_inv ab bt) (shrink_offenders offenders n) (fun _ => True).
Proof.
  revert n. induction offenders as [|a offenders IH]; intros n; simpl; [now apply keeps_ret|].
  eapply keeps_bind; [apply (kept_pool _ _ (Q:=pool_inv ab bt)); easy|]. intros p Hp.
  destruct (pending p !! a) as [l|] eqn:El; [|auto].
  eapply keeps_bind; [apply kept_cap_one, (inv_pending _ _ _ Hp _ _ El)|]. auto.
Qed.
Lemma kept_equalize ab bt fuel th prev offenders n : keeps (pool_inv ab bt) (equalize fuel th prev offenders n) (fun _ => True).
Proof.
  revert n. induction fuel as [|fuel IH]; intros n; simpl; [now apply keeps_lift|].
  eapply keeps_bind; [apply (kept_pool _ _ (Q:=pool_inv ab bt)); easy|]. intros p Hp.
  apply keeps_if; intros _; [|now apply keeps_ret].
  eapply keeps_bind; [apply kept_cap_offenders|]. intros [m|] _; [apply IH|now apply keeps_ret].
Qed.
Lemma kept_penalize ab bt fuel spammers offenders n :
  keeps (pool_inv ab bt) (penalize fuel spammers offenders n) (fun _ => True).
Proof.
  revert spammers offenders n. induction fuel as [|fuel IH]; intros; cbn [penalize]; [now apply keeps_lift|].
  eapply keeps_bind; [apply (kept_pool _ _ (Q:=pool_inv ab bt)); easy|]. intros p Hp.
  apply keeps_if; intros _; [|now apply keeps_ret].
  destruct (pq_pop spammers) as [[[o z] rest]|]; [|now apply keeps_ret].
  destruct (last_opt offenders); [|apply IH].
  eapply keeps_bind; [apply kept_equalize|]. intros [m|] _; [apply IH|now apply keeps_ret].
Qed.
Lemma kept_shrink ab bt fuel last_ offenders n : keeps (pool_inv ab bt) (shrink fuel last_ offenders n) (fun _ => True).
Proof.
  revert n. induction fuel as [|fuel IH]; intros n; simpl; [now apply keeps_lift|].
  eapply keeps_bind; [apply (kept_pool _ _ (Q:=pool_inv ab bt)); easy|]. intros p Hp.
  apply keeps_if; intros _; [|now apply keeps_ret].
  eapply keeps_bind; [apply kept_shrink_offenders|]. auto.
Qed.
Lemma kept_truncate_pending ab bt : keeps (pool_inv ab bt) (truncate_pending hash_keys) (fun _ => True).
Proof.
  unfold truncate_pending. eapply keeps_bind; [apply (kept_pool _ _ (Q:=pool_inv ab bt)); easy|]. intros p Hp.
  apply keeps_if; intros _; [now apply keeps_ret|].
  eapply keeps_bind; [apply kept_penalize|]. intros [[offenders n]|] _; [|now apply keeps_ret].
  eapply keeps_bind; [apply (kept_pool _ _ (Q:=pool_inv ab bt)); easy|]. intros q Hq.
  apply keeps_if; intros _; [|now apply keeps_ret].
  destruct (last_opt offenders); [apply kept_shrink|now apply keeps_ret].
Qed.

Lemma kept_remove_from_end ab bt fuel txs i n : keeps (pool_inv ab bt) (remove_from_end instant fuel txs i n) (fun _ => True).
Proof.
  revert i n. induction fuel as [|fuel IH]; intros; simpl; [now apply keeps_lift|].
  apply keeps_if; intros _; [|now apply keeps_ret].
  eapply (keeps_bind _ _ _ (fun _ => True)); [now apply keeps_lift|]. intros t _. kstep. apply IH.
Qed.
Lemma kept_drop_queued ab bt addresses n : keeps (pool_inv ab bt) (drop_queued instant addresses n) (fun _ => True).
Proof.
  revert n. induction addresses as [|[a i] addresses IH]; intros n; cbn [drop_queued]; [now apply keeps_ret|].
  apply keeps_if; intros _; [|now apply keeps_ret].
  eapply keeps_bind; [apply (kept_pool _ _ (Q:=pool_inv ab bt)); easy|]. intros p Hp.
  destruct (queue p !! a) as [l|]; [|now apply keeps_ret]. cbv zeta. apply keeps_if; intros _.
  - eapply keeps_bind; [apply kept_for_each; intros; kdone|]. auto.
  - eapply keeps_bind; [apply kept_remove_from_end|]. auto.
Qed.
Lemma kept_truncate_queue ab bt : keeps (pool_inv ab bt) (truncate_queue instant hash_keys) (fun _ => True).
Proof.
  unfold truncate_queue. eapply keeps_bind; [apply (kept_pool _ _ (Q:=pool_inv ab bt)); easy|]. intros p Hp.
  apply keeps_if; intros _; [now apply keeps_ret|].
  eapply (keeps_bind _ _ _ (fun _ => True)); [now apply keeps_lift|]. intros. apply kept_drop_queued.
Qed.

Lemma kept_collect {A B} ab bt (l : list A) (body : A -> poolM (list B)) :
  (forall x, x ∈ l -> keeps (pool_inv ab bt) (body x) (fun _ => True)) ->
  keeps (pool_inv ab bt) (collect_each l body) (fun _ => True).
Proof.
  intros Hb. apply (keeps_true _ _ (Forall (fun _ => True))), kept_collect_each. intros x Hx.
  apply (keeps_weaken _ _ (fun _ => True)); [now apply Hb|]. intros. now apply Forall_true.
Qed.

Lemma kept_demote_list ab bt a : keeps (pool_inv ab bt) (demote_list a) (fun _ => True).
Proof.
  unfold demote_list. eapply keeps_bind; [apply (kept_pool _ _ (Q:=pool_inv ab bt)); easy|]. intros p Hp.
  eapply (keeps_bind _ _ _ (list_wf true a)).
  { apply keeps_lift. intros l Hl. apply (inv_pending _ _ _ Hp). destruct (pending p !! a); [|discriminate].
    now injection Hl as ->. }
  intros l0 Hl0. cbv zeta. pose proof (list_forward_wf _ _ (db_nonce (current_state p) a) _ Hl0) as Hl1.
  destruct (list_forward _ l0) as [olds l1]. simpl in Hl1. kstep. kstep.
  pose proof (list_filter_wf _ _ (db_balance (current_state p) a) _ Hl1) as Hl2.
  destruct (list_filter_price _ l1) as [o l2]. simpl in Hl2. kstep.
  eapply (keeps_bind _ _ _ (fun _ => True)).
  { destruct o as [[drops invalids]|]; [kstep|]; now apply keeps_ret. }
  intros invalids _. apply keeps_if; intros _; [|now apply keeps_ret].
  pose proof (list_cap_wf _ _ 0 _ Hl2) as Hl3. destruct (list_cap 0 l2) as [gapped l3]. simpl in Hl3. kstep.
  now apply keeps_ret.
Qed.
Lemma kept_demote ab bt : keeps (pool_inv ab bt) (demote_unexecutable instant hash_keys) (fun _ => True).
Proof.
  unfold demote_unexecutable. eapply keeps_bind; [apply (kept_pool _ _ (Q:=pool_inv ab bt)); easy|]. intros p Hp.
  eapply keeps_bind; [apply kept_collect; intros; apply kept_demote_list|]. intros txs _. kstep.
  apply keeps_modify. intros q []. split; simpl; auto. intros b l [? _]%map_lookup_filter_Some; auto.
Qed.

Lemma kept_promote_account ab bt a : keeps (pool_inv ab bt) (promote_account instant a) (fun _ => True).
Proof.
  unfold promote_account. apply keeps_read_true. intros p Hp.
  destruct (queue p !! a) as [l0|] eqn:El; [|easy].
  apply (keeps_at_queue _ _ _ _ _ _ Hp El). intros Hl0. set (bt' := fun b => bt b \/ b = a).
  assert (Ha : bt' a) by now right.
  pose proof (list_forward_wf _ _ (db_nonce (current_state p) a) _ Hl0) as Hl1.
  destruct (list_forward _ l0) as [olds l1]. simpl in Hl1. kstep. kstep.
  pose proof (list_filter_wf _ _ (db_balance (current_state p) a) _ Hl1) as Hl2.
  destruct (list_filter_price _ l1) as [o l2]. simpl in Hl2. kstep. kstep.
  eapply keeps_bind; [apply kept_get_pending_nonce|]. intros start _.
  pose proof (list_ready_wf _ _ start _ Hl2) as Hl3.
  pose proof (fun t => list_ready_sender _ _ start _ t Hl2) as Hready.
  destruct (list_ready start l2) as [readies l3]. simpl in *. kstep.
  apply kept_collect. intros t Ht.
  eapply keeps_bind; [apply kept_promote_tx, Hready, Ht|]. intros. now apply keeps_ret.
Qed.
Lemma cap_account_wf a p : pool_wf p -> pool_wf (cap_account a p).2.
Proof.
  intros Hp. unfold cap_account. change ((pool ≫= ?f) p) with (f p p). cbv beta.
  destruct (queue p !! a) as [l|] eqn:El; [|easy]. set (bt' := fun b => b = a).
  assert (Hp' : pool_inv (fun _ => False) bt' p) by (destruct Hp; split; auto; intros b ->; eauto).
  eapply (keeps_post (pool_inv (fun _ => False) bt') _ _ _ (fun _ => True)); [|apply pool_inv_wf| |exact Hp'].
  - apply keeps_if; intros _; [now apply keeps_ret|].
    pose proof (list_cap_wf _ _ (Z.to_nat (account_queue (config p))) _ (inv_queue _ _ _ Hp _ _ El)) as Hl.
    destruct (list_cap _ l) as [caps l']. simpl in Hl.
    eapply keeps_bind; [now apply kept_put_queue|]. intros _ _. kstep. now apply keeps_ret.
  - intros l' s _ Hs. destruct (list_is_empty l'); [|now apply pool_inv_wf in Hs].
    destruct Hs. split; simpl; auto; try easy; intros b l'' [? ?]%lookup_delete_Some; auto.
    rewrite lookup_delete_ne by easy. eauto.
Qed.
Lemma kept_promote_executable accounts : keeps pool_wf (promote_executable instant accounts) (fun _ => True).
Proof.
  unfold promote_executable. eapply keeps_bind; [apply kept_collect; intros; apply kept_promote_account|].
  intros promoted _. eapply (keeps_bind _ _ _ (fun _ => True)); [|intros; now apply keeps_ret].
  apply kept_for_each. intros a _ p Hp. split; [now apply cap_account_wf|easy].
Qed.

(** ** The whole pool *)

Lemma kept_reset old new : keeps pool_wf (reset instant old new) (fun _ => True).
Proof.
  unfold reset. eapply (keeps_bind _ _ _ (fun _ => True)); [now apply keeps_lift|].
  intros [reinject|] _; [|now apply keeps_ret].
  eapply (keeps_bind _ _ _ (fun _ => True)); [now apply keeps_lift|]. intros state _.
  do 2 (eapply keeps_bind; [apply keeps_modify; intros p []; split; auto|]; intros _ _).
  eapply keeps_bind; [apply kept_add_each|]. intros. now apply keeps_ret.
Qed.
Lemma kept_forward_events ab bt keys events : keeps (pool_inv ab bt) (forward_events keys events) (fun _ => True).
Proof.
  revert events. induction keys as [|a keys IH]; intros; simpl; [now apply keeps_ret|].
  eapply keeps_bind; [apply kept_get_pending_nonce|]. auto.
Qed.
Lemma kept_send ab bt txs : keeps (pool_inv ab bt) (send txs) (fun _ => True).
Proof. intros p Hp. split; [|easy]. unfold send. destruct (lmpsc p); [|easy]. destruct Hp. split; auto. Qed.
Lemma kept_repack dirty request : keeps pool_wf (repack instant hash_keys dirty request) (fun _ => True).
Proof.
  unfold repack. eapply (keeps_bind _ _ _ (fun _ => True)); [now apply keeps_gets|]. intros events _.
  eapply (keeps_bind _ _ _ (fun _ => True)).
  { destruct request; [|now apply keeps_ret]. eapply keeps_bind; [apply kept_reset|]. intros _ _.
    eapply keeps_bind; [apply kept_forward_events|]. intros. eapply keeps_bind; [now apply (kept_pool _ _ (Q:=pool_wf))|].
    intros. now apply keeps_ret. }
  intros [events' addrs] _. eapply keeps_bind; [apply kept_promote_executable|]. intros promoted _.
  eapply (keeps_bind _ _ _ (fun _ => True)).
  { destruct request; [|now apply keeps_ret]. eapply keeps_bind; [apply kept_demote|]. intros _ _.
    eapply keeps_bind; [now apply (kept_pool _ _ (Q:=pool_wf))|]. intros q _.
    apply keeps_if; intros _; kdone. }
  intros _ _. eapply keeps_bind; [apply kept_truncate_pending|]. intros _ _.
  eapply keeps_bind; [apply kept_truncate_queue|]. intros _ _. kstep. cbv zeta.
  apply keeps_if; intros _; [now apply keeps_ret|apply kept_send].
Qed.
Lemma kept_add_txs tsx local : keeps pool_wf (add_txs instant hash_keys tsx local) (fun _ => True).
Proof.
  unfold add_txs. eapply keeps_bind; [now apply (kept_pool _ _ (Q:=pool_wf))|]. intros p _. cbv zeta.
  destruct (List.filter _ tsx) as [|t news]; [now apply keeps_lift|].
  eapply keeps_bind; [apply kept_add_each|]. intros [dirty errors] _.
  eapply keeps_bind; [apply kept_repack|]. intros _ _.
  eapply (keeps_bind _ _ _ (fun _ => True)).
  { apply keeps_modify. intros q []. split; simpl; auto. intros a l. now rewrite lookup_empty. }
  intros _ _. destruct (_ ++ _); [now apply keeps_ret|now apply keeps_lift].
Qed.

(** What can happen to a pool: transactions are added, it is repacked (with or
    without a new head), a nonce is asked for, the state it shares with the
    chain moves on, the receiver of its messages goes away. *)
Inductive pool_step : TxPool -> TxPool -> Prop :=
| step_add_txs tsx local p : pool_step p (add_txs instant hash_keys tsx local p).2
| step_repack dirty request p : pool_step p (repack instant hash_keys dirty request p).2
| step_nonce a p : pool_step p (pool_nonce a p).2
| step_chain state p :
    pool_step p (set_pending_nonce {| fallback := state; nonces := nonces (pending_nonce p) |} (set_current_state state p))
| step_closed p : pool_step p (set_lmpsc None p).
Inductive pool_reachable (p0 : TxPool) : TxPool -> Prop :=
| reach_start : pool_reachable p0 p0
| reach_step p p' : pool_reachable p0 p -> pool_step p p' -> pool_reachable p0 p'.

Lemma TxPool_new_wf conf accounts p : TxPool_new conf accounts = Ok p -> pool_wf p.
Proof.
  unfold TxPool_new. destruct (foreign _) as [st|e|]; intros [= <-].
  split; simpl;
    [intros a l; now rewrite lookup_empty..|apply lookup_new_wf|constructor|intros a l; now rewrite lookup_empty|easy|easy].
Qed.
Lemma pool_step_wf p p' : pool_wf p -> pool_step p p' -> pool_wf p'.
Proof.
  intros Hp Hs. revert Hp. destruct Hs as [tsx local q|dirty request q|a q|st q|q]; intros Hp;
    [exact (proj1 (kept_add_txs _ _ _ Hp))|exact (proj1 (kept_repack _ _ _ Hp))| |destruct Hp; split; auto..].
  unfold pool_nonce. change ((pool ≫= ?f) q) with (f q q). cbv beta zeta.
  apply (then_keeps pool_wf); [exact (proj1 (kept_get_pending_nonce _ _ a _ Hp))|]. intros n.
  eapply (keeps_bind _ _ _ (fun _ => True)); [apply keeps_if; intros _; kdone|]. intros. now apply keeps_ret.
Qed.

(** C10 Whatever is added to a pool and however often it is repacked, each list
    holds transactions of its own account under their own nonces, the table
    holds each transaction once under its hash with its slots counted, the
    priced list is sorted, and every queue has the heartbeat that
    [truncate_queue] unwraps. *)
Theorem pool_reachable_wf conf accounts p0 p :
  TxPool_new conf accounts = Ok p0 -> pool_reachable p0 p -> pool_wf p.
Proof. intros H0 Hr. induction Hr; eauto using TxPool_new_wf, pool_step_wf. Qed.

(** ** Truncation of the pending lists *)

(** The pending list of every account but those of [accs] is as before; no
    list grows or appears. *)
Record shrunk (accs : list Address) (s s' : TxPool) : Prop := {
  shrunk_config : config s' = config s;
  shrunk_locals : locals s' = locals s;
  shrunk_queue : queue s' = queue s;
  shrunk_other : forall a, a ∉ accs -> pending s' !! a = pending s !! a;
  shrunk_list : forall a l, pending s !! a = Some l -> exists l', pending s' !! a = Some l' /\ list_txs l' ⊆ list_txs l;
  shrunk_none : forall a, pending s !! a = None -> pending s' !! a = None;
}.
#[local] Instance shrunk_refl accs : Reflexive (shrunk accs).
Proof. intros s. split; eauto. Qed.
#[local] Instance shrunk_trans accs : Transitive (shrunk accs).
Proof.
  intros s1 s2 s3 [] []. split; try congruence; auto.
  - intros a Ha. rewrite shrunk_other1, shrunk_other0; auto.
  - intros a l Hl. destruct (shrunk_list0 a l Hl) as (l' & Hl' & Hsub).
    destruct (shrunk_list1 a l' Hl') as (l'' & ? & ?). exists l''. split; [easy|]. now transitivity (list_txs l').
Qed.
Lemma shrunk_sub accs accs' s s' : accs ⊆ accs' -> shrunk accs s s' -> shrunk accs' s s'.
Proof. intros Hsub []. split; auto. Qed.
Lemma pending_len_shrunk accs s s' a : shrunk accs s s' -> pending_len s' a <= pending_len s a.
Proof.
  intros []. unfold pending_len. destruct (pending s !! a) as [l|] eqn:E.
  - destruct (shrunk_list0 a l E) as (l' & -> & Hsub). apply inj_le. now apply map_subseteq_size.
  - now rewrite shrunk_none0.
Qed.
Lemma pending_len_nonneg s a : 0 <= pending_len s a.
Proof. unfold pending_len. destruct (pending s !! a); lia. Qed.

Lemma drop_capped_run a caps s : exists s', drop_capped a caps s = (Ok tt, s') /\ pending s' = pending s /\ config s' = config s
  /\ locals s' = locals s /\ queue s' = queue s.
Proof.
  revert s. induction caps as [|t caps IH]; intros s; [now exists s|].
  unfold drop_capped in *. simpl. edestruct IH as (s' & Hs' & ?). exists s'. split; [exact Hs'|easy].
Qed.
(** One transaction less in a list that is not empty. *)
Lemma cap_one_run a l s : pending s !! a = Some l ->
  exists s', cap_one a l s = (Ok tt, s') /\ shrunk [a] s s' /\ (0 < pending_len s a -> pending_len s' a = pending_len s a - 1).
Proof.
  intros Hl. unfold cap_one, list_cap. pose proof (sorted_cap_spec (list_len l - 1) (list_txs l)) as Hc.
  destruct (sorted_cap _ _) as [caps txs]. simpl in Hc. set (l' := set_list_txs txs l).
  edestruct (drop_capped_run a caps) as (s' & Hs' & Hp & Hcf & Hlo & Hq).
  exists s'. split; [exact Hs'|]. simpl in *. split.
  - split; try congruence; rewrite Hp.
    + intros b Hb. rewrite lookup_insert_ne; [easy|]. intros <-. apply Hb. left.
    + intros b m Hb. destruct (decide (b = a)) as [->|Hne].
      * rewrite lookup_insert_eq. exists l'. split; [easy|]. simplify_eq. apply Hc.
      * rewrite lookup_insert_ne by congruence. eauto.
    + intros b Hb. rewrite lookup_insert_ne; [easy|]. congruence.
  - unfold pending_len. rewrite Hp, lookup_insert_eq, Hl. unfold list_len, sorted_len in *. simpl.
    pose proof (capped_size _ _ _ _ Hc). lia.
Qed.

Lemma cap_offenders_run offenders n s : exists o s', cap_offenders offenders n s = (Ok o, s') /\ shrunk offenders s s' /\
  (is_Some o -> forall a, a ∈ offenders -> 0 < pending_len s a -> pending_len s' a < pending_len s a).
Proof.
  revert n s. induction offenders as [|b offenders IH]; intros n s; simpl.
  { exists (Some n), s. split; [easy|]. split; [reflexivity|]. intros _ a Ha. inversion Ha. }
  change ((pool ≫= ?f) s) with (f s s). cbv beta. destruct (pending s !! b) as [l|] eqn:El.
  2:{ exists None, s. split; [easy|]. split; [reflexivity|]. intros [? ?]. discriminate. }
  destruct (cap_one_run b l s El) as (s1 & E1 & Hs1 & Hlen). rewrite (bind_st_ok _ _ _ _ _ E1).
  destruct (IH (u64 (n - 1)) s1) as (o & s2 & E2 & Hs2 & Hdec). exists o, s2. split; [exact E2|]. split.
  - etransitivity; [eapply shrunk_sub; [|exact Hs1]|eapply shrunk_sub; [|exact Hs2]]; set_solver.
  - intros Ho a Ha Hpos. destruct (decide (a = b)) as [->|Hne].
    + pose proof (pending_len_shrunk _ _ _ b Hs2). lia.
    + apply elem_of_cons in Ha as [|Ha]; [easy|].
      assert (Eq : pending_len s1 a = pending_len s a).
      { unfold pending_len. now rewrite (shrunk_other _ _ _ Hs1) by set_solver. }
      rewrite <- Eq in *. now apply Hdec.
Qed.
Lemma shrink_offenders_run offenders n s : exists m s', shrink_offenders offenders n s = (Ok m, s') /\ shrunk offenders s s' /\
  forall a, a ∈ offenders -> 0 < pending_len s a -> pending_len s' a < pending_len s a.
Proof.
  revert n s. induction offenders as [|b offenders IH]; intros n s; simpl.
  { exists n, s. split; [easy|]. split; [reflexivity|]. intros a Ha. inversion Ha. }
  change ((pool ≫= ?f) s) with (f s s). cbv beta. destruct (pending s !! b) as [l|] eqn:El.
  - destruct (cap_one_run b l s El) as (s1 & E1 & Hs1 & Hlen). rewrite (bind_st_ok _ _ _ _ _ E1).
    destruct (IH (u64 (n - 1)) s1) as (o & s2 & E2 & Hs2 & Hdec). exists o, s2. split; [exact E2|]. split.
    + etransitivity; [eapply shrunk_sub; [|exact Hs1]|eapply shrunk_sub; [|exact Hs2]]; set_solver.
    + intros a Ha Hpos. destruct (decide (a = b)) as [->|Hne].
      * pose proof (pending_len_shrunk _ _ _ b Hs2). lia.
      * apply elem_of_cons in Ha as [|Ha]; [easy|].
        assert (Eq : pending_len s1 a = pending_len s a).
        { unfold pending_len. now rewrite (shrunk_other _ _ _ Hs1) by set_solver. }
        rewrite <- Eq in *. now apply Hdec.
  - destruct (IH n s) as (o & s2 & E2 & Hs2 & Hdec). exists o, s2. split; [exact E2|]. split.
    + eapply shrunk_sub; [|exact Hs2]. set_solver.
    + intros a Ha Hpos. apply elem_of_cons in Ha as [->|Ha]; [|auto]. unfold pending_len in Hpos. rewrite El in Hpos. lia.
Qed.

Lemma equalize_run fuel th prev offenders n s : (Z.to_nat (pending_len s prev) < fuel)%nat -> 0 <= th -> prev ∈ offenders ->
  exists o s', equalize fuel th prev offenders n s = (Ok o, s') /\ shrunk offenders s s'.
Proof.
  revert n s. induction fuel as [|fuel IH]; intros n s Hf Hth Hin; [lia|]. cbn [equalize].
  change ((pool ≫= ?f) s) with (f s s). cbv beta.
  destruct ((_ <? _) && (th <? _)) eqn:E; [|exists (Some n), s; now split].
  apply andb_true_iff in E as [_ E%Z.ltb_lt].
  destruct (cap_offenders_run offenders n s) as (o & s1 & E1 & Hs1 & Hdec). rewrite (bind_st_ok _ _ _ _ _ E1).
  destruct o as [m|]; [|exists None, s1; now split].
  destruct (IH m s1) as (o & s2 & E2 & Hs2); [|easy..|].
  - pose proof (Hdec ltac:(eauto) prev Hin ltac:(lia)). pose proof (pending_len_nonneg s1 prev). lia.
  - exists o, s2. split; [exact E2|]. now transitivity s1.
Qed.
Lemma shrink_run fuel last_ offenders n s : (Z.to_nat (pending_len s last_) < fuel)%nat -> 0 <= account_slots (config s) ->
  last_ ∈ offenders -> exists s', shrink fuel last_ offenders n s = (Ok tt, s') /\ shrunk offenders s s'.
Proof.
  revert n s. induction fuel as [|fuel IH]; intros n s Hf Hth Hin; [lia|]. cbn [shrink].
  change ((pool ≫= ?f) s) with (f s s). cbv beta.
  destruct ((_ <? _) && (account_slots _ <? _)) eqn:E; [|exists s; now split].
  apply andb_true_iff in E as [_ E%Z.ltb_lt].
  destruct (shrink_offenders_run offenders n s) as (m & s1 & E1 & Hs1 & Hdec). rewrite (bind_st_ok _ _ _ _ _ E1).
  destruct (IH m s1) as (s2 & E2 & Hs2); [|now rewrite (shrunk_config _ _ _ Hs1)|easy|].
  - pose proof (Hdec last_ Hin ltac:(lia)). pose proof (pending_len_nonneg s1 last_). lia.
  - exists s2. split; [exact E2|]. now transitivity s1.
Qed.
Lemma last_opt_In {A} (l : list A) x : last_opt l = Some x -> x ∈ l.
Proof. unfold last_opt. apply list_elem_of_lookup_2. Qed.
Lemma penalize_run accs fuel spammers offenders n s : (length spammers < fuel)%nat -> offenders ⊆ accs ->
  (forall e, e ∈ spammers -> el_value e ∈ accs) ->
  exists o s', penalize fuel spammers offenders n s = (Ok o, s') /\ shrunk accs s s' /\
    forall offs m, o = Some (offs, m) -> offs ⊆ accs.
Proof.
  revert spammers offenders n s. induction fuel as [|fuel IH]; intros spammers offenders n s Hf Hoff Hsp; [lia|].
  cbn [penalize]. change ((pool ≫= ?f) s) with (f s s). cbv beta.
  destruct (_ && _); [|exists (Some (offenders, n)), s; split; [easy|]; split; [reflexivity|now intros ? ? [= <- <-]]].
  unfold pq_pop. destruct (heap_pop spammers) as [[el rest]|] eqn:Ep.
  2:{ exists None, s. split; [easy|]. split; [reflexivity|discriminate]. }
  apply heap_pop_Permutation in Ep. apply Permutation_length in Ep as Hlen. simpl in Hlen.
  assert (Hsp' : forall e, e ∈ rest -> el_value e ∈ accs) by (intros e He; apply Hsp; rewrite Ep; now right).
  assert (Hoff' : offenders ++ [el_value el] ⊆ accs).
  { intros a [?| ->%list_elem_of_singleton]%elem_of_app; [auto|]. apply Hsp. rewrite Ep. left. }
  destruct (last_opt offenders) as [prev|] eqn:El; [|apply IH; [lia|easy..]].
  destruct (equalize_run (S (Z.to_nat (pending_len s prev))) (pending_len s (el_value el)) prev
    (offenders ++ [el_value el]) n s) as (o & s1 & E1 & Hs1); [lia|apply pending_len_nonneg| |].
  { apply elem_of_app. left. now apply last_opt_In. }
  rewrite (bind_st_ok _ _ _ _ _ E1). apply (shrunk_sub _ accs) in Hs1; [|easy].
  destruct o as [m|]; [|exists None, s1; split; [easy|]; split; [easy|discriminate]].
  destruct (IH rest (offenders ++ [el_value el]) m s1) as (o & s2 & E2 & Hs2 & Ho); [lia|easy..|].
  exists o, s2. split; [exact E2|]. split; [now transitivity s1|easy].
Qed.

Definition spammer (p : TxPool) (a : Address) : Prop :=
  a ∉ locals p /\ account_slots (config p) < pending_len p a.
Lemma find_spammers_spec p e : e ∈ find_spammers hash_keys p -> spammer p (el_value e).
Proof.
  unfold find_spammers. set (q := pq_new). assert (Hq : forall e, e ∈ q -> spammer p (el_value e)) by (intros ? Hin; inversion Hin).
  clearbody q. revert q Hq. induction (hash_keys _ (pending p)) as [|a keys IH]; intros q Hq; simpl; [auto|].
  apply IH. destruct (_ && _) eqn:E; [|easy]. intros e'. unfold pq_push. rewrite heap_push_Permutation.
  intros [->|?]%elem_of_cons; [|auto]. simpl. apply andb_true_iff in E as [E1%negb_true_iff E2%Z.ltb_lt].
  split; [|easy]. now apply bool_decide_eq_false in E1.
Qed.

(** C14 [truncate_pending] always returns: its four nested loops end.  It only
    takes transactions away from accounts that are not local and hold more
    than their guaranteed slots. *)
Theorem truncate_pending_total p : 0 <= account_slots (config p) ->
  exists p', truncate_pending hash_keys p = (Ok tt, p') /\ queue p' = queue p /\
    (forall a l', pending p' !! a = Some l' -> exists l, pending p !! a = Some l /\ list_txs l' ⊆ list_txs l) /\
    forall a, a ∈ locals p \/ pending_len p a <= account_slots (config p) -> pending p' !! a = pending p !! a.
Proof.
  intros Hacc. set (accs := map el_value (find_spammers hash_keys p)).
  assert (Hrun : exists p', truncate_pending hash_keys p = (Ok tt, p') /\ shrunk accs p p').
  { unfold truncate_pending. change ((pool ≫= ?f) p) with (f p p). cbv beta zeta.
    destruct (_ <=? _); [exists p; now split|].
    destruct (penalize_run accs (S (length (find_spammers hash_keys p))) (find_spammers hash_keys p) [] (count_pending hash_keys p) p)
      as (o & s1 & E1 & Hs1 & Ho); [lia|set_solver|intros e He; apply list_elem_of_fmap; eauto|].
    rewrite (bind_st_ok _ _ _ _ _ E1). destruct o as [[offs m]|]; [|exists s1; now split].
    change ((pool ≫= ?f) s1) with (f s1 s1). cbv beta. destruct (_ <? _); [|exists s1; now split].
    destruct (last_opt offs) as [a|] eqn:El; [|exists s1; now split].
    edestruct (shrink_run (S (Z.to_nat (pending_len s1 a))) a offs m s1) as (s2 & E2 & Hs2);
      [lia|now rewrite (shrunk_config _ _ _ Hs1)|now apply last_opt_In|].
    exists s2. split; [exact E2|]. transitivity s1; [easy|]. eapply shrunk_sub; [|exact Hs2]. eauto. }
  destruct Hrun as (p' & E & Hs). exists p'. split; [easy|]. split; [apply Hs|]. split.
  - intros a l' Hl'. destruct (pending p !! a) as [l|] eqn:El.
    + destruct (shrunk_list _ _ _ Hs a l El) as (l'' & Hl'' & ?). exists l. split; [easy|].
      rewrite Hl' in Hl''. now injection Hl'' as ->.
    + rewrite (shrunk_none _ _ _ Hs a El) in Hl'. discriminate.
  - intros a Ha. apply (shrunk_other _ _ _ Hs). intros (e & -> & He)%list_elem_of_fmap.
    apply find_spammers_spec in He as [? ?]. destruct Ha; [easy|lia].
Qed.
End Invariant.
