(* ===== verification/TxPoolTheorems.v ===== *)
(** * Behaviour of the transaction pool

    How a new transaction becomes pending, which batches [add_txs_locked] can
    take, what [reset] injects again, and what [remove_tx] leaves behind. *)
From S2P Require Import Prelude Crypto Types Smt Codec SmtTree TreeDb State PrQue TxList TxPool TxPoolProofs.
From stdpp Require Import list.
#[local] Open Scope Z_scope.

Section Theorems.
Context {Cr : CryptoPrims} {Pl : ProstLen} {Bc : Blockchain}.
Context (instant : nat -> Z) (hash_keys : forall A, gmap Address A -> list Address).

(** ** Batches *)

(** The outcomes of adding transactions one after the other; [None] when adding
    one panics. *)
Fixpoint outcomes (tsx : list SignedTransaction) (local : bool) (p : TxPool) : option (list bool) :=
  match tsx with
  | [] => Some []
  | t :: tsx =>
    match add instant t local p with
    | (Ok _, p) => cons true <$> outcomes tsx local p
    | (Err _, p) => cons false <$> outcomes tsx local p
    | (Panic, _) => None
    end
  end.

Lemma add_each_ok i tsx local dirty errors p : (length errors < i)%nat ->
  is_ok (add_each instant i tsx local dirty errors p).1 = true <->
  outcomes tsx local p = Some (repeat true (length tsx)).
Proof.
  revert i dirty p. induction tsx as [|t tsx IH]; intros i dirty p Hi; simpl; [easy|].
  unfold attempt, mbind at 1, stM_bind at 1. destruct (add instant t local p) as [[r|e|] q].
  - rewrite IH by lia. destruct (outcomes tsx local q) as [l|]; simpl; split; intros [=]; congruence.
  - unfold mbind, stM_bind, lift, vec_insert. rewrite (proj2 (Nat.ltb_lt _ _) Hi). simpl.
    split; [discriminate|]. destruct (outcomes tsx local q); discriminate.
  - simpl. split; discriminate.
Qed.
Lemma repeat_app_true k m l : true :: l = repeat false k ++ repeat true m -> k = O /\ exists m', m = S m' /\ l = repeat true m'.
Proof. destruct k as [|k]; simpl; [|discriminate]. destruct m as [|m]; simpl; [discriminate|]. intros [= ->]. eauto. Qed.
Lemma add_each_prefix tsx local dirty errors p :
  is_ok (add_each instant (length errors) tsx local dirty errors p).1 = true <->
  exists k m, outcomes tsx local p = Some (repeat false k ++ repeat true m).
Proof.
  revert dirty errors p. induction tsx as [|t tsx IH]; intros dirty errors p.
  { simpl. split; [|easy]. intros _. now exists O, O. }
  simpl. unfold attempt, mbind at 1, stM_bind at 1. destruct (add instant t local p) as [[r|e|] q].
  - rewrite add_each_ok by lia. split.
    + intros ->. now exists O, (S (length tsx)).
    + intros (k & m & E). destruct (outcomes tsx local q) as [l|] eqn:El; [|discriminate]. injection E as E.
      apply repeat_app_true in E as (-> & m' & -> & ->). f_equal.
      assert (Hlen : forall tsx p l, outcomes tsx local p = Some l -> length l = length tsx).
      { clear. induction tsx as [|u tsx IHl]; intros p l; simpl; [now intros [= <-]|].
        destruct (add instant u local p) as [[]]; [..|discriminate];
          (destruct (outcomes tsx local _) eqn:E; [|discriminate]); intros [= <-]; simpl; f_equal; eauto. }
      apply Hlen in El. rewrite repeat_length in El. now rewrite El.
  - unfold mbind, stM_bind, lift, vec_insert. rewrite Nat.ltb_irrefl, take_ge, drop_ge by lia. simpl.
    replace (S (length errors)) with (length (errors ++ [e])) by (rewrite length_app; simpl; lia). rewrite IH. split.
    + intros (k & m & ->). now exists (S k), m.
    + intros (k & m & E). destruct (outcomes tsx local q) as [l|]; [|discriminate].
      injection E as E. destruct k as [|k]; [destruct m; discriminate|]. injection E as ->. eauto.
  - split; [discriminate|]. now intros (k & m & ?).
Qed.

(** A batch of transactions is handled without a panic exactly when the
    refused ones come before all the accepted ones: a refused transaction
    after an accepted one is inserted in the vector of errors past its end. *)
Theorem add_txs_locked_returns tsx local p :
  is_ok (add_txs_locked instant tsx local p).1 = true <->
  exists k m, outcomes tsx local p = Some (repeat false k ++ repeat true m).
Proof. apply (add_each_prefix tsx local accounts_new []). Qed.

(** A transaction with a fee of zero that has the sender and the nonce of a
    pending one, passes the checks and finds a free slot makes the pool panic. *)
Theorem zero_fee_replacement_panics t old l local p :
  pool_has p (tx_hash t) = false -> validate_tx p t = Ok tt ->
  u64 (lk_slots (all p) + num_slots t) <= u64 (global_slots (config p) + global_queue (config p)) ->
  pending p !! sender t = Some l -> list_txs l !! tx_nonce t = Some old -> fees t = 0 ->
  (add instant t local p).1 = Panic.
Proof.
  intros Hn Hv Hroom Hl Hold Hf. unfold add. change ((pool ≫= ?f) p) with (f p p). cbv beta.
  unfold pool_has in Hn. rewrite Hn. change ((ensure_st (negb false) _ ≫= ?f) p) with (f tt p). cbv beta zeta. rewrite Hv.
  change ((lift (Ok tt) ≫= ?f) p) with (f tt p). cbv beta.
  assert (Hm : forall b, make_room instant t b p = (Ok tt, p)).
  { intros b. unfold make_room. change ((pool ≫= ?f) p) with (f p p). cbv beta zeta.
    now rewrite (proj2 (Z.ltb_ge _ _) Hroom). }
  rewrite (bind_st_ok _ _ _ _ _ (Hm _)). change ((pool ≫= ?f) p) with (f p p). cbv beta. rewrite Hl.
  unfold list_overlaps, sorted_overlaps. rewrite Hold. rewrite bool_decide_eq_true_2 by eauto.
  unfold add_pending. change ((pool ≫= ?f) p) with (f p p). cbv beta.
  unfold list_add, sorted_get. rewrite Hold, Hf. reflexivity.
Qed.

(** ** Removal *)

(** [t] is not in the table, but it is in its queue. *)
Definition stays (t : SignedTransaction) (p : TxPool) : Prop :=
  pool_has p (tx_hash t) = false /\
  exists q, queue p !! sender t = Some q /\ list_txs q !! tx_nonce t = Some t.

Section Stays.
Context (t : SignedTransaction).
Abbreviation kept m := (keeps (E:=TxPoolError) (stays t) m (fun _ => True)).

Lemma stays_put_queue a l : (a = sender t -> list_txs l !! tx_nonce t = Some t) -> kept (put_queue a l).
Proof.
  intros Hl. apply keeps_modify. intros p [Ha (q & Hq & Ht)]. split; [easy|]. cbn.
  destruct (decide (a = sender t)) as [->|Hne]; [exists l; rewrite lookup_insert_eq; auto|].
  exists q. now rewrite lookup_insert_ne by easy.
Qed.
Lemma stays_upd_all h : kept (upd_all (lookup_remove h)).
Proof. apply keeps_modify. intros p [Ha Hq]. split; [now apply lookup_remove_contains|easy]. Qed.
Lemma stays_upd_priced f : kept (upd_priced f).
Proof. now apply keeps_modify. Qed.
Lemma stays_upd_noncer f : kept (upd_noncer f).
Proof. now apply keeps_modify. Qed.
Lemma stays_put_pending a l : kept (put_pending a l).
Proof. now apply keeps_modify. Qed.
Lemma stays_delete_pending a : kept (modify (fun p => set_pending (delete a (pending p)) p)).
Proof. now apply keeps_modify. Qed.
Lemma stays_beat a : kept (beat_if_absent instant a).
Proof. apply keeps_modify. intros p Hp. now destruct (beats p !! a). Qed.
Lemma stays_forget_old o : kept (forget_old o).
Proof.
  destruct o as [u|]; [|now apply keeps_ret].
  eapply keeps_bind; [apply stays_upd_all|]. intros _ _. apply stays_upd_priced.
Qed.

Lemma stays_enqueue h u : tx_nonce u <> tx_nonce t -> kept (enqueue_tx instant h u false false).
Proof.
  intros Hne. unfold enqueue_tx. apply keeps_read_true. intros p Hp.
  assert (Hl : sender u = sender t -> list_txs (default (list_new false) (queue p !! sender u)) !! tx_nonce t = Some t).
  { intros ->. now destruct Hp as [_ (q & -> & ?)]. }
  set (l := default _ _) in *. cbv beta zeta.
  match goal with |- stays t (?m p).2 => assert (Hk : kept m); [|exact (proj1 (Hk p Hp))] end.
  eapply keeps_bind; [now apply stays_put_queue|]. intros _ _.
  eapply (keeps_bind _ _ _ (fun x => sender u = sender t -> list_txs x.2 !! tx_nonce t = Some t)).
  { apply keeps_lift. intros [[i o] l'] E Hs. cbn. specialize (Hl Hs). revert E. unfold list_add.
    assert (<[tx_nonce u := u]> (list_txs l) !! tx_nonce t = Some t) by now rewrite lookup_insert_ne.
    repeat case_match; intros [= <- <- <-]; easy. }
  intros [[i o] l'] Hl'. cbn in Hl'. eapply keeps_bind; [now apply stays_put_queue|]. intros _ _.
  eapply (keeps_bind _ _ _ (fun _ => True)); [now apply keeps_lift|]. intros _ _.
  eapply keeps_bind; [apply stays_forget_old|]. intros _ _.
  eapply (keeps_bind _ _ _ (fun _ => True)); [now apply keeps_ret|]. intros _ _.
  eapply keeps_bind; [apply stays_beat|]. intros _ _. now apply keeps_ret.
Qed.

Lemma list_remove_absent l : list_txs l !! tx_nonce t = None ->
  exists invalids l', list_remove t l = (true, invalids, l') /\ forall u, u ∈ invalids -> tx_nonce u <> tx_nonce t.
Proof.
  intros Hn. unfold list_remove, sorted_remove. rewrite bool_decide_eq_false_2 by (rewrite Hn; now intros []).
  destruct (is_strict l); [|exists [], (set_list_txs (delete (tx_nonce t) (list_txs l)) l); split; [easy|intros u Hu; inversion Hu]].
  set (f := fun _ u => tx_nonce t <? tx_nonce u). set (txs := delete _ _).
  pose proof (fun u => proj1 (sorted_filter_removed txs f u)) as Hf.
  destruct (sorted_filter f txs) as [invalids txs']. exists invalids, (set_list_txs txs' l). split; [easy|].
  intros u (n & _ & Hlt%Z.ltb_lt)%Hf. lia.
Qed.
(** Nothing is removed, yet the function is told to return. *)
Lemma remove_pending_stays l p : stays t p -> pending p !! sender t = Some l -> list_txs l !! tx_nonce t = None ->
  stays t (remove_pending instant t p).2 /\ forall r, (remove_pending instant t p).1 = Ok r -> r = true.
Proof.
  intros Hp Hl Hn. unfold remove_pending. change ((pool ≫= ?f) p) with (f p p). cbv beta zeta. rewrite Hl.
  destruct (list_remove_absent l Hn) as (invalids & l' & -> & Hinv). revert p Hp Hl. 
  match goal with |- forall p, stays t p -> _ -> stays t (?m p).2 /\ _ =>
    assert (Hk : keeps (stays t) m (fun r => r = true)); [|intros p Hp _; exact (Hk p Hp)] end.
  eapply keeps_bind; [apply stays_put_pending|]. intros _ _.
  eapply (keeps_bind _ _ _ (fun _ => True)); [apply keeps_if; intros _; [apply stays_delete_pending|now apply keeps_ret]|].
  intros _ _. eapply (keeps_bind _ _ _ (fun _ => True)).
  { apply (keeps_for_each _ _ _ (fun u => tx_nonce u <> tx_nonce t)); [now apply Forall_forall|]. intros u Hu.
    eapply keeps_bind; [now apply stays_enqueue|]. intros _ _. now apply keeps_ret. }
  intros _ _. eapply keeps_bind; [apply stays_upd_noncer|]. intros _ _. now apply keeps_ret.
Qed.
End Stays.

(** When a removed transaction waits in the queue of an account that also has
    a pending list, it leaves the table of known transactions but stays in the
    queue: [TxList::remove] reports a removal when it has removed nothing, and
    the function returns before it looks at the queue. *)
Theorem remove_tx_leaves_queued t l q p b :
  pool_get p (tx_hash t) = Some t -> queue p !! sender t = Some q -> list_txs q !! tx_nonce t = Some t ->
  pending p !! sender t = Some l -> list_txs l !! tx_nonce t = None ->
  pool_has (remove_tx instant (tx_hash t) b p).2 (tx_hash t) = false /\
  exists q', queue (remove_tx instant (tx_hash t) b p).2 !! sender t = Some q' /\ list_txs q' !! tx_nonce t = Some t.
Proof.
  intros Hg Hq Ht Hl Hn. change (stays t (remove_tx instant (tx_hash t) b p).2).
  unfold remove_tx. change ((pool ≫= ?f) p) with (f p p). cbv beta. unfold pool_get in Hg. rewrite Hg.
  set (p1 := set_all (lookup_remove (tx_hash t) (all p)) p).
  assert (Hp1 : stays t p1).
  { split; [|now exists q]. unfold pool_has. rewrite lookup_get_contains. cbn.
    rewrite lookup_remove_get, decide_True by easy. apply bool_decide_eq_false_2. now intros []. }
  rewrite (bind_st_ok _ _ p tt p1) by reflexivity.
  assert (Hb : exists pr, (if b then upd_priced (fun l => (priced_remove t l).2) else mret tt) p1
    = (Ok tt, set_priced pr p1)) by (destruct b; [now eexists|now exists (priced p)]).
  destruct Hb as [pr Hb]. rewrite (bind_st_ok _ _ _ _ _ Hb). clear Hb.
  set (p2 := set_priced pr p1). assert (Hp2 : stays t p2) by easy.
  destruct (remove_pending_stays t l p2 Hp2 Hl Hn) as [H1 H2].
  unfold mbind, stM_bind. destruct (remove_pending instant t p2) as [[r|e|] s]; [|easy..].
  now rewrite (H2 r eq_refl).
Qed.

(** ** A new head *)

(** The blocks found going back from a head. *)
Inductive on_chain (h : H256) (lvl : Z) : Block -> Prop :=
| on_chain_head b : chain_get_block h lvl = Ok (Some b) -> on_chain h lvl b
| on_chain_parent b b' : on_chain h lvl b ->
    chain_get_block (parent_hash (header b)) (u32 (block_level b - 1)) = Ok (Some b') -> on_chain h lvl b'.
Definition chain_tx (h : H256) (lvl : Z) (t : SignedTransaction) : Prop :=
  exists b, on_chain h lvl b /\ t ∈ transactions b.

Lemma btree_insert_elem {A} cmp (x y : A) l : y ∈ btree_insert cmp x l -> y = x \/ y ∈ l.
Proof.
  induction l as [|z l IH]; simpl; [now intros ->%list_elem_of_singleton; left|].
  destruct (cmp x z); rewrite ?elem_of_cons; tauto.
Qed.
Lemma btree_extend_elem {A} cmp (y : A) xs l : y ∈ btree_extend cmp l xs -> y ∈ l \/ y ∈ xs.
Proof.
  revert l. induction xs as [|x xs IH]; intros l; simpl; [now left|].
  intros [Hin| ]%IH; [|set_solver]. apply btree_insert_elem in Hin. set_solver.
Qed.
Lemma foreign_ok {A} (r : result anyhow A) a : foreign r = Ok a -> r = Ok a.
Proof. now destruct r; intros [= <-]. Qed.

(** What the set of transactions along a branch may hold. *)
Definition collected (h : H256) (lvl : Z) (acc : list SignedTransaction) : Prop :=
  forall t, t ∈ acc -> chain_tx h lvl t.
Lemma collected_extend h lvl acc b : collected h lvl acc -> on_chain h lvl b ->
  collected h lvl (btree_extend nonce_cmp acc (transactions b)).
Proof. intros Hc Hb t [?|?]%btree_extend_elem; [auto|]. now exists b. Qed.
Lemma descend_collects h lvl fuel target b acc b' acc' : on_chain h lvl b -> collected h lvl acc ->
  descend fuel target b acc = Ok (Some (b', acc')) -> on_chain h lvl b' /\ collected h lvl acc'.
Proof.
  revert b acc. induction fuel as [|fuel IH]; intros b acc Hb Hacc; [discriminate|]. cbn [descend]. cbv zeta.
  destruct (_ <? _); [|now intros [= <- <-]]. intros (o & Ho%foreign_ok & E)%bind_ok.
  destruct o as [c|]; [|discriminate]. apply IH in E; [exact E|eapply on_chain_parent; eauto|now apply collected_extend].
Qed.
Lemma rewind_collects h lvl h' lvl' fuel rem add disc incl disc' incl' :
  on_chain h lvl rem -> on_chain h' lvl' add -> collected h lvl disc -> collected h' lvl' incl ->
  rewind fuel rem add disc incl = Ok (Some (disc', incl')) -> collected h lvl disc' /\ collected h' lvl' incl'.
Proof.
  revert rem add disc incl. induction fuel as [|fuel IH]; intros rem add disc incl H1 H2 H3 H4; [discriminate|]. simpl.
  destruct (negb _); [|now intros [= <- <-]].
  intros (o & Ho%foreign_ok & E)%bind_ok. destruct o as [rem'|]; [|discriminate].
  apply bind_ok in E as (o & Ho'%foreign_ok & E). destruct o as [add'|]; [|discriminate].
  apply IH in E; [exact E|eapply on_chain_parent; eauto..|now apply collected_extend|now apply collected_extend].
Qed.
Lemma btree_mem_nonce t l : btree_mem nonce_cmp t l = true -> exists u, u ∈ l /\ tx_nonce u = tx_nonce t.
Proof.
  unfold btree_mem. intros (u & Hin & E)%existsb_exists. exists u. apply list_elem_of_In in Hin. split; [easy|].
  unfold nonce_cmp in E. destruct (Z.compare_spec (tx_nonce t) (tx_nonce u)); simpl in E; [easy|discriminate..].
Qed.

(** After a change of branch, the transactions injected again are those of the
    old branch whose nonce is also the nonce of some transaction of the new
    branch: a transaction of the old branch with a nonce the new branch does
    not use is lost. *)
Theorem reinjected_txs_nonces old_head new_head txs t :
  stale_txs (Some old_head) new_head = Ok (Some txs) -> t ∈ txs ->
  chain_tx (header_hash old_head) (level old_head) t /\
  exists u, chain_tx (header_hash new_head) (level new_head) u /\ tx_nonce u = tx_nonce t.
Proof.
  unfold stale_txs. intros E Ht. assert (Hnil : forall l : list SignedTransaction, l = txs -> l = [] -> False).
  { intros l <- ->. inversion Ht. }
  destruct (bool_decide _); [injection E as E; destruct (Hnil _ E eq_refl)|]. cbv zeta in E.
  destruct (64 <? _); [injection E as E; destruct (Hnil _ E eq_refl)|].
  apply bind_ok in E as (rem & Hrem%foreign_ok & E). apply bind_ok in E as (oadd & Hadd%foreign_ok & E).
  apply bind_ok in E as (add & Ho & E). destruct oadd; [injection Ho as ->|discriminate].
  destruct rem as [rem|]; [|destruct (_ <? _); [discriminate|injection E as E; destruct (Hnil _ E eq_refl)]].
  apply bind_ok in E as (o1 & E1 & E). destruct o1 as [[rem' disc]|]; [|discriminate].
  apply bind_ok in E as (o2 & E2 & E). destruct o2 as [[add' incl]|]; [|discriminate].
  apply bind_ok in E as (o3 & E3 & E). destruct o3 as [[disc' incl']|]; [|discriminate].
  injection E as <-. apply list_elem_of_In, filter_In in Ht as [Ht%list_elem_of_In Hm].
  apply (descend_collects (header_hash old_head) (level old_head)) in E1 as [Hr Hd];
    [|now apply on_chain_head|intros ? Hx; inversion Hx].
  apply (descend_collects (header_hash new_head) (level new_head)) in E2 as [Ha Hi];
    [|now apply on_chain_head|intros ? Hx; inversion Hx].
  eapply rewind_collects in E3 as [Hd' Hi']; [|eassumption..].
  split; [now apply Hd'|]. apply btree_mem_nonce in Hm as (u & Hu & Hn). eauto.
Qed.

(** The loops end when [get_block] returns blocks of the level it is asked for
    and no block has the greatest level. *)
Context (get_block_level : forall h l b, chain_get_block h l = Ok (Some b) -> block_level b = l).
Context (get_block_returns : forall h l, chain_get_block h l <> Panic).
Context (no_top_block : forall h b, chain_get_block h (2 ^ 32 - 1) <> Ok (Some b)).

Lemma parent_level b b' : is_u 32 (block_level b) ->
  chain_get_block (parent_hash (header b)) (u32 (block_level b - 1)) = Ok (Some b') ->
  0 < block_level b /\ block_level b' = block_level b - 1.
Proof.
  intros Hu E. destruct (Z.eq_dec (block_level b) 0) as [Hz|Hz].
  - rewrite Hz in E. now apply no_top_block in E.
  - unfold is_u in Hu. apply get_block_level in E. rewrite wrap_id in E; unfold is_u; lia.
Qed.
Lemma foreign_panic {A} (r : result anyhow A) : r <> Panic -> foreign r <> Panic.
Proof. now destruct r. Qed.
Lemma descend_returns fuel target b acc : is_u 32 (block_level b) -> (Z.to_nat (block_level b) < fuel)%nat ->
  descend fuel target b acc <> Panic /\
  forall b' acc', descend fuel target b acc = Ok (Some (b', acc')) -> is_u 32 (block_level b').
Proof.
  revert b acc. induction fuel as [|fuel IH]; intros b acc Hb Hf; [lia|]. simpl.
  destruct (Z.ltb_spec target (block_level b)) as [Hlt|Hge].
  2:{ split; [easy|]. now intros ? ? [= <- <-]. }
  destruct (chain_get_block _ _) as [[c|]|e|] eqn:E; simpl; try (split; [easy|discriminate]).
  - pose proof (parent_level _ _ Hb E) as [Hpos Hc]. unfold is_u in *.
    destruct (IH c (btree_extend nonce_cmp acc (transactions b))) as [H1 H2]; [lia..|].
    split; [easy|exact H2].
  - now apply get_block_returns in E.
Qed.
Lemma rewind_returns fuel rem add disc incl :
  is_u 32 (block_level rem) -> is_u 32 (block_level add) -> (Z.to_nat (block_level rem) < fuel)%nat ->
  rewind fuel rem add disc incl <> Panic.
Proof.
  revert rem add disc incl. induction fuel as [|fuel IH]; intros rem add disc incl Hr Ha Hf; [lia|]. simpl.
  destruct (negb _); [|easy].
  destruct (chain_get_block (parent_hash (header rem)) _) as [[r|]|e|] eqn:Er; simpl; try easy;
    [|now apply get_block_returns in Er].
  destruct (chain_get_block (parent_hash (header add)) _) as [[a|]|e|] eqn:Ea; simpl; try easy;
    [|now apply get_block_returns in Ea].
  pose proof (parent_level _ _ Hr Er) as [? ?]. pose proof (parent_level _ _ Ha Ea) as [? ?].
  unfold is_u in *. apply IH; unfold is_u; lia.
Qed.
Lemma stale_txs_returns old_head new_head : is_u 32 (level new_head) ->
  (forall h, old_head = Some h -> is_u 32 (level h)) -> stale_txs old_head new_head <> Panic.
Proof.
  intros Hn Ho. destruct old_head as [oh|]; [|easy]. specialize (Ho oh eq_refl). unfold stale_txs.
  destruct (bool_decide _); [easy|]. cbv zeta. destruct (64 <? _); [easy|].
  destruct (chain_get_block (header_hash oh) _) as [rem|e|] eqn:Er; cbn -[descend rewind level_fuel block_level]; try easy; [|now apply get_block_returns in Er].
  destruct (chain_get_block (header_hash new_head) _) as [[add|]|e|] eqn:Ea; cbn -[descend rewind level_fuel block_level]; try easy;
    [|now apply get_block_returns in Ea].
  destruct rem as [rem|]; [|now destruct (_ <? _)].
  apply get_block_level in Er, Ea. rewrite <- Er in Ho. rewrite <- Ea in Hn.
  destruct (descend_returns (level_fuel rem) (block_level add) rem []) as [D1 D2]; [easy|unfold level_fuel; lia|].
  destruct (descend _ _ rem []) as [[[rem' disc]|]|e|]; cbn -[descend rewind level_fuel block_level]; try easy. specialize (D2 _ _ eq_refl) as Hr'.
  destruct (descend_returns (level_fuel add) (block_level rem') add []) as [D3 D4]; [easy|unfold level_fuel; lia|].
  destruct (descend _ _ add []) as [[[add' incl]|]|e|]; cbn -[descend rewind level_fuel block_level]; try easy. specialize (D4 _ _ eq_refl) as Ha'.
  pose proof (rewind_returns (level_fuel rem') rem' add' disc incl Hr' Ha') as R.
  destruct (rewind _ _ _ _ _) as [[[]|]|e|]; cbn -[descend rewind level_fuel block_level]; try easy.
  exfalso. apply R; [unfold level_fuel; lia|easy].
Qed.

(** The blocks from [b] down to its ancestor [a], which is left out. *)
Inductive branch : Block -> list Block -> Block -> Prop :=
| branch_nil a : branch a [] a
| branch_cons b b' bs a :
    chain_get_block (parent_hash (header b)) (u32 (block_level b - 1)) = Ok (Some b') -> branch b' bs a ->
    branch b (b :: bs) a.
(** Their transactions, in a set ordered by nonce. *)
Definition branch_txs (acc : list SignedTransaction) (bs : list Block) : list SignedTransaction :=
  foldl (fun acc b => btree_extend nonce_cmp acc (transactions b)) acc bs.

Lemma branch_level b bs a : is_u 32 (block_level b) -> branch b bs a ->
  block_level b = block_level a + Z.of_nat (length bs) /\ is_u 32 (block_level a).
Proof.
  intros Hb Hp. induction Hp as [a|b b' bs a E Hp IH]; [cbn; split; [lia|exact Hb]|].
  pose proof (parent_level _ _ Hb E) as [Hpos Hl]. destruct IH as [IH Ha]; [unfold is_u in *; lia|].
  split; [cbn [length]; lia|exact Ha].
Qed.
Lemma branch_app b bs1 bs2 a : branch b (bs1 ++ bs2) a -> exists m, branch b bs1 m /\ branch m bs2 a.
Proof.
  revert b. induction bs1 as [|x bs1 IH]; intros b Hp; [exists b; split; [constructor|exact Hp]|].
  inversion Hp as [|? b' ? ? E Hq]; subst. destruct (IH _ Hq) as (m & H1 & H2). exists m. split; [econstructor; eauto|exact H2].
Qed.
Lemma descend_branch fuel target b bs m acc :
  is_u 32 (block_level b) -> branch b bs m -> (bs = [] \/ block_level m = target) -> block_level m <= target -> (length bs < fuel)%nat ->
  descend fuel target b acc = Ok (Some (m, branch_txs acc bs)).
Proof.
  revert b bs acc. induction fuel as [|fuel IH]; intros b bs acc Hb Hp Hm Hle Hf; [lia|]. cbn [descend].
  destruct Hp as [m|b b' bs m E Hp]; [now rewrite (proj2 (Z.ltb_ge _ _) Hle)|].
  destruct Hm as [|Hm]; [discriminate|]. pose proof (branch_level _ _ _ Hb (branch_cons _ _ _ _ E Hp)) as [Hl _].
  pose proof (parent_level _ _ Hb E) as [Hpos Hl']. cbn [length] in *. rewrite (proj2 (Z.ltb_lt _ _)) by lia.
  rewrite E. cbn [foreign mbind result_bind]. rewrite (IH b' bs); auto; [unfold is_u in *; lia|lia].
Qed.
Lemma rewind_branch fuel rem add rs ds a disc incl :
  is_u 32 (block_level rem) -> is_u 32 (block_level add) -> branch rem rs a -> branch add ds a -> length rs = length ds ->
  (forall x y, x ∈ rs -> y ∈ ds -> block_level x = block_level y -> block_hash x <> block_hash y) -> (length rs < fuel)%nat ->
  rewind fuel rem add disc incl = Ok (Some (branch_txs disc rs, branch_txs incl ds)).
Proof.
  revert rem add rs ds disc incl. induction fuel as [|fuel IH]; intros rem add rs ds disc incl Hr Hd Hp Hq Hlen Hne Hf; [lia|].
  cbn [rewind]. destruct Hp as [a|rem rem' rs a E Hp].
  - destruct ds; [|discriminate]. inversion Hq; subst. now rewrite bool_decide_eq_true_2.
  - destruct Hq as [a|add add' ds a E' Hq]; [discriminate|]. injection Hlen as Hlen.
    pose proof (branch_level _ _ _ Hr (branch_cons _ _ _ _ E Hp)) as [L1 _].
    pose proof (branch_level _ _ _ Hd (branch_cons _ _ _ _ E' Hq)) as [L2 _]. cbn [length] in *.
    rewrite bool_decide_eq_false_2; [|apply Hne; [left|left|lia]]. cbn [negb].
    rewrite E. cbn [foreign mbind result_bind]. rewrite E'. cbn [foreign mbind result_bind].
    pose proof (parent_level _ _ Hr E) as [P1 P2]. pose proof (parent_level _ _ Hd E') as [P3 P4]. unfold is_u in *.
    rewrite (IH rem' add' rs ds); auto; try lia. intros x y Hx Hy. apply Hne; now right.
Qed.

(** The two branches from their heads to the common ancestor: the longer one is
    followed down to the level of the other, then both. *)
Lemma stale_branches rem add rs ds a :
  is_u 32 (block_level rem) -> is_u 32 (block_level add) -> branch rem rs a -> branch add ds a ->
  (forall x y, x ∈ rs -> y ∈ ds -> block_level x = block_level y -> block_hash x <> block_hash y) ->
  exists rem' add' disc incl,
    descend (level_fuel rem) (block_level add) rem [] = Ok (Some (rem', disc)) /\
    descend (level_fuel add) (block_level rem') add [] = Ok (Some (add', incl)) /\
    rewind (level_fuel rem') rem' add' disc incl = Ok (Some (branch_txs [] rs, branch_txs [] ds)).
Proof.
  intros Hr Hd Hp Hq Hne.
  pose proof (branch_level _ _ _ Hr Hp) as [L1 Ha]. pose proof (branch_level _ _ _ Hd Hq) as [L2 _].
  set (n1 := (length rs - length ds)%nat). set (n2 := (length ds - length rs)%nat).
  rewrite <- (firstn_skipn n1 rs) in Hp. rewrite <- (firstn_skipn n2 ds) in Hq.
  destruct (branch_app _ _ _ _ Hp) as (rem' & P1 & P2). destruct (branch_app _ _ _ _ Hq) as (add' & Q1 & Q2).
  pose proof (branch_level _ _ _ Hr P1) as [M1 Hr']. pose proof (branch_level _ _ _ Hd Q1) as [M2 Hd'].
  rewrite length_firstn in M1, M2.
  exists rem', add', (branch_txs [] (firstn n1 rs)), (branch_txs [] (firstn n2 ds)). unfold level_fuel, is_u in *. split; [|split].
  - apply descend_branch; auto; rewrite ?length_firstn; [|lia|lia].
    destruct n1 eqn:En; [now left|right; lia].
  - apply descend_branch; auto; rewrite ?length_firstn; [|lia|lia].
    destruct n2 eqn:En; [now left|right; lia].
  - pose proof (branch_level _ _ _ Hr' P2) as [M3 _].
    assert (forall acc bs n, branch_txs acc bs = branch_txs (branch_txs acc (firstn n bs)) (skipn n bs)) as Happ.
    { intros acc bs n. unfold branch_txs. now rewrite <- foldl_app, firstn_skipn. }
    rewrite (Happ [] rs n1), (Happ [] ds n2).
    eapply rewind_branch; eauto; [rewrite !length_skipn; lia| |lia].
    intros x y Hx Hy. apply Hne; [rewrite <- (firstn_skipn n1 rs) | rewrite <- (firstn_skipn n2 ds)];
      apply elem_of_app; now right.
Qed.

End Theorems.

(** ** A new transaction *)

Lemma sorted_filter_singleton f n t :
  sorted_filter f {[n := t]} = if f n t then ([t], ∅) else ([], {[n := t]}).
Proof.
  unfold sorted_filter. assert (E : nonce_entries {[n := t]} = [(n, t)]).
  { unfold nonce_entries. now rewrite map_to_list_singleton. }
  rewrite E, map_filter_singleton. destruct (f n t) eqn:Ef.
  - rewrite filter_cons_True, filter_nil, decide_False by (simpl; congruence). reflexivity.
  - rewrite filter_cons_False, filter_nil, decide_True by (simpl; congruence). reflexivity.
Qed.

Section Admission.
Context {Cr : CryptoPrims} {Pl : ProstLen} {Bc : Blockchain}.
Context (instant : nat -> Z) (hash_keys : forall A, gmap Address A -> list Address).
(** Iterating a hash map visits every key once. *)
Context (hash_keys_perm : forall A (m : gmap Address A), Permutation (hash_keys A m) (map_to_list m).*1).

Lemma hash_keys_singleton {A} a (x : A) : hash_keys A {[a := x]} = [a].
Proof. apply Permutation_singleton_r. rewrite hash_keys_perm, map_to_list_singleton. reflexivity. Qed.
Lemma fold_sum_Permutation (f : Address -> Z) l1 l2 n : Permutation l1 l2 ->
  fold_left (fun acc a => acc + f a) l1 n = fold_left (fun acc a => acc + f a) l2 n.
Proof. intros Hp. revert n. induction Hp; intros n; simpl; [easy|auto|f_equal; lia|congruence]. Qed.
Lemma fold_sum_start (f : Address -> Z) l n m :
  fold_left (fun acc a => acc + f a) l (n + m) = fold_left (fun acc a => acc + f a) l n + m.
Proof. revert n. induction l as [|a l IH]; intros n; simpl; [easy|]. rewrite <- IH. f_equal. lia. Qed.

Section OneTx.
Context (t : SignedTransaction) (local : bool) (p : TxPool) (sent : list (list SignedTransaction)).
Let s := sender t.
Context (wf : pool_wf p) (new_tx : pool_has p (tx_hash t) = false)
        (new_pending : pending p !! s = None) (new_queue : queue p !! s = None)
        (nonce_ok : db_nonce (current_state p) s <= tx_nonce t)
        (next_nonce : (noncer_get s (pending_nonce p)).1 <= tx_nonce t)
        (fees_ok : is_u 64 (fees t)) (price_ok : is_u 64 (price t))
        (funds_ok : fees t + price t <= db_balance (current_state p) s)
        (balance_ok : is_u 64 (db_balance (current_state p) s))
        (slots_ok : u64 (lk_slots (all p) + num_slots t) <= u64 (global_slots (config p) + global_queue (config p)))
        (no_events : queued_events p = ∅) (open : lmpsc p = Some sent).

Definition one_queued : TxList := {| is_strict := false; list_txs := {[tx_nonce t := t]} |}.
Definition one_pending : TxList := {| is_strict := true; list_txs := {[tx_nonce t := t]} |}.

(** The parts of the pool that adding a transaction to the queue leaves as they are. *)
Record same_but_queue (p p' : TxPool) : Prop := {
  sq_config : config p' = config p;
  sq_state : current_state p' = current_state p;
  sq_noncer : pending_nonce p' = pending_nonce p;
  sq_events : queued_events p' = queued_events p;
  sq_pending : pending p' = pending p;
  sq_lmpsc : lmpsc p' = lmpsc p;
}.

Lemma upd_priced_all l q : exists q', for_each l (fun t => upd_priced (fun l => (priced_remove t l).2)) q = (Ok tt, q') /\
  same_but_queue q q' /\ all q' = all q /\ queue q' = queue q.
Proof.
  revert q. induction l as [|u l IH]; intros q; simpl; [now exists q|].
  edestruct IH as (q' & E & [] & ? & ?). exists q'. split; [exact E|]. now repeat split.
Qed.
Lemma add_runs : exists p1, add instant t local p = (Ok false, p1) /\ same_but_queue p p1 /\
  queue p1 = <[s := one_queued]> (queue p) /\ lookup_get (all p1) (tx_hash t) = Some t.
Proof.
  unfold add. change ((pool ≫= ?f) p) with (f p p). cbv beta. unfold pool_has in new_tx. rewrite new_tx.
  change ((ensure_st (negb false) _ ≫= ?f) p) with (f tt p). cbv beta zeta.
  assert (Hv : validate_tx p t = Ok tt).
  { unfold validate_tx. fold s. rewrite (proj2 (Z.ltb_ge _ _) nonce_ok).
    unfold is_u in *. rewrite wrap_id by (unfold is_u; lia). now rewrite (proj2 (Z.ltb_ge _ _) funds_ok). }
  rewrite Hv. change ((lift (Ok tt) ≫= ?f) p) with (f tt p). cbv beta.
  assert (Hm : forall b, make_room instant t b p = (Ok tt, p)).
  { intros b. unfold make_room. change ((pool ≫= ?f) p) with (f p p). cbv beta zeta.
    now rewrite (proj2 (Z.ltb_ge _ _) slots_ok). }
  rewrite (bind_st_ok _ _ _ _ _ (Hm _)). change ((pool ≫= ?f) p) with (f p p). cbv beta. fold s. rewrite new_pending.
  set (is_local := local || _). unfold add_queued.
  assert (He : exists p1, enqueue_tx instant (tx_hash t) t is_local true p = (Ok false, p1) /\ same_but_queue p p1 /\
    queue p1 = <[s := one_queued]> (queue p) /\ lookup_get (all p1) (tx_hash t) = Some t).
  { unfold enqueue_tx. change ((pool ≫= ?f) p) with (f p p). cbv beta zeta. fold s. rewrite new_queue. cbn [default].
    rewrite list_add_fresh. unfold mbind, stM_bind. cbn. destruct (beats p !! s);
      (eexists; split; [reflexivity|]; split; [easy|]; split; [cbn; apply insert_insert_eq|cbn; now apply lookup_add_get]). }
  destruct He as (p1 & E1 & Hs1 & Hq1 & Ha1). rewrite (bind_st_ok _ _ _ _ _ E1).
  change ((pool ≫= ?f) p1) with (f p1 p1). cbv beta. destruct (local && _) eqn:Em; [|now exists p1].
  set (locs := accounts_add s (locals p1)).
  assert (Hw1 : lookup_wf (all p1)).
  { apply (inv_lookup (adding true t (eq (tx_hash t))) (fun _ => False)).
    pose proof (enqueue_inv instant (eq (tx_hash t)) (fun _ => False) (tx_hash t) t is_local true p) as Hinv.
    rewrite E1 in Hinv. apply Hinv; [easy|]. destruct wf. split; auto. now intros h <-. }
  pose proof (remote_to_locals_get locs (all p1) (tx_hash t) Hw1) as Hg.
  assert (Em' : exists p2, migrate_locals s p1 = (Ok tt, p2) /\ same_but_queue p1 p2 /\ queue p2 = queue p1 /\
    lookup_get (all p2) (tx_hash t) = Some t).
  { unfold migrate_locals. rewrite (bind_st_ok _ _ p1 tt (set_locals locs p1)) by reflexivity.
    change ((pool ≫= ?f) ?q) with (f q q). cbv beta. cbn [locals set_locals all].
    destruct (lookup_remote_to_locals locs (all p1)) as [migrated all']. simpl in Hg.
    rewrite (bind_st_ok _ _ _ tt (set_all all' (set_locals locs p1))) by reflexivity.
    edestruct (upd_priced_all migrated) as (p2 & -> & [] & Ha & Hq). exists p2. split; [easy|].
    split; [now split|]. split; [easy|]. rewrite Ha. cbn. congruence. }
  destruct Em' as (p2 & E2 & [] & Hq2 & Ha2). exists p2. destruct Hs1.
  split; [now rewrite (bind_st_ok _ _ _ _ _ E2)|].
  split; [split; congruence|]. split; [congruence|easy].
Qed.

Lemma promote_tx_fresh q : pending q !! s = None ->
  exists q', promote_tx instant s (tx_hash t) t q = (Ok true, q') /\ config q' = config q /\ locals q' = locals q /\
    queue q' = queue q /\ pending q' = <[s := one_pending]> (pending q) /\ all q' = all q /\
    lmpsc q' = lmpsc q /\ queued_events q' = queued_events q.
Proof.
  intros Hq. unfold promote_tx. change ((pool ≫= ?f) ?q) with (f q q). cbv beta. rewrite Hq. cbn [default].
  rewrite list_add_fresh. unfold mbind, stM_bind. cbn. eexists. split; [reflexivity|]. cbn.
  rewrite insert_insert_eq. now repeat split.
Qed.
(** The new transaction leaves the queue for the pending list. *)
Lemma promote_runs p1 : same_but_queue p p1 -> queue p1 = <[s := one_queued]> (queue p) ->
  exists p2, promote_executable instant [s] p1 = (Ok [t], p2) /\ config p2 = config p /\ queue p2 = queue p /\
    pending p2 = <[s := one_pending]> (pending p) /\ all p2 = all p1 /\ lmpsc p2 = lmpsc p /\
    queued_events p2 = queued_events p.
Proof.
  intros [] Hq. unfold promote_executable. cbn [collect_each for_each].
  set (empty := {| is_strict := false; list_txs := ∅ |}).
  assert (Ha : exists q, promote_account instant s p1 = (Ok [t], q) /\ config q = config p /\ locals q = locals p1 /\
    queue q = <[s := empty]> (queue p) /\ pending q = <[s := one_pending]> (pending p) /\ all q = all p1 /\
    lmpsc q = lmpsc p /\ queued_events q = queued_events p).
  { unfold promote_account. change ((pool ≫= ?f) ?q) with (f q q). cbv beta. rewrite Hq, lookup_insert_eq.
    unfold list_forward, sorted_forward, one_queued. cbn [list_txs]. rewrite sorted_filter_singleton, sq_state0.
    rewrite (proj2 (Z.ltb_ge _ _) nonce_ok). cbn [set_list_txs is_strict].
    assert (Hf : exists o, list_filter_price (db_balance (current_state p) s) one_queued = (o, one_queued) /\
      match o with Some (drops, _) => drops | None => [] end = []).
    { unfold list_filter_price. destruct (_ =? 0); [now exists None|]. unfold one_queued. cbn [list_txs].
      rewrite sorted_filter_singleton. unfold is_u in *. rewrite (proj2 (Z.ltb_ge _ (price t))) by lia. now eexists. }
    destruct Hf as (o & Ef & Ho). unfold one_queued in Ef. unfold set_list_txs at 1 2. cbn [is_strict]. rewrite Ef, Ho.
    assert (Hr : list_ready (noncer_get s (pending_nonce p)).1 one_queued = ([t], empty)).
    { unfold list_ready, sorted_ready, one_queued. cbn [list_txs]. rewrite sorted_filter_singleton.
      now rewrite (proj2 (Z.leb_le _ _) next_nonce). }
    assert (Hn : forall q, pending_nonce q = pending_nonce p ->
      get_pending_nonce s q = (Ok (noncer_get s (pending_nonce p)).1, set_pending_nonce (noncer_get s (pending_nonce p)).2 q)).
    { intros q Eq. unfold get_pending_nonce. rewrite Eq. now destruct (noncer_get s (pending_nonce p)). }
    unfold mbind at 1, stM_bind at 1. cbn -[get_pending_nonce list_ready promote_tx].
    unfold mbind, stM_bind. cbn -[get_pending_nonce list_ready promote_tx].
    rewrite Hn by (cbn; congruence). fold one_queued. rewrite Hr. cbn -[promote_tx].
    edestruct promote_tx_fresh as (q & Eq & ? & ? & Hqq & Hpp & ? & ? & ?); [|unfold mbind, stM_bind; rewrite Eq].
    { cbn. now rewrite sq_pending0. }
    cbn in *. exists q. split; [reflexivity|]. rewrite Hqq, Hpp, Hq, sq_pending0, !insert_insert_eq. repeat split; congruence. }
  destruct Ha as (q & E & Hc & Hlo & Hqq & Hp & Hall & Hlm & Hev). unfold mbind, stM_bind. rewrite E. cbn -[cap_account].
  assert (Hcap : exists q', cap_account s q = (Ok tt, q') /\ config q' = config q /\ queue q' = delete s (queue q) /\
    pending q' = pending q /\ all q' = all q /\ lmpsc q' = lmpsc q /\ queued_events q' = queued_events q).
  { unfold cap_account. change ((pool ≫= ?f) ?q) with (f q q). cbv beta. rewrite Hqq, lookup_insert_eq.
    destruct (accounts_contains (locals q) s); unfold mbind, stM_bind; cbn;
      (eexists; split; [reflexivity|]); cbn; rewrite ?Hqq, ?insert_insert_eq; now repeat split. }
  destruct Hcap as (q' & -> & ? & Hq' & ? & ? & ? & ?). eexists. split; [reflexivity|].
  rewrite Hq', Hqq, delete_insert_id by easy. repeat split; congruence.
Qed.

Lemma count_pending_one p2 : pending p2 = <[s := one_pending]> (pending p) ->
  count_pending hash_keys p2 = u64 (count_pending hash_keys p + 1).
Proof.
  intros Hp2. unfold count_pending. rewrite wrap_add_l. f_equal.
  rewrite (fold_sum_Permutation (pending_len p2) _ (s :: hash_keys _ (pending p))).
  - cbn [fold_left]. assert (Hs : pending_len p2 s = 1).
    { unfold pending_len. rewrite Hp2, lookup_insert_eq. unfold one_pending, list_len, sorted_len. cbn [list_txs].
      now rewrite map_size_singleton. }
    rewrite Hs, fold_sum_start. f_equal.
    assert (Hin : forall a, a ∈ hash_keys _ (pending p) -> pending_len p2 a = pending_len p a).
    { intros a. rewrite hash_keys_perm. intros ([b l] & -> & Hb%elem_of_map_to_list)%list_elem_of_fmap. cbn.
      unfold pending_len. rewrite Hp2, lookup_insert_ne; [easy|]. intros <-. congruence. }
    generalize 0. revert Hin. generalize (hash_keys _ (pending p)).
    induction l as [|a l IH]; intros Hin n; simpl; [easy|].
    rewrite Hin by left. apply IH. intros. apply Hin. now right.
  - rewrite !hash_keys_perm, Hp2, map_to_list_insert by easy. reflexivity.
Qed.

(** C15 A transaction of an account new to the pool that is valid, pays within its
    balance and finds room becomes pending at once: it is the only pending
    transaction of its account, it is known by its hash, its queue is empty
    again, the other accounts are untouched, and it is announced. *)
Theorem add_txs_makes_pending :
  count_pending hash_keys p + 1 <= global_slots (config p) < 2 ^ 64 ->
  count_queued hash_keys p <= global_queue (config p) ->
  exists p', add_txs instant hash_keys [t] local p = (Ok tt, p') /\
    pending p' = <[s := one_pending]> (pending p) /\ queue p' = queue p /\
    pool_get p' (tx_hash t) = Some t /\ lmpsc p' = Some (sent ++ [[t]]).
Proof.
  intros Hgs Hgq. unfold add_txs. change ((pool ≫= ?f) p) with (f p p). cbv beta zeta.
  unfold pool_has in new_tx. cbn [List.filter]. rewrite new_tx. cbn [negb List.filter map].
  destruct add_runs as (p1 & E1 & Hsame & Hq1 & Hg1).
  assert (El : add_txs_locked instant [t] local p = (Ok (accounts_add_tx t accounts_new, []), p1)).
  { unfold add_txs_locked. cbn [add_each]. unfold mbind, stM_bind, attempt. now rewrite E1. }
  rewrite (bind_st_ok _ _ _ _ _ El).
  destruct (promote_runs p1 Hsame Hq1) as (p2 & E2 & Hc & Hq2 & Hp2 & Ha2 & Hlm & Hev).
  set (p3 := set_lmpsc (Some (sent ++ [[t]])) (set_changes 0 p2)).
  assert (Er : repack instant hash_keys (accounts_add_tx t accounts_new) None p1 = (Ok tt, p3)).
  { unfold repack. rewrite (bind_st_ok _ _ p1 (queued_events p1) p1) by reflexivity.
    rewrite (sq_events _ _ Hsame), no_events.
    assert (Hd : accounts_is_empty (accounts_add_tx t accounts_new) = false /\
      accounts_flatten (accounts_add_tx t accounts_new) = [s]).
    { unfold accounts_add_tx, accounts_add, accounts_new. fold s. rewrite (right_id_L ∅ (∪)). split.
      - unfold accounts_is_empty. apply bool_decide_eq_false_2. set_solver.
      - unfold accounts_flatten, btree_entries. rewrite gset_to_gmap_singleton, map_to_list_singleton. reflexivity. }
    destruct Hd as [-> ->]. rewrite (bind_st_ok _ _ p1 (∅, [s]) p1) by reflexivity. cbv iota beta.
    rewrite (bind_st_ok _ _ _ _ _ E2). rewrite (bind_st_ok _ _ p2 tt p2) by reflexivity.
    assert (Et : truncate_pending hash_keys p2 = (Ok tt, p2)).
    { unfold truncate_pending. change ((pool ≫= ?f) ?q) with (f q q). cbv beta zeta.
      rewrite (count_pending_one p2 Hp2), Hc, wrap_id.
      - now rewrite (proj2 (Z.leb_le _ _) (proj1 Hgs)).
      - assert (0 <= count_pending hash_keys p) by now apply wrap_bound. unfold is_u. lia. }
    rewrite (bind_st_ok _ _ _ _ _ Et).
    assert (Eq : truncate_queue instant hash_keys p2 = (Ok tt, p2)).
    { unfold truncate_queue. change ((pool ≫= ?f) ?q) with (f q q). cbv beta zeta.
      assert (Ec : count_queued hash_keys p2 = count_queued hash_keys p).
      { unfold count_queued, queue_len. now rewrite Hq2. }
      now rewrite Ec, Hc, (proj2 (Z.leb_le _ _) Hgq). }
    rewrite (bind_st_ok _ _ _ _ _ Eq). rewrite (bind_st_ok _ _ _ tt (set_changes 0 p2)) by reflexivity. cbn [fold_left].
    unfold add_event. rewrite lookup_empty. cbn [default]. fold s.
    replace (<[s := sorted_put t sorted_new]> ∅) with ({[s := {[tx_nonce t := t]}]} : gmap Address TxSortedList) by reflexivity.
    rewrite bool_decide_eq_false_2 by apply map_non_empty_singleton.
    rewrite hash_keys_singleton. cbn [map concat]. rewrite lookup_singleton_eq. cbn [default].
    unfold id, sorted_flatten, nonce_entries. rewrite map_to_list_singleton. cbn.
    unfold send. cbn. rewrite Hlm, open. reflexivity. }
  rewrite (bind_st_ok _ _ _ _ _ Er). eexists. split; [reflexivity|]. cbn.
  split; [easy|]. split; [easy|]. split; [|easy]. unfold pool_get. cbn. now rewrite Ha2.
Qed.
End OneTx.

(** When the queue of a single remote account is longer than the global limit,
    shortening it reads past the end of the list: [truncate_queue] panics. *)
Theorem truncate_queue_panics p a l i :
  queue p = {[a := l]} -> a ∉ locals p -> beats p !! a = Some i ->
  0 < global_queue (config p) < Z.of_nat (list_len l) -> Z.of_nat (list_len l) < 2 ^ 64 ->
  (truncate_queue instant hash_keys p).1 = Panic.
Proof.
  intros Hq Ha Hb Hlen Hmax. unfold truncate_queue. change ((pool ≫= ?f) p) with (f p p). cbv beta zeta.
  assert (Hc : count_queued hash_keys p = Z.of_nat (list_len l)).
  { unfold count_queued, queue_len. rewrite Hq, hash_keys_singleton. cbn [fold_left].
    rewrite lookup_singleton_eq. apply wrap_id. unfold is_u. lia. }
  rewrite Hc, (proj2 (Z.leb_gt _ _)) by lia. rewrite Hq, hash_keys_singleton. cbn [collect_addresses].
  unfold accounts_contains. rewrite bool_decide_eq_false_2, Hb by easy.
  change ((lift ?r ≫= ?f) p) with (f [(a, i)] p). cbv beta. cbn [reverse rev_append drop_queued].
  rewrite (proj2 (Z.ltb_lt _ _)) by lia. change ((pool ≫= ?f) p) with (f p p). cbv beta.
  rewrite Hq, lookup_singleton_eq. cbv zeta. rewrite (proj2 (Z.leb_gt _ _)) by lia. cbn [remove_from_end].
  rewrite (proj2 (Z.leb_le _ _)), (proj2 (Z.ltb_lt _ _)) by lia. cbn [andb].
  unfold mbind, stM_bind. rewrite Nat2Z.id, lookup_ge_None_2; [reflexivity|].
  unfold list_flatten, sorted_flatten. rewrite length_fmap, length_nonce_entries. unfold list_len, sorted_len. lia.
Qed.
End Admission.
