(* ===== verification/TxPoolExamples.v ===== *)
(** * Transaction pools evaluated

    Concrete pools on which the theorems about the transaction pool apply, and
    the behaviours they exhibit. *)
From S2P Require Import Prelude Crypto Types Smt Codec SmtTree TreeDb State PrQue TxList TxPool TxPoolProofs TxPoolTheorems.
From stdpp Require Import list.
#[local] Open Scope Z_scope.

#[local] Instance toy_len : ProstLen := {|
  key_len _ := 1; encoded_len_varint n := if n <? 128 then 1 else 2; uint32_encoded_len _ _ := 2;
  Transaction_encoded_len _ := 100 |}.
Definition toy_state : StateDB := {| db_nonce _ := 0; db_balance _ := 1000 |}.
#[local] Instance quiet_chain : Blockchain := {|
  chain_get_block _ _ := Ok None; chain_get_current_state := Ok toy_state; chain_get_state_at _ := Ok toy_state |}.
Definition toy_instant (n : nat) : Z := Z.of_nat n.
Definition toy_keys (A : Type) (m : gmap Address A) : list Address := (map_to_list m).*1.

(** A transaction signed with [key]. *)
Definition demo_tx (key n fee_ amount : Z) : SignedTransaction :=
  {| tx := {| nonce := n; tx_chain_id := 1; genesis_hash := H256_zero; fee := fee_; value := amount; data := None |};
     sig_r := to_be 32 key; sig_s := H256_zero; sig_v := 1 |}.
Definition demo_config : TxPoolConfig :=
  {| no_locals := false; price_ratio_default := true; price_bump := 10; account_slots := 2; global_slots := 3;
     account_queue := 4; global_queue := 8; life_time := SECOND |}.
Definition demo_pool : TxPool := ok_default
  {| config := demo_config; locals := ∅; current_state := toy_state; pending_nonce := noncer_new toy_state;
     lmpsc := None; queued_events := ∅; pending := ∅; queue := ∅; beats := ∅; all := lookup_new; priced := priced_new;
     changes_since_repack := 0; ticks := 0 |} (TxPool_new (Some demo_config) None).
Definition after {A} (m : poolM A) (p : TxPool) : TxPool := (m p).2.
Definition demo_add (t : SignedTransaction) (p : TxPool) : TxPool :=
  after (add_txs toy_instant toy_keys [t] false) p.

Lemma demo_pool_new : TxPool_new (Some demo_config) None = Ok demo_pool.
Proof. reflexivity. Qed.
Lemma demo_add_reachable t p : pool_reachable toy_instant toy_keys demo_pool p ->
  pool_reachable toy_instant toy_keys demo_pool (demo_add t p).
Proof. intros Hp. eapply reach_step; [exact Hp|apply step_add_txs]. Qed.

Definition pool1 : TxPool := demo_add (demo_tx 1 0 5 10) demo_pool.

(** The first transaction of an account is pending. *)
Lemma pool_reachable_wf_witness : pool_wf pool1 /\ pending_len pool1 (sender (demo_tx 1 0 5 10)) = 1.
Proof.
  split; [|vm_compute; reflexivity].
  apply (pool_reachable_wf toy_instant toy_keys (Some demo_config) None demo_pool pool1 demo_pool_new).
  apply demo_add_reachable, reach_start.
Defined.

Lemma toy_keys_perm A (m : gmap Address A) : Permutation (toy_keys A m) (map_to_list m).*1.
Proof. reflexivity. Qed.
Lemma add_txs_makes_pending_witness :
  exists p', add_txs toy_instant toy_keys [demo_tx 2 0 5 10] false demo_pool = (Ok tt, p') /\
    pool_get p' (tx_hash (demo_tx 2 0 5 10)) = Some (demo_tx 2 0 5 10) /\ lmpsc p' = Some [[demo_tx 2 0 5 10]].
Proof.
  pose proof (add_txs_makes_pending toy_instant toy_keys toy_keys_perm (demo_tx 2 0 5 10) false demo_pool []
    (TxPool_new_wf _ _ _ demo_pool_new) ltac:(vm_compute; reflexivity) ltac:(vm_compute; reflexivity)
    ltac:(vm_compute; reflexivity) ltac:(vm_compute; congruence) ltac:(vm_compute; congruence)
    ltac:(split; vm_compute; congruence) ltac:(split; vm_compute; congruence) ltac:(vm_compute; congruence)
    ltac:(split; vm_compute; congruence) ltac:(vm_compute; congruence) ltac:(vm_compute; reflexivity) ltac:(vm_compute; reflexivity)
    ltac:(split; vm_compute; congruence) ltac:(vm_compute; congruence)) as (p' & H1 & _ & _ & H2 & H3).
  exact (ex_intro _ p' (conj H1 (conj H2 H3))).
Defined.

(** A transaction without a fee, with the nonce of the pending one. *)
Lemma zero_fee_replacement_panics_witness : (add toy_instant (demo_tx 1 0 0 10) false pool1).1 = Panic.
Proof.
  apply (zero_fee_replacement_panics toy_instant (demo_tx 1 0 0 10) (demo_tx 1 0 5 10)
    {| is_strict := true; list_txs := {[0 := demo_tx 1 0 5 10]} |} false pool1).
  all: vm_compute; congruence.
Defined.

(** Nonce 5 is pending, nonce 3 comes later and is queued. *)
Definition pool2 : TxPool := demo_add (demo_tx 1 3 5 10) (demo_add (demo_tx 1 5 5 10) demo_pool).
Lemma remove_tx_leaves_queued_witness :
  pool_has (remove_tx toy_instant (tx_hash (demo_tx 1 3 5 10)) true pool2).2 (tx_hash (demo_tx 1 3 5 10)) = false.
Proof.
  exact (proj1 (remove_tx_leaves_queued (Cr:=toy_crypto) (Pl:=toy_len) toy_instant (demo_tx 1 3 5 10)
    {| is_strict := true; list_txs := {[5 := demo_tx 1 5 5 10]} |}
    {| is_strict := false; list_txs := {[3 := demo_tx 1 3 5 10]} |} pool2 true
    ltac:(vm_compute; reflexivity) ltac:(vm_compute; reflexivity) ltac:(vm_compute; reflexivity)
    ltac:(vm_compute; reflexivity) ltac:(vm_compute; reflexivity))).
Defined.

(** Six transactions of one account and three of another arrive together. *)
Definition crowd : list SignedTransaction :=
  map (fun n => demo_tx 1 n 5 10) [0; 1; 2; 3; 4; 5] ++ map (fun n => demo_tx 2 n 5 11) [0; 1; 2].
Definition crowded : TxPool := after (promote_executable toy_instant (accounts_flatten {[sender (demo_tx 1 0 5 10); sender (demo_tx 2 0 5 10)]}))
  (after (add_txs_locked toy_instant crowd false) demo_pool).
Lemma truncate_pending_total_witness :
  exists p', truncate_pending toy_keys crowded = (Ok tt, p') /\ queue p' = queue crowded.
Proof.
  destruct (truncate_pending_total toy_keys crowded ltac:(vm_compute; congruence)) as (p' & H1 & H2 & _).
  exact (ex_intro _ p' (conj H1 H2)).
Defined.
(** An account can lose every pending transaction although it is guaranteed
    [account_slots] of them: the account whose list sets the threshold is
    shortened together with the greater ones. *)
Theorem guaranteed_slots_lost :
  let p := after (add_remotes toy_instant toy_keys crowd) demo_pool in
  account_slots (config p) = 2 /\ pending_len p (sender (demo_tx 1 0 5 10)) = 3 /\
  pending_len p (sender (demo_tx 2 0 5 11)) = 0.
Proof. vm_compute. repeat split. Qed.

Definition long_queue : TxPool :=
  set_beats {[sender (demo_tx 1 0 5 10) := 0]} 1
    (set_queue {[sender (demo_tx 1 0 5 10) :=
       {| is_strict := false; list_txs := list_to_map (map (fun n => (n, demo_tx 1 n 5 10)) [0; 1; 2; 3; 4; 5; 6; 7; 8]) |}]} demo_pool).
Lemma truncate_queue_panics_witness : (truncate_queue toy_instant toy_keys long_queue).1 = Panic.
Proof.
  eapply (truncate_queue_panics toy_instant toy_keys toy_keys_perm long_queue (sender (demo_tx 1 0 5 10))); [reflexivity|..].
  - intros Hin. vm_compute in Hin. discriminate.
  - apply lookup_singleton_eq.
  - split; vm_compute; reflexivity.
  - vm_compute; reflexivity.
Defined.

(** ** A fork of two blocks *)

Definition demo_block (lvl : Z) (parent_ : H256) (txs : list SignedTransaction) : Block :=
  {| header := {| parent_hash := parent_; receipt_hash := H256_zero; tx_root := H256_zero; state_root := H256_zero;
                  mix_nonce := Z.of_nat (length txs); coinbase := Address_default; difficulty := 0; header_chain_id := 1;
                  level := lvl; time := lvl; header_nonce := 0 |};
     transactions := txs |}.
Definition root_block : Block := demo_block 0 H256_zero [].
(** Nonce 7 is on both branches, nonce 9 only on the old one. *)
Definition old_block : Block := demo_block 1 (block_hash root_block) [demo_tx 1 7 5 10; demo_tx 1 9 5 10].
Definition new_block : Block := demo_block 1 (block_hash root_block) [demo_tx 2 7 5 11].
Definition fork_blocks : list Block := [root_block; old_block; new_block].
Definition find_block (blocks : list Block) (h : H256) (l : Z) : option Block :=
  find (fun b => bool_decide (block_hash b = h) && (block_level b =? l)) blocks.
#[local] Instance fork_chain : Blockchain := {|
  chain_get_block h l := Ok (find_block fork_blocks h l);
  chain_get_current_state := Ok toy_state; chain_get_state_at _ := Ok toy_state |}.

Lemma reinjected_txs_nonces_witness :
  stale_txs (Bc:=fork_chain) (Some (header old_block)) (header new_block) = Ok (Some [demo_tx 1 7 5 10]) /\
  exists u, chain_tx (Bc:=fork_chain) (header_hash (header new_block)) (level (header new_block)) u /\
    tx_nonce u = tx_nonce (demo_tx 1 7 5 10).
Proof.
  assert (E : stale_txs (Bc:=fork_chain) (Some (header old_block)) (header new_block) = Ok (Some [demo_tx 1 7 5 10]))
    by (vm_compute; reflexivity).
  split; [exact E|].
  exact (proj2 (reinjected_txs_nonces (Bc:=fork_chain) (header old_block) (header new_block) _ (demo_tx 1 7 5 10) E
    (list_elem_of_here _ _))).
Defined.

Lemma find_block_spec blocks h l b : Ok (E:=anyhow) (find_block blocks h l) = Ok (Some b) ->
  b ∈ blocks /\ block_level b = l.
Proof.
  intros [= E]. apply find_some in E as [Hin [_ Hl]%andb_true_iff].
  split; [now apply list_elem_of_In|now apply Z.eqb_eq].
Qed.
Lemma fork_levels b : b ∈ fork_blocks -> block_level b < 2.
Proof. unfold fork_blocks. rewrite !elem_of_cons, elem_of_nil. intros [->|[->|[->|[]]]]; reflexivity. Qed.
