(* ===== verification/Node.v ===== *)
(** * The chain and the pool together

    The transaction pool of crate txpool behind the interface through which
    [ChainState::put_chain] tells it about a new head: the pool reads blocks and
    states from the chain ([Blockchain] and [StateDB] of crate traits), and
    keeps its invariant whatever the chain hands it. *)
From S2P Require Import Prelude Crypto Types Consensus Smt Codec SmtTree SmtProofs SmtTheorems TreeDb Storage State StateProofs.
From S2P Require Import Chain Replay ChainProofs.
From S2P Require PrQue TxList TxPool TxPoolProofs.
Import TxList (ProstLen, StateDB, accounts_new).
Import TxPool (Blockchain).

Section Node.
Context `{CryptoLaws} `{BincodeLaws} `{ChainCodecs} `{WasmVMInstance} `{!WasmVMLaws} `{ProstLen}.
Context (instant : nat -> Z) (hash_keys : forall A, gmap Address A -> list Address).
(** Loading and creating applications; the text of an error of the pool. *)
Context (load : State -> Address -> result anyhow unit)
        (create : State -> Address -> Address -> Z -> bytes -> result anyhow (bytes * Changelist))
        (pool_error : TxPool.TxPoolError -> anyhow).

(** [impl StateDB for State] and [impl Blockchain for ChainState], as the pool
    uses them.  [State::account_state] gives the default account, with nonce and
    balance 0, when the tree answers with an error.  A read that does not return
    ([get_descend_stuck] in TreeDb.v: only on trees whose roots repeat) has no
    value here: theorems on the pool hold for every view. *)
Definition state_view (s : State) : StateDB :=
  {| TxList.db_nonce a := ok_default 0 (state_nonce s a); TxList.db_balance a := ok_default 0 (balance s a) |}.
Definition chain_view (s : State) (store : MemStore) : Blockchain :=
  {| TxPool.chain_get_block := BS_get_block store;
     TxPool.chain_get_current_state := Ok (state_view s);
     TxPool.chain_get_state_at root := s' ← get_sate_at s root; Ok (state_view s') |}.

Definition pool_repack (s : State) (store : MemStore) (old : option BlockHeader) (new : BlockHeader)
    (p : TxPool.TxPool) : result anyhow unit * TxPool.TxPool :=
  match TxPool.repack (Bc:=chain_view s store) instant hash_keys accounts_new (Some (TxPool.ResetRequest_new old new)) p with
  | (Ok _, p) => (Ok tt, p)
  | (Err e, p) => (Err (pool_error e), p)
  | (Panic, p) => (Panic, p)
  end.
Definition node_services : ChainServices :=
  {| load_application := load; create_application := create; Chain.TxPool := TxPool.TxPool; Chain.repack := pool_repack |}.
#[local] Existing Instance node_services.

Lemma pool_repack_wf s store old new p : TxPoolProofs.pool_wf p -> TxPoolProofs.pool_wf (pool_repack s store old new p).2.
Proof.
  intros Hp. unfold pool_repack.
  pose proof (proj1 (TxPoolProofs.kept_repack (Bc:=chain_view s store) instant hash_keys accounts_new
    (Some (TxPool.ResetRequest_new old new)) p Hp)) as Hk.
  now destruct (TxPool.repack _ _ _ _ _) as [[]].
Qed.
End Node.

(** ** A node evaluated *)

#[local] Existing Instances easy_crypto easy_crypto_laws no_machine no_machine_laws.
#[local] Instance node_len : ProstLen := {|
  TxList.key_len _ := 1; TxList.encoded_len_varint _ := 1; TxList.uint32_encoded_len _ _ := 2;
  TxList.Transaction_encoded_len _ := 100 |}.
Definition node_keys (A : Type) (m : gmap Address A) : list Address := (map_to_list m).*1.
#[local] Instance demo_services : ChainServices :=
  node_services (fun _ => 0) node_keys (fun _ _ => Ok tt) (fun _ _ _ _ _ => Err "no machine"%string) (fun _ => "pool"%string).
Definition demo_txpool : TxPool.TxPool :=
  ok_default
    {| TxPool.config := TxPool.DEFAULT_TX_POOL_CONFIG; TxPool.locals := ∅;
       TxPool.current_state := state_view (cs_state demo_chain);
       TxPool.pending_nonce := TxList.noncer_new (state_view (cs_state demo_chain)); TxPool.lmpsc := None;
       TxPool.queued_events := ∅; TxPool.pending := ∅; TxPool.queue := ∅; TxPool.beats := ∅;
       TxPool.all := TxList.lookup_new; TxPool.priced := TxList.priced_new; TxPool.changes_since_repack := 0;
       TxPool.ticks := 0 |}
    (TxPool.TxPool_new (Bc:=chain_view (cs_state demo_chain) (cs_store demo_chain)) None None).
Definition node0 : Node := {| node_chain := demo_chain; node_pool := demo_txpool |}.

Lemma demo_txpool_new :
  TxPool.TxPool_new (Bc:=chain_view (cs_state demo_chain) (cs_store demo_chain)) None None = Ok demo_txpool.
Proof. reflexivity. Qed.
