(* ===== verification/Peers.v ===== *)
(** * The peers of a node

    [PeerList] and [NetworkState] (src/p2p/src/peer_manager.rs): the addresses of
    the connected peers, the heads they announced and the peer whose head is the
    highest.  Events go to the node through a channel, [None] when its receiver
    is gone.  The highest peer always has a recorded head; that head is the one
    it had when it became the highest, however far it moves since. *)
From S2P Require Import Prelude Crypto Types.

(** [LocalEventMessage] (src/common/types/src/events.rs) *)
Inductive LocalEventMessage :=
| MindedBlock (b : Block)
| BroadcastTx (txs : list SignedTransaction)
| TxPoolPack (txs : list SignedTransaction)
| StateChanged (current_head : BlockHeader)
| NetworkHighestHeadChanged (peer_id : str) (tip : option BlockHeader)
| NetworkNewPeerConnection (stats : Z * Z) (peer_id : str).

Section Peers.
(** [libp2p::PeerId] with its text, and [libp2p::Multiaddr] *)
Context {PeerId : Type} `{Countable PeerId} (peer_to_string : PeerId -> str) {Multiaddr : Type}.

Record NetworkState := {
  peer_list : gmap PeerId Multiaddr;
  peer_state : gmap PeerId BlockHeader;
  highest_know_head : option PeerId;
  ns_sender : option (list LocalEventMessage);
}.
Definition NetworkState_new (sender : option (list LocalEventMessage)) : NetworkState :=
  {| peer_list := ∅; peer_state := ∅; highest_know_head := None; ns_sender := sender |}.
Definition set_peer_list (l : gmap PeerId Multiaddr) (n : NetworkState) : NetworkState :=
  {| peer_list := l; peer_state := peer_state n; highest_know_head := highest_know_head n; ns_sender := ns_sender n |}.
Definition set_peer_state (s : gmap PeerId BlockHeader) (n : NetworkState) : NetworkState :=
  {| peer_list := peer_list n; peer_state := s; highest_know_head := highest_know_head n; ns_sender := ns_sender n |}.
Definition set_highest (p : option PeerId) (n : NetworkState) : NetworkState :=
  {| peer_list := peer_list n; peer_state := peer_state n; highest_know_head := p; ns_sender := ns_sender n |}.
Definition set_sender (s : option (list LocalEventMessage)) (n : NetworkState) : NetworkState :=
  {| peer_list := peer_list n; peer_state := peer_state n; highest_know_head := highest_know_head n; ns_sender := s |}.

(** ** PeerList *)
Definition set_peer_address (peer : PeerId) (addr : Multiaddr) (n : NetworkState) : NetworkState :=
  set_peer_list (<[peer := addr]> (peer_list n)) n.
Definition peer_stats (n : NetworkState) : Z * Z := (0, Z.of_nat (size (peer_list n))).
Definition get_peer (peer : PeerId) (n : NetworkState) : option PeerId :=
  match peer_list n !! peer with Some _ => Some peer | None => None end.

(** ** NetworkState *)
Definition send_local (e : LocalEventMessage) : stM NetworkState anyhow unit := fun n =>
  match ns_sender n with
  | Some l => (Ok tt, set_sender (Some (l ++ [e])) n)
  | None => (Err "channel closed"%string, n)
  end.
Definition handle_new_peer_connected (peer : PeerId) : stM NetworkState anyhow unit :=
  n ← gets (fun n => n);
  send_local (NetworkNewPeerConnection (peer_stats n) (peer_to_string peer)).

Definition update_peer_current_head (peer : PeerId) (head : BlockHeader) : stM NetworkState anyhow unit :=
  n ← gets (fun n => n);
  match highest_know_head n with
  | Some highest =>
      _ ← (if negb (bool_decide (highest = peer)) then
             current ← lift (ok_or_else (peer_state n !! highest) "Current highest peer not found");
             if level current <? level head then
               modify (fun n => set_peer_state (<[peer := head]> (peer_state n)) (set_highest (Some peer) n))
             else mret tt
           else mret tt);
      send_local (NetworkHighestHeadChanged (peer_to_string peer) (Some head))
  | None =>
      _ ← modify (fun n => set_peer_state (<[peer := head]> (peer_state n)) (set_highest (Some peer) n));
      _ ← (match peer_state n !! peer with
           | None => handle_new_peer_connected peer
           | Some _ => mret tt
           end);
      send_local (NetworkHighestHeadChanged (peer_to_string peer) (Some head))
  end.

Definition get_peer_state (peer : PeerId) (n : NetworkState) : option BlockHeader := peer_state n !! peer.
Definition highest_peer (n : NetworkState) : option str := option_map peer_to_string (highest_know_head n).
Definition network_head (n : NetworkState) : option BlockHeader :=
  match highest_know_head n with None => None | Some p => peer_state n !! p end.

Definition remove_peer (peer : PeerId) : stM NetworkState anyhow unit :=
  _ ← modify (fun n =>
        if bool_decide (highest_know_head n = Some peer) then set_highest None n else n);
  _ ← modify (fun n => set_peer_state (delete peer (peer_state n)) n);
  _ ← modify (fun n => set_peer_list (delete peer (peer_list n)) n);
  n ← gets (fun n => n);
  send_local (NetworkHighestHeadChanged (peer_to_string peer) (network_head n)).

(** ** The highest peer *)

(** The states the operations lead to from the initial one, whatever they
    answer. *)
Inductive peers_reachable : NetworkState -> Prop :=
| peers_new sender : peers_reachable (NetworkState_new sender)
| peers_address p a n : peers_reachable n -> peers_reachable (set_peer_address p a n)
| peers_update p h n : peers_reachable n -> peers_reachable (update_peer_current_head p h n).2
| peers_remove p n : peers_reachable n -> peers_reachable (remove_peer p n).2
| peers_closed n : peers_reachable n -> peers_reachable (set_sender None n).

Definition highest_recorded (n : NetworkState) : Prop :=
  forall p, highest_know_head n = Some p -> is_Some (peer_state n !! p).

(** The data a message leaves, apart from the channel. *)
Definition same_peers (n n' : NetworkState) : Prop :=
  peer_list n' = peer_list n /\ peer_state n' = peer_state n /\ highest_know_head n' = highest_know_head n.
Lemma send_local_same e n : same_peers n (send_local e n).2.
Proof. unfold send_local. destruct (ns_sender n); repeat split. Qed.

Ltac sent :=
  match goal with |- context [send_local ?e ?m] =>
    let E1 := fresh in let E2 := fresh in destruct (send_local_same e m) as (_ & E1 & E2); rewrite ?E1, ?E2; clear E1 E2
  end.

(** What an update does, on each of its branches. *)
Lemma update_cases p h n :
  let n' := (update_peer_current_head p h n).2 in
  (peer_state n' = <[p := h]> (peer_state n) /\ highest_know_head n' = Some p /\
    (highest_know_head n = None \/
     exists q hq, highest_know_head n = Some q /\ q <> p /\ peer_state n !! q = Some hq /\ level hq < level h)) \/
  (peer_state n' = peer_state n /\ highest_know_head n' = highest_know_head n /\ exists q, highest_know_head n = Some q).
Proof.
  cbv [update_peer_current_head handle_new_peer_connected mbind stM_bind gets modify lift mret stM_ret ok_or_else ok_or].
  destruct (highest_know_head n) as [q|] eqn:Hq.
  - case_bool_decide as Hp; cbn [negb].
    { right. sent. rewrite Hq. eauto. }
    destruct (peer_state n !! q) as [hq|] eqn:Es; [|right; cbn [snd]; rewrite Hq; eauto].
    destruct (Z.ltb_spec (level hq) (level h)).
    + left. sent. split; [easy|]. split; [easy|]. right. exists q, hq. auto.
    + right. sent. rewrite Hq. eauto.
  - left. set (n1 := set_peer_state _ _). destruct (peer_state n !! p).
    { sent. auto. }
    match goal with |- context [send_local ?e n1] => pose proof (send_local_same e n1) as (_ & S1 & S2);
      destruct (send_local e n1) as [r n2] end.
    cbn [snd] in *. destruct r; [sent|..]; cbn [snd]; rewrite S1, S2; auto.
Qed.

Lemma highest_recorded_update p h n :
  highest_recorded n -> highest_recorded (update_peer_current_head p h n).2.
Proof.
  intros Hn q. destruct (update_cases p h n) as [(-> & -> & _)|(-> & -> & _)]; [|apply Hn].
  intros [= <-]. rewrite lookup_insert_eq. eauto.
Qed.
Lemma remove_peer_spec p n :
  peer_state (remove_peer p n).2 = delete p (peer_state n) /\
  highest_know_head (remove_peer p n).2 = (if bool_decide (highest_know_head n = Some p) then None else highest_know_head n).
Proof.
  cbv [remove_peer mbind stM_bind gets modify]. sent. by case_bool_decide.
Qed.
Lemma highest_recorded_remove p n : highest_recorded n -> highest_recorded (remove_peer p n).2.
Proof.
  intros Hn q. destruct (remove_peer_spec p n) as [-> ->]. case_bool_decide as Hp; [easy|].
  intros Hq. rewrite lookup_delete_ne by congruence. by apply Hn.
Qed.
Lemma peers_reachable_recorded n : peers_reachable n -> highest_recorded n.
Proof.
  induction 1; [easy|exact IHpeers_reachable|by apply highest_recorded_update|by apply highest_recorded_remove|exact IHpeers_reachable].
Qed.

(** The record of the highest peer is never missing: in every state the peer
    manager reaches, the highest peer has a recorded head, which is the network
    head, and an announcement is processed without an error as long as the node
    listens. *)
Theorem update_peer_current_head_returns p h n :
  peers_reachable n -> ns_sender n <> None ->
  (update_peer_current_head p h n).1 = Ok tt /\
  (highest_know_head n <> None -> exists hd, network_head n = Some hd).
Proof.
  intros Hr Hs. pose proof (peers_reachable_recorded n Hr) as Hn. split.
  - destruct (ns_sender n) as [l|] eqn:El; [|easy].
    cbv [update_peer_current_head handle_new_peer_connected mbind stM_bind gets modify lift mret stM_ret ok_or_else ok_or].
    destruct (highest_know_head n) as [q|] eqn:Hq.
    + destruct (Hn q Hq) as [hq ->].
      destruct (negb _); [destruct (_ <? _)|]; unfold send_local; cbn [ns_sender set_peer_state set_highest]; by rewrite El.
    + destruct (peer_state n !! p); unfold send_local; cbn [ns_sender set_peer_state set_highest]; by rewrite El.
  - unfold network_head. destruct (highest_know_head n) as [q|] eqn:Hq; [|easy]. intros _. apply Hn, Hq.
Qed.

(** The head of the highest peer is not followed: however far the highest peer
    announces to have moved, the network head the miner and the synchronisation
    compare with stays the head it had when it became the highest, while the
    node is told about the new one. *)
Theorem highest_head_not_followed p h n :
  highest_know_head n = Some p ->
  network_head (update_peer_current_head p h n).2 = network_head n /\
  (forall l, ns_sender n = Some l ->
    ns_sender (update_peer_current_head p h n).2 =
      Some (l ++ [NetworkHighestHeadChanged (peer_to_string p) (Some h)])).
Proof.
  intros Hp. cbv [update_peer_current_head mbind stM_bind gets mret stM_ret]. rewrite Hp.
  rewrite bool_decide_eq_true_2 by easy. cbn [negb]. split.
  - unfold network_head. sent. easy.
  - intros l Hl. unfold send_local. by rewrite Hl.
Qed.
End Peers.

(** ** Peers evaluated *)

Definition head_at (l : Z) : BlockHeader :=
  {| parent_hash := []; receipt_hash := []; tx_root := []; state_root := []; mix_nonce := 0; coinbase := [];
     difficulty := 0; header_chain_id := 0; level := l; time := 0; header_nonce := 0 |}.
Definition one_peer : NetworkState (PeerId:=Z) (Multiaddr:=unit) :=
  (update_peer_current_head (fun _ => []) 1 (head_at 10) (NetworkState_new (Some []))).2.

Lemma update_peer_current_head_returns_witness :
  (update_peer_current_head (fun _ => []) 2 (head_at 20) one_peer).1 = Ok tt.
Proof.
  refine (proj1 (update_peer_current_head_returns (fun _ => []) 2 (head_at 20) one_peer _ _)).
  - exact (peers_update (fun _ => []) 1 (head_at 10) _ (peers_new (fun _ => []) (Some []))).
  - discriminate.
Defined.
(** The first peer moves from level 10 to level 500; the network head stays. *)
Lemma highest_head_not_followed_witness :
  network_head (update_peer_current_head (fun _ => []) 1 (head_at 500) one_peer).2 = Some (head_at 10).
Proof.
  exact (proj1 (highest_head_not_followed (fun _ => []) 1 (head_at 500) one_peer eq_refl)).
Defined.

(** When the highest peer leaves, the next announcement makes its sender the
    highest, below the recorded head of another peer. *)
Definition three_peers : NetworkState (PeerId:=Z) (Multiaddr:=unit) :=
  (update_peer_current_head (fun _ => []) 3 (head_at 5)
    (remove_peer (fun _ => []) 2
      (update_peer_current_head (fun _ => []) 2 (head_at 20) one_peer).2).2).2.
Lemma lower_peer_takes_over :
  highest_know_head three_peers = Some 3 /\ network_head three_peers = Some (head_at 5) /\
  get_peer_state 1 three_peers = Some (head_at 10).
Proof. vm_compute. auto. Qed.
