(* ===== verification/Requests.v ===== *)
(** * Requests between nodes

    The messages of src/p2p/src/message.rs and [RequestHandler::handle]
    (src/p2p/src/request_handler.rs), which answers a peer from the stored
    blocks.  The headers it sends are the stored ones of consecutive levels, at
    most two thousand; a request for headers from a peer whose head is not
    recorded stops the network task when the start is unknown. *)
From S2P Require Import Prelude Crypto Types Consensus Codec Storage TreeDb State Chain Peers.

(** [Msg], the fields of each message in order *)
Inductive Msg :=
| GetCurrentHead (block_header : option BlockHeader)
| CurrentHead (block_header : option BlockHeader)
| GetBlockHeader (from : H256) (to : option H256)
| GetBlocks (block_hashes : list H256)
| FindBlocks (from limit : Z)
| MsgBlockHeader (block_headers : list BlockHeader)
| Blocks (blocks : list Block)
| BroadcastTransaction (tx : list SignedTransaction)
| BroadcastBlock (block : option Block).

Section RequestHandler.
Context `{ChainCodecs} `{CryptoPrims}.

(** [BlockStorage::get_blocks] of the backend in use: an iterator of RocksDB, not
    implemented by the in-memory store ([BS_get_blocks]). *)
Variable get_blocks : MemStore -> H256 -> Z -> result anyhow (list (result anyhow Block)).

(** [collect] into a [Result] *)
Fixpoint collect {A} (l : list (result anyhow A)) : result anyhow (list A) :=
  match l with
  | [] => Ok []
  | r :: l => x ← r; xs ← collect l; Ok (x :: xs)
  end.

(** The loop of [Msg::GetBlockHeader]; [headers] are those collected so far. *)
Fixpoint header_loop (fuel : nat) (s : MemStore) (to : option H256) (level : Z) (headers : list BlockHeader) :
    result anyhow (list BlockHeader) :=
  match fuel with
  | O => Panic
  | S fuel =>
      match BS_get_header_by_level s level with
      | Ok (Some block) =>
          let header := raw block in
          if (2000 <=? length headers)%nat then Ok headers
          else if bool_decide (Some (header_hash header) = to) then Ok (headers ++ [header])
          else header_loop fuel s to (u32 (level + 1)) (headers ++ [header])
      | Panic => Panic
      | _ => Ok headers
      end
  end.

(** The loop of [Msg::GetBlocks]: it stops at the first block that is missing. *)
Fixpoint blocks_loop (s : MemStore) (hashes : list H256) : result anyhow (list Block) :=
  match hashes with
  | [] => Ok []
  | hash :: hashes =>
      match BS_get_block_by_hash s hash with
      | Ok (Some block) => blocks ← blocks_loop s hashes; Ok (block :: blocks)
      | Panic => Panic
      | _ => Ok []
      end
  end.

Definition handle_request {PeerId Multiaddr : Type} `{Countable PeerId} (n : NetworkState (PeerId:=PeerId) (Multiaddr:=Multiaddr))
    (s : MemStore) (peer : PeerId) (request : Msg) : result anyhow (option Msg) :=
  match request with
  | GetCurrentHead _ =>
      match get_current_header s with
      | Ok (Some current_head) => Ok (Some (CurrentHead (Some current_head)))
      | Panic => Panic
      | _ => Ok None
      end
  | GetBlockHeader from to =>
      let answer (level : Z) := headers ← header_loop 2001 s to level []; Ok (Some (MsgBlockHeader headers)) in
      match BS_get_block_by_hash s from with
      | Ok (Some block) => answer (level (header block))
      | Panic => Panic
      | _ =>
          peer_current_state ← unwrap (get_peer_state peer n);
          match BS_get_block_by_hash s (parent_hash peer_current_state) with
          | Ok (Some block) => answer (level (header block))
          | Panic => Panic
          | _ => Ok (Some (MsgBlockHeader []))
          end
      end
  | FindBlocks from limit =>
      match get_blocks s H256_zero from with
      | Ok blocks =>
          match collect (take (Z.to_nat limit) blocks) with
          | Ok blocks => Ok (Some (Blocks blocks))
          | Err _ => Ok (Some (Blocks []))
          | Panic => Panic
          end
      | _ => Panic
      end
  | GetBlocks hashes =>
      blocks ← blocks_loop s hashes;
      Ok (Some (Blocks (if Nat.eqb (length blocks) (length hashes) then blocks else [])))
  | _ => Ok None
  end.

(** ** What is served *)

(** The stored header of a level, when reading does not stop the task. *)
Definition served (s : MemStore) (level : Z) (h : BlockHeader) : Prop :=
  exists ih, BS_get_header_by_level s level = Ok (Some ih) /\ raw ih = h.
Definition reads (s : MemStore) : Prop :=
  (forall l, BS_get_header_by_level s l <> Panic) /\ (forall h, BS_get_block_by_hash s h <> Panic).

Definition level_after (i : nat) (lvl : Z) : Z := Nat.iter i (fun l => u32 (l + 1)) lvl.

(** [hs] are the stored headers of the levels from [lvl] on, after [k] earlier
    ones, up to the limit, the first with the wanted hash or the first level
    without a header. *)
Record headers_from (s : MemStore) (to : option H256) (lvl : Z) (k : nat) (hs : list BlockHeader) : Prop := {
  hf_limit : (k + length hs <= 2000)%nat;
  hf_served i h : hs !! i = Some h -> served s (level_after i lvl) h;
  hf_before i h : hs !! i = Some h -> (S i < length hs)%nat -> Some (header_hash h) <> to;
  hf_end : (k + length hs = 2000)%nat \/
    (exists init h, hs = init ++ [h] /\ Some (header_hash h) = to) \/
    forall h, ~ served s (level_after (length hs) lvl) h;
}.

Lemma header_loop_spec s to fuel lvl hs :
  reads s -> (2000 < length hs + fuel)%nat -> (length hs <= 2000)%nat ->
  exists more, header_loop fuel s to lvl hs = Ok (hs ++ more) /\ headers_from s to lvl (length hs) more.
Proof.
  intros [R _]. revert lvl hs. induction fuel as [|fuel IH]; intros lvl hs F L; [lia|].
  cbn [header_loop]. pose proof (R lvl) as Rl.
  assert ((forall h, ~ served s lvl h) \/ length hs = 2000%nat ->
    exists more, Ok (E:=anyhow) hs = Ok (hs ++ more) /\ headers_from s to lvl (length hs) more) as Stop.
  { intros St. exists []. rewrite app_nil_r. split; [easy|]. split; [cbn; lia|easy|easy|cbn [length]; rewrite Nat.add_0_r].
    destruct St; auto. }
  destruct (BS_get_header_by_level s lvl) as [[block|]|e|] eqn:E; [| | |easy].
  2,3: apply Stop; left; intros h (ih & E' & _); congruence.
  destruct (Nat.leb_spec 2000 (length hs)) as [Full|Room]; [apply Stop; right; lia|].
  assert (served s lvl (raw block)) as Hs by (exists block; auto).
  case_bool_decide as Ht.
  - exists [raw block]. split; [easy|]. split; [cbn; lia| |cbn; lia|right; left; exists [], (raw block); auto].
    intros [|i] h E'; [injection E' as <-; exact Hs|destruct i; discriminate].
  - destruct (IH (u32 (lvl + 1)) (hs ++ [raw block])) as (more & E1 & [L1 S1 B1 C1]); [rewrite length_app; cbn; lia..|].
    rewrite length_app in L1, C1. cbn [length] in L1, C1.
    exists (raw block :: more). rewrite E1, <- app_assoc. split; [easy|]. split; cbn [length].
    + lia.
    + intros [|i] h E'; [injection E' as <-; exact Hs|]. unfold level_after. rewrite Nat.iter_succ_r. now apply S1.
    + intros [|i] h E' Hi; [injection E' as <-; congruence|]. apply (B1 i h E'). lia.
    + destruct C1 as [C1|[(init & h & -> & Hh)|C1]]; [left; lia|right; left|right; right].
      * now exists (raw block :: init), h.
      * intros h. unfold level_after. rewrite Nat.iter_succ_r. apply C1.
Qed.

(** The blocks asked for, as far as the first that is missing. *)
Definition found_block (s : MemStore) (h : H256) (b : Block) : Prop := BS_get_block_by_hash s h = Ok (Some b).
Lemma blocks_loop_spec s hashes :
  reads s -> exists blocks, blocks_loop s hashes = Ok blocks /\
    (Forall2 (found_block s) hashes blocks \/
     (length blocks < length hashes)%nat /\ exists h, h ∈ hashes /\ forall b, ~ found_block s h b).
Proof.
  intros [_ R]. unfold found_block. induction hashes as [|hash hashes IH]; cbn [blocks_loop]; [exists []; split; [easy|now left]|].
  pose proof (R hash) as Rh. destruct (BS_get_block_by_hash s hash) as [[b|]|e|] eqn:E; [| | |easy].
  2,3: exists []; split; [easy|right; split; [cbn; lia|]]; exists hash; split; [left|congruence].
  destruct IH as (blocks & -> & Hb). exists (b :: blocks). split; [easy|].
  destruct Hb as [Hb|(L & h & Hh & Hn)]; [left; now constructor|right]. split; [cbn; lia|]. exists h. split; [now right|exact Hn].
Qed.

(** C28 Serving headers and blocks, as long as reading the store does not panic.
    A request for headers from a stored block is answered with the stored headers
    of consecutive levels from the block's own, at most two thousand: the answer
    ends at that limit, with the first header that has the wanted hash, or before
    the first level without a header, and no earlier.  A request for blocks by
    hash is answered with all of them, in order, when all are stored, and with
    none otherwise. *)
Theorem requests_served {PeerId Multiaddr : Type} `{Countable PeerId}
    (n : NetworkState (PeerId:=PeerId) (Multiaddr:=Multiaddr)) s peer from to b hashes :
  reads s -> BS_get_block_by_hash s from = Ok (Some b) ->
  (exists hs, handle_request n s peer (GetBlockHeader from to) = Ok (Some (MsgBlockHeader hs)) /\
    headers_from s to (level (header b)) 0 hs) /\
  exists blocks, handle_request n s peer (GetBlocks hashes) = Ok (Some (Blocks blocks)) /\
    (Forall2 (found_block s) hashes blocks \/
     blocks = [] /\ exists h, h ∈ hashes /\ forall b, ~ found_block s h b).
Proof.
  intros R Hb. split.
  - cbn [handle_request]. rewrite Hb.
    destruct (header_loop_spec s to 2001 (level (header b)) [] R) as (hs & -> & Hf); [cbn; lia..|]. eauto.
  - cbn [handle_request]. destruct (blocks_loop_spec s hashes R) as (bs & -> & Hbs). cbn [mbind result_bind].
    eexists. split; [reflexivity|]. destruct Hbs as [Hbs|(L & Hm)].
    + left. now rewrite (proj2 (Nat.eqb_eq _ _)) by (symmetry; exact (Forall2_length Hbs)).
    + right. now rewrite (proj2 (Nat.eqb_neq _ _)) by lia.
Qed.

(** A peer that is not ahead stops the network task: the head it announces is
    not recorded when it is not above the highest one, and its request for
    headers from a block that is not stored makes the handler panic. *)
Theorem lower_peer_panics {PeerId Multiaddr : Type} `{Countable PeerId} (peer_to_string : PeerId -> str)
    (n : NetworkState (PeerId:=PeerId) (Multiaddr:=Multiaddr)) s p h q hq from to :
  highest_know_head n = Some q -> peer_state n !! q = Some hq -> peer_state n !! p = None -> level h <= level hq ->
  BS_get_block_by_hash s from = Ok None ->
  handle_request (update_peer_current_head peer_to_string p h n).2 s p (GetBlockHeader from to) = Panic.
Proof.
  intros Hq Hs Hp Hl Hb. cbn [handle_request]. rewrite Hb. unfold get_peer_state.
  destruct (update_cases peer_to_string p h n) as [(_ & _ & [E|(q' & hq' & E & _ & Es & Lt)])|(-> & _)].
  - congruence.
  - assert (hq' = hq) as -> by congruence. lia.
  - now rewrite Hp.
Qed.
End RequestHandler.

(** ** Requests evaluated *)

Definition served_block : Block := {| header := example_header; transactions := [] |}.
Definition served_store : MemStore := (BlockStorage_put served_block (MemStore_new column_family_names)).2.

Lemma lower_peer_panics_witness :
  handle_request BS_get_blocks (update_peer_current_head (fun _ => []) 2 (head_at 10) one_peer).2
    (MemStore_new column_family_names) 2 (GetBlockHeader (header_hash example_header) None) = Panic.
Proof.
  refine (lower_peer_panics BS_get_blocks (fun _ => []) one_peer (MemStore_new column_family_names) 2 (head_at 10) 1 (head_at 10) _ None _ _ _ _ _);
    [vm_compute; reflexivity..|cbn; lia|vm_compute; reflexivity].
Defined.

Definition level_entry : Column :=
  {[to_be 4 (level example_header) := BlockPrimaryKey_encode (block_key example_header)]}.
Lemma served_level_column : MemStore_column served_store (s_column BlockByLevel) = Ok level_entry.
Proof. vm_compute. reflexivity. Qed.
Definition hash_entry : Column :=
  {[header_hash example_header := BlockPrimaryKey_encode (block_key example_header)]}.
Lemma served_hash_column : MemStore_column served_store (s_column BlockByHash) = Ok hash_entry.
Proof. vm_compute. reflexivity. Qed.
Lemma served_block_found : BS_get_block_by_hash served_store (header_hash example_header) = Ok (Some served_block).
Proof. vm_compute. reflexivity. Qed.
Lemma served_store_reads : reads served_store.
Proof.
  split.
  - intros l. unfold BS_get_header_by_level, KV_get at 1. cbn [encode key_codec BlockByLevel codec_u32 codec_uint mbind result_bind].
    rewrite served_level_column. cbn [mbind result_bind].
    destruct (level_entry !! _) as [v|] eqn:E; [|discriminate].
    unfold level_entry in E. apply lookup_singleton_Some in E as [_ <-]. vm_compute. discriminate.
  - intros h. destruct (decide (header_hash example_header = h)) as [<-|Hne]; [now rewrite served_block_found|].
    unfold BS_get_block_by_hash, KV_get at 1. cbn [encode key_codec BlockByHash codec_H256 codec_fixed mbind result_bind].
    rewrite served_hash_column. cbn [mbind result_bind].
    assert (hash_entry !! h = None) as E by (unfold hash_entry; now apply lookup_singleton_ne).
    rewrite E. discriminate.
Qed.
Lemma requests_served_witness :
  (exists hs, handle_request BS_get_blocks one_peer served_store 1 (GetBlockHeader (header_hash example_header) None)
    = Ok (Some (MsgBlockHeader hs)) /\ headers_from served_store None (level example_header) 0 hs) /\
  handle_request BS_get_blocks one_peer served_store 1 (GetBlocks [header_hash example_header])
    = Ok (Some (Blocks [served_block])).
Proof.
  destruct (requests_served BS_get_blocks one_peer served_store 1 (header_hash example_header) None served_block
    [header_hash example_header] served_store_reads served_block_found) as [Hh _].
  split; [exact Hh|]. vm_compute. reflexivity.
Defined.
