(* ===== verification/Sync.v ===== *)
(** * Synchronisation and the event loop of the node

    [SyncService] (src/node/src/sync.rs): asking the highest peer for blocks,
    checking and ordering what it sends, putting it on the chain, and going back
    when no common ancestor is found; and the event loop of src/node/src/node.rs
    that hands it the messages.  The chain is that of Chain.v; the loop is over
    the chain and the pool of Node.v. *)
From S2P Require Import Prelude Crypto Types Consensus Smt Codec SmtTree TreeDb Storage State Chain Peers Requests.

Inductive SyncMode := Forward | Backward | Normal.
Record NodeToPeerMessage := { peer_id : option str; message : Msg }.

Section Sync.
Context `{CryptoPrims} `{Bincode} `{ChainCodecs} `{WasmVMInstance} `{ChainServices}.
Variable hash_order : Column -> list (bytes * bytes).
Variable network : Network.
Variable clock : BlockHeader -> Z.

(** The service with the chain and the pool it shares with the node, and the
    messages sent to peers, [None] when the receiver is gone. *)
Record SyncService := {
  sy_node : Node;
  sync_mode : SyncMode;
  last_request_index : Z;
  finder_multiplier : Z;
  network_tip : BlockHeader;
  sy_highest_peer : str;
  sy_sender : option (list NodeToPeerMessage);
  tip_before_sync : option (str * BlockHeader);
}.
Definition set_sy_node (n : Node) (y : SyncService) : SyncService :=
  {| sy_node := n; sync_mode := sync_mode y; last_request_index := last_request_index y;
     finder_multiplier := finder_multiplier y; network_tip := network_tip y; sy_highest_peer := sy_highest_peer y;
     sy_sender := sy_sender y; tip_before_sync := tip_before_sync y |}.
Definition set_sync_mode (m : SyncMode) (y : SyncService) : SyncService :=
  {| sy_node := sy_node y; sync_mode := m; last_request_index := last_request_index y;
     finder_multiplier := finder_multiplier y; network_tip := network_tip y; sy_highest_peer := sy_highest_peer y;
     sy_sender := sy_sender y; tip_before_sync := tip_before_sync y |}.
Definition set_last_request (i : Z) (y : SyncService) : SyncService :=
  {| sy_node := sy_node y; sync_mode := sync_mode y; last_request_index := i;
     finder_multiplier := finder_multiplier y; network_tip := network_tip y; sy_highest_peer := sy_highest_peer y;
     sy_sender := sy_sender y; tip_before_sync := tip_before_sync y |}.
Definition set_finder (k : Z) (y : SyncService) : SyncService :=
  {| sy_node := sy_node y; sync_mode := sync_mode y; last_request_index := last_request_index y;
     finder_multiplier := k; network_tip := network_tip y; sy_highest_peer := sy_highest_peer y;
     sy_sender := sy_sender y; tip_before_sync := tip_before_sync y |}.
Definition set_tip (tip : BlockHeader) (peer : str) (y : SyncService) : SyncService :=
  {| sy_node := sy_node y; sync_mode := sync_mode y; last_request_index := last_request_index y;
     finder_multiplier := finder_multiplier y; network_tip := tip; sy_highest_peer := peer;
     sy_sender := sy_sender y; tip_before_sync := tip_before_sync y |}.
Definition set_sy_sender (s : option (list NodeToPeerMessage)) (y : SyncService) : SyncService :=
  {| sy_node := sy_node y; sync_mode := sync_mode y; last_request_index := last_request_index y;
     finder_multiplier := finder_multiplier y; network_tip := network_tip y; sy_highest_peer := sy_highest_peer y;
     sy_sender := s; tip_before_sync := tip_before_sync y |}.
Definition set_tip_before (t : option (str * BlockHeader)) (y : SyncService) : SyncService :=
  {| sy_node := sy_node y; sync_mode := sync_mode y; last_request_index := last_request_index y;
     finder_multiplier := finder_multiplier y; network_tip := network_tip y; sy_highest_peer := sy_highest_peer y;
     sy_sender := sy_sender y; tip_before_sync := t |}.

(** The level of the current head, with both [unwrap]s. *)
Definition head_level (n : Node) : result anyhow Z :=
  match current_header (node_chain n) with Ok (Some h) => Ok (level (raw h)) | _ => Panic end.

Definition SyncService_new (n : Node) (sender : option (list NodeToPeerMessage)) (mode : SyncMode) : result anyhow SyncService :=
  node_height ← head_level n;
  network_tip ← match get_genesis_header network with Ok h => Ok h | _ => Panic end;
  Ok {| sy_node := n; sync_mode := mode; last_request_index := node_height; finder_multiplier := 1;
        network_tip := network_tip; sy_highest_peer := []; sy_sender := sender; tip_before_sync := None |}.

(** ** Messages to peers *)
Definition push_message (m : NodeToPeerMessage) : stM SyncService anyhow unit := fun y =>
  match sy_sender y with
  | Some l => (Ok tt, set_sy_sender (Some (l ++ [m])) y)
  | None => (Panic, y)
  end.
Definition send_peer_message (msg : Msg) : stM SyncService anyhow unit := fun y =>
  match tip_before_sync y with
  | Some (peer, _) => push_message {| peer_id := Some peer; message := msg |} y
  | None => (Ok tt, y)
  end.
Definition find_blocks (limit : Z) : stM SyncService anyhow unit := fun y =>
  send_peer_message (FindBlocks (last_request_index y) limit) y.

(** ** validate_chain *)

(** [BTreeMap<u32, HashMap<H256, &Block>>] *)
Definition by_levels (blocks : list Block) : gmap Z (gmap H256 Block) :=
  fold_left (fun m b =>
    <[level (header b) := <[block_hash b := b]> (default ∅ (m !! level (header b)))]> m) blocks ∅.
Definition highest_level (m : gmap Z (gmap H256 Block)) : Z := foldr Z.max 0 (map_to_list m).*1.
Definition lowest_level (m : gmap Z (gmap H256 Block)) : Z :=
  match (map_to_list m).*1 with [] => 0 | k :: ks => foldr Z.min k ks end.
(** The loop ['l] over the levels of a range; [break] leaves it as its end does. *)
Fixpoint levels_linked (m : gmap Z (gmap H256 Block)) (levels : list Z) : bool :=
  match levels with
  | [] => true
  | lvl :: levels =>
      match m !! lvl, m !! u32 (lvl - 1) with
      | Some blocks, Some prev_blocks =>
          if existsb (fun b => bool_decide (is_Some (prev_blocks !! parent_hash (header b)))) (map_to_list blocks).*2
          then levels_linked m levels
          else true
      | _, _ => false
      end
  end.
(** [a..b] *)
Definition level_range (a b : Z) : list Z := seqZ a (b - a).
Definition validate_chain (blocks : list Block) : bool :=
  let blocks_to_apply := by_levels blocks in
  if (size blocks_to_apply <=? 1)%nat then true
  else levels_linked blocks_to_apply (level_range (highest_level blocks_to_apply) (lowest_level blocks_to_apply)).

(** ** Importing blocks *)

(** [OrderedBlock]: by level, then by hash. *)
Definition block_cmp (a b : Block) : comparison :=
  match Z.compare (level (header a)) (level (header b)) with
  | Eq => bytes_cmp (block_hash a) (block_hash b)
  | c => c
  end.
(** [collect] into a [BTreeSet]: a stable sort, then the last of neighbours with
    the same hash. *)
Fixpoint insert_block (b : Block) (l : list Block) : list Block :=
  match l with
  | [] => [b]
  | x :: l' => match block_cmp b x with Lt => b :: l | _ => x :: insert_block b l' end
  end.
Fixpoint dedup_blocks (l : list Block) : list Block :=
  match l with
  | [] => []
  | x :: l =>
      match l with
      | y :: _ => if bool_decide (block_hash x = block_hash y) then dedup_blocks l else x :: dedup_blocks l
      | [] => [x]
      end
  end.
Definition ordered_blocks (blocks : list Block) : list Block :=
  dedup_blocks (fold_left (fun l b => insert_block b l) blocks []).

Definition has_common_ancestor (c : ChainState) (start_block : Block) : result anyhow bool :=
  let genesis := level (header start_block) =? 0 in
  match BS_get_block_by_hash (cs_store c) (parent_hash (header start_block)) with
  | Ok (Some block) =>
      match get_sate_at (cs_state c) (state_root (header block)) with
      | Ok _ => Ok true
      | Err _ => Ok genesis
      | Panic => Panic
      end
  | Panic => Panic
  | _ => Ok genesis
  end.

(** [u32::saturating_sub] *)
Definition saturating_sub32 (a b : Z) : Z := Z.max 0 (a - b).

Definition import_forward (ordered : list Block) : stM SyncService anyhow unit :=
  _ ← modify (set_finder 1);
  _ ← zoom sy_node set_sy_node (put_chain hash_order network clock ordered);
  _ ← modify (set_sync_mode Forward);
  y ← gets (fun y => y);
  node_level ← lift (head_level (sy_node y));
  '(_, sync_point) ← lift (unwrap (tip_before_sync y));
  if node_level <? level sync_point then
    _ ← modify (set_last_request (u32 (node_level + 1)));
    find_blocks 24
  else
    _ ← modify (set_tip_before None);
    if node_level <? level (network_tip y) then
      _ ← modify (set_last_request (u32 (node_level + 1)));
      _ ← modify (set_tip_before (Some (sy_highest_peer y, network_tip y)));
      find_blocks 24
    else mret tt.

(** The index asked for next when nothing matched, [None] to give up. *)
Definition backward_index (node_level index multiplier : Z) : Z * bool :=
  let index := if node_level <? index then node_level else index in
  if index =? 0 then (0, false)
  else
    let index := saturating_sub32 index (u32 (5 * multiplier)) in
    (if index =? 0 then 1 else index, true).
Definition import_backward (node_level : Z) : stM SyncService anyhow unit :=
  _ ← modify (set_sync_mode Backward);
  y ← gets (fun y => y);
  let '(index, ask) := backward_index node_level (last_request_index y) (finder_multiplier y) in
  _ ← modify (set_last_request index);
  if (ask : bool) then find_blocks 24 else mret tt.

Definition handle_import_blocks (blocks : list Block) : stM SyncService anyhow unit :=
  y ← gets (fun y => y);
  node_level ← lift (head_level (sy_node y));
  match blocks with
  | [] =>
      if level (network_tip y) <=? node_level then modify (set_sync_mode Normal)
      else
        _ ← modify (set_tip_before (Some (sy_highest_peer y, network_tip y)));
        find_blocks 24
  | _ =>
      _ ← lift (ensure (validate_chain blocks) "Chain validation failed"%string);
      let ordered := ordered_blocks blocks in
      start_block ← lift (ok_or_else (hd_error ordered) "imported empty blocks");
      ancestor ← lift (has_common_ancestor (node_chain (sy_node y)) start_block);
      if (ancestor : bool) then import_forward ordered else import_backward node_level
  end.

(** ** The handlers *)

Definition handle_remote_message (msg : Msg) : stM SyncService anyhow unit :=
  match msg with Blocks blocks => handle_import_blocks blocks | _ => mret tt end.

(** [Handler<Msg>]: an error resets the search. *)
Definition handle_msg (msg : Msg) : stM SyncService anyhow unit := fun y =>
  match handle_remote_message msg y with
  | (Err _, y) =>
      let index := saturating_sub32 (last_request_index y) 12 in
      find_blocks 52 (set_last_request (if index =? 0 then 1 else index) y)
  | r => r
  end.

Definition handle_local_message (msg : LocalEventMessage) : stM SyncService anyhow unit :=
  match msg with
  | NetworkHighestHeadChanged peer tip =>
      y ← gets (fun y => y);
      current_header ← lift (current_header (node_chain (sy_node y)));
      current_header ← lift (unwrap current_header);
      let tip := default (raw current_header) tip in
      let node_height := level (raw current_header) in
      _ ← modify (set_tip tip peer);
      y ← gets (fun y => y);
      match tip_before_sync y with
      | None =>
          if node_height <? level tip then
            _ ← modify (set_last_request (level tip));
            _ ← modify (set_tip_before (Some (peer, tip)));
            send_peer_message (FindBlocks (u32 (node_height + 1)) 24)
          else mret tt
      | Some _ => mret tt
      end
  | _ => mret tt
  end.
(** [Handler<LocalEventMessage>]: an error is logged. *)
Definition handle_local (msg : LocalEventMessage) : stM SyncService anyhow unit := ignore (handle_local_message msg).

(** ** Validation *)

Lemma foldr_max_ge l x : In x l -> x <= foldr Z.max 0 l.
Proof. induction l as [|y l IH]; [easy|]. cbn. intros [->|Hx]; [lia|]. specialize (IH Hx). lia. Qed.
Lemma foldr_min_le k l : foldr Z.min k l <= k.
Proof. induction l as [|y l IH]; cbn; lia. Qed.
Lemma lowest_le_highest m : size m <> 0%nat -> lowest_level m <= highest_level m.
Proof.
  unfold lowest_level, highest_level. intros Hm. destruct ((map_to_list m).*1) as [|k ks] eqn:E.
  { destruct Hm. apply fmap_nil_inv, map_to_list_empty_iff in E. rewrite E. apply map_size_empty. }
  pose proof (foldr_min_le k ks). pose proof (foldr_max_ge (k :: ks) k (or_introl eq_refl)). lia.
Qed.

Lemma validate_chain_accepts blocks : validate_chain blocks = true.
Proof.
  unfold validate_chain. destruct (Nat.leb_spec (size (by_levels blocks)) 1) as [|L]; [easy|].
  unfold level_range. rewrite seqZ_nil; [easy|]. pose proof (lowest_le_highest (by_levels blocks) ltac:(lia)). lia.
Qed.
(** The check of the blocks a peer sends refuses nothing: its loop runs over
    the levels from the highest to the lowest, an empty range, so that lists
    with gaps and blocks that are not linked pass. *)
Theorem validate_chain_accepts_all blocks : validate_chain blocks = true.
Proof. apply validate_chain_accepts. Qed.

(** ** Searching backwards *)

(** Looking for a common ancestor.  When the parent of the lowest block a peer
    sent is unknown, or its state is, the chain and the pool stay as they are
    and the peer is asked again five levels below, never below level 1: at level
    1 the same request is repeated, so that the search does not give up. *)
Theorem import_without_ancestor y blocks b nl peer tip l :
  hd_error (ordered_blocks blocks) = Some b ->
  has_common_ancestor (node_chain (sy_node y)) b = Ok false ->
  head_level (sy_node y) = Ok nl -> 1 <= nl -> 1 <= last_request_index y -> finder_multiplier y = 1 ->
  tip_before_sync y = Some (peer, tip) -> sy_sender y = Some l ->
  exists y', handle_import_blocks blocks y = (Ok tt, y') /\ sy_node y' = sy_node y /\ sync_mode y' = Backward /\
    last_request_index y' = Z.max 1 (Z.min (last_request_index y) nl - 5) /\
    sy_sender y' = Some (l ++ [{| peer_id := Some peer; message := FindBlocks (last_request_index y') 24 |}]).
Proof.
  intros Hb Ha Hn Hnl Hi Hm Ht Hs. unfold handle_import_blocks. st_step reflexivity.
  st_step (unfold lift; rewrite Hn; reflexivity). destruct blocks as [|b0 blocks]; [discriminate|].
  st_step (unfold lift; rewrite validate_chain_accepts; reflexivity).
  st_step (unfold lift; rewrite Hb; reflexivity). st_step (unfold lift; rewrite Ha; reflexivity).
  unfold import_backward. st_step reflexivity. st_step reflexivity. cbn [last_request_index finder_multiplier set_sync_mode].
  rewrite Hm. assert (backward_index nl (last_request_index y) 1 = (Z.max 1 (Z.min (last_request_index y) nl - 5), true)) as ->.
  { unfold backward_index, saturating_sub32. change (u32 (5 * 1)) with 5.
    destruct (Z.ltb_spec nl (last_request_index y)).
    - destruct (Z.eqb_spec nl 0); [lia|]. f_equal. destruct (Z.eqb_spec (Z.max 0 (nl - 5)) 0); lia.
    - destruct (Z.eqb_spec (last_request_index y) 0); [lia|]. f_equal.
      destruct (Z.eqb_spec (Z.max 0 (last_request_index y - 5)) 0); lia. }
  st_step reflexivity. unfold find_blocks, send_peer_message. cbn [tip_before_sync set_last_request set_sync_mode]. rewrite Ht.
  unfold push_message. cbn [sy_sender set_last_request set_sync_mode]. rewrite Hs. eexists. split; [reflexivity|]. repeat split.
Qed.

(** ** Unexpected blocks *)

(** Blocks nobody asked for stop the node: when no synchronisation is under
    way and a peer sends blocks that can be put on the chain, they are put, and
    then the handler unwraps the tip it is synchronising to, which is not
    there. *)
Theorem unexpected_blocks_panic y blocks b nl nl' n' :
  tip_before_sync y = None -> hd_error (ordered_blocks blocks) = Some b ->
  head_level (sy_node y) = Ok nl -> has_common_ancestor (node_chain (sy_node y)) b = Ok true ->
  put_chain hash_order network clock (ordered_blocks blocks) (sy_node y) = (Ok tt, n') -> head_level n' = Ok nl' ->
  exists y', handle_msg (Blocks blocks) y = (Panic, y') /\ sy_node y' = n'.
Proof.
  intros Ht Hb Hn Ha Hp Hn'. unfold handle_msg, handle_remote_message.
  assert (exists y', handle_import_blocks blocks y = (Panic, y') /\ sy_node y' = n') as (y' & -> & E); [|eauto].
  unfold handle_import_blocks. st_step reflexivity. st_step (unfold lift; rewrite Hn; reflexivity).
  destruct blocks as [|b0 blocks]; [discriminate|]. st_step (unfold lift; rewrite validate_chain_accepts; reflexivity).
  st_step (unfold lift; rewrite Hb; reflexivity). st_step (unfold lift; rewrite Ha; reflexivity).
  unfold import_forward. st_step reflexivity.
  st_step (unfold zoom; cbn [sy_node set_finder]; rewrite Hp; reflexivity).
  st_step reflexivity. st_step reflexivity. cbn [sy_node set_sync_mode set_sy_node].
  st_step (unfold lift; rewrite Hn'; reflexivity). cbn [tip_before_sync set_sync_mode set_sy_node set_finder]. rewrite Ht.
  eexists. split; reflexivity.
Qed.
End Sync.
