(* ===== verification/NodeLoop.v ===== *)
(** * The event loop of the node

    The loop of [_start_node] (src/node/src/node.rs): messages of peers and
    events of the node itself are handed to the pool, the block storage and the
    synchronisation, which share the chain and the pool of Node.v.  Whatever
    arrives, the pool stays in order; a broadcast block is stored unchecked. *)
From S2P Require Import Prelude Crypto Types Consensus Smt Codec SmtTree SmtProofs SmtTheorems TreeDb Storage State StateProofs.
From S2P Require Import Chain Replay ChainProofs Peers Requests Sync.
From S2P Require PrQue TxList TxPool TxPoolProofs.
From S2P Require Import Node.
Import TxList (ProstLen).

Inductive Event := LocalMessage (m : LocalEventMessage) | PeerMessage (m : Msg) | Unhandled.

Lemma preserves_any {S E A} (m : stM S E A) : preserves (fun _ => True) m.
Proof. intros s _. now split. Qed.

Section NodeLoop.
Context `{CryptoLaws} `{BincodeLaws} `{ChainCodecs} `{WasmVMInstance} `{!WasmVMLaws} `{ProstLen}.
Context (instant : nat -> Z) (hash_keys : forall A, gmap Address A -> list Address).
Context (load : State -> Address -> result anyhow unit)
        (create : State -> Address -> Address -> Z -> bytes -> result anyhow (bytes * Changelist))
        (pool_error : TxPool.TxPoolError -> anyhow).
#[local] Instance loop_services : ChainServices := node_services instant hash_keys load create pool_error.
Context (hash_order : Column -> list (bytes * bytes)) (network : Network) (clock : BlockHeader -> Z).

(** [txpool.add_remotes(msg.tx).unwrap()] *)
Definition add_broadcast (txs : list SignedTransaction) : stM Node anyhow unit := fun n =>
  let c := node_chain n in
  match TxPool.add_remotes (Bc:=chain_view (cs_state c) (cs_store c)) instant hash_keys txs (node_pool n) with
  | (Ok _, p) => (Ok tt, set_node_pool p n)
  | (_, p) => (Panic, set_node_pool p n)
  end.
Definition put_broadcast (b : Block) : stM Node anyhow unit :=
  zoom node_chain set_node_chain (write_store (BlockStorage_put b)).
(** [broadcast_message(..).unwrap()] *)
Definition broadcast_message (m : Msg) : stM SyncService anyhow unit :=
  push_message {| peer_id := None; message := m |}.

(** One turn of the loop; an error ends it. *)
Definition handle_event (e : Event) : stM SyncService anyhow unit :=
  match e with
  | PeerMessage (BroadcastTransaction txs) => zoom sy_node set_sy_node (add_broadcast txs)
  | PeerMessage (BroadcastBlock (Some block)) => zoom sy_node set_sy_node (put_broadcast block)
  | PeerMessage (BroadcastBlock None) => mret tt
  | PeerMessage msg => handle_msg hash_order network clock msg
  | LocalMessage (MindedBlock block) => broadcast_message (BroadcastBlock (Some block))
  | LocalMessage (BroadcastTx txs) => broadcast_message (BroadcastTransaction txs)
  | LocalMessage (StateChanged current_head) => broadcast_message (CurrentHead (Some current_head))
  | LocalMessage (NetworkNewPeerConnection _ _) => mret tt
  | LocalMessage msg => handle_local msg
  | Unhandled => mret tt
  end.

(** ** The pool *)

Definition pool_ok (n : Node) : Prop := TxPoolProofs.pool_wf (node_pool n).
Definition sync_pool_ok (y : SyncService) : Prop := pool_ok (sy_node y).

Lemma chain_step_pool {A} (m : stM ChainState anyhow A) : preserves pool_ok (zoom node_chain set_node_chain m).
Proof. apply (preserves_zoom _ (fun _ => True)); [easy|easy|apply preserves_any]. Qed.
Lemma put_block_pool_ok cur b : preserves pool_ok (put_block hash_order network clock cur b).
Proof.
  unfold put_block. apply preserves_bind; [apply preserves_gets|]. intros c.
  apply preserves_bind; [apply preserves_lift|]. intros b'.
  apply preserves_bind; [apply chain_step_pool|]. intros [[rep st] b''].
  apply preserves_bind; [destruct st; [apply chain_step_pool|apply preserves_ret]|]. intros [].
  destruct rep; [|apply preserves_ret]. apply preserves_bind; [apply preserves_gets|]. intros c'.
  apply (preserves_zoom _ TxPoolProofs.pool_wf); [easy|easy|]. intros p Hp. split; [now apply pool_repack_wf|easy].
Qed.
Lemma put_chain_pool_ok blocks : preserves pool_ok (put_chain hash_order network clock blocks).
Proof.
  unfold put_chain. apply preserves_bind; [apply preserves_gets|]. intros c.
  apply preserves_bind; [apply preserves_lift|]. intros o. apply preserves_bind; [apply preserves_lift|]. intros cur.
  apply preserves_bind; [apply preserves_lift|]. intros first.
  apply preserves_bind; [destruct (_ && _); [apply chain_step_pool|apply preserves_ret]|]. intros _.
  apply (preserves_for_each _ _ _ (fun _ => True)); [now apply List.Forall_forall|]. intros b _. apply put_block_pool_ok.
Qed.

(** A step of the service that only writes its own fields. *)
Lemma preserves_modify_sync (f : SyncService -> SyncService) :
  (forall y, sy_node (f y) = sy_node y) -> preserves (E:=anyhow) sync_pool_ok (modify f).
Proof. intros Hf y Hy. split; [|easy]. unfold sync_pool_ok. cbn. now rewrite Hf. Qed.
Lemma node_step_sync {A} (m : stM Node anyhow A) : preserves pool_ok m -> preserves sync_pool_ok (zoom sy_node set_sy_node m).
Proof. apply preserves_zoom; easy. Qed.
Lemma push_message_pool m : preserves sync_pool_ok (push_message m).
Proof. intros y Hy. unfold push_message. destruct (sy_sender y); now split. Qed.
Lemma find_blocks_pool limit : preserves sync_pool_ok (find_blocks limit).
Proof.
  intros y Hy. unfold find_blocks, send_peer_message. destruct (tip_before_sync y) as [[]|]; [now apply push_message_pool|now split].
Qed.
Create HintDb loop.
#[local] Hint Resolve preserves_gets preserves_lift preserves_ret preserves_modify_sync find_blocks_pool
  put_chain_pool_ok node_step_sync push_message_pool : loop.
#[local] Hint Extern 5 (preserves _ (_ ≫= _)) => apply preserves_bind; [|intros ?] : loop.
#[local] Hint Extern 5 (preserves _ _) =>
  match goal with |- preserves _ (match ?x with _ => _ end) => destruct x end : loop.
#[local] Hint Extern 4 (forall y, sy_node _ = _) => reflexivity : loop.

Lemma import_forward_pool ordered : preserves sync_pool_ok (import_forward hash_order network clock ordered).
Proof. unfold import_forward. auto 15 with loop. Qed.
Lemma import_backward_pool nl : preserves sync_pool_ok (import_backward nl).
Proof. unfold import_backward. auto 15 with loop. Qed.
#[local] Hint Resolve import_forward_pool import_backward_pool : loop.
Lemma handle_import_blocks_pool blocks : preserves sync_pool_ok (handle_import_blocks hash_order network clock blocks).
Proof. unfold handle_import_blocks. auto 20 with loop. Qed.
Lemma handle_msg_pool msg : preserves sync_pool_ok (handle_msg hash_order network clock msg).
Proof.
  intros y Hy. unfold handle_msg.
  assert (preserves sync_pool_ok (handle_remote_message hash_order network clock msg)) as Hm.
  { unfold handle_remote_message. destruct msg; auto using handle_import_blocks_pool with loop. }
  destruct (Hm y Hy) as [H1' _]. destruct (handle_remote_message hash_order network clock msg y) as [[r|e|] y']; [now split| |now split].
  now apply find_blocks_pool.
Qed.
Lemma handle_local_pool msg : preserves sync_pool_ok (handle_local msg).
Proof.
  intros y Hy. unfold handle_local, ignore.
  assert (preserves sync_pool_ok (handle_local_message msg)) as Hm.
  { unfold handle_local_message. destruct msg; auto 20 with loop.
    do 4 (apply preserves_bind; [auto with loop|intros ?]). apply preserves_bind; [auto with loop|]. intros y1.
    destruct (tip_before_sync y1); [auto with loop|]. destruct (_ <? _); [|auto with loop].
    do 2 (apply preserves_bind; [auto with loop|intros ?]).
    intros y2 Hy2. unfold send_peer_message. destruct (tip_before_sync y2) as [[]|]; [now apply push_message_pool|now split]. }
  destruct (Hm y Hy) as [H1' _]. destruct (handle_local_message msg y) as [[r|e|] y']; now split.
Qed.
Lemma add_broadcast_pool txs : preserves pool_ok (add_broadcast txs).
Proof.
  intros n Hn. unfold add_broadcast.
  pose proof (TxPoolProofs.pool_step_wf (Bc:=chain_view (cs_state (node_chain n)) (cs_store (node_chain n))) instant hash_keys
    _ _ Hn (TxPoolProofs.step_add_txs _ _ txs false (node_pool n))) as Hs.
  unfold TxPool.add_remotes. destruct (TxPool.add_txs instant hash_keys txs false (node_pool n)) as [[r|e|] p]; now split.
Qed.

Lemma handle_event_pool e : preserves sync_pool_ok (handle_event e).
Proof.
  destruct e as [m|m|]; [destruct m|destruct m as [| | | | | | | |[b|]]|]; cbn [handle_event]; unfold broadcast_message;
    auto using handle_msg_pool, handle_local_pool, push_message_pool, add_broadcast_pool with loop.
  apply node_step_sync, chain_step_pool.
Qed.

(** The states of a node that handles events from its start on; a panic or an
    error ends the loop. *)
Inductive loop_reachable (y0 : SyncService) : SyncService -> Prop :=
| loop_start : loop_reachable y0 y0
| loop_event e y y' : loop_reachable y0 y -> (handle_event e y).2 = y' -> loop_reachable y0 y'.

(** Whatever peers send and the node itself announces, in whatever order, and
    however the handling of an event ends, the transaction pool keeps its lists,
    its table and its heartbeats in order. *)
Theorem loop_keeps_pool n conf accounts p sender mode y0 y :
  TxPool.TxPool_new (Bc:=chain_view (cs_state (node_chain n)) (cs_store (node_chain n))) conf accounts = Ok p ->
  node_pool n = p -> SyncService_new network n sender mode = Ok y0 -> loop_reachable y0 y ->
  TxPoolProofs.pool_wf (node_pool (sy_node y)).
Proof.
  intros Hp Hn Hy Hr. assert (sync_pool_ok y0) as H0'.
  { unfold SyncService_new in Hy. destruct (head_level n) as [h|e|]; try discriminate. cbn [mbind result_bind] in Hy.
    destruct (get_genesis_header network) as [g|e|]; try discriminate. injection Hy as <-.
    unfold sync_pool_ok, pool_ok. cbn [sy_node]. rewrite Hn. now apply TxPoolProofs.TxPool_new_wf in Hp. }
  induction Hr as [|e y y' _ IH <-]; [exact H0'|]. exact (proj1 (handle_event_pool e y IH)).
Qed.

(** ** Broadcast blocks *)

(** A block that a peer broadcasts is stored as it is: one with the header of a
    stored block and other transactions, which its header does not commit to,
    replaces the transactions of the stored block, under its hash. *)
Theorem broadcast_replaces_transactions y h txs tb :
  let s := cs_store (node_chain (sy_node y)) in
  codec_ok prost_BlockHeader wf_header -> has_columns s -> wf_header h ->
  KV_get BlockHeaderStorage s (block_key h) = Ok (Some h) ->
  encode prost_Transactions txs = Ok tb -> decode prost_Transactions tb = Ok txs ->
  exists y', handle_event (PeerMessage (BroadcastBlock (Some {| header := h; transactions := txs |}))) y = (Ok tt, y') /\
    BS_get_block_by_hash (cs_store (node_chain (sy_node y'))) (header_hash h) =
      Ok (Some {| header := h; transactions := txs |}).
Proof.
  intros s Hc Hs W Hh Et Dt. set (b := {| header := h; transactions := txs |}).
  destruct (BlockStorage_put_spec b s tb Hc Hs W Et (or_intror Hh)) as (s' & E & Sb).
  cbn [handle_event]. unfold put_broadcast, write_store, zoom. fold s. rewrite E. eexists. split; [reflexivity|].
  cbn [sy_node set_sy_node node_chain set_node_chain cs_store set_cs_store].
  assert (KV_get BlockTransactionsStorage s' (block_key h) = Ok (Some txs)) as GT.
  { apply (sb_transactions _ _ _ Sb). cbn [transactions b]. now rewrite Et. }
  unfold BS_get_block_by_hash. change (header_hash h) with (block_hash b). rewrite (sb_hash _ _ _ Sb). cbn [mbind result_bind].
  unfold BS_get_block. change {| key_level := _; key_hash := _ |} with (block_key h).
  rewrite (sb_header _ _ _ Sb : KV_get BlockHeaderStorage s' (block_key h) = _). cbn [mbind result_bind]. now rewrite GT.
Qed.
End NodeLoop.

(** ** The loop evaluated *)

#[local] Existing Instances easy_crypto easy_crypto_laws no_machine no_machine_laws node_len.
Abbreviation demo_loop := (handle_event (fun _ => 0) node_keys (fun _ _ => Ok tt)
  (fun _ _ _ _ _ => Err "no machine"%string) (fun _ => "pool"%string) demo_order Testnet demo_clock).
#[local] Instance demo_loop_services : ChainServices :=
  loop_services (fun _ => 0) node_keys (fun _ _ => Ok tt) (fun _ _ _ _ _ => Err "no machine"%string) (fun _ => "pool"%string).

Definition idle_sync (n : Node) : SyncService :=
  {| sy_node := n; sync_mode := Normal; last_request_index := 0; finder_multiplier := 1; network_tip := demo_genesis;
     sy_highest_peer := []; sy_sender := Some []; tip_before_sync := None |}.
Definition sync0 : SyncService := ok_default (idle_sync node0) (SyncService_new Testnet node0 (Some []) Normal).
Lemma sync0_new : SyncService_new Testnet node0 (Some []) Normal = Ok sync0.
Proof. apply ok_default_eq. vm_compute. reflexivity. Qed.

(** A peer announces a head, and a block arrives. *)
Definition sync1 : SyncService := (demo_loop (LocalMessage (NetworkHighestHeadChanged [1] (Some (header demo_block1)))) sync0).2.
Definition sync2 : SyncService := (demo_loop (PeerMessage (Blocks [demo_block1])) sync1).2.
Lemma loop_keeps_pool_witness : TxPoolProofs.pool_wf (node_pool (sy_node sync2)).
Proof.
  refine (loop_keeps_pool (fun _ => 0) node_keys (fun _ _ => Ok tt) (fun _ _ _ _ _ => Err "no machine"%string) (fun _ => "pool"%string)
    demo_order Testnet demo_clock node0 None None demo_txpool (Some []) Normal sync0 sync2 demo_txpool_new eq_refl sync0_new _).
  refine (loop_event _ _ _ _ _ _ _ _ _ (PeerMessage (Blocks [demo_block1])) sync1 sync2 _ eq_refl).
  refine (loop_event _ _ _ _ _ _ _ _ _ (LocalMessage (NetworkHighestHeadChanged [1] (Some (header demo_block1)))) sync0 sync1 _ eq_refl).
  apply loop_start.
Defined.

(** The same block without the announcement: it is put, then the loop stops. *)
Definition node1' : Node := (put_chain demo_order Testnet demo_clock (ordered_blocks [demo_block1]) (sy_node sync0)).2.
Lemma node1'_put : put_chain demo_order Testnet demo_clock (ordered_blocks [demo_block1]) (sy_node sync0) = (Ok tt, node1').
Proof.
  refine (run_ok (put_chain demo_order Testnet demo_clock (ordered_blocks [demo_block1])) (sy_node sync0) _).
  vm_compute. reflexivity.
Qed.
Lemma sync0_level : head_level (sy_node sync0) = Ok 0.
Proof. vm_compute. reflexivity. Qed.
Lemma node1'_level : head_level node1' = Ok 1.
Proof. vm_compute. reflexivity. Qed.
Lemma block1_ancestor : has_common_ancestor (node_chain (sy_node sync0)) demo_block1 = Ok true.
Proof. vm_compute. reflexivity. Qed.
Lemma unexpected_blocks_panic_witness :
  exists y', handle_msg demo_order Testnet demo_clock (Blocks [demo_block1]) sync0 = (Panic, y') /\ sy_node y' = node1'.
Proof.
  exact (unexpected_blocks_panic demo_order Testnet demo_clock sync0 [demo_block1] demo_block1 0 1 node1'
    eq_refl eq_refl sync0_level block1_ancestor node1'_put node1'_level).
Defined.

(** A block of level 9 whose parent is unknown. *)
Definition orphan : Block :=
  {| header := {| parent_hash := repeat 9 32; receipt_hash := H256_zero; tx_root := H256_zero; state_root := H256_zero;
                  mix_nonce := 0; coinbase := []; difficulty := 0; header_chain_id := 0; level := 9; time := 0;
                  header_nonce := 0 |};
     transactions := [] |}.
Definition sync_at_1 : SyncService :=
  {| sy_node := node1'; sync_mode := Normal; last_request_index := 9; finder_multiplier := 1; network_tip := header orphan;
     sy_highest_peer := [1]; sy_sender := Some []; tip_before_sync := Some ([1], header orphan) |}.
Lemma orphan_ancestor : has_common_ancestor (node_chain (sy_node sync_at_1)) orphan = Ok false.
Proof. vm_compute. reflexivity. Qed.
Lemma import_without_ancestor_witness :
  exists y', handle_import_blocks demo_order Testnet demo_clock [orphan] sync_at_1 = (Ok tt, y') /\
    sy_node y' = node1' /\ sync_mode y' = Backward /\ last_request_index y' = 1 /\
    sy_sender y' = Some [{| peer_id := Some [1]; message := FindBlocks (last_request_index y') 24 |}].
Proof.
  exact (import_without_ancestor demo_order Testnet demo_clock sync_at_1 [orphan] orphan 1 [1] (header orphan) []
    eq_refl orphan_ancestor node1'_level ltac:(lia) ltac:(cbn; lia) eq_refl eq_refl eq_refl).
Defined.

(** A stored block with a transaction loses it to a broadcast one without. *)
Definition paying_tx : SignedTransaction := demo_tx 1 10 1 (demo_dst 1).
Definition one_tx_codecs : ChainCodecs := {|
  prost_BlockHeader := toy_header;
  prost_Transactions := {|
    encode l := match l with [] => Ok [] | [_] => Ok [1] | _ => Err "transactions"%string end;
    decode buf := match buf with [] => Ok [] | _ => Ok [paying_tx] end |};
  prost_ChainStateValue := toy_header |}.
#[local] Existing Instance one_tx_codecs.
Definition paid_block : Block := {| header := example_header; transactions := [paying_tx] |}.
Definition paid_store : MemStore := (BlockStorage_put paid_block (MemStore_new column_family_names)).2.
#[local] Instance paid_services : ChainServices :=
  loop_services (fun _ => 0) node_keys (fun _ _ => Ok tt) (fun _ _ _ _ _ => Err "no machine"%string) (fun _ => "pool"%string).
Definition paid_sync : SyncService :=
  {| sy_node := {| node_chain := set_cs_store paid_store demo_chain; node_pool := demo_txpool |}; sync_mode := Normal;
     last_request_index := 0; finder_multiplier := 1; network_tip := demo_genesis; sy_highest_peer := [];
     sy_sender := Some []; tip_before_sync := None |}.
Lemma paid_columns : has_columns paid_store.
Proof. unfold has_columns. apply (bool_decide_eq_true_1 _). vm_compute. reflexivity. Qed.
Lemma paid_header : KV_get BlockHeaderStorage paid_store (block_key example_header) = Ok (Some example_header).
Proof. vm_compute. reflexivity. Qed.
Lemma paid_header_wf : wf_header example_header.
Proof. apply (bool_decide_unpack _). vm_compute. exact Logic.I. Qed.
Lemma broadcast_replaces_transactions_witness :
  BS_get_block_by_hash paid_store (header_hash example_header) = Ok (Some paid_block) /\
  exists y', demo_loop (PeerMessage (BroadcastBlock (Some {| header := example_header; transactions := [] |}))) paid_sync = (Ok tt, y') /\
    BS_get_block_by_hash (cs_store (node_chain (sy_node y'))) (header_hash example_header) =
      Ok (Some {| header := example_header; transactions := [] |}).
Proof.
  split; [vm_compute; reflexivity|].
  exact (broadcast_replaces_transactions (fun _ => 0) node_keys (fun _ _ => Ok tt) (fun _ _ _ _ _ => Err "no machine"%string)
    (fun _ => "pool"%string) demo_order Testnet demo_clock paid_sync example_header [] []
    toy_header_ok paid_columns paid_header_wf paid_header eq_refl eq_refl).
Defined.
