(* ===== verification/Miner.v ===== *)
(** * Mining

    [start_worker] (src/miner/src/worker.rs): the template of the next block from
    the head of the chain and the pending transactions, and the search for a
    nonce, one turn of the inner loop at a time: between the turns the other
    tasks of the node change the chain and the pool, the peers report new heads
    and time goes on.  As long as the head stays, the worker returns the first
    nonce that meets the target, and the block it makes of it becomes the head;
    the extra nonce is never used. *)
From S2P Require Import Prelude Compact Crypto Types Consensus Smt Codec SmtTree SmtProofs SmtTheorems TreeDb Storage State StateProofs.
From S2P Require Import Chain Replay ChainProofs Peers.
From S2P Require TxList TxPool.

Definition SHUTDOWN : Z := -1.
Definition RESET : Z := 0.
Definition PAUSE : Z := 1.
Definition START : Z := 2.

(** [..Default::default()] *)
Definition BlockHeader_default : BlockHeader :=
  {| parent_hash := H256_zero; receipt_hash := H256_zero; tx_root := H256_zero; state_root := H256_zero; mix_nonce := 0;
     coinbase := Address_default; difficulty := 0; header_chain_id := 0; level := 0; time := 0; header_nonce := 0 |}.
Definition set_nonces (h : BlockHeader) (mix n : Z) : BlockHeader :=
  {| parent_hash := parent_hash h; receipt_hash := receipt_hash h; tx_root := tx_root h; state_root := state_root h;
     mix_nonce := mix; coinbase := coinbase h; difficulty := difficulty h; header_chain_id := header_chain_id h;
     level := level h; time := time h; header_nonce := n |}.

Section Miner.
Context `{CryptoLaws} `{BincodeLaws} `{ChainCodecs} `{WasmVMInstance} `{!WasmVMLaws} `{ChainServices}.
Variables (network : Network) (clock : BlockHeader -> Z).
(** The order in which the [HashMap] of pending lists is drained. *)
Variable hash_values : gmap Address (list SignedTransaction) -> list (list SignedTransaction).

Definition pending_txs (p : TxPool.TxPool) : list SignedTransaction := concat (hash_values (TxPool.pool_pending p)).

Definition block_template (coinbase_ : Address) (now : Z) (txs : list SignedTransaction) (c : ChainState) :
    result anyhow (BlockHeader * list SignedTransaction) :=
  o ← current_header c;
  parent_header ← match o with None => get_genesis_header network | Some h => Ok (raw h) end;
  state ← get_sate_at (cs_state c) (state_root parent_header);
  let header :=
    {| parent_hash := header_hash parent_header; receipt_hash := receipt_hash BlockHeader_default;
       tx_root := tx_root BlockHeader_default; state_root := state_root BlockHeader_default;
       mix_nonce := mix_nonce BlockHeader_default; coinbase := coinbase_; difficulty := difficulty BlockHeader_default;
       header_chain_id := header_chain_id BlockHeader_default; level := u32 (level parent_header + 1); time := u32 now;
       header_nonce := header_nonce BlockHeader_default |} in
  header ← prepare_header network (chain_reader (cs_store c)) header;
  header ← (finalize header txs state).1;
  Ok (header, txs).

(** How a turn of the inner loop ends: the template is given up, tried with
    another nonce, or mined. *)
Inductive Turn := GiveUp | Again (template : BlockHeader) | Mined (h : BlockHeader).

(** The nonces of the next try. *)
Definition next_nonce {E} (t : BlockHeader) : result E BlockHeader :=
  t ← (if 2 ^ 128 - 1 <? header_nonce t + 1 then
         mix ← U256_add (mix_nonce t) (header_nonce t + 1);
         Ok (set_nonces t mix 0)
       else Ok t);
  Ok (set_nonces t (mix_nonce t) (u64 (header_nonce t + 1))).
(** The level of a head, zero when there is none or it cannot be read. *)
Definition level_or_zero (c : ChainState) : result anyhow Z :=
  match current_header c with
  | Ok (Some h) => Ok (level (raw h))
  | Panic => Panic
  | _ => Ok 0
  end.

Definition network_level (network_head : option BlockHeader) : Z :=
  match network_head with Some h => level h | None => 0 end.
Definition mine_turn (i : Z) (network_head : option BlockHeader) (now : Z) (c : ChainState) (t : BlockHeader) :
    result anyhow Turn :=
  if i =? SHUTDOWN then Ok GiveUp
  else
    o ← current_header c;
    node_head ← unwrap o;
    if level (raw node_head) <? network_level network_head then Ok GiveUp
    else
      t ← next_nonce t;
      match verify_header network (chain_reader (cs_store c)) now t with
      | Ok _ =>
          node_head ← level_or_zero c;
          Ok (if level t <=? node_head then GiveUp else Mined t)
      | Panic => Panic
      | Err _ => Ok (Again t)
      end.
(** The inner loop from turn [k] on.  Turn [k] sees the head [peers k] of the
    network and the time [now k], after the other tasks have changed the node by
    [others k]; a turn itself is not interrupted. *)
Fixpoint mine_loop (fuel k : nat) (i : Z) (peers : nat -> option BlockHeader) (now : nat -> Z) (others : nat -> Node -> Node)
    (t : BlockHeader) : stM Node anyhow (option BlockHeader) :=
  match fuel with
  | O => lift Panic
  | S fuel =>
      _ ← modify (others k);
      c ← gets node_chain;
      r ← lift (mine_turn i (peers k) (now k) c t);
      match r with
      | GiveUp => mret None
      | Again t => mine_loop fuel (S k) i peers now others t
      | Mined h => mret (Some h)
      end
  end.

(** One iteration of the outer loop.  [i] is the interrupt flag as it is read
    once, at the start; [network_head] and [time] are the head of the network and
    the time before the search; [late] is what the other tasks do between the
    last turn and [put_chain]; [channel] holds the events sent to the node,
    [None] when it is gone. *)
Inductive Round := Stopped | Behind | Abandoned | Found (b : Block).
Definition worker_round (hash_order : Column -> list (bytes * bytes)) (pending : TxPool -> list SignedTransaction)
    (fuel : nat) (i : Z) (network_head : option BlockHeader) (miner : Address) (time : Z)
    (peers : nat -> option BlockHeader) (now : nat -> Z) (others : nat -> Node -> Node) (late : Node -> Node)
    (channel : option (list LocalEventMessage)) : stM Node anyhow (Round * option (list LocalEventMessage)) :=
  if i =? SHUTDOWN then mret (Stopped, channel)
  else
    c ← gets node_chain;
    node_head ← lift (level_or_zero c);
    if node_head <? network_level network_head then mret (Behind, channel)
    else
      p ← gets node_pool;
      '(template, txs) ← lift (block_template miner time (pending p) c);
      r ← mine_loop fuel 0 i peers now others template;
      match r with
      | None => mret (Abandoned, channel)
      | Some h =>
        let b := {| header := h; transactions := txs |} in
        _ ← modify late;
        _ ← put_chain hash_order network clock [b];
        sent ← lift (ok_or_else channel "channel closed");
        mret (Found b, Some (sent ++ [MindedBlock b]))
      end.

(** ** A mined block is accepted *)

Lemma set_work_nonces h0 id b r1 r2 m n :
  set_work (set_nonces (set_roots (set_work h0 id b) r1 r2) m n) id b = set_nonces (set_roots (set_work h0 id b) r1 r2) m n.
Proof. reflexivity. Qed.
Lemma set_roots_nonces h0 r1 r2 m n : set_roots (set_nonces (set_roots h0 r1 r2) m n) r1 r2 = set_nonces (set_roots h0 r1 r2) m n.
Proof. reflexivity. Qed.

Lemma finalize_ok h txs s merkle s' :
  tx_merkle txs = Ok merkle -> apply_block (StateDB_apply_txs txs) (coinbase h) (level h) s = (Ok tt, s') ->
  finalize h txs s = (Ok (set_roots h (root (head (trie s'))) (root merkle)), s').
Proof.
  intros Hm Ha. unfold finalize. st_step (unfold lift; rewrite Hm; reflexivity). st_step (exact Ha).
  st_step reflexivity. st_step reflexivity. reflexivity.
Qed.

(** The header of the template, whatever its nonces, is the one a block with it
    has to have. *)
Lemma template_expected c h miner now txs t txs' m n :
  consistent c h -> block_template miner now txs c = Ok (t, txs') ->
  txs' = txs /\ level t = u32 (level h + 1) /\ parent_hash t = header_hash h /\
  expected_header network c {| header := set_nonces t m n; transactions := txs |} = Ok (set_nonces t m n).
Proof.
  intros C. unfold block_template. rewrite (consistent_current _ _ C). cbn [mbind result_bind raw indexed].
  destruct (get_sate_at _ _) as [s0|e|] eqn:Es; try discriminate. cbn [mbind result_bind].
  destruct (prepare_header _ _ _) as [h1|e|] eqn:Ep; try discriminate. cbn [mbind result_bind].
  apply prepare_header_inv in Ep as (p & bits & Hp & Hw & ->).
  destruct (finalize _ txs s0) as [r s1] eqn:Ef. cbn [fst]. destruct r as [h2|e|]; try discriminate. cbn [mbind result_bind].
  intros [= <- <-]. apply finalize_inv in Ef as (merkle & Em & Er & ->). cbn [set_work coinbase level] in Er.
  split; [easy|]. split; [easy|]. split; [easy|].
  unfold expected_header. cbn [header transactions].
  unfold prepare_header. cbn [set_nonces set_roots set_work parent_hash level] in *. rewrite Hp. cbn [ok_or_else ok_or mbind result_bind].
  cbn [set_nonces set_roots set_work time] in *. rewrite Hw. cbn [mbind result_bind]. rewrite (consistent_by_hash _ _ C). cbn [ok_or_else ok_or mbind result_bind].
  unfold get_state_at. cbn [raw indexed]. rewrite Es. cbn [mbind result_bind].
  erewrite finalize_ok; [|exact Em|exact Er]. reflexivity.
Qed.

Lemma template_wf c h miner now txs t txs' :
  consistent c h -> is_bytes 44 miner -> block_template miner now txs c = Ok (t, txs') -> wf_header t.
Proof.
  intros C Hm. unfold block_template. rewrite (consistent_current _ _ C). cbn [mbind result_bind raw indexed].
  destruct (get_sate_at _ _) as [s0|e|] eqn:Es; try discriminate. cbn [mbind result_bind]. set (draft := Build_BlockHeader _ _ _ _ _ _ _ _ _ _ _).
  intros E. assert (expected_header network c {| header := draft; transactions := txs |} = Ok t) as Ee.
  { unfold expected_header. cbn [header transactions]. destruct (prepare_header _ _ draft) as [h1|e|]; try discriminate.
    cbn [mbind result_bind] in *. change (parent_hash draft) with (header_hash h). rewrite (consistent_by_hash _ _ C).
    cbn [ok_or_else ok_or mbind result_bind]. unfold get_state_at. cbn [raw indexed]. rewrite Es. cbn [mbind result_bind].
    destruct (finalize h1 txs s0).1 as [h2|e|]; try discriminate. now injection E as -> _. }
  apply expected_header_inv in Ee as (bits & sa & sb & merkle & P).
  eapply (expected_header_wf network c {| header := draft; transactions := txs |}); [exact (consistent_typed _ _ C)| |exact P].
  assert (is_bytes 32 H256_zero) as Hz by (apply (bool_decide_unpack _); vm_compute; exact Logic.I).
  assert (forall w x, (0 <= w)%Z -> is_u w (wrap w x)) as Hu by (intros w x Hw; now apply wrap_bound).
  split; [apply header_hash_len|]. cbn [header draft receipt_hash tx_root state_root mix_nonce coinbase difficulty header_chain_id level time header_nonce BlockHeader_default].
  split_and!; auto; try (apply Hu; lia); unfold is_u; lia.
Qed.

Lemma next_nonce_spec {E} t : is_u 64 (header_nonce t) -> next_nonce (E:=E) t = Ok (set_nonces t (mix_nonce t) (u64 (header_nonce t + 1))).
Proof.
  unfold is_u. intros Hn. unfold next_nonce. destruct (Z.ltb_spec (2 ^ 128 - 1) (header_nonce t + 1)); [lia|]. reflexivity.
Qed.

(** The time check only gets easier. *)
Lemma verify_header_later chain now now' h :
  verify_header network chain now h = Ok tt -> 0 <= now <= now' -> now' < 2 ^ 62 ->
  verify_header network chain now' h = Ok tt.
Proof.
  unfold verify_header. destruct (get_header chain _ _) as [[p|]|e|]; try discriminate.
  cbn [ok_or_else ok_or mbind result_bind]. intros E Hn Hb. revert E.
  rewrite !(swrap_id 64 (BLOCK_MAX_FUTURE + _)) by (unfold BLOCK_MAX_FUTURE; lia).
  destruct (Z.ltb_spec (i64 (time h)) (BLOCK_MAX_FUTURE + now)); cbn [ensure mbind result_bind]; [|discriminate].
  now rewrite (proj2 (Z.ltb_lt _ _)) by lia.
Qed.

(** A turn gives up, or goes on with the next nonce and nothing else changed. *)
Lemma mine_turn_inv i nh now c t r :
  is_u 64 (header_nonce t) -> mine_turn i nh now c t = Ok r ->
  let t' := set_nonces t (mix_nonce t) (u64 (header_nonce t + 1)) in
  r = GiveUp \/ r = Again t' \/
  r = Mined t' /\ verify_header network (chain_reader (cs_store c)) now t' = Ok tt.
Proof.
  intros Hn. unfold mine_turn. destruct (i =? SHUTDOWN); [intros [= <-]; auto|].
  destruct (current_header c) as [[nd|]|e|]; try discriminate. cbn [unwrap mbind result_bind].
  destruct (_ <? _); [intros [= <-]; auto|]. rewrite next_nonce_spec by done. cbn [mbind result_bind].
  destruct (verify_header _ _ _ _) as [[]|e|] eqn:E; [|intros [= <-]; auto|discriminate].
  destruct (level_or_zero c) as [l|e|]; try discriminate. cbn [mbind result_bind].
  destruct (_ <=? l); intros [= <-]; auto.
Qed.

(** A mined block is accepted.  When the worker mines a block from a template of
    the current head, after any number of turns, and the clock has not gone
    back when the node checks it, the checks of [process_block] accept the
    block. *)
Lemma mined_block_accepted c h miner now0 txs t txs' m n i nh now mined :
  consistent c h -> block_template miner now0 txs c = Ok (t, txs') -> is_u 64 n ->
  mine_turn i nh now c (set_nonces t m n) = Ok (Mined mined) ->
  0 <= now <= clock mined -> clock mined < 2 ^ 62 ->
  process_block network clock c {| header := mined; transactions := txs' |} =
    Ok {| header := mined; transactions := txs' |}.
Proof.
  intros C Et Hn Em Hc Hb. apply mine_turn_inv in Em as [Em|[Em|[Em Hv]]]; [discriminate..| |exact Hn].
  assert (mined = set_nonces t m (u64 (n + 1))) as -> by (injection Em as ->; reflexivity).
  change (verify_header network (chain_reader (cs_store c)) now (set_nonces t m (u64 (n + 1))) = Ok tt) in Hv.
  destruct (template_expected c h miner now0 txs t txs' m (u64 (n + 1)) C Et) as (-> & _ & _ & Ee).
  unfold process_block. rewrite Ee. cbn [mbind result_bind].
  rewrite (verify_header_later _ _ _ _ Hv Hc Hb). cbn [conv mbind result_bind].
  now rewrite bool_decide_eq_true_2.
Qed.

Lemma template_nonce miner now txs c t txs' : block_template miner now txs c = Ok (t, txs') -> header_nonce t = 0.
Proof.
  unfold block_template. intros E. apply bind_ok in E as (o & _ & E). apply bind_ok in E as (p & _ & E).
  apply bind_ok in E as (s & _ & E). cbv zeta in E. apply bind_ok in E as (h1 & E1 & E).
  apply bind_ok in E as (h2 & E2 & E). injection E as <- _.
  apply prepare_header_inv in E1 as (q & bits & _ & _ & ->).
  destruct (finalize _ txs s) as [r s1] eqn:Ef. cbn [fst] in E2. subst r.
  now apply finalize_inv in Ef as (merkle & _ & _ & ->).
Qed.

(** ** The search *)

Lemma mine_turn_quiet c h i nh now t :
  current_header c = Ok (Some h) -> i <> SHUTDOWN -> network_level nh <= level (raw h) < level t ->
  0 <= header_nonce t -> header_nonce t + 1 < 2 ^ 64 ->
  let t' := set_nonces t (mix_nonce t) (header_nonce t + 1) in
  mine_turn i nh now c t =
    match verify_header network (chain_reader (cs_store c)) now t' with
    | Ok _ => Ok (Mined t') | Err _ => Ok (Again t') | Panic => Panic
    end.
Proof.
  intros Hc Hi Hl Hn0 Hn t'. unfold mine_turn. rewrite (proj2 (Z.eqb_neq _ _) Hi), Hc. cbn [unwrap mbind result_bind].
  rewrite (proj2 (Z.ltb_ge _ _)) by lia. rewrite next_nonce_spec by (unfold is_u; lia).
  rewrite (wrap_id 64 (header_nonce t + 1)) by (unfold is_u; lia). cbn [mbind result_bind]. fold t'.
  destruct (verify_header _ _ _ t') as [[]|e|]; try easy. unfold level_or_zero. rewrite Hc. cbn [mbind result_bind].
  now rewrite (proj2 (Z.leb_gt (level t') _)) by (cbn; lia).
Qed.

(** What the other tasks do leaves the chain alone. *)
Definition chain_stays (f : Node -> Node) : Prop := forall n, node_chain (f n) = node_chain n.

(** The search without interference.  As long as the head stays and the peers
    are not ahead, the worker tries the nonces one by one, changing nothing else,
    and returns the header with the first nonce whose hash meets the target. *)
Theorem mine_loop_first fuel0 h i peers now others k n t :
  current_header (node_chain n) = Ok (Some h) -> i <> SHUTDOWN -> (forall j, chain_stays (others j)) ->
  (forall j, network_level (peers j) <= level (raw h)) -> level (raw h) < level t ->
  0 <= header_nonce t -> header_nonce t + Z.of_nat k + 1 < 2 ^ 64 ->
  (forall j, (j < k)%nat -> exists e, verify_header network (chain_reader (cs_store (node_chain n))) (now (fuel0 + j)%nat)
     (set_nonces t (mix_nonce t) (header_nonce t + Z.of_nat j + 1)) = Err e) ->
  verify_header network (chain_reader (cs_store (node_chain n))) (now (fuel0 + k)%nat)
    (set_nonces t (mix_nonce t) (header_nonce t + Z.of_nat k + 1)) = Ok tt ->
  exists n', mine_loop (S k) fuel0 i peers now others t n =
    (Ok (Some (set_nonces t (mix_nonce t) (header_nonce t + Z.of_nat k + 1))), n') /\ node_chain n' = node_chain n.
Proof.
  intros Hc Hi Ho Hp. revert fuel0 t n Hc. induction k as [|k IH]; intros k0 t n Hc Hl Hn0 Hn Hb Hv.
  - cbn [mine_loop]. unfold mbind, stM_bind, modify, gets, lift. rewrite (Ho k0 n).
    rewrite (mine_turn_quiet _ h i _ _ t Hc Hi) by (try split; auto; lia).
    rewrite Nat.add_0_r in Hv. rewrite Z.add_0_r in Hv |- *. rewrite Hv. exists (others k0 n). split; [reflexivity|apply Ho].
  - cbn [mine_loop]. unfold mbind at 1, stM_bind at 1, modify at 1. unfold mbind at 1, stM_bind at 1, gets at 1.
    unfold mbind at 1, stM_bind at 1, lift at 1. rewrite (Ho k0 n).
    rewrite (mine_turn_quiet _ h i _ _ t Hc Hi) by (try split; auto; lia).
    destruct (Hb 0%nat) as [e E]; [lia|]. rewrite Nat.add_0_r, Z.add_0_r in E. rewrite E.
    set (t' := set_nonces t (mix_nonce t) (header_nonce t + 1)).
    assert (forall j, set_nonces t' (mix_nonce t') (header_nonce t' + Z.of_nat j + 1) =
      set_nonces t (mix_nonce t) (header_nonce t + Z.of_nat (S j) + 1)) as Eq.
    { intros j. unfold t'. cbn [set_nonces mix_nonce header_nonce]. unfold set_nonces. f_equal. lia. }
    destruct (IH (S k0) t' (others k0 n)) as (n' & En & Hn');
      rewrite ?(Ho k0 n); [exact Hc | exact Hl | cbn; lia | cbn; lia | | |].
    + intros j Hj. rewrite Eq. replace (S k0 + j)%nat with (k0 + S j)%nat by lia. apply Hb. lia.
    + rewrite Eq. now replace (S k0 + k)%nat with (k0 + S k)%nat by lia.
    + exists n'. split; [|now rewrite Hn', (Ho k0 n)]. rewrite <- Eq. exact En.
Qed.

(** ** What the worker finds becomes the head *)

Lemma put_chain_single hash_order n h b n' :
  consistent (node_chain n) h -> parent_hash (header b) = header_hash h ->
  put_block hash_order network clock (indexed h) b n = (Ok tt, n') ->
  put_chain hash_order network clock [b] n = (Ok tt, n').
Proof.
  intros C Hp Eb. unfold put_chain. st_step reflexivity.
  st_step (unfold lift; rewrite (consistent_current _ _ C); reflexivity).
  st_step reflexivity. st_step reflexivity. cbn [ih_hash indexed]. rewrite bool_decide_eq_true_2 by exact Hp. cbn [negb andb].
  st_step reflexivity. cbn [for_each]. st_step (exact Eb). reflexivity.
Qed.
Lemma put_on_head hash_order n h b :
  codec_ok prost_BlockHeader wf_header -> codec_ok prost_ChainStateValue wf_header ->
  consistent (node_chain n) h -> cs_events (node_chain n) <> None -> wf_header (header b) ->
  fresh (cs_store (node_chain n)) b -> (exists tb, encode prost_Transactions (transactions b) = Ok tb) ->
  state_root (header b) <> state_root h -> state_root (header b) <> H256_zero ->
  (forall s store p, (repack s store (Some h) (header b) p).1 = Ok tt) ->
  parent_hash (header b) = header_hash h -> expected_header network (node_chain n) b = Ok (header b) ->
  process_block network clock (node_chain n) b = Ok b ->
  exists n', put_block hash_order network clock (indexed h) b n = (Ok tt, n') /\
    get_current_header (cs_store (node_chain n')) = Ok (Some (header b)) /\
    root (head (trie (cs_state (node_chain n')))) = state_root (header b).
Proof.
  intros Hcod Hhead C Ho W Fr [tb Etb] Hr Hz Hrep Hp Ee Epb.
  destruct (accept_on_head_advances network Hhead _ _ _ C W Ee Hp Hr Hz) as (c1 & E1 & A).
  destruct (cs_events (node_chain n)) as [l|]; [|now destruct Ho].
  destruct (BlockStorage_put_spec b (cs_store c1) tb Hcod (adv_columns _ _ _ A) W Etb) as (s2 & E2 & Sb).
  { rewrite (adv_frame _ _ _ A) by discriminate. exact Fr. }
  pose proof (Hrep (cs_state c1) s2 (node_pool n)) as Hrp.
  destruct (repack (cs_state c1) s2 (Some h) (header b) (node_pool n)) as [rr pool] eqn:Erp. cbn [fst] in Hrp. subst rr.
  exists {| node_chain := set_cs_store s2 c1; node_pool := pool |}. split; [|split; cbn [node_chain cs_store cs_state set_cs_store]].
  - unfold put_block. st_step reflexivity. st_step (unfold lift; rewrite Epb; reflexivity).
    assert (accept_block hash_order b (node_chain n) = (Ok (true, true, b), c1)) as Ea.
    { unfold accept_block. st_step reflexivity. st_step (unfold lift; rewrite (consistent_current _ _ C); reflexivity). st_step reflexivity.
      cbn [ih_hash indexed]. rewrite bool_decide_eq_true_2 by exact Hp.
      assert ((_ ← accept_on_head b; mret true) (node_chain n) = (Ok true, c1)) as E3 by (st_step (exact E1); reflexivity).
      st_step (exact E3). reflexivity. }
    st_step (unfold zoom; rewrite Ea; reflexivity). cbv beta iota.
    st_step (unfold zoom, write_store, zoom; cbn [node_chain set_node_chain]; rewrite E2; reflexivity).
    st_step reflexivity. unfold zoom. cbn [node_chain node_pool set_node_chain cs_state cs_store set_cs_store raw indexed].
    rewrite Erp. reflexivity.
  - unfold get_current_header. rewrite (sb_head _ _ _ Sb). apply (adv_current _ _ _ A).
  - apply (adv_live _ _ _ A).
Qed.


(** The extra nonce is dead: the nonce of a header has 64 bits, the test for
    its overflow is against 128, so that no turn changes [mix_nonce] and after
    the last nonce the search starts again from zero. *)
Theorem mix_nonce_never_used i nh now c t r :
  is_u 64 (header_nonce t) -> mine_turn i nh now c t = Ok r ->
  match r with
  | GiveUp => True
  | Again t' | Mined t' => t' = set_nonces t (mix_nonce t) (u64 (header_nonce t + 1))
  end.
Proof.
  intros Hn E. apply mine_turn_inv in E as [->|[->|[-> _]]]; easy.
Qed.
End Miner.

(** ** Mining evaluated *)

#[local] Existing Instances easy_crypto easy_crypto_laws no_machine no_machine_laws.
Definition demo_template : BlockHeader * list SignedTransaction :=
  ok_default (example_header, []) (block_template Testnet (demo_dst 1) 1000 [] demo_chain).
Lemma demo_template_ok : block_template Testnet (demo_dst 1) 1000 [] demo_chain = Ok demo_template.
Proof. apply ok_default_eq. vm_compute. reflexivity. Qed.
Lemma demo_template_pair : block_template Testnet (demo_dst 1) 1000 [] demo_chain = Ok (demo_template.1, demo_template.2).
Proof. rewrite demo_template_ok. now destruct demo_template. Qed.
Definition demo_mined : BlockHeader := set_nonces demo_template.1 0 8.
Lemma demo_turn : mine_turn Testnet START None 1500 demo_chain (set_nonces demo_template.1 0 7) = Ok (Mined demo_mined).
Proof. vm_compute. reflexivity. Qed.
Lemma mined_block_accepted_witness :
  process_block Testnet demo_clock demo_chain {| header := demo_mined; transactions := demo_template.2 |} =
    Ok {| header := demo_mined; transactions := demo_template.2 |}.
Proof.
  exact (mined_block_accepted Testnet demo_clock demo_chain demo_genesis (demo_dst 1) 1000 [] demo_template.1 demo_template.2
    0 7 START None 1500 demo_mined demo_chain_consistent demo_template_pair ltac:(unfold is_u; lia) demo_turn
    ltac:(unfold demo_clock; lia) ltac:(unfold demo_clock; lia)).
Defined.
Lemma demo_verified : verify_header Testnet (chain_reader (cs_store demo_chain)) 1500
  (set_nonces demo_template.1 (mix_nonce demo_template.1) (header_nonce demo_template.1 + Z.of_nat 0 + 1)) = Ok tt.
Proof. vm_compute. reflexivity. Qed.
Lemma demo_template_level : level (raw (indexed demo_genesis)) = 0 /\ level demo_template.1 = 1 /\ header_nonce demo_template.1 = 0.
Proof. vm_compute. auto. Qed.
Lemma mix_nonce_never_used_witness : demo_mined = set_nonces (set_nonces demo_template.1 0 7) 0 (u64 (7 + 1)).
Proof.
  exact (mix_nonce_never_used Testnet START None 1500 demo_chain (set_nonces demo_template.1 0 7) (Mined demo_mined)
    ltac:(unfold is_u; cbn; lia) demo_turn).
Defined.

(** A worker on a chain at its genesis, with no pool to repack. *)
#[local] Instance quiet_services : ChainServices := {|
  load_application _ _ := Ok tt;
  create_application _ _ _ _ _ := Err "no machine"%string;
  TxPool := unit;
  repack _ _ _ _ p := (Ok tt, p);
|}.
Definition mining_node : Node := {| node_chain := demo_chain; node_pool := tt |}.
Definition quiet (k : nat) (n : Node) : Node := n.
Lemma mining_consistent : consistent (node_chain mining_node) demo_genesis.
Proof. unfold mining_node. cbn [node_chain]. exact demo_chain_consistent. Qed.
Lemma mine_loop_first_witness :
  exists n', mine_loop Testnet 1 0 START (fun _ => None) (fun _ => 1500) quiet demo_template.1 mining_node =
    (Ok (Some (set_nonces demo_template.1 (mix_nonce demo_template.1) (header_nonce demo_template.1 + Z.of_nat 0 + 1))), n') /\
    node_chain n' = node_chain mining_node.
Proof.
  pose proof demo_template_level as (L0 & L1 & N0).
  exact (mine_loop_first Testnet 0 (indexed demo_genesis) START (fun _ => None) (fun _ => 1500) quiet 0 mining_node demo_template.1
    (consistent_current _ _ mining_consistent) ltac:(discriminate) (fun j n => eq_refl)
    ltac:(intros j; cbn [network_level]; lia) ltac:(lia) ltac:(lia) ltac:(lia)
    ltac:(intros j Hj; lia) demo_verified).
Defined.

Definition demo_found : Block :=
  {| header := set_nonces demo_template.1 (mix_nonce demo_template.1) (Z.of_nat 0 + 1); transactions := demo_template.2 |}.
Lemma demo_found_fresh : fresh (cs_store (node_chain mining_node)) demo_found.
Proof. left. vm_compute. reflexivity. Qed.
Lemma demo_found_verified :
  verify_header Testnet (chain_reader (cs_store (node_chain mining_node))) 1500 (header demo_found) = Ok tt.
Proof. vm_compute. reflexivity. Qed.
Lemma demo_found_root : state_root demo_template.1 <> state_root demo_genesis /\ state_root demo_template.1 <> H256_zero.
Proof. split; vm_compute; discriminate. Qed.
Lemma demo_found_encodes : exists tb, encode prost_Transactions demo_template.2 = Ok tb.
Proof. eexists. vm_compute. reflexivity. Qed.
Lemma mining_events : cs_events (node_chain mining_node) <> None.
Proof. vm_compute. discriminate. Qed.
Lemma demo_miner : is_bytes 44 (demo_dst 1).
Proof. apply (bool_decide_unpack _). vm_compute. exact Logic.I. Qed.
