(* ===== verification/Runtime.v ===== *)
(** * The machine and its host functions

    src/runtime/vm: the environments an application runs in (env.rs) and the
    machine that runs it (lib.rs).  An application is a [Guest], the tree of the
    host functions it calls: wasmtime and the code it runs are the parameter
    [WasmEngine], which gives a guest for each export of a component.  A host
    function that fails traps the guest, one that panics takes the node with
    it, and a guest that never returns is [Diverge] (the engine is configured
    without fuel).

    [WasmVM_instance] is the machine behind the interface [WasmVMInstance]
    through which the account state executes transactions. *)
From S2P Require Import Prelude Crypto Types Consensus Smt Codec SmtTree SmtProofs SmtTheorems TreeDb State StateProofs.

(** ** Host functions (the interfaces of runtime/spec) *)

Inductive HostCall :=
| BlockHash (level : Z)
| AddressFromPk (pk : bytes)
| GenerateKeypair
| GenerateNativeAddress (seed : bytes)
| Sign (sk msg : bytes)
| Transfer (to : bytes) (amount : Z)
| Reserve (amount : Z)
| Unreserve (amount : Z)
| GetFreeBalance (address : bytes)
| GetNonce (address : bytes)
| GetReserveBalance (address : bytes)
| StorageInsert (key value : bytes)
| StorageGet (key : bytes)
| StorageRemove (key : bytes)
| Emit (event_type : str) (event_data : bytes)
| Log (output : str)
| ContextValue
| ContextBlockLevel
| ContextSender
| ContextNetwork
| ContextSenderPk.

Inductive Answer :=
| AUnit
| ABool (b : bool)
| AInt (n : Z)
| ABytes (b : bytes)
| AOption (o : option bytes)
| APair (a b : bytes).

(** The run of an exported function; [I] is the memory of the instance, kept
    between calls, which each leaf and each host call that fails leaves behind. *)
Inductive Guest (I A : Type) :=
| Return (i : I) (a : A)
| Trap (i : I) (e : anyhow)
| Diverge
| Host (c : HostCall) (aborted : I) (k : Answer -> Guest I A).
Arguments Return {I A} i a.
Arguments Trap {I A} i e.
Arguments Diverge {I A}.
Arguments Host {I A} c aborted k.

Section Run.
Context {I A St : Type} (handler : HostCall -> stM St anyhow Answer).
Fixpoint run_guest (g : Guest I A) (s : St) : result anyhow A * option I * St :=
  match g with
  | Return i a => (Ok a, Some i, s)
  | Trap i e => (Err e, Some i, s)
  | Diverge => (Panic, None, s)
  | Host c i k =>
    match handler c s with
    | (Ok ans, s') => run_guest (k ans) s'
    | (Err e, s') => (Err e, Some i, s')
    | (Panic, s') => (Panic, None, s')
    end
  end.

(** What every host call that returns keeps, a guest that returns keeps. *)
Lemma run_guest_keeps (R : St -> St -> Prop) `{!PreOrder R} g s :
  (forall c s, (handler c s).1 <> Panic -> R s (handler c s).2) ->
  (run_guest g s).1.1 <> Panic -> R s (run_guest g s).2.
Proof.
  intros HR. revert s. induction g as [| | |c i k IH]; intros s; cbn [run_guest fst snd]; try reflexivity.
  specialize (HR c s). destruct (handler c s) as [[ans|e|] s']; cbn [fst snd] in *; auto.
  intros Hp. etrans; [now apply HR | now apply IH].
Qed.
End Run.

(** ** The environment of a transaction

    [env_entropy] is what the operating system yields, draw by draw, while the
    environment is in use, and [env_draws] the number of draws made: two runs do
    not have the same in common. *)

Record ExecutionEnvironment := {
  env_network : Network; env_sender : Address; env_app : Address; env_value : Z;
  env_storage : SparseMerkleTree; env_state_db : State; env_blockchain : ChainHeadReader;
  env_accounts : Accounts; env_events : list (str * bytes);
  env_entropy : nat -> H256; env_draws : nat }.
Definition set_env_storage (t : SparseMerkleTree) (e : ExecutionEnvironment) : ExecutionEnvironment :=
  {| env_network := env_network e; env_sender := env_sender e; env_app := env_app e; env_value := env_value e;
     env_storage := t; env_state_db := env_state_db e; env_blockchain := env_blockchain e;
     env_accounts := env_accounts e; env_events := env_events e;
     env_entropy := env_entropy e; env_draws := env_draws e |}.
Definition set_env_accounts (m : Accounts) (e : ExecutionEnvironment) : ExecutionEnvironment :=
  {| env_network := env_network e; env_sender := env_sender e; env_app := env_app e; env_value := env_value e;
     env_storage := env_storage e; env_state_db := env_state_db e; env_blockchain := env_blockchain e;
     env_accounts := m; env_events := env_events e;
     env_entropy := env_entropy e; env_draws := env_draws e |}.
Definition set_env_events (l : list (str * bytes)) (e : ExecutionEnvironment) : ExecutionEnvironment :=
  {| env_network := env_network e; env_sender := env_sender e; env_app := env_app e; env_value := env_value e;
     env_storage := env_storage e; env_state_db := env_state_db e; env_blockchain := env_blockchain e;
     env_accounts := env_accounts e; env_events := l;
     env_entropy := env_entropy e; env_draws := env_draws e |}.
Definition set_env_entropy (f : nat -> H256) (n : nat) (e : ExecutionEnvironment) : ExecutionEnvironment :=
  {| env_network := env_network e; env_sender := env_sender e; env_app := env_app e; env_value := env_value e;
     env_storage := env_storage e; env_state_db := env_state_db e; env_blockchain := env_blockchain e;
     env_accounts := env_accounts e; env_events := env_events e; env_entropy := f; env_draws := n |}.
Definition set_reserve_balance (b : Z) (a : AccountState) : AccountState :=
  {| free_balance := free_balance a; reserve_balance := b; acc_nonce := acc_nonce a; app_state := app_state a |}.

(** [From<&ExecutionEnvironment> for Changelist] *)
Definition Changelist_from (e : ExecutionEnvironment) : Changelist :=
  {| account_changes := env_accounts e; logs := env_events e; storage := env_storage e |}.

Section Runtime.
Context `{CryptoPrims} `{Bincode}.
(** [VerifyingKey::from_sec1_bytes] (k256) *)
Variable from_sec1_bytes : bytes -> option VerifyingKey.

Abbreviation envM := (stM ExecutionEnvironment anyhow).

Definition ExecutionEnvironment_new (origin app_id : Address) (value : Z) (storage : SparseMerkleTree)
    (state_db : State) (blockchain : ChainHeadReader) (entropy : nat -> H256) : result anyhow ExecutionEnvironment :=
  a ← account_state state_db app_id;
  network ← ok_or_else (address_network app_id) "network not found";
  Ok {| env_network := network; env_sender := origin; env_app := app_id; env_value := value;
        env_storage := storage; env_state_db := state_db; env_blockchain := blockchain;
        env_accounts := {[app_id := set_free_balance (u64 (free_balance a + value)) a]};
        env_events := []; env_entropy := entropy; env_draws := 0 |}.

(** [get_account_state]: an account is read from the state database once. *)
Definition env_account (address : Address) : envM AccountState := fun e =>
  match env_accounts e !! address with
  | Some a => (Ok a, e)
  | None =>
    match account_state (env_state_db e) address with
    | Ok a => (Ok a, set_env_accounts (<[address := a]> (env_accounts e)) e)
    | Err m => (Err m, e)
    | Panic => (Panic, e)
    end
  end.
(** Assignments through the reference it returns. *)
Definition put_env_account (address : Address) (a : AccountState) : envM unit :=
  modify (fun e => set_env_accounts (<[address := a]> (env_accounts e)) e).

(** *** Syscall *)
Definition host_block_hash (level : Z) : envM bytes :=
  chain ← gets env_blockchain;
  lift (match get_header_by_level chain level with
        | Ok (Some b) => Ok (ih_hash b)
        | Panic => Panic
        | _ => Ok []
        end).
Definition PublicKey_from_bytes (b : bytes) : result CryptoError VerifyingKey :=
  match from_sec1_bytes b with Some k => Ok k | None => Err EcdsaError end.
Definition crypto_error {A} (r : result CryptoError A) : result anyhow A :=
  conv (fun e => match e with EcdsaError => "ecdsa error" | RSVInvalid => "rsv invalid" end) r.
Definition host_address_from_pk (pk : bytes) : envM bytes :=
  network ← gets env_network;
  lift (k ← crypto_error (PublicKey_from_bytes pk); get_address_from_pub_key k network).
(** [account::create_account] with the secret drawn, [Account::public_key] *)
Definition draw : envM H256 := fun e =>
  (Ok (env_entropy e (env_draws e)), set_env_entropy (env_entropy e) (S (env_draws e)) e).
Definition host_generate_keypair : envM (bytes * bytes) :=
  network ← gets env_network;
  drawn ← draw;
  lift (match SecretKey_from_bytes drawn with
        | Ok sk =>
          _ ← get_address_from_pub_key (SecretKey_public sk) network;
          Ok (drawn, PublicKey_hash (SecretKey_public sk))
        | _ => Panic
        end).
Definition host_generate_native_address (seed : bytes) : envM bytes :=
  network ← gets env_network;
  lift (get_address_from_seed seed network).
Definition host_sign (sk msg : bytes) : envM bytes :=
  lift (sk ← crypto_error (SecretKey_from_bytes sk);
        sig ← crypto_error (SecretKey_sign sk msg);
        Ok (signature_as_bytes sig)).

Definition host_transfer (to : bytes) (amount : Z) : envM bool :=
  to ← lift (Address_from_slice to);
  app ← gets env_app;
  from_acc ← env_account app;
  _ ← lift (ensure (0 <? free_balance from_acc - amount) "Condition failed");
  _ ← put_env_account app (set_free_balance (u64 (free_balance from_acc - amount)) from_acc);
  to_acc ← env_account to;
  _ ← put_env_account to (set_free_balance (u64 (free_balance to_acc + amount)) to_acc);
  mret true.
Definition host_reserve (amount : Z) : envM bool :=
  sender ← gets env_sender;
  from_acc ← env_account sender;
  _ ← lift (ensure (0 <? free_balance from_acc - amount) "Condition failed");
  _ ← put_env_account sender
        (set_reserve_balance (u64 (reserve_balance from_acc + amount))
           (set_free_balance (u64 (free_balance from_acc - amount)) from_acc));
  mret true.
Definition host_unreserve (amount : Z) : envM bool :=
  sender ← gets env_sender;
  from_acc ← env_account sender;
  _ ← lift (ensure (0 <? reserve_balance from_acc - amount) "Condition failed");
  _ ← put_env_account sender
        (set_free_balance (u64 (free_balance from_acc + amount))
           (set_reserve_balance (u64 (reserve_balance from_acc - amount)) from_acc));
  mret true.
Definition host_read_account {A} (f : AccountState -> A) (address : bytes) : envM A :=
  address ← lift (Address_from_slice address);
  a ← env_account address;
  mret (f a).
Definition host_get_free_balance : bytes -> envM Z := host_read_account free_balance.
Definition host_get_nonce : bytes -> envM Z := host_read_account acc_nonce.
Definition host_get_reserve_balance : bytes -> envM Z := host_read_account reserve_balance.

(** *** Storage *)
Definition smt_error {A} (r : result SmtError A) : result anyhow A := conv (fun _ => "smt error") r.
Definition host_insert (key value : bytes) : envM unit := fun e =>
  let '(r, t) := update keccak256 key value (env_storage e) in
  (match smt_error r with Ok _ => Ok tt | Err m => Err m | Panic => Panic end, set_env_storage t e).
Definition storage_get (t : SparseMerkleTree) (key : bytes) : result anyhow (option bytes) :=
  match get keccak256 t key with Ok data => Ok (Some data) | Err _ => Ok None | Panic => Panic end.
Definition host_get (key : bytes) : envM (option bytes) :=
  t ← gets env_storage;
  lift (storage_get t key).
Definition host_remove (key : bytes) : envM bool := fun e =>
  let '(r, t) := update keccak256 key [] (env_storage e) in
  (match r with Panic => Panic | _ => Ok (is_ok r) end, set_env_storage t e).

(** *** Events and context *)
Definition host_emit (event_type : str) (event_data : bytes) : envM unit :=
  modify (fun e => set_env_events (env_events e ++ [(event_type, event_data)]) e).

(** Integers cross the interface at its width. *)
Definition host (c : HostCall) : envM Answer :=
  match c with
  | BlockHash level => b ← host_block_hash (u32 level); mret (ABytes b)
  | AddressFromPk pk => b ← host_address_from_pk pk; mret (ABytes b)
  | GenerateKeypair => '(sk, pk) ← host_generate_keypair; mret (APair sk pk)
  | GenerateNativeAddress seed => b ← host_generate_native_address seed; mret (ABytes b)
  | Sign sk msg => b ← host_sign sk msg; mret (ABytes b)
  | Transfer to amount => b ← host_transfer to (u64 amount); mret (ABool b)
  | Reserve amount => b ← host_reserve (u64 amount); mret (ABool b)
  | Unreserve amount => b ← host_unreserve (u64 amount); mret (ABool b)
  | GetFreeBalance a => n ← host_get_free_balance a; mret (AInt n)
  | GetNonce a => n ← host_get_nonce a; mret (AInt n)
  | GetReserveBalance a => n ← host_get_reserve_balance a; mret (AInt n)
  | StorageInsert k v => _ ← host_insert k v; mret AUnit
  | StorageGet k => o ← host_get k; mret (AOption o)
  | StorageRemove k => b ← host_remove k; mret (ABool b)
  | Emit t d => _ ← host_emit t d; mret AUnit
  | Log _ => mret AUnit
  | ContextValue => v ← gets env_value; mret (AInt v)
  | ContextBlockLevel => lift Panic
  | ContextSender => a ← gets env_sender; mret (ABytes a)
  | ContextNetwork => n ← gets env_network; mret (AInt (chain_id n))
  | ContextSenderPk => lift Panic
  end.

(** ** The environment of a query *)

Record QueryEnvironment := { q_storage : SparseMerkleTree; q_state_db : State }.

Definition query_account {A} (f : AccountState -> A) (q : QueryEnvironment) (address : bytes) : result anyhow A :=
  address ← Address_from_slice address;
  a ← account_state (q_state_db q) address;
  Ok (f a).
Definition query_answer (q : QueryEnvironment) (c : HostCall) : result anyhow Answer :=
  match c with
  | GetFreeBalance a => n ← query_account free_balance q a; Ok (AInt n)
  | GetNonce a => n ← query_account acc_nonce q a; Ok (AInt n)
  | GetReserveBalance a => n ← query_account reserve_balance q a; Ok (AInt n)
  | StorageGet k => o ← storage_get (q_storage q) k; Ok (AOption o)
  | StorageInsert _ _ | StorageRemove _ => bail "cannot mutate state in query environment"
  | Emit _ _ => bail "cannot emit events in query environment"
  | Log _ => bail "cannot log in query environment"
  | ContextValue | ContextBlockLevel | ContextSender | ContextNetwork | ContextSenderPk =>
    bail "execution context not available in query environment"
  | BlockHash _ => bail "cannot make sys call (block_hash) in query environment"
  | AddressFromPk _ => bail "cannot make sys call (address_from_pk) in query environment"
  | GenerateKeypair => bail "cannot make sys call (generate_keypair) in query environment"
  | GenerateNativeAddress _ => bail "cannot make sys call (generate_native_address) in query environment"
  | Sign _ _ => bail "cannot make sys call (sign) in query environment"
  | Transfer _ _ => bail "cannot make sys call (transfer) in query environment"
  | Reserve _ => bail "cannot make sys call (reserve) in query environment"
  | Unreserve _ => bail "cannot make sys call (unreserve) in query environment"
  end.
Definition query_host (c : HostCall) : stM QueryEnvironment anyhow Answer :=
  q ← gets (fun q => q);
  lift (query_answer q c).

End Runtime.

(** ** The machine *)

(** [Component::from_binary], [Linker::instantiate] and [Runtime::new], and the
    exports of a runtime application *)
Class WasmEngine := {
  AppInstance : Type;
  instantiate : bytes -> Guest unit AppInstance;
  guest_genesis : AppInstance -> Guest AppInstance unit;
  guest_call : AppInstance -> Z -> Z -> bytes -> Guest AppInstance unit;
  guest_query : AppInstance -> Z -> Z -> bytes -> Guest AppInstance bytes;
  guest_descriptor : AppInstance -> Guest AppInstance bytes;
}.

Section Machine.
Context `{CryptoPrims} `{Bincode} `{WasmEngine}.
Variable from_sec1_bytes : bytes -> option VerifyingKey.
(** The entropy an operation of the machine finds: instantiating an application
    draws from the even places, running it from the odd ones. *)
Variable entropy : nat -> H256.
Abbreviation run_env := (run_guest (host from_sec1_bytes)).
Abbreviation run_query := (run_guest query_host).

Record WasmVM := {
  vm_blockchain : ChainHeadReader; apps : gmap Address (AppInstance * ExecutionEnvironment) }.
Definition WasmVM_new (blockchain : ChainHeadReader) : WasmVM := {| vm_blockchain := blockchain; apps := ∅ |}.
Definition set_apps (m : gmap Address (AppInstance * ExecutionEnvironment)) (v : WasmVM) : WasmVM :=
  {| vm_blockchain := vm_blockchain v; apps := m |}.
Abbreviation vmM := (stM WasmVM anyhow).

(** A call in a store that the function owns, [call(&mut store, ..)?]. *)
Definition call_store {I A St} (handler : HostCall -> stM St anyhow Answer) (i : I) (g : Guest I A) (s : St) :
    result anyhow (A * I * St) :=
  match run_guest handler g s with
  | (Ok a, o, s') => Ok (a, default i o, s')
  | (Err m, _, _) => Err m
  | (Panic, _, _) => Panic
  end.

Definition create_application (state_db : State) (origin app_id : Address) (value : Z) (binary : bytes) :
    vmM (bytes * Changelist) :=
  chain ← gets vm_blockchain;
  lift (env ← ExecutionEnvironment_new origin app_id value smt_new state_db chain entropy;
        '(app, _, env) ← call_store (host from_sec1_bytes) tt (instantiate binary) env;
        '(_, app, env) ← call_store (host from_sec1_bytes) app (guest_genesis app) env;
        '(descriptor, _, env) ← call_store (host from_sec1_bytes) app (guest_descriptor app) env;
        Ok (descriptor, Changelist_from env)).

Definition load_application (state_db : State) (app_id : Address) : vmM unit :=
  m ← gets apps;
  if bool_decide (is_Some (m !! app_id)) then mret tt
  else
    chain ← gets vm_blockchain;
    '(app, env) ← lift (
      binary ← get_app_source state_db app_id;
      storage ← get_app_data state_db app_id;
      env ← ExecutionEnvironment_new Address_default app_id 0 storage state_db chain (fun k => entropy (2 * k)%nat);
      '(app, _, env) ← call_store (host from_sec1_bytes) tt (instantiate binary) env;
      Ok (app, env));
    modify (fun v => set_apps (<[app_id := (app, env)]> (apps v)) v).

(** A call in the store kept for an application: the instance and the
    environment it leaves stay there, whatever it returns. *)
Definition call_kept {A} (app_id : Address) (f : AppInstance -> Guest AppInstance A) (app : AppInstance)
    (env : ExecutionEnvironment) : vmM (A * ExecutionEnvironment) := fun v =>
  let '(r, i, env') := run_env (f app) env in
  (match r with Ok a => Ok (a, env') | Err m => Err m | Panic => Panic end,
   set_apps (<[app_id := (default app i, env')]> (apps v)) v).

Definition execute_call (state_db : State) (origin : Address) (app_id : Address) (service method : Z)
    (args : bytes) (value : Z) : vmM Changelist :=
  _ ← load_application state_db app_id;
  storage ← lift (get_app_data state_db app_id);
  m ← gets apps;
  '(app, _) ← lift (ok_or_else (m !! app_id) "app not found");
  chain ← gets vm_blockchain;
  env ← lift (ExecutionEnvironment_new origin app_id value storage state_db chain (fun k => entropy (2 * k + 1)%nat));
  '(_, env) ← call_kept app_id (fun app => guest_call app service method args) app env;
  mret (Changelist_from env).

Definition execute_query (state_db : State) (app_id : Address) (service method : Z) (args : bytes) :
    vmM bytes :=
  lift (binary ← get_app_source state_db app_id;
        storage ← get_app_data state_db app_id;
        let env := {| q_storage := storage; q_state_db := state_db |} in
        '(app, _, env) ← call_store query_host tt (instantiate binary) env;
        '(r, _, _) ← call_store query_host app (guest_query app service method args) env;
        Ok r).

Definition execute_get_app_descriptor (state_db : State) (app_id : Address) : vmM bytes :=
  _ ← load_application state_db app_id;
  m ← gets apps;
  '(app, env) ← lift (ok_or_else (m !! app_id) "app not loaded");
  '(d, _) ← call_kept app_id guest_descriptor app env;
  mret d.

(** [WasmVMInstance for WasmVM] *)
Definition vm_execute_app_create (state_db : State) (sender : Address) (value : Z) (package_name : str)
    (binary : bytes) : vmM (bytes * Changelist) :=
  network ← lift (ok_or_else (address_network sender) "invalid network");
  app_id ← lift (get_address_from_seed (utf8 package_name) network);
  create_application state_db sender app_id value binary.
Definition vm_execute_app_tx (state_db : State) (sender : Address) (value : Z) (app_id : Address)
    (service method : Z) (args : bytes) : vmM Changelist :=
  execute_call state_db sender app_id service method args value.

(** The machine as the account state sees it while the cache is [v] and the
    operating system yields [entropy]: one operation, whose effect on the cache is
    left out.  Machine.v says for which applications later operations give the
    same results. *)
Definition WasmVM_instance (v : WasmVM) (enc : H256 -> Address -> result anyhow bytes) (xxh3_64 : bytes -> Z) :
    WasmVMInstance := {|
  execute_app_create s sender value name bin := (vm_execute_app_create s sender value name bin v).1;
  execute_app_tx s sender value app_id service method args :=
    (vm_execute_app_tx s sender value app_id service method args v).1;
  encode_namespace := enc;
  twox_64_hash := xxh3_64 |}.

End Machine.

(** ** Accounts seen through an environment *)

(** An account: the copy in the map, or else what the database holds. *)
Definition look `{CryptoPrims} `{Bincode} (m : Accounts) (s : State) (a : Address) : AccountState :=
  match m !! a with
  | Some st => st
  | None => match account_state s a with Ok st => st | _ => AccountState_new end
  end.
Definition wealth (a : AccountState) : Z := free_balance a + reserve_balance a.
Definition total (f : Address -> AccountState) (A : list Address) : Z := foldr (fun a acc => wealth (f a) + acc) 0 A.
Definition balanced (a : AccountState) : Prop := is_u 64 (free_balance a) /\ is_u 64 (reserve_balance a).

Lemma total_cons f a A : total f (a :: A) = wealth (f a) + total f A.
Proof. reflexivity. Qed.
Lemma total_ext f g A : (forall a, In a A -> wealth (f a) = wealth (g a)) -> total f A = total g A.
Proof. induction A as [|a A IH]; simpl; intros E; [done|]. rewrite E, IH; auto. Qed.
Definition all_balanced (f : Address -> AccountState) (A : list Address) : Prop := forall a, In a A -> balanced (f a).

Lemma total_nonneg f A : all_balanced f A -> 0 <= total f A.
Proof.
  induction A as [|a A IH]; simpl; intros W; [lia|]. destruct (W a) as [[? _] [? _]]; [now left|].
  unfold wealth. specialize (IH (fun b Hb => W b (or_intror Hb))). lia.
Qed.
(** One account changed. *)
Lemma total_update f g A a :
  NoDup A -> In a A -> (forall b, b <> a -> g b = f b) -> total g A = total f A - wealth (f a) + wealth (g a).
Proof.
  intros N Ha E. induction N as [|b A Hb N IH]; [destruct Ha|]. destruct Ha as [->|Ha]; rewrite !total_cons.
  - rewrite (total_ext g f A); [lia|].
    intros b Hb'. rewrite E; auto. intros ->. now apply Hb, list_elem_of_In.
  - rewrite E by (intros ->; now apply Hb, list_elem_of_In). rewrite IH by auto. lia.
Qed.
Lemma total_ge f A a : all_balanced f A -> In a A -> wealth (f a) <= total f A.
Proof.
  induction A as [|b A IH]; intros W; [intros []|].
  assert (all_balanced f A) as W' by (intros c Hc; apply W; now right). specialize (IH W').
  pose proof (total_nonneg f A W') as T. destruct (W b) as [[? _] [? _]]; [now left|]. unfold wealth in *. intros [->|Ha]; rewrite total_cons; unfold wealth; [lia|].
  specialize (IH Ha). lia.
Qed.
Lemma total_ge2 f A a b :
  all_balanced f A -> NoDup A -> In a A -> In b A -> a <> b -> wealth (f a) + wealth (f b) <= total f A.
Proof.
  intros W N Ha Hb Hne.
  set (g c := if decide (c = a) then AccountState_default else f c).
  assert (total g A = total f A - wealth (f a) + wealth (g a)) as E.
  { apply total_update; auto. intros c Hc. unfold g. now rewrite decide_False. }
  assert (all_balanced g A) as Wg by (intros c Hc; unfold g; case_decide; [split; unfold is_u; simpl; lia | auto]).
  pose proof (total_ge g A b Wg Hb) as L. revert E L. unfold g at 2 3. rewrite decide_True, decide_False by auto.
  change (wealth AccountState_default) with 0. lia.
Qed.

(** ** What a guest can do to the accounts *)

Section Frame.
Context `{CryptoPrims} `{Bincode}.
Abbreviation acct e := (look (env_accounts e) (env_state_db e)).

(** From [x] to [y], for the account [a]: its nonce and application stay, only
    the sender reserves, only the application and the sender pay, and no
    balance that was positive is emptied. *)
Definition account_frame (sender app a : Address) (x y : AccountState) : Prop :=
  acc_nonce y = acc_nonce x /\ app_state y = app_state x /\
  (a <> sender -> reserve_balance y = reserve_balance x) /\
  (a <> sender -> a <> app -> free_balance x <= free_balance y) /\
  (0 < free_balance x -> 0 < free_balance y) /\ (0 < reserve_balance x -> 0 < reserve_balance y).

(** The two environments belong to one call; accounts are only added. *)
Definition same_call (e e' : ExecutionEnvironment) : Prop :=
  env_sender e' = env_sender e /\ env_app e' = env_app e /\ env_state_db e' = env_state_db e /\
  forall a, is_Some (env_accounts e !! a) -> is_Some (env_accounts e' !! a).

(** [A] lists the accounts in use; what they hold together is representable. *)
Definition moves (e e' : ExecutionEnvironment) : Prop :=
  same_call e e' /\
  forall A, NoDup A -> (forall a, is_Some (env_accounts e' !! a) -> In a A) ->
    all_balanced (acct e) A -> total (acct e) A < 2 ^ 64 ->
    all_balanced (acct e') A /\ total (acct e') A = total (acct e) A /\
    forall a, account_frame (env_sender e) (env_app e) a (acct e a) (acct e' a).

Lemma account_frame_refl s p a x : account_frame s p a x x.
Proof. unfold account_frame. intuition lia. Qed.
Lemma account_frame_trans s p a x y z :
  account_frame s p a x y -> account_frame s p a y z -> account_frame s p a x z.
Proof.
  intros (N1 & S1 & R1 & F1 & P1 & Q1) (N2 & S2 & R2 & F2 & P2 & Q2). split_and!; try congruence; auto.
  - intros Hs. now rewrite R2, R1.
  - intros Hs Hp. specialize (F1 Hs Hp). specialize (F2 Hs Hp). lia.
Qed.

#[export] Instance same_call_preorder : PreOrder same_call.
Proof.
  split; [intros e; repeat split; auto|]. intros x y z (? & ? & ? & ?) (? & ? & ? & ?). split_and!; try congruence. auto.
Qed.
#[export] Instance moves_preorder : PreOrder moves.
Proof.
  split.
  - intros e. split; [reflexivity|]. intros. split_and!; auto using account_frame_refl.
  - intros x y z [C1 M1] [C2 M2]. split; [etrans; eauto|]. intros A N Hd W T.
    destruct (M1 A N) as (W1 & T1 & F1); auto; [intros a Ha; apply Hd, C2; auto|].
    destruct (M2 A N) as (W2 & T2 & F2); auto; [lia|]. split_and!; auto; [lia|].
    intros a. eapply account_frame_trans; [apply F1|]. destruct C1 as (<- & <- & _). apply F2.
Qed.

Lemma moves_view e e' : same_call e e' -> (forall a, acct e' a = acct e a) -> moves e e'.
Proof.
  intros C E. split; auto. intros A N Hd W T. split_and!.
  - intros a Ha. rewrite E. auto.
  - apply total_ext. intros a _. now rewrite E.
  - intros a. rewrite E. apply account_frame_refl.
Qed.

Lemma env_account_spec a e :
  (env_account a e).1 = Panic \/
  exists e', env_account a e = (Ok (acct e a), e') /\ same_call e e' /\
    (forall b, acct e' b = acct e b) /\ is_Some (env_accounts e' !! a).
Proof.
  unfold env_account, look. destruct (env_accounts e !! a) as [st|] eqn:E.
  - right. exists e. rewrite E. split_and!; eauto; reflexivity.
  - assert (forall m, account_state (env_state_db e) a <> Err m) as NE.
    { intros m. unfold account_state, get_account_state. by destruct (TreeDB_get _ _ _ _ _) as [[?|]| |]. }
    destruct (account_state (env_state_db e) a) as [st|m|] eqn:Es; [|now destruct (NE m)|auto].
    right. eexists. split; [reflexivity|]. cbn [env_accounts set_env_accounts env_state_db].
    split_and!; [repeat split; try done|..].
    + intros b Hb. cbn [env_accounts set_env_accounts]. destruct (decide (b = a)) as [->|]; [rewrite lookup_insert_eq | rewrite lookup_insert_ne]; eauto.
    + intros b. destruct (decide (b = a)) as [->|]; [rewrite lookup_insert_eq, E, Es | rewrite lookup_insert_ne]; auto.
    + rewrite lookup_insert_eq. eauto.
Qed.

Lemma put_env_account_spec a st e :
  exists e', put_env_account a st e = (Ok tt, e') /\ same_call e e' /\ is_Some (env_accounts e' !! a) /\
    acct e' a = st /\ forall b, b <> a -> acct e' b = acct e b.
Proof.
  eexists. split; [reflexivity|]. unfold look. cbn [env_accounts set_env_accounts env_state_db].
  rewrite lookup_insert_eq. split_and!; [repeat split; try done|..]; eauto.
  - intros b Hb. cbn [env_accounts set_env_accounts].
    destruct (decide (b = a)) as [->|]; [rewrite lookup_insert_eq | rewrite lookup_insert_ne]; eauto.
  - intros b Hb. now rewrite lookup_insert_ne.
Qed.

(** One account changed, within what it holds. *)
Lemma moves_put a e e' :
  same_call e e' -> is_Some (env_accounts e' !! a) -> (forall b, b <> a -> acct e' b = acct e b) ->
  (balanced (acct e a) -> wealth (acct e a) < 2 ^ 64 ->
   balanced (acct e' a) /\ wealth (acct e' a) = wealth (acct e a) /\
   account_frame (env_sender e) (env_app e) a (acct e a) (acct e' a)) ->
  moves e e'.
Proof.
  intros C S O Hput. split; auto. intros A N Hd W T.
  pose proof (total_ge (acct e) A a W (Hd a S)) as L.
  destruct (Hput (W a (Hd a S))) as (B & Ew & F); [lia|]. split_and!.
  - intros b Hb. destruct (decide (b = a)) as [->|]; [auto | rewrite O; auto].
  - rewrite (total_update (acct e) (acct e') A a); auto. lia.
  - intros b. destruct (decide (b = a)) as [->|]; [auto | rewrite O; auto using account_frame_refl].
Qed.

(** [reserve] and [unreserve]: the sender's account is read, and then written
    with [f] applied when its condition holds. *)
Lemma sender_moves {A} (ok : AccountState -> bool) (f : AccountState -> AccountState) (r : A) e :
  let m := (sender ← gets env_sender; from_acc ← env_account sender;
            _ ← lift (ensure (ok from_acc) "Condition failed"); _ ← put_env_account sender (f from_acc);
            mret r) : stM ExecutionEnvironment anyhow A in
  (forall x, ok x = true -> balanced x -> wealth x < 2 ^ 64 ->
    balanced (f x) /\ wealth (f x) = wealth x /\
    forall app, account_frame (env_sender e) app (env_sender e) x (f x)) ->
  (m e).1 <> Panic -> moves e (m e).2.
Proof.
  intros m Hf. subst m. cbv [mbind stM_bind gets lift]. set (s := env_sender e) in *.
  destruct (env_account_spec s e) as [Ep|(e1 & -> & C1 & V1 & S1)].
  { destruct (env_account s e) as [[]]; cbn in Ep |- *; congruence. }
  destruct (ok (acct e s)) eqn:Eok; cbn [ensure]; [|intros _; now apply moves_view].
  destruct (put_env_account_spec s (f (acct e s)) e1) as (e2 & -> & C2 & S2 & Ea & O).
  cbn [mret stM_ret snd]. intros _. apply (moves_put s); auto.
  - etrans; eauto.
  - intros b Hb. rewrite O, V1; auto.
  - rewrite Ea. intros B L. destruct (Hf _ Eok B L) as (? & ? & ?). auto.
Qed.

Lemma reserve_moves amount e :
  is_u 64 amount -> (host_reserve amount e).1 <> Panic -> moves e (host_reserve amount e).2.
Proof.
  intros Ua. apply sender_moves. intros x Hok ((F0 & F1) & (R0 & R1)) L. apply Z.ltb_lt in Hok.
  unfold wealth, is_u, balanced, account_frame in *. cbn [free_balance reserve_balance acc_nonce app_state
    set_free_balance set_reserve_balance]. rewrite !wrap_id by (unfold is_u; lia).
  unfold is_u. intuition lia.
Qed.
Lemma unreserve_moves amount e :
  is_u 64 amount -> (host_unreserve amount e).1 <> Panic -> moves e (host_unreserve amount e).2.
Proof.
  intros Ua. apply sender_moves. intros x Hok ((F0 & F1) & (R0 & R1)) L. apply Z.ltb_lt in Hok.
  unfold wealth, is_u, balanced, account_frame in *. cbn [free_balance reserve_balance acc_nonce app_state
    set_free_balance set_reserve_balance]. rewrite !wrap_id by (unfold is_u; lia).
  unfold is_u. intuition lia.
Qed.

(** What a transfer that returns does. *)
Lemma transfer_spec to amount e r e' :
  host_transfer to amount e = (r, e') -> r <> Panic ->
  same_call e e' /\
  ((forall a, acct e' a = acct e a) \/
   exists dst : Address, r = Ok true /\ amount < free_balance (acct e (env_app e)) /\
     is_Some (env_accounts e' !! env_app e) /\ is_Some (env_accounts e' !! dst) /\
     let debited := set_free_balance (u64 (free_balance (acct e (env_app e)) - amount)) (acct e (env_app e)) in
     let before := if decide (dst = env_app e) then debited else acct e dst in
     acct e' dst = set_free_balance (u64 (free_balance before + amount)) before /\
     (dst <> env_app e -> acct e' (env_app e) = debited) /\
     forall a, a <> dst -> a <> env_app e -> acct e' a = acct e a).
Proof.
  unfold host_transfer. cbv [mbind stM_bind gets lift]. intros E Hp. set (p := env_app e) in *.
  destruct (Address_from_slice to) as [dst|m|]; [|injection E as <- <-; split; [reflexivity | auto] .. ].
  destruct (env_account_spec p e) as [Ep|(e1 & E1 & C1 & V1 & S1)].
  { destruct (env_account p e) as [[] ?]; cbn in Ep; congruence. }
  rewrite E1 in E. destruct (0 <? free_balance (acct e p) - amount) eqn:Eok; cbn [ensure] in E;
    [|injection E as <- <-; auto].
  apply Z.ltb_lt in Eok. set (debited := set_free_balance _ _) in *.
  destruct (put_env_account_spec p debited e1) as (e2 & E2 & C2 & S2 & Ea2 & O2). rewrite E2 in E.
  destruct (env_account_spec dst e2) as [Ep|(e3 & E3 & C3 & V3 & S3)].
  { destruct (env_account dst e2) as [[] ?]; cbn in Ep; congruence. }
  rewrite E3 in E. destruct (put_env_account_spec dst (set_free_balance (u64 (free_balance (acct e2 dst) + amount))
    (acct e2 dst)) e3) as (e4 & E4 & C4 & S4 & Ea4 & O4). rewrite E4 in E. injection E as <- <-.
  split; [do 2 (etrans; [eassumption|]); etrans; eassumption|]. right. exists dst.
  assert (acct e2 dst = if decide (dst = p) then debited else acct e dst) as Eb.
  { case_decide as D; [now rewrite D | rewrite O2, V1; auto]. }
  split_and!; auto; [lia | apply C4, C3; auto | now rewrite Ea4, Eb | |].
  - intros Hne. rewrite O4, V3, Ea2; auto.
  - intros a H1 H2. rewrite O4, V3, O2, V1; auto.
Qed.

Lemma transfer_moves to amount e :
  is_u 64 amount -> (host_transfer to amount e).1 <> Panic -> moves e (host_transfer to amount e).2.
Proof.
  intros Ua Hp. destruct (host_transfer to amount e) as [r e'] eqn:E. cbn [fst snd] in *.
  destruct (transfer_spec _ _ _ _ _ E Hp) as (C & [V|(dst & _ & Hlt & Sp & Sd & Ed & Ea & O)]); [now apply moves_view|].
  cbv zeta in *. set (p := env_app e) in *. destruct (decide (dst = p)) as [D|D].
  - rewrite D in *. apply (moves_put p); auto. rewrite Ed. intros ((F0 & F1) & (R0 & R1)) L.
    unfold wealth, is_u, balanced, account_frame in *. cbn [free_balance reserve_balance acc_nonce app_state set_free_balance].
    rewrite (wrap_id 64 (_ - _)), wrap_id by (unfold is_u; lia). unfold is_u. intuition lia.
  - specialize (Ea D). split; auto. intros A N Hd W T.
    pose proof (total_ge2 (acct e) A p dst W N (Hd p Sp) (Hd dst Sd) ltac:(auto)) as L.
    destruct (W p (Hd p Sp)) as [[P0 P1] [P2 P3]], (W dst (Hd dst Sd)) as [[D0 D1] [D2 D3]].
    set (mid a := if decide (a = p) then acct e' p else acct e a).
    assert (total mid A = total (acct e) A - wealth (acct e p) + wealth (mid p)) as T1.
    { apply total_update; auto. intros b Hb. unfold mid. now rewrite decide_False. }
    assert (total (acct e') A = total mid A - wealth (mid dst) + wealth (acct e' dst)) as T2.
    { apply total_update; auto. intros b Hb. unfold mid. case_decide as Hbp; [now rewrite Hbp | auto]. }
    revert T1 T2. unfold mid at 2 4. rewrite decide_True, decide_False by auto. rewrite Ea, Ed.
    unfold wealth, is_u in *. cbn [free_balance reserve_balance set_free_balance].
    rewrite !wrap_id by (unfold is_u; lia). intros T1 T2. split_and!; [| lia |].
    + intros a Ha. destruct (decide (a = dst)) as [->|]; [|destruct (decide (a = p)) as [->|]; [|rewrite O; auto]];
        rewrite ?Ed, ?Ea; split; unfold is_u; cbn [free_balance reserve_balance set_free_balance];
        rewrite ?wrap_id by (unfold is_u; lia); lia.
    + intros a. destruct (decide (a = dst)) as [->|]; [|destruct (decide (a = p)) as [->|]; [|rewrite O; auto using account_frame_refl]];
        rewrite ?Ed, ?Ea; unfold account_frame; cbn [free_balance reserve_balance acc_nonce app_state set_free_balance];
        rewrite ?wrap_id by (unfold is_u; lia); intuition lia.
Qed.

Lemma storage_moves t e : moves e (set_env_storage t e).
Proof. apply moves_view; [repeat split; auto | reflexivity]. Qed.
Lemma read_moves {A} (f : AccountState -> A) a e :
  (host_read_account f a e).1 <> Panic -> moves e (host_read_account f a e).2.
Proof.
  unfold host_read_account. cbv [mbind stM_bind lift mret stM_ret].
  destruct (Address_from_slice a) as [x| |]; [|reflexivity..].
  destruct (env_account_spec x e) as [Ep|(e1 & -> & C & V & _)]; [|intros _; now apply moves_view].
  destruct (env_account x e) as [[] ?]; cbn in Ep |- *; congruence.
Qed.

(** A host function whose answer is wrapped. *)
Lemma moves_answer {A} (m : stM ExecutionEnvironment anyhow A) (f : A -> Answer) e :
  ((m e).1 <> Panic -> moves e (m e).2) ->
  ((m ≫= fun x => mret (f x)) e).1 <> Panic -> moves e ((m ≫= fun x => mret (f x)) e).2.
Proof. cbv [mbind stM_bind mret stM_ret]. destruct (m e) as [[a|x|] e']; cbn [fst snd]; auto. Qed.

Variable from_sec1_bytes : bytes -> option VerifyingKey.

Lemma host_moves c e : (host from_sec1_bytes c e).1 <> Panic -> moves e (host from_sec1_bytes c e).2.
Proof.
  assert (forall z, is_u 64 (u64 z)) as U by (intros z; apply wrap_bound; lia).
  destruct c; cbn [host]; try (apply moves_answer); try reflexivity;
    match goal with
    | |- context [host_transfer] => apply transfer_moves, U
    | |- context [host_reserve] => apply reserve_moves, U
    | |- context [host_unreserve] => apply unreserve_moves, U
    | |- context [host_get_free_balance] => apply read_moves
    | |- context [host_get_nonce] => apply read_moves
    | |- context [host_get_reserve_balance] => apply read_moves
    | _ => idtac
    end.
  - intros _. unfold host_generate_keypair. cbv [mbind stM_bind lift gets mret stM_ret].
    assert (moves e (draw e).2) as M by (apply moves_view; [repeat split; auto | reflexivity]).
    cbn [draw fst snd] in *. destruct (SecretKey_from_bytes _); [|exact M..]. cbn [result_bind].
    destruct (get_address_from_pub_key (E:=anyhow) _ _); exact M.
  - intros _. unfold host_insert. destruct (update keccak256 key value (env_storage e)) as [r t]. apply storage_moves.
  - intros _. unfold host_remove. destruct (update keccak256 key [] (env_storage e)) as [r t]. apply storage_moves.
  - intros _. apply moves_view; [repeat split; auto | reflexivity].
Qed.

(** C11 Whatever an application does, it creates and destroys no coins: when
    what the accounts in use hold together is representable, their sum after
    the run is the sum before it.  Of any account it leaves nonce and
    application alone; it takes only from itself and from the sender of the
    transaction, reserves only for the sender, and never empties a balance. *)
Theorem guest_conserves {I A} (g : Guest I A) e r i e' B :
  run_guest (host from_sec1_bytes) g e = (r, i, e') -> r <> Panic ->
  NoDup B -> (forall a, is_Some (env_accounts e' !! a) -> In a B) ->
  all_balanced (acct e) B -> total (acct e) B < 2 ^ 64 ->
  all_balanced (acct e') B /\ total (acct e') B = total (acct e) B /\
  forall a, account_frame (env_sender e) (env_app e) a (acct e a) (acct e' a).
Proof.
  intros E Hp. pose proof (run_guest_keeps (host from_sec1_bytes) moves g e host_moves) as [_ M].
  { now rewrite E. }
  rewrite E in M. cbn [snd] in M. intros N Hd W T. exact (M B N Hd W T).
Qed.

(** An application can stop the node: asking for the level of the block or
    the key of the sender reaches an unfinished host function, and so does
    naming an account by anything but 44 bytes reach a copy into an array of
    that size; each panics the host, not the guest. *)
Theorem guest_stops_node {I A} (i : I) (k : Answer -> Guest I A) e c :
  c = ContextBlockLevel \/ c = ContextSenderPk \/
    (exists a n, length a <> 44%nat /\ (c = Transfer a n \/ c = GetFreeBalance a \/ c = GetNonce a \/ c = GetReserveBalance a)) ->
  run_guest (host from_sec1_bytes) (Host c i k) e = (Panic, None, e).
Proof.
  assert (forall a, length a <> 44%nat -> Address_from_slice (E:=anyhow) a = Panic) as P.
  { intros a Ha. unfold Address_from_slice, fixed_bytes. now rewrite decide_False. }
  intros [->|[->|(a & n & Ha & Hc)]]; [reflexivity..|]. specialize (P a Ha).
  destruct Hc as [->|[->|[->| ->]]]; cbn [run_guest host];
    unfold host_transfer, host_get_free_balance, host_get_nonce, host_get_reserve_balance, host_read_account;
    cbv [mbind stM_bind lift]; now rewrite P.
Qed.

End Frame.

(** ** Calls executed by the account state *)

Section Calls.
Context `{CryptoPrims} `{Bincode} `{WasmEngine}.
Variable from_sec1_bytes : bytes -> option VerifyingKey.
Variables (entropy : nat -> H256) (v : WasmVM) (enc : H256 -> Address -> result anyhow bytes) (xxh3_64 : bytes -> Z).
#[local] Instance the_vm : WasmVMInstance := WasmVM_instance from_sec1_bytes entropy v enc xxh3_64.
Abbreviation acct e := (look (env_accounts e) (env_state_db e)).
Abbreviation seen e := (look (ex_accounts e) (ex_state e)).

Lemma execute_call_inv s origin app service method args value c w :
  execute_call from_sec1_bytes entropy s origin app service method args value v = (Ok c, w) ->
  exists storage ent env (g : Guest AppInstance unit) i env',
    ExecutionEnvironment_new origin app value storage s (vm_blockchain w) ent = Ok env /\
    run_guest (host from_sec1_bytes) g env = (Ok tt, i, env') /\ c = Changelist_from env'.
Proof.
  unfold execute_call. intros E. apply bind_st_inv in E as ([] & v1 & E1 & E).
  apply bind_st_inv in E as (storage & v2 & E2 & E). injection E2 as E2 <-.
  apply bind_st_inv in E as (m & v2 & E3 & E). injection E3 as <- <-.
  apply bind_st_inv in E as ([i0 env0] & v2 & E4 & E). injection E4 as E4 <-.
  apply bind_st_inv in E as (chain & v2 & E5 & E). injection E5 as <- <-.
  apply bind_st_inv in E as (env & v2 & E6 & E). injection E6 as E6 <-.
  apply bind_st_inv in E as ([[] env'] & v2 & E7 & E). injection E as <- <-.
  unfold call_kept in E7. destruct (run_guest _ _ _) as [[r i] env2] eqn:Er.
  destruct r as [[]| |]; try discriminate. injection E7 as <- <-. eauto 12.
Qed.

Lemma env_new_inv origin app value storage s chain ent env :
  ExecutionEnvironment_new origin app value storage s chain ent = Ok env ->
  env_state_db env = s /\ env_sender env = origin /\ env_app env = app /\
  exists a, account_state s app = Ok a /\
    env_accounts env = {[app := set_free_balance (u64 (free_balance a + value)) a]}.
Proof.
  unfold ExecutionEnvironment_new. intros E. apply bind_ok in E as (a & Ea & E).
  apply bind_ok in E as (n & En & E). injection E as <-. eauto 10.
Qed.

(** Creating the environment credits the value to the application. *)
Lemma env_new_total origin app value storage s chain ent env B :
  ExecutionEnvironment_new origin app value storage s chain ent = Ok env ->
  all_balanced (look ∅ s) B -> 0 <= value -> NoDup B -> In app B ->
  total (look ∅ s) B + value < 2 ^ 64 ->
  total (acct env) B = total (look ∅ s) B + value /\ all_balanced (acct env) B.
Proof.
  intros E W Hv N Hi T. apply env_new_inv in E as (Es & _ & _ & a & Ea & Em).
  assert (look ∅ s app = a) as La by (unfold look; now rewrite lookup_empty, Ea).
  pose proof (total_ge _ B app W Hi) as L. destruct (W app Hi) as [[F0 F1] [R0 R1]].
  rewrite La in *. unfold wealth, is_u in *.
  assert (acct env app = set_free_balance (free_balance a + value) a) as Lv.
  { unfold look. rewrite Em, lookup_singleton_eq, wrap_id; auto. unfold is_u. lia. }
  assert (forall b, b <> app -> acct env b = look ∅ s b) as O.
  { intros b Hb. unfold look. rewrite Em, Es, lookup_singleton_ne, lookup_empty; auto. }
  split.
  - rewrite (total_update (look ∅ s) (acct env) B app), La, Lv by auto. unfold wealth. cbn. lia.
  - intros b HbB. destruct (decide (b = app)) as [->|Hb]; [|rewrite O; auto].
    rewrite Lv. split; unfold is_u; cbn; lia.
Qed.

Lemma account_mut_inv addr err f (e e' : Exec) :
  account_mut addr err f e = (Ok tt, e') ->
  exists a, ex_accounts e !! addr = Some a /\ e' = set_ex_accounts (<[addr := f a]> (ex_accounts e)) e.
Proof.
  unfold account_mut. intros E. apply bind_st_inv in E as (m & e1 & E1 & E). injection E1 as <- <-.
  apply bind_st_inv in E as (a & e1 & E1 & E). injection E1 as E1 <-. injection E as <-.
  exists a. split; auto. unfold ok_or_else, ok_or in E1. destruct (_ !! _); congruence.
Qed.
(** An assignment that leaves the balances alone leaves every account as rich. *)
Lemma account_mut_wealth addr err f (e e' : Exec) :
  account_mut addr err f e = (Ok tt, e') -> (forall a, wealth (f a) = wealth a) ->
  ex_state e' = ex_state e /\ (forall a, wealth (seen e' a) = wealth (seen e a)) /\
  forall a, is_Some (ex_accounts e' !! a) <-> is_Some (ex_accounts e !! a).
Proof.
  intros E Hf. apply account_mut_inv in E as (x & Ex & ->). unfold look.
  cbn [ex_accounts ex_state set_ex_accounts]. split_and!; auto; intros a;
    destruct (decide (a = addr)) as [->|]; rewrite ?lookup_insert_eq, ?lookup_insert_ne by auto; auto.
  - rewrite Ex. auto.
  - rewrite Ex. split; eauto.
Qed.

Lemma store_app_data_trie app c e r e' :
  store_app_data app c e = (r, e') -> ex_accounts e' = ex_accounts e /\ trie (ex_state e') = trie (ex_state e).
Proof.
  unfold store_app_data, set_app_data, zoom. intros E.
  destruct (KvDB_put _ _ _ _ _) as [r' d]. injection E as <- <-. auto.
Qed.
Lemma look_trie m s s' a : trie s' = trie s -> look m s' a = look m s a.
Proof. unfold look, account_state, get_account_state. now intros ->. Qed.

(** The accounts after the changes of a call are the ones its environment
    shows, when the database holds what the block has loaded so far. *)
Lemma seen_changes e env c :
  env_state_db env = ex_state e -> c = Changelist_from env ->
  (forall a st, ex_accounts e !! a = Some st -> account_state (ex_state e) a = Ok st) ->
  forall a, seen (set_ex_accounts (account_changes c ∪ ex_accounts e) e) a = acct env a.
Proof.
  intros Es -> Hc a. unfold look. cbn [ex_accounts ex_state set_ex_accounts Changelist_from account_changes].
  rewrite lookup_union, Es. destruct (env_accounts env !! a) as [x|]; [by destruct (ex_accounts e !! a)|].
  rewrite option_union_left_id. destruct (ex_accounts e !! a) as [x|] eqn:Ex; auto. now rewrite (Hc _ _ Ex).
Qed.

(** A call that is applied: the machine's changes, then two assignments that
    leave the balances alone. *)
Lemma apply_call_inv t e e' app service method args :
  data (tx t) = Some (Call app service method args) -> apply_transaction t e = (Ok tt, e') ->
  exists storage ent env (g : Guest AppInstance unit) i env' chain,
    ExecutionEnvironment_new (sender t) app (price t) storage (ex_state e) chain ent = Ok env /\
    run_guest (host from_sec1_bytes) g env = (Ok tt, i, env') /\
    let e1 := set_ex_accounts (env_accounts env' ∪ ex_accounts e) e in
    (forall a, wealth (seen e' a) = wealth (seen e1 a)) /\
    forall a, is_Some (ex_accounts e' !! a) <-> is_Some (ex_accounts e1 !! a).
Proof.
  intros Hd E. unfold apply_transaction in E. rewrite Hd in E.
  apply bind_st_inv in E as (d & e0 & E0 & E). injection E0 as <- <-.
  apply bind_st_inv in E as ([] & e5 & E0 & E). unfold apply_data in E0.
  apply bind_st_inv in E0 as (dst & e0 & E1 & E0). unfold to in E1. rewrite Hd in E1. injection E1 as <- <-.
  apply bind_st_inv in E0 as (s & e0 & E1 & E0). injection E1 as <- <-.
  apply bind_st_inv in E0 as (c & e0 & E1 & E0). injection E1 as E1 <-.
  destruct (execute_call from_sec1_bytes entropy (ex_state e) (sender t) app service method args (price t) v)
    as [rc w] eqn:Ec. cbn in E1. unfold vm_execute_app_tx in E1. rewrite Ec in E1. cbn in E1. subst rc.
  apply execute_call_inv in Ec as (storage & ent & env & g & i & env' & En & Er & ->).
  apply bind_st_inv in E0 as ([] & e2 & E2 & E0). injection E2 as <-.
  apply bind_st_inv in E0 as ([] & e3 & E3 & E0). unfold set_app_root in E3.
  apply bind_st_inv in E3 as (m & e4 & E4 & E3). injection E4 as <- <-.
  apply bind_st_inv in E3 as (a0 & e4 & E4 & E3). injection E4 as _ <-.
  apply account_mut_wealth in E3 as (Es3 & W3 & D3); [|reflexivity].
  apply store_app_data_trie in E0 as [Ea5 Et5].
  apply account_mut_wealth in E as (Es6 & W6 & D6); [|reflexivity].
  exists storage, ent, env, g, i, env', (vm_blockchain w). split; [auto|]. split; [auto|]. cbv zeta. split; intros a.
  - rewrite W6. rewrite (look_trie _ _ _ _ Et5), Ea5. apply W3.
  - rewrite D6, Ea5. apply D3.
Qed.

(** C19 A call to an application creates the coins it carries: the value of the
    transaction is credited to the application and debited nowhere, and no fee
    is taken, so that the accounts together hold more by exactly that value.
    Assumed: the accounts the block has loaded are as the database holds them,
    which they are for the first transaction of a block; the value is not
    negative; the balances are in range and do not overflow together with the
    value. *)
Theorem call_mints_value t e e' app service method args B :
  data (tx t) = Some (Call app service method args) -> apply_transaction t e = (Ok tt, e') ->
  (forall a st, ex_accounts e !! a = Some st -> account_state (ex_state e) a = Ok st) ->
  all_balanced (look ∅ (ex_state e)) B -> 0 <= price t ->
  NoDup B -> (forall a, is_Some (ex_accounts e' !! a) -> In a B) ->
  total (seen e) B + price t < 2 ^ 64 ->
  total (seen e') B = total (seen e) B + price t.
Proof.
  intros Hd E Hc W Hv N HB T.
  destruct (apply_call_inv _ _ _ _ _ _ _ Hd E) as (storage & ent & env & g & i & env' & chain & En & Er & We & De).
  cbv zeta in *.
  assert (forall a, is_Some (env_accounts env' !! a) -> In a B) as HB'.
  { intros a [x Hx]. apply HB, De. cbn [ex_accounts set_ex_accounts]. rewrite lookup_union, Hx.
    destruct (ex_accounts e !! a); eauto. }
  pose proof (run_guest_keeps (host from_sec1_bytes) moves g env (host_moves from_sec1_bytes)) as M.
  rewrite Er in M. cbn [fst snd] in M. destruct M as [(_ & _ & Es & Hs) M]; [discriminate|].
  destruct (env_new_inv _ _ _ _ _ _ _ _ En) as (Es0 & _ & _ & x & Ex & Em).
  assert (In app B) as Hi by (apply HB', Hs; rewrite Em, lookup_singleton_eq; eauto).
  assert (total (seen e) B = total (look ∅ (ex_state e)) B) as T0.
  { apply total_ext. intros a _. unfold look. rewrite lookup_empty.
    destruct (ex_accounts e !! a) as [y|] eqn:Ey; auto. now rewrite (Hc _ _ Ey). }
  destruct (env_new_total _ _ _ _ _ _ _ _ B En W Hv N Hi) as [T1 W1]; [lia|].
  destruct (M B N HB' W1) as (_ & T2 & _); [lia|].
  transitivity (total (acct env') B); [|lia]. apply total_ext. intros a _. rewrite We.
  rewrite (seen_changes e env' (Changelist_from env')); auto. now rewrite Es.
Qed.

End Calls.

(** ** Queries *)

Section Queries.
Context `{CryptoPrims} `{Bincode}.
Variable from_sec1_bytes : bytes -> option VerifyingKey.

(** The environment shows what the query environment reads. *)
Definition shows (q : QueryEnvironment) (e : ExecutionEnvironment) : Prop :=
  env_storage e = q_storage q /\ env_state_db e = q_state_db q /\
  forall a st, env_accounts e !! a = Some st -> account_state (q_state_db q) a = Ok st.

Lemma env_account_shows q e a st :
  shows q e -> account_state (q_state_db q) a = Ok st ->
  exists e', env_account a e = (Ok st, e') /\ shows q e' /\ env_events e' = env_events e.
Proof.
  intros (Hs & Hd & Ha) E. unfold env_account. destruct (env_accounts e !! a) as [x|] eqn:Ex.
  - rewrite (Ha _ _ Ex) in E. injection E as ->. exists e. by repeat split.
  - rewrite Hd, E. eexists. split; [reflexivity|]. split; [|reflexivity]. split_and!; auto.
    intros b y. cbn [env_accounts set_env_accounts]. destruct (decide (b = a)) as [->|].
    + rewrite lookup_insert_eq. intros [= <-]. auto.
    + rewrite lookup_insert_ne by auto. auto.
Qed.
Lemma read_account_shows {A} (f : AccountState -> A) q e a x :
  shows q e -> query_account f q a = Ok x ->
  exists e', host_read_account f a e = (Ok x, e') /\ shows q e' /\ env_events e' = env_events e.
Proof.
  unfold query_account, host_read_account. intros Hs E. apply bind_ok in E as (b & Eb & E).
  apply bind_ok in E as (st & Est & E). injection E as <-.
  destruct (env_account_shows q e b st Hs Est) as (e' & E' & Hs' & Hv). exists e'. rewrite Eb.
  cbv [mbind stM_bind lift mret stM_ret]. now rewrite E'.
Qed.
Lemma answer_shows q e c x :
  shows q e -> query_answer q c = Ok x ->
  exists e', host from_sec1_bytes c e = (Ok x, e') /\ shows q e' /\ env_events e' = env_events e.
Proof.
  intros Hs E. destruct c; cbn [query_answer] in E; try discriminate;
    apply bind_ok in E as (y & Ey & E); injection E as <-; cbn [host].
  1-3: destruct (read_account_shows _ _ _ _ _ Hs Ey) as (e' & E' & ? & ?); exists e'; split; auto;
       unfold host_get_free_balance, host_get_nonce, host_get_reserve_balance, mbind, stM_bind; now rewrite E'.
  exists e. unfold host_get. cbv [mbind stM_bind lift gets mret stM_ret]. rewrite (proj1 Hs), Ey. auto.
Qed.

(** C40 A query answers what the same code would compute in a transaction: a
    guest that returns in the environment of a query returns the same, having
    made the same calls, in an environment of a transaction that shows the same
    state, and leaves that state and the events untouched there. *)
Theorem query_simulated {I A} (g : Guest I A) q r i q' e :
  run_guest query_host g q = (Ok r, i, q') -> shows q e ->
  exists e', run_guest (host from_sec1_bytes) g e = (Ok r, i, e') /\ shows q e' /\ env_events e' = env_events e.
Proof.
  revert e. induction g as [j a|j m| |c j k IH]; intros e E Hs; cbn [run_guest] in E |- *; try discriminate.
  - injection E as <- <- <-. eauto.
  - unfold query_host in E. cbv [mbind stM_bind gets lift] in E.
    destruct (query_answer q c) as [x| |] eqn:Ea; try discriminate.
    destruct (answer_shows q e c x Hs Ea) as (e1 & E1 & Hs1 & Hv1). rewrite E1.
    destruct (IH x e1 E Hs1) as (e2 & E2 & Hs2 & Hv2). exists e2. split_and!; auto. congruence.
Qed.

(** A transaction without value starts in such an environment. *)
Lemma env_new_shows origin app storage s chain ent env :
  ExecutionEnvironment_new origin app 0 storage s chain ent = Ok env -> balanced (look ∅ s app) ->
  shows {| q_storage := storage; q_state_db := s |} env.
Proof.
  intros E W. pose proof E as E'. apply env_new_inv in E' as (Es & _ & _ & a & Ea & Em).
  assert (env_storage env = storage) as Est.
  { unfold ExecutionEnvironment_new in E. rewrite Ea in E. cbn [mbind result_bind] in E.
    destruct (ok_or_else _ _); [|discriminate..]. now injection E as <-. }
  unfold shows. cbn [q_storage q_state_db]. split_and!; auto. intros b st. rewrite Em.
  intros [<- <-]%lookup_singleton_Some. rewrite Ea. unfold look in W. rewrite lookup_empty, Ea in W.
  rewrite Z.add_0_r, wrap_id by apply W. now destruct a.
Qed.

End Queries.

(** ** Creating applications *)

(** C20 No transaction creates an application: the node looks for a method
    [RegisterNameSpace] in the descriptor of the name registry, which names it
    [Register], so that every transaction carrying a new application fails,
    before anything is changed. *)
Theorem create_always_refused `{CryptoPrims} `{Bincode} `{WasmVMInstance} t e package_name binary :
  data (tx t) = Some (Create package_name binary) ->
  exists r, apply_transaction t e = (r, e) /\ is_ok r = false.
Proof.
  intros Hd. unfold apply_transaction. rewrite Hd. cbv [mbind stM_bind lift unwrap]. cbn [apply_data].
  cbv [mbind stM_bind lift gets]. destruct (to (E:=anyhow) t) as [dst| |]; eauto.
  destruct (match TreeDB_get _ _ _ _ _ with Ok o => Ok o | _ => _ end) as [o| |]; eauto.
  case_bool_decide; eauto. unfold register_namespace. cbv [mbind stM_bind lift].
  destruct (conv _ (PackageName_parse package_name)); eauto.
  destruct (conv _ (get_address_from_package_name _ _)); eauto.
Qed.
