(* ===== verification/Machine.v ===== *)
(** * The machine behind the chain

    The chain assumes of the machine that it reads the state only through the
    trait [StateDB] ([WasmVMLaws], stated in Replay).  Here the machine of
    Runtime discharges that assumption: on two states that answer the same, every
    application makes the same calls, gets the same answers and leaves the same
    changes.  With [WasmVM_laws] the theorems of ChainProofs hold of the chain
    that runs this machine, each operation with the cache it finds.

    The second part is about that cache: an application stays in it with its
    memory.  [cache_transparent] shows that it does not matter for applications
    that keep no memory and draw no entropy; RuntimeExamples.v has calls for which
    it does. *)
From S2P Require Import Prelude Crypto Types Consensus Smt Codec SmtTree SmtProofs SmtTheorems TreeDb State StateProofs Replay Runtime.

Definition set_env_db (s : State) (e : ExecutionEnvironment) : ExecutionEnvironment :=
  {| env_network := env_network e; env_sender := env_sender e; env_app := env_app e; env_value := env_value e;
     env_storage := env_storage e; env_state_db := s; env_blockchain := env_blockchain e;
     env_accounts := env_accounts e; env_events := env_events e;
     env_entropy := env_entropy e; env_draws := env_draws e |}.

Section Machine.
Context `{CryptoLaws} `{BincodeLaws} `{WasmEngine}.
Variables (from_sec1_bytes : bytes -> option VerifyingKey) (entropy : nat -> H256).
Abbreviation the_host := (host from_sec1_bytes).

(** Two environments that differ in states answering the same. *)
Definition twin_env (e1 e2 : ExecutionEnvironment) : Prop :=
  observes (env_state_db e1) (env_state_db e2) /\ e2 = set_env_db (env_state_db e2) e1.

Lemma twin_env_inv e1 e2 : twin_env e1 e2 -> exists s, observes (env_state_db e1) s /\ e2 = set_env_db s e1.
Proof. intros [Ho ->]. eauto. Qed.
Lemma twin_env_intro s e : observes (env_state_db e) s -> twin_env e (set_env_db s e).
Proof. now split. Qed.

(** *** Host functions agree *)

(** A field other than the state. *)
Lemma agree_env_gets {A B} (f : ExecutionEnvironment -> A) (k : A -> stM ExecutionEnvironment anyhow B) :
  (forall s e, f (set_env_db s e) = f e) -> (forall a, agree twin_env (k a)) -> agree twin_env (gets f ≫= k).
Proof.
  intros Hf Hk. apply agree_gets; auto. intros e1 e2 (s & _ & ->)%twin_env_inv e. now rewrite Hf.
Qed.
Lemma agree_env_modify (f : ExecutionEnvironment -> ExecutionEnvironment) :
  (forall s e, f (set_env_db s e) = set_env_db s (f e)) -> (forall e, env_state_db (f e) = env_state_db e) ->
  agree twin_env (modify (E:=anyhow) f).
Proof.
  intros Hf Hs e1 e2 (s & Ho & ->)%twin_env_inv. split; [reflexivity|]. cbn [modify snd].
  rewrite Hf. apply twin_env_intro. now rewrite Hs.
Qed.
Lemma agree_env_account a : agree twin_env (env_account a).
Proof.
  intros e1 e2 (s & Ho & ->)%twin_env_inv. unfold env_account. cbn [env_accounts env_state_db set_env_db].
  destruct (env_accounts e1 !! a); [split; [reflexivity | now apply twin_env_intro]|].
  rewrite (obs_account _ _ Ho a). destruct (account_state s a) as [st| |]; split; try reflexivity;
    [now apply (twin_env_intro s (set_env_accounts _ e1)) | now apply twin_env_intro..].
Qed.
Lemma agree_put_env_account a st : agree twin_env (put_env_account a st).
Proof. now apply agree_env_modify. Qed.
Lemma agree_draw : agree twin_env draw.
Proof.
  intros e1 e2 (s & Ho & ->)%twin_env_inv. split; [reflexivity|]. cbn [draw snd].
  now apply (twin_env_intro s (set_env_entropy (env_entropy e1) (S (env_draws e1)) e1)).
Qed.
#[local] Hint Resolve agree_ret agree_lift agree_env_account agree_put_env_account agree_draw : agree.
Ltac agreed :=
  repeat match goal with
  | |- agree _ (gets _ ≫= _) => apply agree_env_gets; [reflexivity|]; intros ?
  | |- agree _ (_ ≫= _) => apply agree_bind; [|intros ?]
  | |- agree _ (let '(_, _) := ?p in _) => destruct p
  | |- agree _ (match ?x with _ => _ end) => destruct x
  | |- _ => solve [auto with agree]
  end.

Lemma agree_insert k v : agree twin_env (host_insert k v).
Proof.
  intros e1 e2 (s & Ho & ->)%twin_env_inv. unfold host_insert. cbn [env_storage set_env_db].
  destruct (update keccak256 k v (env_storage e1)) as [r t]. split; [reflexivity|].
  now apply (twin_env_intro s (set_env_storage t e1)).
Qed.
Lemma agree_remove k : agree twin_env (host_remove k).
Proof.
  intros e1 e2 (s & Ho & ->)%twin_env_inv. unfold host_remove. cbn [env_storage set_env_db].
  destruct (update keccak256 k [] (env_storage e1)) as [r t]. split; [reflexivity|].
  now apply (twin_env_intro s (set_env_storage t e1)).
Qed.
Lemma agree_emit t d : agree twin_env (host_emit t d).
Proof. now apply agree_env_modify. Qed.
#[local] Hint Resolve agree_insert agree_remove agree_emit : agree.

Lemma agree_host c : agree twin_env (the_host c).
Proof.
  destruct c; cbn [host]; unfold host_block_hash, host_address_from_pk, host_generate_keypair,
    host_generate_native_address, host_sign, host_transfer, host_reserve, host_unreserve, host_get_free_balance,
    host_get_nonce, host_get_reserve_balance, host_read_account, host_get; agreed.
Qed.

(** *** Guests agree *)

Lemma run_guest_twin {I A} (g : Guest I A) e1 e2 :
  twin_env e1 e2 ->
  (run_guest the_host g e1).1 = (run_guest the_host g e2).1 /\
  twin_env (run_guest the_host g e1).2 (run_guest the_host g e2).2.
Proof.
  revert e1 e2. induction g as [i a|i m| |c i k IH]; intros e1 e2 HR; cbn [run_guest]; auto.
  destruct (agree_host c e1 e2 HR) as [E HR'].
  destruct (the_host c e1) as [r1 e1'], (the_host c e2) as [r2 e2']. cbn [fst snd] in *. subst r2.
  destruct r1; auto.
Qed.
Lemma call_store_twin {I A} (i : I) (g : Guest I A) e1 e2 :
  twin_env e1 e2 ->
  match call_store the_host i g e1, call_store the_host i g e2 with
  | Ok (a1, i1, e1'), Ok (a2, i2, e2') => a1 = a2 /\ i1 = i2 /\ twin_env e1' e2'
  | Err m1, Err m2 => m1 = m2
  | Panic, Panic => True
  | _, _ => False
  end.
Proof.
  intros HR. destruct (run_guest_twin g e1 e2 HR) as [E HR']. unfold call_store.
  destruct (run_guest the_host g e1) as [[r1 i1] e1'], (run_guest the_host g e2) as [[r2 i2] e2'].
  cbn [fst snd] in *. injection E as <- <-. destruct r1; auto.
Qed.
Lemma env_new_twin origin app value storage s1 s2 chain ent :
  observes s1 s2 ->
  match ExecutionEnvironment_new origin app value storage s1 chain ent,
        ExecutionEnvironment_new origin app value storage s2 chain ent with
  | Ok e1, Ok e2 => twin_env e1 e2
  | Err m1, Err m2 => m1 = m2
  | Panic, Panic => True
  | _, _ => False
  end.
Proof.
  intros Ho. unfold ExecutionEnvironment_new. rewrite (obs_account _ _ Ho app).
  destruct (account_state s2 app); cbn [mbind result_bind]; auto.
  destruct (ok_or_else _ _); cbn [mbind result_bind]; auto. now split.
Qed.
Lemma twin_changes e1 e2 : twin_env e1 e2 -> Changelist_from e1 = Changelist_from e2.
Proof. now intros (s & _ & ->)%twin_env_inv. Qed.

(** *** The machine agrees *)

(** The same outcome, leaving the same instances. *)
Definition same_load (app : Address) (p1 p2 : result anyhow unit * WasmVM) : Prop :=
  p1.1 = p2.1 /\ vm_blockchain p1.2 = vm_blockchain p2.2 /\ fst <$> apps p1.2 !! app = fst <$> apps p2.2 !! app.

Lemma load_application_twin s1 s2 app v :
  observes s1 s2 ->
  same_load app (load_application from_sec1_bytes entropy s1 app v) (load_application from_sec1_bytes entropy s2 app v).
Proof.
  intros Ho. unfold load_application. cbv [mbind stM_bind gets mret stM_ret lift].
  destruct (bool_decide (is_Some (apps v !! app))); [done|].
  rewrite (obs_source _ _ Ho app). destruct (get_app_source s2 app) as [bin| |]; [|done..]. cbn [result_bind].
  rewrite (obs_data _ _ Ho app). destruct (get_app_data s2 app) as [st| |]; [|done..]. cbn [result_bind].
  pose proof (env_new_twin Address_default app 0 st s1 s2 (vm_blockchain v) (fun k => entropy (2 * k)%nat) Ho) as HE.
  destruct (ExecutionEnvironment_new _ _ _ _ s1 _ _) as [e1| |], (ExecutionEnvironment_new _ _ _ _ s2 _ _) as [e2| |];
    try done; [|now subst]. cbn [result_bind].
  pose proof (call_store_twin tt (instantiate bin) e1 e2 HE) as HC.
  destruct (call_store _ _ _ e1) as [[[a1 i1] e1']| |], (call_store _ _ _ e2) as [[[a2 i2] e2']| |];
    try done; [|now subst]. destruct HC as (<- & _ & _). cbn [result_bind].
  unfold same_load. cbn [modify fst snd set_apps vm_blockchain apps]. now rewrite !lookup_insert_eq.
Qed.

Lemma execute_call_twin s1 s2 origin app service method args value v :
  observes s1 s2 ->
  (execute_call from_sec1_bytes entropy s1 origin app service method args value v).1
  = (execute_call from_sec1_bytes entropy s2 origin app service method args value v).1.
Proof.
  intros Ho. unfold execute_call. destruct (load_application_twin s1 s2 app v Ho) as (E & Eb & Ei).
  cbv [mbind stM_bind gets mret stM_ret lift].
  destruct (load_application _ _ s1 app v) as [r1 v1], (load_application _ _ s2 app v) as [r2 v2].
  cbn [fst snd] in *. subst r2. destruct r1 as [[]| |]; [|done..].
  rewrite (obs_data _ _ Ho app). destruct (get_app_data s2 app) as [st| |]; [|done..].
  destruct (apps v1 !! app) as [[i1 x1]|], (apps v2 !! app) as [[i2 x2]|]; try done; cbn [ok_or_else ok_or].
  injection Ei as <-. rewrite <- Eb.
  pose proof (env_new_twin origin app value st s1 s2 (vm_blockchain v1) (fun k => entropy (2 * k + 1)%nat) Ho) as HE.
  destruct (ExecutionEnvironment_new _ _ _ _ s1 _ _) as [e1| |], (ExecutionEnvironment_new _ _ _ _ s2 _ _) as [e2| |];
    try done; [|now subst].
  unfold call_kept. destruct (run_guest_twin (guest_call i1 service method args) e1 e2 HE) as [E HR].
  destruct (run_guest _ _ e1) as [[r1 j1] e1'], (run_guest _ _ e2) as [[r2 j2] e2']. cbn [fst snd] in *.
  injection E as <- <-. destruct r1 as [[]| |]; [|done..]. cbn [fst]. now rewrite (twin_changes _ _ HR).
Qed.

Lemma create_application_twin s1 s2 origin app value bin v :
  observes s1 s2 ->
  (create_application from_sec1_bytes entropy s1 origin app value bin v).1
  = (create_application from_sec1_bytes entropy s2 origin app value bin v).1.
Proof.
  intros Ho. unfold create_application. cbv [mbind stM_bind gets lift]. cbn [fst].
  pose proof (env_new_twin origin app value smt_new s1 s2 (vm_blockchain v) entropy Ho) as HE.
  destruct (ExecutionEnvironment_new _ _ _ _ s1 _ _) as [e1| |], (ExecutionEnvironment_new _ _ _ _ s2 _ _) as [e2| |];
    try done; [|now subst]. cbn [result_bind].
  pose proof (call_store_twin tt (instantiate bin) e1 e2 HE) as HC.
  destruct (call_store _ _ _ e1) as [[[a1 i1] e1']| |], (call_store _ _ _ e2) as [[[a2 i2] e2']| |];
    try done; [|now subst]. destruct HC as (<- & _ & HR1). cbn [result_bind].
  pose proof (call_store_twin a1 (guest_genesis a1) e1' e2' HR1) as HC.
  destruct (call_store _ _ _ e1') as [[[u1 k1] f1]| |], (call_store _ _ _ e2') as [[[u2 k2] f2]| |];
    try done; [|now subst]. destruct HC as (_ & <- & HR2). cbn [result_bind].
  pose proof (call_store_twin k1 (guest_descriptor k1) f1 f2 HR2) as HC.
  destruct (call_store _ _ _ f1) as [[[d1 l1] g1]| |], (call_store _ _ _ f2) as [[[d2 l2] g2]| |];
    try done; [|now subst]. destruct HC as (<- & _ & HR3). cbn [result_bind]. now rewrite (twin_changes _ _ HR3).
Qed.

Lemma vm_create_twin v s1 s2 sender value name bin :
  observes s1 s2 ->
  (vm_execute_app_create from_sec1_bytes entropy s1 sender value name bin v).1
  = (vm_execute_app_create from_sec1_bytes entropy s2 sender value name bin v).1.
Proof.
  intros Ho. unfold vm_execute_app_create. cbv [mbind stM_bind lift].
  destruct (ok_or_else (address_network sender) _); [|done..].
  destruct (get_address_from_seed _ _); [|done..]. now apply create_application_twin.
Qed.

(** The machine keeps the promise the chain relies on: at one cache and one
    entropy its results depend on the state only through what the readers of
    [StateDB] return, so that creating and calling an application gives the same
    changes on any two states that answer the same. *)
Lemma machine_observes_only v s1 s2 sender value :
  observes s1 s2 ->
  (forall name bin, (vm_execute_app_create from_sec1_bytes entropy s1 sender value name bin v).1
                    = (vm_execute_app_create from_sec1_bytes entropy s2 sender value name bin v).1) /\
  (forall app service method args,
     (vm_execute_app_tx from_sec1_bytes entropy s1 sender value app service method args v).1
     = (vm_execute_app_tx from_sec1_bytes entropy s2 sender value app service method args v).1).
Proof.
  intros Ho. split; intros; [now apply vm_create_twin | now apply execute_call_twin].
Qed.

(** The interface of the chain, discharged. *)
#[export] Instance WasmVM_laws v enc xxh3_64 : @WasmVMLaws _ _ (WasmVM_instance from_sec1_bytes entropy v enc xxh3_64).
Proof.
  split; intros; cbn [execute_app_create execute_app_tx WasmVM_instance]; [now apply vm_create_twin | now apply execute_call_twin].
Qed.

End Machine.

(** ** The cache of applications

    The machine keeps the instance of an application, by its address, from the
    first call on, and with it the memory of the application: what a call
    computes may depend on the calls made before it on this node, those of
    blocks that were refused included.  It does not for applications that keep
    nothing: then every machine, whatever it has run, answers as a new one. *)

(** The guest leaves the instance as it was and draws no entropy. *)
Fixpoint leaves {I A} (i : I) (g : Guest I A) : Prop :=
  match g with
  | Return j _ | Trap j _ => j = i
  | Diverge => True
  | Host c j k => j = i /\ c <> GenerateKeypair /\ forall ans, leaves i (k ans)
  end.

(** Applications that keep nothing: an instance is made of the code alone, and
    no call changes it.  [built] is the instance of a code. *)
Record memoryless `{WasmEngine} (built : bytes -> result anyhow AppInstance) : Prop := {
  mem_instantiate b : instantiate b = match built b with Ok i => Return tt i | Err e => Trap tt e | Panic => Diverge end;
  mem_call i service method args : leaves i (guest_call i service method args);
  mem_descriptor i : leaves i (guest_descriptor i);
}.

Section Cache.
Context `{CryptoLaws} `{BincodeLaws} `{WasmEngine}.
Variable from_sec1_bytes : bytes -> option VerifyingKey.
Abbreviation the_host := (host from_sec1_bytes).

(** *** Entropy that is not drawn does not matter *)

Definition alike (e1 e2 : ExecutionEnvironment) : Prop := exists f n, e2 = set_env_entropy f n e1.

Lemma alike_gets {A B} (f : ExecutionEnvironment -> A) (k : A -> stM ExecutionEnvironment anyhow B) :
  (forall g n e, f (set_env_entropy g n e) = f e) -> (forall a, agree alike (k a)) -> agree alike (gets f ≫= k).
Proof. intros Hf Hk. apply agree_gets; auto. intros e1 e2 (g & n & ->) e. now rewrite Hf. Qed.
Lemma alike_modify (f : ExecutionEnvironment -> ExecutionEnvironment) :
  (forall g n e, f (set_env_entropy g n e) = set_env_entropy g n (f e)) -> agree alike (modify (E:=anyhow) f).
Proof. intros Hf e1 e2 (g & n & ->). split; [reflexivity|]. cbn [modify snd]. rewrite Hf. now exists g, n. Qed.
Lemma alike_account a : agree alike (env_account a).
Proof.
  intros e1 e2 (g & n & ->). unfold env_account. cbn [env_accounts env_state_db set_env_entropy].
  destruct (env_accounts e1 !! a); [split; [reflexivity | now exists g, n]|].
  destruct (account_state (env_state_db e1) a); (split; [reflexivity | now exists g, n]).
Qed.
Lemma alike_insert k v : agree alike (host_insert k v).
Proof.
  intros e1 e2 (g & n & ->). unfold host_insert. cbn [env_storage set_env_entropy].
  destruct (update keccak256 k v (env_storage e1)) as [r t]. split; [reflexivity | now exists g, n].
Qed.
Lemma alike_remove k : agree alike (host_remove k).
Proof.
  intros e1 e2 (g & n & ->). unfold host_remove. cbn [env_storage set_env_entropy].
  destruct (update keccak256 k [] (env_storage e1)) as [r t]. split; [reflexivity | now exists g, n].
Qed.
Lemma alike_put a st : agree alike (put_env_account a st).
Proof. now apply alike_modify. Qed.
Lemma alike_emit t d : agree alike (host_emit t d).
Proof. now apply alike_modify. Qed.
#[local] Hint Resolve agree_ret agree_lift alike_account alike_put alike_insert alike_remove alike_emit : alike.
Lemma alike_host c : c <> GenerateKeypair -> agree alike (the_host c).
Proof.
  intros Hc. destruct c; cbn [host]; [| |easy|..]; unfold host_block_hash, host_address_from_pk,
    host_generate_native_address, host_sign, host_transfer, host_reserve, host_unreserve, host_get_free_balance,
    host_get_nonce, host_get_reserve_balance, host_read_account, host_get;
  repeat match goal with
  | |- agree _ (gets _ ≫= _) => apply alike_gets; [reflexivity|]; intros ?
  | |- agree _ (_ ≫= _) => apply agree_bind; [|intros ?]
  | |- _ => solve [auto with alike]
  end.
Qed.

(** A run of such a guest: the same outcome whatever the entropy, and the
    instance as before. *)
Lemma run_guest_leaves {I A} (i : I) (g : Guest I A) e1 e2 :
  leaves i g -> alike e1 e2 ->
  (run_guest the_host g e1).1 = (run_guest the_host g e2).1 /\
  alike (run_guest the_host g e1).2 (run_guest the_host g e2).2 /\ default i (run_guest the_host g e1).1.2 = i.
Proof.
  revert e1 e2. induction g as [j a|j m| |c j k IH]; intros e1 e2; cbn [run_guest leaves fst snd]; auto.
  intros (-> & Hc & Hk) HR. destruct (alike_host c Hc e1 e2 HR) as [E HR'].
  destruct (the_host c e1) as [r1 e1'], (the_host c e2) as [r2 e2']. cbn [fst snd] in *. subst r2.
  destruct r1; cbn [fst snd default]; auto.
Qed.

(** *** Coherent caches *)

Variable built : bytes -> result anyhow AppInstance.
Hypothesis engine_memoryless : memoryless built.

(** [src] is the code of every application there is: the states the machine is
    used on agree with it. *)
Variable src : Address -> option bytes.
Definition sources (s : State) : Prop := forall a b, get_app_source s a = Ok b -> src a = Some b.
Definition coherent (chain : ChainHeadReader) (v : WasmVM) : Prop :=
  vm_blockchain v = chain /\
  forall a i env, apps v !! a = Some (i, env) -> exists b, src a = Some b /\ built b = Ok i.

(** The machines that come of a new one by any operations. *)
Inductive used (chain : ChainHeadReader) : WasmVM -> Prop :=
| used_new : used chain (WasmVM_new chain)
| used_call entropy s origin app service method args value v :
    used chain v -> sources s ->
    used chain (execute_call from_sec1_bytes entropy s origin app service method args value v).2
| used_load entropy s app v :
    used chain v -> sources s -> used chain (load_application from_sec1_bytes entropy s app v).2
| used_create entropy s origin app value bin v :
    used chain v -> used chain (create_application from_sec1_bytes entropy s origin app value bin v).2
| used_query s app service method args v :
    used chain v -> used chain (execute_query s app service method args v).2
| used_descriptor entropy s app v :
    used chain v -> sources s ->
    used chain (execute_get_app_descriptor from_sec1_bytes entropy s app v).2.

Lemma coherent_insert chain v app i env b :
  coherent chain v -> src app = Some b -> built b = Ok i -> coherent chain (set_apps (<[app := (i, env)]> (apps v)) v).
Proof.
  intros [Hc Hv] Hs Hb. split; [exact Hc|]. cbn [apps set_apps].
  intros a j x [[<- [= <- <-]]|[_ Hx]]%lookup_insert_Some; eauto.
Qed.
Lemma call_store_built b i0 env :
  call_store the_host i0 (instantiate b) env =
    match built b with Ok i => Ok (i, tt, env) | Err e => Err e | Panic => Panic end.
Proof. unfold call_store. rewrite (mem_instantiate _ engine_memoryless b). destruct i0. now destruct (built b). Qed.

(** Loading an application: nothing changes when it is there, else an instance
    of its code is added, or the error is that of the first step that fails. *)
Lemma load_cases chain entropy s app v :
  coherent chain v -> sources s ->
  let p := load_application from_sec1_bytes entropy s app v in
  coherent chain p.2 /\
  (p.1 = Ok tt -> exists i env b, apps p.2 !! app = Some (i, env) /\ src app = Some b /\ built b = Ok i).
Proof.
  intros C Hs. cbv zeta. unfold load_application. cbv [mbind stM_bind gets mret stM_ret lift].
  case_bool_decide as Hin.
  { destruct Hin as [[i env] Hi]. split; [exact C|]. intros _. destruct (proj2 C _ _ _ Hi) as (b & ? & ?). now exists i, env, b. }
  destruct (get_app_source s app) as [b|e|] eqn:Eb; [|now split..]. cbn [result_bind].
  destruct (get_app_data s app) as [st|e|]; [|now split..]. cbn [result_bind].
  destruct (ExecutionEnvironment_new _ _ _ _ _ _ _) as [env|e|]; [|now split..]. cbn [result_bind].
  rewrite call_store_built. destruct (built b) as [i|e|] eqn:Ei; [|now split..]. cbn [result_bind modify fst snd].
  split; [exact (coherent_insert _ _ _ _ _ b C (Hs _ _ Eb) Ei)|]. intros _. exists i, env, b.
  cbn [apps set_apps]. rewrite lookup_insert_eq. split; [reflexivity|]. split; [exact (Hs _ _ Eb)|exact Ei].
Qed.
Lemma call_kept_coherent {A} chain app (f : AppInstance -> Guest AppInstance A) i b env v :
  coherent chain v -> src app = Some b -> built b = Ok i -> leaves i (f i) ->
  coherent chain (call_kept from_sec1_bytes app f i env v).2.
Proof.
  intros C Hs Hb Hl. unfold call_kept. destruct (run_guest_leaves i (f i) env env Hl) as (_ & _ & Hd).
  { exists (env_entropy env), (env_draws env). now destruct env. }
  destruct (run_guest the_host (f i) env) as [[r o] env']. cbn [fst snd] in *. rewrite Hd. now apply (coherent_insert _ _ _ _ _ b).
Qed.

Lemma used_coherent chain v : used chain v -> coherent chain v.
Proof.
  induction 1 as [|entropy s origin app service method args value v _ C Hs|entropy s app v _ C Hs
    |entropy s origin app value bin v _ C|s app service method args v _ C|entropy s app v _ C Hs].
  - split; [reflexivity|]. intros a i env. cbn. now rewrite lookup_empty.
  - unfold execute_call. cbv [mbind stM_bind gets lift]. destruct (load_cases chain entropy s app v C Hs) as [C1 L].
    destruct (load_application _ _ s app v) as [[[]|e|] v1]; cbn [fst snd] in *; [|exact C1..].
    destruct (L eq_refl) as (i & env0 & b & Hi & Hsrc & Hb).
    destruct (get_app_data s app) as [st|e|]; [|exact C1..]. rewrite Hi. cbn [ok_or_else ok_or].
    destruct (ExecutionEnvironment_new _ _ _ _ _ _ _) as [env|e|]; [|exact C1..].
    pose proof (call_kept_coherent chain app (fun app => guest_call app service method args) i b env v1 C1 Hsrc Hb
      (mem_call _ engine_memoryless i service method args)) as K.
    destruct (call_kept _ _ _ _ _ v1) as [[[a e2]|e|] v2]; exact K.
  - apply load_cases; auto.
  - unfold create_application. cbv [mbind stM_bind gets lift]. exact C.
  - exact C.
  - unfold execute_get_app_descriptor. cbv [mbind stM_bind gets lift]. destruct (load_cases chain entropy s app v C Hs) as [C1 L].
    destruct (load_application _ _ s app v) as [[[]|e|] v1]; cbn [fst snd] in *; [|exact C1..].
    destruct (L eq_refl) as (i & env0 & b & Hi & Hsrc & Hb). rewrite Hi. cbn [ok_or_else ok_or].
    pose proof (call_kept_coherent chain app guest_descriptor i b env0 v1 C1 Hsrc Hb (mem_descriptor _ engine_memoryless i)) as K.
    destruct (call_kept _ _ _ _ _ v1) as [[[a e2]|e|] v2]; exact K.
Qed.

(** *** A call computed without a cache *)

Definition pure_call (chain : ChainHeadReader) (s : State) (origin app : Address) (code : bytes) (service method : Z)
    (args : bytes) (value : Z) : result anyhow Changelist :=
  storage ← get_app_data s app;
  env ← ExecutionEnvironment_new origin app value storage s chain (fun _ => H256_zero);
  i ← built code;
  match run_guest the_host (guest_call i service method args) env with
  | (Ok _, _, env') => Ok (Changelist_from env')
  | (Err e, _, _) => Err e
  | (Panic, _, _) => Panic
  end.

(** Whether the environment can be made does not depend on the caller. *)
Lemma env_new_any origin value ent origin' value' ent' app storage s chain :
  match ExecutionEnvironment_new origin app value storage s chain ent,
        ExecutionEnvironment_new origin' app value' storage s chain ent' with
  | Ok _, Ok _ => True
  | Err e, Err e' => e = e'
  | Panic, Panic => True
  | _, _ => False
  end.
Proof.
  unfold ExecutionEnvironment_new. destruct (account_state s app); cbn [mbind result_bind]; auto.
  now destruct (ok_or_else _ _).
Qed.
Lemma env_new_alike origin value storage s app chain ent ent' env :
  ExecutionEnvironment_new origin app value storage s chain ent = Ok env ->
  exists env', ExecutionEnvironment_new origin app value storage s chain ent' = Ok env' /\ alike env env'.
Proof.
  unfold ExecutionEnvironment_new. destruct (account_state s app) as [a| |]; [|discriminate..]. cbn [mbind result_bind].
  destruct (ok_or_else _ _) as [n| |]; [|discriminate..]. cbn [mbind result_bind]. intros [= <-].
  eexists. split; [reflexivity|]. now exists ent', 0%nat.
Qed.

Lemma load_outcome entropy s app b v :
  get_app_source s app = Ok b ->
  load_application from_sec1_bytes entropy s app v =
    if bool_decide (is_Some (apps v !! app)) then (Ok tt, v)
    else match (st ← get_app_data s app;
                env ← ExecutionEnvironment_new Address_default app 0 st s (vm_blockchain v) (fun k => entropy (2 * k)%nat);
                i ← built b; Ok (i, env)) with
         | Ok p => (Ok tt, set_apps (<[app := p]> (apps v)) v)
         | Err e => (Err e, v)
         | Panic => (Panic, v)
         end.
Proof.
  intros Eb. unfold load_application. cbv [mbind stM_bind gets mret stM_ret lift]. destruct (bool_decide _); [reflexivity|].
  rewrite Eb. cbn [result_bind]. destruct (get_app_data s app) as [st|e|]; [|reflexivity..]. cbn [result_bind].
  destruct (ExecutionEnvironment_new _ _ _ _ _ _ _) as [env|e|]; [|reflexivity..]. cbn [result_bind].
  rewrite call_store_built. now destruct (built b).
Qed.
Lemma execute_call_pure chain entropy s origin app b service method args value v :
  coherent chain v -> sources s -> get_app_source s app = Ok b ->
  (execute_call from_sec1_bytes entropy s origin app service method args value v).1
  = pure_call chain s origin app b service method args value.
Proof.
  intros C Hs Eb. unfold execute_call, pure_call.
  assert (forall i env0 v1 st, coherent chain v1 -> apps v1 !! app = Some (i, env0) -> built b = Ok i -> get_app_data s app = Ok st ->
    ((m ← gets apps; '(app0, _) ← lift (ok_or_else (m !! app) "app not found"); chain0 ← gets vm_blockchain;
      env ← lift (ExecutionEnvironment_new origin app value st s chain0 (fun k => entropy (2 * k + 1)%nat));
      '(_, env) ← call_kept from_sec1_bytes app (fun app => guest_call app service method args) app0 env;
      mret (Changelist_from env)) v1).1 = pure_call chain s origin app b service method args value) as Hrun.
  { intros i env0 v1 st [Hch _] Hi Hb Ed. unfold pure_call. cbv [mbind stM_bind gets lift]. rewrite Hi, Ed. cbn [ok_or_else ok_or result_bind].
    rewrite Hch. destruct (ExecutionEnvironment_new _ _ _ _ _ _ (fun k => _)) as [env|e|] eqn:En.
    2,3: pose proof (env_new_any origin value (fun k => entropy (2 * k + 1)%nat) origin value (fun _ => H256_zero) app st s chain) as HA;
      cbn beta in *; rewrite En in HA; destruct (ExecutionEnvironment_new _ _ _ _ _ _ (fun _ => H256_zero)); try contradiction; subst; reflexivity.
    destruct (env_new_alike _ _ _ _ _ _ _ (fun _ => H256_zero) _ En) as (env' & -> & Hal). cbn [result_bind]. rewrite Hb. cbn [result_bind].
    destruct (run_guest_leaves i _ _ _ (mem_call _ engine_memoryless i service method args) Hal) as (E1 & (f & n & E2) & _).
    unfold call_kept. destruct (run_guest _ _ env) as [[r o] x], (run_guest _ _ env') as [[r' o'] x']. cbn [fst snd] in *.
    injection E1 as <- <-. subst x'. destruct r; reflexivity. }
  unfold mbind at 1, stM_bind at 1. rewrite (load_outcome entropy s app b v Eb). case_bool_decide as Hin.
  - destruct Hin as [[i env0] Hi]. destruct (proj2 C _ _ _ Hi) as (b' & Hb' & Hi').
    assert (b' = b) as -> by (pose proof (Hs _ _ Eb); congruence).
    unfold mbind at 1, stM_bind at 1, lift at 1. destruct (get_app_data s app) as [st|e|] eqn:Ed; [|reflexivity..].
    rewrite (Hrun i env0 v st C Hi Hi' eq_refl). unfold pure_call. now rewrite Ed.
  - destruct (get_app_data s app) as [st|e|] eqn:Ed; [|reflexivity..]. cbn [mbind result_bind].
    pose proof (env_new_any Address_default 0 (fun k => entropy (2 * k)%nat) origin value (fun _ => H256_zero) app st s (vm_blockchain v)) as HA.
    rewrite (proj1 C) in HA |- *.
    destruct (ExecutionEnvironment_new Address_default _ _ _ _ _ _) as [env1|e|].
    2,3: destruct (ExecutionEnvironment_new origin _ _ _ _ _ (fun _ => H256_zero)); try contradiction; subst; reflexivity.
    destruct (ExecutionEnvironment_new origin _ _ _ _ _ (fun _ => H256_zero)) as [env2|e|] eqn:En2; [|easy..]. cbn [mbind result_bind].
    destruct (built b) as [i|e|] eqn:Ei; [|reflexivity..]. cbn [mbind result_bind].
    unfold mbind at 1, stM_bind at 1, lift at 1.
    rewrite (Hrun i env1 _ st (coherent_insert _ _ _ _ _ b C (Hs _ _ Eb) Ei) (lookup_insert_eq _ _ _) eq_refl eq_refl).
    unfold pure_call. rewrite Ed. cbn [mbind result_bind]. rewrite En2. cbn [mbind result_bind]. now rewrite Ei.
Qed.

End Cache.
