(* ===== verification/RuntimeExamples.v ===== *)
(** * Applications at work

    A small application on concrete accounts, for the theorems of Runtime: it
    sends three coins on, has five of its caller's reserved, releases two of
    them and notes the value of the call in its storage. *)
From S2P Require Import Prelude Crypto Types Consensus Smt Codec SmtTree SmtProofs SmtTheorems TreeDb State StateProofs Replay Runtime Machine.

Definition no_point (_ : bytes) : option VerifyingKey := None.
Definition no_chain : ChainHeadReader :=
  {| get_header _ _ := Ok None; get_header_by_hash _ := Ok None; get_header_by_level _ := Ok None |}.

Definition app_addr : Address := ok_default [] (get_address_from_seed (E:=unit) [7] Testnet).
Definition app_account : AccountState := {|
  free_balance := 10; reserve_balance := 0; acc_nonce := 1;
  app_state := Some {| root_hash := H256_zero; code_hash := H256_zero; creator := demo_dst 9; app_version := 1 |} |}.
Definition call_tx (d : TransactionData) : SignedTransaction := {|
  tx := {| nonce := 1; tx_chain_id := 1; genesis_hash := H256_zero; fee := 2; value := 4; data := Some d |};
  sig_r := H256_zero; sig_s := H256_zero; sig_v := 0 |}.
Definition demo_call : SignedTransaction := call_tx (Call app_addr 1 2 []).
Definition caller : Address := sender demo_call.
Definition caller_account : AccountState := set_free_balance 100 AccountState_new.

Definition app_state_db : State :=
  ((_ ← put_account app_addr app_account; put_account caller caller_account) demo_state).2.

Definition busy_guest : Guest unit unit :=
  Host (Transfer (demo_dst 1) 3) tt (fun _ =>
  Host (Reserve 5) tt (fun _ =>
  Host (Unreserve 2) tt (fun _ =>
  Host ContextValue tt (fun v =>
  Host (StorageInsert [1] (match v with AInt n => [n] | _ => [] end)) tt (fun _ =>
  Return tt tt))))).
Definition reading_guest : Guest unit bytes :=
  Host (GetFreeBalance caller) tt (fun b =>
  Host (StorageGet [1]) tt (fun o =>
  Return tt (match b, o with AInt n, AOption (Some l) => n :: l | _, _ => [] end))).
#[local] Instance demo_engine : WasmEngine := {|
  AppInstance := unit;
  instantiate _ := Return tt tt;
  guest_genesis _ := Return tt tt;
  guest_call _ _ _ _ := busy_guest;
  guest_query _ _ _ _ := reading_guest;
  guest_descriptor _ := Return tt [];
|}.

Definition nowhere : ExecutionEnvironment := {|
  env_network := Testnet; env_sender := []; env_app := []; env_value := 0; env_storage := smt_new;
  env_state_db := demo_state; env_blockchain := no_chain; env_accounts := ∅; env_events := [];
  env_entropy := fun _ => H256_zero; env_draws := 0 |}.
Definition demo_env : ExecutionEnvironment :=
  ok_default nowhere (ExecutionEnvironment_new caller app_addr 4 smt_new app_state_db no_chain (fun _ => H256_zero)).
Definition demo_env_run := run_guest (host no_point) busy_guest demo_env.
Definition in_use : list Address := [app_addr; caller; demo_dst 1].

(** [Forall] over the accounts of a map, decided. *)
Lemma dom_in (m : Accounts) (B : list Address) :
  forallb (fun kv => bool_decide (kv.1 ∈ B)) (map_to_list m) = true -> forall a, is_Some (m !! a) -> In a B.
Proof.
  intros F a [x Hx]. apply list_elem_of_In. rewrite forallb_forall in F.
  specialize (F (a, x)). cbn [fst] in F.
  assert (bool_decide (a ∈ B) = true) as E by (apply F, list_elem_of_In, elem_of_map_to_list, Hx).
  exact (bool_decide_eq_true_1 _ E).
Qed.
Lemma all_balanced_dec f B :
  forallb (fun a => bool_decide (is_u 64 (free_balance (f a)) /\ is_u 64 (reserve_balance (f a)))) B = true ->
  all_balanced f B.
Proof. rewrite forallb_forall. intros F a Ha. exact (bool_decide_eq_true_1 _ (F a Ha)). Qed.
Lemma in_use_nodup : NoDup in_use.
Proof. apply (bool_decide_unpack _). vm_compute. exact Logic.I. Qed.

Lemma guest_conserves_witness :
  total (look (env_accounts demo_env_run.2) (env_state_db demo_env_run.2)) in_use = 114 /\
  forall a, account_frame caller app_addr a (look (env_accounts demo_env) (env_state_db demo_env) a)
              (look (env_accounts demo_env_run.2) (env_state_db demo_env_run.2) a).
Proof.
  assert (demo_env_run.1.1 = Ok tt) as Er by (vm_compute; reflexivity).
  pose proof (guest_conserves no_point busy_guest demo_env (Ok tt) demo_env_run.1.2 demo_env_run.2 in_use) as G.
  destruct G as (_ & T & F).
  - rewrite <- Er. unfold demo_env_run. now destruct (run_guest _ _ _) as [[? ?] ?].
  - discriminate.
  - exact in_use_nodup.
  - apply dom_in. vm_compute. reflexivity.
  - apply all_balanced_dec. vm_compute. reflexivity.
  - vm_compute. reflexivity.
  - split; [rewrite T; vm_compute; reflexivity|]. exact F.
Defined.

Definition demo_machine : WasmVM := {| vm_blockchain := no_chain; apps := {[app_addr := (tt, nowhere)]} |}.
#[local] Instance demo_machine_vm : WasmVMInstance :=
  WasmVM_instance no_point (fun _ => H256_zero) demo_machine (fun _ _ => Err "no codec") (fun _ => 0).
Definition call_exec : Exec := {|
  ex_state := app_state_db; ex_accounts := {[app_addr := app_account; caller := caller_account]} |}.
Definition call_run := apply_transaction demo_call call_exec.

Lemma call_mints_value_witness :
  total (look (ex_accounts call_run.2) (ex_state call_run.2)) in_use
  = total (look (ex_accounts call_exec) (ex_state call_exec)) in_use + 4.
Proof.
  assert (call_run.1 = Ok tt) as Er by (vm_compute; reflexivity).
  apply (call_mints_value no_point (fun _ => H256_zero) demo_machine (fun _ _ => Err "no codec"%string) (fun _ => 0)
           demo_call call_exec call_run.2 app_addr 1 2 [] in_use).
  - reflexivity.
  - rewrite <- Er. apply surjective_pairing.
  - intros a st. unfold call_exec. cbn [ex_accounts ex_state].
    intros [[<- <-]|[Hne [<- <-]%lookup_singleton_Some]]%lookup_insert_Some; vm_compute; reflexivity.
  - apply all_balanced_dec. vm_compute. reflexivity.
  - vm_compute. discriminate.
  - exact in_use_nodup.
  - apply dom_in. vm_compute. reflexivity.
  - vm_compute. reflexivity.
Defined.

(** A query that reads a balance and the storage, and the same as a call without value. *)
Definition query_env : QueryEnvironment :=
  {| q_storage := env_storage demo_env_run.2; q_state_db := app_state_db |}.
Definition reading_env_result : result anyhow ExecutionEnvironment :=
  ExecutionEnvironment_new caller app_addr 0 (env_storage demo_env_run.2) app_state_db no_chain (fun _ => H256_zero).
Definition reading_env : ExecutionEnvironment := ok_default nowhere reading_env_result.

Lemma reading_env_shows : shows query_env reading_env.
Proof.
  apply (env_new_shows caller app_addr _ _ no_chain (fun _ => H256_zero)).
  - apply (ok_default_eq nowhere reading_env_result). vm_compute. reflexivity.
  - vm_compute. intuition discriminate.
Qed.

Lemma query_simulated_witness :
  exists e', run_guest (host no_point) reading_guest reading_env = (Ok [100; 4], Some tt, e') /\
    shows query_env e' /\ env_events e' = [].
Proof.
  assert (run_guest query_host reading_guest query_env = (Ok [100; 4], Some tt, query_env)) as E.
  { assert ((run_guest query_host reading_guest query_env).1 = (Ok [100; 4], Some tt)) as E1
      by (vm_compute; reflexivity).
    assert (forall g : Guest unit bytes, (run_guest query_host g query_env).2 = query_env) as E2.
    { intros g. induction g as [| | |c i k IH]; cbn [run_guest snd]; auto. unfold query_host at 1.
      cbv [mbind stM_bind gets lift]. destruct (query_answer query_env c); auto. }
    specialize (E2 reading_guest). destruct (run_guest query_host reading_guest query_env) as [p q].
    cbn [fst snd] in *. congruence. }
  destruct (query_simulated no_point reading_guest query_env [100; 4] (Some tt) query_env reading_env E
              reading_env_shows) as (e' & R & S & V).
  exists e'. split; [exact R|]. split; [exact S|]. rewrite V. vm_compute. reflexivity.
Defined.

Definition demo_create : SignedTransaction := call_tx (Create (lit "com.example.app") [1; 2; 3]).
Lemma create_always_refused_witness :
  exists r, apply_transaction demo_create call_exec = (r, call_exec) /\ is_ok r = false.
Proof. exact (create_always_refused demo_create call_exec (lit "com.example.app") [1; 2; 3] eq_refl). Defined.

Lemma guest_stops_node_witness :
  run_guest (host no_point) (Host (Transfer [1; 2; 3] 1) tt (fun _ => Return tt tt)) demo_env = (Panic, None, demo_env).
Proof.
  refine (guest_stops_node no_point tt (fun _ => Return tt tt) demo_env (Transfer [1; 2; 3] 1) _).
  right. right. exists [1; 2; 3], 1. split; [discriminate | now left].
Defined.

(** ** The cache *)

(** A state that holds the code of the application. *)
Definition hosted_db : State := (put_metadata H256_zero {| binary := [1]; descriptor := [] |} app_state_db).2.
Definition hosted_source (a : Address) : option bytes :=
  match get_app_source hosted_db a with Ok b => Some b | _ => None end.
Lemma hosted_sources : sources hosted_source hosted_db.
Proof. intros a b E. unfold hosted_source. now rewrite E. Qed.
Lemma hosted_code : get_app_source hosted_db app_addr = Ok [1].
Proof. vm_compute. reflexivity. Qed.
Lemma demo_engine_memoryless : memoryless (H:=demo_engine) (fun _ => Ok tt).
Proof. split; [reflexivity| |]; intros i; cbn in i; destruct i; cbn; repeat split; discriminate. Qed.
Abbreviation still := (fun _ : nat => H256_zero).
Definition used_machine : WasmVM := (execute_call no_point still hosted_db caller app_addr 1 2 [] 4 (WasmVM_new no_chain)).2.

(** Whether two executions leave different storage. *)
Definition differ (r1 r2 : result anyhow Changelist) : bool :=
  match r1, r2 with
  | Ok c1, Ok c2 => negb (bool_decide (root (storage c1) = root (storage c2)))
  | _, _ => false
  end.

(** An application that counts its calls in memory and stores the count. *)
Definition counting_engine : WasmEngine := {|
  AppInstance := Z;
  instantiate _ := Return tt 1;
  guest_genesis i := Return i tt;
  guest_call i _ _ _ := Host (StorageInsert [1] [i]) i (fun _ => Return (i + 1) tt);
  guest_query i _ _ _ := Return i [];
  guest_descriptor i := Return i [];
|}.
(** Memory shows: the same call on the same state, executed a second time by the
    same machine, leaves another storage.  A node executes the transactions of a
    block once to check it and again to apply it. *)
Example cached_memory_shows :
  let call := vm_execute_app_tx (H1:=counting_engine) no_point still hosted_db caller 4 app_addr 1 2 [] in
  let v := WasmVM_new (H1:=counting_engine) no_chain in
  differ (call v).1 (call (call v).2).1 = true.
Proof. vm_compute. reflexivity. Qed.

(** An application that stores a key pair it has generated. *)
Definition drawing_engine : WasmEngine := {|
  AppInstance := unit;
  instantiate _ := Return tt tt;
  guest_genesis _ := Return tt tt;
  guest_call _ _ _ _ := Host GenerateKeypair tt (fun a =>
    Host (StorageInsert [1] (match a with APair sk _ => sk | _ => [] end)) tt (fun _ => Return tt tt));
  guest_query _ _ _ _ := Return tt [];
  guest_descriptor _ := Return tt [];
|}.
(** Entropy shows: two nodes that execute the same call on the same state leave
    different storage. *)
Example drawn_entropy_shows :
  let call k := vm_execute_app_tx (H1:=drawing_engine) no_point (fun _ => repeat k 32) hosted_db caller 4 app_addr 1 2 []
    (WasmVM_new (H1:=drawing_engine) no_chain) in
  differ (call 1).1 (call 2).1 = true.
Proof. vm_compute. reflexivity. Qed.
