(* ===== verification/Framework.v ===== *)
(** * The framework of applications

    src/runtime/framework: what an application written in Rust is made of.  Its
    functions are guests without memory of their own; a panic traps.  Host
    functions are wrapped by [io] and [syscall], [StorageMap] and [StorageValue]
    keep values under hashed keys, [service_call] is the dispatch that
    src/runtime/build/src/server.rs generates for a service, and [Router] and
    the exports turn services into an application. *)
From S2P Require Import Prelude Crypto Types Consensus Smt Codec SmtTree SmtProofs SmtTheorems TreeDb State StateProofs Runtime.

Abbreviation G := (Guest unit).
Fixpoint guest_bind {A B} (f : A -> G B) (g : G A) : G B :=
  match g with
  | Return _ a => f a
  | Trap i e => Trap i e
  | Diverge => Diverge
  | Host c i k => Host c i (fun x => guest_bind f (k x))
  end.
#[export] Instance G_ret : MRet G := fun _ a => Return tt a.
#[export] Instance G_bind : MBind G := fun _ _ f g => guest_bind f g.
(** [panic!] and a failed [unwrap] *)
Definition guest_panic {A} (msg : anyhow) : G A := Trap tt msg.
(** A result whose error is handled by the caller, and [unwrap] of one. *)
Definition total_result {E A} (r : result E A) : G (result E A) :=
  match r with Panic => guest_panic "panic" | _ => mret r end.
Definition guest_unwrap {E A} (r : result E A) : G A :=
  match r with Ok a => mret a | _ => guest_panic "unwrap" end.

(** ** Host functions as the framework offers them *)

Definition ask (c : HostCall) : G Answer := Host c tt mret.
Definition ask_bytes (c : HostCall) : G bytes :=
  a ← ask c; match a with ABytes b => mret b | _ => guest_panic "type" end.
Definition ask_int (c : HostCall) : G Z :=
  a ← ask c; match a with AInt n => mret n | _ => guest_panic "type" end.
Definition ask_bool (c : HostCall) : G bool :=
  a ← ask c; match a with ABool b => mret b | _ => guest_panic "type" end.
Definition ask_unit (c : HostCall) : G unit := _ ← ask c; mret tt.

(** [H256::from_slice] and [H512::from_slice] assert the length. *)
Definition hash_from_slice (n : nat) (b : bytes) : G bytes := guest_unwrap (fixed_bytes (E:=unit) n b).
Definition address_from_slice (b : bytes) : G Address := guest_unwrap (Address_from_slice (E:=unit) b).

Definition sys_block_hash (level : Z) : G H256 := b ← ask_bytes (BlockHash level); hash_from_slice 32 b.
Definition sys_address_from_pk (pk : H256) : G Address :=
  b ← ask_bytes (AddressFromPk pk); address_from_slice b.
Definition sys_generate_keypair : G (H256 * H256) :=
  a ← ask GenerateKeypair;
  match a with
  | APair sk pk => sk ← hash_from_slice 32 sk; pk ← hash_from_slice 32 pk; mret (sk, pk)
  | _ => guest_panic "type"
  end.
Definition sys_generate_native_address (seed : bytes) : G Address :=
  b ← ask_bytes (GenerateNativeAddress seed); address_from_slice b.
Definition sys_sign (sk : H256) (msg : bytes) : G bytes :=
  b ← ask_bytes (Sign sk msg); hash_from_slice 64 b.
Definition sys_transfer (to : Address) (amount : Z) : G bool := ask_bool (Transfer to amount).
Definition sys_reserve (amount : Z) : G bool := ask_bool (Reserve amount).
Definition sys_unreserve (amount : Z) : G bool := ask_bool (Unreserve amount).
Definition sys_get_free_balance (a : Address) : G Z := ask_int (GetFreeBalance a).
Definition sys_get_reserve_balance (a : Address) : G Z := ask_int (GetReserveBalance a).
Definition sys_get_nonce (a : Address) : G Z := ask_int (GetNonce a).

(** [Call::origin], [Call::value] and [Call::block_level] *)
Definition call_origin : G Address := b ← ask_bytes ContextSender; address_from_slice b.
Definition call_value : G Z := ask_int ContextValue.
Definition call_block_level : G Z := ask_int ContextBlockLevel.

Definition io_insert (key value : bytes) : G unit := ask_unit (StorageInsert key value).
Definition io_get (key : bytes) : G (option bytes) :=
  a ← ask (StorageGet key); match a with AOption o => mret o | _ => guest_panic "type" end.
Definition io_remove (key : bytes) : G bool := ask_bool (StorageRemove key).
Definition emit_raw_event (descriptor : str) (data : bytes) : G unit := ask_unit (Emit descriptor data).

(** ** Storage maps and values *)

(** The parameters of a storage type: the prefix of its keys, their hasher and
    the encodings of keys and values. *)
Record StorageMap (K V : Type) := {
  key_prefix : bytes; key_hasher : bytes -> bytes;
  enc_key : K -> bytes; enc_val : V -> bytes; dec_val : bytes -> result anyhow V }.
Arguments key_prefix {K V} _.
Arguments key_hasher {K V} _ _.
Arguments enc_key {K V} _ _.
Arguments enc_val {K V} _ _.
Arguments dec_val {K V} _ _.

Section Maps.
Context {K V : Type} (sm : StorageMap K V).
Definition storage_key (key : K) : bytes := key_hasher sm (key_prefix sm ++ enc_key sm key).
Definition map_put (key : K) (value : V) : G unit := io_insert (storage_key key) (enc_val sm value).
Definition map_get (key : K) : G (result anyhow (option V)) :=
  raw ← io_get (storage_key key);
  match raw with
  | None => mret (Ok None)
  | Some [] => mret (Ok None)
  | Some raw_value => r ← total_result (dec_val sm raw_value); mret (v ← r; Ok (Some v))
  end.
Definition map_contains (key : K) : G bool :=
  r ← map_get key;
  mret (match r with Ok (Some _) => true | _ => false end).
Definition map_remove (key : K) : G (result anyhow unit) :=
  b ← io_remove (storage_key key);
  mret (if b : bool then Ok tt else bail "failed to delete key").

(** [StorageValue]: the key is the prefix alone. *)
Definition value_set (value : V) : G unit := io_insert (key_hasher sm (key_prefix sm)) (enc_val sm value).
Definition value_get : G (result anyhow V) :=
  raw ← io_get (key_hasher sm (key_prefix sm));
  match raw with
  | None => mret (bail "value not found")
  | Some raw_value => total_result (dec_val sm raw_value)
  end.
End Maps.

(** ** Services and applications *)

Record CallResponse := { type_descriptor : str; response_data : bytes }.
Definition CallResponse_default : CallResponse := {| type_descriptor := []; response_data := [] |}.

Section Service.
Variable twox_64_hash : bytes -> Z.

(** A method of a service: its path and its handler on a payload. *)
Definition Method : Type := (str * (bytes -> G (result anyhow CallResponse))).
(** One generated method: [Call::new(payload).unwrap()], then the method of the
    application; its error becomes the default response. *)
Definition unary {M} (dec : bytes -> result anyhow M) (handler : M -> G (result anyhow CallResponse)) :
    bytes -> G (result anyhow CallResponse) := fun payload =>
  message ← guest_unwrap (dec payload);
  handler message.
Fixpoint service_call (methods : list Method) (method : Z) (payload : bytes) : G CallResponse :=
  match methods with
  | [] => mret CallResponse_default
  | (path, handler) :: methods =>
    if twox_64_hash (utf8 path) =? method then
      r ← handler payload;
      mret (match r with Ok response => response | _ => CallResponse_default end)
    else service_call methods method payload
  end.

(** [Router]: services by the hash of their name. *)
Abbreviation Router := (gmap Z (list Method)).
Definition register_service (name : str) (methods : list Method) (r : Router) : Router :=
  <[twox_64_hash (utf8 name) := methods]> r.
Definition router_handle (r : Router) (service method : Z) (payload : bytes) : G CallResponse :=
  methods ← guest_unwrap (unwrap (E:=unit) (r !! service));
  service_call methods method payload.

(** The exports of an application *)
Definition app_genesis (genesis : G (result anyhow unit)) : G unit := r ← genesis; guest_unwrap r.
Definition app_call (call : Z -> Z -> bytes -> G (result anyhow CallResponse)) (service method : Z) (arg : bytes) :
    G unit :=
  r ← call service method arg;
  response ← guest_unwrap r;
  emit_raw_event (type_descriptor response) (response_data response).
Definition app_query (call : Z -> Z -> bytes -> G (result anyhow CallResponse)) (service method : Z) (arg : bytes) :
    G bytes :=
  r ← call service method arg;
  response ← guest_unwrap r;
  mret (response_data response).
End Service.

(** ** Running the framework *)

Section Contract.
Context `{CryptoLaws} `{Bincode}.
Variable from_sec1_bytes : bytes -> option VerifyingKey.
Abbreviation run_host := (run_guest (host from_sec1_bytes)).

Lemma run_bind {A B St} (handler : HostCall -> stM St anyhow Answer) (f : A -> G B) g s :
  run_guest handler (g ≫= f) s =
  match run_guest handler g s with
  | (Ok a, _, s') => run_guest handler (f a) s'
  | (Err e, i, s') => (Err e, i, s')
  | (Panic, i, s') => (Panic, i, s')
  end.
Proof.
  unfold mbind, G_bind. revert s. induction g as [[] a|i e| |c i k IH]; intros s; cbn [guest_bind run_guest]; auto.
  destruct (handler c s) as [[x|e|] s']; auto.
Qed.
Lemma run_bind_ok {A B St} (handler : HostCall -> stM St anyhow Answer) (f : A -> G B) g s a i s' :
  run_guest handler g s = (Ok a, i, s') -> run_guest handler (g ≫= f) s = run_guest handler (f a) s'.
Proof. intros E. now rewrite run_bind, E. Qed.
Lemma run_bind_inv {A B St} (handler : HostCall -> stM St anyhow Answer) (f : A -> G B) g s b i s' :
  run_guest handler (g ≫= f) s = (Ok b, i, s') ->
  exists a j s1, run_guest handler g s = (Ok a, j, s1) /\ run_guest handler (f a) s1 = (Ok b, i, s').
Proof. rewrite run_bind. destruct (run_guest handler g s) as [[[a|e|] j] s1]; try discriminate. eauto 10. Qed.
Lemma run_unwrap_ok {E A St} (handler : HostCall -> stM St anyhow Answer) (r : result E A) s b i s' :
  run_guest handler (guest_unwrap r) s = (Ok b, i, s') -> r = Ok b /\ s' = s.
Proof. destruct r; cbn; intros E'; try discriminate. now injection E' as <- _ <-. Qed.

(** What the storage of an application holds under a key. *)
Definition map_lookup {K V} (sm : StorageMap K V) (m : gmap bytes bytes) (key : K) : result anyhow (option V) :=
  match m !! path keccak256 (storage_key sm key) with
  | None => Ok None
  | Some raw => v ← dec_val sm raw; Ok (Some v)
  end.
(** A write that meets no collision in the tree. *)
Definition writable (t : tree) (m : gmap bytes bytes) (key value : bytes) : Prop :=
  collision_free keccak256 (node_data keccak256 t ++ node_data keccak256 (tupdate keccak256 key value t)) /\
  (forall v', m !! path keccak256 key = Some v' -> keccak256 v' = keccak256 value -> v' = value).

Lemma run_map_get {K V} (sm : StorageMap K V) key e t m :
  represents keccak256 (env_storage e) t m ->
  run_host (map_get sm key) e =
  match map_lookup sm m key with Panic => (Err "panic"%string, Some tt, e) | r => (Ok r, Some tt, e) end.
Proof.
  intros R. unfold map_get. rewrite run_bind. unfold io_get. rewrite run_bind. cbn [ask run_guest host].
  unfold host_get, storage_get. cbv [mbind stM_bind gets lift mret stM_ret].
  rewrite (get_represents keccak256 _ t m) by auto. cbn [run_guest G_ret]. unfold map_lookup.
  destruct (m !! _) as [raw|] eqn:Em; cbn [default]; [|reflexivity].
  pose proof (rep_nonempty keccak256 _ _ _ R _ _ Em) as Hne.
  destruct raw as [|b raw]; [done|]. unfold id. change (guest_bind ?f ?g) with (g ≫= f). rewrite run_bind.
  by destruct (dec_val sm (b :: raw)).
Qed.

Lemma run_map_put {K V} (sm : StorageMap K V) key value e t m :
  represents keccak256 (env_storage e) t m -> enc_val sm value <> [] ->
  writable t m (storage_key sm key) (enc_val sm value) ->
  exists smt', run_host (map_put sm key value) e = (Ok tt, Some tt, set_env_storage smt' e) /\
    represents keccak256 smt' (tupdate keccak256 (storage_key sm key) (enc_val sm value) t)
      (<[path keccak256 (storage_key sm key) := enc_val sm value]> m).
Proof.
  intros R Hne [HU Hv].
  pose proof (update_represents keccak256 keccak256_len (env_storage e) t m (storage_key sm key)
                (enc_val sm value) R HU (fun _ => Hv)) as U.
  unfold spec_update in U. rewrite bool_decide_eq_false_2 in U by auto. destruct U as (smt' & E & R').
  exists smt'. split; auto. unfold map_put, io_insert, ask_unit. rewrite run_bind. cbn [ask run_guest host].
  unfold host_insert. cbv [mbind stM_bind mret stM_ret]. rewrite E. reflexivity.
Qed.

(** A storage map is a map: after [put], [get] returns the value put, and
    for every other key (whose storage key does not collide with it) what it
    returned before; nothing but the storage of the application changes. *)
Theorem map_put_get {K V} (sm : StorageMap K V) key value e t m :
  represents keccak256 (env_storage e) t m ->
  enc_val sm value <> [] -> dec_val sm (enc_val sm value) = Ok value ->
  writable t m (storage_key sm key) (enc_val sm value) ->
  exists smt', run_host (map_put sm key value) e = (Ok tt, Some tt, set_env_storage smt' e) /\
    run_host (map_get sm key) (set_env_storage smt' e)
      = (Ok (Ok (Some value)), Some tt, set_env_storage smt' e) /\
    forall key', path keccak256 (storage_key sm key') <> path keccak256 (storage_key sm key) ->
      (run_host (map_get sm key') (set_env_storage smt' e)).1 = (run_host (map_get sm key') e).1.
Proof.
  intros R Hne Hd W. destruct (run_map_put sm key value e t m R Hne W) as (smt' & E & R').
  exists smt'. split; [exact E|]. split.
  - erewrite run_map_get by exact R'. unfold map_lookup. now rewrite lookup_insert_eq, Hd.
  - intros key' Hp. erewrite (run_map_get sm key' (set_env_storage smt' e)) by exact R'.
    rewrite (run_map_get sm key' e t m R). unfold map_lookup. rewrite lookup_insert_ne by auto.
    destruct (m !! _) as [raw|]; [|reflexivity]. now destruct (dec_val sm raw).
Qed.

(** No application signs: the host returns a recoverable signature of 65
    bytes and the framework reads it into 64, which panics, so that [sign]
    never returns. *)
Theorem sign_never_returns sk msg e : is_ok (run_host (sys_sign sk msg) e).1.1 = false.
Proof.
  unfold sys_sign, ask_bytes. rewrite !run_bind. cbn [ask run_guest host].
  unfold host_sign. cbv [mbind stM_bind lift result_bind mret stM_ret].
  destruct (crypto_error (SecretKey_from_bytes sk)) as [k| |]; auto.
  destruct (crypto_error (SecretKey_sign k msg)) as [sig| |]; auto. cbn [run_guest G_ret].
  unfold hash_from_slice, fixed_bytes. rewrite decide_False; [reflexivity|].
  rewrite (proj1 (signature_len sig)). lia.
Qed.

End Contract.
