(* ===== verification/Registry.v ===== *)
(** * The name registry

    src/dapps/namespace-registry: the application that records who owns a
    namespace.  The messages of its service (proto/service.proto) are encoded by
    generated code, the parameter [RegistryMessages]; BLAKE2b and xxHash are
    third-party hashes.  The application is a guest of the machine of Runtime,
    built with Framework. *)
From S2P Require Import Prelude Crypto Types Consensus Smt Codec SmtTree SmtProofs SmtTheorems TreeDb State StateProofs Runtime Framework.

(** [Namespace] of service.proto *)
Record Namespace := { ns_namespace : option H256; ns_owner : option Address }.

(** Generated encodings ([prost]) and third-party hashes *)
Class RegistryMessages := {
  blake2b : bytes -> bytes;
  xxh3_64 : bytes -> Z;
  enc_H256 : H256 -> bytes;
  dec_H256 : bytes -> result anyhow H256;
  enc_Address : Address -> bytes;
  dec_Address : bytes -> result anyhow Address;
  enc_Namespace : Namespace -> bytes;
  dec_Namespace : bytes -> result anyhow Namespace;
  enc_NameSpaceRegistered : Namespace -> bytes;
  enc_OwnerChanged : H256 -> Address -> Address -> bytes;
  dec_GetNamespaceRequest : bytes -> result anyhow str;
}.
(** An address encodes to a field with its 44 bytes and decodes to itself. *)
Class RegistryLaws `{RegistryMessages} := {
  enc_Address_nonempty a : enc_Address a <> [];
  dec_enc_Address a : length a = 44%nat -> dec_Address (enc_Address a) = Ok a;
  dec_Namespace_owner b n a : dec_Namespace b = Ok n -> ns_owner n = Some a -> length a = 44%nat;
}.

(** ** Namespaces (util.rs, genesis.rs) *)

(** [parts] of the application: two parts are enough here. *)
Definition namespace_parts (s : str) : result PackageError (list str) :=
  if MAX_PACKAGE_NAME_LEN <? Z.of_nat (length (utf8 s)) then Err NameTooLong
  else
    let ps := split 46 s in
    if (length ps <? 2)%nat || (8 <? length ps)%nat then Err BadPartCount
    else
      p0 ← unwrap (hd_error ps);
      if negb (forallb is_ascii_lowercase p0) then Err BadFirstPart
      else if negb (parts_valid ps) then Err BadPart
      else Ok ps.

Definition known_namespaces : list str :=
  [lit "network.odax"; lit "io.padic"; lit "com.padicresearch"; lit "com.odax"; lit "io.odax";
   lit "com.odana"; lit "io.odana"; lit "org.odana"; lit "uk.odana"].

Section Registry.
Context `{CryptoPrims} `{RegistryMessages}.

(** [iter().map(keccak256).reduce(..).unwrap_or_default()] *)
Definition hash_parts (ps : list str) : H256 :=
  match (fun p => keccak256 (utf8 p)) <$> ps with
  | [] => H256_zero
  | h :: hs => fold_left (fun acc t => keccak256 (acc ++ t)) hs h
  end.
Definition decode_namespace (package_name : str) : result PackageError H256 :=
  ps ← namespace_parts package_name;
  Ok (hash_parts (take 2 ps)).
Definition restricted_namespaces : list H256 := (fun ns => hash_parts (split 46 ns)) <$> known_namespaces.

(** ** The service (lib.rs) *)

(** [#[rune::storage_map] pub type RegisteredNameSpaces]: the attribute makes
    the path of the type the prefix of its keys (runtime/rune/src/lib.rs). *)
Definition RegisteredNameSpaces : StorageMap H256 Address := {|
  key_prefix := utf8 (lit "::RegisteredNameSpaces");
  key_hasher := blake2b; enc_key := enc_H256; enc_val := enc_Address; dec_val := dec_Address |}.

Definition condition_failed {A} : G (result anyhow A) := mret (Err "Condition failed"%string).

Definition register (message : Namespace) : G (result anyhow CallResponse) :=
  origin ← call_origin;
  if negb (bool_decide (origin = ADMIN)) then condition_failed
  else
    match ns_namespace message with
    | None => mret (bail "namespace cant be None")
    | Some ns =>
      match ns_owner message with
      | None => mret (bail "owner cant be None")
      | Some owner =>
        c ← map_contains RegisteredNameSpaces ns;
        if c : bool then guest_panic "namespace already registered"
        else
          _ ← map_put RegisteredNameSpaces ns owner;
          mret (Ok {| type_descriptor := lit "service.NameSpaceRegistered";
                      response_data := enc_NameSpaceRegistered message |})
      end
    end.

Definition get_owner (namespace : H256) : G (result anyhow CallResponse) :=
  r ← map_get RegisteredNameSpaces namespace;
  mret (o ← r;
        Ok {| type_descriptor := lit "odana.primitive_types.Address";
              response_data := enc_Address (default Address_default o) |}).

Definition set_owner (message : Namespace) : G (result anyhow CallResponse) :=
  match ns_owner message with
  | None => mret (bail "namespace doesnt have owner field set")
  | Some new_owner =>
    match ns_namespace message with
    | None => mret (bail "namespace doesnt have namespace field set")
    | Some namespace =>
      r ← map_get RegisteredNameSpaces namespace;
      match r with
      | Ok (Some prev_owner) =>
        origin ← call_origin;
        if negb (bool_decide (prev_owner = origin)) then condition_failed
        else
          _ ← map_put RegisteredNameSpaces namespace new_owner;
          mret (Ok {| type_descriptor := lit "service.OwnerChanged";
                      response_data := enc_OwnerChanged namespace new_owner prev_owner |})
      | Ok None => mret (bail "namespace not found")
      | Err e => mret (Err e)
      | Panic => guest_panic "panic"
      end
    end
  end.

Definition get_namespace (request : str) : G (result anyhow CallResponse) :=
  d ← total_result (decode_namespace request);
  match d with
  | Ok namespace =>
    r ← map_get RegisteredNameSpaces namespace;
    let owner := match r with Ok o => o | _ => None end in
    mret (Ok {| type_descriptor := lit "service.Namespace";
                response_data := enc_Namespace {| ns_namespace := Some namespace; ns_owner := owner |} |})
  | _ => mret (bail "invalid package name")
  end.

Definition registry_service : list Method :=
  [(lit "/service.Registry/Register", unary dec_Namespace register);
   (lit "/service.Registry/GetOwner", unary dec_H256 get_owner);
   (lit "/service.Registry/SetOwner", unary dec_Namespace set_owner);
   (lit "/service.Registry/GetNamespace", unary dec_GetNamespaceRequest get_namespace)].

(** ** The application *)

Fixpoint put_all (l : list H256) (owner : Address) : G unit :=
  match l with
  | [] => mret tt
  | ns :: l => _ ← map_put RegisteredNameSpaces ns owner; put_all l owner
  end.
Definition registry_genesis : G (result anyhow unit) :=
  _ ← put_all restricted_namespaces ADMIN;
  mret (Ok tt).
(** [RuntimeApplication::call] *)
Definition registry_handle (service method : Z) (arg : bytes) : G (result anyhow CallResponse) :=
  let router := register_service xxh3_64 (lit "service.Registry") registry_service ∅ in
  response ← router_handle xxh3_64 router service method arg;
  mret (Ok response).

Definition registry_call (service method : Z) (arg : bytes) : G unit := app_call registry_handle service method arg.
Definition registry_query (service method : Z) (arg : bytes) : G bytes := app_query registry_handle service method arg.

(** ** Names *)

(** The node and the registry agree on names: whenever the node derives an
    organisation from a package name, the registry derives the same namespace
    from it. *)
Theorem decode_namespace_agrees s p :
  PackageName_parse s = Ok p -> decode_namespace s = Ok (organisation_id p).
Proof.
  unfold PackageName_parse, decode_namespace, parts, namespace_parts. intros E.
  apply bind_ok in E as (ps & E & Ep). injection Ep as <-. cbn [organisation_id].
  destruct (MAX_PACKAGE_NAME_LEN <? _); [discriminate|]. cbv zeta in *.
  destruct ((length (split 46 s) <? 3)%nat || _) eqn:El; [discriminate|].
  apply orb_false_iff in El as [E3 E8]. apply Nat.ltb_ge in E3.
  rewrite E8, (proj2 (Nat.ltb_ge _ 2)) by lia. cbn [orb]. rewrite E. reflexivity.
Qed.

End Registry.

(** ** Authority *)

Section Authority.
Context `{CryptoLaws} `{Bincode} `{RegistryLaws}.
Variable from_sec1_bytes : bytes -> option VerifyingKey.
Abbreviation run_host := (run_guest (host from_sec1_bytes)).
Abbreviation ns_path ns := (path keccak256 (storage_key RegisteredNameSpaces ns)).

(** The owner recorded for a namespace. *)
Definition owner_of (m : gmap bytes bytes) (ns : H256) : result anyhow (option Address) :=
  map_lookup RegisteredNameSpaces m ns.

(** The write of a call: [owner] for [ns], by the owner of [ns], or by the
    administrator when it has none. *)
Definition authorised (origin : Address) (m : gmap bytes bytes) (ns : H256) : Prop :=
  owner_of m ns = Ok (Some origin) \/ (origin = ADMIN /\ forall a, owner_of m ns <> Ok (Some a)).
Definition wrote (msg : Namespace) (t : tree) (m : gmap bytes bytes) (e e' : ExecutionEnvironment) : Prop :=
  exists ns owner smt', ns_namespace msg = Some ns /\ ns_owner msg = Some owner /\
    authorised (env_sender e) m ns /\ e' = set_env_storage smt' e /\
    represents keccak256 smt' (tupdate keccak256 (storage_key RegisteredNameSpaces ns) (enc_Address owner) t)
      (<[ns_path ns := enc_Address owner]> m).
Definition can_write (msg : Namespace) (t : tree) (m : gmap bytes bytes) : Prop :=
  forall ns owner, ns_namespace msg = Some ns -> ns_owner msg = Some owner ->
    writable t m (storage_key RegisteredNameSpaces ns) (enc_Address owner).

Lemma run_origin e o i e' : run_host call_origin e = (Ok o, i, e') -> o = env_sender e /\ e' = e.
Proof.
  unfold call_origin, ask_bytes. intros E. apply run_bind_inv in E as (b & j & e1 & E1 & E).
  apply run_bind_inv in E1 as (x & j' & e2 & E2 & E1). cbn in E2. injection E2 as <- _ <-.
  cbn in E1. injection E1 as <- _ <-. apply run_unwrap_ok in E as [E ->]. split; auto.
  unfold Address_from_slice, fixed_bytes in E. case_decide; congruence.
Qed.
Lemma run_get_inv ns e t m r i e' :
  represents keccak256 (env_storage e) t m -> run_host (map_get RegisteredNameSpaces ns) e = (Ok r, i, e') ->
  r = owner_of m ns /\ e' = e.
Proof.
  intros R. rewrite (run_map_get _ _ ns e t m R). fold (owner_of m ns).
  destruct (owner_of m ns); intros E; try discriminate; injection E as <- _ <-; auto.
Qed.
Lemma run_put_inv msg ns owner e t m x i e' :
  represents keccak256 (env_storage e) t m -> can_write msg t m ->
  ns_namespace msg = Some ns -> ns_owner msg = Some owner -> authorised (env_sender e) m ns ->
  run_host (map_put RegisteredNameSpaces ns owner) e = (Ok x, i, e') -> wrote msg t m e e'.
Proof.
  intros R C En Eo A E.
  destruct (run_map_put from_sec1_bytes RegisteredNameSpaces ns owner e t m R (enc_Address_nonempty owner)
              (C _ _ En Eo)) as (smt' & E' & R').
  rewrite E' in E. injection E as _ _ <-. exists ns, owner, smt'. auto.
Qed.

Lemma run_register msg e t m r i e' :
  represents keccak256 (env_storage e) t m -> can_write msg t m ->
  run_host (register msg) e = (Ok r, i, e') -> e' = e \/ wrote msg t m e e'.
Proof.
  intros R C E. unfold register in E. apply run_bind_inv in E as (o & j & e1 & E1 & E).
  apply run_origin in E1 as [-> ->]. case_bool_decide as Ha; cbn [negb] in E; [|injection E as _ _ <-; auto].
  destruct (ns_namespace msg) as [ns|] eqn:En; [|injection E as _ _ <-; auto].
  destruct (ns_owner msg) as [owner|] eqn:Eo; [|injection E as _ _ <-; auto].
  apply run_bind_inv in E as (c & j1 & e1 & E1 & E). unfold map_contains in E1.
  apply run_bind_inv in E1 as (q & j2 & e2 & E2 & E1). apply (run_get_inv _ _ t m) in E2 as [-> ->]; auto.
  cbn in E1. injection E1 as <- _ <-.
  assert (match owner_of m ns with Ok (Some _) => True | _ => authorised (env_sender e) m ns end) as A.
  { unfold authorised. destruct (owner_of m ns) as [[a|]| |]; auto; right; split; auto; discriminate. }
  right. destruct (owner_of m ns) as [[a|]| |]; try discriminate;
    apply run_bind_inv in E as (u & j3 & e3 & E3 & E); injection E as _ _ <-;
    eapply run_put_inv; eauto.
Qed.

Lemma run_set_owner msg e t m r i e' :
  represents keccak256 (env_storage e) t m -> can_write msg t m ->
  run_host (set_owner msg) e = (Ok r, i, e') -> e' = e \/ wrote msg t m e e'.
Proof.
  intros R C E. unfold set_owner in E.
  destruct (ns_owner msg) as [owner|] eqn:Eo; [|injection E as _ _ <-; auto].
  destruct (ns_namespace msg) as [ns|] eqn:En; [|injection E as _ _ <-; auto].
  apply run_bind_inv in E as (q & j & e1 & E1 & E). apply (run_get_inv _ _ t m) in E1 as [-> ->]; auto.
  destruct (owner_of m ns) as [[a|]| |] eqn:Eq; try discriminate; try (injection E as _ _ <-; auto; fail).
  apply run_bind_inv in E as (o & j1 & e1 & E1 & E). apply run_origin in E1 as [-> ->].
  case_bool_decide as Ha; cbn [negb] in E; [|injection E as _ _ <-; auto]. subst a.
  apply run_bind_inv in E as (u & j3 & e3 & E3 & E). injection E as _ _ <-. right.
  eapply run_put_inv; eauto. now left.
Qed.

Lemma run_get_owner ns e t m r i e' :
  represents keccak256 (env_storage e) t m -> run_host (get_owner ns) e = (Ok r, i, e') -> e' = e.
Proof.
  intros R E. unfold get_owner in E. apply run_bind_inv in E as (q & j & e1 & E1 & E).
  apply (run_get_inv _ _ t m) in E1 as [-> ->]; auto. now injection E as _ _ <-.
Qed.
Lemma run_get_namespace s e t m r i e' :
  represents keccak256 (env_storage e) t m -> run_host (get_namespace s) e = (Ok r, i, e') -> e' = e.
Proof.
  intros R E. unfold get_namespace in E. apply run_bind_inv in E as (d & j & e1 & E1 & E).
  assert (e1 = e) as -> by (destruct (decode_namespace s); cbn in E1; congruence).
  destruct d as [ns| |]; [|now injection E as _ _ <-..].
  apply run_bind_inv in E as (q & j1 & e2 & E2 & E).
  apply (run_get_inv _ _ t m) in E2 as [-> ->]; auto. now injection E as _ _ <-.
Qed.

(** A service runs one of its methods, or none. *)
Lemma run_service_inv methods method payload e r i e' :
  run_host (service_call xxh3_64 methods method payload) e = (Ok r, i, e') ->
  e' = e \/ exists name handler r' i', In (name, handler) methods /\ run_host (handler payload) e = (Ok r', i', e').
Proof.
  induction methods as [|[name handler] methods IH]; cbn [service_call]; intros E.
  - injection E as _ _ <-. auto.
  - destruct (_ =? method).
    + apply run_bind_inv in E as (r' & j & e1 & E1 & E). injection E as _ _ <-. right.
      exists name, handler, r', j. split; [now left | auto].
    + destruct (IH E) as [|(n & h & r' & j & Hin & Hr)]; [auto|]. right. exists n, h, r', j. split; [now right | auto].
Qed.

Lemma run_unary_inv {M} (dec : bytes -> result anyhow M) handler payload e r i e' :
  run_host (unary dec handler payload) e = (Ok r, i, e') ->
  exists msg, dec payload = Ok msg /\ run_host (handler msg) e = (Ok r, i, e').
Proof.
  intros E. apply run_bind_inv in E as (msg & j & e1 & E1 & E). apply run_unwrap_ok in E1 as [E1 ->]. eauto.
Qed.

(** A call leaves the storage alone, or makes one authorised write. *)
Lemma run_registry_call service method arg e t m r i e' :
  represents keccak256 (env_storage e) t m ->
  (forall msg, dec_Namespace arg = Ok msg -> can_write msg t m) ->
  run_host (registry_call service method arg) e = (Ok r, i, e') ->
  env_storage e' = env_storage e \/
  exists msg e1, dec_Namespace arg = Ok msg /\ wrote msg t m e e1 /\ env_storage e' = env_storage e1.
Proof.
  intros R C E. unfold registry_call, app_call in E. apply run_bind_inv in E as (q & j & e1 & E1 & E).
  apply run_bind_inv in E as (resp & j1 & e2 & E2 & E). apply run_unwrap_ok in E2 as [-> ->].
  assert (env_storage e' = env_storage e1) as Ee.
  { unfold emit_raw_event, ask_unit in E. apply run_bind_inv in E as (x & j2 & e2 & E2 & E).
    cbn in E2. injection E2 as _ _ <-. cbn in E. now injection E as _ _ <-. }
  unfold registry_handle in E1. apply run_bind_inv in E1 as (resp' & j2 & e2 & E2 & E1).
  injection E1 as _ _ <-. unfold router_handle in E2. apply run_bind_inv in E2 as (ms & j3 & e3 & E3 & E2).
  apply run_unwrap_ok in E3 as [E3 ->].
  assert (ms = registry_service) as ->.
  { unfold unwrap, register_service in E3.
    destruct (decide (service = xxh3_64 (utf8 (lit "service.Registry")))) as [Es|Es].
    - rewrite Es, lookup_insert_eq in E3. congruence.
    - rewrite lookup_insert_ne, lookup_empty in E3 by auto. discriminate. }
  apply run_service_inv in E2 as [->|(name & h & r' & j4 & Hin & Hr)]; [auto|].
  destruct Hin as [[= <- <-]|[[= <- <-]|[[= <- <-]|[[= <- <-]|[]]]]]; apply run_unary_inv in Hr as (msg & Ed & Hr).
  - apply (run_register _ _ t m) in Hr as [->|Hw]; eauto 10.
  - apply (run_get_owner _ _ t m) in Hr as ->; auto.
  - apply (run_set_owner _ _ t m) in Hr as [->|Hw]; eauto 10.
  - apply (run_get_namespace _ _ t m) in Hr as ->; auto.
Qed.

(** C12 Only the owner of a namespace gives it away, and only the administrator
    hands out one that has no owner: whatever a transaction calls in the
    registry, a namespace keeps its owner, or the sender was its owner, or it
    had none and the sender is the administrator; then it has an owner. *)
Theorem registry_authority service method arg e t m r i e' ns :
  represents keccak256 (env_storage e) t m ->
  (forall msg, dec_Namespace arg = Ok msg -> can_write msg t m) ->
  (forall msg n, dec_Namespace arg = Ok msg -> ns_namespace msg = Some n -> ns_path n = ns_path ns -> n = ns) ->
  run_host (registry_call service method arg) e = (Ok r, i, e') ->
  owner_of (values (env_storage e')) ns = owner_of m ns \/
  (authorised (env_sender e) m ns /\ exists o, owner_of (values (env_storage e')) ns = Ok (Some o)).
Proof.
  intros R C P E. destruct (run_registry_call _ _ _ _ t m _ _ _ R C E) as [->|(msg & e1 & Ed & Hw & ->)].
  - left. now rewrite (rep_values _ _ _ _ R).
  - destruct Hw as (n & o & smt' & En & Eo & Ha & -> & R'). cbn [env_storage set_env_storage].
    rewrite (rep_values _ _ _ _ R'). unfold owner_of, map_lookup.
    destruct (decide (ns_path n = ns_path ns)) as [Hp|Hp].
    + rewrite (P msg n Ed En Hp) in *. right. split; auto. exists o.
      rewrite lookup_insert_eq. cbn [dec_val RegisteredNameSpaces].
      now rewrite dec_enc_Address by (eapply dec_Namespace_owner; eauto).
    + left. now rewrite lookup_insert_ne.
Qed.

(** The writes of the genesis of the registry. *)
Definition genesis_writes : list (bytes * bytes) :=
  (fun ns => (storage_key RegisteredNameSpaces ns, enc_Address ADMIN)) <$> restricted_namespaces.

Lemma run_put_all l owner U e t m :
  represents keccak256 (env_storage e) t m -> collision_free keccak256 U ->
  incl (history_from keccak256 t ((fun ns => (storage_key RegisteredNameSpaces ns, enc_Address owner)) <$> l)) U ->
  (forall q v, m !! q = Some v -> In v U) ->
  exists smt' t', run_host (put_all l owner) e = (Ok tt, Some tt, set_env_storage smt' e) /\
    represents keccak256 smt' t' (fold_left (fun m ns => <[ns_path ns := enc_Address owner]> m) l m).
Proof.
  revert e t m. induction l as [|ns l IH]; intros e t m R HU HI Hm.
  - exists (env_storage e), t. split; [|exact R]. now destruct e.
  - cbn [fmap list_fmap] in HI. pose proof (history_cons keccak256 t (storage_key RegisteredNameSpaces ns)
      (enc_Address owner) ((fun ns => (storage_key RegisteredNameSpaces ns, enc_Address owner)) <$> l)) as HC.
    rewrite bool_decide_eq_false_2 in HC by apply enc_Address_nonempty.
    assert (In (enc_Address owner) U) as Hv by (apply HI, HC; right; now left).
    assert (incl (history_from keccak256 (tupdate keccak256 (storage_key RegisteredNameSpaces ns)
      (enc_Address owner) t) ((fun ns => (storage_key RegisteredNameSpaces ns, enc_Address owner)) <$> l)) U) as HI'.
    { intros x Hx. apply HI, HC. right. now right. }
    destruct (run_map_put from_sec1_bytes RegisteredNameSpaces ns owner e t m R (enc_Address_nonempty owner))
      as (smt1 & E1 & R1).
    { split; [|intros v' Hv' Hk; apply HU; eauto]. apply (collision_free_sub keccak256 U); auto. apply incl_app.
      - eapply incl_tran; [apply history_root | exact HI].
      - eapply incl_tran; [apply history_root | exact HI']. }
    destruct (IH (set_env_storage smt1 e) _ _ R1 HU HI') as (smt2 & t2 & E2 & R2).
    { intros q v. destruct (decide (q = ns_path ns)) as [->|].
      - rewrite lookup_insert_eq. intros [= <-]. exact Hv.
      - rewrite lookup_insert_ne by auto. apply Hm. }
    exists smt2, t2. split; [|exact R2]. cbn [put_all]. rewrite (run_bind_ok _ _ _ _ _ _ _ E1). exact E2.
Qed.

Lemma fold_put_lookup (l : list H256) (x : bytes) (m : gmap bytes bytes) ns :
  In ns l -> fold_left (fun m ns => <[ns_path ns := x]> m) l m !! ns_path ns = Some x.
Proof.
  assert (forall (l : list H256) (m : gmap bytes bytes) q, m !! q = Some x -> fold_left (fun m ns => <[ns_path ns := x]> m) l m !! q = Some x) as K.
  { induction l0 as [|n l0 IH]; intros m0 q Hq; auto. apply IH. destruct (decide (q = ns_path n)) as [->|];
      [apply lookup_insert_eq | now rewrite lookup_insert_ne]. }
  revert m. induction l as [|n l IH]; intros m; [intros []|]. cbn [fold_left]. intros [->|Hin]; auto.
  apply K, lookup_insert_eq.
Qed.

(** The genesis of the registry succeeds and leaves every restricted
    namespace with the administrator. *)
Theorem genesis_restricts e :
  env_storage e = smt_new -> collision_free keccak256 (history keccak256 genesis_writes) ->
  exists e', run_host (app_genesis registry_genesis) e = (Ok tt, Some tt, e') /\
    forall ns, In ns restricted_namespaces -> owner_of (values (env_storage e')) ns = Ok (Some ADMIN).
Proof.
  intros E0 HU. pose proof (represents_new keccak256) as R. rewrite <- E0 in R.
  destruct (run_put_all restricted_namespaces ADMIN _ e TEmpty ∅ R HU (incl_refl _)) as (smt' & t' & E & R').
  { intros q v. now rewrite lookup_empty. }
  exists (set_env_storage smt' e). split.
  - unfold app_genesis, registry_genesis. rewrite (run_bind_ok _ _ _ _ (Ok tt) (Some tt) (set_env_storage smt' e)).
    + reflexivity.
    + now rewrite (run_bind_ok _ _ _ _ _ _ _ E).
  - intros ns Hns. cbn [env_storage set_env_storage]. rewrite (rep_values _ _ _ _ R').
    unfold owner_of, map_lookup. rewrite fold_put_lookup by auto. cbn [dec_val RegisteredNameSpaces].
    now rewrite dec_enc_Address.
Qed.

(** A transaction that calls [Register] runs [register] and emits its answer. *)
Lemma run_register_call arg e msg :
  dec_Namespace arg = Ok msg ->
  run_host (registry_call (xxh3_64 (utf8 (lit "service.Registry")))
              (xxh3_64 (utf8 (lit "/service.Registry/Register"))) arg) e =
  match run_host (register msg) e with
  | (Ok r, _, e1) =>
    let response := match r with Ok response => response | _ => CallResponse_default end in
    run_host (emit_raw_event (type_descriptor response) (response_data response)) e1
  | (Err x, i, e1) => (Err x, i, e1)
  | (Panic, i, e1) => (Panic, i, e1)
  end.
Proof.
  intros Ed. unfold registry_call, app_call, registry_handle, router_handle, register_service.
  rewrite run_bind, run_bind, run_bind, lookup_insert_eq. cbn [unwrap guest_unwrap]. unfold mret at 1.
  cbn [G_ret run_guest registry_service service_call]. rewrite Z.eqb_refl, run_bind. unfold unary.
  rewrite run_bind, Ed. cbn [guest_unwrap]. unfold mret at 1. cbn [G_ret run_guest].
  destruct (run_host (register msg) e) as [[[r|x|] i] e1]; reflexivity.
Qed.

(** What the registry answers to a registration by the administrator, which
    the node makes for every new application: a namespace without an owner is
    handed out, one that has an owner, be it the same, traps the call. *)
Theorem register_decides arg e t m msg ns owner :
  dec_Namespace arg = Ok msg -> ns_namespace msg = Some ns -> ns_owner msg = Some owner ->
  env_sender e = ADMIN -> represents keccak256 (env_storage e) t m -> can_write msg t m ->
  let call := registry_call (xxh3_64 (utf8 (lit "service.Registry")))
                (xxh3_64 (utf8 (lit "/service.Registry/Register"))) arg in
  match owner_of m ns with
  | Ok (Some _) => run_host call e = (Err "namespace already registered"%string, Some tt, e)
  | Ok None => exists e', run_host call e = (Ok tt, Some tt, e') /\
                 owner_of (values (env_storage e')) ns = Ok (Some owner)
  | _ => True
  end.
Proof.
  intros Ed En Eo Es R C call. subst call. rewrite (run_register_call _ _ msg Ed).
  assert (run_host call_origin e = (Ok ADMIN, Some tt, e)) as Or.
  { unfold call_origin, ask_bytes. rewrite !run_bind. cbn [ask run_guest host].
    cbv [mbind stM_bind gets mret stM_ret]. now rewrite Es. }
  unfold register. rewrite (run_bind_ok _ _ _ _ _ _ _ Or), bool_decide_eq_true_2, En, Eo by auto. cbn [negb].
  assert (forall b, owner_of m ns = Ok b -> run_host (map_contains RegisteredNameSpaces ns) e
            = (Ok (bool_decide (is_Some b)), Some tt, e)) as Co.
  { intros b Eb. unfold map_contains. rewrite run_bind, (run_map_get _ _ ns e t m R). fold (owner_of m ns).
    rewrite Eb. destruct b; reflexivity. }
  destruct (owner_of m ns) as [[a|]| |] eqn:Ew; auto; rewrite (run_bind_ok _ _ _ _ _ _ _ (Co _ eq_refl)); [reflexivity|].
  destruct (run_map_put from_sec1_bytes RegisteredNameSpaces ns owner e t m R (enc_Address_nonempty owner)
              (C _ _ En Eo)) as (smt' & E' & R').
  rewrite bool_decide_eq_false_2, (run_bind_ok _ _ _ _ _ _ _ E') by (intros [? ?]; discriminate).
  eexists. split; [reflexivity|].
  cbn [env_storage set_env_storage set_env_events]. rewrite (rep_values _ _ _ _ R').
  unfold owner_of, map_lookup. rewrite lookup_insert_eq. cbn [dec_val enc_val RegisteredNameSpaces].
  now rewrite dec_enc_Address by (eapply dec_Namespace_owner; eauto).
Qed.

End Authority.
