(* ===== verification/RegistryExamples.v ===== *)
(** * The registry at work

    Concrete encodings and hashes, the genesis of the registry and a few calls,
    for the theorems of Framework and Registry. *)
From S2P Require Import Prelude Crypto Types Consensus Smt Codec SmtTree SmtProofs SmtTheorems TreeDb State StateProofs Runtime Framework Registry RuntimeExamples.

(** A namespace and its owner, in 32 and 44 bytes. *)
#[local] Instance toy_messages : RegistryMessages := {|
  blake2b := toy_hash 17 8;
  xxh3_64 b := from_be (toy_hash 19 2 b);
  enc_H256 h := h;
  dec_H256 b := Ok b;
  enc_Address a := 10 :: a;
  dec_Address b := match b with [] => Err "no address"%string | _ :: a => Address_from_slice a end;
  enc_Namespace n := default [] (ns_namespace n) ++ default [] (ns_owner n);
  dec_Namespace b :=
    if decide (length b = 76%nat) then Ok {| ns_namespace := Some (take 32 b); ns_owner := Some (drop 32 b) |}
    else Err "bad message"%string;
  enc_NameSpaceRegistered n := default [] (ns_namespace n);
  enc_OwnerChanged n new prev := n ++ new ++ prev;
  dec_GetNamespaceRequest b := Ok b;
|}.
#[local] Instance toy_messages_laws : RegistryLaws.
Proof.
  split.
  - discriminate.
  - intros a Ha. cbn. unfold Address_from_slice. now apply fixed_bytes_ok.
  - intros b n a. cbn. case_decide as E; [|discriminate]. intros [= <-] [= <-].
    rewrite length_drop, E. reflexivity.
Qed.

Definition registry_env (sender : Address) (t : SparseMerkleTree) : ExecutionEnvironment := {|
  env_network := Testnet; env_sender := sender; env_app := app_addr; env_value := 0; env_storage := t;
  env_state_db := demo_state; env_blockchain := no_chain; env_accounts := ∅; env_events := [];
  env_entropy := fun _ => H256_zero; env_draws := 0 |}.

Lemma decode_namespace_agrees_witness :
  decode_namespace (lit "com.example.app") = Ok (hash_parts [lit "com"; lit "example"]).
Proof.
  refine (eq_trans (decode_namespace_agrees (lit "com.example.app") _
    (ok_default_eq {| organisation_id := []; package_id := [] |} _ _)) _); vm_compute; reflexivity.
Defined.

Lemma genesis_no_collision : collision_free keccak256 (history keccak256 genesis_writes).
Proof. apply collision_freeb_ok. vm_compute. reflexivity. Qed.
Lemma genesis_restricts_witness :
  exists e', run_guest (host no_point) (app_genesis registry_genesis) (registry_env ADMIN smt_new)
             = (Ok tt, Some tt, e') /\
    forall ns, In ns restricted_namespaces -> owner_of (values (env_storage e')) ns = Ok (Some ADMIN).
Proof. exact (genesis_restricts no_point (registry_env ADMIN smt_new) eq_refl genesis_no_collision). Defined.

(** A first registration in an empty registry. *)
Definition example_ns : H256 := hash_parts [lit "com"; lit "example"].
Definition example_msg : Namespace := {| ns_namespace := Some example_ns; ns_owner := Some (demo_dst 5) |}.
Definition example_arg : bytes := enc_Namespace example_msg.
Definition service_id : Z := xxh3_64 (utf8 (lit "service.Registry")).
Definition register_id : Z := xxh3_64 (utf8 (lit "/service.Registry/Register")).
Definition admin_env : ExecutionEnvironment := registry_env ADMIN smt_new.

Lemma example_decodes : dec_Namespace example_arg = Ok example_msg.
Proof. vm_compute. reflexivity. Qed.
Lemma example_represents : represents keccak256 (env_storage admin_env) TEmpty ∅.
Proof. exact (represents_new keccak256). Qed.
Lemma example_writable : writable TEmpty ∅ (storage_key RegisteredNameSpaces example_ns) (enc_Address (demo_dst 5)).
Proof. split; [apply collision_freeb_ok; vm_compute; reflexivity|]. intros v'. now rewrite lookup_empty. Qed.
Lemma example_can_write msg : dec_Namespace example_arg = Ok msg -> can_write msg TEmpty ∅.
Proof.
  rewrite example_decodes. intros [= <-] ns owner [= <-] [= <-]. exact example_writable.
Qed.

Lemma register_decides_witness :
  exists e', run_guest (host no_point) (registry_call service_id register_id example_arg) admin_env
             = (Ok tt, Some tt, e') /\
    owner_of (values (env_storage e')) example_ns = Ok (Some (demo_dst 5)).
Proof.
  exact (register_decides no_point example_arg admin_env TEmpty ∅ example_msg example_ns (demo_dst 5)
           example_decodes eq_refl eq_refl eq_refl example_represents (example_can_write _ example_decodes)).
Defined.

Definition register_run := run_guest (host no_point) (registry_call service_id register_id example_arg) admin_env.
Lemma registry_authority_witness :
  owner_of (values (env_storage register_run.2)) example_ns = owner_of ∅ example_ns \/
  (authorised ADMIN ∅ example_ns /\
   exists o, owner_of (values (env_storage register_run.2)) example_ns = Ok (Some o)).
Proof.
  assert (register_run.1.1 = Ok tt) as Er by (vm_compute; reflexivity).
  apply (registry_authority no_point service_id register_id example_arg admin_env TEmpty ∅ tt
           register_run.1.2 register_run.2 example_ns example_represents example_can_write).
  - intros msg n. rewrite example_decodes. intros [= <-] [= <-] _. reflexivity.
  - rewrite <- Er. fold register_run. now destruct register_run as [[? ?] ?].
Defined.

Lemma map_put_get_witness :
  exists smt', run_guest (host no_point) (map_put RegisteredNameSpaces example_ns (demo_dst 5)) admin_env
               = (Ok tt, Some tt, set_env_storage smt' admin_env) /\
    run_guest (host no_point) (map_get RegisteredNameSpaces example_ns) (set_env_storage smt' admin_env)
    = (Ok (Ok (Some (demo_dst 5))), Some tt, set_env_storage smt' admin_env).
Proof.
  destruct (map_put_get no_point RegisteredNameSpaces example_ns (demo_dst 5) admin_env TEmpty ∅
              example_represents (enc_Address_nonempty (demo_dst 5)) (dec_enc_Address (demo_dst 5) eq_refl) example_writable) as (smt' & E & Eg & _).
  exists smt'. split; [exact E | exact Eg].
Defined.

Lemma sign_never_returns_witness : is_ok (run_guest (host no_point) (sys_sign (repeat 1 32) [5]) admin_env).1.1 = false.
Proof. exact (sign_never_returns no_point (repeat 1 32) [5] admin_env). Defined.
