(* ===== verification/Rlp.v ===== *)
(** * RLP: the recursive length prefix serialisation

    Sources: src/common/rlp/src/{stream,rlpin,impls,traits,error,lib}.rs and the
    integer and hash implementations of src/common/primitive-types/impls/rlp.

    [RlpStream] is the appendable encoder: a buffer and the stack of the lists
    that are still open, whose prefix is inserted when their last item arrives.
    [Rlp] is the view of the decoder on a byte slice; its two [Cell]s (the
    offset of the last item asked for and the number of items) make reading it
    a state computation.  [Encodable] and [Decodable] are the traits, with an
    instance for every type the crate implements them for.

    A length or a position of a buffer is below [isize::MAX], the largest size
    of an allocation, and a position never exceeds the length it is subtracted
    from (the invariant [open_stream] of RlpProofs), so these are plain [Z].
    What the code casts to a narrower type is wrapped. *)
From S2P Require Import Prelude Uint.

(** [uN::leading_zeros] *)
Definition leading_zeros (w a : Z) : Z := if a =? 0 then w else w - 1 - Z.log2 a.

(** [&l[a..b]], [l[i]], [l[i] = v] and [l.rotate_right(k)] panic out of range. *)
Definition slice {E} (a b : Z) (l : bytes) : result E bytes :=
  if (a <=? b) && (b <=? Z.of_nat (length l)) then Ok (take (Z.to_nat (b - a)) (drop (Z.to_nat a) l)) else Panic.
Definition index {E} (l : bytes) (i : Z) : result E Z := unwrap (l !! Z.to_nat i).
Definition store {E} (l : bytes) (i v : Z) : result E bytes :=
  if (0 <=? i) && (i <? Z.of_nat (length l)) then Ok (<[Z.to_nat i := v]> l) else Panic.
Definition rotate_right {E} (l : bytes) (k : Z) : result E bytes :=
  if k <=? Z.of_nat (length l)
  then Ok (drop (length l - Z.to_nat k) l ++ take (length l - Z.to_nat k) l) else Panic.

(** ** The encoder (stream.rs) *)

Record ListInfo := mkListInfo { position : Z; current : Z; max : option Z }.
Definition ListInfo_new (position : Z) (max : option Z) : ListInfo := mkListInfo position 0 max.

(** The back of the [Vec] of unfinished lists is the head of the list. *)
Record RlpStream := mkRlpStream {
  unfinished_lists : list ListInfo;
  start_pos : Z;
  buffer : bytes;
  finished_list : bool;
}.
(** Encoding has no error; it can only panic. *)
Abbreviation stream A := (stM RlpStream Empty_set A).

Definition set_buffer (b : bytes) (s : RlpStream) : RlpStream :=
  mkRlpStream (unfinished_lists s) (start_pos s) b (finished_list s).
Definition set_lists (l : list ListInfo) (s : RlpStream) : RlpStream :=
  mkRlpStream l (start_pos s) (buffer s) (finished_list s).
Definition set_finished (b : bool) (s : RlpStream) : RlpStream :=
  mkRlpStream (unfinished_lists s) (start_pos s) (buffer s) b.
(** [BufMut::put_u8] and [extend] *)
Definition extend (b : bytes) (s : RlpStream) : RlpStream := set_buffer (buffer s ++ b) s.

Definition total_written (s : RlpStream) : Z := Z.of_nat (length (buffer s)) - start_pos s.

Definition insert_size (size pos : Z) : stream Z := fun s =>
  let size := u32 size in
  let leading_empty_bytes := leading_zeros 32 size / 8 in
  let size_bytes := u8 (4 - leading_empty_bytes) in
  if pos <=? total_written s then
    let b := buffer s ++ drop (Z.to_nat leading_empty_bytes) (to_be 4 size) in
    let from := start_pos s + pos in
    (tail ← lift (rotate_right (drop (Z.to_nat from) b) size_bytes);
     _ ← modify (set_buffer (take (Z.to_nat from) b ++ tail));
     mret size_bytes) s
  else (Panic, s).

(** [self.buffer[self.start_pos + pos - 1] = v] *)
Definition write_prefix (pos v : Z) : stream unit := fun s =>
  (b ← lift (store (buffer s) (start_pos s + pos - 1) v); modify (set_buffer b)) s.
Definition insert_list_payload (len pos : Z) : stream unit :=
  if len <=? 55 then write_prefix pos (u8 (0xc0 + u8 len))
  else inserted_bytes ← insert_size len pos; write_prefix pos (u8 (0xf7 + inserted_bytes)).

(** [encode_iter]: an iterator that does not know its length is collected
    first, so both branches encode the bytes it yields. *)
Definition encode_iter (value : bytes) : stream unit :=
  match value with
  | [] => modify (extend [0x80])
  | first :: rest =>
      let len := Z.of_nat (length value) in
      if len <=? 55 then
        if (len =? 1) && (first <? 0x80) then modify (extend [first])
        else
          _ ← modify (extend [u8 (0x80 + u8 len)]);
          _ ← modify (extend [first]);
          modify (extend rest)
      else
        _ ← modify (extend [0]);
        position ← gets total_written;
        inserted_bytes ← insert_size len position;
        _ ← write_prefix position (u8 (0xb7 + inserted_bytes));
        modify (extend value)
  end.
Definition encode_value (value : bytes) : stream unit := encode_iter value.

(** [note_appended]: the list on top of the stack gets [inserted_items]; a
    list that is full is closed, which is one more item of the list below. *)
Fixpoint note_lists (lists : list ListInfo) (inserted_items : Z) : stream unit :=
  match lists with
  | [] => mret tt
  | x :: below =>
      let x := mkListInfo (position x) (usize (current x + inserted_items)) (max x) in
      _ ← modify (set_lists (x :: below));
      match max x with
      | Some m =>
          if m <? current x then lift Panic
          else if current x =? m then
            _ ← modify (set_lists below);
            written ← gets total_written;
            _ ← insert_list_payload (written - position x) (position x);
            _ ← note_lists below 1;
            modify (set_finished true)
          else modify (set_finished false)
      | None => modify (set_finished false)
      end
  end.
Definition note_appended (inserted_items : Z) : stream unit := fun s =>
  note_lists (unfinished_lists s) inserted_items s.

Definition new_with_buffer (b : bytes) : RlpStream := mkRlpStream [] (Z.of_nat (length b)) b false.
Definition RlpStream_new : RlpStream := new_with_buffer [].

Definition begin_list (len : Z) : stream unit :=
  _ ← modify (set_finished false);
  if len =? 0 then
    _ ← modify (extend [0xc0]);
    _ ← note_appended 1;
    modify (set_finished true)
  else
    _ ← modify (extend [0]);
    position ← gets total_written;
    modify (fun s => set_lists (ListInfo_new position (Some len) :: unfinished_lists s) s).

Definition begin_unbounded_list : stream unit :=
  _ ← modify (set_finished false);
  _ ← modify (extend [0]);
  position ← gets total_written;
  modify (fun s => set_lists (ListInfo_new position None :: unfinished_lists s) s).

Definition finalize_unbounded_list : stream unit := fun s =>
  match unfinished_lists s with
  | [] => (Panic, s)
  | x :: below =>
      (_ ← modify (set_lists below);
       if max x then lift Panic
       else
         written ← gets total_written;
         _ ← insert_list_payload (written - position x) (position x);
         _ ← note_appended 1;
         modify (set_finished true)) s
  end.

Definition new_list_with_buffer (b : bytes) (len : Z) : result Empty_set RlpStream :=
  exec (begin_list len) (new_with_buffer b).
Definition new_list (len : Z) : result Empty_set RlpStream := new_list_with_buffer [] len.

Definition append_empty_data : stream unit := _ ← modify (extend [0x80]); note_appended 1.
Definition append_raw (b : bytes) (item_count : Z) : stream unit :=
  _ ← modify (extend b); note_appended item_count.

(** The frame of [append] and [append_iter]: a value that closed a list has
    already been counted. *)
Definition append_with (m : stream unit) : stream unit :=
  _ ← modify (set_finished false);
  _ ← m;
  finished ← gets finished_list;
  if (finished : bool) then mret tt else note_appended 1.
Definition append_iter (value : bytes) : stream unit := append_with (encode_iter value).

(** The sum over the open lists, outermost first in the source. *)
Definition estimate_size (add : Z) (s : RlpStream) : Z :=
  let total_size := total_written s + add in
  fold_right (fun l base_size =>
    let len := total_size - position l in
    if 55 <? len then base_size + (8 - leading_zeros 64 len / 8) else base_size)
    total_size (unfinished_lists s).
Definition append_raw_checked (b : bytes) (item_count max_size : Z) : stream bool := fun s =>
  if max_size <? estimate_size (Z.of_nat (length b)) s then (Ok false, s)
  else (_ ← append_raw b item_count; mret true) s.

Definition clear (s : RlpStream) : RlpStream :=
  set_lists [] (set_buffer (take (Z.to_nat (start_pos s)) (buffer s)) s).
Definition is_finished (s : RlpStream) : bool := match unfinished_lists s with [] => true | _ => false end.
Definition out (s : RlpStream) : result Empty_set bytes := if is_finished s then Ok (buffer s) else Panic.

(** ** The traits (traits.rs, lib.rs) *)

Class Encodable (A : Type) := rlp_append : A -> stream unit.

Definition append `{Encodable A} (a : A) : stream unit := append_with (rlp_append a).
Definition append_list `{Encodable A} (values : list A) : stream unit :=
  _ ← begin_list (Z.of_nat (length values)); for_each values append.
Definition append_internal `{Encodable A} (a : A) : stream unit := rlp_append a.
Definition rlp_bytes_of `{Encodable A} (a : A) : result Empty_set bytes :=
  s ← exec (rlp_append a) RlpStream_new; out s.
Definition encode `{Encodable A} (a : A) : result Empty_set bytes :=
  s ← exec (append a) RlpStream_new; out s.
Definition encode_list `{Encodable A} (values : list A) : result Empty_set bytes :=
  s ← exec (append_list values) RlpStream_new; out s.

(** ** The decoder (error.rs, rlpin.rs) *)

Inductive DecoderError :=
| RlpIsTooBig
| RlpIsTooShort
| RlpExpectedToBeList
| RlpExpectedToBeData
| RlpIncorrectListLen
| RlpDataLenWithZeroPrefix
| RlpListLenWithZeroPrefix
| RlpInvalidIndirection
| RlpInconsistentLengthAndData
| RlpInvalidLength
| Custom (msg : string).

(** [for (i, byte) in bytes.iter().enumerate() { res += byte << (l - 1 - i) * 8 }]
    on [w]-bit integers. *)
Fixpoint be_sum (w res : Z) (b : bytes) : Z :=
  match b with
  | [] => res
  | byte :: rest => be_sum w (wrap w (res + wrap w (Z.shiftl byte (Z.of_nat (length rest) * 8)))) rest
  end.

Definition decode_usize (b : bytes) : result DecoderError Z :=
  if (length b <=? 8)%nat then
    first ← index b 0;
    if first =? 0 then Err RlpInvalidIndirection else Ok (be_sum 64 0 b)
  else Err RlpIsTooBig.

Record PayloadInfo := mkPayloadInfo { header_len : Z; value_len : Z }.
Definition total (p : PayloadInfo) : Z := usize (header_len p + value_len p).

Definition calculate_payload_info (header_bytes : bytes) (len_of_len : Z) : result DecoderError PayloadInfo :=
  let header_len := 1 + len_of_len in
  match header_bytes !! 1%nat with
  | Some 0 => Err RlpDataLenWithZeroPrefix
  | None => Err RlpIsTooShort
  | Some _ =>
      if Z.of_nat (length header_bytes) <? header_len then Err RlpIsTooShort
      else
        len_bytes ← slice 1 header_len header_bytes;
        value_len ← decode_usize len_bytes;
        if value_len <=? 55 then Err RlpInvalidIndirection else Ok (mkPayloadInfo header_len value_len)
  end.

Definition PayloadInfo_from (header_bytes : bytes) : result DecoderError PayloadInfo :=
  l ← ok_or (hd_error header_bytes) RlpIsTooShort;
  if l <=? 0x7f then Ok (mkPayloadInfo 0 1)
  else if l <=? 0xb7 then Ok (mkPayloadInfo 1 (l - 0x80))
  else if l <=? 0xbf then calculate_payload_info header_bytes (l - 0xb7)
  else if l <=? 0xf7 then Ok (mkPayloadInfo 1 (l - 0xc0))
  else calculate_payload_info header_bytes (l - 0xf7).

(** [BasicDecoder::payload_info] *)
Definition payload_info (b : bytes) : result DecoderError PayloadInfo :=
  item ← PayloadInfo_from b;
  let x := header_len item + value_len item in
  if (x <? 2 ^ 64) && (x <=? Z.of_nat (length b)) then Ok item else Err RlpIsTooShort.

Definition decode_value {A} (b : bytes) (f : bytes -> result DecoderError A) : result DecoderError A :=
  l ← ok_or (hd_error b) RlpIsTooShort;
  if l <=? 0x7f then f [l]
  else if l <=? 0xb7 then
    let last_index_of := 1 + l - 0x80 in
    if Z.of_nat (length b) <? last_index_of then Err RlpInconsistentLengthAndData
    else
      d ← slice 1 last_index_of b;
      non_canonical ← (if l =? 0x81 then first ← index d 0; Ok (first <? 0x80) else Ok false);
      if (non_canonical : bool) then Err RlpInvalidIndirection else f d
  else if l <=? 0xbf then
    let begin_of_value := 1 + (l - 0xb7) in
    if Z.of_nat (length b) <? begin_of_value then Err RlpInconsistentLengthAndData
    else
      len_bytes ← slice 1 begin_of_value b;
      len ← decode_usize len_bytes;
      let last_index_of_value := begin_of_value + len in
      if 2 ^ 64 <=? last_index_of_value then Err RlpInvalidLength
      else if Z.of_nat (length b) <? last_index_of_value then Err RlpInconsistentLengthAndData
      else d ← slice begin_of_value last_index_of_value b; f d
  else Err RlpExpectedToBeData.

Record OffsetCache := mkOffsetCache { cache_index : Z; cache_offset : Z }.
Record Rlp := mkRlp { as_raw : bytes; offset_cache : option OffsetCache; count_cache : option Z }.
Definition Rlp_new (b : bytes) : Rlp := mkRlp b None None.
Definition set_offset_cache (c : OffsetCache) (r : Rlp) : Rlp := mkRlp (as_raw r) (Some c) (count_cache r).
Definition set_count_cache (c : Z) (r : Rlp) : Rlp := mkRlp (as_raw r) (offset_cache r) (Some c).

Abbreviation reader A := (stM Rlp DecoderError A).

Definition is_null (r : Rlp) : bool := match as_raw r with [] => true | _ => false end.
Definition is_empty (r : Rlp) : bool :=
  match as_raw r with [] => false | b :: _ => (b =? 0xc0) || (b =? 0x80) end.
Definition is_list (r : Rlp) : bool := match as_raw r with [] => false | b :: _ => 0xc0 <=? b end.
Definition is_data (r : Rlp) : bool := match as_raw r with [] => false | b :: _ => b <? 0xc0 end.
Definition is_int (r : Rlp) : result DecoderError bool :=
  match as_raw r with
  | [] => Ok false
  | b :: _ =>
      if b <=? 0x80 then Ok true
      else if b <=? 0xb7 then x ← index (as_raw r) 1; Ok (negb (x =? 0))
      else if b <=? 0xbf then
        let payload_idx := 1 + b - 0xb7 in
        if payload_idx <? Z.of_nat (length (as_raw r)) then
          x ← index (as_raw r) payload_idx; Ok (negb (x =? 0))
        else Ok false
      else Ok false
  end.

Definition data (r : Rlp) : result DecoderError bytes :=
  pi ← payload_info (as_raw r);
  slice (header_len pi) (header_len pi + value_len pi) (as_raw r).
Definition size (r : Rlp) : result DecoderError Z :=
  if is_data r then
    match payload_info (as_raw r) with Ok pi => Ok (value_len pi) | Err _ => Ok 0 | Panic => Panic end
  else Ok 0.

(** [Rlp::consume], [Rlp::consume_items], [Rlp::consume_list_payload] *)
Definition consume (b : bytes) (len : Z) : result DecoderError bytes :=
  if len <=? Z.of_nat (length b) then Ok (drop (Z.to_nat len) b) else Err RlpIsTooShort.
Fixpoint consume_items (b : bytes) (items : nat) (consumed : Z) : result DecoderError (bytes * Z) :=
  match items with
  | O => Ok (b, consumed)
  | S items =>
      i ← payload_info b;
      let to_consume := header_len i + value_len i in
      b ← consume b to_consume;
      consume_items b items (usize (consumed + to_consume))
  end.
Definition consume_list_payload (b : bytes) : result DecoderError (bytes * Z) :=
  item ← payload_info b;
  if Z.of_nat (length b) <? header_len item + value_len item then Err RlpIsTooShort
  else
    payload ← slice (header_len item) (header_len item + value_len item) b;
    Ok (payload, header_len item).

(** Where the search for an item starts: at the cached item when it is not
    behind the one asked for, else at the start of the list. *)
Definition search_start (r : Rlp) (i : Z) : result DecoderError (bytes * Z * Z) :=
  match offset_cache r with
  | Some c =>
      if cache_index c <=? i then
        b ← consume (as_raw r) (cache_offset c);
        Ok (b, i - cache_index c, cache_offset c)
      else p ← consume_list_payload (as_raw r); Ok (p.1, i, p.2)
  | None => p ← consume_list_payload (as_raw r); Ok (p.1, i, p.2)
  end.

Definition at_with_offset (i : Z) : reader (Rlp * Z) := fun r =>
  if negb (is_list r) then (Err RlpExpectedToBeList, r)
  else
    (start ← lift (search_start r i);
     let '(b, indexes_to_skip, bytes_consumed) := start in
     skipped ← lift (consume_items b (Z.to_nat indexes_to_skip) 0);
     let '(b, consumed) := skipped in
     let offset := usize (bytes_consumed + consumed) in
     _ ← modify (set_offset_cache (mkOffsetCache i offset));
     found ← lift (payload_info b);
     item ← lift (slice 0 (header_len found + value_len found) b);
     mret (Rlp_new item, offset)) r.
(** [Rlp::at] *)
Definition item_at (i : Z) : reader Rlp := p ← at_with_offset i; mret p.1.

(** [RlpIterator::next]: [self.rlp.at(index).ok()]; the caller advances the index. *)
Definition next (i : Z) : reader (option Rlp) := fun r =>
  match item_at i r with
  | (Ok item, r') => (Ok (Some item), r')
  | (Err _, r') => (Ok None, r')
  | (Panic, r') => (Panic, r')
  end.

(** [self.iter().count()].  Every item takes a byte at least, so one step
    more than there are bytes is enough ([count_items_safe] of RlpTheorems). *)
Fixpoint count_items (fuel : nat) (i : Z) : reader Z :=
  match fuel with
  | O => lift Panic
  | S fuel =>
      item ← next i;
      match item with Some _ => count_items fuel (i + 1) | None => mret i end
  end.
Definition item_count : reader Z := fun r =>
  if is_list r then
    match count_cache r with
    | Some c => (Ok c, r)
    | None => (c ← count_items (S (length (as_raw r))) 0; _ ← modify (set_count_cache c); mret c) r
    end
  else (Err RlpExpectedToBeList, r).

Inductive Prototype := Null | Data (size : Z) | List (len : Z).
Definition prototype : reader Prototype := fun r =>
  if is_data r then (n ← lift (size r); mret (Data n)) r
  else if is_list r then (n ← item_count; mret (List n)) r
  else (Ok Null, r).

Class Decodable (A : Type) := rlp_decode : reader A.

(** A view built for one item and dropped after it is read. *)
Definition as_val `{Decodable A} (item : Rlp) : result DecoderError A := fst (rlp_decode item).
(** [self.iter().map(|rlp| rlp.as_val()).collect()] *)
Fixpoint collect_items `{Decodable A} (fuel : nat) (i : Z) : reader (list A) :=
  match fuel with
  | O => lift Panic
  | S fuel =>
      item ← next i;
      match item with
      | None => mret []
      | Some item => a ← lift (as_val item); l ← collect_items fuel (i + 1); mret (a :: l)
      end
  end.
Definition as_list `{Decodable A} : reader (list A) := fun r => collect_items (S (length (as_raw r))) 0 r.
Definition val_at `{Decodable A} (i : Z) : reader A := item ← item_at i; lift (as_val item).
Definition list_at `{Decodable A} (i : Z) : reader (list A) := item ← item_at i; lift (fst (as_list item)).

Definition decode `{Decodable A} (b : bytes) : result DecoderError A := as_val (Rlp_new b).
(** [decode_list]: [expect] on the result *)
Definition decode_list `{Decodable A} (b : bytes) : result DecoderError (list A) :=
  match fst (as_list (Rlp_new b)) with Ok l => Ok l | _ => Panic end.

(** ** The implementations (impls.rs, impls/rlp/src/lib.rs) *)

(** [Vec<u8>], [&[u8]], [Bytes] and [BytesMut] *)
#[export] Instance bytes_Encodable : Encodable bytes := encode_value.
#[export] Instance bytes_Decodable : Decodable bytes := fun r => (decode_value (as_raw r) Ok, r).

(** [u8] *)
Definition u8_append (a : Z) : stream unit := if negb (a =? 0) then encode_iter [a] else encode_iter [].
Definition u8_decode (b : bytes) : result DecoderError Z :=
  decode_value b (fun bytes =>
    match bytes with
    | [x] => if negb (x =? 0) then Ok x else Err RlpInvalidIndirection
    | [] => Ok 0
    | _ => Err RlpIsTooBig
    end).

(** [bool] *)
#[export] Instance bool_Encodable : Encodable bool := fun a => u8_append (if a then 1 else 0).
#[export] Instance bool_Decodable : Decodable bool := fun r =>
  ((as_uint ← u8_decode (as_raw r);
    if as_uint =? 0 then Ok false else if as_uint =? 1 then Ok true
    else Err (Custom "invalid boolean value")), r).

(** [impl_encodable_for_u!] and [impl_decodable_for_u!]: an unsigned integer
    of [n] bytes, for [u16], [u32], [u64], [u128] and ([n] = 8) [usize]. *)
Definition uint_append (n : nat) (a : Z) : stream unit :=
  let leading_empty_bytes := leading_zeros (8 * Z.of_nat n) a / 8 in
  encode_value (drop (Z.to_nat leading_empty_bytes) (to_be n a)).
Definition uint_decode (n : nat) (b : bytes) : result DecoderError Z :=
  decode_value b (fun bytes =>
    if (length bytes <=? 1)%nat then u8_decode b
    else if (length bytes <=? n)%nat then
      first ← index bytes 0;
      if first =? 0 then Err RlpInvalidIndirection else Ok (be_sum (8 * Z.of_nat n) 0 bytes)
    else Err RlpIsTooBig).

(** Integers by their width in bytes. *)
Record unsigned (n : nat) := mk_unsigned { magnitude : Z }.
Arguments mk_unsigned {n}. Arguments magnitude {n}.
#[export] Instance unsigned_Encodable n : Encodable (unsigned n) := fun a =>
  match n with 1%nat => u8_append (magnitude a) | _ => uint_append n (magnitude a) end.
#[export] Instance unsigned_Decodable n : Decodable (unsigned n) := fun r =>
  (mk_unsigned <$> match n with 1%nat => u8_decode (as_raw r) | _ => uint_decode n (as_raw r) end, r).

(** [Option<T>] *)
#[export] Instance option_Encodable `{Encodable A} : Encodable (option A) := fun o =>
  match o with
  | None => begin_list 0
  | Some value => _ ← begin_list 1; append value
  end.
#[export] Instance option_Decodable `{Decodable A} : Decodable (option A) :=
  items ← item_count;
  if items =? 1 then a ← val_at 0; mret (Some a)
  else if items =? 0 then mret None
  else lift (Err RlpIncorrectListLen).

(** [&str] and [String], as the list of their chars.  [str::from_utf8] accepts
    exactly the byte strings its lossy variant leaves unchanged. *)
Record text := mk_text { chars : list Z }.
Definition from_utf8 (b : bytes) : option text :=
  let s := from_utf8_lossy b in if decide (utf8 s = b) then Some (mk_text s) else None.
#[export] Instance text_Encodable : Encodable text := fun t => encode_value (utf8 (chars t)).
#[export] Instance text_Decodable : Decodable text := fun r =>
  (decode_value (as_raw r) (fun b => ok_or (from_utf8 b) RlpExpectedToBeData), r).

(** [impl_uint_rlp!(name, nw)]: a big integer of [nw] limbs. *)
Record limbs (nw : nat) := mk_limbs { words_of : uint }.
Arguments mk_limbs {nw}. Arguments words_of {nw}.
#[export] Instance limbs_Encodable nw : Encodable (limbs nw) := fun a =>
  let leading_empty_bytes := Z.of_nat nw * 8 - (bits (words_of a) + 7) / 8 in
  encode_value (drop (Z.to_nat leading_empty_bytes) (to_big_endian (words_of a))).
#[export] Instance limbs_Decodable nw : Decodable (limbs nw) := fun r =>
  (decode_value (as_raw r) (fun b =>
     match b with
     | 0 :: _ => Err RlpInvalidIndirection
     | _ => if (length b <=? nw * 8)%nat then mk_limbs <$> from_big_endian nw b else Err RlpIsTooBig
     end), r).

(** [impl_fixed_hash_rlp!(name, size)]: a hash of [size] bytes. *)
Record fixed_hash (size : nat) := mk_hash { hash_bytes : bytes }.
Arguments mk_hash {size}. Arguments hash_bytes {size}.
#[export] Instance hash_Encodable size : Encodable (fixed_hash size) := fun h => encode_value (hash_bytes h).
#[export] Instance hash_Decodable size : Decodable (fixed_hash size) := fun r =>
  (decode_value (as_raw r) (fun b =>
     match Nat.compare (length b) size with
     | Lt => Err RlpIsTooShort
     | Gt => Err RlpIsTooBig
     | Eq => Ok (mk_hash b)
     end), r).
