(* ===== verification/RlpProofs.v ===== *)
(** * The streaming RLP encoder implements the recursive encoding

    The specification is the recursive function [rlp] on trees of byte strings.
    The encoder of Rlp.v never sees such a tree: it is told how many items a
    list will have, reserves a byte for its prefix, and rewrites the buffer when
    the last item arrives.  [open_stream] is its invariant, [noted] the pure
    effect of counting one item, and [EncodesAs] the law an [Encodable] type
    promises: it appends the encoding of a tree. *)
From S2P Require Import Prelude Uint UintProofs Rlp.

(** ** The specification *)

Inductive item := RData (b : bytes) | RList (l : list item).

Definition min_bytes (z : Z) : Z := if z =? 0 then 0 else Z.log2 z / 8 + 1.
(** The big-endian digits of an integer, without leading zeros. *)
Definition be (z : Z) : bytes := to_be (Z.to_nat (min_bytes z)) z.
Definition prefix (short long n : Z) : bytes :=
  if n <=? 55 then [short + n] else (long + min_bytes n) :: be n.

Abbreviation len l := (Z.of_nat (length l)).

Definition rlp_string (b : bytes) : bytes :=
  match b with
  | [x] => if x <? 0x80 then [x] else [0x81; x]
  | _ => prefix 0x80 0xb7 (len b) ++ b
  end.
Fixpoint rlp (t : item) : bytes :=
  match t with
  | RData b => rlp_string b
  | RList l => let body := concat (List.map rlp l) in prefix 0xc0 0xf7 (len body) ++ body
  end.
Abbreviation body l := (concat (List.map rlp l)).

(** The encoder keeps the low 32 bits of a length. *)
Definition fits (t : item) : Prop := len (rlp t) < 2 ^ 32.

Section item_ind.
Variable P : item -> Prop.
Hypothesis HData : forall b, P (RData b).
Hypothesis HList : forall l, Forall P l -> P (RList l).
Fixpoint item_ind' (t : item) : P t :=
  match t with
  | RData b => HData b
  | RList l => HList l ((fix go l : Forall P l :=
      match l with [] => Forall_nil_2 P | t :: l => Forall_cons_2 P t l (item_ind' t) (go l) end) l)
  end.
End item_ind.

(** ** Integers without leading zeros *)

Lemma drop_to_be n m z : (m <= n)%nat -> drop (n - m) (to_be n z) = to_be m z.
Proof.
  unfold to_be. induction n as [|n IH]; intros H; [by replace m with O by lia|].
  destruct (decide (m = S n)) as [->|]; [by rewrite Nat.sub_diag|].
  replace (S n - m)%nat with (S (n - m)) by lia. cbn [to_digits drop]. apply IH. lia.
Qed.

Lemma min_bytes_range n z : 0 < n -> is_u (8 * n) z -> 0 <= min_bytes z <= n.
Proof.
  unfold min_bytes, is_u. intros Hn Hz. destruct (Z.eqb_spec z 0); [lia|].
  pose proof (Z.log2_nonneg z). assert (Z.log2 z < 8 * n) by (apply Z.log2_lt_pow2; lia). dlia.
Qed.
Lemma min_bytes_pos z : 0 < z -> 1 <= min_bytes z.
Proof. unfold min_bytes. intros. rewrite (proj2 (Z.eqb_neq z 0)) by lia. pose proof (Z.log2_nonneg z). dlia. Qed.
Lemma leading_empty n z :
  0 < n -> is_u (8 * n) z -> leading_zeros (8 * n) z / 8 = n - min_bytes z.
Proof.
  unfold leading_zeros, min_bytes. intros Hn Hz. destruct (Z.eqb_spec z 0); dlia.
Qed.
Lemma length_be z : 0 <= z -> len (be z) = min_bytes z.
Proof.
  intros H. unfold be. rewrite length_to_be. unfold min_bytes. destruct (Z.eqb_spec z 0); [lia|].
  pose proof (Z.log2_nonneg z). dlia.
Qed.
Lemma strip_be n z :
  0 < n -> is_u (8 * n) z ->
  drop (Z.to_nat (leading_zeros (8 * n) z / 8)) (to_be (Z.to_nat n) z) = be z.
Proof.
  intros Hn Hz. rewrite leading_empty by done. pose proof (min_bytes_range n z Hn Hz).
  replace (Z.to_nat (n - min_bytes z)) with (Z.to_nat n - Z.to_nat (min_bytes z))%nat by lia.
  apply drop_to_be. lia.
Qed.

(** The digits read back to the integer, and the first one is not zero. *)
Lemma min_bytes_bound z : 0 <= z -> is_u (8 * min_bytes z) z.
Proof.
  unfold min_bytes, is_u. intros H. destruct (Z.eqb_spec z 0) as [->|]; [done|]. split; [done|].
  apply Z.log2_lt_pow2; [lia|]. dlia.
Qed.
Lemma from_be_be z : 0 <= z -> from_be (be z) = z.
Proof.
  intros H. unfold be. apply from_to_be_id.
  pose proof (length_be z H) as L. unfold be in L. rewrite length_to_be in L. rewrite L. by apply min_bytes_bound.
Qed.
Lemma be_head z : 0 < z -> exists x l, be z = x :: l /\ 0 < x.
Proof.
  intros H. unfold be, min_bytes. rewrite (proj2 (Z.eqb_neq z 0)) by lia.
  pose proof (Z.log2_nonneg z) as L.
  replace (Z.to_nat (Z.log2 z / 8 + 1)) with (S (Z.to_nat (Z.log2 z / 8))) by dlia.
  unfold to_be. cbn [to_digits]. eexists _, _. split; [reflexivity|].
  set (q := Z.log2 z / 8) in *. assert (0 <= q) by (unfold q; dlia). rewrite Z2Nat.id by lia.
  assert (2 ^ (8 * q) <= z < 2 ^ (8 * q + 8)) as [B1 B2].
  { split; [transitivity (2 ^ Z.log2 z)|].
    - apply Z.pow_le_mono_r; [lia|unfold q; dlia].
    - by apply Z.log2_spec.
    - apply Z.log2_lt_pow2; [lia|]. unfold q. dlia. }
  unfold wrap. rewrite Z.pow_add_r in B2 by lia.
  rewrite Z.mod_small; [apply Z.div_str_pos; lia|].
  split; [apply Z.div_pos; lia|apply Z.div_lt_upper_bound; lia].
Qed.

(** ** Writing a prefix *)

(** What [insert_list_payload] writes in front of a list of [n] bytes. *)
Definition list_prefix (n : Z) : bytes :=
  if n <=? 55 then [0xc0 + n] else (0xf7 + min_bytes (u32 n)) :: be (u32 n).

Lemma list_prefix_eq n : 0 <= n < 2 ^ 32 -> list_prefix n = prefix 0xc0 0xf7 n.
Proof. intros H. unfold list_prefix, prefix. by rewrite wrap_id. Qed.
Lemma list_prefix_pos n : 1 <= len (list_prefix n).
Proof. unfold list_prefix. destruct (n <=? 55); simpl; lia. Qed.

Lemma size_bytes z : is_u 32 z -> u8 (4 - leading_zeros 32 z / 8) = min_bytes z.
Proof.
  intros H. change 32 with (8 * 4) in *. rewrite leading_empty by done.
  pose proof (min_bytes_range 4 z ltac:(lia) H). rewrite wrap_id; unfold is_u; lia.
Qed.

Lemma insert_size_ok s n pos pre post :
  buffer s = pre ++ post -> len pre = start_pos s + pos ->
  insert_size n pos s = (Ok (min_bytes (u32 n)), set_buffer (pre ++ be (u32 n) ++ post) s).
Proof.
  intros E L. unfold insert_size. pose proof (wrap_bound 32 n ltac:(lia)) as B.
  rewrite size_bytes, (strip_be 4) by done. unfold total_written. rewrite E, length_app.
  rewrite (proj2 (Z.leb_le _ _)) by lia. rewrite <- L, Nat2Z.id, <- app_assoc, take_app_length, drop_app_length.
  pose proof (length_be (u32 n) ltac:(unfold is_u in B; lia)) as Lb.
  unfold mbind, stM_bind, lift, rotate_right. rewrite length_app, (proj2 (Z.leb_le _ _)) by lia.
  replace (length post + length (be (u32 n)) - Z.to_nat (min_bytes (u32 n)))%nat with (length post) by lia.
  by rewrite take_app_length, drop_app_length.
Qed.

Lemma write_prefix_ok s pos v pre x post :
  buffer s = pre ++ x :: post -> len pre + 1 = start_pos s + pos ->
  write_prefix pos v s = (Ok tt, set_buffer (pre ++ v :: post) s).
Proof.
  intros E L. unfold write_prefix, mbind, stM_bind, lift, store. rewrite E, length_app. cbn [length].
  rewrite (proj2 (Z.leb_le _ _)), (proj2 (Z.ltb_lt _ _)) by lia. cbn [andb].
  replace (Z.to_nat (start_pos s + pos - 1)) with (length pre + 0)%nat by lia. by rewrite insert_app_r.
Qed.

Lemma insert_list_payload_ok s n pos pre x post :
  0 <= n -> buffer s = pre ++ x :: post -> len pre + 1 = start_pos s + pos ->
  insert_list_payload n pos s = (Ok tt, set_buffer (pre ++ list_prefix n ++ post) s).
Proof.
  intros Hn E L. unfold insert_list_payload, list_prefix. destruct (Z.leb_spec n 55).
  - erewrite write_prefix_ok by done. rewrite !wrap_id by (unfold is_u; rewrite ?wrap_id; unfold is_u; lia). done.
  - assert (is_u 32 (u32 n)) as B by (apply wrap_bound; lia).
    pose proof (min_bytes_range 4 (u32 n) ltac:(lia) B).
    erewrite bind_st_ok by (apply (insert_size_ok _ _ _ (pre ++ [x]) post);
      [by rewrite E, <- app_assoc | rewrite length_app; simpl; lia]).
    erewrite (write_prefix_ok _ _ _ pre x (be (u32 n) ++ post)); [|by cbn; rewrite <- app_assoc|done].
    rewrite wrap_id by (unfold is_u; lia). done.
Qed.

(** ** Appending a byte string *)

Lemma encode_value_ok b s :
  start_pos s <= len (buffer s) -> len b < 2 ^ 32 ->
  encode_value b s = (Ok tt, extend (rlp_string b) s).
Proof.
  intros Hs Hl. unfold encode_value, encode_iter, rlp_string, prefix. destruct b as [|x b]; [done|].
  destruct (Z.leb_spec (len (x :: b)) 55).
  - destruct b as [|y b].
    { change (len [x] =? 1) with true. cbn [andb]. destruct (x <? 0x80); [done|].
      unfold modify, mbind, stM_bind, extend, set_buffer. cbn [buffer]. by rewrite <- !app_assoc. }
    rewrite (proj2 (Z.eqb_neq (len (x :: y :: b)) 1)) by (simpl; lia). cbn [andb].
    rewrite !wrap_id by (unfold is_u; rewrite ?wrap_id; unfold is_u; lia).
    unfold modify, mbind, stM_bind, extend, set_buffer. cbn. by rewrite <- !app_assoc.
  - destruct b as [|y b]; [cbn in *; lia|]. set (v := x :: y :: b) in *.
    assert (is_u 32 (len v)) as B by (unfold is_u; lia). pose proof (min_bytes_range 4 _ ltac:(lia) B).
    do 2 (st_step reflexivity).
    erewrite bind_st_ok by (apply (insert_size_ok _ _ _ (buffer s ++ [0]) []);
      [by rewrite app_nil_r | unfold total_written; cbn; lia]).
    erewrite bind_st_ok by (apply (write_prefix_ok _ _ _ (buffer s) 0 (be (u32 (len v))));
      [cbn; by rewrite <- app_assoc, app_nil_r | unfold total_written; cbn; rewrite length_app; simpl; lia]).
    rewrite (wrap_id 32) by done. rewrite wrap_id by (unfold is_u; lia).
    unfold modify, extend, set_buffer. cbn [buffer unfinished_lists start_pos finished_list].
    by rewrite <- app_assoc.
Qed.

(** ** Counting an item *)

(** The open lists, innermost first, each with its reserved byte inside the
    one below it, and none of them full. *)
Fixpoint open_lists (top : Z) (lists : list ListInfo) : Prop :=
  match lists with
  | [] => True
  | x :: below =>
      1 <= position x <= top /\ 0 <= current x /\
      match max x with Some m => current x < m < 2 ^ 64 | None => True end /\
      open_lists (position x - 1) below
  end.
Definition open_stream (s : RlpStream) : Prop :=
  0 <= start_pos s <= len (buffer s) /\ open_lists (total_written s) (unfinished_lists s).

Lemma open_lists_mono a b l : a <= b -> open_lists a l -> open_lists b l.
Proof. destruct l; simpl; intuition lia. Qed.

(** One more item for the list on top: full lists get their prefix. *)
Definition is_full (x : ListInfo) : bool := bool_decide (max x = Some (current x + 1)).
Fixpoint noted_lists (start : Z) (lists : list ListInfo) (b : bytes) : list ListInfo * bytes :=
  match lists with
  | [] => ([], b)
  | x :: below =>
      if is_full x then
        let i := Z.to_nat (start + position x) in
        noted_lists start below (take (i - 1) b ++ list_prefix (len b - Z.of_nat i) ++ drop i b)
      else (mkListInfo (position x) (usize (current x + 1)) (max x) :: below, b)
  end.
Definition noted (s : RlpStream) : RlpStream :=
  let '(l, b) := noted_lists (start_pos s) (unfinished_lists s) (buffer s) in
  mkRlpStream l (start_pos s) b
    match unfinished_lists s with [] => finished_list s | x :: _ => is_full x end.

Lemma split_reserved (b : bytes) i :
  (1 <= i <= length b)%nat -> exists x, b = take (i - 1) b ++ x :: drop i b /\ length (take (i - 1) b) = (i - 1)%nat.
Proof.
  intros H. destruct (lookup_lt_is_Some_2 b (i - 1)) as [x Hx]; [lia|]. exists x.
  rewrite length_take. split; [|lia]. rewrite <- (take_drop_middle b (i - 1) x Hx) at 1. do 3 f_equal. lia.
Qed.

Lemma note_lists_ok lists s :
  unfinished_lists s = lists -> open_stream s ->
  note_lists lists 1 s = (Ok tt, noted s) /\ open_stream (noted s).
Proof.
  revert s. induction lists as [|x below IH]; intros s E [[S0 S1] O]; rewrite E in O.
  { unfold noted. cbn. destruct s; cbn in *. subst. repeat split; cbn; auto. }
  destruct O as (P & C & M & O). cbn [note_lists]. st_step reflexivity. cbn [max current position].
  unfold noted. rewrite E. cbn [noted_lists]. unfold is_full in *.
  destruct (max x) as [m|] eqn:Em; cbn [max current position].
  - rewrite wrap_id by (unfold is_u; lia). rewrite (proj2 (Z.ltb_ge _ _)) by lia.
    destruct (Z.eqb_spec (current x + 1) m) as [Ec|Ec]; [rewrite bool_decide_true by congruence|rewrite bool_decide_false by congruence].
    + do 2 (st_step reflexivity). set (i := Z.to_nat (start_pos s + position x)).
      assert (Z.of_nat i = start_pos s + position x) as Hi by lia.
      unfold total_written in *. cbn [buffer start_pos set_lists].
      destruct (split_reserved (buffer s) i) as (y & Hy & Ly); [lia|].
      st_step (apply (insert_list_payload_ok _ _ _ (take (i - 1) (buffer s)) y (drop i (buffer s))); [lia|exact Hy|cbn; lia]).
      replace (len (buffer s) - start_pos s - position x) with (len (buffer s) - Z.of_nat i) by lia.
      set (b := _ ++ list_prefix _ ++ _). set (s1 := set_buffer b _).
      pose proof (list_prefix_pos (len (buffer s) - Z.of_nat i)) as Lp.
      destruct (IH s1 eq_refl) as [IHe IHo].
      { unfold open_stream, total_written, s1, b. cbn. rewrite !length_app, Ly.
        split; [lia|]. eapply open_lists_mono; [|exact O]. lia. }
      rewrite (bind_st_ok _ _ _ _ _ IHe).
      unfold noted in IHo |- *. cbn [s1 set_buffer set_lists unfinished_lists start_pos buffer finished_list] in IHo |- *.
      destruct (noted_lists (start_pos s) below b) as [l b']. split; [done|]. exact IHo.
    + split; [done|]. unfold open_stream, total_written in *. cbn. repeat split; auto; lia.
  - rewrite bool_decide_false by done. split; [done|].
    unfold open_stream, total_written in *. cbn. pose proof (wrap_bound 64 (current x + 1) ltac:(lia)) as W.
    unfold is_u in W. repeat split; auto; lia.
Qed.
Lemma note_appended_ok s : open_stream s -> note_appended 1 s = (Ok tt, noted s).
Proof. intros H. by apply note_lists_ok. Qed.
Lemma noted_open s : open_stream s -> open_stream (noted s).
Proof. intros H. by eapply note_lists_ok. Qed.

(** ** Appending a tree *)

(** The effect of [rlp_append] on a value that encodes as [t]: a list has been
    counted when its last item arrived, a string is counted by [append]. *)
Definition effect (t : item) (s : RlpStream) : RlpStream :=
  match t with
  | RData _ => extend (rlp t) s
  | RList _ => set_finished true (noted (extend (rlp t) s))
  end.
Definition appended (t : item) (s : RlpStream) : RlpStream :=
  match t with
  | RData _ => noted (extend (rlp t) (set_finished false s))
  | RList _ => set_finished true (noted (extend (rlp t) s))
  end.

(** What a type promises to the stream: its (valid) values append the encoding of a tree. *)
Definition appends (m : stream unit) (t : item) : Prop :=
  fits t -> forall s, open_stream s -> m s = (Ok tt, effect t s).
Class EncodesAs (A : Type) `{Encodable A} (to_item : A -> item) (valid : A -> Prop) :=
  encodes_as a : valid a -> appends (rlp_append a) (to_item a).

Lemma extend_open b s : open_stream s -> open_stream (extend b s).
Proof.
  unfold open_stream, total_written. cbn. rewrite length_app. intros [? O].
  split; [lia|]. eapply open_lists_mono; [|exact O]. lia.
Qed.
Lemma set_finished_open b s : open_stream s -> open_stream (set_finished b s).
Proof. done. Qed.
#[export] Hint Resolve extend_open set_finished_open noted_open : rlp.

Lemma appended_open t s : open_stream s -> open_stream (appended t s).
Proof. intros H. destruct t; cbn [appended]; auto 6 with rlp. Qed.
#[export] Hint Resolve appended_open : rlp.

Lemma noted_finished b s : set_finished true (noted (set_finished b s)) = set_finished true (noted s).
Proof. unfold noted. cbn. by destruct (noted_lists _ _ _). Qed.

Lemma append_with_ok m t s :
  appends m t -> fits t -> open_stream s -> append_with m s = (Ok tt, appended t s).
Proof.
  intros Hm Ht Hs. unfold append_with. st_step reflexivity.
  st_step (apply Hm; auto with rlp). st_step reflexivity.
  destruct t as [b|l]; cbn [effect appended finished_list extend set_buffer set_finished].
  - apply note_appended_ok. auto with rlp.
  - unfold mret, stM_ret. f_equal. apply (noted_finished false (extend _ s)).
Qed.

(** Inside a list: the stream [s] with the list opened, [k] items counted and
    their bytes [b] written. *)
Definition inside (s : RlpStream) (k : Z) (m : option Z) (b : bytes) (f : bool) : RlpStream :=
  mkRlpStream (mkListInfo (total_written s + 1) k m :: unfinished_lists s) (start_pos s)
    (buffer s ++ [0] ++ b) f.

Lemma inside_open s k m b f :
  open_stream s -> 0 <= k -> match m with Some m => k < m < 2 ^ 64 | None => True end ->
  open_stream (inside s k m b f).
Proof.
  unfold open_stream, inside, total_written. cbn. intros [? O] Hk Hm. rewrite length_app. cbn [length].
  repeat split; auto; try lia. unfold total_written. eapply open_lists_mono; [|exact O]. lia.
Qed.
Lemma appended_inside t s k m b f :
  m <> Some (k + 1) -> exists f', appended t (inside s k m b f) = inside s (usize (k + 1)) m (b ++ rlp t) f'.
Proof.
  intros Hm. destruct t; cbn [appended]; unfold noted, inside, extend; cbn [set_finished set_buffer unfinished_lists start_pos buffer noted_lists];
    unfold is_full; cbn [max current position]; rewrite bool_decide_false by done; eexists; rewrite <- !app_assoc; reflexivity.
Qed.
Lemma noted_last s k b f :
  open_stream s ->
  noted (inside s k (Some (k + 1)) b f) =
  set_finished true (noted (extend (list_prefix (len b) ++ b) s)).
Proof.
  intros [[S0 S1] _]. unfold noted, inside, extend.
  cbn [set_finished set_buffer unfinished_lists start_pos buffer finished_list noted_lists].
  unfold is_full. cbn [max current position]. rewrite bool_decide_true by done. unfold total_written.
  replace (Z.to_nat (start_pos s + (len (buffer s) - start_pos s + 1))) with (S (length (buffer s))) by lia.
  rewrite Nat.sub_succ, Nat.sub_0_r, take_app_length.
  rewrite (drop_app_ge _ _ (S (length (buffer s)))), Nat.sub_succ_l, Nat.sub_diag by lia. cbn [app drop].
  rewrite length_app. cbn [length].
  replace (Z.of_nat (length (buffer s) + S (length b)) - Z.of_nat (S (length (buffer s)))) with (len b) by lia.
  by destruct (noted_lists _ _ _).
Qed.
Lemma extend_inside s k m b f c : extend c (inside s k m b f) = inside s k m (b ++ c) f.
Proof. unfold extend, inside, set_buffer. cbn. by rewrite <- !app_assoc. Qed.
Lemma appended_last t s k b f :
  open_stream s ->
  appended t (inside s k (Some (k + 1)) b f) =
  set_finished true (noted (extend (list_prefix (len (b ++ rlp t)) ++ b ++ rlp t) s)).
Proof.
  intros H. destruct t; cbn [appended].
  - change (set_finished false (inside s k (Some (k + 1)) b f)) with (inside s k (Some (k + 1)) b false).
    by rewrite extend_inside, noted_last.
  - by rewrite extend_inside, noted_last.
Qed.

(** ** Sizes *)

Lemma prefix_pos a b n : 1 <= len (prefix a b n).
Proof. unfold prefix. destruct (n <=? 55); simpl; lia. Qed.
Lemma rlp_pos t : 1 <= len (rlp t).
Proof.
  destruct t as [b|l]; cbn [rlp].
  - unfold rlp_string. destruct b as [|x [|y b]]; [done|destruct (x <? 0x80); simpl; lia|].
    rewrite length_app. pose proof (prefix_pos 0x80 0xb7 (len (x :: y :: b))). lia.
  - rewrite length_app. pose proof (prefix_pos 0xc0 0xf7 (len (body l))). lia.
Qed.
Lemma length_rlp_string b : len b <= len (rlp_string b).
Proof. unfold rlp_string. destruct b as [|x [|y b]]; [simpl; lia|destruct (x <? 0x80); simpl; lia|rewrite length_app; lia]. Qed.
Lemma length_body l : len l <= len (body l).
Proof.
  induction l as [|t l IH]; [simpl; lia|]. cbn [List.map concat]. rewrite length_app. cbn [length].
  pose proof (rlp_pos t). lia.
Qed.
Lemma fits_list l : fits (RList l) -> Forall fits l /\ len (body l) < 2 ^ 32.
Proof.
  unfold fits. cbn [rlp]. rewrite length_app. intros H.
  assert (len (body l) < 2 ^ 32) as B by lia. split; [|done]. clear H.
  induction l as [|t l IH]; [constructor|]. cbn [List.map concat] in B. rewrite length_app in B.
  constructor; [lia|]. apply IH. lia.
Qed.

(** ** Lists *)

Section items.
Context {B : Type} (f : B -> stream unit) (g : B -> item).

(** Appending the remaining items of a list closes it. *)
Lemma append_items l s k b fin :
  Forall (fun x => appends (f x) (g x)) l -> Forall fits (g <$> l) ->
  open_stream s -> 0 <= k -> l <> [] -> k + len l < 2 ^ 64 ->
  let all := b ++ body (g <$> l) in
  for_each l (fun x => append_with (f x)) (inside s k (Some (k + len l)) b fin) =
  (Ok tt, set_finished true (noted (extend (list_prefix (len all) ++ all) s))).
Proof.
  revert k b fin. induction l as [|x l IH]; intros k b fin Hf Hx Hs Hk Hne Hb; [done|].
  inversion_clear Hf as [|? ? Hf1 Hf2]. inversion_clear Hx as [|? ? Hx1 Hx2]. cbn [for_each].
  cbn [length] in Hb |- *.
  st_step (apply append_with_ok; [exact Hf1|exact Hx1|apply inside_open; [done|lia|lia]]).
  destruct l as [|y l].
  - cbn [length]. replace (k + Z.of_nat 1) with (k + 1) by lia. rewrite appended_last by done.
    cbn. by rewrite app_nil_r.
  - destruct (appended_inside (g x) s k (Some (k + Z.of_nat (S (length (y :: l))))) b fin) as [f' ->].
    { intros E. injection E. cbn [length]. lia. }
    rewrite wrap_id by (unfold is_u; cbn [length] in *; lia).
    replace (k + Z.of_nat (S (length (y :: l)))) with (k + 1 + len (y :: l)) by lia.
    rewrite (IH (k + 1) (b ++ rlp (g x)) f') by (auto; cbn [length] in *; lia).
    by rewrite fmap_cons; cbn [List.map concat]; rewrite <- !app_assoc.
Qed.

Lemma begin_list_ok n s :
  n <> 0 -> begin_list n s = (Ok tt, inside s 0 (Some n) [] false).
Proof.
  intros Hn. unfold begin_list. rewrite (proj2 (Z.eqb_neq n 0)) by done.
  do 3 (st_step reflexivity). unfold modify, inside, extend, ListInfo_new, total_written.
  cbn. rewrite length_app. cbn [length].
  replace (Z.of_nat (length (buffer s) + 1) - start_pos s) with (len (buffer s) - start_pos s + 1) by lia. done.
Qed.

Lemma begin_empty_ok s :
  open_stream s -> begin_list 0 s = (Ok tt, set_finished true (noted (extend [0xc0] s))).
Proof.
  intros Hs. unfold begin_list. cbn [Z.eqb]. do 2 (st_step reflexivity).
  st_step (apply note_appended_ok; auto with rlp). unfold modify. f_equal.
  apply (noted_finished false (extend _ s)).
Qed.

(** [begin_list(n)] and [n] items are the encoding of the list of their trees. *)
Lemma list_appends l :
  Forall (fun x => appends (f x) (g x)) l ->
  appends (_ ← begin_list (len l); for_each l (fun x => append_with (f x))) (RList (g <$> l)).
Proof.
  intros Hf Hfit s Hs. destruct (fits_list _ Hfit) as [Hx Hb].
  pose proof (length_body (g <$> l)) as Hl. rewrite length_fmap in Hl.
  destruct l as [|x l].
  - st_step (by apply begin_empty_ok). done.
  - st_step (apply begin_list_ok; cbn; lia). cbn [effect].
    rewrite <- (Z.add_0_l (len (x :: l))), append_items by (first [done|lia]).
    rewrite list_prefix_eq by (cbn [app]; lia). done.
Qed.

(** A list of unknown length, closed by hand, is encoded in the same way. *)
Lemma unbounded_items l s k b fin :
  Forall (fun x => appends (f x) (g x)) l -> Forall fits (g <$> l) ->
  open_stream s -> 0 <= k -> exists k' fin',
  for_each l (fun x => append_with (f x)) (inside s k None b fin) =
  (Ok tt, inside s k' None (b ++ body (g <$> l)) fin').
Proof.
  revert k b fin. induction l as [|x l IH]; intros k b fin Hf Hx Hs Hk.
  { exists k, fin. cbn. by rewrite app_nil_r. }
  inversion_clear Hf as [|? ? Hf1 Hf2]. inversion_clear Hx as [|? ? Hx1 Hx2]. cbn [for_each].
  st_step (apply append_with_ok; [exact Hf1|exact Hx1|by apply inside_open]).
  destruct (appended_inside (g x) s k None b fin) as [f' ->]; [done|].
  pose proof (wrap_bound 64 (k + 1) ltac:(lia)) as [W _].
  destruct (IH (usize (k + 1)) (b ++ rlp (g x)) f') as (k' & fin' & ->); auto.
  exists k', fin'. by rewrite fmap_cons; cbn [List.map concat]; rewrite <- !app_assoc.
Qed.
Lemma unbounded_appends l :
  Forall (fun x => appends (f x) (g x)) l ->
  appends (_ ← begin_unbounded_list; _ ← for_each l (fun x => append_with (f x)); finalize_unbounded_list)
    (RList (g <$> l)).
Proof.
  intros Hf Hfit s Hs. destruct (fits_list _ Hfit) as [Hx Hb].
  assert (begin_unbounded_list s = (Ok tt, inside s 0 None [] false)) as E.
  { unfold begin_unbounded_list. do 3 (st_step reflexivity).
    unfold modify, inside, extend, ListInfo_new, total_written. cbn. rewrite length_app. cbn [length].
  replace (Z.of_nat (length (buffer s) + 1) - start_pos s) with (len (buffer s) - start_pos s + 1) by lia. done. }
  st_step (exact E). destruct (unbounded_items l s 0 [] false) as (k & fin & Ei); auto; [lia|].
  st_step (exact Ei). unfold finalize_unbounded_list. cbn [inside unfinished_lists max app].
  do 2 (st_step reflexivity).
  pose proof Hs as [[S0 S1] O].
  match goal with |- context [insert_list_payload ?n _] =>
    replace n with (len (body (g <$> l))) by (unfold total_written; cbn; unfold total_written; rewrite length_app; cbn [length]; lia) end.
  st_step (apply (insert_list_payload_ok _ _ _ (buffer s) 0 (body (g <$> l)));
    [lia|done|cbn; unfold total_written; lia]).
  rewrite list_prefix_eq by lia.
  set (s1 := set_buffer _ _).
  assert (s1 = set_finished fin (extend (rlp (RList (g <$> l))) s)) as -> by done.
  st_step (apply note_appended_ok; auto with rlp). cbn [effect]. unfold modify. f_equal.
  apply (noted_finished fin (extend _ s)).
Qed.
End items.

(** ** The trees themselves *)

(** The calls a nested value makes: [begin_list] and one [append] per item. *)
Fixpoint item_append (t : item) : stream unit :=
  match t with
  | RData b => encode_value b
  | RList l => _ ← begin_list (len l); for_each (List.map (fun t => append_with (item_append t)) l) id
  end.
#[export] Instance item_Encodable : Encodable item := item_append.

Lemma data_appends b : appends (encode_value b) (RData b).
Proof.
  intros Hf s [Hs _]. unfold fits in Hf. cbn [rlp] in Hf. pose proof (length_rlp_string b).
  apply encode_value_ok; lia.
Qed.
Lemma for_each_map {S E A} (f : A -> stM S E unit) l : for_each (List.map f l) id = for_each l f.
Proof. induction l as [|x l IH]; [done|]. cbn. by rewrite IH. Qed.
#[export] Instance item_encodes : EncodesAs item id (fun _ => True).
Proof.
  intros t _. unfold id. induction t as [b|l IH] using item_ind'; [apply data_appends|].
  pose proof (list_appends item_append id l IH) as H. rewrite list_fmap_id in H.
  change (rlp_append (RList l)) with (item_append (RList l)). cbn [item_append]. by rewrite for_each_map.
Qed.

(** ** Encoding *)

Lemma new_open b : open_stream (new_with_buffer b).
Proof. unfold open_stream. cbn. repeat split; lia. Qed.
Lemma appended_new t b : out (appended t (new_with_buffer b)) = Ok (b ++ rlp t).
Proof. by destruct t. Qed.

Section encode.
Context `{EncodesAs A to_item valid}.

Lemma encode_ok a : valid a -> fits (to_item a) -> encode a = Ok (rlp (to_item a)).
Proof.
  intros Ha Hf. unfold encode, exec, append.
  erewrite append_with_ok by (eauto using new_open, encodes_as). apply (appended_new _ []).
Qed.
Lemma encode_list_ok l :
  Forall valid l -> fits (RList (to_item <$> l)) -> encode_list l = Ok (rlp (RList (to_item <$> l))).
Proof.
  intros Hl Hf. unfold encode_list, exec, append_list.
  pose proof (list_appends rlp_append to_item l) as La. rewrite La; [done| |done|apply new_open].
  revert Hl. apply Forall_impl. exact encodes_as.
Qed.
End encode.
