(* ===== verification/RlpDecode.v ===== *)
(** * Reading RLP back

    The decoder of Rlp.v on the encodings of RlpProofs.v: every encoding is
    framed (its length is read off its first bytes whatever follows), so the
    items of a list are found one after the other, whether or not the search
    starts at the cached item.  [RlpCodec] is the law of a type that is both
    [Encodable] and [Decodable]. *)
From S2P Require Import Prelude Uint UintProofs Rlp RlpProofs.

(** ** Lengths *)

Lemma be_sum_spec w l res :
  0 <= w -> Forall is_byte l -> 0 <= res -> res + from_be l < 2 ^ w -> be_sum w res l = res + from_be l.
Proof.
  intros Hw H. revert res. induction H as [|b l Hb Hl IH]; intros res Hr Hs; [cbn; lia|].
  rewrite from_be_cons in Hs |- *. cbn [be_sum]. unfold is_byte, is_u in Hb.
  rewrite Z.shiftl_mul_pow2, (Z.mul_comm _ 8) by lia.
  pose proof (from_be_bound _ l (conj eq_refl Hl)) as B. unfold is_u in B.
  assert (0 <= b * 2 ^ (8 * len l)) by nia.
  rewrite !wrap_id by (unfold is_u; rewrite ?wrap_id by (unfold is_u; lia); lia).
  rewrite IH by lia. lia.
Qed.
Lemma from_be_lt w l : Forall is_byte l -> 8 * len l <= w -> from_be l < 2 ^ w.
Proof.
  intros H L. pose proof (from_be_bound _ l (conj eq_refl H)) as B. unfold is_u in B.
  pose proof (Z.pow_le_mono_r 2 (8 * len l) w). lia.
Qed.

Lemma decode_usize_be n : 0 < n < 2 ^ 64 -> decode_usize (be n) = Ok n.
Proof.
  intros H. unfold decode_usize. pose proof (length_be n ltac:(lia)) as L.
  pose proof (min_bytes_range 8 n ltac:(lia) ltac:(unfold is_u; lia)).
  rewrite (proj2 (Nat.leb_le _ _)) by lia. destruct (be_head n) as (x & l & E & Hx); [lia|].
  pose proof (from_be_be n ltac:(lia)) as F. pose proof (to_be_bytes (Z.to_nat (min_bytes n)) n) as Hb.
  fold (be n) in Hb. rewrite E in *.
  change (index (E:=DecoderError) (x :: l) 0) with (Ok (E:=DecoderError) x). cbn [mbind result_bind].
  rewrite (proj2 (Z.eqb_neq x 0)) by lia. f_equal. rewrite be_sum_spec; try lia; auto.
Qed.

Lemma slice_app {E} (a b c : bytes) i j :
  i = len a -> j = i + len b -> slice (E:=E) i j (a ++ b ++ c) = Ok b.
Proof.
  intros -> ->. unfold slice. rewrite !length_app.
  rewrite (proj2 (Z.leb_le _ _)), (proj2 (Z.leb_le _ _)) by lia. cbn [andb].
  rewrite Nat2Z.id, drop_app_length. replace (Z.to_nat (len a + len b - len a)) with (length b) by lia.
  by rewrite take_app_length.
Qed.

(** A length that takes bytes of its own. *)
Lemma calculate_ok c n rest :
  55 < n < 2 ^ 32 -> calculate_payload_info (c :: be n ++ rest) (min_bytes n) = Ok (mkPayloadInfo (1 + min_bytes n) n).
Proof.
  intros H. unfold calculate_payload_info. pose proof (length_be n ltac:(lia)) as L.
  destruct (be_head n) as (x & l & E & Hx); [lia|].
  assert ((c :: be n ++ rest) !! 1%nat = Some x) as -> by by rewrite E.
  destruct x as [|p|p]; try lia. cbn [length]. rewrite length_app, (proj2 (Z.ltb_ge _ _)) by lia.
  rewrite (slice_app [c] (be n) rest) by (cbn [length]; lia). cbn [mbind result_bind].
  rewrite decode_usize_be by lia. cbn [mbind result_bind]. by rewrite (proj2 (Z.leb_gt _ _)) by lia.
Qed.

(** The first bytes of an encoding give its length. *)
Lemma prefix_info short long n rest :
  (short = 0x80 /\ long = 0xb7 \/ short = 0xc0 /\ long = 0xf7) -> 0 <= n < 2 ^ 32 ->
  PayloadInfo_from (prefix short long n ++ rest) = Ok (mkPayloadInfo (len (prefix short long n)) n).
Proof.
  intros Hs Hn. unfold prefix. destruct (Z.leb_spec n 55).
  - unfold PayloadInfo_from. cbn [app hd_error ok_or mbind result_bind length].
    destruct Hs as [[-> ->]|[-> ->]]; repeat first [rewrite (proj2 (Z.leb_gt _ _)) by lia | rewrite (proj2 (Z.leb_le _ _)) by lia];
      do 2 f_equal; lia.
  - pose proof (min_bytes_range 4 n ltac:(lia) ltac:(unfold is_u; lia)).
    pose proof (min_bytes_pos n ltac:(lia)). cbn [length app]. rewrite Nat2Z.inj_succ, length_be by lia.
    rewrite <- Z.add_1_l. unfold PayloadInfo_from. cbn [hd_error ok_or mbind result_bind].
    destruct Hs as [[-> ->]|[-> ->]]; repeat first [rewrite (proj2 (Z.leb_gt _ _)) by lia | rewrite (proj2 (Z.leb_le _ _)) by lia];
      (replace (_ + min_bytes n - _) with (min_bytes n) by lia); apply calculate_ok; lia.
Qed.

Lemma payload_info_rlp t rest :
  fits t -> exists pi, payload_info (rlp t ++ rest) = Ok pi /\ header_len pi + value_len pi = len (rlp t).
Proof.
  intros Hf. assert (exists pi, PayloadInfo_from (rlp t ++ rest) = Ok pi /\ header_len pi + value_len pi = len (rlp t)) as (pi & E & L).
  { unfold fits in Hf. destruct t as [b|l]; cbn [rlp] in Hf |- *.
    - unfold rlp_string in *. destruct b as [|x [|y b]]; [by eexists| |].
      + destruct (Z.ltb_spec x 0x80); [|by eexists]. unfold PayloadInfo_from. cbn [app hd_error ok_or mbind result_bind].
        rewrite (proj2 (Z.leb_le _ _)) by lia. by eexists.
      + rewrite length_app in Hf |- *. eexists. rewrite <- app_assoc, prefix_info by lia. split; [done|]. cbn. lia.
    - rewrite length_app in Hf |- *. eexists. rewrite <- app_assoc, prefix_info by lia. split; [done|]. cbn. lia. }
  exists pi. split; [|done]. unfold payload_info. rewrite E. cbn [mbind result_bind]. unfold fits in Hf.
  rewrite length_app, (proj2 (Z.ltb_lt _ _)), (proj2 (Z.leb_le _ _)) by lia. done.
Qed.

(** [decode_value] hands the bytes of a string to its reader. *)
Lemma decode_value_rlp {A} b rest (f : bytes -> result DecoderError A) :
  len (rlp_string b) < 2 ^ 32 -> decode_value (rlp_string b ++ rest) f = f b.
Proof.
  intros Hl. pose proof (length_rlp_string b). unfold rlp_string in *. destruct b as [|x [|y b]].
  - change (decode_value (0x80 :: rest) f = f []). unfold decode_value.
    cbn [hd_error ok_or mbind result_bind Z.leb Z.compare Pos.compare Pos.compare_cont].
    rewrite (proj2 (Z.ltb_ge _ _)) by (cbn [length]; lia). by rewrite (slice_app [0x80] [] rest).
  - unfold decode_value. destruct (Z.ltb_spec x 0x80); cbn [app hd_error ok_or mbind result_bind].
    + by rewrite (proj2 (Z.leb_le _ _)) by lia.
    + cbn [Z.leb Z.compare Pos.compare Pos.compare_cont length]. rewrite (proj2 (Z.ltb_ge _ _)) by (cbn; lia).
      rewrite (slice_app [0x81] [x] rest) by done. cbn [mbind result_bind Z.eqb Pos.eqb].
      change (index (E:=DecoderError) [x] 0) with (Ok (E:=DecoderError) x).
      cbn [mbind result_bind]. by rewrite (proj2 (Z.ltb_ge _ _)) by lia.
  - set (v := x :: y :: b) in *. unfold decode_value, prefix in *. destruct (Z.leb_spec (len v) 55).
    + cbn [app hd_error ok_or mbind result_bind length]. rewrite length_app.
      assert (2 <= len v) by (unfold v; cbn [length]; lia).
      rewrite (proj2 (Z.leb_gt _ _)), (proj2 (Z.leb_le _ _)), (proj2 (Z.ltb_ge _ _)) by lia.
      rewrite (slice_app [0x80 + len v] v rest) by (cbn [length]; lia). cbn [mbind result_bind].
      by rewrite (proj2 (Z.eqb_neq _ _)) by lia.
    + rewrite length_app in Hl. cbn [length] in Hl.
      pose proof (min_bytes_range 4 (len v) ltac:(lia) ltac:(unfold is_u; lia)).
      pose proof (min_bytes_pos (len v) ltac:(lia)). pose proof (length_be (len v) ltac:(lia)) as Lb.
      rewrite <- app_assoc. cbn [app hd_error ok_or mbind result_bind].
      rewrite !(proj2 (Z.leb_gt (0xb7 + _) _)), (proj2 (Z.leb_le _ _)) by lia.
      replace (1 + (0xb7 + min_bytes (len v) - 0xb7)) with (1 + min_bytes (len v)) by lia.
      cbn [length]. rewrite !length_app, (proj2 (Z.ltb_ge _ _)) by lia.
      rewrite (slice_app [0xb7 + min_bytes (len v)] (be (len v)) (v ++ rest)) by (cbn [length]; lia). cbn [mbind result_bind].
      rewrite decode_usize_be by lia. cbn [mbind result_bind].
      rewrite (proj2 (Z.leb_gt _ _)), (proj2 (Z.ltb_ge _ _)) by lia.
      rewrite (slice_app ((0xb7 + min_bytes (len v)) :: be (len v)) v rest) by (cbn [length]; lia). done.
Qed.

(** ** The items of a list *)

Lemma body_app l1 l2 : body (l1 ++ l2) = body l1 ++ body l2.
Proof. by rewrite List.map_app, concat_app. Qed.
Lemma body_split l k : body l = body (take k l) ++ body (drop k l).
Proof. by rewrite <- body_app, take_drop. Qed.
Lemma length_body_split l k : len (body l) = len (body (take k l)) + len (body (drop k l)).
Proof. rewrite (body_split l k), length_app. lia. Qed.

Lemma consume_items_ok l k c :
  Forall fits l -> 0 <= c -> c + len (body l) < 2 ^ 64 ->
  consume_items (body l) k c =
  if (k <=? length l)%nat then Ok (body (drop k l), c + len (body (take k l))) else Err RlpIsTooShort.
Proof.
  intros Hl. revert k c. induction Hl as [|t l Ht Hl IH]; intros [|k] c Hc Hb; cbn [consume_items].
  1,3: by rewrite take_0, drop_0, Z.add_0_r. { done. }
  cbn [List.map concat] in Hb |- *. rewrite length_app in Hb.
  destruct (payload_info_rlp t (body l) Ht) as (pi & -> & E). cbn [mbind result_bind]. rewrite E.
  unfold consume. rewrite length_app, (proj2 (Z.leb_le _ _)), Nat2Z.id, drop_app_length by lia.
  cbn [mbind result_bind]. rewrite wrap_id by (unfold is_u; lia). rewrite IH by lia.
  cbn [take drop List.map concat length Nat.leb]. destruct (k <=? length l)%nat; [|done]. rewrite length_app.
  do 2 f_equal. lia.
Qed.

Section view.
Context (l : list item) (Hfit : fits (RList l)).
Abbreviation hdr := (prefix 0xc0 0xf7 (len (body l))).
Abbreviation offset k := (len hdr + len (body (take k l))).

(** A view of the encoding whose cache, if any, holds the offset of an item
    or of the end. *)
Definition view (r : Rlp) : Prop :=
  as_raw r = rlp (RList l) /\
  forall c, offset_cache r = Some c -> exists k, (k <= length l)%nat /\ c = mkOffsetCache (Z.of_nat k) (offset k).

Lemma view_new : view (Rlp_new (rlp (RList l))).
Proof. done. Qed.
Lemma view_bound : len hdr + len (body l) < 2 ^ 32.
Proof. unfold fits in Hfit. cbn [rlp] in Hfit. rewrite length_app in Hfit. lia. Qed.
Lemma view_is_list r : view r -> is_list r = true.
Proof.
  intros [E _]. unfold is_list. rewrite E. cbn [rlp]. pose proof (min_bytes_range 4 (len (body l))) as M.
  pose proof view_bound. unfold prefix. destruct (Z.leb_spec (len (body l)) 55); cbn [app]; apply Z.leb_le; [lia|].
  unfold is_u in M. lia.
Qed.

Lemma search_start_ok r i :
  view r -> exists k, (k <= i)%nat /\ (k <= length l)%nat /\
  search_start r (Z.of_nat i) = Ok (body (drop k l), Z.of_nat (i - k), offset k).
Proof.
  intros [E Hc]. pose proof view_bound as B.
  assert (consume_list_payload (as_raw r) = Ok (body l, len hdr)) as Hp.
  { unfold consume_list_payload, payload_info. rewrite E. cbn [rlp]. rewrite prefix_info by lia.
    cbn [mbind result_bind header_len value_len]. rewrite length_app, (proj2 (Z.ltb_lt _ _)), (proj2 (Z.leb_le _ _)) by lia.
    cbn [andb header_len value_len mbind result_bind]. rewrite (proj2 (Z.ltb_ge _ _)) by lia.
    pose proof (slice_app (E:=DecoderError) hdr (body l) [] (len hdr) (len hdr + len (body l)) eq_refl eq_refl) as Hs.
    rewrite app_nil_r in Hs. by rewrite Hs. }
  assert (exists k, (k <= i)%nat /\ (k <= length l)%nat /\
    (p ← consume_list_payload (as_raw r); Ok (p.1, Z.of_nat i, p.2)) = Ok (body (drop k l), Z.of_nat (i - k), offset k)) as H0.
  { exists O. rewrite Hp, take_0, drop_0, Nat.sub_0_r. repeat split; [lia..|]. cbn. by rewrite Z.add_0_r. }
  unfold search_start. destruct (offset_cache r) as [c|] eqn:Ec; [|done].
  destruct (Hc c eq_refl) as (k & Hk & ->). cbn [cache_index cache_offset].
  destruct (Z.leb_spec (Z.of_nat k) (Z.of_nat i)); [|done].
  assert (as_raw r = (hdr ++ body (take k l)) ++ body (drop k l)) as -> by (rewrite <- app_assoc, <- body_split; done).
  exists k. repeat split; [lia..|]. unfold consume.
  rewrite length_app, (length_app hdr), (proj2 (Z.leb_le _ _)) by lia. cbn [mbind result_bind].
  replace (Z.to_nat (offset k)) with (length (hdr ++ body (take k l))) by (rewrite length_app; lia).
  rewrite drop_app_length. do 3 f_equal. lia.
Qed.

(** [at(i)] finds the [i]-th item, from any cache, and fails beyond the end. *)
Lemma at_ok r i t :
  view r -> l !! i = Some t -> exists r',
  at_with_offset (Z.of_nat i) r = (Ok (Rlp_new (rlp t), offset i), r') /\ view r' /\ count_cache r' = count_cache r.
Proof.
  intros Hv Hi. pose proof (lookup_lt_Some _ _ _ Hi) as Li. pose proof view_bound as B.
  destruct (fits_list l Hfit) as [Hl _].
  destruct (search_start_ok r i Hv) as (k & Hk & Hkl & Es). unfold at_with_offset.
  rewrite (view_is_list r Hv). cbn [negb]. st_step (unfold lift; by rewrite Es).
  pose proof (length_body_split l k). pose proof (length_body_split l i) as Si.
  st_step (unfold lift; rewrite consume_items_ok; [|by apply Forall_drop|lia|lia];
    rewrite Nat2Z.id, length_drop, (proj2 (Nat.leb_le _ _)) by lia; reflexivity).
  rewrite drop_drop. replace (k + (i - k))%nat with i by lia.
  assert (len (body (take (i - k) (drop k l))) = len (body (take i l)) - len (body (take k l))) as ->.
  { pose proof (length_body_split (drop k l) (i - k)) as Sk. rewrite drop_drop in Sk.
    replace (k + (i - k))%nat with i in Sk by lia. lia. }
  st_step reflexivity. replace (_ + (0 + _)) with (offset i) by lia. rewrite wrap_id by (unfold is_u; lia).
  rewrite (drop_S _ _ _ Hi). cbn [List.map concat].
  destruct (payload_info_rlp t (body (drop (S i) l))) as (pi & Ep & Lp); [by eapply Forall_lookup_1|].
  st_step (unfold lift; by rewrite Ep). rewrite Lp.
  st_step (unfold lift; rewrite (slice_app [] (rlp t) (body (drop (S i) l))) by done; reflexivity).
  eexists. split; [reflexivity|]. split; [|done]. destruct Hv as [E Hc]. split; [done|].
  intros c [= <-]. exists i. split; [lia|done].
Qed.
Lemma at_end r i :
  view r -> (length l <= i)%nat -> exists r',
  at_with_offset (Z.of_nat i) r = (Err RlpIsTooShort, r') /\ view r' /\ count_cache r' = count_cache r.
Proof.
  intros Hv Hi. pose proof view_bound as B. destruct (fits_list l Hfit) as [Hl _].
  destruct (search_start_ok r i Hv) as (k & Hk & Hkl & Es). unfold at_with_offset.
  rewrite (view_is_list r Hv). cbn [negb]. st_step (unfold lift; by rewrite Es).
  pose proof (length_body_split l k).
  pose proof (consume_items_ok (drop k l) (i - k) 0 (Forall_drop _ _ _ Hl) ltac:(lia) ltac:(lia)) as Ec.
  rewrite length_drop in Ec. destruct (Nat.leb_spec (i - k) (length l - k)).
  2:{ unfold lift at 1, mbind at 1, stM_bind at 1. rewrite Nat2Z.id, Ec. by exists r. }
  st_step (unfold lift; rewrite Nat2Z.id, Ec; reflexivity).
  assert (i = length l) as -> by lia. rewrite drop_drop, (drop_ge l (k + (length l - k))) by lia.
  st_step reflexivity. eexists. split; [reflexivity|]. split; [|done]. destruct Hv as [E Hc]. split; [done|].
  intros c [= <-]. exists (length l). split; [done|]. f_equal.
  rewrite (take_ge (drop k l)) by (rewrite length_drop; lia). rewrite (take_ge l (length l)) by done.
  rewrite wrap_id by (unfold is_u; lia). lia.
Qed.

Lemma next_ok r i :
  view r -> exists r', next (Z.of_nat i) r = (Ok ((fun t => Rlp_new (rlp t)) <$> l !! i), r') /\ view r' /\
  count_cache r' = count_cache r.
Proof.
  intros Hv. unfold next, item_at. destruct (l !! i) as [t|] eqn:Ei.
  - destruct (at_ok r i t Hv Ei) as (r' & E & H). exists r'. by rewrite (bind_st_ok _ _ _ _ _ E).
  - apply lookup_ge_None in Ei. destruct (at_end r i Hv Ei) as (r' & E & H). exists r'.
    unfold mbind, stM_bind. by rewrite E.
Qed.

Lemma count_items_ok fuel i r :
  view r -> (i <= length l < i + fuel)%nat -> exists r',
  count_items fuel (Z.of_nat i) r = (Ok (len l), r') /\ view r' /\ count_cache r' = count_cache r.
Proof.
  revert i r. induction fuel as [|fuel IH]; intros i r Hv Hi; [lia|].
  destruct (next_ok r i Hv) as (r1 & E1 & V1 & C1). cbn [count_items]. rewrite (bind_st_ok _ _ _ _ _ E1).
  destruct (l !! i) as [t|] eqn:Ei; cbn [fmap option_fmap option_map].
  - apply lookup_lt_Some in Ei. replace (Z.of_nat i + 1) with (Z.of_nat (S i)) by lia.
    destruct (IH (S i) r1) as (r' & E & V & C); [done|lia|]. exists r'. by rewrite E, C.
  - apply lookup_ge_None in Ei. exists r1. by replace i with (length l) by lia.
Qed.
Lemma item_count_ok r :
  view r -> count_cache r = None \/ count_cache r = Some (len l) -> exists r',
  item_count r = (Ok (len l), r') /\ view r' /\ count_cache r' = Some (len l).
Proof.
  intros Hv Hc. unfold item_count. rewrite (view_is_list r Hv). destruct Hc as [Hc|Hc]; rewrite Hc; [|by exists r].
  pose proof (length_body l). destruct (count_items_ok (S (length (as_raw r))) 0 r Hv) as (r1 & E & V & C).
  { destruct Hv as [-> _]. cbn [rlp]. rewrite length_app. lia. }
  change (Z.of_nat 0) with 0 in E. rewrite (bind_st_ok _ _ _ _ _ E). eexists. split; [reflexivity|]. by split.
Qed.
Lemma val_at_ok `{Decodable A} r i t :
  view r -> l !! i = Some t -> fst (val_at (A:=A) (Z.of_nat i) r) = decode (rlp t).
Proof.
  intros Hv Hi. destruct (at_ok r i t Hv Hi) as (r' & E & _).
  unfold val_at, item_at. unfold mbind, stM_bind, mret, stM_ret, lift. by rewrite E.
Qed.
Lemma collect_items_ok `{Decodable A} (la : list A) fuel i r :
  Forall2 (fun t a => decode (rlp t) = Ok a) l la -> view r -> (i <= length l < i + fuel)%nat ->
  fst (collect_items fuel (Z.of_nat i) r) = Ok (drop i la).
Proof.
  intros Hf. revert i r. induction fuel as [|fuel IH]; intros i r Hv Hi; [lia|].
  destruct (next_ok r i Hv) as (r1 & E1 & V1 & C1). cbn [collect_items]. rewrite (bind_st_ok _ _ _ _ _ E1).
  destruct (l !! i) as [t|] eqn:Ei; cbn [fmap option_fmap option_map].
  - pose proof (lookup_lt_Some _ _ _ Ei). destruct (Forall2_lookup_l _ _ _ _ _ Hf Ei) as (a & Ea & Ht).
    unfold decode in Ht. st_step (unfold lift; by rewrite Ht).
    specialize (IH (S i) r1 V1 ltac:(lia)). replace (Z.of_nat i + 1) with (Z.of_nat (S i)) by lia.
    rewrite (drop_S _ _ _ Ea).
    unfold mbind, stM_bind. destruct (collect_items fuel (Z.of_nat (S i)) r1) as [[l'| |] s]; cbn in IH |- *; congruence.
  - apply lookup_ge_None in Ei. pose proof (Forall2_length Hf). by rewrite drop_ge by lia.
Qed.
Lemma as_list_ok `{Decodable A} (la : list A) r :
  Forall2 (fun t a => decode (rlp t) = Ok a) l la -> view r -> fst (as_list r) = Ok la.
Proof.
  intros Hf Hv. pose proof (length_body l). unfold as_list. change 0 with (Z.of_nat 0).
  rewrite (collect_items_ok la) by (auto; destruct Hv as [-> _]; cbn [rlp]; rewrite length_app; lia).
  by rewrite drop_0.
Qed.
End view.
