(* ===== verification/RlpTheorems.v ===== *)
(** * RLP: codecs, round trips and untrusted input

    The law [RlpCodec] for every type the crates implement, the theorems of the
    component (the streaming encoder computes the recursive encoding, encoding
    and decoding are inverse, reading arbitrary bytes never panics and always
    ends), and what the size estimate and the item cache do not promise. *)
From S2P Require Import Prelude Uint UintProofs Rlp RlpProofs RlpDecode.

Class RlpCodec (A : Type) `{Encodable A, Decodable A} (to_item : A -> item) (valid : A -> Prop) := {
  codec_encodes :: EncodesAs A to_item valid;
  codec_decodes a : valid a -> fits (to_item a) -> decode (rlp (to_item a)) = Ok a;
}.

(** ** The implementations *)

Lemma decode_value_data {A} b (f : bytes -> result DecoderError A) :
  fits (RData b) -> decode_value (rlp (RData b)) f = f b.
Proof. intros H. rewrite <- (app_nil_r (rlp _)). by apply decode_value_rlp. Qed.

#[export] Instance bytes_codec : RlpCodec bytes RData (fun _ => True).
Proof. split; [intros b _; apply data_appends|]. intros b _ H. by apply decode_value_data. Qed.

#[export] Instance hash_codec size :
  RlpCodec (fixed_hash size) (fun h => RData (hash_bytes h)) (fun h => length (hash_bytes h) = size).
Proof.
  split; [intros h _; apply data_appends|]. intros [h] Hh Hf. unfold decode, as_val, rlp_decode, hash_Decodable.
  cbn [hash_bytes fst as_raw Rlp_new] in Hh |- *. rewrite decode_value_data by done. by rewrite (proj2 (Nat.compare_eq_iff _ _)).
Qed.

Lemma be_byte a : 0 < a < 256 -> be a = [a].
Proof.
  intros H. unfold be, min_bytes. rewrite (proj2 (Z.eqb_neq a 0)) by lia.
  pose proof (Z.log2_nonneg a). assert (Z.log2 a < 8) by (apply Z.log2_lt_pow2; lia).
  rewrite (Z.div_small (Z.log2 a) 8) by lia. change (Z.to_nat (0 + 1)) with 1%nat.
  unfold to_be. cbn [to_digits]. change (2 ^ (8 * Z.of_nat 0)) with 1. rewrite Z.div_1_r, wrap_id by (unfold is_u; lia). done.
Qed.
Lemma u8_appends a : is_u 8 a -> appends (u8_append a) (RData (be a)).
Proof.
  unfold is_u. intros H. unfold u8_append. destruct (Z.eqb_spec a 0) as [->|]; [apply data_appends|].
  rewrite be_byte by lia. apply data_appends.
Qed.
Lemma u8_decode_be a : is_u 8 a -> u8_decode (rlp (RData (be a))) = Ok a.
Proof.
  unfold is_u. intros H. unfold u8_decode. destruct (Z.eqb_spec a 0) as [->|]; [done|].
  rewrite be_byte by lia. rewrite decode_value_data; [by rewrite (proj2 (Z.eqb_neq a 0)) by lia|].
  unfold fits. cbn. destruct (a <? 128); cbn; lia.
Qed.

#[export] Instance bool_codec : RlpCodec bool (fun a => RData (be (if a then 1 else 0))) (fun _ => True).
Proof. split; [intros [] _; by apply u8_appends|]. by intros [] _ _. Qed.

Lemma be_digits n a :
  0 < n -> is_u (8 * n) a -> Forall is_byte (be a) /\ len (be a) <= n /\ from_be (be a) = a /\
  (forall x l, be a = x :: l -> x <> 0).
Proof.
  intros Hn Ha. pose proof (min_bytes_range n a Hn Ha). unfold is_u in Ha. rewrite length_be by lia.
  repeat split; [apply to_be_bytes|lia|apply from_be_be; lia|]. intros x l E.
  destruct (Z.eq_dec a 0) as [->|]; [discriminate|]. destruct (be_head a) as (y & l' & E' & Hy); [lia|].
  rewrite E in E'. injection E'. lia.
Qed.
Lemma uint_appends n a : (0 < n)%nat -> is_u (8 * Z.of_nat n) a -> appends (uint_append n a) (RData (be a)).
Proof.
  intros Hn Ha. unfold uint_append. rewrite <- (Nat2Z.id n) at 2. rewrite strip_be by (auto; lia). apply data_appends.
Qed.
Lemma uint_decode_be n a :
  (0 < n)%nat -> is_u (8 * Z.of_nat n) a -> fits (RData (be a)) -> uint_decode n (rlp (RData (be a))) = Ok a.
Proof.
  intros Hn Ha Hf. unfold uint_decode. rewrite decode_value_data by done.
  destruct (be_digits (Z.of_nat n) a ltac:(lia) Ha) as (Hb & Hl & Hv & Hx). unfold is_u in Ha.
  destruct (Nat.leb_spec (length (be a)) 1).
  - apply u8_decode_be. pose proof (from_be_lt 8 (be a) Hb ltac:(lia)). unfold is_u. lia.
  - rewrite (proj2 (Nat.leb_le _ _)) by lia. destruct (be a) as [|x l] eqn:E; [cbn in *; lia|].
    change (index (E:=DecoderError) (x :: l) 0) with (Ok (E:=DecoderError) x). cbn [mbind result_bind].
    rewrite (proj2 (Z.eqb_neq x 0)) by (by eapply Hx). f_equal. rewrite be_sum_spec; try lia; auto.
Qed.
#[export] Instance unsigned_codec n :
  RlpCodec (unsigned (S n)) (fun a => RData (be (magnitude a))) (fun a => is_u (8 * Z.of_nat (S n)) (magnitude a)).
Proof.
  split.
  - intros [a] Ha. cbn in Ha. destruct n; [by apply u8_appends|]. apply uint_appends; [lia|done].
  - intros [a] Ha Hf. cbn [magnitude] in *. unfold decode, as_val, rlp_decode, unsigned_Decodable. cbn [fst as_raw Rlp_new].
    destruct n; [by rewrite u8_decode_be|]. by rewrite uint_decode_be by (auto; lia).
Qed.

#[export] Instance limbs_codec nw :
  RlpCodec (limbs (S nw)) (fun a => RData (be (val (words_of a)))) (fun a => is_uint (S nw) (words_of a)).
Proof.
  assert (forall a, is_uint (S nw) a -> is_u (8 * (8 * Z.of_nat (S nw))) (val a)) as Hval.
  { intros a [L H]. pose proof (val_bound a H) as B. unfold pw in B. rewrite L in B. unfold is_u.
    by replace (8 * (8 * Z.of_nat (S nw))) with (64 * Z.of_nat (S nw)) by lia. }
  split; intros [a] Ha; cbn [words_of] in *; pose proof (Hval a Ha) as B.
  - unfold rlp_append, limbs_Encodable. cbn [words_of]. rewrite (to_big_endian_spec _ _ Ha), (bits_spec nw) by done.
    pose proof (min_bytes_range (8 * Z.of_nat (S nw)) (val a) ltac:(lia) B) as M.
    assert ((bit_length (val a) + 7) / 8 = min_bytes (val a)) as ->.
    { unfold bit_length, min_bytes. destruct (val a =? 0); [done|dlia]. }
    replace (Z.to_nat _) with (8 * S nw - Z.to_nat (min_bytes (val a)))%nat by lia.
    rewrite drop_to_be by lia. apply data_appends.
  - intros Hf. unfold decode, as_val, rlp_decode, limbs_Decodable. cbn [fst as_raw Rlp_new]. rewrite decode_value_data by done.
    destruct (be_digits (8 * Z.of_nat (S nw)) (val a) ltac:(lia) B) as (Hb & Hl & Hv & Hx).
    assert (mk_limbs (nw:=S nw) <$> from_big_endian (E:=DecoderError) (S nw) (be (val a)) = Ok (mk_limbs a)) as E.
    { destruct (from_big_endian_spec (E:=DecoderError) (S nw) (be (val a)) (length (be (val a)))) as (r & -> & Hr & Vr); [done|lia|].
      cbn. do 2 f_equal. destruct Ha, Hr. apply val_inj; auto; congruence. }
    destruct (be (val a)) as [|x l] eqn:Eb; [done|]. pose proof (Hx x l eq_refl).
    destruct x; [done| |]; by rewrite (proj2 (Nat.leb_le _ _)) by lia.
Qed.

(** The values of [char]. *)
Definition is_char (c : Z) : Prop := 0 <= c < 0xD800 \/ 0xE000 <= c < 0x110000.

Ltac range_true := rewrite (proj2 (andb_true_iff _ _)) by (rewrite !Z.leb_le; dlia).
Lemma utf8_char_read c l : is_char c -> from_utf8_lossy (utf8_char c ++ l) = c :: from_utf8_lossy l.
Proof.
  unfold is_char. intros Hc. unfold utf8_char.
  destruct (Z.ltb_spec c 128) as [H1|H1]; [cbn [app from_utf8_lossy]; by rewrite (proj2 (Z.ltb_lt _ _)) by lia|].
  destruct (Z.ltb_spec c 2048) as [H2|H2].
  { cbn [app from_utf8_lossy]. rewrite (proj2 (Z.ltb_ge _ _)) by dlia. unfold in_range.
    range_true. range_true. f_equal. dlia. }
  destruct (Z.ltb_spec c 65536) as [H3|H3].
  { assert (13 <= c / 4096 \/ c / 4096 < 13) as Hd by lia. cbn [app from_utf8_lossy].
    rewrite (proj2 (Z.ltb_ge _ _)) by dlia. unfold in_range.
    rewrite (proj2 (andb_false_iff _ _)) by (right; apply Z.leb_gt; dlia). range_true.
    destruct (Z.eqb_spec (224 + c / 4096) 0xE0), (Z.eqb_spec (224 + c / 4096) 0xED); try lia;
      (range_true; range_true; f_equal; dlia). }
  cbn [app from_utf8_lossy]. rewrite (proj2 (Z.ltb_ge _ _)) by dlia. unfold in_range.
  rewrite (proj2 (andb_false_iff _ _)) by (right; apply Z.leb_gt; dlia).
  rewrite (proj2 (andb_false_iff _ _)) by (right; apply Z.leb_gt; dlia). range_true.
  destruct (Z.eqb_spec (240 + c / 262144) 0xF0), (Z.eqb_spec (240 + c / 262144) 0xF4); try lia;
    (range_true; range_true; range_true; f_equal; dlia).
Qed.
Lemma from_utf8_lossy_utf8 t : Forall is_char t -> from_utf8_lossy (utf8 t) = t.
Proof.
  unfold utf8. induction 1 as [|c t Hc _ IH]; [done|]. cbn [flat_map]. by rewrite utf8_char_read, IH.
Qed.

#[export] Instance text_codec :
  RlpCodec text (fun t => RData (utf8 (chars t))) (fun t => Forall is_char (chars t)).
Proof.
  split; [intros t _; apply data_appends|]. intros [t] Ht Hf. cbn [chars] in *.
  unfold decode, as_val, rlp_decode, text_Decodable. cbn [fst as_raw Rlp_new]. rewrite decode_value_data by done.
  unfold from_utf8. rewrite from_utf8_lossy_utf8 by done. by rewrite decide_True.
Qed.

Lemma for_each_one {S E A} (f : A -> stM S E unit) a s : for_each [a] f s = f a s.
Proof. cbn. unfold mbind, stM_bind. by destruct (f a s) as [[[]| |] s']. Qed.
(** [Option<T>] is a list of at most one item. *)
#[export] Instance option_codec `{RlpCodec A to_item valid} :
  RlpCodec (option A) (fun o => RList (to_item <$> option_list o)) (fun o => forall a, o = Some a -> valid a).
Proof.
  split.
  - intros o Ho. assert (Forall valid (option_list o)) as Hv by (destruct o; repeat constructor; auto).
    pose proof (list_appends rlp_append to_item (option_list o)) as La.
    intros Hf s Hs. rewrite <- La; auto; [destruct o as [a|]|].
    + change (option_list (Some a)) with [a]. unfold rlp_append at 1, option_Encodable, mbind, stM_bind.
      change (len [a]) with 1. destruct (begin_list 1 s) as [[[]| |] s1]; auto. by rewrite for_each_one.
    + change (option_list None) with (@nil A). unfold rlp_append at 1, option_Encodable, mbind, stM_bind.
      change (len (@nil A)) with 0. by destruct (begin_list 0 s) as [[[]| |] s1].
    + revert Hv. apply Forall_impl. exact codec_encodes.
  - intros o Ho Hf. unfold decode, as_val, rlp_decode, option_Decodable.
    set (l := to_item <$> option_list o) in *.
    destruct (item_count_ok l Hf (Rlp_new (rlp (RList l))) (view_new l) ltac:(by left)) as (r & E & V & _).
    rewrite (bind_st_ok _ _ _ _ _ E). destruct o as [a|]; [|done]. cbn [Z.eqb].
    destruct (fits_list l Hf) as [Hl _]. pose proof (val_at_ok (A:=A) l Hf r 0 (to_item a) V eq_refl) as Ev.
    rewrite codec_decodes in Ev; [|by apply Ho|by inversion_clear Hl].
    change (len l =? 1) with true. cbv iota. change (Z.of_nat 0) with 0 in Ev.
    unfold mbind, stM_bind. destruct (val_at 0 r) as [[x| |] r']; cbn in Ev |- *; congruence.
Qed.

(** ** The types that are implemented

    Byte strings, booleans, unsigned integers of [S n] bytes, big integers of
    [S nw] limbs, hashes of a size, strings, and options of these. *)
Inductive shape :=
| SBytes | SBool | SUnsigned (n : nat) | SLimbs (nw : nat) | SHash (size : nat) | SText | SOption (s : shape).
Fixpoint value_of (s : shape) : Type :=
  match s with
  | SBytes => bytes | SBool => bool | SUnsigned n => unsigned (S n) | SLimbs nw => limbs (S nw)
  | SHash size => fixed_hash size | SText => text | SOption s => option (value_of s)
  end.
#[export] Instance value_Encodable : forall s, Encodable (value_of s) := fix enc s :=
  match s with
  | SBytes => bytes_Encodable | SBool => bool_Encodable | SUnsigned n => unsigned_Encodable (S n)
  | SLimbs nw => limbs_Encodable (S nw) | SHash size => hash_Encodable size | SText => text_Encodable
  | SOption s => @option_Encodable (value_of s) (enc s)
  end.
#[export] Instance value_Decodable : forall s, Decodable (value_of s) := fix dec s :=
  match s with
  | SBytes => bytes_Decodable | SBool => bool_Decodable | SUnsigned n => unsigned_Decodable (S n)
  | SLimbs nw => limbs_Decodable (S nw) | SHash size => hash_Decodable size | SText => text_Decodable
  | SOption s => @option_Decodable (value_of s) (dec s)
  end.
(** The item a value is written as, and the values a type has. *)
Fixpoint item_of (s : shape) : value_of s -> item :=
  match s with
  | SBytes => RData
  | SBool => fun a => RData (be (if a then 1 else 0))
  | SUnsigned n => fun a => RData (be (magnitude a))
  | SLimbs nw => fun a => RData (be (val (words_of a)))
  | SHash size => fun h => RData (hash_bytes h)
  | SText => fun t => RData (utf8 (chars t))
  | SOption s => fun o => RList (item_of s <$> option_list o)
  end.
Fixpoint valid_of (s : shape) : value_of s -> Prop :=
  match s with
  | SBytes | SBool => fun _ => True
  | SUnsigned n => fun a => is_u (8 * Z.of_nat (S n)) (magnitude a)
  | SLimbs nw => fun a => is_uint (S nw) (words_of a)
  | SHash size => fun h => length (hash_bytes h) = size
  | SText => fun t => Forall is_char (chars t)
  | SOption s => fun o => forall a, o = Some a -> valid_of s a
  end.
#[export] Instance value_codec s : RlpCodec (value_of s) (item_of s) (valid_of s).
Proof.
  induction s as [| |n|nw|size| |s IH];
    [exact bytes_codec|exact bool_codec|exact (unsigned_codec n)|exact (limbs_codec nw)|exact (hash_codec size)|exact text_codec|].
  exact (option_codec (A:=value_of s)).
Qed.

(** ** Untrusted input *)

(** A view of any bytes a node can hold; its cache never lags behind. *)
Definition readable (r : Rlp) : Prop :=
  Forall is_byte (as_raw r) /\ len (as_raw r) < 2 ^ 63 /\
  forall c, offset_cache r = Some c -> 0 <= cache_index c <= cache_offset c /\ cache_offset c <= len (as_raw r).

(** [P] holds of what a reader returns, and it does not panic. *)
Definition returns {E A} (m : result E A) (P : A -> Prop) : Prop :=
  match m with Ok a => P a | Err _ => True | Panic => False end.

Lemma returns_bind {E A B} (m : result E A) (f : A -> result E B) P Q :
  returns m P -> (forall a, P a -> returns (f a) Q) -> returns (m ≫= f) Q.
Proof. destruct m; cbn; auto. Qed.
Lemma returns_weaken {E A} (m : result E A) (P Q : A -> Prop) : returns m P -> (forall a, P a -> Q a) -> returns m Q.
Proof. destruct m; cbn; auto. Qed.
Lemma returns_fmap {E A B} (m : result E A) (f : A -> B) P :
  returns m (fun a => P (f a)) -> returns (f <$> m) P.
Proof. by destruct m. Qed.

Lemma returns_no_panic {E A} (m : result E A) P : returns m P -> m <> Panic.
Proof. by destruct m. Qed.

Lemma slice_safe {E} a b l :
  0 <= a <= b -> b <= len l -> Forall is_byte l ->
  returns (slice (E:=E) a b l) (fun d => len d = b - a /\ Forall is_byte d).
Proof.
  intros H1 H2 H3. unfold slice. rewrite (proj2 (Z.leb_le _ _)), (proj2 (Z.leb_le _ _)) by lia. cbn.
  split; [rewrite length_take, length_drop; lia|]. by apply Forall_take, Forall_drop.
Qed.
Lemma index_safe {E} l i : 0 <= i < len l -> returns (index (E:=E) l i) (fun _ => True).
Proof.
  intros H. unfold index. destruct (lookup_lt_is_Some_2 l (Z.to_nat i)) as [x ->]; [lia|]. done.
Qed.

Lemma decode_usize_safe b : b <> [] -> Forall is_byte b -> returns (decode_usize b) (fun n => 0 <= n < 2 ^ 64).
Proof.
  intros Hb H. unfold decode_usize. destruct (Nat.leb_spec (length b) 8); [|done].
  eapply returns_bind; [apply index_safe; destruct b; [done|cbn [length]; lia]|]. intros x _.
  destruct (x =? 0); [done|]. cbn. pose proof (from_be_lt 64 b H ltac:(lia)).
  pose proof (from_be_bound _ b (conj eq_refl H)) as B. unfold is_u in B. rewrite be_sum_spec by (auto; lia). lia.
Qed.

Definition sized (b : bytes) (pi : PayloadInfo) : Prop :=
  0 <= header_len pi /\ 0 <= value_len pi /\ 1 <= header_len pi + value_len pi <= len b /\
  (forall x l, b = x :: l -> 0xc0 <= x -> 1 <= header_len pi).

Lemma calculate_safe b n :
  1 <= n -> Forall is_byte b ->
  returns (calculate_payload_info b n) (fun pi => 1 <= header_len pi /\ 55 < value_len pi).
Proof.
  intros Hn H. unfold calculate_payload_info. destruct (b !! 1%nat) as [[]|]; try done;
    (destruct (Z.ltb_spec (len b) (1 + n)); [done|]);
    (eapply returns_bind; [apply slice_safe; auto; lia|]); intros d [Ld Hd];
    (eapply returns_bind; [apply decode_usize_safe; [destruct d; [cbn in *; lia|done]|done]|]); intros v Hv;
    (destruct (Z.leb_spec v 55); [done|]); cbn; lia.
Qed.
Lemma payload_info_safe b : Forall is_byte b -> returns (payload_info b) (sized b).
Proof.
  intros H. unfold payload_info.
  assert (returns (PayloadInfo_from b) (fun pi => 0 <= header_len pi /\ 0 <= value_len pi /\ 1 <= header_len pi + value_len pi /\
    (forall x l, b = x :: l -> 0xc0 <= x -> 1 <= header_len pi))) as Hp.
  { unfold PayloadInfo_from. destruct b as [|x b]; [done|]. cbn [hd_error ok_or mbind result_bind].
    assert (forall n, 1 <= n -> returns (calculate_payload_info (x :: b) n) (fun pi => 0 <= header_len pi /\ 0 <= value_len pi /\
      1 <= header_len pi + value_len pi /\ (forall y l, x :: b = y :: l -> 0xc0 <= y -> 1 <= header_len pi))) as Hc.
    { intros n Hn. eapply returns_weaken; [by apply calculate_safe|]. intros pi [? ?]. repeat split; intros; lia. }
    destruct (Z.leb_spec x 0x7f); [cbn; repeat split; try lia; intros y l [= <- <-]; lia|].
    destruct (Z.leb_spec x 0xb7); [cbn; repeat split; intros; lia|].
    destruct (Z.leb_spec x 0xbf); [apply Hc; lia|].
    destruct (Z.leb_spec x 0xf7); [cbn; repeat split; intros; lia|apply Hc; lia]. }
  eapply returns_bind; [exact Hp|]. intros pi (H1 & H2 & H3 & H4).
  destruct (Z.ltb_spec (header_len pi + value_len pi) (2 ^ 64)); [|done].
  destruct (Z.leb_spec (header_len pi + value_len pi) (len b)); [|done]. cbn. repeat split; auto.
Qed.

Lemma decode_value_safe {A} b (f : bytes -> result DecoderError A) (P : A -> Prop) :
  Forall is_byte b -> (forall d, Forall is_byte d -> returns (f d) P) -> returns (decode_value b f) P.
Proof.
  intros H Hf. unfold decode_value. destruct b as [|x b]; [done|]. cbn [hd_error ok_or mbind result_bind].
  destruct (Z.leb_spec x 0x7f); [apply Hf; inversion_clear H; by constructor|].
  destruct (Z.leb_spec x 0xb7); [|destruct (Z.leb_spec x 0xbf); [|done]].
  - destruct (Z.ltb_spec (len (x :: b)) (1 + x - 0x80)); [done|].
    eapply returns_bind; [apply slice_safe; auto; lia|]. intros d [Ld Hd].
    eapply (returns_bind _ _ (fun _ => True)); [|intros [] _; [done|by apply Hf]].
    destruct (Z.eqb_spec x 0x81); [|done]. eapply returns_bind; [apply index_safe; lia|]. done.
  - destruct (Z.ltb_spec (len (x :: b)) (1 + (x - 0xb7))); [done|].
    eapply returns_bind; [apply slice_safe; auto; lia|]. intros d [Ld Hd].
    eapply returns_bind; [apply decode_usize_safe; [destruct d; [cbn in *; lia|done]|done]|]. intros n [Hn _].
    destruct (Z.leb_spec (2 ^ 64) (1 + (x - 0xb7) + n)); [done|].
    destruct (Z.ltb_spec (len (x :: b)) (1 + (x - 0xb7) + n)); [done|].
    eapply returns_bind; [apply slice_safe; auto; lia|]. intros e [Le He]. by apply Hf.
Qed.

Lemma readable_new b : Forall is_byte b -> len b < 2 ^ 63 -> readable (Rlp_new b).
Proof. done. Qed.

Lemma consume_items_safe b k c :
  Forall is_byte b -> 0 <= c -> c + len b < 2 ^ 63 ->
  returns (consume_items b k c) (fun p => Forall is_byte p.1 /\ c + Z.of_nat k <= p.2 /\ p.2 + len p.1 = c + len b).
Proof.
  revert b c. induction k as [|k IH]; intros b c H Hc Hb; cbn [consume_items]; [cbn; split; [done|lia]|].
  eapply returns_bind; [by apply payload_info_safe|]. intros pi (H1 & H2 & H3 & _).
  unfold consume. rewrite (proj2 (Z.leb_le _ _)) by lia. cbn [mbind result_bind].
  rewrite wrap_id by (unfold is_u; lia).
  eapply returns_weaken; [apply IH; [by apply Forall_drop|lia|rewrite length_drop; lia]|].
  intros [b' c'] (G1 & G2 & G3). rewrite length_drop in G3. cbn in *. split; [done|]. lia.
Qed.

Lemma search_start_safe r i :
  readable r -> is_list r = true -> 0 <= i ->
  returns (search_start r i) (fun p => let '(b, skip, off) := p in
    Forall is_byte b /\ 0 <= skip /\ i <= skip + off /\ 0 <= off /\ off + len b <= len (as_raw r)).
Proof.
  intros (Hb & Hl & Hc) Hlist Hi.
  assert (returns (p ← consume_list_payload (as_raw r); Ok (p.1, i, p.2)) (fun p => let '(b, skip, off) := p in
    Forall is_byte b /\ 0 <= skip /\ i <= skip + off /\ 0 <= off /\ off + len b <= len (as_raw r))) as H0.
  { unfold consume_list_payload.
    assert (returns (item ← payload_info (as_raw r);
      if len (as_raw r) <? header_len item + value_len item then Err RlpIsTooShort
      else payload ← slice (header_len item) (header_len item + value_len item) (as_raw r); Ok (payload, header_len item))
      (fun p => Forall is_byte p.1 /\ 0 <= p.2 /\ p.2 + len p.1 <= len (as_raw r))) as H1.
    { eapply returns_bind; [by apply payload_info_safe|]. intros pi (P1 & P2 & P3 & _).
      rewrite (proj2 (Z.ltb_ge _ _)) by lia. eapply returns_bind; [apply slice_safe; auto; lia|].
      intros d [Ld Hd]. cbn. split; [done|]. lia. }
    eapply returns_bind; [exact H1|]. intros [b o] (G1 & G2 & G3). cbn in *. repeat split; auto; lia. }
  unfold search_start. destruct (offset_cache r) as [c|]; [|done]. destruct (Z.leb_spec (cache_index c) i); [|done].
  destruct (Hc c eq_refl) as [C1 C2]. unfold consume. rewrite (proj2 (Z.leb_le _ _)) by lia. cbn.
  rewrite length_drop. repeat split; [by apply Forall_drop|lia..].
Qed.

(** Asking for an item: no panic, the view stays readable, and an item found
    lies inside the view, behind at least as many bytes as items. *)
Lemma at_safe r i :
  readable r -> 0 <= i ->
  returns (fst (at_with_offset i r)) (fun p => readable p.1 /\ i < len (as_raw r)) /\
  readable (snd (at_with_offset i r)) /\ as_raw (snd (at_with_offset i r)) = as_raw r.
Proof.
  intros Hr Hi. unfold at_with_offset. destruct (is_list r) eqn:El; cbn [negb]; [|done].
  pose proof (search_start_safe r i Hr El Hi) as Hs. pose proof Hr as (Hb & Hl & Hc).
  unfold mbind, stM_bind, lift, modify, mret, stM_ret.
  destruct (search_start r i) as [[[b skip] off]|e|]; [|done..]. destruct Hs as (S1 & S2 & S3 & S4 & S5).
  pose proof (consume_items_safe b (Z.to_nat skip) 0 S1 ltac:(lia) ltac:(lia)) as Hk.
  destruct (consume_items b (Z.to_nat skip) 0) as [[b' c]|e|]; [|done..]. cbn in Hk. destruct Hk as (K1 & K2 & K3).
  rewrite wrap_id by (unfold is_u; lia). rewrite Z2Nat.id in K2 by lia.
  assert (readable (set_offset_cache (mkOffsetCache i (off + c)) r)) as Hr'.
  { split; [done|]. split; [done|]. intros x [= <-]. cbn. lia. }
  pose proof (payload_info_safe b' K1) as Hp. destruct (payload_info b') as [pi|e|]; [|done..].
  destruct Hp as (P1 & P2 & P3 & _).
  pose proof (slice_safe (E:=DecoderError) 0 (header_len pi + value_len pi) b' ltac:(lia) ltac:(lia) K1) as Hd.
  destruct (slice 0 (header_len pi + value_len pi) b') as [d|e|]; [|done..]. destruct Hd as [Ld Hd]. cbn.
  split; [|done]. split; [apply readable_new; [done|lia]|lia].
Qed.

Lemma next_safe r i :
  readable r -> 0 <= i ->
  returns (fst (next i r)) (fun o => forall item, o = Some item -> readable item /\ i < len (as_raw r)) /\
  readable (snd (next i r)) /\ as_raw (snd (next i r)) = as_raw r.
Proof.
  intros Hr Hi. destruct (at_safe r i Hr Hi) as (H1 & H2 & H3). unfold next, item_at, mbind, stM_bind, mret, stM_ret.
  destruct (at_with_offset i r) as [[[item o]|e|] r']; cbn in *; [|by auto|done].
  split; [|done]. by intros it [= <-].
Qed.

Lemma count_items_safe fuel i r :
  readable r -> 0 <= i <= len (as_raw r) -> len (as_raw r) < i + Z.of_nat fuel ->
  returns (fst (count_items fuel i r)) (fun n => 0 <= n <= len (as_raw r)) /\
  readable (snd (count_items fuel i r)) /\ as_raw (snd (count_items fuel i r)) = as_raw r.
Proof.
  revert i r. induction fuel as [|fuel IH]; intros i r Hr Hi Hf; [lia|]. cbn [count_items].
  destruct (next_safe r i Hr ltac:(lia)) as (H1 & H2 & H3). unfold mbind, stM_bind.
  destruct (next i r) as [[[item|]|e|] r']; cbn [fst snd returns] in *; [|by split|by split|done].
  destruct (H1 item eq_refl). rewrite <- H3 in *. apply IH; [done|lia|lia].
Qed.
Lemma item_count_safe r :
  readable r -> returns (fst (item_count r)) (fun _ => True) /\ readable (snd (item_count r)).
Proof.
  intros Hr. unfold item_count. destruct (is_list r); [|done]. destruct (count_cache r); [done|].
  destruct (count_items_safe (S (length (as_raw r))) 0 r Hr) as (H1 & H2 & _); [lia..|].
  unfold mbind, stM_bind. destruct (count_items _ 0 r) as [[n|e|] r']; cbn in *; auto.
Qed.

(** A type whose decoder does not panic on untrusted bytes. *)
Class SafeDecodable (A : Type) `{Decodable A} :=
  decode_safe r : readable r -> returns (fst (rlp_decode r)) (fun _ : A => True).

Lemma collect_items_safe `{SafeDecodable A} fuel i r :
  readable r -> 0 <= i <= len (as_raw r) -> len (as_raw r) < i + Z.of_nat fuel ->
  returns (fst (collect_items (A:=A) fuel i r)) (fun _ => True).
Proof.
  revert i r. induction fuel as [|fuel IH]; intros i r Hr Hi Hf; [lia|]. cbn [collect_items].
  destruct (next_safe r i Hr ltac:(lia)) as (H1 & H2 & H3). unfold mbind, stM_bind, lift.
  destruct (next i r) as [[[item|]|e|] r']; cbn [fst snd returns] in *; [|done..].
  destruct (H1 item eq_refl) as [Hit Hlt]. pose proof (decode_safe (A:=A) item Hit) as Hd. unfold as_val.
  destruct (fst (rlp_decode item)); cbn [fst returns] in *; [|done..].
  specialize (IH (i + 1) r' H2 ltac:(rewrite H3; lia) ltac:(rewrite H3; lia)).
  by destruct (collect_items fuel (i + 1) r') as [[l|e|] r''].
Qed.
Lemma as_list_safe `{SafeDecodable A} r : readable r -> returns (fst (as_list (A:=A) r)) (fun _ => True).
Proof. intros Hr. apply collect_items_safe; [done|lia..]. Qed.

#[export] Instance bytes_safe : SafeDecodable bytes.
Proof. intros r (Hb & _). by apply decode_value_safe. Qed.
Lemma u8_decode_safe b : Forall is_byte b -> returns (u8_decode b) (fun _ => True).
Proof.
  intros Hb. apply decode_value_safe; [done|]. intros [|x [|y d]] _; try done. by destruct (negb (x =? 0)).
Qed.
#[export] Instance bool_safe : SafeDecodable bool.
Proof.
  intros r (Hb & _). cbn. eapply returns_bind; [by apply u8_decode_safe|]. intros n _.
  by destruct (n =? 0), (n =? 1).
Qed.
#[export] Instance unsigned_safe n : SafeDecodable (unsigned n).
Proof.
  intros r (Hb & _). unfold rlp_decode, unsigned_Decodable. cbn [fst]. apply returns_fmap.
  assert (returns (uint_decode n (as_raw r)) (fun _ => True)) as Hu.
  { apply decode_value_safe; [done|]. intros d Hd. destruct (Nat.leb_spec (length d) 1); [by apply u8_decode_safe|].
    destruct (length d <=? n)%nat; [|done]. eapply returns_bind; [apply index_safe; lia|]. intros x _. by destruct (x =? 0). }
  destruct n as [|[|n]]; [done|by apply u8_decode_safe|done].
Qed.
#[export] Instance text_safe : SafeDecodable text.
Proof. intros r (Hb & _). apply decode_value_safe; [done|]. intros d _. by destruct (from_utf8 d). Qed.
#[export] Instance limbs_safe nw : SafeDecodable (limbs nw).
Proof.
  intros r (Hb & _). apply decode_value_safe; [done|]. intros d Hd.
  assert (returns (if (length d <=? nw * 8)%nat then mk_limbs (nw:=nw) <$> from_big_endian nw d else Err RlpIsTooBig) (fun _ => True)) as H.
  { destruct (Nat.leb_spec (length d) (nw * 8)); [|done]. apply returns_fmap. unfold from_big_endian.
    by rewrite (proj2 (Nat.ltb_ge _ _)) by lia. }
  by destruct d as [|[] d].
Qed.
#[export] Instance hash_safe size : SafeDecodable (fixed_hash size).
Proof. intros r (Hb & _). apply decode_value_safe; [done|]. intros d _. by destruct (Nat.compare (length d) size). Qed.
#[export] Instance option_safe `{SafeDecodable A} : SafeDecodable (option A).
Proof.
  intros r Hr. unfold rlp_decode, option_Decodable. destruct (item_count_safe r Hr) as [H1 H2].
  unfold mbind, stM_bind. destruct (item_count r) as [[n|e|] r']; cbn [fst snd returns] in *; [|done..].
  destruct (n =? 1); [|by destruct (n =? 0)]. destruct (at_safe r' 0 H2 ltac:(lia)) as (A1 & _).
  unfold val_at, item_at, mbind, stM_bind, mret, stM_ret, lift. destruct (at_with_offset 0 r') as [[[it o]|e|] r'']; cbn [fst snd returns] in *; [|done..].
  pose proof (decode_safe (A:=A) it (proj1 A1)) as Hd. unfold as_val. by destruct (fst (rlp_decode it)).
Qed.

#[export] Instance value_safe s : SafeDecodable (value_of s).
Proof.
  induction s as [| |n|nw|size| |s IH];
    [exact bytes_safe|exact bool_safe|exact (unsigned_safe (S n))|exact (limbs_safe (S nw))|exact (hash_safe size)|exact text_safe|].
  exact (option_safe (A:=value_of s)).
Qed.

Lemma data_safe r : readable r -> returns (data r) (fun _ => True) /\ returns (size r) (fun _ => True).
Proof.
  intros (Hb & _). pose proof (payload_info_safe _ Hb) as Hp. unfold data, size. split.
  - eapply returns_bind; [exact Hp|]. intros pi (P1 & P2 & P3 & _).
    eapply returns_weaken; [apply slice_safe; auto; lia|done].
  - destruct (is_data r); [|done]. by destruct (payload_info (as_raw r)).
Qed.
Lemma prototype_safe r : readable r -> returns (fst (prototype r)) (fun _ => True).
Proof.
  intros Hr. destruct (data_safe r Hr) as [_ Hs]. destruct (item_count_safe r Hr) as [Hc _].
  unfold prototype, mbind, stM_bind, lift, mret, stM_ret.
  destruct (is_data r); [by destruct (size r)|]. destruct (is_list r); [|done].
  by destruct (item_count r) as [[n|e|] r'].
Qed.
(** [is_int] reads the second byte without asking whether there is one. *)
Lemma is_int_panic r : is_int r = Panic <-> exists b, as_raw r = [b] /\ 0x80 < b <= 0xb7.
Proof.
  unfold is_int. destruct (as_raw r) as [|b l]; [split; [done|by intros (b & E & _)]|].
  destruct (Z.leb_spec b 0x80); [split; [done|intros (x & [= <- _] & Hx); lia]|].
  destruct (Z.leb_spec b 0xb7).
  - unfold index. destruct l as [|y l]; cbn; [|split; [done|by intros (x & [=] & _)]].
    split; [intros _; exists b; split; [done|lia]|done].
  - split; [|intros (x & [= <- _] & Hx); lia]. destruct (Z.leb_spec b 0xbf); [|done].
    destruct (Z.ltb_spec (1 + b - 0xb7) (Z.of_nat (length (b :: l)))); [|done].
    unfold index. destruct (lookup_lt_is_Some_2 (b :: l) (Z.to_nat (1 + b - 0xb7))) as [x ->]; [lia|]. done.
Qed.

(** ** Theorems *)

(** C34 The streaming encoder computes the recursive encoding.  Whatever the
    nesting, [begin_list] with the number of items and one [append] per item
    leave exactly the bytes of [rlp]: every prefix is inserted once, in the right
    place, with the length of its final payload.  A list opened with
    [begin_unbounded_list] and closed by hand gives the same bytes. *)
Theorem stream_refines (t : item) :
  fits t ->
  encode t = Ok (rlp t) /\
  forall l, t = RList l ->
    (s ← exec (_ ← begin_unbounded_list; _ ← for_each l append; finalize_unbounded_list) RlpStream_new; out s) = Ok (rlp t).
Proof.
  intros Ht. split; [by apply (encode_ok (to_item:=id) t)|]. intros l ->.
  pose proof (unbounded_appends rlp_append id l) as Hu. rewrite list_fmap_id in Hu.
  unfold exec, append. rewrite Hu; [done| |done|apply new_open]. apply Forall_true. intros x. by apply (encodes_as (to_item:=id) x).
Qed.
Definition demo_tree : item :=
  RList [RData [1]; RList []; RList [RData (replicate 60 0xff); RList [RData []; RData [0x80]]]].
Example stream_refines_witness : encode demo_tree = Ok (rlp demo_tree).
Proof. refine (proj1 (stream_refines demo_tree _)). vm_compute. reflexivity. Defined.

(** C35 Encoding and decoding are inverse.  For every type the crates implement
    (byte strings, booleans, machine integers, big integers, hashes, strings of
    any chars, options of such) a list of values and each of its values read back
    as they were written, when the encoding of the list is shorter than [2^32]
    bytes. *)
Theorem rlp_roundtrip (s : shape) (l : list (value_of s)) :
  Forall (valid_of s) l -> fits (RList (item_of s <$> l)) ->
  (exists b, encode_list l = Ok b /\ decode_list b = Ok l) /\
  Forall (fun a => exists b, encode a = Ok b /\ decode b = Ok a) l.
Proof.
  intros Hl Hf. destruct (fits_list _ Hf) as [Hfits _].
  assert (Forall (fun a => valid_of s a /\ fits (item_of s a)) l) as Hall.
  { rewrite Forall_fmap in Hfits. apply Forall_lookup. intros i a Hi.
    split; [exact (Forall_lookup_1 _ _ _ _ Hl Hi)|exact (Forall_lookup_1 _ _ _ _ Hfits Hi)]. }
  split; [|revert Hall; apply Forall_impl; intros a [Ha Fa]; eexists; split;
    [by apply (encode_ok (to_item:=item_of s) (valid:=valid_of s))|by apply (codec_decodes (RlpCodec:=value_codec s))]].
  eexists. split; [by apply (encode_list_ok (to_item:=item_of s) (valid:=valid_of s))|].
  unfold decode_list. rewrite (as_list_ok _ Hf l); [done| |apply view_new].
  clear - Hall. induction Hall as [|a l [Ha Fa] _ IH]; [constructor|].
  constructor; [by apply (codec_decodes (RlpCodec:=value_codec s))|exact IH].
Qed.
(** An optional string with a char outside of ASCII, and none. *)
Example rlp_roundtrip_witness :
  let l : list (value_of (SOption SText)) := [Some (mk_text [0x41; 0x20AC; 0x1F980]); None] in
  (exists b, encode_list l = Ok b /\ decode_list b = Ok l) /\
  Forall (fun a => exists b, encode a = Ok b /\ decode b = Ok a) l.
Proof.
  cbv zeta. apply (rlp_roundtrip (SOption SText)); [|vm_compute; reflexivity].
  constructor; [intros a [= <-]; repeat constructor; unfold is_char; lia|].
  constructor; [discriminate|constructor].
Defined.

(** C36 Reading untrusted bytes never panics and always ends, but for [is_int].
    On any byte string shorter than [2^63], in every state its caches reach, and
    for every type the crates implement, [item_count], [at], [val_at], [list_at],
    [as_val], [as_list], [data], [size] and [prototype] return a value or a
    [DecoderError]; counting and collecting need no more steps than there are
    bytes, and the view stays readable after [item_count] and [at].  [is_int]
    panics exactly on a single byte between 0x81 and 0xb7. *)
Theorem untrusted_input_safe (s : shape) (r : Rlp) (i : Z) :
  readable r -> 0 <= i ->
  (fst (item_count r) <> Panic /\ readable (snd (item_count r))) /\
  (fst (item_at i r) <> Panic /\ readable (snd (item_at i r))) /\
  fst (val_at (A:=value_of s) i r) <> Panic /\ fst (list_at (A:=value_of s) i r) <> Panic /\
  as_val (A:=value_of s) r <> Panic /\ fst (as_list (A:=value_of s) r) <> Panic /\
  data r <> Panic /\ size r <> Panic /\ fst (prototype r) <> Panic /\
  (is_int r = Panic <-> exists b, as_raw r = [b] /\ 0x80 < b <= 0xb7).
Proof.
  intros Hr Hi. destruct (item_count_safe r Hr) as [C1 C2]. destruct (at_safe r i Hr Hi) as (A1 & A2 & _).
  destruct (data_safe r Hr) as [D1 D2]. pose proof (returns_no_panic _ _ (prototype_safe r Hr)) as P1.
  apply returns_no_panic in D1, D2. pose proof (is_int_panic r) as I1.
  assert (forall x, readable x -> as_val (A:=value_of s) x <> Panic /\ fst (as_list (A:=value_of s) x) <> Panic) as Hd.
  { intros x Hx. split; [exact (returns_no_panic _ _ (decode_safe x Hx))|exact (returns_no_panic _ _ (as_list_safe x Hx))]. }
  split; [exact (conj (returns_no_panic _ _ C1) C2)|].
  unfold val_at, list_at, item_at, mbind, stM_bind, mret, stM_ret, lift.
  destruct (at_with_offset i r) as [[[it o]|e|] r']; cbn [fst snd returns] in *; [| |done].
  - destruct (Hd it (proj1 A1)), (Hd r Hr). by repeat (split; [done|]).
  - destruct (Hd r Hr). by repeat (split; [done|]).
Qed.
Example untrusted_input_safe_witness :
  fst (item_at 3 (Rlp_new [0xf9; 0xff; 0xff; 0x01])) <> Panic /\
  as_val (A:=option (limbs 4)) (Rlp_new [0xf9; 0xff; 0xff; 0x01]) <> Panic.
Proof.
  destruct (untrusted_input_safe (SOption (SLimbs 3)) (Rlp_new [0xf9; 0xff; 0xff; 0x01]) 3) as (_ & H1 & _ & _ & H2 & _).
  - apply readable_new; [repeat constructor; vm_compute; congruence|vm_compute; reflexivity].
  - lia.
  - exact (conj (proj1 H1) H2).
Defined.

(** ** What the code does not promise *)

(** The cached search runs on the whole slice, not on the payload of the list:
    with bytes after the list, iterating finds an item that asking for it does not. *)
Example iterator_reads_past_list :
  fst (item_count (Rlp_new [0xc1; 1; 2])) = Ok 2 /\ fst (item_at 1 (Rlp_new [0xc1; 1; 2])) = Err RlpIsTooShort.
Proof. by vm_compute. Qed.

(** [decode_value] accepts a length of its own for a string that needs none,
    which [payload_info] refuses. *)
Example long_form_accepted :
  decode (A:=bytes) [0xb8; 1; 5] = Ok [5] /\ payload_info [0xb8; 1; 5] = Err RlpInvalidIndirection.
Proof. by vm_compute. Qed.

(** [is_int] reads the second byte without asking whether there is one. *)
Example is_int_panics : is_int (Rlp_new [0x81]) = Panic.
Proof. done. Qed.

(** [estimate_size] leaves out that the prefix of an inner list lengthens the
    outer one, so [append_raw_checked] can exceed its limit. *)
Definition overflowing_append : stream bool :=
  _ ← begin_list 2; _ ← append (A:=bytes) (replicate 53 1); _ ← begin_list 1;
  append_raw_checked (replicate 200 1) 1 258.
Example estimate_size_short :
  let '(r, s) := overflowing_append RlpStream_new in r = Ok true /\ is_finished s = true /\ len (buffer s) = 259.
Proof. by vm_compute. Qed.
