(* ===== verification/Hex.v ===== *)
(** * Hexadecimal text

    Sources: src/common/hex/src/lib.rs, the serde helpers of
    src/common/primitive-types/impls/serde and the hexadecimal implementations of
    the big integers in src/common/primitive-types/src/lib.rs.

    Text is the list of its bytes.  The encoder writes into a scratch buffer and
    returns the part it has written, so only the length of the buffer matters
    ([encode_to_slice]); the decoder writes into a buffer of its caller, which
    it leaves changed also when it fails ([decode_to_slice]). *)
From S2P Require Import Prelude Uint UintProofs.

Abbreviation len l := (Z.of_nat (length l)).

(** ** Encoding *)

Definition CHARS : str := lit "0123456789abcdef".
Definition hex_char (nibble : Z) : Z := nth (Z.to_nat nibble) CHARS 0.
Definition hex_pair (byte : Z) : str := [hex_char (Z.shiftr byte 4); hex_char (Z.land byte 0xf)].

(** [encode_to_slice]: the assertion leaves room for every character written. *)
Definition encode_to_slice {E} (v_len : Z) (b : bytes) (skip_leading_zero : bool) : result E str :=
  if 1 + len b * 2 <? v_len then
    match b with
    | [] => Panic
    | first :: rest =>
        let first_nibble := Z.shiftr first 4 in
        Ok (lit "0x" ++
            (if negb (first_nibble =? 0) || negb skip_leading_zero then [hex_char first_nibble] else []) ++
            [hex_char (Z.land first 0xf)] ++ flat_map hex_pair rest)
    end
  else Panic.

(** [bytes[non_zero..]] with [non_zero] leading zero bytes *)
Fixpoint skip_zeros (b : bytes) : bytes :=
  match b with
  | x :: rest => if x =? 0 then skip_zeros rest else b
  | [] => []
  end.

Definition hex_encode {E} (b : bytes) (skip_leading_zero : bool) : result E str :=
  let b := if skip_leading_zero then skip_zeros b else b in
  match b with
  | [] => Ok (if skip_leading_zero then lit "0x0" else lit "0x")
  | _ => encode_to_slice ((len b + 1) * 2) b skip_leading_zero
  end.
Definition encode_raw {E} (b : bytes) : result E str :=
  match b with [] => Ok (lit "0x") | _ => hex_encode b false end.
Definition encode_uint {E} (b : bytes) : result E str :=
  match skip_zeros b with [] => Ok (lit "0x0") | b => hex_encode b true end.

(** ** Decoding *)

Inductive FromHexError :=
| MissingPrefix
| InvalidLength
| InvalidHex (character index : Z).

(** [v.strip_prefix("0x")], and whether there was one *)
Definition strip_0x (v : str) : str * bool :=
  match v with 48 :: 120 :: v' => (v', true) | _ => (v, false) end.

(** The value of a digit: [b'A'..=b'F'], [b'a'..=b'f'], [b'0'..=b'9'] *)
Definition hex_digit (byte : Z) : option Z :=
  if in_range 65 70 byte then Some (byte - 65 + 10)
  else if in_range 97 102 byte then Some (byte - 97 + 10)
  else if in_range 48 57 byte then Some (byte - 48)
  else None.
Definition is_blank (byte : Z) : bool := (byte =? 32) || (byte =? 13) || (byte =? 10) || (byte =? 9).

(** [bytes[pos] = buf] *)
Definition put_byte (pos buf : Z) : stM bytes FromHexError unit := fun b =>
  if (0 <=? pos) && (pos <? len b) then (Ok tt, <[Z.to_nat pos := buf]> b) else (Panic, b).

Fixpoint decode_loop (stripped : bool) (v : str) (index buf modulus pos : Z) : stM bytes FromHexError Z :=
  match v with
  | [] => mret pos
  | byte :: v =>
      let buf := u8 (Z.shiftl buf 4) in
      match hex_digit byte with
      | Some d =>
          let buf := Z.lor buf d in
          if modulus + 1 =? 2 then
            _ ← put_byte pos buf; decode_loop stripped v (index + 1) buf 0 (pos + 1)
          else decode_loop stripped v (index + 1) buf (modulus + 1) pos
      | None =>
          if is_blank byte then decode_loop stripped v (index + 1) (Z.shiftr buf 4) modulus pos
          else lift (Err (InvalidHex byte (index + if stripped then 2 else 0)))
      end
  end.
Definition decode_to_slice (v : str) (stripped : bool) : stM bytes FromHexError Z :=
  decode_loop stripped v 0 0 (len v mod 2) 0.

Definition hex_decode (v : str) : result FromHexError bytes :=
  let '(v, stripped) := strip_0x v in
  exec (decode_to_slice v stripped) (replicate (Z.to_nat ((len v + 1) / 2)) 0).

(** ** Vectors, integers and arrays (lib.rs) *)

Definition vec_encode_hex {E} (b : bytes) : result E str := hex_encode b true.
Definition vec_from_hex (v : str) : result FromHexError bytes := hex_decode v.

(** The loop [for i in start_index..$len { raw[i] = iter.next().ok_or(..)? }]:
    [$len - decoded.len()] wraps in a release build, and the range is then
    empty.  [start_index] is [$len - decoded.len()], so [iter] does not run out. *)
Definition fill_raw (n : nat) (decoded : bytes) : bytes :=
  let start_index := usize (Z.of_nat n - len decoded) in
  if start_index <? Z.of_nat n then replicate (Z.to_nat start_index) 0 ++ decoded
  else replicate n 0.

(** [impl_hex_uint!($name, $len)]: a machine integer of [n] bytes. *)
Definition uint_encode_hex {E} (n : nat) (a : Z) : result E str := encode_uint (to_be n a).
Definition uint_from_hex (n : nat) (v : str) : result FromHexError Z :=
  decoded ← hex_decode v; Ok (from_be (fill_raw n decoded)).

(** [impl_hex_primitives!($name, $len)]: a big integer of [nw] words. *)
Definition big_encode_hex {E} (a : uint) : result E str := hex_encode (to_big_endian a) true.
Definition big_from_hex (nw : nat) (v : str) : result FromHexError uint :=
  decoded ← hex_decode v; from_big_endian nw (fill_raw (nw * 8) decoded).

(** [from_hex_array_impl!]: an array of [n] bytes. *)
Definition array_encode_hex {E} (b : bytes) : result E str := hex_encode b false.
Definition array_from_hex (n : nat) (hex : str) : result FromHexError bytes :=
  exec (decode_to_slice hex false) (replicate n 0).

(** ** Serde (impls/serde) *)

Definition serialize_raw {E} (slice_len : Z) (b : bytes) : result E str :=
  match b with [] => Ok (lit "0x") | _ => encode_to_slice slice_len b false end.
Definition serialize_bytes {E} (b : bytes) : result E str := serialize_raw ((len b + 1) * 2) b.
Definition serialize_uint {E} (slice_len : Z) (b : bytes) : result E str :=
  match skip_zeros b with [] => Ok (lit "0x0") | b => encode_to_slice slice_len b true end.

(** The buffer of [ExpectedLen] is given by its length. *)
Inductive ExpectedLen := Exact (n : nat) | Between (min n : nat).
Inductive SerdeError := invalid_length (n : Z) | custom (e : FromHexError).

Definition deserialize_bytes (v : str) : result SerdeError bytes :=
  match hex_decode v with Ok b => Ok b | Err e => Err (custom e) | Panic => Panic end.
(** [deserialize_check_len]: the buffer and the number of bytes written *)
Definition deserialize_check_len (v : str) (expected : ExpectedLen) : result SerdeError (bytes * Z) :=
  let '(v, stripped) := strip_0x v in
  let is_len_valid :=
    match expected with
    | Exact n => len v =? 2 * Z.of_nat n
    | Between min n => (len v <=? 2 * Z.of_nat n) && (2 * Z.of_nat min <? len v)
    end in
  if negb is_len_valid then Err (invalid_length (len v))
  else
    let n := match expected with Exact n => n | Between _ n => n end in
    match decode_to_slice v stripped (replicate n 0) with
    | (Ok wrote, b) => Ok (b, wrote)
    | (Err e, _) => Err (custom e)
    | (Panic, _) => Panic
    end.

(** [impl_uint_serde!] and [impl_fixed_hash_serde!] *)
Definition uint_serialize {E} (a : uint) : result E str :=
  serialize_uint (2 + 2 * len a * 8) (to_big_endian a).
Definition uint_deserialize (nw : nat) (v : str) : result SerdeError uint :=
  '(b, wrote) ← deserialize_check_len v (Between 0 (nw * 8));
  from_big_endian nw (take (Z.to_nat wrote) b).
Definition hash_serialize {E} (h : bytes) : result E str := serialize_raw (2 + 2 * len h) h.
Definition hash_deserialize (n : nat) (v : str) : result SerdeError bytes :=
  fst <$> deserialize_check_len v (Exact n).

(** ** Proofs *)

Create HintDb hex.

Lemma nibble_range b : is_byte b -> 0 <= Z.shiftr b 4 < 16 /\ 0 <= Z.land b 0xf < 16 /\
  b = Z.shiftr b 4 * 16 + Z.land b 0xf.
Proof.
  intros Hb. unfold is_byte, is_u in Hb. change 0xf with (Z.ones 4).
  rewrite Z.shiftr_div_pow2, Z.land_ones by lia. change (2 ^ 4) with 16. change (2 ^ 8) with 256 in Hb. dlia.
Qed.
Lemma hex_digit_char n : 0 <= n < 16 -> hex_digit (hex_char n) = Some n /\ hex_char n <> 120.
Proof.
  intros H. assert (Forall (fun n => hex_digit (hex_char n) = Some n /\ hex_char n <> 120) (seqZ 0 16)) as F
    by (repeat constructor; done).
  apply (proj1 (Forall_forall _ _) F), list_elem_of_In, elem_of_seqZ. lia.
Qed.
Lemma shift_digit buf d : 0 <= d < 16 -> is_byte buf ->
  Z.lor (u8 (Z.shiftl buf 4)) d = buf mod 16 * 16 + d.
Proof.
  intros Hd Hb. rewrite Z.shiftl_mul_pow2 by lia. unfold wrap.
  replace ((buf * 2 ^ 4) mod 2 ^ 8) with (buf mod 16 * 2 ^ 4); [apply lor_low; lia|].
  change (2 ^ 8) with (16 * 2 ^ 4). by rewrite Z.mul_mod_distr_r.
Qed.
Lemma digit_byte buf d : 0 <= d < 16 -> is_byte buf -> is_byte (buf mod 16 * 16 + d).
Proof. intros. unfold is_byte, is_u. change (2 ^ 8) with 256. dlia. Qed.

Lemma put_byte_ok pre x post pos v :
  pos = len pre -> put_byte pos v (pre ++ x :: post) = (Ok tt, pre ++ v :: post).
Proof.
  intros ->. unfold put_byte. rewrite length_app. cbn [length].
  rewrite (proj2 (Z.leb_le _ _)), (proj2 (Z.ltb_lt _ _)) by lia. cbn [andb].
  rewrite Nat2Z.id. rewrite <- (Nat.add_0_r (length pre)) at 1. by rewrite insert_app_r.
Qed.

(** Two digits give the byte they were made from. *)
Lemma decode_pairs stripped b pre post index buf pos :
  Forall is_byte b -> is_byte buf -> pos = len pre ->
  decode_loop stripped (flat_map hex_pair b) index buf 0 pos (pre ++ replicate (length b) 0 ++ post) =
  (Ok (pos + len b), pre ++ b ++ post).
Proof.
  intros Hb. revert pre index buf pos. induction Hb as [|x b Hx Hb IH]; intros pre index buf pos Hbuf Hpos.
  { cbn. by rewrite Z.add_0_r. }
  destruct (nibble_range x Hx) as (H1 & H2 & Ex). cbn [flat_map app hex_pair decode_loop length replicate].
  rewrite (proj1 (hex_digit_char _ H1)), (proj1 (hex_digit_char _ H2)). change (0 + 1 =? 2) with false. change (0 + 1 + 1 =? 2) with true. cbv iota.
  rewrite (shift_digit buf _ H1) by done. pose proof (digit_byte buf _ H1 Hbuf) as Hbuf1.
  rewrite (shift_digit _ _ H2) by done.
  replace ((buf mod 16 * 16 + Z.shiftr x 4) mod 16 * 16 + Z.land x 0xf) with x
    by dlia.
  st_step (apply put_byte_ok; exact Hpos). rewrite cons_middle, (app_assoc pre).
  rewrite (IH (pre ++ [x]) _ x (pos + 1)) by (try rewrite length_app; cbn [length]; auto; lia).
  rewrite <- app_assoc. cbn [app length]. do 2 f_equal. lia.
Qed.
Lemma length_pairs b : length (flat_map hex_pair b) = (2 * length b)%nat.
Proof. induction b as [|x b IH]; [done|]. cbn [flat_map]. rewrite length_app, IH. cbn [length hex_pair]. lia. Qed.

(** The text of a nonempty byte string without leading zero byte, with or
    without its leading zero digit. *)
Lemma decode_encoded {E} stripped (skip : bool) x b v_len text post :
  encode_to_slice (E:=E) v_len (x :: b) skip = Ok text -> Forall is_byte (x :: b) ->
  exists v, text = lit "0x" ++ v /\ len v = 2 * len (x :: b) - (if skip && (Z.shiftr x 4 =? 0) then 1 else 0) /\
  decode_to_slice v stripped (replicate (length (x :: b)) 0 ++ post) = (Ok (len (x :: b)), (x :: b) ++ post).
Proof.
  intros H Hb. unfold encode_to_slice in H. destruct (1 + len (x :: b) * 2 <? v_len); [|done].
  injection H as <-. inversion_clear Hb as [|? ? Hx Hb']. destruct (nibble_range x Hx) as (H1 & H2 & Ex).
  unfold decode_to_slice. destruct (skip && (Z.shiftr x 4 =? 0)) eqn:Es.
  - apply andb_true_iff in Es as [-> Hz]. apply Z.eqb_eq in Hz. rewrite Hz. cbn [Z.eqb negb orb app].
    eexists. split; [reflexivity|]. cbn [length]. rewrite length_pairs. split; [lia|].
    replace (Z.of_nat (S (2 * length b)) mod 2) with 1 by dlia. cbn [decode_loop].
    rewrite (proj1 (hex_digit_char _ H2)). change (1 + 1 =? 2) with true. cbv iota.
    rewrite shift_digit by (unfold is_byte, is_u; try lia; done). change (0 mod 16 * 16) with 0. rewrite Z.add_0_l.
    replace (Z.land x 0xf) with x by lia. cbn [replicate app].
    st_step (by apply (put_byte_ok [])). rewrite (decode_pairs stripped b [x] post) by (auto; done).
    cbn [length app]. do 2 f_equal. lia.
  - exists (flat_map hex_pair (x :: b)). rewrite length_pairs. split; [|split; [cbn [length]; lia|]].
    + replace (negb (Z.shiftr x 4 =? 0) || negb skip) with true by (destruct skip, (Z.shiftr x 4 =? 0); done). done.
    + replace (Z.of_nat (2 * length (x :: b)) mod 2) with 0 by dlia.
      rewrite (decode_pairs stripped (x :: b) [] post) by (auto; unfold is_byte, is_u; lia). done.
Qed.

Lemma skip_zeros_spec b :
  exists n, b = replicate n 0 ++ skip_zeros b /\ (forall x l, skip_zeros b = x :: l -> x <> 0).
Proof.
  induction b as [|x b (n & IH & Hn)]; [by exists O|]. cbn [skip_zeros]. destruct (Z.eqb_spec x 0) as [->|Hx].
  - exists (S n). split; [cbn; by f_equal|done].
  - exists O. split; [done|]. by intros y l [= <- _].
Qed.
Lemma skip_zeros_bytes b : Forall is_byte b -> Forall is_byte (skip_zeros b).
Proof.
  intros H. destruct (skip_zeros_spec b) as (n & E & _). rewrite E in H. by apply Forall_app in H as [_ H].
Qed.
Lemma from_be_skip b : from_be (skip_zeros b) = from_be b.
Proof. destruct (skip_zeros_spec b) as (n & E & _). rewrite E at 2. by rewrite from_be_zeros. Qed.
Lemma length_skip b : (length (skip_zeros b) <= length b)%nat.
Proof. destruct (skip_zeros_spec b) as (n & E & _). rewrite E at 2. rewrite length_app. lia. Qed.
Lemma skip_zeros_idem b : skip_zeros (skip_zeros b) = skip_zeros b.
Proof.
  destruct (skip_zeros_spec b) as (n & _ & H). destruct (skip_zeros b) as [|x l]; [done|].
  cbn [skip_zeros]. by rewrite (proj2 (Z.eqb_neq x 0)) by by eapply H.
Qed.

Lemma hex_decode_encoded {E} (skip : bool) x b v_len text :
  encode_to_slice (E:=E) v_len (x :: b) skip = Ok text -> Forall is_byte (x :: b) -> hex_decode text = Ok (x :: b).
Proof.
  intros H Hb. destruct (decode_encoded true skip x b v_len text [] H Hb) as (v & -> & Lv & D).
  unfold hex_decode. change (strip_0x (lit "0x" ++ v)) with (v, true). cbv iota.
  replace (Z.to_nat ((len v + 1) / 2)) with (length (x :: b))
    by (destruct (skip && (Z.shiftr x 4 =? 0)); cbn [length] in *; dlia).
  unfold exec. rewrite app_nil_r in D. by rewrite D, app_nil_r.
Qed.
Lemma encode_to_slice_ok {E} v_len x b skip :
  1 + len (x :: b) * 2 < v_len -> exists text, encode_to_slice (E:=E) v_len (x :: b) skip = Ok text.
Proof. intros H. unfold encode_to_slice. rewrite (proj2 (Z.ltb_lt _ _)) by done. by eexists. Qed.

(** What the decoder does with any text: it fills at most half as many bytes
    as there are characters, and stops at the first one that is neither a digit
    nor blank. *)
Definition hex_valid (c : Z) : bool := if hex_digit c then true else is_blank c.
Definition decode_post (stripped : bool) (index : Z) (v : str) (b : bytes) (r : result FromHexError Z * bytes) : Prop :=
  length (snd r) = length b /\ Forall is_byte (snd r) /\
  match fst r with
  | Ok wrote => Forall (fun c => hex_valid c = true) v /\ 0 <= wrote <= len b
  | Err e => exists i c, e = InvalidHex c (index + Z.of_nat i + if stripped then 2 else 0) /\
      v !! i = Some c /\ hex_valid c = false /\ Forall (fun c => hex_valid c = true) (take i v)
  | Panic => False
  end.

Lemma hex_digit_range c d : hex_digit c = Some d -> 0 <= d < 16.
Proof.
  unfold hex_digit, in_range. intros H. repeat case_match; simplify_eq;
    repeat match goal with H : (_ && _) = true |- _ => apply andb_true_iff in H as [?%Z.leb_le ?%Z.leb_le] end; lia.
Qed.
Lemma put_byte_post pos buf b :
  0 <= pos < len b -> is_byte buf -> Forall is_byte b ->
  exists b', put_byte pos buf b = (Ok tt, b') /\ length b' = length b /\ Forall is_byte b'.
Proof.
  intros Hp Hb H. unfold put_byte. rewrite (proj2 (Z.leb_le _ _)), (proj2 (Z.ltb_lt _ _)) by lia. cbn [andb].
  eexists. split; [reflexivity|]. rewrite length_insert. split; [done|]. by apply Forall_insert.
Qed.
Lemma decode_post_cons stripped index c v b b' r :
  hex_valid c = true -> length b' = length b ->
  decode_post stripped (index + 1) v b' r -> decode_post stripped index (c :: v) b r.
Proof.
  intros Hc Hl (L & B & P). split; [lia|]. split; [done|]. destruct (fst r) as [w|e|]; [| |done].
  - rewrite <- Hl. destruct P. split; [by constructor|done].
  - destruct P as (i & x & -> & Hi & Hx & Ht). exists (S i), x. cbn [take lookup list_lookup].
    split; [f_equal; lia|]. split; [done|]. split; [done|]. by constructor.
Qed.
Lemma decode_loop_post stripped v index buf modulus pos b :
  is_byte buf -> Forall is_byte b -> 0 <= modulus < 2 -> 0 <= pos -> 2 * pos + modulus + len v <= 2 * len b ->
  decode_post stripped index v b (decode_loop stripped v index buf modulus pos b).
Proof.
  revert index buf modulus pos b. induction v as [|c v IH]; intros index buf modulus pos b Hbuf Hb Hm Hp Hl.
  { split; [done|]. split; [done|]. cbn in *. split; [done|lia]. }
  cbn [decode_loop length] in *. destruct (hex_digit c) as [d|] eqn:Ed.
  - assert (hex_valid c = true) as Hc by (unfold hex_valid; by rewrite Ed). apply hex_digit_range in Ed.
    rewrite shift_digit by done. pose proof (digit_byte buf d Ed Hbuf).
    destruct (Z.eqb_spec (modulus + 1) 2).
    + destruct (put_byte_post pos (buf mod 16 * 16 + d) b) as (b' & E & L & B); [lia|done|done|].
      st_step (exact E). apply (decode_post_cons _ _ _ _ _ b'); [done|done|]. apply IH; auto; lia.
    + apply (decode_post_cons _ _ _ _ _ b); [done|done|]. apply IH; auto; lia.
  - destruct (is_blank c) eqn:Eb.
    + apply (decode_post_cons _ _ _ _ _ b); [unfold hex_valid; by rewrite Ed|done|]. apply IH; auto; [|lia].
      pose proof (wrap_bound 8 (Z.shiftl buf 4) ltac:(lia)) as W. unfold is_byte, is_u in *. rewrite Z.shiftr_div_pow2 by lia.
      change (2 ^ 4) with 16. dlia.
    + split; [done|]. split; [done|]. exists O, c. cbn [fst lookup list_lookup take].
      split; [f_equal; lia|]. split; [done|]. split; [unfold hex_valid; by rewrite Ed|constructor].
Qed.
Lemma replicate_bytes n : Forall is_byte (replicate n 0).
Proof. apply Forall_replicate. unfold is_byte, is_u. lia. Qed.
Lemma decode_to_slice_post stripped v b :
  Forall is_byte b -> len v + len v mod 2 <= 2 * len b ->
  decode_post stripped 0 v b (decode_to_slice v stripped b).
Proof. intros. apply decode_loop_post; auto; [unfold is_byte, is_u; lia|dlia|lia|lia]. Qed.

(** Digits beyond the buffer are written out of its range. *)
Lemma decode_loop_overrun stripped v index buf modulus pos b :
  Forall (fun c => hex_digit c <> None) v -> 0 <= modulus < 2 -> 0 <= pos <= len b ->
  2 * len b + 2 <= 2 * pos + modulus + len v ->
  fst (decode_loop stripped v index buf modulus pos b) = Panic.
Proof.
  intros Hv. revert index buf modulus pos b. induction Hv as [|c v Hc Hv IH]; intros index buf modulus pos b Hm Hp Hl.
  { cbn in Hl. lia. }
  cbn [decode_loop length] in *. destruct (hex_digit c) as [d|]; [|done]. destruct (Z.eqb_spec (modulus + 1) 2).
  - unfold mbind, stM_bind, put_byte. destruct (Z.ltb_spec pos (len b)).
    + rewrite (proj2 (Z.leb_le 0 pos)) by lia. cbn [andb]. apply IH; rewrite ?length_insert; lia.
    + by rewrite andb_false_r.
  - apply IH; lia.
Qed.

Lemma strip_0x_index v v' s i : strip_0x v = (v', s) -> v !! (i + if s then 2 else 0)%nat = v' !! i.
Proof.
  unfold strip_0x. intros H. destruct v as [|c1 [|c2 v]]; try (repeat case_match; simplify_eq; by rewrite Nat.add_0_r).
  repeat case_match; simplify_eq; rewrite ?Nat.add_0_r; try done. by rewrite Nat.add_comm.
Qed.

Lemma uint_bytes nw a : is_uint nw a -> is_bytes (8 * nw) (to_big_endian a).
Proof. intros Ha. rewrite (to_big_endian_spec nw) by done. apply is_bytes_to_be. Qed.
Lemma fill_raw_ok n d :
  is_bytes (length d) d -> (length d <= n)%nat -> Z.of_nat n < 2 ^ 64 -> is_bytes n (fill_raw n d) /\ from_be (fill_raw n d) = from_be d.
Proof.
  intros [_ Hd] Hl Hn. unfold fill_raw. rewrite wrap_id by (unfold is_u; lia).
  destruct (Z.ltb_spec (Z.of_nat n - len d) (Z.of_nat n)).
  - rewrite from_be_zeros. split; [|done]. split; [rewrite length_app, length_replicate; lia|].
    apply Forall_app. split; [apply replicate_bytes|done].
  - assert (d = []) as -> by (destruct d; [done|cbn in *; lia]). split; [split; [apply length_replicate|apply replicate_bytes]|].
    rewrite <- (app_nil_r (replicate n 0)). apply from_be_zeros.
Qed.
Lemma fill_raw_long n d : (n < length d)%nat -> len d < 2 ^ 64 -> fill_raw n d = replicate n 0.
Proof.
  intros H Hd. unfold fill_raw. replace (usize (Z.of_nat n - len d)) with (2 ^ 64 + Z.of_nat n - len d).
  - by rewrite (proj2 (Z.ltb_ge _ _)) by lia.
  - unfold wrap. rewrite <- (Z.mod_add _ 1) by lia. rewrite Z.mod_small; lia.
Qed.
Lemma from_be_replicate n : from_be (replicate n 0) = 0.
Proof. rewrite <- (app_nil_r (replicate n 0)). apply from_be_zeros. Qed.

(** ** Theorems *)

(** The bytes a text of [encode] stands for *)
Definition hex_contents (skip : bool) (b : bytes) : bytes :=
  if skip then match skip_zeros b with [] => [0] | l => l end else b.

Lemma encode_nonempty {E} (skip : bool) b :
  (if skip then skip_zeros b else b) <> [] -> Forall is_byte b -> exists text,
  hex_encode (E:=E) b skip = Ok text /\ hex_decode text = Ok (if skip then skip_zeros b else b).
Proof.
  intros Hne Hb. unfold hex_encode. assert (Forall is_byte (if skip then skip_zeros b else b)) as Hs
    by (destruct skip; auto using skip_zeros_bytes).
  destruct (if skip then skip_zeros b else b) as [|x l] eqn:Es; [done|].
  destruct (encode_to_slice_ok (E:=E) ((len (x :: l) + 1) * 2) x l skip) as [text Et]; [lia|].
  exists text. split; [exact Et|]. by eapply hex_decode_encoded.
Qed.

Lemma encode_contents {E} (skip : bool) b :
  Forall is_byte b -> exists text, hex_encode (E:=E) b skip = Ok text /\ hex_decode text = Ok (hex_contents skip b).
Proof.
  intros Hb. destruct (decide ((if skip then skip_zeros b else b) = [])) as [He|Hne].
  - unfold hex_encode, hex_contents. rewrite He. destruct skip; [rewrite He|rewrite He]; by eexists.
  - destruct (encode_nonempty (E:=E) skip b Hne Hb) as (text & E1 & E2). exists text. split; [done|].
    rewrite E2. unfold hex_contents. destruct skip; [by destruct (skip_zeros b)|done].
Qed.

Lemma hex_contents_value b : from_be (hex_contents true b) = from_be b.
Proof. unfold hex_contents. rewrite <- (from_be_skip b). by destruct (skip_zeros b). Qed.
Lemma hex_contents_bytes b : Forall is_byte b -> Forall is_byte (hex_contents true b).
Proof. intros H%skip_zeros_bytes. unfold hex_contents. destruct (skip_zeros b); [|done]. by repeat constructor. Qed.
Lemma hex_contents_length b : b <> [] -> (length (hex_contents true b) <= length b)%nat.
Proof.
  intros H. unfold hex_contents. pose proof (length_skip b). destruct (skip_zeros b), b; cbn in *; try done; lia.
Qed.
Lemma encode_uint_eq {E} b : encode_uint (E:=E) b = hex_encode b true.
Proof.
  unfold encode_uint, hex_encode. rewrite <- (skip_zeros_idem b) at 2.
  destruct (skip_zeros b) as [|x l] eqn:Es; [done|]. by rewrite <- Es, skip_zeros_idem.
Qed.

(** An integer of [n] bytes is read back from its text. *)
Lemma encoded_integer {E} n b :
  is_bytes n b -> (0 < n)%nat -> Z.of_nat n < 2 ^ 64 -> exists text d,
  hex_encode (E:=E) b true = Ok text /\ hex_decode text = Ok d /\
  is_bytes n (fill_raw n d) /\ from_be (fill_raw n d) = from_be b.
Proof.
  intros [L B] Hn Hn64. destruct (encode_contents (E:=E) true b B) as (text & E1 & E2).
  exists text, (hex_contents true b). split; [exact E1|]. split; [exact E2|].
  rewrite <- (hex_contents_value b). apply fill_raw_ok; [split; [done|by apply hex_contents_bytes]| |done].
  rewrite <- L. apply hex_contents_length. intros ->. cbn in L. lia.
Qed.
Lemma uint_from_short {E} nw a b :
  is_uint nw a -> Forall is_byte b -> (length b <= nw * 8)%nat -> from_be b = val a ->
  from_big_endian (E:=E) nw b = Ok a.
Proof.
  intros [La Ha] Hb Hl Hv.
  destruct (from_big_endian_spec (E:=E) nw b (length b)) as (r & -> & [Lr Hr] & Hv'); [done|lia|].
  f_equal. apply val_inj; congruence.
Qed.
Lemma from_be_uint nw a : is_uint nw a -> from_be (to_big_endian a) = val a.
Proof.
  intros Ha. rewrite (to_big_endian_spec nw) by done. apply from_to_be_id.
  replace (8 * Z.of_nat (8 * nw)) with (64 * Z.of_nat nw) by lia. destruct Ha as [<- Ha]. by apply val_bound.
Qed.

(** C39 [hex_decode_encode]: decoding what [encode] prints gives the bytes back;
    when the leading zeros are skipped, those that follow them (and one zero
    byte if there are no others). *)
Theorem hex_decode_encode {E} (skip : bool) b :
  Forall is_byte b -> exists text, hex_encode (E:=E) b skip = Ok text /\ hex_decode text = Ok (hex_contents skip b).
Proof. apply encode_contents. Qed.
Lemma hex_decode_encode_witness :
  exists text, hex_encode (E:=unit) [0; 10; 255] true = Ok text /\ hex_decode text = Ok [10; 255].
Proof. apply (hex_decode_encode true [0; 10; 255]). by repeat constructor. Defined.

Lemma hex_decode_no_panic v : hex_decode v <> Panic.
Proof.
  unfold hex_decode. destruct (strip_0x v) as [v' s]. cbv iota. unfold exec.
  destruct (decode_to_slice_post s v' (replicate (Z.to_nat ((len v' + 1) / 2)) 0)) as (_ & _ & P);
    [apply replicate_bytes|rewrite length_replicate; dlia|].
  destruct (decode_to_slice v' s _) as [[w|e|] b]; done.
Qed.

(** [hex_decode_total]: decoding never panics.  It succeeds exactly when every
    character after the prefix is a digit or blank, with half as many bytes as
    there are characters, rounded up; otherwise it reports the first character
    that is neither and its position in the text. *)
Theorem hex_decode_total v :
  match hex_decode v with
  | Ok b => Forall is_byte b /\ len b = (len (fst (strip_0x v)) + 1) / 2 /\
      Forall (fun c => hex_valid c = true) (fst (strip_0x v))
  | Err e => exists i c, e = InvalidHex c (Z.of_nat i) /\ v !! i = Some c /\ hex_valid c = false
  | Panic => False
  end.
Proof.
  unfold hex_decode. destruct (strip_0x v) as [v' s] eqn:Es. cbv iota. unfold exec. cbn [fst].
  destruct (decode_to_slice_post s v' (replicate (Z.to_nat ((len v' + 1) / 2)) 0)) as (L & B & P);
    [apply replicate_bytes|rewrite length_replicate; dlia|]. rewrite length_replicate in *.
  destruct (decode_to_slice v' s _) as [[w|e|] b]; cbn [fst snd] in *; [| |done].
  - split; [done|]. split; [rewrite L; dlia|apply P].
  - destruct P as (i & c & -> & Hi & Hc & _). exists (i + if s then 2 else 0)%nat, c.
    rewrite (strip_0x_index v v' s i Es). split; [|done]. f_equal. destruct s; lia.
Qed.

(** [uint_hex_roundtrip]: the machine integers read back the hexadecimal text
    they print. *)
Theorem uint_hex_roundtrip {E} n a :
  (0 < n)%nat -> Z.of_nat n < 2 ^ 64 -> is_u (8 * Z.of_nat n) a ->
  exists text, uint_encode_hex (E:=E) n a = Ok text /\ uint_from_hex n text = Ok a.
Proof.
  intros Hn Hn64 Ha. unfold uint_encode_hex, uint_from_hex. rewrite encode_uint_eq.
  destruct (encoded_integer (E:=E) n _ (is_bytes_to_be n a) Hn Hn64) as (text & d & E1 & E2 & _ & E3).
  exists text. split; [exact E1|]. rewrite E2. cbn [mbind result_bind]. cbv beta. rewrite E3. f_equal. by apply from_to_be_id.
Qed.
Lemma uint_hex_roundtrip_witness :
  exists text, uint_encode_hex (E:=unit) 4 48879 = Ok text /\ uint_from_hex 4 text = Ok 48879.
Proof. apply (uint_hex_roundtrip 4 48879); [lia|lia|unfold is_u; lia]. Defined.

(** [big_hex_roundtrip]: the big integers read back the hexadecimal text they
    print. *)
Theorem big_hex_roundtrip {E} nw a :
  (0 < nw)%nat -> Z.of_nat (nw * 8) < 2 ^ 64 -> is_uint nw a ->
  exists text, big_encode_hex (E:=E) a = Ok text /\ big_from_hex nw text = Ok a.
Proof.
  intros Hw Hn Ha. pose proof (uint_bytes nw a Ha) as B. rewrite Nat.mul_comm in B.
  destruct (encoded_integer (E:=E) _ _ B) as (text & d & E1 & E2 & E3 & E4); [lia|done|].
  exists text. split; [exact E1|]. unfold big_from_hex. rewrite E2. cbn [mbind result_bind].
  destruct E3 as [E3 E3']. apply uint_from_short; [done|done|lia|]. by rewrite E4, (from_be_uint nw).
Qed.
Lemma big_hex_roundtrip_witness :
  exists text, big_encode_hex (E:=unit) [5; 0; 0; 7] = Ok text /\ big_from_hex 4 text = Ok [5; 0; 0; 7].
Proof.
  apply (big_hex_roundtrip 4 [5; 0; 0; 7]); [lia|done|]. split; [done|]. repeat constructor; unfold is_u; lia.
Defined.

(** [hex_too_long_is_zero]: a text of more bytes than the integer has is not
    refused: the start index wraps around, nothing is copied and the integer is
    zero. *)
Theorem hex_too_long_is_zero n v d :
  hex_decode v = Ok d -> (n < length d)%nat -> len d < 2 ^ 64 -> uint_from_hex n v = Ok 0.
Proof.
  intros E Hn Hd. unfold uint_from_hex. rewrite E. cbn [mbind result_bind].
  cbv beta. by rewrite fill_raw_long, from_be_replicate by done.
Qed.
Lemma hex_too_long_is_zero_witness : uint_from_hex 1 (lit "0x0001") = Ok 0.
Proof. apply (hex_too_long_is_zero 1 (lit "0x0001") [0; 1]); [done|cbn; lia|cbn; lia]. Defined.

(** [array_never_reads_back]: an array does not read back what it prints: the
    printed prefix is refused at its second character. *)
Theorem array_never_reads_back {E} n b text :
  array_encode_hex (E:=E) b = Ok text -> array_from_hex n text = Err (InvalidHex 120 1).
Proof.
  intros H. assert (exists v, text = 48 :: 120 :: v /\ len v mod 2 = 0) as (v & -> & Hv).
  { unfold array_encode_hex, hex_encode in H. destruct b as [|x l]; [injection H as <-; by exists []|].
    unfold encode_to_slice in H. case_match; [|done]. injection H as <-. rewrite orb_true_r. eexists. split; [reflexivity|].
    cbn [app length]. rewrite length_pairs. dlia. }
  unfold array_from_hex, decode_to_slice, exec. cbn [length].
  replace (Z.of_nat (S (S (length v))) mod 2) with 0 by dlia. done.
Qed.
Lemma array_never_reads_back_witness :
  array_from_hex 2 (lit "0x00ff") = Err (InvalidHex 120 1).
Proof. apply (array_never_reads_back (E:=unit) 2 [0; 255]). reflexivity. Defined.

(** [array_overrun_panics]: more digits than the array has room for are
    written out of its range. *)
Theorem array_overrun_panics n v :
  Forall (fun c => hex_digit c <> None) v -> (2 * n < length v)%nat -> array_from_hex n v = Panic.
Proof.
  intros Hv Hl. unfold array_from_hex, decode_to_slice, exec.
  pose proof (decode_loop_overrun false v 0 0 (len v mod 2) 0 (replicate n 0) Hv) as P. rewrite length_replicate in P.
  rewrite (surjective_pairing (decode_loop _ _ _ _ _ _ _)), P; [done|dlia|lia|dlia].
Qed.
Lemma array_overrun_panics_witness : array_from_hex 1 (lit "abc") = Panic.
Proof. apply (array_overrun_panics 1 (lit "abc")); [by repeat constructor|cbn; lia]. Defined.

(** ** Serde *)

Lemma length_written {A} (l post : list A) : take (Z.to_nat (len l)) (l ++ post) = l.
Proof. by rewrite Nat2Z.id, take_app_length. Qed.

(** A serialized buffer is read back in front of the zeros of a larger one. *)
Lemma check_len_encoded {E} (skip : bool) x b v_len text expected :
  encode_to_slice (E:=E) v_len (x :: b) skip = Ok text -> Forall is_byte (x :: b) ->
  match expected with
  | Exact n => skip = false /\ n = length (x :: b)
  | Between min n => min = O /\ (length (x :: b) <= n)%nat
  end ->
  exists post, deserialize_check_len text expected = Ok ((x :: b) ++ post, len (x :: b)) /\
    (forall n, expected = Exact n -> post = []).
Proof.
  intros H Hb He. set (n := match expected with Exact n => n | Between _ n => n end).
  assert (length (x :: b) <= n)%nat as Hn by (subst n; destruct expected; destruct He; lia).
  destruct (decode_encoded true skip x b v_len text (replicate (n - length (x :: b)) 0) H Hb) as (v & -> & Lv & D).
  exists (replicate (n - length (x :: b)) 0). unfold deserialize_check_len.
  change (strip_0x (lit "0x" ++ v)) with (v, true). cbv iota. fold n.
  rewrite <- replicate_add in D. replace (length (x :: b) + (n - length (x :: b)))%nat with n in D by lia. rewrite D.
  destruct expected as [m|min m]; subst n.
  - destruct He as [-> ->]. cbn [andb] in Lv. rewrite (proj2 (Z.eqb_eq _ _)) by lia. split; [done|]. intros ? [= <-]. by rewrite Nat.sub_diag.
  - destruct He as [-> He]. assert (0 < len v <= 2 * Z.of_nat m) by (cbn [length] in *; case_match; lia).
    rewrite (proj2 (Z.leb_le _ _)), (proj2 (Z.ltb_lt _ _)) by lia. split; [done|]. done.
Qed.

(** [uint_serde_roundtrip]: a big integer is read back from the text it is
    serialized to. *)
Theorem uint_serde_roundtrip {E} nw a :
  (0 < nw)%nat -> is_uint nw a ->
  exists text, uint_serialize (E:=E) a = Ok text /\ uint_deserialize nw text = Ok a.
Proof.
  intros Hw Ha. destruct (uint_bytes nw a Ha) as [L B]. pose proof (from_be_uint nw a Ha) as V.
  pose proof (length_skip (to_big_endian a)) as Ls. pose proof (skip_zeros_bytes _ B) as Bs.
  rewrite <- from_be_skip in V. unfold uint_serialize, serialize_uint, uint_deserialize.
  destruct Ha as [La Ha]. destruct (skip_zeros (to_big_endian a)) as [|x l].
  - eexists. split; [reflexivity|]. unfold deserialize_check_len. change (strip_0x (lit "0x0")) with ([48], true).
    cbv iota. cbn [length]. rewrite (proj2 (Z.leb_le _ _)) by lia. cbn [andb negb Z.ltb Z.compare Z.mul Z.of_nat].
    replace (nw * 8)%nat with (S (nw * 8 - 1)) by lia. cbn [replicate].
    replace (decode_to_slice [48] true (0 :: replicate (nw * 8 - 1) 0))
      with (@Ok FromHexError Z 1, 0 :: replicate (nw * 8 - 1) 0) by done.
    cbn [mbind result_bind]. cbv iota. change (take (Z.to_nat 1) (0 :: _)) with [0].
    apply (uint_from_short nw a [0]); [by split|by repeat constructor|cbn; lia|exact V].
  - destruct (encode_to_slice_ok (E:=E) (2 + 2 * len a * 8) x l true) as [text Et]; [lia|].
    exists text. split; [exact Et|].
    destruct (check_len_encoded true x l _ text (Between 0 (nw * 8)) Et Bs) as (post & -> & _); [split; [done|lia]|].
    cbn [mbind result_bind]. cbv iota. rewrite length_written.
    apply (uint_from_short nw a (x :: l)); [by split|done|lia|exact V].
Qed.
Lemma uint_serde_roundtrip_witness :
  exists text, uint_serialize (E:=unit) [5; 0; 0; 7] = Ok text /\ uint_deserialize 4 text = Ok [5; 0; 0; 7].
Proof. apply (uint_serde_roundtrip 4 [5; 0; 0; 7]); [lia|]. split; [done|]. repeat constructor; unfold is_u; lia. Defined.

(** [hash_serde_roundtrip]: a hash is read back from the text it is serialized
    to, and a text of another length is refused. *)
Theorem hash_serde_roundtrip {E} n h :
  (0 < n)%nat -> is_bytes n h ->
  (exists text, hash_serialize (E:=E) h = Ok text /\ hash_deserialize n text = Ok h) /\
  (forall v, len (fst (strip_0x v)) <> 2 * Z.of_nat n ->
     hash_deserialize n v = Err (invalid_length (len (fst (strip_0x v))))).
Proof.
  intros Hn [L B]. split.
  - destruct h as [|x l]; [cbn in L; lia|]. unfold hash_serialize, serialize_raw.
    destruct (encode_to_slice_ok (E:=E) (2 + 2 * len (x :: l)) x l false) as [text Et]; [lia|].
    exists text. split; [exact Et|]. unfold hash_deserialize.
    destruct (check_len_encoded false x l _ text (Exact n) Et B) as (post & -> & Hp); [by split|].
    rewrite (Hp n) by done. by rewrite app_nil_r.
  - intros v Hv. unfold hash_deserialize, deserialize_check_len. destruct (strip_0x v) as [v' s]. cbn [fst] in *.
    cbv iota. by rewrite (proj2 (Z.eqb_neq _ _)) by done.
Qed.
Lemma hash_serde_roundtrip_witness :
  exists text, hash_serialize (E:=unit) [1; 0; 255] = Ok text /\ hash_deserialize 3 text = Ok [1; 0; 255].
Proof. refine (proj1 (hash_serde_roundtrip 3 [1; 0; 255] _ _)); [lia|]. split; [done|]. by repeat constructor. Defined.

(** [deserialize_total]: reading serialized bytes of an expected length never
    panics, whatever the text. *)
Theorem deserialize_total v expected : deserialize_check_len v expected <> Panic.
Proof.
  unfold deserialize_check_len. destruct (strip_0x v) as [v' s]. cbv iota. case_match; [done|].
  set (n := match expected with Exact n => n | Between _ n => n end).
  destruct (decode_to_slice_post s v' (replicate n 0)) as (_ & _ & P); [apply replicate_bytes| |].
  - rewrite length_replicate. subst n. destruct expected; cbn [negb] in *;
      repeat match goal with
      | H : negb _ = false |- _ => apply negb_false_iff in H
      | H : (_ && _) = true |- _ => apply andb_true_iff in H as [?%Z.leb_le _]
      | H : (_ =? _) = true |- _ => apply Z.eqb_eq in H
      end; dlia.
  - destruct (decode_to_slice v' s (replicate n 0)) as [[| |] ?]; done.
Qed.
