(* ===== verification/UintMore.v ===== *)
(** * Big integers: roots, powers, bits and conversions

    Source: src/common/uint/src/uint.rs, the operations of [construct_uint!] that
    are not in Uint.v.  The [hex] crate that reads hexadecimal text is the class
    [HexCrate]. *)
From S2P Require Import Prelude Uint UintProofs UintDiv UintTheorems Hex.

(** ** Operations *)

Section operations.
Context {E : Type}.

(** [integer_sqrt], by Newton's method; the distance to the root is halved in
    every round. *)
Fixpoint sqrt_loop (fuel : nat) (self x_prev : uint) : result E uint :=
  match fuel with
  | O => Panic
  | S fuel =>
      q ← uint_div self x_prev;
      s ← uint_add x_prev q;
      let x := uint_shr s 1 in
      match uint_cmp x x_prev with
      | Lt => sqrt_loop fuel self x
      | _ => Ok x_prev
      end
  end.
Definition integer_sqrt (self : uint) : result E uint :=
  let one := uint_one (length self) in
  match uint_cmp self one with
  | Gt =>
      let shift := u32 (u32 (bits self) + 1) / 2 in
      sqrt_loop (Z.to_nat shift + 2) self (uint_shl one shift)
  | _ => Ok self
  end.

(** [overflowing_pow] *)
Fixpoint overflowing_pow_loop (fuel : nat) (x y n : uint) (overflow : bool) : result E (uint * bool) :=
  match fuel with
  | O => Panic
  | S fuel =>
      match uint_cmp n (uint_one (length n)) with
      | Gt =>
          if Z.land (low_u64 n) 1 =? 0 then
            let '(x2, o) := overflowing_mul x x in
            overflowing_pow_loop fuel x2 y (uint_shr n 1) (overflow || o)
          else
            let '(y, o1) := overflowing_mul x y in
            let '(x2, o2) := overflowing_mul x x in
            n ← uint_sub n (uint_one (length n));
            overflowing_pow_loop fuel x2 y (uint_shr n 1) (overflow || o1 || o2)
      | _ =>
          let '(res, o) := overflowing_mul x y in
          Ok (res, overflow || o)
      end
  end.
Definition overflowing_pow (self expon : uint) : result E (uint * bool) :=
  if is_zero expon then Ok (uint_one (length self), false)
  else overflowing_pow_loop (64 * length expon) self (uint_one (length self)) expon false.
Definition checked_pow (self expon : uint) : result E (option uint) :=
  r ← overflowing_pow self expon; Ok (checked r).

Definition checked_div (self other : uint) : result E (option uint) :=
  if is_zero other then Ok None else q ← uint_div self other; Ok (Some q).
Definition checked_rem (self other : uint) : result E (option uint) :=
  if is_zero other then Ok None else r ← uint_rem self other; Ok (Some r).

Definition overflowing_neg (self : uint) : result E (uint * bool) :=
  if is_zero self then Ok (self, false)
  else r ← uint_add (uint_not self) (from_u64 (length self) 1); Ok (r, true).
Definition checked_neg (self : uint) : result E (option uint) :=
  r ← overflowing_neg self; Ok (checked r).

(** [exp10] *)
Fixpoint exp10 (nw n : nat) : result E uint :=
  match n with
  | O => Ok (from_u64 nw 1)
  | S n => x ← exp10 nw n; uint_mul x (from_u64 nw 10)
  end.

(** Conversions that panic *)
Definition low_u32 (self : uint) : Z := u32 (low_u64 self).
Definition as_u64 (self : uint) : result E Z := if fits_word self then Ok (low_u64 self) else Panic.
Definition as_u32 (self : uint) : result E Z :=
  if negb (fits_word self) || (2 ^ 32 - 1 <? low_u64 self) then Panic
  else x ← as_u64 self; Ok (u32 x).
(** [From<i64>] *)
Definition from_i64 (nw : nat) (value : Z) : result E uint :=
  if 0 <=? value then Ok (from_u64 nw (u64 value)) else Panic.
(** [impl_try_from_for_primitive!] with the maximum of the type *)
Definition try_from (max : Z) (self : uint) : result unit Z :=
  if negb (fits_word self) || (max <? low_u64 self) then Err tt else Ok (low_u64 self).

(** Bits and bytes *)
Definition bit (self : list Z) (index : Z) : result E bool :=
  match self !! Z.to_nat (index / 64) with
  | Some d => Ok (negb (Z.land d (u64 (Z.shiftl 1 (index mod 64))) =? 0))
  | None => Panic
  end.
Definition byte (self : list Z) (index : Z) : result E Z :=
  match self !! Z.to_nat (index / 8) with
  | Some d => Ok (u8 (Z.shiftr d (index mod 8 * 8)))
  | None => Panic
  end.
Definition bitand (a b : uint) : uint := zip_with Z.land a b.
Definition bitor (a b : uint) : uint := zip_with Z.lor a b.
Definition bitxor (a b : uint) : uint := zip_with Z.lxor a b.

(** [leading_zeros]: from the most significant word *)
Fixpoint leading_zeros_loop (ws : list Z) (r : Z) : Z :=
  match ws with
  | [] => r
  | w :: ws => if w =? 0 then leading_zeros_loop ws (r + 64) else r + leading_zeros64 w
  end.
Definition uint_leading_zeros (self : uint) : Z := leading_zeros_loop (rev self) 0.
(** [u64::trailing_zeros] *)
Fixpoint pos_trailing_zeros (p : positive) : Z :=
  match p with xO p => 1 + pos_trailing_zeros p | _ => 0 end.
Definition trailing_zeros64 (w : Z) : Z := match w with Zpos p => pos_trailing_zeros p | _ => 64 end.
Fixpoint trailing_zeros_loop (ws : list Z) (r : Z) : Z :=
  match ws with
  | [] => r
  | w :: ws => if w =? 0 then trailing_zeros_loop ws (r + 64) else r + trailing_zeros64 w
  end.
Definition uint_trailing_zeros (self : uint) : Z := trailing_zeros_loop self 0.

(** Little-endian bytes *)
Definition to_little_endian (self : uint) : bytes := concat ((fun d => rev (to_be 8 d)) <$> self).
Definition from_little_endian (nw : nat) (slice : bytes) : result E uint :=
  if (nw * 8 <? length slice)%nat then Panic
  else
    let padded := slice ++ replicate (nw * 8 - length slice) 0 in
    Ok ((fun i => from_be (rev (take 8 (drop (8 * i) padded)))) <$> seq 0 nw).
End operations.

(** ** Hexadecimal text *)

(** The nibbles of a word, from the most significant one *)
Definition nibbles (ch : Z) : list Z :=
  (fun x => let s := (15 - x) * 4 in Z.shiftr (Z.land ch (u64 (Z.shiftl 15 s))) s) <$> seqZ 0 16.
Definition nibble_char (is_lower : bool) (nibble : Z) : Z :=
  if nibble <=? 9 then u8 (nibble + 48)
  else if is_lower then u8 (u8 (nibble - 10) + 97) else u8 (u8 (nibble - 10) + 65).
Fixpoint latch_loop (is_lower latch : bool) (ns : list Z) : str :=
  match ns with
  | [] => []
  | nibble :: ns =>
      let latch := if negb latch then negb (nibble =? 0) else latch in
      if latch then nibble_char is_lower nibble :: latch_loop is_lower latch ns
      else latch_loop is_lower latch ns
  end.
(** [fmt_hex], with [alternate] for the flag that prints the prefix *)
Definition fmt_hex (alternate is_lower : bool) (self : uint) : str :=
  (if alternate then lit "0x" else []) ++
  (if is_zero self then lit "0" else latch_loop is_lower false (concat (nibbles <$> rev self))).

(** [hex::decode_to_slice] into [n] bytes *)
Class HexCrate := { HexError : Type; InvalidStringLength : HexError; hex_to_slice : bytes -> nat -> result HexError bytes }.
(** Two digits a byte, in either case *)
Class HexCrateLaws {H : HexCrate} : Prop := {
  hex_to_slice_digits is_lower ds n : Forall (is_u 4) ds -> length ds = (2 * n)%nat ->
    exists out, hex_to_slice (nibble_char is_lower <$> ds) n = Ok out /\ is_bytes n out /\ from_be out = from_digits 4 ds;
}.

Section text.
Context {H : HexCrate}.
Definition hex_from_str (nw : nat) (value : str) : result HexError uint :=
  let encoded := fst (strip_0x value) in
  let BYTES_LEN := (nw * 8)%nat in
  if (BYTES_LEN * 2 <? length encoded)%nat then Err InvalidStringLength
  else
    let encoded := if Nat.even (length encoded) then encoded else 48 :: encoded in
    out ← hex_to_slice encoded (length encoded / 2);
    from_big_endian nw (replicate (BYTES_LEN - length encoded / 2) 0 ++ out).

Inductive FromStrRadixErr := UnsupportedRadix | DecErr (e : FromDecStrErr) | HexErr (e : HexError).
Definition from_str_radix (nw : nat) (txt : str) (radix : Z) : result FromStrRadixErr uint :=
  if radix =? 10 then
    match from_dec_str nw txt with Ok x => Ok x | Err e => Err (DecErr e) | Panic => Panic end
  else if radix =? 16 then
    match hex_from_str nw txt with Ok x => Ok x | Err e => Err (HexErr e) | Panic => Panic end
  else Err UnsupportedRadix.
End text.

(** ** Square root *)

Lemma newton_lower a x s : 0 < x -> 0 <= s -> s * s <= a -> s <= (x + a / x) / 2.
Proof.
  intros Hx Hs Ha. apply Z.div_le_lower_bound; [lia|].
  assert (2 * s - x <= a / x); [|lia]. apply Z.div_le_lower_bound; [lia|]. pose proof (Z.square_nonneg (s - x)). nia.
Qed.
Lemma newton_upper a x s : 0 < x -> 0 <= s -> a < (s + 1) * (s + 1) -> s < x -> (x + a / x) / 2 <= s + (x - s) / 2.
Proof.
  intros Hx Hs Ha Hlt. assert (a / x <= s) by (apply Z.lt_succ_r, Z.div_lt_upper_bound; nia).
  replace (s + (x - s) / 2) with ((x + s) / 2) by (replace (x + s) with (x - s + s * 2) by lia; rewrite Z.div_add by lia; lia).
  apply Z.div_le_mono; lia.
Qed.
Lemma newton_sum a x s P : 1 <= s -> s <= x -> a < (s + 1) * (s + 1) -> s * s <= P -> x * x <= P -> 8 <= P -> x + a / x < P.
Proof.
  intros Hs Hx Ha HsP HxP HP. assert (a / x < s + 3) by (apply Z.div_lt_upper_bound; nia).
  assert (4 * x <= P + 4) by nia. assert (4 * s <= P + 4) by nia. nia.
Qed.

Lemma sqrt_loop_ok {E} nw fuel self x :
  is_uint (S nw) self -> 1 < val self -> is_uint (S nw) x -> val x * val x <= pw (S nw) ->
  Z.sqrt (val self) <= val x < Z.sqrt (val self) + 2 ^ Z.of_nat fuel ->
  sqrt_loop (E:=E) (S fuel) self x = Ok (of_val (S nw) (Z.sqrt (val self))).
Proof.
  intros Hself Hgt. revert x. pose proof (Z.sqrt_spec (val self) ltac:(lia)) as Hs. set (s := Z.sqrt (val self)) in *.
  assert (1 <= s) as Hs1 by (apply (Z.sqrt_le_square (val self) 1); lia). unfold Z.succ in Hs.
  pose proof (is_uint_bound _ _ Hself) as Bs. assert (8 <= pw (S nw)) as HP by (rewrite pw_S; pose proof (pw_pos nw); lia).
  induction fuel as [|fuel IH]; intros x Hx Hxx Hd; cbn [sqrt_loop]; unfold uint_div;
    rewrite (div_mod_eq nw) by done; rewrite (proj2 (Z.eqb_neq (val x) 0)) by lia; cbn [mbind result_bind];
    (assert (0 <= val self / val x < pw (S nw)) as Bq by (split; [apply Z.div_pos; lia|apply Z.div_lt_upper_bound; nia]));
    (assert (val x + val self / val x < pw (S nw)) as Bsum by (apply (newton_sum _ _ s); lia));
    rewrite (uint_add_spec (S nw)), val_of_val_small by (done || apply of_val_words);
    unfold fits; rewrite (proj2 (Z.ltb_lt _ _)) by done; cbn [mbind result_bind];
    (destruct (uint_shr_spec (S nw) (of_val (S nw) (val x + val self / val x)) 1) as [Hn Vn]; [apply of_val_words|lia|]);
    rewrite val_of_val_small in Vn by lia; change (2 ^ 1) with 2 in Vn;
    rewrite (uint_cmp_spec (S nw)), Vn by done;
    pose proof (newton_lower (val self) (val x) s ltac:(lia) ltac:(lia) ltac:(lia)) as Hlow.
  - change (2 ^ Z.of_nat 0) with 1 in Hd. destruct (Z.compare_spec ((val x + val self / val x) / 2) (val x)); [| lia |];
      (f_equal; apply of_val_eq; [done|lia]).
  - rewrite Nat2Z.inj_succ, Z.pow_succ_r in Hd by lia. destruct (Z.eq_dec (val x) s) as [Ex|Nx].
    { destruct (Z.compare_spec ((val x + val self / val x) / 2) (val x)); [|lia|]; (f_equal; by apply of_val_eq). }
    pose proof (newton_upper (val self) (val x) s ltac:(lia) ltac:(lia) ltac:(lia) ltac:(lia)) as Hup.
    destruct (Z.compare_spec ((val x + val self / val x) / 2) (val x)); [dlia| |dlia].
    apply IH; [done|rewrite Vn; nia|rewrite Vn; dlia].
Qed.

Lemma pw_sqrt nw b : 0 <= b <= 64 * Z.of_nat nw -> 2 ^ ((b + 1) / 2) * 2 ^ ((b + 1) / 2) <= pw nw.
Proof. intros Hb. rewrite <- Z.pow_add_r by dlia. apply Z.pow_le_mono_r; dlia. Qed.

(** C33 [integer_sqrt_correct]: [integer_sqrt] terminates, without a panic, with
    the integer square root of its argument. *)
Theorem integer_sqrt_correct {E} nw self :
  is_uint (S nw) self -> 64 * Z.of_nat (S nw) < 2 ^ 31 ->
  integer_sqrt (E:=E) self = Ok (of_val (S nw) (Z.sqrt (val self))).
Proof.
  intros Hself Hnw. unfold integer_sqrt. replace (length self) with (S nw) by (symmetry; apply Hself).
  destruct (uint_one_spec nw) as [H1 V1]. rewrite (uint_cmp_spec (S nw)), V1 by done.
  pose proof (is_uint_bound _ _ Hself) as B.
  destruct (Z.compare_spec (val self) 1) as [E1|E1|E1].
  - f_equal. apply of_val_eq; [done|]. by rewrite E1.
  - f_equal. apply of_val_eq; [done|]. replace (val self) with 0 by lia. done.
  - rewrite (bits_spec nw) by done. unfold bit_length. rewrite (proj2 (Z.eqb_neq _ _)) by lia.
    assert (0 <= Z.log2 (val self) + 1 <= 64 * Z.of_nat (S nw)) as Hb.
    { pose proof (Z.log2_nonneg (val self)). split; [lia|]. apply Z.le_succ_l. apply Z.log2_lt_pow2; [lia|apply B]. }
    rewrite (wrap_id 32 (Z.log2 (val self) + 1)) by (unfold is_u; lia). rewrite wrap_id by (unfold is_u; lia).
    set (b := Z.log2 (val self) + 1) in *. pose proof (pw_sqrt (S nw) b ltac:(lia)) as Hsq.
    assert (0 <= (b + 1) / 2) as H0 by dlia. pose proof (Z.pow_pos_nonneg 2 ((b + 1) / 2) ltac:(lia) H0) as Hp.
    assert (2 ^ ((b + 1) / 2) < pw (S nw)) as Hlt.
    { assert (4 <= pw (S nw)) by (rewrite pw_S; pose proof (pw_pos nw); lia). nia. }
    destruct (uint_shl_spec (S nw) (uint_one (S nw)) ((b + 1) / 2) H1 H0) as [Hx Vx].
    rewrite V1, Z.mul_1_l, Z.mod_small in Vx by lia.
    rewrite Nat.add_succ_r. apply sqrt_loop_ok; [done|done|done|by rewrite Vx|]. rewrite Vx.
    pose proof (Z.sqrt_spec (val self) ltac:(lia)) as [Hs _]. pose proof (Z.sqrt_nonneg (val self)).
    pose proof (Z.log2_spec (val self) ltac:(lia)) as [_ Hl]. change (Z.succ (Z.log2 (val self))) with b in Hl.
    assert (2 ^ b <= 2 ^ ((b + 1) / 2) * 2 ^ ((b + 1) / 2)) by (rewrite <- Z.pow_add_r by lia; apply Z.pow_le_mono_r; dlia).
    split; [nia|]. assert (2 ^ ((b + 1) / 2) <= 2 ^ Z.of_nat (Z.to_nat ((b + 1) / 2) + 1)); [apply Z.pow_le_mono_r; lia|].
    assert (1 <= Z.sqrt (val self)) by (apply (Z.sqrt_le_square (val self) 1); lia). lia.
Qed.
Lemma integer_sqrt_correct_witness : integer_sqrt (E:=unit) [0; 0; 5; 0] = Ok (of_val 4 (Z.sqrt (5 * 2 ^ 128))).
Proof.
  rewrite (integer_sqrt_correct (E:=unit) 3 [0; 0; 5; 0]); [reflexivity| |reflexivity].
  split; [done|]. repeat constructor; unfold is_u; lia.
Defined.

(** ** Powers *)

(** [c] is the whole power: [x ^ n * y] is congruent to it, and equal to it unless
    an overflow has been seen. *)
Definition pow_inv (P x y n c : Z) (overflow : bool) : Prop :=
  (x ^ n * y) mod P = c mod P /\
  if overflow then P <= c else c = x ^ n * y /\ (1 <= y \/ x = 0).

Lemma pow_mod_mul x n y P : 0 < P -> 0 <= n -> ((x mod P) ^ n * (y mod P)) mod P = (x ^ n * y) mod P.
Proof.
  intros HP Hn. rewrite (Z.mul_mod (x ^ n)), (Z.mul_mod ((x mod P) ^ n)), Z.mod_mod by lia.
  by rewrite Z.mod_pow_l.
Qed.
(** One round: [x] is squared, and multiplied into [y] when [n] is odd. *)
Lemma pow_inv_step P x y n c (o : bool) :
  0 < P -> 0 <= x < P -> 0 <= y < P -> 2 <= n -> pow_inv P x y n c o ->
  let y' := if Z.even n then y else x * y in
  pow_inv P ((x * x) mod P) (y' mod P) (n / 2) c
    (o || (if Z.even n then false else P <=? x * y) || (P <=? x * x)).
Proof.
  intros HP Hx Hy Hn [Hm Ho] y'.
  assert ((x * x) ^ (n / 2) * y' = x ^ n * y) as Sq.
  { replace (x * x) with (x ^ 2) by ring. rewrite <- Z.pow_mul_r by dlia.
    pose proof (Z.div_mod n 2 ltac:(lia)) as D. rewrite Zmod_even in D. subst y'. destruct (Z.even n).
    - do 2 f_equal. lia.
    - rewrite D at 2. rewrite Z.pow_add_r, Z.pow_1_r by dlia. ring. }
  split; [rewrite pow_mod_mul by dlia; by rewrite Sq|]. destruct o; cbn [orb]; [done|]. destruct Ho as [Hc Hy1].
  destruct (square_step x y n) as (_ & Gx & Gy); [lia|done|lia|]. subst y'.
  destruct (Z.even n) eqn:Ev; cbn [orb].
  - destruct (Z.leb_spec P (x * x)); [rewrite Hc; auto|]. rewrite (Z.mod_small (x * x)), (Z.mod_small y) by nia.
    split; [by rewrite Hc, <- Sq|]. destruct Hy1 as [| ->]; auto.
  - destruct (Z.leb_spec P (x * y)); cbn [orb]; [rewrite Hc; auto|].
    destruct (Z.leb_spec P (x * x)); [rewrite Hc; auto|]. rewrite (Z.mod_small (x * x)), (Z.mod_small (x * y)) by nia.
    split; [by rewrite Hc, <- Sq|]. destruct Hy1 as [| ->]; [|by right]. destruct (Z.eq_dec x 0) as [->|]; [by right|left; nia].
Qed.

Lemma overflowing_pow_loop_ok {E} nw fuel x y n o c :
  is_uint (S nw) x -> is_uint (S nw) y -> is_uint (S nw) n -> 1 <= val n < 2 ^ Z.of_nat fuel ->
  pow_inv (pw (S nw)) (val x) (val y) (val n) c o ->
  overflowing_pow_loop (E:=E) fuel x y n o = Ok (of_val (S nw) (c mod pw (S nw)), pw (S nw) <=? c).
Proof.
  revert x y n o. induction fuel as [|fuel IH]; intros x y n o Hx Hy Hn Bn Inv; [simpl in Bn; lia|].
  pose proof (is_uint_bound _ _ Hx) as Bx. pose proof (is_uint_bound _ _ Hy) as By. pose proof (pw_pos (S nw)) as HP.
  cbn [overflowing_pow_loop]. destruct (uint_one_spec nw) as [H1 V1].
  replace (length n) with (S nw) by (symmetry; apply Hn). rewrite (uint_cmp_spec (S nw)), V1 by done.
  destruct (overflowing_mul_spec (S nw) x x Hx Hx) as (x2 & Ex & Hx2 & Vx2).
  destruct (overflowing_mul_spec (S nw) x y Hx Hy) as (xy & Exy & Hxy & Vxy).
  destruct (Z.compare_spec (val n) 1) as [E1|E1|E1]; [|lia|].
  - rewrite Exy. destruct Inv as [Hm Ho]. rewrite E1, Z.pow_1_r in *. do 2 f_equal.
    + apply of_val_eq; [done|congruence].
    + destruct o; cbn [orb]; [symmetry; by apply Z.leb_le|]. by destruct Ho as [-> _].
  - rewrite even_test by apply Hn. rewrite Nat2Z.inj_succ, Z.pow_succ_r in Bn by lia.
    assert (2 <= val n) as H2 by lia. pose proof (pow_inv_step _ _ _ _ _ _ HP Bx By H2 Inv) as Step. cbv zeta in Step.
    destruct (Z.even (val n)) eqn:Ev.
    + rewrite Ex. destruct (uint_shr_spec _ n 1 Hn ltac:(lia)) as [Hh Vh]. change (2 ^ 1) with 2 in Vh.
      apply IH; [done|done|done|rewrite Vh; dlia|]. rewrite Vx2, Vh. rewrite orb_false_r, (Z.mod_small (val y)) in Step by lia. exact Step.
    + rewrite Exy, Ex. destruct (overflowing_sub_spec (S nw) n (uint_one (S nw)) Hn H1) as (n1 & En & Hn1 & Vn1).
      unfold uint_sub, panic_on_overflow. rewrite En, V1 in *. cbn [fst snd]. rewrite (proj2 (Z.ltb_ge _ _)) by lia. cbn [mbind result_bind].
      pose proof (is_uint_bound _ _ Hn). rewrite Z.mod_small in Vn1 by lia.
      destruct (uint_shr_spec _ n1 1 Hn1 ltac:(lia)) as [Hh Vh]. change (2 ^ 1) with 2 in Vh. rewrite Vn1 in Vh.
      assert (val (uint_shr n1 1) = val n / 2) as Vn.
      { rewrite Vh. pose proof (Zmod_even (val n)) as Zm. rewrite Ev in Zm. dlia. }
      apply IH; [done|done|done|rewrite Vn; dlia|]. rewrite Vx2, Vxy, Vn. exact Step.
Qed.

(** [overflowing_pow_correct]: for every exponent, [overflowing_pow] returns the
    power modulo the range of the type and flags an overflow exactly when the
    power does not fit; [checked_pow] returns it exactly when it does. *)
Theorem overflowing_pow_correct {E} nw a e :
  is_uint (S nw) a -> is_uint (S nw) e ->
  overflowing_pow (E:=E) a e = Ok (of_val (S nw) (val a ^ val e mod pw (S nw)), pw (S nw) <=? val a ^ val e) /\
  checked_pow (E:=E) a e =
    Ok (if val a ^ val e <? pw (S nw) then Some (of_val (S nw) (val a ^ val e)) else None).
Proof.
  intros Ha He. pose proof (pw_pos (S nw)) as HP. destruct (uint_one_spec nw) as [H1 V1].
  pose proof (is_uint_bound _ _ Ha). pose proof (is_uint_bound _ _ He) as Be.
  assert (overflowing_pow (E:=E) a e = Ok (of_val (S nw) (val a ^ val e mod pw (S nw)), pw (S nw) <=? val a ^ val e)) as H0.
  { unfold overflowing_pow. replace (length a) with (S nw) by (symmetry; apply Ha). rewrite is_zero_spec by apply He.
    destruct (Z.eqb_spec (val e) 0) as [E0|N0].
    - rewrite E0, Z.pow_0_r. assert (1 < pw (S nw)) by (rewrite pw_S; pose proof (pw_pos nw); lia).
      rewrite (proj2 (Z.leb_gt _ _)) by lia. do 2 f_equal. apply of_val_eq; [done|]. by rewrite Z.mod_small by lia.
    - apply overflowing_pow_loop_ok; [done|done|done| |].
      + split; [lia|]. destruct He as [-> He']. replace (Z.of_nat (64 * S nw)) with (64 * Z.of_nat (S nw)) by lia. apply Be.
      + rewrite V1. unfold pow_inv. rewrite Z.mul_1_r. split; [done|]. split; [done|lia]. }
  split; [exact H0|]. unfold checked_pow. rewrite H0. cbn [mbind result_bind]. unfold checked. cbn [fst snd]. f_equal.
  destruct (Z.leb_spec (pw (S nw)) (val a ^ val e)), (Z.ltb_spec (val a ^ val e) (pw (S nw))); try lia; [done|].
  by rewrite Z.mod_small by (split; [apply Z.pow_nonneg; lia|lia]).
Qed.
Lemma overflowing_pow_correct_witness :
  overflowing_pow (E:=unit) (from_u64 4 2) (from_u64 4 255) = Ok (of_val 4 (2 ^ 255), false).
Proof.
  assert (forall x, is_u 64 x -> is_uint 4 (from_u64 4 x)) as W by (intros x Hx; exact (proj1 (from_u64_spec 3 x Hx))).
  rewrite (proj1 (overflowing_pow_correct (E:=unit) 3 (from_u64 4 2) (from_u64 4 255) (W 2 ltac:(unfold is_u; lia)) (W 255 ltac:(unfold is_u; lia)))).
  reflexivity.
Defined.

(** ** Division and negation *)

(** [checked_division]: [checked_div] and [checked_rem] answer [None] exactly
    for a zero divisor, and the negation of a nonzero integer is its complement,
    flagged as an overflow. *)
Theorem checked_division {E} nw a b :
  is_uint (S nw) a -> is_uint (S nw) b ->
  checked_div (E:=E) a b = Ok (if val b =? 0 then None else Some (of_val (S nw) (val a / val b))) /\
  checked_rem (E:=E) a b = Ok (if val b =? 0 then None else Some (of_val (S nw) (val a mod val b))) /\
  overflowing_neg (E:=E) a = Ok (of_val (S nw) ((- val a) mod pw (S nw)), negb (val a =? 0)) /\
  checked_neg (E:=E) a = Ok (if val a =? 0 then Some a else None).
Proof.
  intros Ha Hb. pose proof (pw_pos (S nw)) as HP. pose proof (is_uint_bound _ _ Ha) as Ba.
  unfold checked_div, checked_rem, uint_div, uint_rem. rewrite !is_zero_spec by apply Hb. rewrite (div_mod_eq nw) by done.
  assert (overflowing_neg (E:=E) a = Ok (of_val (S nw) ((- val a) mod pw (S nw)), negb (val a =? 0))) as Hneg.
  { unfold overflowing_neg. rewrite is_zero_spec by apply Ha. destruct (Z.eqb_spec (val a) 0) as [E0|N0]; cbn [negb].
    - do 2 f_equal. apply of_val_eq; [done|]. by rewrite E0.
    - replace (length a) with (S nw) by (symmetry; apply Ha). destruct (uint_not_spec (S nw) a Ha) as [Hn Vn].
      destruct (from_u64_spec nw 1) as [H1 V1]; [unfold is_u; lia|].
      rewrite (uint_add_spec (S nw)), Vn, V1 by done. unfold fits. rewrite (proj2 (Z.ltb_lt _ _)) by lia. cbn [mbind result_bind].
      do 3 f_equal. rewrite <- (Z.mod_add _ 1), Z.mod_small by lia. lia. }
  split; [by destruct (val b =? 0)|]. split; [by destruct (val b =? 0)|]. split; [exact Hneg|].
  unfold checked_neg. rewrite Hneg. cbn [mbind result_bind]. unfold checked. cbn [fst snd]. f_equal.
  destruct (Z.eqb_spec (val a) 0) as [E0|]; cbn [negb]; [|done]. f_equal. symmetry. apply of_val_eq; [done|]. by rewrite E0.
Qed.
Lemma checked_division_witness :
  checked_div (E:=unit) demo_dividend demo_divisor = Ok (Some (of_val 4 (val demo_dividend / val demo_divisor))).
Proof. exact (proj1 (checked_division (E:=unit) 3 _ _ demo_dividend_words demo_divisor_words)). Defined.

(** ** Bits *)

Lemma word_of_bits x : 0 <= x -> (forall i, 64 <= i -> Z.testbit x i = false) -> is_u 64 x.
Proof.
  intros H0 H. unfold is_u. assert (x = x mod 2 ^ 64) as ->; [|apply Z.mod_pos_bound; lia].
  apply Z.bits_inj'. intros i Hi. destruct (Z.lt_ge_cases i 64).
  - by rewrite Z.mod_pow2_bits_low.
  - rewrite Z.mod_pow2_bits_high by lia. by apply H.
Qed.

Section bitop.
Context (op : Z -> Z -> Z) (bop : bool -> bool -> bool).
Context (op_spec : forall a b i, 0 <= i -> Z.testbit (op a b) i = bop (Z.testbit a i) (Z.testbit b i)).
Context (op_pos : forall a b, 0 <= a -> 0 <= b -> 0 <= op a b) (bop_ff : bop false false = false) (op_0 : op 0 0 = 0).

Lemma op_word a b : is_u 64 a -> is_u 64 b -> is_u 64 (op a b).
Proof.
  intros Ha Hb. apply word_of_bits; [apply op_pos; [apply Ha|apply Hb]|]. intros i Hi.
  rewrite op_spec by lia. by rewrite !(testbit_high 64) by (done || lia).
Qed.
Lemma zip_with_word a b k : length a = length b -> word (zip_with op a b) k = op (word a k) (word b k).
Proof.
  revert b k. induction a as [|x a IH]; intros [|y b] k L; try done.
  - destruct k; symmetry; exact op_0.
  - injection L as L. destruct k; [done|]. exact (IH b k L).
Qed.
Lemma bitop_spec nw a b :
  is_uint nw a -> is_uint nw b -> is_uint nw (zip_with op a b) /\ val (zip_with op a b) = op (val a) (val b).
Proof.
  intros [La Ha] [Lb Hb]. assert (Forall (is_u 64) (zip_with op a b)) as Hr.
  { revert b Lb Hb. clear La. revert nw. induction Ha as [|x a Hx Ha IH]; intros nw [|y b] L Hb; try by constructor.
    inversion_clear Hb. constructor; [by apply op_word|]. by apply (IH (length b)). }
  split; [split; [rewrite length_zip_with; lia|done]|].
  apply Z.bits_inj'. intros i Hi. rewrite op_spec by done. rewrite !val_testbit by done.
  rewrite zip_with_word by lia. apply op_spec. dlia.
Qed.
End bitop.

Lemma land_bit d j : 0 <= j -> negb (Z.land d (2 ^ j) =? 0) = Z.testbit d j.
Proof.
  intros Hj. assert (Z.land d (2 ^ j) = if Z.testbit d j then 2 ^ j else 0) as ->.
  { apply Z.bits_inj'. intros i Hi. rewrite Z.land_spec, Z.pow2_bits_eqb by done. destruct (Z.eqb_spec j i) as [->|].
    - rewrite andb_true_r. destruct (Z.testbit d i) eqn:E; [by rewrite Z.pow2_bits_true|by rewrite Z.bits_0].
    - rewrite andb_false_r. destruct (Z.testbit d j); [|by rewrite Z.bits_0]. by rewrite Z.pow2_bits_false by lia. }
  destruct (Z.testbit d j); [|done]. by rewrite (proj2 (Z.eqb_neq _ _)) by lia.
Qed.
Lemma lookup_word l k : (k < length l)%nat -> l !! k = Some (word l k).
Proof. intros H. destruct (lookup_lt_is_Some_2 l k H) as [x E]. by rewrite (word_in _ _ _ E). Qed.

Lemma bit_spec {E} nw a i : is_uint nw a -> 0 <= i ->
  bit (E:=E) a i = if i <? 64 * Z.of_nat nw then Ok (Z.testbit (val a) i) else Panic.
Proof.
  intros [L H] Hi. unfold bit. destruct (Z.ltb_spec i (64 * Z.of_nat nw)).
  - rewrite lookup_word by (rewrite L; dlia). rewrite Z.shiftl_1_l, wrap_id.
    + rewrite land_bit by dlia. by rewrite val_testbit.
    + unfold is_u. split; [lia|]. apply Z.pow_lt_mono_r; dlia.
  - by rewrite lookup_ge_None_2 by (rewrite L; dlia).
Qed.
Lemma byte_spec {E} nw a i : is_uint nw a -> 0 <= i ->
  byte (E:=E) a i = if i <? 8 * Z.of_nat nw then Ok ((val a / 2 ^ (8 * i)) mod 256) else Panic.
Proof.
  intros [L H] Hi. unfold byte. destruct (Z.ltb_spec i (8 * Z.of_nat nw)).
  - rewrite lookup_word by (rewrite L; dlia). f_equal. rewrite val_lookup, Z.shiftr_div_pow2 by (done || dlia). unfold pw, wrap.
    set (k := Z.to_nat (i / 8)). set (j := i mod 8 * 8). assert (0 <= j <= 56) as Hj by (subst j; dlia).
    replace (8 * i) with (64 * Z.of_nat k + j) by (subst j k; dlia). rewrite Z.pow_add_r, <- Z.div_div by lia.
    set (x := val a / _). change 256 with (2 ^ 8).
    replace (2 ^ 64) with (2 ^ j * 2 ^ (64 - j)) by (rewrite <- Z.pow_add_r by lia; f_equal; lia).
    rewrite Z.rem_mul_r, (Z.mul_comm (2 ^ j)), Z.div_add by lia. rewrite (Z.div_small (x mod _)) by (apply Z.mod_pos_bound; lia).
    rewrite Z.add_0_l. replace (64 - j) with (8 + (56 - j)) by lia. rewrite Z.pow_add_r, Z.rem_mul_r by lia.
    rewrite (Z.mul_comm (2 ^ 8)), Z.mod_add, Z.mod_mod by lia. done.
  - by rewrite lookup_ge_None_2 by (rewrite L; dlia).
Qed.

(** [bitwise_values]: the bitwise operators compute those of the values; [bit]
    and [byte] read the bit and the byte of the value, and panic beyond its
    width. *)
Theorem bitwise_values {E} nw a b i :
  is_uint nw a -> is_uint nw b -> 0 <= i ->
  (is_uint nw (bitand a b) /\ val (bitand a b) = Z.land (val a) (val b)) /\
  (is_uint nw (bitor a b) /\ val (bitor a b) = Z.lor (val a) (val b)) /\
  (is_uint nw (bitxor a b) /\ val (bitxor a b) = Z.lxor (val a) (val b)) /\
  bit (E:=E) a i = (if i <? 64 * Z.of_nat nw then Ok (Z.testbit (val a) i) else Panic) /\
  byte (E:=E) a i = (if i <? 8 * Z.of_nat nw then Ok ((val a / 2 ^ (8 * i)) mod 256) else Panic).
Proof.
  intros Ha Hb Hi. split; [|split; [|split; [|split; [by apply bit_spec|by apply byte_spec]]]].
  - apply (bitop_spec Z.land andb); auto; [intros; apply Z.land_spec|intros; apply Z.land_nonneg; auto].
  - apply (bitop_spec Z.lor orb); auto; [intros; apply Z.lor_spec|intros; apply Z.lor_nonneg; auto].
  - apply (bitop_spec Z.lxor xorb); auto; [intros; apply Z.lxor_spec|intros; apply Z.lxor_nonneg; lia].
Qed.
Lemma bitwise_values_witness :
  val (bitand demo_dividend demo_divisor) = Z.land (val demo_dividend) (val demo_divisor) /\ bit (E:=unit) demo_dividend 256 = Panic.
Proof.
  destruct (bitwise_values (E:=unit) 4 _ _ 256 demo_dividend_words demo_divisor_words ltac:(lia)) as ((_ & H1) & _ & _ & H2 & _).
  split; [exact H1|exact H2].
Defined.

(** ** Leading and trailing zeros *)

Lemma leading_zeros_loop_spec ws r : Forall (is_u 64) ws ->
  leading_zeros_loop ws r = r + 64 * len ws - bit_length (val (rev ws)).
Proof.
  intros H. revert r. induction H as [|w ws Hw H IH]; intros r; [cbn; lia|]. cbn [leading_zeros_loop rev length].
  assert (Forall (is_u 64) (rev ws)) as Hr by by apply Forall_rev. pose proof (val_bound _ Hr) as B.
  rewrite val_app, length_rev, val_cons. change (val []) with 0. destruct (Z.eqb_spec w 0) as [->|Nz].
  - rewrite IH. replace (0 + 2 ^ 64 * 0) with 0 by lia. rewrite Z.mul_0_r, Z.add_0_r. lia.
  - unfold is_u in Hw. unfold leading_zeros64, bit_length. rewrite length_rev in B. rewrite Z.mul_0_r, Z.add_0_r.
    pose proof (pw_pos (length ws)) as P. rewrite (proj2 (Z.eqb_neq w 0)), (proj2 (Z.eqb_neq (_ + _) 0)) by nia.
    unfold pw in *. pose proof (Z.log2_nonneg w) as Hn.
    assert (Z.log2 (val (rev ws) + 2 ^ (64 * len ws) * w) = Z.log2 w + 64 * len ws) as ->; [|lia].
    apply (Z.log2_unique' _ _ ((w - 2 ^ Z.log2 w) * 2 ^ (64 * len ws) + val (rev ws))); [lia| |].
    + pose proof (Z.log2_spec w ltac:(lia)) as [L1 L2]. rewrite Z.pow_succ_r in L2 by done.
      rewrite Z.pow_add_r by lia. nia.
    + rewrite Z.pow_add_r by lia. ring.
Qed.
Lemma pos_trailing_zeros_spec p :
  0 <= pos_trailing_zeros p /\ exists q, Z.pos p = 2 ^ pos_trailing_zeros p * q /\ Z.odd q = true.
Proof.
  induction p as [p IH|p IH|]; cbn [pos_trailing_zeros].
  - split; [lia|]. exists (Z.pos p~1). split; [lia|done].
  - destruct IH as (H0 & q & Hq & Ho). split; [lia|]. exists q. split; [|done].
    rewrite Z.pow_add_r by lia. change (Z.pos p~0) with (2 * Z.pos p). rewrite Hq. ring.
  - split; [lia|]. by exists 1.
Qed.
Lemma trailing_zeros_loop_spec ws r : Forall (is_u 64) ws -> val ws <> 0 ->
  exists t q, trailing_zeros_loop ws r = r + t /\ 0 <= t /\ val ws = 2 ^ t * q /\ Z.odd q = true.
Proof.
  intros H. revert r. induction H as [|w ws Hw H IH]; intros r Hv; [done|]. cbn [trailing_zeros_loop]. rewrite val_cons in *.
  destruct (Z.eqb_spec w 0) as [->|Nz].
  - destruct (IH (r + 64)) as (t & q & -> & H0 & Hq & Ho); [lia|]. exists (64 + t), q. split; [lia|]. split; [lia|].
    split; [|done]. rewrite Z.pow_add_r, Hq by lia. ring.
  - unfold is_u in Hw. destruct w as [|p|p]; [done| |lia]. cbn [trailing_zeros64].
    destruct (pos_trailing_zeros_spec p) as (H0 & q & Hq & Ho). set (t := pos_trailing_zeros p) in *.
    assert (t < 64) as Ht. { apply (Z.pow_lt_mono_r_iff 2); [lia|lia|]. assert (q <> 0) by (by intros ->). nia. }
    exists t, (q + 2 ^ (64 - t) * val ws). split; [done|]. split; [done|]. split.
    + rewrite Hq. replace (2 ^ 64) with (2 ^ t * 2 ^ (64 - t)) by (rewrite <- Z.pow_add_r by lia; f_equal; lia). ring.
    + rewrite Z.odd_add, Z.odd_mul, Ho, Z.odd_pow by lia. done.
Qed.

(** [zeros_counted]: the leading zeros complete the length of the value in bits
    to the width of the type, and the trailing zeros are the exponent of two in
    the value. *)
Theorem zeros_counted nw a :
  is_uint nw a -> uint_leading_zeros a = 64 * Z.of_nat nw - bit_length (val a) /\
  (val a <> 0 -> exists q, val a = 2 ^ uint_trailing_zeros a * q /\ Z.odd q = true).
Proof.
  intros [L H]. split.
  - unfold uint_leading_zeros. rewrite leading_zeros_loop_spec by by apply Forall_rev.
    rewrite rev_involutive, length_rev, L. lia.
  - intros Hv. destruct (trailing_zeros_loop_spec a 0 H Hv) as (t & q & E & _ & Hq & Ho).
    unfold uint_trailing_zeros. rewrite E. by exists q.
Qed.
Lemma zeros_counted_witness : uint_leading_zeros [8; 1] = 63 /\ exists q, val [8; 1] = 2 ^ uint_trailing_zeros [8; 1] * q /\ Z.odd q = true.
Proof.
  destruct (zeros_counted 2 [8; 1]) as [H1 H2]; [split; [done|repeat constructor; unfold is_u; lia]|].
  split; [exact H1|apply H2; discriminate].
Defined.

(** ** Conversions *)

(** [conversions_exact]: the conversions to machine integers give the value
    exactly when it fits the type; otherwise [as_u64], [as_u32] and [as_usize]
    panic and [try_from] answers an error. *)
Theorem conversions_exact {E} nw a max :
  is_uint (S nw) a -> 0 <= max < 2 ^ 64 ->
  as_u64 (E:=E) a = (if val a <? 2 ^ 64 then Ok (val a) else Panic) /\
  as_u32 (E:=E) a = (if val a <? 2 ^ 32 then Ok (val a) else Panic) /\
  as_usize (E:=E) a = (if val a <? 2 ^ 64 then Ok (val a) else Panic) /\
  try_from max a = (if val a <=? max then Ok (val a) else Err tt) /\
  low_u32 a = val a mod 2 ^ 32.
Proof.
  intros Ha Hm. destruct (fits_word_spec nw a Ha) as [F L]. pose proof (is_uint_bound _ _ Ha) as B.
  unfold as_usize, as_u32, as_u64, try_from, low_u32. rewrite F, L.
  assert (u32 (val a mod 2 ^ 64) = val a mod 2 ^ 32) as Hl.
  { unfold wrap. replace (2 ^ 64) with (2 ^ 32 * 2 ^ 32) by done. rewrite Z.rem_mul_r by lia.
    rewrite (Z.mul_comm (2 ^ 32) (_ mod _)), Z.mod_add, Z.mod_mod by lia. done. }
  rewrite Hl. destruct (Z.ltb_spec (val a) (2 ^ 64)) as [S64|G64]; cbn [negb orb].
  - rewrite (Z.mod_small (val a) (2 ^ 64)) by lia. split; [done|]. rewrite (wrap_id 64) by (unfold is_u; lia).
    rewrite (proj2 (Z.ltb_ge (2 ^ 64 - 1) (val a))) by lia. cbn [mbind result_bind].
    split; [|split; [done|split; [|done]]].
    + destruct (Z.ltb_spec (2 ^ 32 - 1) (val a)), (Z.ltb_spec (val a) (2 ^ 32)); try lia; [done|].
      f_equal. apply wrap_id. unfold is_u. lia.
    + destruct (Z.ltb_spec max (val a)), (Z.leb_spec (val a) max); try lia; done.
  - rewrite (proj2 (Z.ltb_ge (val a) (2 ^ 32))), (proj2 (Z.leb_gt (val a) max)) by lia. done.
Qed.
Lemma conversions_exact_witness : as_u64 (E:=unit) demo_dividend = Panic /\ try_from 255 (from_u64 4 200) = Ok 200.
Proof.
  assert (is_uint 4 (from_u64 4 200)) as W by (exact (proj1 (from_u64_spec 3 200 ltac:(unfold is_u; lia)))).
  destruct (conversions_exact (E:=unit) 3 demo_dividend 0 demo_dividend_words ltac:(lia)) as (H1 & _).
  destruct (conversions_exact (E:=unit) 3 (from_u64 4 200) 255 W ltac:(lia)) as (_ & _ & _ & H2 & _).
  split; [exact H1|exact H2].
Defined.

(** ** Little-endian bytes *)

Definition le_words (nw : nat) (p : bytes) : uint := (fun i => from_be (rev (take 8 (drop (8 * i) p)))) <$> seq 0 nw.
Lemma le_words_S nw p : le_words (S nw) p = from_be (rev (take 8 p)) :: le_words nw (drop 8 p).
Proof.
  unfold le_words. cbn [seq fmap list_fmap]. f_equal. rewrite <- fmap_S_seq, <- list_fmap_compose.
  apply list_fmap_ext. intros i x _. unfold compose. rewrite drop_drop. do 4 f_equal. lia.
Qed.
Lemma le_words_val nw p : is_bytes (8 * nw) p -> is_uint nw (le_words nw p) /\ val (le_words nw p) = from_be (rev p).
Proof.
  revert p. induction nw as [|nw IH]; intros p [L H].
  { destruct p; [|done]. split; [split; [done|constructor]|done]. }
  rewrite le_words_S. destruct (IH (drop 8 p)) as [[L' H'] V]; [split; [rewrite length_drop; lia|by apply Forall_drop]|].
  assert (is_bytes 8 (rev (take 8 p))) as B8 by (split; [rewrite length_rev, length_take; lia|by apply Forall_rev, Forall_take]).
  split; [split; [cbn [length]; lia|constructor; [apply (from_be_bound 8), B8|done]]|].
  rewrite val_cons, V. rewrite <- (take_drop 8 p) at 3. rewrite rev_app_distr, from_be_app, (proj1 B8). change (8 * Z.of_nat 8) with 64. lia.
Qed.
Lemma rev_replicate {A} n (x : A) : rev (replicate n x) = replicate n x.
Proof. rewrite rev_alt. apply reverse_replicate. Qed.
Lemma little_big l : to_little_endian l = rev (to_big_endian l).
Proof.
  induction l as [|d l IH]; [done|]. rewrite to_big_endian_cons, rev_app_distr, <- IH. done.
Qed.

Lemma from_little_value {E} nw s : Forall is_byte s -> (length s <= nw * 8)%nat ->
  from_little_endian (E:=E) nw s = Ok (of_val nw (from_be (rev s))).
Proof.
  intros B Ls. unfold from_little_endian. destruct (Nat.ltb_spec (nw * 8) (length s)); [lia|].
  fold (le_words nw (s ++ replicate (nw * 8 - length s) 0)). f_equal.
  destruct (le_words_val nw (s ++ replicate (nw * 8 - length s) 0)) as [W V].
  - split; [rewrite length_app, length_replicate; lia|]. apply Forall_app. split; [done|apply replicate_bytes].
  - apply of_val_eq; [done|]. by rewrite V, rev_app_distr, rev_replicate, from_be_zeros.
Qed.
Lemma from_to_little {E} nw l : is_uint nw l -> from_little_endian (E:=E) nw (to_little_endian l) = Ok l.
Proof.
  intros Hl. destruct (uint_bytes nw l Hl) as [Lb Bb].
  rewrite little_big, from_little_value by (try rewrite length_rev; try apply Forall_rev; auto; lia). rewrite rev_involutive. f_equal.
  symmetry. apply of_val_eq; [done|]. symmetry. by apply (from_be_uint nw).
Qed.

(** [little_endian_roundtrip]: the little-endian bytes are the big-endian ones
    reversed, and reading them, or any shorter slice, gives the value they stand
    for; a longer slice panics. *)
Theorem little_endian_roundtrip {E} nw l slice :
  is_uint nw l -> Forall is_byte slice ->
  from_little_endian (E:=E) nw (to_little_endian l) = Ok l /\ to_little_endian l = rev (to_big_endian l) /\
  if (nw * 8 <? length slice)%nat then from_little_endian (E:=E) nw slice = Panic
  else from_little_endian (E:=E) nw slice = Ok (of_val nw (from_be (rev slice))).
Proof.
  intros Hl Hs. split; [by apply from_to_little|]. split; [apply little_big|].
  destruct (Nat.ltb_spec (nw * 8) (length slice)); [|by apply from_little_value]. unfold from_little_endian.
  by rewrite (proj2 (Nat.ltb_lt _ _)).
Qed.
Lemma little_endian_roundtrip_witness : from_little_endian (E:=unit) 4 (to_little_endian demo_dividend) = Ok demo_dividend.
Proof. exact (proj1 (little_endian_roundtrip (E:=unit) 4 demo_dividend [] demo_dividend_words ltac:(constructor))). Defined.

(** ** Hexadecimal text *)

Lemma nibbles_spec w : is_u 64 w -> nibbles w = to_digits 4 16 w.
Proof.
  intros Hw. assert (forall s, s ∈ (fun x => (15 - x) * 4) <$> seqZ 0 16 ->
    Z.shiftr (Z.land w (u64 (Z.shiftl 15 s))) s = wrap 4 (w / 2 ^ s)) as Hn.
  { intros s Hs. apply list_elem_of_fmap in Hs as (x & -> & Hx%elem_of_seqZ). set (s := (15 - x) * 4).
    assert (0 <= s <= 60) by lia. rewrite wrap_id.
    - rewrite Z.shiftr_land, Z.shiftr_shiftl_l, Z.sub_diag, Z.shiftl_0_r by lia. change 15 with (Z.ones 4).
      rewrite land_ones_wrap by lia. by rewrite Z.shiftr_div_pow2 by lia.
    - unfold is_u. rewrite Z.shiftl_mul_pow2 by lia. split; [lia|].
      assert (2 ^ s <= 2 ^ 60) by (apply Z.pow_le_mono_r; lia). change (2 ^ 64) with (16 * 2 ^ 60). lia. }
  apply list_eq. intros i. unfold nibbles. rewrite list_lookup_fmap. destruct (decide (i < 16)%nat) as [Hi|Hi].
  - rewrite lookup_seqZ_lt by lia. cbn [fmap option_fmap option_map]. rewrite Hn.
    + do 16 (destruct i as [|i]; [done|]). lia.
    + apply list_elem_of_fmap. exists (0 + Z.of_nat i). split; [done|]. apply elem_of_seqZ. lia.
  - rewrite lookup_seqZ_ge by lia. symmetry. apply lookup_ge_None_2. rewrite length_to_digits. lia.
Qed.

Definition all_nibbles (l : uint) : list Z := concat (nibbles <$> rev l).
Lemma from_digits_app k a b : 0 <= k -> from_digits k (a ++ b) = from_digits k a * 2 ^ (k * len b) + from_digits k b.
Proof. intros Hk. unfold from_digits at 1. rewrite fold_left_app. by rewrite (fold_digits_acc k Hk). Qed.
Lemma all_nibbles_spec l : Forall (is_u 64) l ->
  Forall (is_u 4) (all_nibbles l) /\ length (all_nibbles l) = (16 * length l)%nat /\ from_digits 4 (all_nibbles l) = val l.
Proof.
  intros H. induction H as [|d l Hd H (IB & IL & IV)]; [done|].
  assert (all_nibbles (d :: l) = all_nibbles l ++ to_digits 4 16 d) as ->.
  { unfold all_nibbles. cbn [rev]. rewrite fmap_app, concat_app. cbn [fmap list_fmap concat]. by rewrite app_nil_r, nibbles_spec. }
  split; [|split].
  - apply Forall_app. split; [done|]. by apply to_digits_bound.
  - rewrite length_app, length_to_digits, IL. cbn [length]. lia.
  - rewrite from_digits_app, length_to_digits, IV, from_to_digits, val_cons by lia. change (4 * Z.of_nat 16) with 64.
    rewrite Z.mod_small by apply Hd. lia.
Qed.
Lemma latch_true is_lower ns : latch_loop is_lower true ns = nibble_char is_lower <$> ns.
Proof. induction ns as [|n ns IH]; [done|]. cbn [latch_loop negb fmap list_fmap]. by rewrite IH. Qed.
Lemma latch_false is_lower ns : latch_loop is_lower false ns = nibble_char is_lower <$> skip_zeros ns.
Proof.
  induction ns as [|n ns IH]; [done|]. cbn [latch_loop skip_zeros negb]. destruct (n =? 0); cbn [negb]; [exact IH|].
  cbn [fmap list_fmap]. by rewrite latch_true.
Qed.
Lemma from_digits_zeros k n l : 0 <= k -> from_digits k (replicate n 0 ++ l) = from_digits k l.
Proof.
  intros Hk. rewrite from_digits_app by done. replace (from_digits k (replicate n 0)) with 0; [lia|].
  induction n as [|n IH]; [done|]. cbn [replicate]. rewrite from_digits_cons by done. lia.
Qed.

(** The digits of the text: those of the value without leading zeros, or one. *)
Definition text_digits (l : uint) : list Z := if is_zero l then [0] else skip_zeros (all_nibbles l).
Lemma fmt_hex_digits alternate is_lower l :
  fmt_hex alternate is_lower l = (if alternate then lit "0x" else []) ++ (nibble_char is_lower <$> text_digits l).
Proof.
  unfold fmt_hex, text_digits. f_equal. destruct (is_zero l); [by destruct is_lower|]. apply latch_false.
Qed.
Lemma text_digits_spec nw l : is_uint (S nw) l ->
  Forall (is_u 4) (text_digits l) /\ (length (text_digits l) <= 16 * S nw)%nat /\ from_digits 4 (text_digits l) = val l.
Proof.
  intros [L H]. unfold text_digits. rewrite is_zero_spec by done. destruct (Z.eqb_spec (val l) 0) as [->|Nz].
  - split; [repeat constructor; unfold is_u; lia|]. split; [cbn; lia|done].
  - destruct (all_nibbles_spec l H) as (B & Ln & V). destruct (skip_zeros_spec (all_nibbles l)) as (n & E & _).
    rewrite E in B, V. apply Forall_app in B as [_ B]. rewrite from_digits_zeros in V by lia.
    pose proof (length_skip (all_nibbles l)). split; [done|]. split; [lia|done].
Qed.

Lemma nibble_char_not_x is_lower d : is_u 4 d -> nibble_char is_lower d <> 120 /\ hex_digit (nibble_char is_lower d) = Some d.
Proof.
  intros Hd. assert (Forall (fun d => nibble_char is_lower d <> 120 /\ hex_digit (nibble_char is_lower d) = Some d) (seqZ 0 16)) as F
    by (destruct is_lower; repeat constructor; done).
  apply (proj1 (Forall_forall _ _) F), list_elem_of_In, elem_of_seqZ. unfold is_u in Hd. change (2 ^ 4) with 16 in Hd. lia.
Qed.
Lemma strip_text (alternate is_lower : bool) ds : Forall (is_u 4) ds ->
  fst (strip_0x ((if alternate then lit "0x" else []) ++ (nibble_char is_lower <$> ds))) = nibble_char is_lower <$> ds.
Proof.
  intros H. destruct alternate; [done|]. cbn [app].
  assert (forall c1 c2 s, c2 <> 120 -> fst (strip_0x (c1 :: c2 :: s)) = c1 :: c2 :: s) as S2.
  { intros c1 c2 s Hc. unfold strip_0x. repeat case_match; simplify_eq; done. }
  destruct H as [|d1 ds H1 H]; [done|]. destruct H as [|d2 ds H2 H]; cbn [fmap list_fmap].
  - unfold strip_0x. repeat case_match; simplify_eq; done.
  - apply S2. by apply nibble_char_not_x.
Qed.

Section hex_text.
Context {H : HexCrate} {HL : HexCrateLaws}.

(** [hex_text_roundtrip]: [from_str] reads back what [{:x}], [{:X}], [{:#x}] and
    [{:#X}] print. *)
Theorem hex_text_roundtrip nw l alternate is_lower :
  is_uint (S nw) l -> hex_from_str (S nw) (fmt_hex alternate is_lower l) = Ok l.
Proof.
  intros Hl. destruct (text_digits_spec nw l Hl) as (B & L & V). rewrite fmt_hex_digits. unfold hex_from_str.
  rewrite strip_text by done. rewrite length_fmap. rewrite (proj2 (Nat.ltb_ge _ _)) by lia.
  set (ds := if Nat.even (length (text_digits l)) then text_digits l else 0 :: text_digits l).
  assert ((if Nat.even (length (text_digits l)) then nibble_char is_lower <$> text_digits l
           else 48 :: (nibble_char is_lower <$> text_digits l)) = nibble_char is_lower <$> ds) as ->.
  { subst ds. destruct (Nat.even _); [done|]. by destruct is_lower. }
  assert (Forall (is_u 4) ds /\ from_digits 4 ds = val l /\ (exists n, length ds = (2 * n)%nat /\ (n <= S nw * 8)%nat)) as (Bd & Vd & n & Ln & Hn).
  { subst ds. pose proof (Nat.even_spec (length (text_digits l))) as Ev. pose proof (Nat.odd_spec (length (text_digits l))) as Od.
    unfold Nat.odd in Od. destruct (Nat.even (length (text_digits l))).
    - destruct (proj1 Ev eq_refl) as [m Hm]. split; [done|]. split; [done|]. exists m. split; [done|lia].
    - destruct (proj1 Od eq_refl) as [m Hm]. split; [constructor; [unfold is_u; lia|done]|].
      split; [by rewrite from_digits_cons by lia|]. exists (S m). cbn [length]. split; lia. }
  rewrite length_fmap, Ln. replace (2 * n / 2)%nat with n by (rewrite Nat.mul_comm; symmetry; by apply Nat.div_mul).
  destruct (hex_to_slice_digits is_lower ds n Bd Ln) as (out & -> & [Lo Bo] & Vo). cbn [mbind result_bind].
  apply uint_from_short; [done| | |].
  - apply Forall_app. split; [apply replicate_bytes|done].
  - rewrite length_app, length_replicate. lia.
  - by rewrite from_be_zeros, Vo.
Qed.
End hex_text.

(** A decoder with the documented behaviour *)
Fixpoint decode_digit_pairs (s : bytes) : result unit bytes :=
  match s with
  | [] => Ok []
  | c1 :: c2 :: s =>
      match hex_digit c1, hex_digit c2 with
      | Some d1, Some d2 => b ← decode_digit_pairs s; Ok (d1 * 16 + d2 :: b)
      | _, _ => Err tt
      end
  | _ => Err tt
  end.
Definition example_hex : HexCrate := {|
  HexError := unit; InvalidStringLength := tt;
  hex_to_slice s n := if (length s =? 2 * n)%nat then decode_digit_pairs s else Err tt;
|}.
Definition example_hex_laws : @HexCrateLaws example_hex.
Proof.
  constructor. intros is_lower ds n Hd Hl. cbn [hex_to_slice example_hex]. rewrite length_fmap, Hl, Nat.eqb_refl.
  revert ds Hl Hd. induction n as [|n IH]; intros ds Hl Hd.
  { destruct ds; [|done]. by exists []. }
  destruct ds as [|d1 [|d2 ds]]; [done|cbn in Hl; lia|]. inversion_clear Hd as [|? ? H1 Hd']. inversion_clear Hd' as [|? ? H2 Hd''].
  destruct (IH ds) as (out & E & [Lo Bo] & V); [cbn in Hl; lia|done|]. exists (d1 * 16 + d2 :: out).
  cbn [fmap list_fmap decode_digit_pairs].
  rewrite (proj2 (nibble_char_not_x is_lower d1 H1)), (proj2 (nibble_char_not_x is_lower d2 H2)), E. cbn [mbind result_bind].
  unfold is_u in *. change (2 ^ 4) with 16 in *. split; [done|]. split.
  - split; [cbn [length]; lia|]. constructor; [unfold is_byte, is_u; change (2 ^ 8) with 256; lia|done].
  - rewrite from_be_cons, Lo, V, !from_digits_cons by lia. cbn [length] in *.
    replace (4 * Z.of_nat (S (length ds))) with (4 + 8 * Z.of_nat n) by lia.
    replace (4 * len ds) with (8 * Z.of_nat n) by lia. rewrite Z.pow_add_r by lia. ring.
Qed.
Lemma hex_text_roundtrip_witness :
  hex_from_str (H:=example_hex) 4 (fmt_hex true false demo_dividend) = Ok demo_dividend.
Proof. exact (hex_text_roundtrip (H:=example_hex) (HL:=example_hex_laws) 3 demo_dividend true false demo_dividend_words). Defined.
