(* ===== verification/FixedHash.v ===== *)
(** * Fixed-size hashes and the conversions of the primitive types

    Sources: src/common/fixed-hash/src/hash.rs ([construct_fixed_hash!]), the
    conversions and protobuf messages of src/common/primitive-types/src/lib.rs,
    and src/common/primitive-types/impls/{bincode,codec}.

    A hash type of [n] bytes is the lists of [n] bytes.  The hexadecimal iterator
    of [rustc_hex], the byte arrays of bincode and SCALE and the field encoding of
    prost are classes with what their crates document. *)
From S2P Require Import Prelude Uint UintProofs UintDiv UintTheorems Hex UintMore.

(** ** Hash types *)

Definition repeat_byte (n : nat) (b : Z) : bytes := replicate n b.
Definition hash_zero (n : nat) : bytes := repeat_byte n 0.
(** [assign_from_slice] replaces the whole hash. *)
Definition assign_from_slice {E} (n : nat) (src : bytes) : result E bytes := fixed_bytes n src.
Definition from_slice {E} (n : nat) (src : bytes) : result E bytes :=
  if (length src =? n)%nat then assign_from_slice n src else Panic.
Definition hash_is_zero (h : bytes) : bool := forallb (fun b => b =? 0) h.

(** [impl_ops_for_hash!] and [covers] *)
Definition hash_or (a b : bytes) : bytes := zip_with Z.lor a b.
Definition hash_and (a b : bytes) : bytes := zip_with Z.land a b.
Definition hash_xor (a b : bytes) : bytes := zip_with Z.lxor a b.
Definition covers (self b : bytes) : bool := bool_decide (hash_and b self = b).

(** Text; [{:02X}] prints the digits of [nibble_char false]. *)
Definition hex_pair_upper (b : Z) : str := [nibble_char false (Z.shiftr b 4); nibble_char false (Z.land b 0xf)].
Definition hash_lower_hex (alternate : bool) (h : bytes) : str := (if alternate then lit "0x" else []) ++ flat_map hex_pair h.
Definition hash_upper_hex (alternate : bool) (h : bytes) : str :=
  (if alternate then lit "0X" else []) ++ flat_map hex_pair_upper h.
Definition hash_display (h : bytes) : str :=
  lit "0x" ++ flat_map hex_pair (take 2 h) ++ [0x2026] ++ flat_map hex_pair (drop (length h - 2) h).

(** [impl_byteorder_for_fixed_hash!] *)
Definition least_significant_bytes {E} (self : bytes) (n : nat) : result E bytes :=
  if (n <=? length self)%nat then Ok (drop (length self - n) self) else Panic.
Definition to_low_u64 {E} (read_u64 : bytes -> Z) (self : bytes) : result E Z :=
  let capped := Nat.min (length self) 8 in
  b ← least_significant_bytes self capped;
  Ok (read_u64 (replicate (8 - capped) 0 ++ b)).
Definition to_low_u64_be {E} (self : bytes) : result E Z := to_low_u64 from_be self.
Definition to_low_u64_le {E} (self : bytes) : result E Z := to_low_u64 (fun b => from_be (rev b)) self.
Definition from_low_u64 {E} (n : nat) (buf : bytes) : result E bytes :=
  let capped := Nat.min n 8 in
  from_slice n (replicate (n - capped) 0 ++ take capped buf).
Definition from_low_u64_be {E} (n : nat) (val : Z) : result E bytes := from_low_u64 n (to_be 8 val).
Definition from_low_u64_le {E} (n : nat) (val : Z) : result E bytes := from_low_u64 n (rev (to_be 8 val)).

(** [impl_fixed_hash_conversions!] *)
Definition hash_widen (large : nat) (value : bytes) : bytes := replicate (large - length value) 0 ++ value.
Definition hash_narrow (small : nat) (value : bytes) : bytes := drop (length value - small) value.

(** [rustc_hex::FromHexIter]: the items it produces *)
Inductive HexIterError := InvalidHexCharacter (c index : Z) | InvalidHexLength.
Class RustcHex := { from_hex_iter : str -> list (result HexIterError Z) }.
Class RustcHexLaws {R : RustcHex} : Prop := {
  from_hex_pairs b : Forall is_byte b -> from_hex_iter (flat_map hex_pair b) = Ok <$> b;
  from_hex_invalid c s : hex_valid c = false -> exists items, from_hex_iter (48 :: c :: s) = Err (InvalidHexCharacter c 1) :: items;
}.

Section from_str.
Context {R : RustcHex}.
Fixpoint fill_hash (n : nat) (items : list (result HexIterError Z)) : result HexIterError (bytes * list (result HexIterError Z)) :=
  match n with
  | O => Ok ([], items)
  | S n =>
      match items with
      | [] => Err InvalidHexLength
      | item :: items => b ← item; '(rest, items) ← fill_hash n items; Ok (b :: rest, items)
      end
  end.
Definition hash_from_str (n : nat) (input : str) : result HexIterError bytes :=
  '(r, items) ← fill_hash n (from_hex_iter (fst (strip_0x input)));
  match items with [] => Ok r | _ => Err InvalidHexLength end.
End from_str.

(** ** Integers of several sizes *)

(** [U128::full_mul] and [U256::full_mul] *)
Definition full_mul (a b : uint) : uint := uint_full_mul_reg a b.
(** [From<U256> for U512], [From<U128> for U512] and [From<U128> for U256] *)
Definition uint_widen (large : nat) (a : uint) : uint := a ++ replicate (large - length a) 0.
(** [TryFrom<U256> for U128], [TryFrom<U512> for U256] and [TryFrom<U512> for U128]:
    the higher words are or-ed together. *)
Definition uint_narrow (small : nat) (a : uint) : result unit uint :=
  if negb (foldr Z.lor 0 (drop small a) =? 0) then Err tt else Ok (take small a).

(** ** Codecs *)

(** A byte array [[u8; n]] in bincode and in SCALE *)
Class ArrayCodec := {
  CodecError : Type;
  array_encode : bytes -> bytes;
  array_decode : nat -> bytes -> result CodecError (bytes * bytes);
}.
Class ArrayCodecLaws {C : ArrayCodec} : Prop := {
  array_roundtrip n b rest : is_bytes n b -> array_decode n (array_encode b ++ rest) = Ok (b, rest);
  array_decode_bytes n s b rest : array_decode n s = Ok (b, rest) -> Forall is_byte s -> is_bytes n b;
}.
Section codec.
Context {C : ArrayCodec}.
(** [impl_uint_bincode!] and [impl_uint_codec!] *)
Definition uint_codec_encode (a : uint) : bytes := array_encode (to_little_endian a).
Definition uint_codec_decode (nw : nat) (input : bytes) : result CodecError (uint * bytes) :=
  '(b, rest) ← array_decode (nw * 8) input;
  a ← from_little_endian nw b; Ok (a, rest).
(** [impl_fixed_hash_bincode!] and [impl_fixed_hash_codec!] *)
Definition hash_codec_encode (h : bytes) : bytes := array_encode h.
Definition hash_codec_decode (n : nat) (input : bytes) : result CodecError (bytes * bytes) := array_decode n input.
End codec.

(** The field encoding of prost *)
Inductive WireType := Varint | SixtyFourBit | LengthDelimited | StartGroup | EndGroup | ThirtyTwoBit.
Class ProstField := {
  DecodeError : Type;
  bytes_encode : Z -> bytes -> bytes;
  decode_key : bytes -> result DecodeError (Z * WireType * bytes);
  bytes_merge : WireType -> bytes -> result DecodeError (bytes * bytes);
  skip_field : WireType -> Z -> bytes -> result DecodeError bytes;
  key_len : Z -> Z;
  encoded_len_varint : Z -> Z;
}.
Class ProstFieldLaws {P : ProstField} : Prop := {
  field_roundtrip tag v rest : 1 <= tag < 2 ^ 29 -> Forall is_byte v ->
    exists tail, decode_key (bytes_encode tag v ++ rest) = Ok (tag, LengthDelimited, tail) /\
      bytes_merge LengthDelimited tail = Ok (v, rest);
  field_len tag v : 1 <= tag < 2 ^ 29 -> len (bytes_encode tag v) = key_len tag + encoded_len_varint (len v) + len v;
}.
Section prost.
Context {P : ProstField}.
(** [impl_prost_message!]: [read] is [from_slice] or, for the integers,
    [from_big_endian]. *)
Definition message_encode_raw (b : bytes) : bytes := bytes_encode 1 b.
Definition message_merge_field {A} (read : bytes -> result DecodeError A) (self : A) (tag : Z) (wire_type : WireType)
    (buf : bytes) : result DecodeError (A * bytes) :=
  if tag =? 1 then '(b, buf) ← bytes_merge wire_type buf; a ← read b; Ok (a, buf)
  else buf ← skip_field wire_type tag buf; Ok (self, buf).
Definition hash_merge_field (n : nat) (self : bytes) := message_merge_field (from_slice n) self.
Definition uint_merge_field (nw : nat) (self : uint) := message_merge_field (from_big_endian nw) self.
Definition message_encoded_len (n : Z) : Z := key_len 1 + encoded_len_varint n + n.
End prost.

(** ** Theorems on hashes *)

Lemma from_slice_ok {E} n src : from_slice (E:=E) n src = if (length src =? n)%nat then Ok src else Panic.
Proof.
  unfold from_slice, assign_from_slice, fixed_bytes. destruct (Nat.eqb_spec (length src) n); [|done]. by rewrite decide_True.
Qed.
Lemma from_be_drop_mod h k : Forall is_byte h -> (k <= length h)%nat ->
  from_be (drop (length h - k) h) = from_be h mod 2 ^ (8 * Z.of_nat k).
Proof.
  intros H Hk.
  assert (from_be h = from_be (take (length h - k) h ++ drop (length h - k) h)) as -> by by rewrite take_drop.
  rewrite from_be_app, length_drop.
  replace (length h - (length h - k))%nat with k by lia.
  assert (is_bytes k (drop (length h - k) h)) as B by (split; [rewrite length_drop; lia|by apply Forall_drop]).
  apply from_be_bound in B. unfold is_u in B. rewrite Z.add_comm, Z.mod_add, Z.mod_small; lia.
Qed.

(** [low_u64_value]: the low word of a hash is its value modulo 2^64, and a word
    put into a hash of at least eight bytes is read back; into fewer bytes it is
    its most significant bytes that are kept. *)
Theorem low_u64_value {E} h n v :
  Forall is_byte h -> is_u 64 v ->
  to_low_u64_be (E:=E) h = Ok (from_be h mod 2 ^ 64) /\
  ((8 <= n)%nat -> exists r, from_low_u64_be (E:=E) n v = Ok r /\ is_bytes n r /\ from_be r = v) /\
  ((n < 8)%nat -> from_low_u64_be (E:=E) n v = Ok (to_be n (v / 2 ^ (8 * (8 - Z.of_nat n))))).
Proof.
  intros Hh Hv. split; [|split].
  - unfold to_low_u64_be, to_low_u64, least_significant_bytes. rewrite (proj2 (Nat.leb_le _ _)) by lia. cbn [mbind result_bind].
    rewrite from_be_zeros, from_be_drop_mod by (done || lia). f_equal. destruct (Nat.le_ge_cases 8 (length h)).
    + by rewrite Nat.min_r.
    + rewrite Nat.min_l by lia. pose proof (from_be_bound _ _ (conj eq_refl Hh)) as B. unfold is_u in B.
      rewrite Z.mod_small by lia. symmetry. apply Z.mod_small. split; [lia|].
      eapply Z.lt_le_trans; [apply B|]. apply Z.pow_le_mono_r; lia.
  - intros Hn. unfold from_low_u64_be, from_low_u64. rewrite Nat.min_r by done.
    rewrite take_ge by by rewrite length_to_be. rewrite from_slice_ok, length_app, length_replicate, length_to_be.
    rewrite (proj2 (Nat.eqb_eq _ _)) by lia. eexists. split; [reflexivity|]. split; [split|].
    + rewrite length_app, length_replicate, length_to_be. lia.
    + apply Forall_app. split; [apply replicate_bytes|apply to_be_bytes].
    + rewrite from_be_zeros. by apply from_to_be_id.
  - intros Hn. unfold from_low_u64_be, from_low_u64. rewrite Nat.min_l, Nat.sub_diag by lia. cbn [replicate app].
    rewrite from_slice_ok, length_take, length_to_be. rewrite (proj2 (Nat.eqb_eq _ _)) by lia. f_equal.
    apply (from_be_inj n); [split; [rewrite length_take, length_to_be; lia|apply Forall_take, to_be_bytes]|apply is_bytes_to_be|].
    rewrite from_to_be. pose proof (take_drop n (to_be 8 v)) as D. apply (f_equal from_be) in D.
    rewrite from_to_be_id in D by done. rewrite from_be_app, length_drop, length_to_be in D.
    assert (is_bytes (8 - n) (drop n (to_be 8 v))) as B by (split; [by rewrite length_drop, length_to_be|apply Forall_drop, to_be_bytes]).
    assert (is_bytes n (take n (to_be 8 v))) as B' by (split; [rewrite length_take, length_to_be; lia|apply Forall_take, to_be_bytes]).
    apply from_be_bound in B, B'. unfold is_u in B, B'.
    replace (8 * (8 - Z.of_nat n)) with (8 * Z.of_nat (8 - n)) by lia.
    assert (v / 2 ^ (8 * Z.of_nat (8 - n)) = from_be (take n (to_be 8 v))) as ->; [|symmetry; by apply Z.mod_small].
    symmetry. apply (Z.div_unique_pos _ _ _ (from_be (drop n (to_be 8 v)))); lia.
Qed.
Lemma low_u64_value_witness :
  to_low_u64_be (E:=unit) [1; 2; 3] = Ok 66051 /\ from_low_u64_be (E:=unit) 2 (2 ^ 56) = Ok [1; 0].
Proof.
  destruct (low_u64_value (E:=unit) [1; 2; 3] 2 (2 ^ 56)) as (H1 & _ & H2); [by repeat constructor|unfold is_u; lia|].
  split; [exact H1|apply H2; lia].
Defined.

(** [hash_conversions]: a smaller hash comes back from a larger one, a larger
    one is cut to its low bytes, and comparing hashes compares the numbers they
    stand for. *)
Theorem hash_conversions small large h h' :
  (small <= large)%nat -> is_bytes small h -> is_bytes large h' ->
  is_bytes large (hash_widen large h) /\ hash_narrow small (hash_widen large h) = h /\
  from_be (hash_widen large h) = from_be h /\
  is_bytes small (hash_narrow small h') /\ from_be (hash_narrow small h') = from_be h' mod 2 ^ (8 * Z.of_nat small) /\
  bytes_cmp (hash_widen large h) h' = Z.compare (from_be h) (from_be h').
Proof.
  intros Hle [L H] [L' H']. unfold hash_widen, hash_narrow.
  assert (is_bytes large (replicate (large - length h) 0 ++ h)) as B.
  { split; [rewrite length_app, length_replicate; lia|]. apply Forall_app. split; [apply replicate_bytes|done]. }
  split; [exact B|]. split; [|split; [apply from_be_zeros|split; [|split]]].
  - apply drop_app_length'. rewrite length_app, length_replicate. lia.
  - split; [rewrite length_drop; lia|by apply Forall_drop].
  - apply from_be_drop_mod; [done|lia].
  - rewrite (bytes_cmp_from_be large) by (done || by split). by rewrite from_be_zeros.
Qed.
Lemma hash_conversions_witness : hash_narrow 2 (hash_widen 4 [7; 9]) = [7; 9].
Proof.
  refine (proj1 (proj2 (hash_conversions 2 4 [7; 9] [1; 2; 3; 4] _ _ _))); [lia| |]; (split; [done|by repeat constructor]).
Defined.

(** [covers_bits]: [covers] holds exactly when every bit of the argument is set
    in the hash. *)
Theorem covers_bits n h b :
  is_bytes n h -> is_bytes n b ->
  covers h b = true <-> forall k i, 0 <= i -> Z.testbit (word b k) i = true -> Z.testbit (word h k) i = true.
Proof.
  intros [Lh Hh] [Lb Hb]. unfold covers. rewrite bool_decide_eq_true. unfold hash_and.
  assert (forall k, word (zip_with Z.land b h) k = Z.land (word b k) (word h k)) as W by (intros k; apply zip_with_word; [done|lia]).
  split.
  - intros E k i Hi Ht. specialize (W k). rewrite E in W. rewrite W, Z.land_spec in Ht. by apply andb_true_iff in Ht as [_ Ht].
  - intros Ht. apply list_eq. intros k. destruct (decide (k < n)%nat) as [Hk|Hk].
    + rewrite !lookup_word by (rewrite ?length_zip_with; lia). f_equal. rewrite W. apply Z.bits_inj'. intros i Hi. rewrite Z.land_spec.
      destruct (Z.testbit (word b k) i) eqn:Eb; [|done]. by rewrite (Ht k i).
    + rewrite !lookup_ge_None_2; [done|lia|rewrite length_zip_with; lia].
Qed.
Lemma covers_bits_witness : forall k i, 0 <= i -> Z.testbit (word [1; 4] k) i = true -> Z.testbit (word [3; 4] k) i = true.
Proof. refine (proj1 (covers_bits 2 [3; 4] [1; 4] _ _) _); [| |reflexivity]; (split; [done|by repeat constructor]). Defined.

Section hash_text.
Context {R : RustcHex} {RL : RustcHexLaws}.
Lemma fill_hash_ok b items : fill_hash (length b) ((Ok <$> b) ++ items) = Ok (b, items).
Proof. induction b as [|x b IH]; [done|]. cbn [length fill_hash fmap list_fmap app mbind result_bind]. by rewrite IH. Qed.

(** [hash_text_roundtrip]: a hash is read back from the text [{:x}] and [{:#x}]
    print, and never from the text of [{:#X}], whose prefix is not removed. *)
Theorem hash_text_roundtrip n h alternate :
  is_bytes n h -> hash_from_str n (hash_lower_hex alternate h) = Ok h /\
  (h <> [] -> exists e, hash_from_str n (hash_upper_hex true h) = Err e).
Proof.
  intros [L H]. split.
  - unfold hash_from_str, hash_lower_hex.
    assert (fst (strip_0x ((if alternate then lit "0x" else []) ++ flat_map hex_pair h)) = flat_map hex_pair h) as ->.
    { destruct alternate; [done|]. cbn [app]. destruct h as [|b h]; [done|]. inversion_clear H as [|? ? Hb _].
      destruct (nibble_range b Hb) as (_ & H2 & _). pose proof (proj2 (hex_digit_char _ H2)) as Nx. cbn [flat_map hex_pair app].
      unfold strip_0x. repeat case_match; simplify_eq; done. }
    rewrite from_hex_pairs by done. rewrite <- (app_nil_r (Ok <$> h)). rewrite <- L, fill_hash_ok. done.
  - intros Hne. unfold hash_from_str, hash_upper_hex. destruct (from_hex_invalid 88 (flat_map hex_pair_upper h)) as [items E]; [done|].
    change (fst (strip_0x (lit "0X" ++ flat_map hex_pair_upper h))) with (48 :: 88 :: flat_map hex_pair_upper h). rewrite E.
    destruct n as [|n]; [by destruct h|]. cbn [fill_hash mbind result_bind]. by eexists.
Qed.
End hash_text.

(** ** Theorems on integers and codecs *)

Lemma lor_words_zero ws : Forall (is_u 64) ws -> (foldr Z.lor 0 ws =? 0) = (val ws =? 0).
Proof.
  induction 1 as [|w ws Hw H IH]; [done|]. cbn [foldr]. rewrite val_cons. pose proof (val_bound ws H). unfold is_u in Hw.
  destruct (Z.eqb_spec (Z.lor w (foldr Z.lor 0 ws)) 0) as [E|E].
  - apply Z.lor_eq_0_iff in E as [-> E]. rewrite E in IH. symmetry in IH. apply Z.eqb_eq in IH. rewrite IH. done.
  - symmetry. apply Z.eqb_neq. intros V. apply E. assert (w = 0 /\ val ws = 0) as [-> V'] by lia.
    rewrite V' in IH. apply Z.eqb_eq in IH. by rewrite IH.
Qed.

Lemma full_mul_spec nw a b : is_uint nw a -> is_uint nw b -> is_uint (nw * 2) (full_mul a b) /\ val (full_mul a b) = val a * val b.
Proof.
  intros [La Ha] [Lb Hb]. unfold full_mul, uint_full_mul_reg.
  destruct (mul_rows_spec (mul_check (length a)) a b 0 (replicate (length a * 2) 0)) as (Hw & Hl & V); auto with words.
  { unfold mul_check. intros x c. destruct (Nat.eqb _ 8); [|discriminate].
    intros [Hx Hc]%orb_false_iff. apply negb_false_iff, Z.eqb_eq in Hx, Hc. done. }
  { by rewrite length_replicate. } { lia. } { rewrite val_replicate_0. apply pw_pos. }
  rewrite length_replicate in Hl. split; [split; [lia|done]|]. rewrite V, val_replicate_0, pw_0. lia.
Qed.

(** [uint_conversions]: widening keeps the value, narrowing succeeds exactly when
    the value fits, and [full_mul] is the exact product. *)
Theorem uint_conversions small large a b :
  (small <= large)%nat -> is_uint small a -> is_uint large b ->
  (is_uint large (uint_widen large a) /\ val (uint_widen large a) = val a) /\
  uint_narrow small b = (if val b <? pw small then Ok (of_val small (val b)) else Err tt) /\
  (forall c, is_uint small c -> is_uint (small * 2) (full_mul a c) /\ val (full_mul a c) = val a * val c).
Proof.
  intros Hle [La Ha] [Lb Hb]. split; [|split].
  - unfold uint_widen. split; [split; [rewrite length_app, length_replicate; lia|]|].
    + apply Forall_app. split; [done|]. apply words_replicate. unfold is_u. lia.
    + rewrite val_app, val_replicate_0. lia.
  - unfold uint_narrow. rewrite lor_words_zero by by apply Forall_drop. rewrite val_drop by (done || lia).
    pose proof (val_bound b Hb) as B. pose proof (pw_pos small) as Pp.
    destruct (Z.ltb_spec (val b) (pw small)).
    + rewrite Z.div_small by lia. cbn [Z.eqb negb]. f_equal. apply of_val_eq.
      * split; [rewrite length_take; lia|by apply Forall_take].
      * rewrite val_take by (done || lia). apply Z.mod_small. lia.
    + assert (1 <= val b / pw small) by (apply Z.div_le_lower_bound; lia). rewrite (proj2 (Z.eqb_neq _ _)) by lia. done.
  - intros c Hc. by apply full_mul_spec.
Qed.
Lemma uint_conversions_witness : uint_narrow 2 [5; 6; 0; 0] = Ok (of_val 2 (val [5; 6; 0; 0])) /\ val (full_mul [5; 6] [7; 8]) = val [5; 6] * val [7; 8].
Proof.
  destruct (uint_conversions 2 4 [5; 6] [5; 6; 0; 0]) as (_ & H1 & H2);
    [lia|split; [done|repeat constructor; unfold is_u; lia]..|].
  split; [exact H1|]. apply H2. split; [done|repeat constructor; unfold is_u; lia].
Defined.

Section codecs.
Context {C : ArrayCodec} {CL : ArrayCodecLaws}.

(** [codec_roundtrip]: integers and hashes are read back from bincode and SCALE,
    and decoding an integer never panics. *)
Theorem codec_roundtrip nw n a h rest input :
  is_uint nw a -> is_bytes n h -> Forall is_byte input ->
  uint_codec_decode nw (uint_codec_encode a ++ rest) = Ok (a, rest) /\
  hash_codec_decode n (hash_codec_encode h ++ rest) = Ok (h, rest) /\
  (uint_codec_decode nw input = Panic -> array_decode (nw * 8) input = Panic).
Proof.
  intros Ha Hh Hi. split; [|split; [by apply array_roundtrip|]].
  - unfold uint_codec_decode, uint_codec_encode. destruct (uint_bytes nw a Ha) as [L B].
    assert (is_bytes (nw * 8) (to_little_endian a)) as Bl by (rewrite little_big; split; [rewrite length_rev; lia|by apply Forall_rev]).
    rewrite (array_roundtrip (nw * 8)) by done. cbn [mbind result_bind].
    by rewrite from_to_little.
  - unfold uint_codec_decode. destruct (array_decode (nw * 8) input) as [[b r]|e|] eqn:E; [|done|done]. cbn [mbind result_bind].
    apply array_decode_bytes in E as [Lb Bb]; [|done].
    by rewrite from_little_value by (done || lia).
Qed.
End codecs.

Section messages.
Context {P : ProstField} {PL : ProstFieldLaws}.

(** [message_roundtrip]: the protobuf message of a hash and of an integer reads
    back and has the announced length; a field of another length than the hash,
    or longer than the integer, panics instead of being refused. *)
Theorem message_roundtrip n h nw a self self' v rest :
  is_bytes n h -> is_uint nw a -> Forall is_byte v ->
  (exists tail, decode_key (message_encode_raw h ++ rest) = Ok (1, LengthDelimited, tail) /\
     hash_merge_field n self 1 LengthDelimited tail = Ok (h, rest)) /\
  len (message_encode_raw h) = message_encoded_len (Z.of_nat n) /\
  (exists tail, decode_key (message_encode_raw (to_big_endian a) ++ rest) = Ok (1, LengthDelimited, tail) /\
     uint_merge_field nw self' 1 LengthDelimited tail = Ok (a, rest)) /\
  (exists tail, decode_key (message_encode_raw v ++ rest) = Ok (1, LengthDelimited, tail) /\
     (length v <> n -> hash_merge_field n self 1 LengthDelimited tail = Panic) /\
     ((nw * 8 < length v)%nat -> uint_merge_field nw self' 1 LengthDelimited tail = Panic)).
Proof.
  intros [L H] Ha Hv. unfold message_encode_raw, hash_merge_field, uint_merge_field, message_merge_field.
  destruct (uint_bytes nw a Ha) as [Lu Bu]. assert (1 <= 1 < 2 ^ 29) as H1 by lia. split; [|split; [|split]].
  - destruct (field_roundtrip 1 h rest H1 H) as (tail & E1 & E2). exists tail. split; [exact E1|]. cbn [Z.eqb Pos.eqb]. rewrite E2.
    cbn [mbind result_bind]. rewrite from_slice_ok, L, Nat.eqb_refl. done.
  - rewrite field_len, L by done. done.
  - destruct (field_roundtrip 1 (to_big_endian a) rest H1 Bu) as (tail & E1 & E2). exists tail. split; [exact E1|].
    cbn [Z.eqb Pos.eqb]. rewrite E2. cbn [mbind result_bind].
    by rewrite (uint_from_short nw a (to_big_endian a) Ha Bu ltac:(lia) (from_be_uint nw a Ha)).
  - destruct (field_roundtrip 1 v rest H1 Hv) as (tail & E1 & E2). exists tail. split; [exact E1|]. cbn [Z.eqb Pos.eqb]. rewrite E2.
    cbn [mbind result_bind]. split; intros Hl.
    + rewrite from_slice_ok, (proj2 (Nat.eqb_neq _ _)) by done. done.
    + unfold from_big_endian. by rewrite (proj2 (Nat.ltb_lt _ _)).
Qed.
End messages.

(** ** Instances *)

Fixpoint example_iter (index : Z) (s : str) : list (result HexIterError Z) :=
  match s with
  | [] => []
  | c1 :: c2 :: s =>
      match hex_digit c1, hex_digit c2 with
      | Some d1, Some d2 => Ok (d1 * 16 + d2) :: example_iter (index + 2) s
      | None, _ => [Err (InvalidHexCharacter c1 index)]
      | _, None => [Err (InvalidHexCharacter c2 (index + 1))]
      end
  | _ => [Err InvalidHexLength]
  end.
Definition example_rustc_hex : RustcHex := {| from_hex_iter := example_iter 0 |}.
Definition example_rustc_hex_laws : @RustcHexLaws example_rustc_hex.
Proof.
  constructor; cbn [from_hex_iter example_rustc_hex].
  - intros b H. generalize 0 as index. induction H as [|x b Hx H IH]; intros index; [done|].
    destruct (nibble_range x Hx) as (H1 & H2 & E). cbn [flat_map hex_pair app example_iter].
    rewrite (proj1 (hex_digit_char _ H1)), (proj1 (hex_digit_char _ H2)), IH, <- E. done.
  - intros c s Hc. unfold hex_valid in Hc. exists []. cbn [example_iter]. change (hex_digit 48) with (Some 0).
    by destruct (hex_digit c).
Qed.
Lemma hash_text_roundtrip_witness :
  hash_from_str (R:=example_rustc_hex) 2 (hash_lower_hex true [171; 1]) = Ok [171; 1].
Proof.
  refine (proj1 (hash_text_roundtrip (R:=example_rustc_hex) (RL:=example_rustc_hex_laws) 2 [171; 1] true _)).
  split; [done|by repeat constructor].
Defined.

Definition example_codec : ArrayCodec := {|
  CodecError := unit; array_encode b := b;
  array_decode n s := if (n <=? length s)%nat then Ok (take n s, drop n s) else Err tt;
|}.
Definition example_codec_laws : @ArrayCodecLaws example_codec.
Proof.
  constructor; cbn [array_encode array_decode example_codec].
  - intros n b rest [L B]. rewrite (proj2 (Nat.leb_le _ _)) by (rewrite length_app; lia).
    rewrite <- L, take_app_length, drop_app_length. done.
  - intros n s b rest. destruct (Nat.leb_spec n (length s)); [|done]. intros [= <- <-] Hs.
    split; [rewrite length_take; lia|by apply Forall_take].
Qed.
Lemma codec_roundtrip_witness :
  uint_codec_decode (C:=example_codec) 4 (uint_codec_encode (C:=example_codec) demo_dividend ++ [9]) = Ok (demo_dividend, [9]).
Proof.
  refine (proj1 (codec_roundtrip (C:=example_codec) (CL:=example_codec_laws) 4 1 demo_dividend [0] [9] [] demo_dividend_words _ _));
    [split; [done|by repeat constructor]|constructor].
Defined.

Definition example_field : ProstField := {|
  DecodeError := unit;
  bytes_encode tag v := tag :: len v :: v;
  decode_key s := match s with tag :: s => Ok (tag, LengthDelimited, s) | [] => Err tt end;
  bytes_merge _ s := match s with n :: s => Ok (take (Z.to_nat n) s, drop (Z.to_nat n) s) | [] => Err tt end;
  skip_field _ _ s := match s with n :: s => Ok (drop (Z.to_nat n) s) | [] => Err tt end;
  key_len _ := 1; encoded_len_varint _ := 1;
|}.
Definition example_field_laws : @ProstFieldLaws example_field.
Proof.
  constructor; cbn [bytes_encode decode_key bytes_merge key_len encoded_len_varint example_field].
  - intros tag v rest _ _. exists (len v :: v ++ rest). split; [done|].
    by rewrite Nat2Z.id, take_app_length, drop_app_length.
  - intros tag v _. cbn [length]. lia.
Qed.
Lemma message_roundtrip_witness :
  exists tail, decode_key (ProstField := example_field) (message_encode_raw (P:=example_field) [1; 2; 3] ++ []) = Ok (1, LengthDelimited, tail) /\
    hash_merge_field (P:=example_field) 2 [] 1 LengthDelimited tail = Panic.
Proof.
  assert (Forall is_byte [1; 2; 3]) as B3 by by repeat constructor.
  assert (is_bytes 2 [0; 0]) as B2 by (split; [done|by repeat constructor]).
  destruct (message_roundtrip (P:=example_field) (PL:=example_field_laws) 2 [0; 0] 4 demo_dividend [] [] [1; 2; 3] [] B2 demo_dividend_words B3)
    as (_ & _ & _ & tail & E & H & _).
  exists tail. split; [exact E|apply H; discriminate].
Defined.
