(* ===== verification/Mnemonic.v ===== *)
(** * BIP-39 mnemonics

    Sources: src/common/tiny-bip39/src/{mnemonic,mnemonic_type,language,util,
    crypto,seed,error}.rs.

    A mnemonic prints a secret of 128 to 256 bits, followed by the first bits of
    its SHA-256 hash, eleven bits a word.  SHA-256, the Unicode normalization
    and PBKDF2 come from other crates and are the operations of [Bip39Ops]; the
    word lists other than the English one are the texts [other_txt]. *)
From S2P Require Import Prelude English Hex.

(** ** Text: [split_whitespace], [split] and [join] *)

(** [char::is_whitespace] *)
Definition is_whitespace (c : Z) : bool :=
  in_range 9 13 c || (c =? 32) || (c =? 0x85) || (c =? 0xA0) || (c =? 0x1680) || in_range 0x2000 0x200A c ||
  (c =? 0x2028) || (c =? 0x2029) || (c =? 0x202F) || (c =? 0x205F) || (c =? 0x3000).

Definition flush_word (cur : str) : list str := match cur with [] => [] | _ => [cur] end.
Fixpoint split_whitespace_from (cur s : str) : list str :=
  match s with
  | [] => flush_word cur
  | c :: s => if is_whitespace c then flush_word cur ++ split_whitespace_from [] s
              else split_whitespace_from (cur ++ [c]) s
  end.
Definition split_whitespace (s : str) : list str := split_whitespace_from [] s.

Fixpoint split (sep : Z) (s : str) : list str :=
  match s with
  | [] => [[]]
  | c :: s => if c =? sep then [] :: split sep s
              else match split sep s with w :: ws => (c :: w) :: ws | [] => [[c]] end
  end.

(** [IterExt::join] *)
Definition join (glue : str) (items : list str) : str :=
  match items with
  | [] => []
  | first :: items => first ++ flat_map (fun item => glue ++ item) items
  end.

(** ** Errors and sizes *)

Inductive MnemonicType := Words12 | Words15 | Words18 | Words21 | Words24.
Inductive ErrorKind :=
| InvalidChecksum
| InvalidWord
| InvalidKeysize (n : Z)
| InvalidWordLength (n : Z)
| InvalidEntropyLength (n : Z) (t : MnemonicType).

Definition ENTROPY_OFFSET : Z := 8.
(** The discriminants of the enum *)
Definition discriminant (t : MnemonicType) : Z :=
  match t with
  | Words12 => Z.lor (Z.shiftl 128 ENTROPY_OFFSET) 4
  | Words15 => Z.lor (Z.shiftl 160 ENTROPY_OFFSET) 5
  | Words18 => Z.lor (Z.shiftl 192 ENTROPY_OFFSET) 6
  | Words21 => Z.lor (Z.shiftl 224 ENTROPY_OFFSET) 7
  | Words24 => Z.lor (Z.shiftl 256 ENTROPY_OFFSET) 8
  end.

Definition for_word_count (size : Z) : result ErrorKind MnemonicType :=
  if size =? 12 then Ok Words12 else if size =? 15 then Ok Words15 else if size =? 18 then Ok Words18
  else if size =? 21 then Ok Words21 else if size =? 24 then Ok Words24 else Err (InvalidWordLength size).
Definition for_key_size (size : Z) : result ErrorKind MnemonicType :=
  if size =? 128 then Ok Words12 else if size =? 160 then Ok Words15 else if size =? 192 then Ok Words18
  else if size =? 224 then Ok Words21 else if size =? 256 then Ok Words24 else Err (InvalidKeysize size).
Definition for_phrase (phrase : str) : result ErrorKind MnemonicType := for_word_count (len (split 32 phrase)).

Definition entropy_bits (t : MnemonicType) : Z := Z.shiftr (discriminant t) ENTROPY_OFFSET.
Definition checksum_bits (t : MnemonicType) : Z := u8 (discriminant t).
Definition total_bits (t : MnemonicType) : Z := entropy_bits t + checksum_bits t.
Definition word_count (t : MnemonicType) : Z := total_bits t / 11.

(** ** Bits (util.rs) *)

(** [BitWriter]; [push] is used with [Bits11] only. *)
Record BitWriter := { w_offset : Z; w_remainder : Z; w_inner : bytes }.
Definition BitWriter_new : BitWriter := {| w_offset := 0; w_remainder := 0; w_inner := [] |}.

(** [while self.offset >= 8]: the offset bounds the number of rounds. *)
Fixpoint push_loop (fuel : nat) (w : BitWriter) : BitWriter :=
  match fuel with
  | O => w
  | S fuel =>
      if 8 <=? w_offset w then
        push_loop fuel {| w_offset := w_offset w - 8;
                          w_remainder := u32 (Z.shiftl (w_remainder w) 8);
                          w_inner := w_inner w ++ [u8 (Z.shiftr (w_remainder w) 24)] |}
      else w
  end.
Definition push (w : BitWriter) (source : Z) : BitWriter :=
  let shift := 32 - 11 in
  let offset := w_offset w + 11 in
  push_loop (Z.to_nat offset)
    {| w_offset := offset;
       w_remainder := Z.lor (w_remainder w) (Z.shiftr (u32 (Z.shiftl source shift)) (w_offset w));
       w_inner := w_inner w |}.
Definition writer_len (w : BitWriter) : Z := len (w_inner w) * 8 + w_offset w.
Definition into_bytes (w : BitWriter) : bytes :=
  if w_offset w =? 0 then w_inner w else w_inner w ++ [u8 (Z.shiftr (w_remainder w) 24)].

(** [BitIter] from bytes to [Bits11] *)
Record BitIter := { i_source : bytes; i_read : Z; i_buffer : Z }.

(** [while self.read < Out::SIZE] *)
Fixpoint fill (source : bytes) (read buffer : Z) : option BitIter :=
  if read <? 11 then
    match source with
    | [] => None
    | bits :: source =>
        let read := read + 8 in
        fill source read (Z.lor buffer (u64 (Z.shiftl bits (64 - read))))
    end
  else Some {| i_source := source; i_read := read; i_buffer := buffer |}.
Definition next (it : BitIter) : option (Z * BitIter) :=
  it ← fill (i_source it) (i_read it) (i_buffer it);
  let r := wrap 16 (Z.shiftr (i_buffer it) (64 - 11)) in
  Some (r, {| i_source := i_source it; i_read := i_read it - 11; i_buffer := u64 (Z.shiftl (i_buffer it) 11) |}).
(** The items of the iterator; every one takes at least a byte of the source. *)
Fixpoint collect (fuel : nat) (it : BitIter) : list Z :=
  match fuel with
  | O => []
  | S fuel => match next it with Some (b, it) => b :: collect fuel it | None => [] end
  end.
Definition bits11 (source : bytes) : list Z :=
  collect (length source) {| i_source := source; i_read := 0; i_buffer := 0 |}.

Definition checksum (source bits : Z) : Z := Z.shiftr source (8 - bits).

(** ** Word lists (language.rs) *)

Inductive Language :=
| English | ChineseSimplified | ChineseTraditional | French | Italian | Japanese | Korean | Spanish.

Definition from_language_code (language_code : str) : option Language :=
  let code := (fun c => if in_range 65 90 c then c + 32 else c) <$> language_code in
  if decide (code = lit "en") then Some English
  else if decide (code = lit "zh-hans") then Some ChineseSimplified
  else if decide (code = lit "zh-hant") then Some ChineseTraditional
  else if decide (code = lit "fr") then Some French
  else if decide (code = lit "it") then Some Italian
  else if decide (code = lit "ja") then Some Japanese
  else if decide (code = lit "ko") then Some Korean
  else if decide (code = lit "es") then Some Spanish
  else None.

Abbreviation WordList := (list str).
Definition gen_wordlist (lang_words : str) : WordList := split_whitespace lang_words.
(** Collected into a hash map, so the last of equal words counts. *)
Definition gen_wordmap (wordlist : WordList) : gmap str Z :=
  list_to_map (rev (imap (fun i item => (item, wrap 16 (Z.of_nat i))) wordlist)).

Definition get_bits (wordmap : gmap str Z) (word : str) : result ErrorKind Z :=
  ok_or (wordmap !! word) InvalidWord.
Definition get_word (wordlist : WordList) (bits : Z) : result ErrorKind str :=
  match wordlist !! Z.to_nat bits with Some w => Ok w | None => Panic end.

(** [str] order and prefixes *)
Fixpoint str_lt (a b : str) : bool :=
  match a, b with
  | _, [] => false
  | [], _ => true
  | x :: a, y :: b => (x <? y) || ((x =? y) && str_lt a b)
  end.
Fixpoint starts_with (prefix s : str) : bool :=
  match prefix, s with
  | [], _ => true
  | x :: prefix, y :: s => (x =? y) && starts_with prefix s
  | _, _ => false
  end.
Fixpoint take_while {A} (f : A -> bool) (l : list A) : list A :=
  match l with x :: l => if f x then x :: take_while f l else [] | [] => [] end.
(** [binary_search] on a sorted slice: the index of the word or where it would be. *)
Definition binary_search (wordlist : WordList) (word : str) : nat :=
  length (take_while (fun w => str_lt w word) wordlist).
Definition get_words_by_prefix (wordlist : WordList) (prefix : str) : list str :=
  let start := binary_search wordlist prefix in
  let count := length (take_while (starts_with prefix) (drop start wordlist)) in
  take count (drop start wordlist).

(** ** Mnemonics and seeds *)

Class Bip39Ops := {
  Sha256_digest : bytes -> bytes;
  nfkd : str -> str;
  (** password, salt, rounds and output length *)
  pbkdf2_hmac_sha512 : bytes -> bytes -> Z -> nat -> bytes;
  other_txt : Language -> str;
}.
(** What the crates document. *)
Class Bip39Laws `{Bip39Ops} := {
  digest_len m : is_bytes 32 (Sha256_digest m);
  nfkd_ascii s : Forall (fun c => is_ascii c = true) s -> nfkd s = s;
}.

Section mnemonic.
Context `{Ops : Bip39Ops}.

Definition lang_txt (lang : Language) : str :=
  match lang with English => english_txt | _ => other_txt lang end.
Definition wordlist (lang : Language) : WordList := gen_wordlist (lang_txt lang).
Definition wordmap (lang : Language) : gmap str Z := gen_wordmap (wordlist lang).

Definition sha256_first_byte (input : bytes) : Z := default 0 (head (Sha256_digest input)).

Record Mnemonic := { phrase : str; lang : Language; entropy : bytes }.

Fixpoint get_words (wl : WordList) (bits : list Z) : result ErrorKind (list str) :=
  match bits with
  | [] => Ok []
  | b :: bits => w ← get_word wl b; ws ← get_words wl bits; Ok (w :: ws)
  end.
Definition from_entropy_unchecked (entropy : bytes) (lang : Language) : result ErrorKind Mnemonic :=
  let wordlist := wordlist lang in
  let checksum_byte := sha256_first_byte entropy in
  words ← get_words wordlist (bits11 (entropy ++ [checksum_byte]));
  Ok {| phrase := join [32] words; lang := lang; entropy := entropy |}.
Definition from_entropy (entropy : bytes) (lang : Language) : result ErrorKind Mnemonic :=
  _ ← for_key_size (len entropy * 8);
  from_entropy_unchecked entropy lang.
(** [gen_random_bytes] is [random]. *)
Definition Mnemonic_new (random : nat -> bytes) (mtype : MnemonicType) (lang : Language) : result ErrorKind Mnemonic :=
  from_entropy_unchecked (random (Z.to_nat (entropy_bits mtype / 8))) lang.

Fixpoint push_words (wm : gmap str Z) (words : list str) (w : BitWriter) : result ErrorKind BitWriter :=
  match words with
  | [] => Ok w
  | word :: words => b ← get_bits wm word; push_words wm words (push w b)
  end.
Definition phrase_to_entropy (phrase : str) (lang : Language) : result ErrorKind bytes :=
  bits ← push_words (wordmap lang) (split 32 phrase) BitWriter_new;
  mtype ← for_word_count (writer_len bits / 11);
  let entropy := into_bytes bits in
  let entropy_bytes := Z.to_nat (entropy_bits mtype / 8) in
  last ← match entropy !! entropy_bytes with Some b => Ok b | None => Panic end;
  let actual_checksum := checksum last (checksum_bits mtype) in
  let entropy := take entropy_bytes entropy in
  let checksum_byte := sha256_first_byte entropy in
  let expected_checksum := checksum checksum_byte (checksum_bits mtype) in
  if negb (actual_checksum =? expected_checksum) then Err InvalidChecksum else Ok entropy.
Definition from_phrase (phrase : str) (lang : Language) : result ErrorKind Mnemonic :=
  let phrase := join [32] (nfkd <$> split_whitespace phrase) in
  entropy ← phrase_to_entropy phrase lang;
  Ok {| phrase := phrase; lang := lang; entropy := entropy |}.
Definition validate (phrase : str) (lang : Language) : result ErrorKind unit :=
  _ ← phrase_to_entropy phrase lang; Ok tt.

(** [{:x}] and [{:#x}] of a mnemonic or a seed *)
Definition fmt_lower_hex (alternate : bool) (b : bytes) : str :=
  (if alternate then lit "0x" else []) ++ flat_map hex_pair b.

Definition PBKDF2_ROUNDS : Z := 2048.
Definition PBKDF2_BYTES : nat := 64.
Definition pbkdf2 (input : bytes) (salt : str) : bytes :=
  pbkdf2_hmac_sha512 input (utf8 salt) PBKDF2_ROUNDS PBKDF2_BYTES.
Definition Seed_new (mnemonic : Mnemonic) (password : str) : bytes :=
  let salt := lit "mnemonic" ++ password in
  pbkdf2 (utf8 (phrase mnemonic)) (nfkd salt).
End mnemonic.
