(* ===== verification/MnemonicProofs.v ===== *)
(** * Mnemonics: the bit reader and the bit writer

    [bits11] gives the base 2^11 digits of the number the bytes stand for and
    [push] appends such a digit; [split] and [join] undo each other. *)
From S2P Require Import Prelude Hex English Mnemonic.

(** ** Text *)

Lemma split_cons sep s : exists w ws, split sep s = w :: ws.
Proof. destruct s as [|c s]; [by eexists _, _|]. cbn [split]. repeat case_match; by eexists _, _. Qed.
Lemma split_word sep w : Forall (fun c => c <> sep) w -> split sep w = [w].
Proof.
  induction 1 as [|c w Hc _ IH]; [done|]. cbn [split]. by rewrite (proj2 (Z.eqb_neq _ _)), IH by done.
Qed.
Lemma split_app sep w s :
  Forall (fun c => c <> sep) w -> split sep (w ++ sep :: s) = w :: split sep s.
Proof.
  induction 1 as [|c w Hc _ IH]; cbn [app split]; [by rewrite Z.eqb_refl|].
  by rewrite (proj2 (Z.eqb_neq _ _)), IH by done.
Qed.
Lemma join_cons glue w w' ws : join glue (w :: w' :: ws) = w ++ glue ++ join glue (w' :: ws).
Proof. cbn [join flat_map]. by rewrite !app_assoc. Qed.
Lemma split_join sep ws :
  ws <> [] -> Forall (Forall (fun c => c <> sep)) ws -> split sep (join [sep] ws) = ws.
Proof.
  intros Hne H. induction H as [|w ws Hw H IH]; [done|]. destruct ws as [|w' ws].
  - cbn [join flat_map]. rewrite app_nil_r. by apply split_word.
  - rewrite join_cons. change ([sep] ++ join [sep] (w' :: ws)) with (sep :: join [sep] (w' :: ws)).
    by rewrite split_app, IH by done.
Qed.
Lemma join_split sep s : join [sep] (split sep s) = s.
Proof.
  induction s as [|c s IH]; [done|]. cbn [split]. destruct (split_cons sep s) as (w & ws & E). rewrite E in *.
  destruct (Z.eqb_spec c sep) as [->|].
  - rewrite join_cons. rewrite IH. done.
  - cbn [join app] in *. by rewrite IH.
Qed.

Definition is_word (w : str) : Prop := w <> [] /\ Forall (fun c => is_whitespace c = false) w.
Lemma flush_word_ok cur : Forall (fun c => is_whitespace c = false) cur -> Forall is_word (flush_word cur).
Proof. intros H. destruct cur; constructor; [|constructor]. by split. Qed.
Lemma split_whitespace_words s : Forall is_word (split_whitespace s).
Proof.
  unfold split_whitespace. assert (Forall (fun c => is_whitespace c = false) []) as H by constructor.
  revert H. generalize (@nil Z) as cur. induction s as [|c s IH]; intros cur H; cbn [split_whitespace_from].
  - by apply flush_word_ok.
  - destruct (is_whitespace c) eqn:Ec.
    + apply Forall_app. split; [by apply flush_word_ok|]. by apply IH.
    + apply IH. apply Forall_app. split; [done|]. by constructor.
Qed.
Lemma split_whitespace_word cur w s :
  Forall (fun c => is_whitespace c = false) w -> split_whitespace_from cur (w ++ s) = split_whitespace_from (cur ++ w) s.
Proof.
  intros H. revert cur. induction H as [|c w Hc H IH]; intros cur; [by rewrite app_nil_r|].
  cbn [app split_whitespace_from]. rewrite Hc, IH. by rewrite <- app_assoc.
Qed.
Lemma split_whitespace_join sep ws :
  is_whitespace sep = true -> Forall is_word ws -> split_whitespace (join [sep] ws) = ws.
Proof.
  intros Hs H. induction H as [|w ws [Hne Hw] H IH]; [done|]. destruct ws as [|w' ws].
  - cbn [join flat_map]. unfold split_whitespace. rewrite split_whitespace_word by done. by destruct w.
  - rewrite join_cons. unfold split_whitespace in *. rewrite split_whitespace_word by done. cbn [app split_whitespace_from].
    rewrite Hs, IH. by destruct w.
Qed.
Lemma is_word_sep sep w : is_whitespace sep = true -> is_word w -> Forall (fun c => c <> sep) w.
Proof. intros Hs [_ H]. revert H. apply Forall_impl. intros c Hc ->. congruence. Qed.

(** ** Arithmetic *)

Lemma lor_scaled a b n m : 0 <= n -> 0 <= m -> 0 <= b < 2 ^ n -> Z.lor (a * 2 ^ (n + m)) (b * 2 ^ m) = (a * 2 ^ n + b) * 2 ^ m.
Proof.
  intros Hn Hm Hb. rewrite Z.pow_add_r, Z.mul_assoc by lia. rewrite <- !Z.shiftl_mul_pow2 by lia.
  rewrite <- Z.shiftl_lor, !Z.shiftl_mul_pow2 by lia. by rewrite lor_low.
Qed.
Lemma wrap_scaled w a n m : 0 <= n -> 0 <= m -> w = n + m -> wrap w (a * 2 ^ m) = a mod 2 ^ n * 2 ^ m.
Proof. intros Hn Hm ->. unfold wrap. rewrite Z.pow_add_r by lia. by rewrite Z.mul_mod_distr_r by lia. Qed.
Lemma div_scaled a n m : 0 <= n -> 0 <= m -> a * 2 ^ n / 2 ^ (n + m) = a / 2 ^ m.
Proof. intros. rewrite Z.pow_add_r by lia. rewrite (Z.mul_comm (2 ^ n)). apply Z.div_mul_cancel_r; lia. Qed.
Lemma to_digits_mod k n z : 0 <= k -> to_digits k n (z mod 2 ^ (k * Z.of_nat n)) = to_digits k n z.
Proof.
  intros Hk. apply (from_digits_inj k Hk); [by rewrite !length_to_digits|by apply to_digits_bound|by apply to_digits_bound|].
  rewrite !from_to_digits by done. by rewrite Z.mod_mod by lia.
Qed.
Lemma to_from_digits k l : 0 <= k -> Forall (is_u k) l -> to_digits k (length l) (from_digits k l) = l.
Proof.
  intros Hk H. apply (from_digits_inj k Hk); [by rewrite length_to_digits|by apply to_digits_bound|done|].
  rewrite from_to_digits by done. apply Z.mod_small. by apply from_digits_bound.
Qed.

(** ** The reader *)

(** The [read] bits of the buffer are [r], in front of those of the source:
    [iter_value] of [iter_bits] bits. *)
Definition pending (it : BitIter) (r : Z) : Prop :=
  0 <= i_read it <= 18 /\ is_u (i_read it) r /\ i_buffer it = r * 2 ^ (64 - i_read it) /\ Forall is_byte (i_source it).
Definition iter_bits (it : BitIter) : Z := i_read it + 8 * len (i_source it).
Definition iter_value (it : BitIter) (r : Z) : Z := r * 2 ^ (8 * len (i_source it)) + from_be (i_source it).

Lemma iter_value_bound it r : pending it r -> is_u (iter_bits it) (iter_value it r).
Proof.
  intros (Hr & Hu & _ & Hs). pose proof (from_be_bound _ _ (conj eq_refl Hs)) as B. unfold iter_bits, iter_value, is_u in *.
  rewrite Z.pow_add_r by lia. nia.
Qed.

(** One more byte in the buffer *)
Lemma fill_step b source read buffer r :
  pending {| i_source := b :: source; i_read := read; i_buffer := buffer |} r -> read < 11 ->
  let it' := {| i_source := source; i_read := read + 8; i_buffer := Z.lor buffer (u64 (Z.shiftl b (64 - (read + 8)))) |} in
  pending it' (r * 2 ^ 8 + b) /\
  iter_value it' (r * 2 ^ 8 + b) = iter_value {| i_source := b :: source; i_read := read; i_buffer := buffer |} r.
Proof.
  intros (Hr & Hu & Hbuf & Hs) Hlt it'. subst it'. unfold pending, iter_value in *. cbn [i_source i_read i_buffer length] in *.
  inversion_clear Hs as [|? ? Hb Hs']. unfold is_byte, is_u in *. split; [|].
  - split; [lia|]. split; [rewrite (Z.add_comm read), Z.pow_add_r by lia; change (2 ^ 8) with 256 in *; nia|]. split; [|done].
    rewrite Hbuf, Z.shiftl_mul_pow2, (wrap_scaled 64 b (read + 8)) by lia.
    rewrite Z.mod_small by (rewrite Z.pow_add_r by lia; nia).
    replace (64 - read) with (8 + (64 - (read + 8))) by lia. apply lor_scaled; lia.
  - rewrite from_be_cons. replace (8 * Z.of_nat (S (length source))) with (8 + 8 * len source) by lia.
    rewrite Z.pow_add_r by lia. ring.
Qed.
Lemma fill_spec source : forall read buffer r,
  let it := {| i_source := source; i_read := read; i_buffer := buffer |} in
  pending it r ->
  (iter_bits it < 11 -> fill source read buffer = None) /\
  (11 <= iter_bits it -> exists it' r', fill source read buffer = Some it' /\ pending it' r' /\ 11 <= i_read it' /\
      iter_bits it' = iter_bits it /\ iter_value it' r' = iter_value it r).
Proof.
  unfold iter_bits. induction source as [|b source IH]; intros read buffer r Hp; cbn [i_source i_read length fill] in *;
    (destruct (Z.ltb_spec read 11) as [Hlt|Hge]; [|split; [lia|intros _; eexists _, r; done]]).
  - split; [done|lia].
  - destruct (fill_step b source read buffer r Hp Hlt) as [Hp' Hv]. destruct (IH _ _ _ Hp') as [IH1 IH2].
    rewrite Hv in IH2. cbn [i_source i_read] in *.
    split; intros Hb; [apply IH1; lia|]. destruct IH2 as (it' & r' & E & P & L & B & V); [lia|].
    exists it', r'. split; [exact E|]. split; [done|]. split; [done|]. split; [rewrite B; lia|done].
Qed.

(** The next item is the top eleven bits of the value. *)
Lemma next_spec it r : pending it r ->
  (iter_bits it < 11 -> next it = None) /\
  (11 <= iter_bits it -> exists it' r', next it = Some (iter_value it r / 2 ^ (iter_bits it - 11), it') /\
     pending it' r' /\ iter_bits it' = iter_bits it - 11 /\
     iter_value it' r' = iter_value it r mod 2 ^ (iter_bits it - 11)).
Proof.
  intros Hp. destruct it as [source read buffer]. destruct (fill_spec source read buffer r Hp) as [H1 H2]. unfold next. cbn [i_source i_read i_buffer].
  split; intros Hb; [by rewrite H1 by done|]. destruct (H2 Hb) as ([source' read' buffer'] & r' & E & (Hr & Hu & Hbuf & Hs) & Hge & B & V).
  rewrite E. cbn [mbind option_bind i_read i_source i_buffer] in *.
  exists {| i_source := source'; i_read := read' - 11; i_buffer := u64 (Z.shiftl buffer' 11) |}, (r' mod 2 ^ (read' - 11)).
  rewrite <- V, <- B. unfold iter_bits, iter_value, pending. cbn [i_source i_read i_buffer].
  pose proof (from_be_bound _ _ (conj eq_refl Hs)) as Bs. unfold is_u in Bs, Hu.
  set (L := 8 * len source') in *. replace (read' + L - 11) with (L + (read' - 11)) by lia.
  assert (0 <= L) as HL by lia.
  assert ((r' * 2 ^ L + from_be source') / 2 ^ (L + (read' - 11)) = r' / 2 ^ (read' - 11)) as Ed.
  { rewrite Z.pow_add_r, <- Z.div_div, Z.div_add_l, (Z.div_small (from_be _)) by lia. f_equal. lia. }
  assert (0 <= r' / 2 ^ (read' - 11) < 2 ^ 11) as Hd.
  { split; [apply Z.div_pos; lia|]. apply Z.div_lt_upper_bound; [lia|]. rewrite <- Z.pow_add_r by lia.
    replace (read' - 11 + 11) with read' by lia. lia. }
  split; [|split; [|split]].
  - rewrite Ed. do 2 f_equal. rewrite Hbuf, Z.shiftr_div_pow2 by lia.
    replace (64 - 11) with ((64 - read') + (read' - 11)) by lia. rewrite div_scaled by lia.
    apply wrap_id. unfold is_u. lia.
  - split; [lia|]. split; [apply Z.mod_pos_bound; lia|]. split; [|done].
    rewrite Hbuf, Z.shiftl_mul_pow2, <- Z.mul_assoc, <- Z.pow_add_r by lia.
    replace (64 - (read' - 11)) with (64 - read' + 11) by lia. apply wrap_scaled; lia.
  - lia.
  - rewrite Z.pow_add_r by lia. rewrite Z.rem_mul_r by lia.
    rewrite Z.div_add_l, (Z.div_small (from_be _)), Z.add_0_r by lia.
    rewrite (Z.add_comm (r' * _)), Z.mod_add, (Z.mod_small (from_be _)) by lia. ring.
Qed.

Lemma collect_spec n k : forall fuel it r,
  pending it r -> 0 <= k < 11 -> iter_bits it = 11 * Z.of_nat n + k -> (n <= fuel)%nat ->
  collect fuel it = to_digits 11 n (iter_value it r / 2 ^ k).
Proof.
  induction n as [|n IH]; intros fuel it r Hp Hk Hb Hf; destruct (next_spec it r Hp) as [H1 H2].
  - destruct fuel; [done|]. cbn [collect]. by rewrite H1 by lia.
  - destruct fuel as [|fuel]; [lia|]. destruct H2 as (it' & r' & E & Hp' & B & V); [lia|].
    pose proof (iter_value_bound it r Hp) as Bd. unfold is_u in Bd.
    cbn [collect to_digits]. rewrite E. replace (iter_bits it - 11) with (k + 11 * Z.of_nat n) in * by lia.
    rewrite Z.div_div, <- Z.pow_add_r by lia. f_equal.
    + symmetry. apply wrap_id. unfold is_u. split; [apply Z.div_pos; lia|].
      apply Z.div_lt_upper_bound; [lia|]. rewrite <- Z.pow_add_r by lia.
      replace (k + 11 * Z.of_nat n + 11) with (iter_bits it) by lia. lia.
    + rewrite (IH fuel it' r') by (auto; lia). rewrite V, <- (to_digits_mod 11 n (iter_value it r / 2 ^ k)) by lia. f_equal.
      rewrite Z.pow_add_r, Z.rem_mul_r by lia. rewrite (Z.mul_comm (2 ^ k)), Z.div_add by lia.
      rewrite (Z.div_small (_ mod 2 ^ k)) by (apply Z.mod_pos_bound; lia). lia.
Qed.

(** [bits11] reads the bytes as base 2^11 digits, dropping the [k] bits left over. *)
Lemma bits11_spec source n k :
  Forall is_byte source -> 0 <= k < 11 -> 8 * len source = 11 * Z.of_nat n + k ->
  bits11 source = to_digits 11 n (from_be source / 2 ^ k).
Proof.
  intros Hs Hk Hl. unfold bits11. erewrite (collect_spec n k _ _ 0).
  - unfold iter_value. cbn [i_source]. do 2 f_equal.
  - unfold pending, is_u. cbn [i_source i_read i_buffer]. split; [lia|]. split; [lia|]. done.
  - done.
  - unfold iter_bits. cbn [i_source i_read]. lia.
  - lia.
Qed.

(** ** The writer *)

(** The bits written so far are those of [v]. *)
Definition written (w : BitWriter) (v : Z) : Prop :=
  exists r, 0 <= w_offset w <= 18 /\ is_u (w_offset w) r /\ w_remainder w = r * 2 ^ (32 - w_offset w) /\
    Forall is_byte (w_inner w) /\ v = from_be (w_inner w) * 2 ^ w_offset w + r.

Lemma push_loop_spec fuel w v :
  written w v -> w_offset w < 8 + 8 * Z.of_nat fuel ->
  written (push_loop fuel w) v /\ w_offset (push_loop fuel w) < 8 /\ writer_len (push_loop fuel w) = writer_len w.
Proof.
  revert w. induction fuel as [|fuel IH]; intros w Hw Ho; cbn [push_loop]; [split; [done|lia]|].
  destruct (Z.leb_spec 8 (w_offset w)) as [Hge|]; [|done].
  destruct Hw as (r & Ho' & Hu & Hr & Hi & Hv). unfold is_u in Hu.
  set (w' := {| w_offset := w_offset w - 8; w_remainder := u32 (Z.shiftl (w_remainder w) 8);
                w_inner := w_inner w ++ [u8 (Z.shiftr (w_remainder w) 24)] |}).
  assert (0 <= r / 2 ^ (w_offset w - 8) < 2 ^ 8) as Hd.
  { split; [apply Z.div_pos; lia|]. apply Z.div_lt_upper_bound; [lia|]. rewrite <- Z.pow_add_r by lia.
    replace (w_offset w - 8 + 8) with (w_offset w) by lia. lia. }
  assert (u8 (Z.shiftr (w_remainder w) 24) = r / 2 ^ (w_offset w - 8)) as Eb.
  { rewrite Hr, Z.shiftr_div_pow2 by lia. replace 24 with ((32 - w_offset w) + (w_offset w - 8)) by lia.
    rewrite div_scaled by lia. by apply wrap_id. }
  destruct (IH w') as (IW & IO & IL).
  - exists (r mod 2 ^ (w_offset w - 8)). cbn [w' w_offset w_remainder w_inner]. split; [lia|].
    split; [apply Z.mod_pos_bound; lia|]. split; [|split].
    + rewrite Hr, Z.shiftl_mul_pow2, <- Z.mul_assoc, <- Z.pow_add_r by lia.
      replace (32 - (w_offset w - 8)) with (32 - w_offset w + 8) by lia. apply wrap_scaled; lia.
    + apply Forall_app. split; [done|]. constructor; [|done]. rewrite Eb. done.
    + rewrite Eb. unfold from_be in *. rewrite from_digits_snoc. rewrite Hv.
      pose proof (Z.div_mod r (2 ^ (w_offset w - 8)) ltac:(lia)) as Dr.
      replace (2 ^ w_offset w) with (2 ^ 8 * 2 ^ (w_offset w - 8)) by (rewrite <- Z.pow_add_r by lia; f_equal; lia). lia.
  - cbn [w' w_offset]. lia.
  - split; [exact IW|]. split; [exact IO|]. rewrite IL. unfold writer_len. cbn [w' w_offset w_inner].
    rewrite length_app. cbn [length]. lia.
Qed.
Lemma push_spec w v s :
  written w v -> w_offset w < 8 -> is_u 11 s ->
  written (push w s) (v * 2 ^ 11 + s) /\ w_offset (push w s) < 8 /\ writer_len (push w s) = writer_len w + 11.
Proof.
  intros (r & Ho & Hu & Hr & Hi & Hv) Hlt Hs. unfold push. unfold is_u in *.
  edestruct push_loop_spec as (PW & PO & PL); [| |split; [exact PW|split; [exact PO|rewrite PL]]].
  - exists (r * 2 ^ 11 + s). cbn [w_offset w_remainder w_inner]. split; [lia|].
    split; [unfold is_u; rewrite Z.pow_add_r by lia; nia|]. split; [|split; [done|]].
    + rewrite Hr, Z.shiftl_mul_pow2, (wrap_scaled 32 s 11) by lia. rewrite Z.mod_small by lia.
      rewrite Z.shiftr_div_pow2 by lia. replace (32 - 11) with ((32 - (w_offset w + 11)) + w_offset w) by lia.
      rewrite Z.pow_add_r, Z.mul_assoc, Z.div_mul by lia.
      replace (32 - w_offset w) with (11 + (32 - (w_offset w + 11))) by lia. apply lor_scaled; lia.
    + rewrite Hv, Z.pow_add_r by lia. ring.
  - cbn [w_offset]. lia.
  - unfold writer_len. cbn [w_offset w_inner]. lia.
Qed.

Definition push_all (ds : list Z) (w : BitWriter) : BitWriter := fold_left push ds w.
Lemma push_all_spec ds w v :
  written w v -> w_offset w < 8 -> Forall (is_u 11) ds ->
  written (push_all ds w) (v * 2 ^ (11 * len ds) + from_digits 11 ds) /\ w_offset (push_all ds w) < 8 /\
  writer_len (push_all ds w) = writer_len w + 11 * len ds.
Proof.
  intros Hw Ho H. revert w v Hw Ho. induction H as [|d ds Hd H IH]; intros w v Hw Ho; cbn [push_all fold_left length].
  - change (from_digits 11 []) with 0. rewrite Z.mul_0_r, Z.mul_1_r, !Z.add_0_r. done.
  - destruct (push_spec w v d Hw Ho Hd) as (PW & PO & PL). destruct (IH _ _ PW PO) as (IW & IO & IL).
    fold (push_all ds (push w d)). rewrite from_digits_cons, IL, PL by lia. split; [|split; [done|lia]].
    replace (v * 2 ^ (11 * Z.of_nat (S (length ds))) + (d * 2 ^ (11 * len ds) + from_digits 11 ds))
      with ((v * 2 ^ 11 + d) * 2 ^ (11 * len ds) + from_digits 11 ds); [done|].
    replace (11 * Z.of_nat (S (length ds))) with (11 + 11 * len ds) by lia. rewrite Z.pow_add_r by lia. ring.
Qed.
Lemma written_new : written BitWriter_new 0.
Proof. exists 0. unfold is_u. cbn [w_offset w_remainder w_inner BitWriter_new]. done || (split; [lia|]; split; [lia|]; done). Qed.

(** The bytes of the writer are its bits, followed by zeros. *)
Lemma into_bytes_spec w v : written w v -> w_offset w < 8 ->
  Forall is_byte (into_bytes w) /\
  from_be (into_bytes w) = v * 2 ^ (8 * len (into_bytes w) - writer_len w) /\
  0 <= 8 * len (into_bytes w) - writer_len w < 8.
Proof.
  intros (r & Ho & Hu & Hr & Hi & Hv) Hlt. unfold into_bytes, writer_len, is_u in *. destruct (Z.eqb_spec (w_offset w) 0) as [E|E].
  - rewrite E in *. change (2 ^ 0) with 1 in *. split; [done|]. replace (8 * _ - _) with 0 by lia. split; [lia|lia].
  - assert (u8 (Z.shiftr (w_remainder w) 24) = r * 2 ^ (8 - w_offset w)) as Eb.
    { rewrite Hr, Z.shiftr_div_pow2 by lia. replace (32 - w_offset w) with (8 - w_offset w + 24) by lia.
      rewrite Z.pow_add_r, Z.mul_assoc, Z.div_mul by lia. apply wrap_id. unfold is_u.
      assert (2 ^ 8 = 2 ^ w_offset w * 2 ^ (8 - w_offset w)) as -> by (rewrite <- Z.pow_add_r by lia; f_equal; lia). nia. }
    rewrite length_app. cbn [length]. replace (8 * _ - _) with (8 - w_offset w) by lia. split; [|split; [|lia]].
    + apply Forall_app. split; [done|]. constructor; [|done]. apply wrap_bound. lia.
    + rewrite Eb. unfold from_be in *. rewrite from_digits_snoc, Hv by lia.
      replace (2 ^ 8) with (2 ^ w_offset w * 2 ^ (8 - w_offset w)) by (rewrite <- Z.pow_add_r by lia; f_equal; lia). ring.
Qed.
