(* ===== verification/MnemonicTheorems.v ===== *)
(** * Mnemonics: theorems

    A phrase is accepted exactly when it is the phrase of an entropy, which is
    the one it gives; every other phrase is refused for its words, their number
    or its checksum.  The English word list is one the theorems hold for. *)
From S2P Require Import Prelude Hex English Mnemonic MnemonicProofs.

(** ** Word lists *)

(** What the theorems ask of the word list of a language. *)
Class LangOk `{Bip39Ops} (l : Language) : Prop := {
  lang_length : length (wordlist l) = 2048%nat;
  lang_nodup : NoDup (wordlist l);
  lang_nfkd : Forall (fun w => nfkd w = w) (wordlist l);
}.

Lemma fst_imap (f : nat -> Z) (wl : list str) : fst <$> imap (fun i item => (item, f i)) wl = wl.
Proof.
  apply list_eq. intros i. rewrite list_lookup_fmap, list_lookup_imap. by destruct (wl !! i).
Qed.
Lemma wordmap_lookup wl w d : NoDup wl -> (length wl <= 2048)%nat ->
  gen_wordmap wl !! w = Some d <-> (wl !! Z.to_nat d = Some w /\ is_u 11 d).
Proof.
  intros Hn Hl. unfold gen_wordmap. rewrite <- elem_of_list_to_map.
  2:{ rewrite (List.map_rev fst), (fst_imap (fun i => wrap 16 (Z.of_nat i))). by rewrite <- Permutation_rev. }
  rewrite <- Permutation_rev. rewrite list_elem_of_lookup. setoid_rewrite list_lookup_imap_Some. split.
  - intros (i & x & Hi & [= -> ->]). pose proof (lookup_lt_Some _ _ _ Hi).
    rewrite wrap_id by (unfold is_u; lia). rewrite Nat2Z.id. split; [done|]. unfold is_u. lia.
  - intros [Hi Hd]. exists (Z.to_nat d), w. split; [done|]. unfold is_u in Hd. rewrite Z2Nat.id by lia.
    f_equal. symmetry. apply wrap_id. unfold is_u. lia.
Qed.

(** The digits a list of words stands for *)
Definition digits_of (wl : WordList) (ds : list Z) (ws : list str) : Prop :=
  Forall2 (fun d w => wl !! Z.to_nat d = Some w /\ is_u 11 d) ds ws.
Lemma digits_of_bound wl ds ws : digits_of wl ds ws -> Forall (is_u 11) ds.
Proof. induction 1 as [|d w ds ws [_ H] _ IH]; by constructor. Qed.
Lemma get_words_spec wl ds ws : Forall (is_u 11) ds -> get_words wl ds = Ok ws <-> digits_of wl ds ws.
Proof.
  intros H. revert ws. induction H as [|d ds Hd H IH]; intros ws; cbn [get_words].
  - split; [intros [= <-]; constructor|by inversion 1].
  - unfold get_word. destruct (wl !! Z.to_nat d) as [w|] eqn:E; cbn [mbind result_bind].
    + rewrite bind_ok. setoid_rewrite IH. split.
      * intros (a & Ha & [= <-]). by constructor.
      * inversion 1 as [|? ? ? ws' [E' _]]; simplify_eq. eauto.
    + split; [done|]. inversion 1 as [|? ? ? ws' [E' _]]; simplify_eq.
Qed.
Lemma get_words_total wl ds : length wl = 2048%nat -> Forall (is_u 11) ds -> exists ws, get_words wl ds = Ok ws.
Proof.
  intros Hl H. induction H as [|d ds Hd H (ws & IH)]; [by eexists|]. cbn [get_words]. unfold get_word.
  destruct (lookup_lt_is_Some_2 wl (Z.to_nat d)) as [w E]; [unfold is_u in Hd; lia|]. rewrite E. cbn [mbind result_bind].
  rewrite IH. by eexists.
Qed.
Lemma push_words_spec wl ws w : NoDup wl -> length wl = 2048%nat ->
  (exists ds, digits_of wl ds ws /\ push_words (gen_wordmap wl) ws w = Ok (push_all ds w)) \/
  (Exists (fun x => x ∉ wl) ws /\ push_words (gen_wordmap wl) ws w = Err InvalidWord).
Proof.
  intros Hn Hl. revert w. induction ws as [|x ws IH]; intros w; cbn [push_words].
  { left. exists []. split; [constructor|done]. }
  unfold get_bits. destruct (gen_wordmap wl !! x) as [d|] eqn:E; cbn [ok_or mbind result_bind].
  - apply wordmap_lookup in E; [|done|lia]. destruct (IH (push w d)) as [(ds & H1 & H2)|[H1 H2]].
    + left. exists (d :: ds). split; [by constructor|exact H2].
    + right. split; [by right|exact H2].
  - right. split; [|done]. left. intros Hx. apply list_elem_of_lookup in Hx as [i Hi].
    assert (gen_wordmap wl !! x = Some (Z.of_nat i)) as E'; [|congruence]. pose proof (lookup_lt_Some _ _ _ Hi).
    apply wordmap_lookup; [done|lia|]. rewrite Nat2Z.id. split; [done|]. unfold is_u. lia.
Qed.

(** ** Sizes *)

Definition entropy_bytes (t : MnemonicType) : nat := Z.to_nat (entropy_bits t / 8).
Definition words_of (t : MnemonicType) : nat := Z.to_nat (word_count t).

Lemma sizes t :
  8 * (Z.of_nat (entropy_bytes t) + 1) = 11 * Z.of_nat (words_of t) + (8 - checksum_bits t) /\
  4 <= checksum_bits t <= 8 /\ entropy_bits t = 8 * Z.of_nat (entropy_bytes t) /\ (0 < words_of t)%nat.
Proof. destruct t; vm_compute; repeat split; try lia; discriminate. Qed.
Lemma for_word_count_ok n t : for_word_count n = Ok t <-> n = Z.of_nat (words_of t).
Proof.
  split.
  - unfold for_word_count. repeat match goal with |- context [n =? ?m] => destruct (Z.eqb_spec n m) as [->|] end; intros E; simplify_eq; done.
  - intros ->. by destruct t.
Qed.
Lemma for_key_size_ok n t : for_key_size n = Ok t <-> n = entropy_bits t.
Proof.
  split.
  - unfold for_key_size. repeat match goal with |- context [n =? ?m] => destruct (Z.eqb_spec n m) as [->|] end; intros E; simplify_eq; done.
  - intros ->. by destruct t.
Qed.
Lemma for_word_count_err n : (exists t, for_word_count n = Ok t) \/ for_word_count n = Err (InvalidWordLength n).
Proof. unfold for_word_count. repeat case_match; eauto. Qed.
Lemma for_key_size_err n : (exists t, for_key_size n = Ok t) \/ for_key_size n = Err (InvalidKeysize n).
Proof. unfold for_key_size. repeat case_match; eauto. Qed.

(** ** Entropy and digits *)

Section sizes.
Context (t : MnemonicType).
Let k := 8 - checksum_bits t.
Let nb := entropy_bytes t.
Let n := words_of t.

Lemma checksum_split E b : is_byte b -> (E * 256 + b) / 2 ^ k = E * 2 ^ checksum_bits t + checksum b (checksum_bits t).
Proof.
  intros Hb. unfold checksum. destruct (sizes t) as (_ & Hc & _). fold k. rewrite Z.shiftr_div_pow2 by lia.
  replace 256 with (2 ^ checksum_bits t * 2 ^ k).
  - by rewrite Z.mul_assoc, Z.div_add_l by lia.
  - rewrite <- Z.pow_add_r by lia. replace (checksum_bits t + k) with 8 by lia. done.
Qed.
Lemma entropy_digits e c : is_bytes nb e -> is_byte c ->
  bits11 (e ++ [c]) = to_digits 11 n (from_be e * 2 ^ checksum_bits t + checksum c (checksum_bits t)).
Proof.
  intros [Le He] Hc. destruct (sizes t) as (Hs & Hb & _). fold k nb n in Hs.
  rewrite (bits11_spec _ n k).
  - unfold from_be. rewrite from_digits_snoc by lia. by rewrite checksum_split.
  - apply Forall_app. by split; [|constructor].
  - lia.
  - rewrite length_app. cbn [length]. lia.
Qed.
Lemma digits_entropy ds : length ds = n -> Forall (is_u 11) ds ->
  exists e b, into_bytes (push_all ds BitWriter_new) = e ++ [b] /\ is_bytes nb e /\ is_byte b /\
    from_digits 11 ds = from_be e * 2 ^ checksum_bits t + checksum b (checksum_bits t) /\
    b = checksum b (checksum_bits t) * 2 ^ k.
Proof.
  intros Hl Hd. destruct (sizes t) as (Hs & Hb & _). fold k nb n in Hs.
  destruct (push_all_spec ds BitWriter_new 0 written_new ltac:(done) Hd) as (W & O & L).
  destruct (into_bytes_spec _ _ W O) as (B & V & R). rewrite L in V, R. change (writer_len BitWriter_new) with 0 in *.
  rewrite Hl, !Z.add_0_l in V, R. set (l := into_bytes _) in *.
  assert (length l = S nb) as Ll by lia.
  destruct (exists_last (l:=l)) as (e & b & ->); [by intros ->|].
  rewrite length_app in Ll, V. cbn [length] in Ll, V.
  assert (8 * Z.of_nat (length e + 1) - (0 + 11 * Z.of_nat n) = k) as Ek by lia. rewrite Ek in V. apply Forall_app in B as [Be Bb]. inversion_clear Bb as [|? ? Bb' _].
  exists e, b. split; [done|]. split; [split; [lia|done]|]. split; [done|].
  unfold from_be in V. rewrite from_digits_snoc in V by lia. fold (from_be e) in V.
  assert (from_digits 11 ds = from_be e * 2 ^ checksum_bits t + checksum b (checksum_bits t)) as E.
  { rewrite <- checksum_split by done. change 256 with (2 ^ 8). rewrite V. rewrite Z.div_mul by lia. done. }
  split; [exact E|]. rewrite E in V.
  replace (2 ^ 8) with (2 ^ checksum_bits t * 2 ^ k) in V; [lia|].
  rewrite <- Z.pow_add_r by lia. f_equal. lia.
Qed.

(** What the writer makes of the digits of an entropy and its checksum byte. *)
Lemma entropy_written e c : is_bytes nb e -> is_byte c ->
  exists b, into_bytes (push_all (bits11 (e ++ [c])) BitWriter_new) = e ++ [b] /\
    checksum b (checksum_bits t) = checksum c (checksum_bits t).
Proof.
  intros He Hc. destruct (sizes t) as (Hs & Hb & _). fold k nb n in Hs. rewrite entropy_digits by done.
  destruct (digits_entropy (to_digits 11 n (from_be e * 2 ^ checksum_bits t + checksum c (checksum_bits t)))) as (e' & b & E & He' & Hb' & V & _);
    [apply length_to_digits|by apply to_digits_bound|].
  assert (forall x, is_byte x -> 0 <= checksum x (checksum_bits t) < 2 ^ checksum_bits t) as Hx.
  { intros x Hx. unfold checksum. fold k. rewrite Z.shiftr_div_pow2 by lia. unfold is_byte, is_u in Hx.
    split; [apply Z.div_pos; lia|]. apply Z.div_lt_upper_bound; [lia|]. rewrite <- Z.pow_add_r by lia.
    replace (k + checksum_bits t) with 8 by lia. lia. }
  pose proof (Hx c Hc). pose proof (Hx b Hb'). pose proof (from_be_bound _ _ He) as B. unfold is_u in B.
  rewrite from_to_digits, Z.mod_small in V by (try replace (11 * Z.of_nat n) with (8 * Z.of_nat nb + checksum_bits t) by lia;
    try rewrite Z.pow_add_r by lia; nia).
  assert (from_be e = from_be e') as Ee by nia. exists b. rewrite E. split; [|lia].
  by rewrite (from_be_inj nb e e').
Qed.
Lemma digits_read ds e b c : length ds = n -> Forall (is_u 11) ds -> is_byte c ->
  into_bytes (push_all ds BitWriter_new) = e ++ [b] -> checksum b (checksum_bits t) = checksum c (checksum_bits t) ->
  is_bytes nb e /\ bits11 (e ++ [c]) = ds.
Proof.
  intros Hl Hd Hc E Hcs. destruct (digits_entropy ds Hl Hd) as (e' & b' & E' & He' & _ & V & _).
  rewrite E in E'. apply app_inj_tail in E' as [-> ->]. split; [done|].
  rewrite entropy_digits by done. rewrite <- Hcs, <- V. rewrite <- Hl. apply to_from_digits; [lia|done].
Qed.
End sizes.

(** ** Phrases *)

Section phrases.
Context {Ops : Bip39Ops} {Laws : Bip39Laws} (l : Language) {OK : LangOk l}.

Lemma sha256_first_byte_ok e : is_byte (sha256_first_byte e).
Proof.
  destruct (digest_len e) as [L B]. unfold sha256_first_byte. destruct (Sha256_digest e) as [|b d]; [done|].
  by inversion B.
Qed.
Lemma push_words_digits ds ws w :
  digits_of (wordlist l) ds ws -> push_words (wordmap l) ws w = Ok (push_all ds w).
Proof.
  intros H. revert w. induction H as [|d x ds ws Hd H IH]; intros w; [done|]. cbn [push_words].
  unfold get_bits. rewrite (proj2 (wordmap_lookup _ _ _ lang_nodup ltac:(rewrite lang_length; lia))) by exact Hd.
  apply IH.
Qed.
Lemma wordlist_words : Forall is_word (wordlist l).
Proof. apply split_whitespace_words. Qed.
Lemma digits_of_words ds ws : digits_of (wordlist l) ds ws -> Forall is_word ws.
Proof.
  induction 1 as [|d w ds ws [Hd _] _ IH]; constructor; [|done].
  by eapply Forall_lookup_1; [apply wordlist_words|].
Qed.
Lemma digits_of_split ds ws : digits_of (wordlist l) ds ws -> ws <> [] -> split 32 (join [32] ws) = ws.
Proof.
  intros H Hne. apply split_join; [done|]. apply digits_of_words in H. revert H. apply Forall_impl.
  intros w Hw. by apply is_word_sep.
Qed.

(** The mnemonic of an entropy *)
Lemma from_entropy_spec e m : Forall is_byte e ->
  from_entropy e l = Ok m <-> exists t ws, is_bytes (entropy_bytes t) e /\
    digits_of (wordlist l) (bits11 (e ++ [sha256_first_byte e])) ws /\
    length ws = words_of t /\ m = {| phrase := join [32] ws; lang := l; entropy := e |}.
Proof.
  intros He. pose proof (sha256_first_byte_ok e) as Hc.
  assert (forall t, is_bytes (entropy_bytes t) e ->
    Forall (is_u 11) (bits11 (e ++ [sha256_first_byte e])) /\ length (bits11 (e ++ [sha256_first_byte e])) = words_of t) as Hd.
  { intros t Ht. rewrite (entropy_digits t) by done. split; [by apply to_digits_bound|apply length_to_digits]. }
  unfold from_entropy, from_entropy_unchecked. rewrite bind_ok. setoid_rewrite for_key_size_ok. setoid_rewrite bind_ok. split.
  - intros (t & Ht & ws & Hw & [= <-]). destruct (sizes t) as (_ & _ & Hs & _).
    assert (is_bytes (entropy_bytes t) e) as Hb by (split; [lia|done]). destruct (Hd t Hb) as [H1 H2].
    apply get_words_spec in Hw; [|done]. exists t, ws. split; [done|]. split; [done|]. split; [|done].
    rewrite <- H2. symmetry. by eapply Forall2_length.
  - intros (t & ws & Hb & Hw & _ & ->). destruct (sizes t) as (_ & _ & Hs & _). destruct (Hd t Hb) as [H1 H2].
    exists t. destruct Hb as [Lb _]. split; [lia|]. exists ws. split; [by apply get_words_spec|done].
Qed.

Lemma phrase_to_entropy_words p ds : digits_of (wordlist l) ds (split 32 p) ->
  push_words (wordmap l) (split 32 p) BitWriter_new = Ok (push_all ds BitWriter_new) /\
  writer_len (push_all ds BitWriter_new) / 11 = len (split 32 p) /\ length ds = length (split 32 p).
Proof.
  intros H. split; [by apply push_words_digits|].
  destruct (push_all_spec ds BitWriter_new 0 written_new ltac:(done) (digits_of_bound _ _ _ H)) as (_ & _ & ->).
  rewrite <- (Forall2_length H). split; [|done]. change (writer_len BitWriter_new) with 0. rewrite Z.add_0_l, Z.mul_comm. by apply Z.div_mul.
Qed.
(** A phrase of known words and a known number of them is accepted or refused by
    its checksum. *)
Lemma phrase_to_entropy_known p ds t :
  digits_of (wordlist l) ds (split 32 p) -> length (split 32 p) = words_of t ->
  exists e b, into_bytes (push_all ds BitWriter_new) = e ++ [b] /\ is_bytes (entropy_bytes t) e /\
    phrase_to_entropy p l =
      if checksum b (checksum_bits t) =? checksum (sha256_first_byte e) (checksum_bits t) then Ok e else Err InvalidChecksum.
Proof.
  intros H Hn. destruct (phrase_to_entropy_words p ds H) as (E1 & E2 & E3).
  destruct (digits_entropy t ds) as (e & b & Eb & He & _ & _ & _); [congruence|by eapply digits_of_bound|].
  exists e, b. split; [done|]. split; [done|]. unfold phrase_to_entropy. rewrite E1. cbn [mbind result_bind]. rewrite E2, Hn.
  rewrite (proj2 (for_word_count_ok _ t)) by done. cbn [mbind result_bind]. rewrite Eb. fold (entropy_bytes t).
  destruct He as [<- He]. rewrite list_lookup_middle by done. cbn [mbind result_bind]. rewrite take_app_length.
  by destruct (checksum b _ =? _).
Qed.

Lemma phrase_to_entropy_iff p e :
  phrase_to_entropy p l = Ok e <-> (Forall is_byte e /\ from_entropy e l = Ok {| phrase := p; lang := l; entropy := e |}).
Proof.
  split.
  - intros H. destruct (push_words_spec (wordlist l) (split 32 p) BitWriter_new lang_nodup lang_length) as [(ds & Hd & _)|[_ Hp]].
    2:{ unfold phrase_to_entropy, wordmap in H. by rewrite Hp in H. }
    destruct (phrase_to_entropy_words p ds Hd) as (E1 & E2 & E3).
    destruct (for_word_count_err (len (split 32 p))) as [[t Ht]|Ht].
    2:{ unfold phrase_to_entropy in H. rewrite E1 in H. cbn [mbind result_bind] in H. by rewrite E2, Ht in H. }
    apply for_word_count_ok, Nat2Z.inj in Ht. destruct (phrase_to_entropy_known p ds t Hd Ht) as (e' & b & Eb & He & Ep).
    rewrite Ep in H. destruct (Z.eqb_spec (checksum b (checksum_bits t)) (checksum (sha256_first_byte e') (checksum_bits t))) as [Hc|]; [|done].
    injection H as ->. split; [apply He|]. apply from_entropy_spec; [apply He|]. exists t, (split 32 p). split; [done|].
    destruct (digits_read t ds e b (sha256_first_byte e)) as [_ ->];
      [congruence|by eapply digits_of_bound|apply sha256_first_byte_ok|done|done|].
    split; [done|]. split; [done|]. by rewrite join_split.
  - intros [He H]. apply from_entropy_spec in H as (t & ws & Hb & Hd & Hl & [= ->]); [|done].
    destruct (sizes t) as (_ & _ & _ & Hpos).
    assert (split 32 (join [32] ws) = ws) as Es by (eapply digits_of_split; [done|intros ->; cbn in Hl; lia]).
    destruct (phrase_to_entropy_known (join [32] ws) (bits11 (e ++ [sha256_first_byte e])) t) as (e' & b & Eb & _ & ->); [by rewrite Es|by rewrite Es|].
    destruct (entropy_written t e (sha256_first_byte e) Hb (sha256_first_byte_ok e)) as (b' & Eb' & Hc).
    rewrite Eb in Eb'. apply app_inj_tail in Eb' as [-> ->]. by rewrite Hc, Z.eqb_refl.
Qed.

(** Normalizing the phrase of a mnemonic changes nothing. *)
Lemma normalized ds ws : digits_of (wordlist l) ds ws -> nfkd <$> split_whitespace (join [32] ws) = ws.
Proof.
  intros H. rewrite split_whitespace_join by (done || by eapply digits_of_words).
  induction H as [|d w ds ws [Hd _] _ IH]; [done|]. cbn [fmap list_fmap]. f_equal; [|exact IH].
  by eapply (Forall_lookup_1 _ _ _ _ lang_nfkd).
Qed.

(** C31 [phrase_accepted_iff]: [validate] accepts a phrase exactly when it is the
    phrase of some entropy of one of the five sizes. *)
Theorem phrase_accepted_iff p :
  validate p l = Ok tt <-> exists e m, Forall is_byte e /\ from_entropy e l = Ok m /\ phrase m = p.
Proof.
  unfold validate. rewrite bind_ok. setoid_rewrite phrase_to_entropy_iff. split.
  - intros (e & [He H] & _). by exists e, {| phrase := p; lang := l; entropy := e |}.
  - intros (e & m & He & H & <-). exists e. split; [|done]. split; [done|]. rewrite H. f_equal.
    apply from_entropy_spec in H as (t & ws & _ & _ & _ & ->); done.
Qed.

(** C32 [mnemonic_roundtrip]: every entropy of an allowed size has a mnemonic, and
    reading its phrase gives the same mnemonic back; an entropy of another size is
    refused with its size. *)
Theorem mnemonic_roundtrip e : Forall is_byte e ->
  (exists m, from_entropy e l = Ok m /\ entropy m = e /\ from_phrase (phrase m) l = Ok m) \/
  (from_entropy e l = Err (InvalidKeysize (len e * 8)) /\ forall t, len e * 8 <> entropy_bits t).
Proof.
  intros He. destruct (for_key_size_err (len e * 8)) as [[t Ht]|Ht].
  - left. apply for_key_size_ok in Ht. destruct (sizes t) as (_ & _ & Hs & _).
    assert (is_bytes (entropy_bytes t) e) as Hb by (split; [lia|done]).
    destruct (get_words_total (wordlist l) (bits11 (e ++ [sha256_first_byte e]))) as [ws Hw]; [apply lang_length| |].
    { rewrite (entropy_digits t) by (done || apply sha256_first_byte_ok). by apply to_digits_bound. }
    apply get_words_spec in Hw.
    2:{ rewrite (entropy_digits t) by (done || apply sha256_first_byte_ok). by apply to_digits_bound. }
    assert (length ws = words_of t) as Hl.
    { rewrite <- (Forall2_length Hw), (entropy_digits t) by (done || apply sha256_first_byte_ok). apply length_to_digits. }
    set (m := {| phrase := join [32] ws; lang := l; entropy := e |}).
    assert (from_entropy e l = Ok m) as Hm by (apply from_entropy_spec; [done|]; by exists t, ws).
    exists m. split; [exact Hm|]. split; [done|]. unfold from_phrase. cbn [phrase m].
    rewrite (normalized _ _ Hw). rewrite bind_ok. exists e. split; [|done]. by apply phrase_to_entropy_iff.
  - right. unfold from_entropy. rewrite Ht. split; [done|]. intros t E. rewrite (proj2 (for_key_size_ok _ t)) in Ht by done. done.
Qed.

(** [phrase_errors]: a phrase is refused for a word that is not in the list,
    then for the number of its words, then for its checksum, and reading one
    never panics. *)
Theorem phrase_errors p :
  match phrase_to_entropy p l with
  | Ok e => Forall (fun w => w ∈ wordlist l) (split 32 p) /\ exists t, is_bytes (entropy_bytes t) e /\ for_phrase p = Ok t
  | Err InvalidWord => Exists (fun w => w ∉ wordlist l) (split 32 p)
  | Err (InvalidWordLength n) => Forall (fun w => w ∈ wordlist l) (split 32 p) /\ n = len (split 32 p) /\
      for_phrase p = Err (InvalidWordLength n)
  | Err InvalidChecksum => Forall (fun w => w ∈ wordlist l) (split 32 p) /\ exists t, for_phrase p = Ok t
  | _ => False
  end.
Proof.
  destruct (push_words_spec (wordlist l) (split 32 p) BitWriter_new lang_nodup lang_length) as [(ds & Hd & _)|[Hx Hp]].
  2:{ unfold phrase_to_entropy, wordmap. rewrite Hp. done. }
  assert (Forall (fun w => w ∈ wordlist l) (split 32 p)) as Hin.
  { induction Hd as [|d w ds ws [H _] _ IH]; constructor; [by eapply list_elem_of_lookup_2|done]. }
  destruct (phrase_to_entropy_words p ds Hd) as (E1 & E2 & E3).
  destruct (for_word_count_err (len (split 32 p))) as [[t Ht]|Ht].
  - pose proof Ht as Ht'. apply for_word_count_ok, Nat2Z.inj in Ht'.
    destruct (phrase_to_entropy_known p ds t Hd Ht') as (e & b & _ & He & ->).
    destruct (checksum b _ =? _); (split; [exact Hin|]); exists t; [split; [done|]|]; exact Ht.
  - unfold phrase_to_entropy. rewrite E1. cbn [mbind result_bind]. rewrite E2, Ht. done.
Qed.
End phrases.

(** ** The English list *)

Fixpoint strictly_sorted (wl : WordList) : bool :=
  match wl with
  | a :: (b :: _) as rest => str_lt a b && strictly_sorted rest
  | _ => true
  end.

Lemma str_lt_trans a b c : str_lt a b = true -> str_lt b c = true -> str_lt a c = true.
Proof.
  revert b c. induction a as [|x a IH]; intros [|y b] [|z c]; cbn [str_lt]; try done.
  rewrite !orb_true_iff, !andb_true_iff, !Z.ltb_lt, !Z.eqb_eq. intros [H1|[-> H1]] [H2|[-> H2]]; try (left; lia).
  right. split; [done|]. by eapply IH.
Qed.
Lemma str_lt_irrefl a : str_lt a a = false.
Proof. induction a as [|x a IH]; [done|]. cbn [str_lt]. by rewrite Z.ltb_irrefl, Z.eqb_refl, IH. Qed.
Lemma strictly_sorted_forall w wl :
  strictly_sorted (w :: wl) = true -> Forall (fun x => str_lt w x = true) wl /\ strictly_sorted wl = true.
Proof.
  revert w. induction wl as [|x wl IH]; intros w; [by split|]. cbn [strictly_sorted]. rewrite andb_true_iff.
  intros [H1 H2]. split; [|exact H2]. constructor; [done|]. destruct (IH x H2) as [H _]. revert H. apply Forall_impl.
  intros y. by apply str_lt_trans.
Qed.
Lemma strictly_sorted_nodup wl : strictly_sorted wl = true -> NoDup wl.
Proof.
  induction wl as [|w wl IH]; intros H; constructor.
  - apply strictly_sorted_forall in H as [H _]. intros Hin. rewrite Forall_forall in H.
    apply list_elem_of_In in Hin. specialize (H w Hin). by rewrite str_lt_irrefl in H.
  - apply IH. by eapply strictly_sorted_forall.
Qed.

Lemma english_sorted : strictly_sorted (gen_wordlist english_txt) = true.
Proof. by vm_compute. Qed.
#[export] Instance english_ok `{Bip39Laws} : LangOk English.
Proof.
  split.
  - by vm_compute.
  - apply strictly_sorted_nodup, english_sorted.
  - assert (forallb (forallb is_ascii) (gen_wordlist english_txt) = true) as A by by vm_compute.
    apply Forall_forall. intros w Hw. apply nfkd_ascii. rewrite forallb_forall in A.
    apply Forall_forall. intros c Hc. pose proof (A w Hw) as Aw. rewrite forallb_forall in Aw. by apply Aw.
Qed.

(** ** Words by prefix *)

Lemma before_prefix p w : str_lt w p = true -> starts_with p w = false.
Proof.
  revert w. induction p as [|x p IH]; intros [|y w]; cbn [str_lt starts_with]; try done.
  rewrite orb_true_iff, andb_true_iff, Z.ltb_lt, Z.eqb_eq. intros [H|[-> H]].
  - by rewrite (proj2 (Z.eqb_neq _ _)) by lia.
  - by rewrite Z.eqb_refl, IH.
Qed.
Lemma after_prefix p w w' :
  str_lt w p = false -> starts_with p w = false -> str_lt w w' = true -> starts_with p w' = false.
Proof.
  revert w w'. induction p as [|x p IH]; intros [|y w] [|z w']; cbn [str_lt starts_with]; try done.
  rewrite orb_true_iff, orb_false_iff, andb_true_iff, !andb_false_iff, Z.ltb_lt, Z.ltb_ge, !Z.eqb_neq, Z.eqb_eq.
  intros [H1 H2] H3 [H4|[-> H4]]; [left; lia|]. destruct (Z.eq_dec x z) as [->|]; [right|by left].
  destruct H2 as [|H2], H3 as [|H3]; try done. by eapply IH.
Qed.
Lemma take_length_while {A} (f : A -> bool) l : take (length (take_while f l)) l = take_while f l.
Proof. induction l as [|x l IH]; [done|]. cbn [take_while]. destruct (f x); [cbn; by f_equal|done]. Qed.
Lemma prefix_front p w wl :
  strictly_sorted (w :: wl) = true -> str_lt w p = false ->
  take_while (starts_with p) (w :: wl) = List.filter (starts_with p) (w :: wl).
Proof.
  revert w. induction wl as [|x wl IH]; intros w Hs Hw.
  { cbn [take_while List.filter]. by destruct (starts_with p w). }
  destruct (strictly_sorted_forall _ _ Hs) as [Hlt Hs']. inversion_clear Hlt as [|? ? Hx Hlt'].
  cbn [take_while List.filter]. cbn [take_while List.filter] in IH. destruct (starts_with p w) eqn:E.
  - f_equal. apply IH; [done|]. destruct (str_lt x p) eqn:Ex; [|done]. rewrite (str_lt_trans w x p) in Hw; done.
  - rewrite (after_prefix p w x) by done. symmetry. clear IH Hs Hs' Hx. induction Hlt' as [|y wl Hy _ IHl]; [done|].
    cbn [List.filter]. by rewrite (after_prefix p w y).
Qed.

(** [words_by_prefix]: in a sorted list, [get_words_by_prefix] finds exactly
    the words that start with the prefix, in their order. *)
Theorem words_by_prefix wl p :
  strictly_sorted wl = true -> get_words_by_prefix wl p = List.filter (starts_with p) wl.
Proof.
  unfold get_words_by_prefix, binary_search. induction wl as [|w wl IH]; intros Hs; [done|].
  destruct (strictly_sorted_forall _ _ Hs) as [_ Hs']. cbn [take_while]. destruct (str_lt w p) eqn:Ew.
  - cbn [length drop List.filter]. rewrite before_prefix by done. by apply IH.
  - cbn [length drop]. rewrite take_length_while. by apply prefix_front.
Qed.
Lemma words_by_prefix_witness :
  get_words_by_prefix (gen_wordlist english_txt) (lit "woo") = [lit "wood"; lit "wool"].
Proof. rewrite (words_by_prefix (gen_wordlist english_txt) (lit "woo") english_sorted). by vm_compute. Defined.

(** ** A model of the other crates *)

Definition example_ops : Bip39Ops := {|
  Sha256_digest _ := 182 :: replicate 31 0;
  nfkd s := s;
  pbkdf2_hmac_sha512 password salt rounds n := replicate n 0;
  other_txt _ := [];
|}.
Definition example_laws : @Bip39Laws example_ops.
Proof. constructor; [|done]. intros m. split; [done|]. by repeat constructor. Qed.

Definition example_entropy : bytes :=
  [0x33; 0xE4; 0x6B; 0xB1; 0x3A; 0x74; 0x6E; 0xA4; 0x1C; 0xDD; 0xE4; 0x5C; 0x90; 0x84; 0x6A; 0x79].
Definition example_phrase : str := lit "crop cash unable insane eight faith inflict route frame loud box vibrant".

(** The crate's own example: the digest of its entropy starts with this byte. *)
Example crate_example :
  from_entropy (Ops := example_ops) example_entropy English =
    Ok {| phrase := example_phrase; lang := English; entropy := example_entropy |} /\
  from_phrase (Ops := example_ops) (lit "  " ++ example_phrase) English =
    Ok {| phrase := example_phrase; lang := English; entropy := example_entropy |}.
Proof. split; by vm_compute. Qed.

Lemma phrase_accepted_iff_witness :
  exists e m, Forall is_byte e /\ from_entropy (Ops := example_ops) e English = Ok m /\ phrase m = example_phrase.
Proof.
  refine (proj1 (phrase_accepted_iff (Ops := example_ops) (Laws := example_laws) English
    (OK := @english_ok example_ops example_laws) example_phrase) _).
  vm_compute. reflexivity.
Defined.
Lemma mnemonic_roundtrip_witness :
  (exists m, from_entropy (Ops := example_ops) example_entropy English = Ok m /\ entropy m = example_entropy /\
     from_phrase (Ops := example_ops) (phrase m) English = Ok m) \/
  (from_entropy (Ops := example_ops) example_entropy English = Err (InvalidKeysize (len example_entropy * 8)) /\
   forall t, len example_entropy * 8 <> entropy_bits t).
Proof.
  refine (mnemonic_roundtrip (Ops := example_ops) (Laws := example_laws) English
    (OK := @english_ok example_ops example_laws) example_entropy _).
  repeat constructor; unfold is_byte, is_u; lia.
Defined.
Lemma phrase_errors_witness :
  match phrase_to_entropy (Ops := example_ops) example_phrase English with
  | Ok e => Forall (fun w => w ∈ wordlist (Ops := example_ops) English) (split 32 example_phrase) /\
      exists t, is_bytes (entropy_bytes t) e /\ for_phrase example_phrase = Ok t
  | _ => True
  end.
Proof.
  pose proof (phrase_errors (Ops := example_ops) English
    (OK := @english_ok example_ops example_laws) example_phrase) as H.
  destruct (phrase_to_entropy example_phrase English) as [e|[]|]; [exact H|exact I..].
Defined.
