(* ===== verification/Rpc.v ===== *)
(** * The RPC services

    Sources: src/rpc/src/{txs,blockchain,account,runtime}.rs.

    The four gRPC services answer requests about the chain and the pool of Node.v.
    The pool is shared behind a [std::sync::RwLock]: a request that panics while
    it holds the lock for writing leaves it poisoned ([rs_poisoned]), and every
    later attempt to lock fails.  A panic ends the task of the request, not the
    server.  The virtual machine is that of Runtime.v, whose cache requests share. *)
From S2P Require Import Prelude Crypto Types Consensus Smt Codec SmtTree SmtProofs SmtTheorems TreeDb Storage State StateProofs.
From S2P Require Import Chain Replay ChainProofs Peers.
From S2P Require PrQue TxList TxPool TxPoolProofs TxPoolTheorems.
From S2P Require Import Node.
From S2P Require Runtime.
Import TxList (ProstLen).

(** [tonic::Status]; an error of another crate stands for its text. *)
Inductive Status :=
| invalid_argument (m : string)
| internal (m : string)
| internal_crypto (e : CryptoError)
| unknown (m : string)
| unknown_pool (e : TxPool.TxPoolError)
| unknown_vm (e : anyhow)
| aborted (e : TxPool.TxPoolError)
| not_found (m : string).

Record UnsignedTransactionRequest := { req_tx : option Transaction; req_secret_key : bytes }.
Record ChainInfo := { ci_chain : Network; ci_genesis_hash : H256; ci_difficulty : Z; ci_network_difficulty : Z; ci_blocks : Z }.
Record ApplicationCall := { call_app_id : Address; call_service : Z; call_method : Z; call_args : bytes }.

Definition with_nonce (n : Z) (t : Transaction) : Transaction :=
  {| nonce := n; tx_chain_id := tx_chain_id t; genesis_hash := genesis_hash t; fee := fee t; value := value t; data := data t |}.

Section Rpc.
Context `{CryptoLaws} `{BincodeLaws} `{ChainCodecs} `{WasmVMInstance} `{!WasmVMLaws} `{ProstLen} `{Runtime.WasmEngine}.
Context (instant : nat -> Z) (hash_keys : forall A, gmap Address A -> list Address).
Context (load : State -> Address -> result anyhow unit)
        (create : State -> Address -> Address -> Z -> bytes -> result anyhow (bytes * Changelist))
        (pool_error : TxPool.TxPoolError -> anyhow).
#[local] Instance rpc_node_services : ChainServices := node_services instant hash_keys load create pool_error.
Context (network : Network).
(** [VerifyingKey::from_sec1_bytes], which applications reach through the host *)
Context (from_sec1_bytes : bytes -> option VerifyingKey).

(** The sender of local events is [None] when its receiver is gone. *)
Record RpcServer := {
  rs_node : Node; rs_vm : Runtime.WasmVM; rs_poisoned : bool; rs_sender : option (list LocalEventMessage) }.
Definition set_rs_pool (p : TxPool.TxPool) (poisoned : bool) (r : RpcServer) : RpcServer :=
  {| rs_node := set_node_pool p (rs_node r); rs_vm := rs_vm r; rs_poisoned := poisoned; rs_sender := rs_sender r |}.
Definition set_rs_vm (v : Runtime.WasmVM) (r : RpcServer) : RpcServer :=
  {| rs_node := rs_node r; rs_vm := v; rs_poisoned := rs_poisoned r; rs_sender := rs_sender r |}.
Abbreviation rpcM := (stM RpcServer Status).

(** [self.txpool.read()] and [self.txpool.write()] with what is done under the lock *)
Definition with_read {A} (m : stM TxPool.TxPool Status A) : rpcM A := fun r =>
  if rs_poisoned r then (Err (internal ""), r)
  else let '(x, p) := m (node_pool (rs_node r)) in (x, set_rs_pool p false r).
Definition with_write {A} (m : stM TxPool.TxPool Status A) : rpcM A := fun r =>
  if rs_poisoned r then (Err (internal ""), r)
  else let '(x, p) := m (node_pool (rs_node r)) in
       (x, set_rs_pool p (match x with Panic => true | _ => false end) r).

(** [self.sender.send(..)] *)
Definition send_local (m : LocalEventMessage) : rpcM unit := fun r =>
  match rs_sender r with
  | Some l => (Ok tt, {| rs_node := rs_node r; rs_vm := rs_vm r; rs_poisoned := rs_poisoned r; rs_sender := Some (l ++ [m]) |})
  | None => (Err (internal ""), r)
  end.

(** [txpool.add_local(..)] under the lock, with the chain of the node *)
Definition rpc_add_local (err : TxPool.TxPoolError -> Status) (t : SignedTransaction) : rpcM unit := fun r =>
  let c := node_chain (rs_node r) in
  with_write (map_err err (TxPool.add_local (Bc:=chain_view (cs_state c) (cs_store c)) instant hash_keys t)) r.

(** ** Transactions (txs.rs) *)

Definition sign_transaction (request : UnsignedTransactionRequest) : rpcM (H256 * SignedTransaction) :=
  with_read (
    tx ← lift (ok_or (req_tx request) (invalid_argument "tx arg not found or failed to decode"));
    secret_key ← lift (fixed_bytes 32 (req_secret_key request));
    address ← lift (conv internal_crypto (get_address_from_secret_key secret_key (from_chain_id (tx_chain_id tx))));
    tx ← (if nonce tx =? 0
          then n ← map_err (fun _ => internal "") (TxPool.pool_nonce address); mret (with_nonce n tx)
          else mret tx);
    signed_tx ← lift (conv internal_crypto (sign_tx secret_key tx));
    mret (tx_hash signed_tx, signed_tx)).

Definition sign_send_transaction (request : UnsignedTransactionRequest) : rpcM H256 :=
  tx ← lift (ok_or (req_tx request) (invalid_argument "tx arg not found or failed to decode"));
  secret_key ← lift (fixed_bytes 32 (req_secret_key request));
  signed_tx ← lift (conv internal_crypto (sign_tx secret_key tx));
  _ ← rpc_add_local unknown_pool signed_tx;
  _ ← send_local (BroadcastTx [signed_tx]);
  mret (tx_hash signed_tx).

Definition send_transaction (signed_tx : SignedTransaction) : rpcM H256 :=
  _ ← rpc_add_local aborted signed_tx;
  _ ← send_local (BroadcastTx [signed_tx]);
  mret (tx_hash signed_tx).

Fixpoint hashes_from_slices (l : list bytes) : result Status (list H256) :=
  match l with
  | [] => Ok []
  | s :: l => h ← fixed_bytes 32 s; hs ← hashes_from_slices l; Ok (h :: hs)
  end.
Definition get_transaction_status (txs : list bytes) : rpcM (list TransactionStatus) :=
  with_read (
    hs ← lift (hashes_from_slices txs);
    gets (fun p => TxPool.pool_status p hs)).

(** [AddressTransactionList] of a hash map *)
Definition address_lists (m : gmap Address (list SignedTransaction)) : list (Address * list SignedTransaction) :=
  (fun a => (a, default [] (m !! a))) <$> hash_keys _ m.
Definition get_pending_transactions : rpcM (list (Address * list SignedTransaction)) :=
  with_read (gets (fun p => address_lists (TxPool.pool_pending p))).
Definition get_txpool_content :
    rpcM (list (Address * list SignedTransaction) * list (Address * list SignedTransaction)) :=
  with_read (gets (fun p => (address_lists (TxPool.pool_content p).1, address_lists (TxPool.pool_content p).2))).

(** ** The chain (blockchain.rs) *)

Definition current_head : rpcM (H256 * BlockHeader) :=
  r ← gets (fun r => r);
  o ← lift (conv (fun _ => not_found "head not available") (current_header (node_chain (rs_node r))));
  h ← lift (ok_or o (not_found "head not available"));
  mret (ih_hash h, raw h).
Definition rpc_block_level : rpcM Z :=
  ch ← current_head; mret (level ch.2).
Definition rpc_get_block_by_hash (hash : option H256) : rpcM Block :=
  block_hash ← lift (ok_or hash (invalid_argument "hash not present in message"));
  r ← gets (fun r => r);
  o ← lift (conv (fun _ => internal "") (BS_get_block_by_hash (cs_store (node_chain (rs_node r))) block_hash));
  lift (ok_or o (not_found "Block hash")).
Definition rpc_get_block_by_level (lvl : Z) : rpcM Block :=
  r ← gets (fun r => r);
  o ← lift (conv (fun _ => internal "") (BS_get_block_by_level (cs_store (node_chain (rs_node r))) lvl));
  lift (ok_or o (not_found "Block level")).
(** [todo!()] *)
Definition rpc_get_blocks : rpcM (list Block) := lift Panic.
Definition get_blockchain_info : rpcM ChainInfo :=
  ch ← current_head;
  r ← gets (fun r => r);
  g ← lift (conv (fun _ => internal "") (chain_genesis (node_chain (rs_node r))));
  mret {| ci_chain := network; ci_genesis_hash := ih_hash g; ci_difficulty := difficulty ch.2;
          ci_network_difficulty := 26; ci_blocks := level ch.2 |}.

(** ** Accounts (account.rs) *)

Definition get_balance (a : option Address) : rpcM Z :=
  a ← lift (ok_or a (unknown "failed to parse address"));
  r ← gets (fun r => r);
  lift (conv unknown_vm (balance (cs_state (node_chain (rs_node r))) a)).
(** [self.txpool.read().unwrap()] *)
Definition get_nonce (a : option Address) : rpcM Z :=
  a ← lift (ok_or a (unknown "failed to parse address"));
  r ← gets (fun r => r);
  if rs_poisoned r then lift Panic else with_read (map_err (fun _ => internal "") (TxPool.pool_nonce a)).
Definition rpc_get_account_state (a : option Address) : rpcM AccountState :=
  a ← lift (ok_or a (unknown "failed to parse address"));
  r ← gets (fun r => r);
  lift (conv unknown_vm (account_state (cs_state (node_chain (rs_node r))) a)).

(** ** Applications (runtime.rs) *)

(** An operation of the shared machine on the current state; [entropy] is what
    the operating system yields meanwhile. *)
Definition with_vm {A} (m : State -> stM Runtime.WasmVM anyhow A) : rpcM A := fun r =>
  let '(x, v) := m (cs_state (node_chain (rs_node r))) (rs_vm r) in (conv unknown_vm x, set_rs_vm v r).
Definition query_runtime (call : ApplicationCall) : rpcM bytes :=
  with_vm (fun state => Runtime.execute_query state (call_app_id call) (call_service call) (call_method call) (call_args call)).
(** [todo!()] *)
Definition query_runtime_storage : rpcM bytes := lift Panic.
Definition rpc_get_descriptor (entropy : nat -> H256) (app_id : option Address) : rpcM bytes :=
  a ← lift (ok_or app_id (unknown "failed to obtain app address"));
  with_vm (fun state => Runtime.execute_get_app_descriptor from_sec1_bytes entropy state a).

(** ** Requests in any order *)

Inductive Request :=
| SignTransaction (r : UnsignedTransactionRequest) | SignSendTransaction (r : UnsignedTransactionRequest)
| SendTransaction (t : SignedTransaction) | GetTransactionStatus (txs : list bytes)
| GetPendingTransactions | GetTxpoolContent | CurrentHead | BlockLevel | GetBlockByHash (h : option H256)
| GetBlockByLevel (l : Z) | GetBlocks | GetBlockchainInfo | GetBalance (a : option Address)
| GetNonce (a : option Address) | GetAccountState (a : option Address) | QueryRuntime (c : ApplicationCall)
| QueryRuntimeStorage | GetDescriptor (a : option Address).

(** The server after a request, however it ended *)
Definition serve (entropy : nat -> H256) (q : Request) (r : RpcServer) : result Status unit * RpcServer :=
  let run {A} (m : rpcM A) := let '(x, r) := m r in (_ ← x; Ok tt, r) in
  match q with
  | SignTransaction q => run (sign_transaction q)
  | SignSendTransaction q => run (sign_send_transaction q)
  | SendTransaction t => run (send_transaction t)
  | GetTransactionStatus l => run (get_transaction_status l)
  | GetPendingTransactions => run get_pending_transactions
  | GetTxpoolContent => run get_txpool_content
  | CurrentHead => run current_head
  | BlockLevel => run rpc_block_level
  | GetBlockByHash h => run (rpc_get_block_by_hash h)
  | GetBlockByLevel l => run (rpc_get_block_by_level l)
  | GetBlocks => run rpc_get_blocks
  | GetBlockchainInfo => run get_blockchain_info
  | GetBalance a => run (get_balance a)
  | GetNonce a => run (get_nonce a)
  | GetAccountState a => run (rpc_get_account_state a)
  | QueryRuntime c => run (query_runtime c)
  | QueryRuntimeStorage => run query_runtime_storage
  | GetDescriptor a => run (rpc_get_descriptor entropy a)
  end.
Inductive rpc_reachable (r0 : RpcServer) : RpcServer -> Prop :=
| rpc_start : rpc_reachable r0 r0
| rpc_request entropy q r : rpc_reachable r0 r -> rpc_reachable r0 (serve entropy q r).2.

(** The two other users of the lock: the event loop of the node
    (node.rs, [BroadcastTransaction]) and the miner ([pending_txs], worker.rs). *)
Definition loop_add_remotes (txs : list SignedTransaction) : rpcM unit := fun r =>
  let c := node_chain (rs_node r) in
  if rs_poisoned r then (Panic, r)
  else
    match TxPool.add_remotes (Bc:=chain_view (cs_state c) (cs_store c)) instant hash_keys txs (node_pool (rs_node r)) with
    | (Ok _, p) => (Ok tt, set_rs_pool p false r)
    | (_, p) => (Panic, set_rs_pool p true r)
    end.
Definition miner_pending_txs : rpcM (list SignedTransaction) :=
  r ← gets (fun r => r);
  if rs_poisoned r then lift (Err (internal "poisoned lock"))
  else let pending := TxPool.pool_pending (node_pool (rs_node r)) in
       mret (flat_map (fun a => default [] (pending !! a)) (hash_keys _ pending)).

(** ** What requests do to the node *)

Definition rpc_inv (c : ChainState) (r : RpcServer) : Prop :=
  node_chain (rs_node r) = c /\ TxPoolProofs.pool_wf (node_pool (rs_node r)).

Lemma with_read_inv {A} c (m : stM TxPool.TxPool Status A) :
  preserves TxPoolProofs.pool_wf m -> preserves (rpc_inv c) (with_read m).
Proof.
  intros Hm r [Hc Hp]. unfold with_read. destruct (rs_poisoned r); [now split|].
  destruct (Hm _ Hp) as [Hp' _]. destruct (m (node_pool (rs_node r))) as [x p]. now split.
Qed.
Lemma with_write_inv {A} c (m : stM TxPool.TxPool Status A) :
  preserves TxPoolProofs.pool_wf m -> preserves (rpc_inv c) (with_write m).
Proof.
  intros Hm r [Hc Hp]. unfold with_write. destruct (rs_poisoned r); [now split|].
  destruct (Hm _ Hp) as [Hp' _]. destruct (m (node_pool (rs_node r))) as [x p]. now split.
Qed.
Lemma add_local_inv c err t : preserves (rpc_inv c) (rpc_add_local err t).
Proof.
  intros r Hr. apply with_write_inv; [|exact Hr]. apply preserves_map_err. intros p Hp.
  split; [|now destruct (TxPool.add_local _ _ _ _)].
  exact (TxPoolProofs.pool_step_wf (Bc:=chain_view (cs_state (node_chain (rs_node r))) (cs_store (node_chain (rs_node r))))
    instant hash_keys _ _ Hp (TxPoolProofs.step_add_txs _ _ [t] true p)).
Qed.
Lemma send_local_inv c m : preserves (rpc_inv c) (send_local m).
Proof. intros r Hr. unfold send_local. destruct (rs_sender r); now split. Qed.
Lemma with_vm_inv {A} c (m : State -> stM Runtime.WasmVM anyhow A) : preserves (rpc_inv c) (with_vm m).
Proof. intros r Hr. unfold with_vm. destruct (m _ (rs_vm r)) as [x v]. now split. Qed.
Lemma pool_nonce_inv {F} (f : TxPool.TxPoolError -> F) a : preserves TxPoolProofs.pool_wf (map_err f (TxPool.pool_nonce a)).
Proof.
  apply preserves_map_err. intros p Hp. split; [|now destruct (TxPool.pool_nonce a p)].
  exact (TxPoolProofs.pool_step_wf (Bc:={| TxPool.chain_get_block _ _ := Panic; TxPool.chain_get_current_state := Panic;
    TxPool.chain_get_state_at _ := Panic |}) instant hash_keys _ _ Hp (TxPoolProofs.step_nonce _ _ a p)).
Qed.

Create HintDb rpc.
#[local] Hint Resolve preserves_gets preserves_lift preserves_ret with_read_inv add_local_inv send_local_inv with_vm_inv pool_nonce_inv : rpc.
#[local] Hint Extern 5 (preserves _ (_ ≫= _)) => apply preserves_bind; [|intros ?] : rpc.
#[local] Hint Extern 6 (preserves _ (if _ then _ else _)) => case_match : rpc.

Lemma sign_transaction_inv c q : preserves (rpc_inv c) (sign_transaction q).
Proof. unfold sign_transaction. apply with_read_inv. auto 12 with rpc. Qed.
Lemma current_head_inv c : preserves (rpc_inv c) current_head.
Proof. unfold current_head. auto 8 with rpc. Qed.
#[local] Hint Resolve sign_transaction_inv current_head_inv : rpc.

Lemma run_inv {A} c (m : rpcM A) r :
  preserves (rpc_inv c) m -> rpc_inv c r -> rpc_inv c (let '(x, r) := m r in (_ ← x; Ok (E:=Status) tt, r)).2.
Proof. intros Hm Hr. destruct (Hm r Hr) as [Hr' _]. now destruct (m r). Qed.
Lemma serve_inv c entropy q r : rpc_inv c r -> rpc_inv c (serve entropy q r).2.
Proof.
  intros Hr. destruct q; cbn [serve]; (apply run_inv; [|exact Hr]);
    unfold sign_send_transaction, send_transaction, get_transaction_status, get_pending_transactions, get_txpool_content,
      rpc_block_level, rpc_get_block_by_hash, rpc_get_block_by_level, rpc_get_blocks, get_blockchain_info, get_balance,
      get_nonce, rpc_get_account_state, query_runtime, query_runtime_storage, rpc_get_descriptor; auto 12 with rpc.
Qed.

(** Whatever requests arrive, in whatever order and however they end, the chain of
    the node is not changed and the pool stays in order. *)
Lemma rpc_keeps_node r0 r :
  TxPoolProofs.pool_wf (node_pool (rs_node r0)) -> rpc_reachable r0 r -> rpc_inv (node_chain (rs_node r0)) r.
Proof. intros Hp Hr. induction Hr as [|e q r _ IH]; [done|]. now apply serve_inv. Qed.

(** ** Sending transactions *)

Lemma add_local_outcome err t r x r' : rpc_add_local err t r = (x, r') ->
  rs_sender r' = rs_sender r /\ (x = Panic -> rs_poisoned r' = true) /\ (x = Ok tt -> rs_poisoned r = false /\ rs_poisoned r' = false).
Proof.
  unfold rpc_add_local, with_write. destruct (rs_poisoned r) eqn:Ep; [intros [= <- <-]; easy|].
  destruct (map_err _ _ _) as [y p]. intros [= <- <-]. cbn. destruct y; easy.
Qed.

(** [send_outcome]: a transaction that is sent is announced to the peers, once,
    exactly when the request succeeds, with the hash of the transaction as the
    answer; a request that panics poisons the lock. *)
Theorem send_outcome t r x r' :
  send_transaction t r = (x, r') ->
  match x with
  | Ok h => h = tx_hash t /\ rs_poisoned r' = false /\
      exists l, rs_sender r = Some l /\ rs_sender r' = Some (l ++ [BroadcastTx [t]])
  | Err _ => rs_sender r' = rs_sender r
  | Panic => rs_sender r' = rs_sender r /\ rs_poisoned r' = true
  end.
Proof.
  unfold send_transaction, mbind, stM_bind. destruct (rpc_add_local aborted t r) as [y r1] eqn:Ea.
  destruct (add_local_outcome _ _ _ _ _ Ea) as (Hs & Hp & Hok). destruct y as [[]|e|]; [|intros [= <- <-]; auto..].
  destruct (Hok eq_refl) as [_ Hok2]. unfold send_local. rewrite Hs. destruct (rs_sender r) as [l|] eqn:El; intros [= <- <-]; [|easy].
  split; [done|]. split; [done|]. now exists l.
Qed.

(** [signed_by_key]: [sign_transaction] answers a transaction with the fields of
    the request, attributed to the address of the secret key; a nonce of zero is
    replaced by the next one the pool has for this address. *)
Theorem signed_by_key q t sk r h st r' :
  req_tx q = Some t -> req_secret_key q = sk -> sign_transaction q r = (Ok (h, st), r') ->
  h = tx_hash st /\ get_address_from_secret_key sk (from_chain_id (tx_chain_id t)) = Ok (sender st) /\
  tx st = with_nonce (nonce (tx st)) t /\
  (if nonce t =? 0 then (TxPool.pool_nonce (sender st) (node_pool (rs_node r))).1 = Ok (nonce (tx st)) else nonce (tx st) = nonce t).
Proof.
  intros Ht Hk. unfold sign_transaction, with_read. destruct (rs_poisoned r); [discriminate|]. rewrite Ht, Hk.
  intros E. match type of E with (let '(_, _) := ?m in _) = _ => destruct m as [x p] eqn:Em end. injection E as -> <-.
  apply bind_st_inv in Em as (t0 & p0 & E0 & Em). injection E0 as <- <-.
  apply bind_st_inv in Em as (sk0 & p0 & E0 & Em). unfold lift in E0. injection E0 as E0 <-.
  unfold fixed_bytes in E0. destruct (decide (length sk = 32%nat)) as [Hlen|]; [|discriminate]. injection E0 as <-.
  apply bind_st_inv in Em as (a & p0 & E0 & Em). unfold lift in E0. injection E0 as E0 <-.
  destruct (get_address_from_secret_key sk (from_chain_id (tx_chain_id t))) as [a'|e|] eqn:Ea; [|discriminate..].
  injection E0 as <-. apply bind_st_inv in Em as (t' & p1 & E1 & Em).
  apply bind_st_inv in Em as (st' & p2 & E2 & Em). unfold lift in E2. injection E2 as E2 <-. injection Em as Eh Est _. subst h st'.
  destruct (sign_tx sk t') as [st2|e|] eqn:Es; [|discriminate..]. injection E2 as E2. subst st2.
  destruct (sign_tx_sender sk t' st Es) as [Hx Hsnd].
  assert (t' = with_nonce (nonce t') t /\
    (if nonce t =? 0 then (TxPool.pool_nonce a' (node_pool (rs_node r))).1 = Ok (nonce t') else nonce t' = nonce t)) as [Ht' Hn].
  { destruct (nonce t =? 0).
    - apply bind_st_inv in E1 as (n & p3 & E3 & E4). injection E4 as <- _. split; [done|]. unfold map_err in E3.
      destruct (TxPool.pool_nonce a' (node_pool (rs_node r))) as [[m|e|] p4]; [|discriminate..]. now injection E3 as <- _.
    - injection E1 as <- _. split; [now destruct t|done]. }
  assert (tx_chain_id t' = tx_chain_id t) as Hid by (rewrite Ht'; done). rewrite Hid in Hsnd.
  rewrite Ea in Hsnd. injection Hsnd as <-. rewrite Hx. easy.
Qed.

(** ** A poisoned lock *)

Lemma poisoned_read {A} (m : stM TxPool.TxPool Status A) r : rs_poisoned r = true -> with_read m r = (Err (internal ""), r).
Proof. intros Hp. unfold with_read. now rewrite Hp. Qed.

(** What a server with a poisoned lock still does *)
Definition answers_poisoned (q : Request) : bool :=
  match q with
  | SignTransaction _ | SignSendTransaction _ | SendTransaction _ | GetTransactionStatus _
  | GetPendingTransactions | GetTxpoolContent | GetNonce _ => false
  | _ => true
  end.
(** A step that fails at once, or first computes something else *)
Lemma bind_stuck {A B} (m : rpcM A) (f : A -> rpcM B) r :
  (m r).2 = r -> (forall a, m r = (Ok a, r) -> (f a r).2 = r /\ is_ok (f a r).1 = false) ->
  ((m ≫= f) r).2 = r /\ is_ok ((m ≫= f) r).1 = false.
Proof.
  intros Hm Hf. unfold mbind, stM_bind. destruct (m r) as [[a|e|] r1]; cbn in *; subst r1; try easy. now apply Hf.
Qed.
Lemma run_stuck {A} (m : rpcM A) r : (m r).2 = r -> is_ok (m r).1 = false ->
  (let '(x, r) := m r in (_ ← x; Ok (E:=Status) tt, r)).2 = r /\ is_ok (let '(x, r) := m r in (_ ← x; Ok (E:=Status) tt, r)).1 = false.
Proof. destruct (m r) as [[a|e|] r1]; cbn; easy. Qed.
(** Servers that differ at most in the cache of the machine *)
Definition same_but_vm (r r' : RpcServer) : Prop :=
  rs_node r' = rs_node r /\ rs_poisoned r' = rs_poisoned r /\ rs_sender r' = rs_sender r.
Lemma with_vm_same {A} r (m : State -> stM Runtime.WasmVM anyhow A) : preserves (same_but_vm r) (with_vm m).
Proof. intros r' Hr. unfold with_vm. destruct (m _ (rs_vm r')) as [x v]. now split. Qed.
#[local] Hint Resolve with_vm_same : rpc.
Lemma run_reads {A} (m : rpcM A) r : preserves (same_but_vm r) m ->
  same_but_vm r (let '(x, r) := m r in (_ ← x; Ok (E:=Status) tt, r)).2.
Proof. intros Hm. destruct (Hm r) as [Hr _]; [done|]. now destruct (m r). Qed.
Lemma stuck_same r (x : result Status unit * RpcServer) :
  x.2 = r /\ is_ok x.1 = false -> same_but_vm r x.2 /\ is_ok x.1 = false.
Proof. now intros [-> ->]. Qed.

Lemma serve_poisoned entropy q r : rs_poisoned r = true ->
  same_but_vm r (serve entropy q r).2 /\ (answers_poisoned q = false -> is_ok (serve entropy q r).1 = false).
Proof.
  intros Hp.
  assert (forall err t, rpc_add_local err t r = (Err (internal ""), r)) as Ha
    by (intros err t; unfold rpc_add_local, with_write; now rewrite Hp).
  destruct (answers_poisoned q) eqn:Eq.
  - split; [|discriminate]. destruct q; try discriminate; cbn [serve]; apply run_reads;
      unfold rpc_block_level, rpc_get_block_by_hash, rpc_get_block_by_level, rpc_get_blocks, get_blockchain_info, get_balance,
        rpc_get_account_state, query_runtime, query_runtime_storage, rpc_get_descriptor, current_head; auto 12 with rpc.
  - enough (same_but_vm r (serve entropy q r).2 /\ is_ok (serve entropy q r).1 = false) as [? ?] by auto. apply stuck_same.
    destruct q; try discriminate; cbn [serve].
    + unfold sign_transaction. now rewrite poisoned_read.
    + apply run_stuck; apply bind_stuck; try easy; intros t _; apply bind_stuck; try easy; intros k _; apply bind_stuck; try easy; intros st _;
        apply bind_stuck; rewrite ?Ha; easy.
    + apply run_stuck; apply bind_stuck; rewrite ?Ha; easy.
    + unfold get_transaction_status. now rewrite poisoned_read.
    + unfold get_pending_transactions. now rewrite poisoned_read.
    + unfold get_txpool_content. now rewrite poisoned_read.
    + apply run_stuck; apply bind_stuck; try easy; intros x _; apply bind_stuck; try easy; intros y [= <-]; now rewrite Hp.
Qed.

(** [poisoned_for_ever]: once the lock of the pool is poisoned, no request about
    transactions or nonces succeeds again, whatever else is asked, the node and its
    pool stay as they are, and the next transaction a peer broadcasts stops the
    event loop of the node. *)
Theorem poisoned_for_ever r0 r entropy q txs :
  rs_poisoned r0 = true -> rpc_reachable r0 r ->
  same_but_vm r0 r /\ (answers_poisoned q = false -> is_ok (serve entropy q r).1 = false) /\
  (loop_add_remotes txs r).1 = Panic /\ is_ok (miner_pending_txs r).1 = false.
Proof.
  intros Hp Hr. assert (same_but_vm r0 r) as Hs.
  { induction Hr as [|e q' r _ (En & Ep & Es)]; [done|]. rewrite Hp in Ep.
    destruct (serve_poisoned e q' r Ep) as [(Hn & Hq & Hl) _]. unfold same_but_vm. now rewrite Hn, Hq, Hl, Ep, Hp. }
  split; [exact Hs|]. destruct Hs as (_ & Ep & _). rewrite Hp in Ep. split; [now apply serve_poisoned|]. split.
  - unfold loop_add_remotes. now rewrite Ep.
  - unfold miner_pending_txs, mbind, stM_bind, gets. now rewrite Ep.
Qed.

(** C29 [zero_fee_request_poisons]: one request is enough: a transaction without a
    fee that has the sender and the nonce of a pending one poisons the lock, when
    the lock is not poisoned yet, the pool does not know the transaction, has room
    for it and finds it valid. *)
Theorem zero_fee_request_poisons t old l r :
  let p := node_pool (rs_node r) in
  rs_poisoned r = false -> TxPool.pool_has p (tx_hash t) = false -> TxPool.validate_tx p t = Ok tt ->
  u64 (TxList.lk_slots (TxPool.all p) + TxList.num_slots t)
    <= u64 (TxPool.global_slots (TxPool.config p) + TxPool.global_queue (TxPool.config p)) ->
  TxPool.pending p !! sender t = Some l -> TxList.list_txs l !! tx_nonce t = Some old -> fees t = 0 ->
  exists r', send_transaction t r = (Panic, r') /\ rs_poisoned r' = true /\ node_chain (rs_node r') = node_chain (rs_node r).
Proof.
  intros p Hp Hn Hv Hroom Hl Hold Hf.
  pose proof (TxPoolTheorems.zero_fee_replacement_panics instant t old l true p Hn Hv Hroom Hl Hold Hf) as Hadd.
  assert ((TxPool.add_txs (Bc:=chain_view (cs_state (node_chain (rs_node r))) (cs_store (node_chain (rs_node r))))
    instant hash_keys [t] true p).1 = Panic) as Ht.
  { unfold TxPool.add_txs. change ((TxPool.pool ≫= ?f) p) with (f p p). cbv beta zeta.
    unfold TxPool.pool_has in Hn. cbn [List.filter]. rewrite Hn. cbn [negb].
    unfold TxPool.add_txs_locked. cbn [TxPool.add_each].
    assert (forall A B (m : stM TxPool.TxPool TxPool.TxPoolError A) (f : A -> stM TxPool.TxPool TxPool.TxPoolError B),
      (m p).1 = Panic -> ((m ≫= f) p).1 = Panic) as Hb.
    { intros A B m f. unfold mbind, stM_bind. destruct (m p) as [[| |] ?]; easy. }
    apply Hb. unfold mbind, stM_bind, TxPool.attempt. destruct (TxPool.add instant t true p) as [[| |] p']; easy. }
  unfold send_transaction, mbind, stM_bind, rpc_add_local, with_write. rewrite Hp. unfold map_err, TxPool.add_local. fold p.
  destruct (TxPool.add_txs instant hash_keys [t] true p) as [x p'] eqn:E. cbn in Ht. subst x. cbv beta iota.
  eexists. split; [reflexivity|]. split; reflexivity.
Qed.

(** [stored_block_served]: a block that is put into the storage is the answer to
    the request for its hash, whatever requests come in between. *)
Theorem stored_block_served b s tb r0 r :
  codec_ok prost_BlockHeader wf_header -> has_columns s -> wf_header (header b) ->
  KV_get BlockHeaderStorage s (block_key (header b)) = Ok None ->
  encode prost_Transactions (transactions b) = Ok tb -> decode prost_Transactions tb = Ok (transactions b) ->
  BlockStorage_put b s = (Ok tt, cs_store (node_chain (rs_node r0))) ->
  TxPoolProofs.pool_wf (node_pool (rs_node r0)) -> rpc_reachable r0 r ->
  rpc_get_block_by_hash (Some (block_hash b)) r = (Ok b, r).
Proof.
  intros Hc Hs W Hg Et Dt Hput Hwf Hr.
  destruct (rpc_keeps_node r0 r Hwf Hr) as [Hch _].
  destruct (BlockStorage_put_spec b s tb Hc Hs W Et (or_introl Hg)) as (s' & E & Sb). rewrite Hput in E. injection E as <-.
  assert (BS_get_block_by_hash (cs_store (node_chain (rs_node r0))) (block_hash b) = Ok (Some b)) as G.
  { unfold BS_get_block_by_hash. rewrite (sb_hash _ _ _ Sb). cbn [mbind result_bind]. unfold BS_get_block.
    change {| key_level := _; key_hash := _ |} with (block_key (header b)). rewrite (sb_header _ _ _ Sb). cbn [mbind result_bind].
    rewrite (sb_transactions _ _ _ Sb) by now rewrite Et. cbn [mbind result_bind]. now destruct b. }
  unfold rpc_get_block_by_hash, mbind, stM_bind, lift, gets, ok_or. rewrite Hch, G. reflexivity.
Qed.
End Rpc.

(** ** Requests evaluated *)

#[local] Existing Instances easy_crypto easy_crypto_laws no_machine no_machine_laws node_len.
Definition no_load (s : State) (a : Address) : result anyhow unit := Ok tt.
Definition no_create (s : State) (a b : Address) (v : Z) (c : bytes) : result anyhow (bytes * Changelist) := Err "no machine"%string.
#[local] Instance no_engine : Runtime.WasmEngine := {|
  Runtime.AppInstance := unit;
  Runtime.instantiate _ := Runtime.Trap tt "no machine"%string;
  Runtime.guest_genesis _ := Runtime.Return tt tt;
  Runtime.guest_call _ _ _ _ := Runtime.Return tt tt;
  Runtime.guest_query _ _ _ _ := Runtime.Return tt [];
  Runtime.guest_descriptor _ := Runtime.Return tt [];
|}.
Definition no_sec1 (b : bytes) : option VerifyingKey := None.
Definition no_entropy (n : nat) : H256 := H256_zero.
Definition no_head : ChainHeadReader := constant_reader (from_raw example_header).
Definition no_instant (n : nat) : Z := 0.
Definition pool_text (e : TxPool.TxPoolError) : anyhow := "pool"%string.
#[local] Instance demo_rpc_services : ChainServices := rpc_node_services no_instant node_keys no_load no_create pool_text.
Abbreviation DemoServer := (RpcServer no_instant node_keys no_load no_create pool_text).
Abbreviation demo_serve := (serve no_instant node_keys no_load no_create pool_text Testnet no_sec1 no_entropy).
Abbreviation demo_requests := (rpc_reachable no_instant node_keys no_load no_create pool_text Testnet no_sec1).
Abbreviation demo_send := (send_transaction no_instant node_keys no_load no_create pool_text).

Definition rpc0 : DemoServer := {| rs_node := node0; rs_vm := Runtime.WasmVM_new no_head; rs_poisoned := false; rs_sender := Some [] |}.
(** Two transactions without a fee, from one sender with one nonce *)
Definition free_tx (dst : Address) : SignedTransaction := demo_tx 1 0 0 dst.
Definition rpc1 : DemoServer := (demo_send (free_tx (demo_dst 1)) rpc0).2.
Definition rpc2 : DemoServer := (demo_send (free_tx (demo_dst 2)) rpc1).2.

Lemma node0_pool_wf : TxPoolProofs.pool_wf (node_pool (rs_node _ _ _ _ _ rpc0)).
Proof. exact (TxPoolProofs.TxPool_new_wf _ _ _ demo_txpool_new). Qed.
Lemma one_request q (r : DemoServer) : demo_requests r (demo_serve q r).2.
Proof. apply rpc_request, rpc_start. Qed.

Lemma run_value {S E A} (m : stM S E A) s a : (m s).1 = Ok a -> m s = (Ok a, (m s).2).
Proof. intros Ha. rewrite (surjective_pairing (m s)) at 1. now rewrite Ha. Qed.
Lemma first_send : demo_send (free_tx (demo_dst 1)) rpc0 = (Ok (tx_hash (free_tx (demo_dst 1))), rpc1).
Proof.
  unfold rpc1. assert ((demo_send (free_tx (demo_dst 1)) rpc0).1 = Ok (tx_hash (free_tx (demo_dst 1)))) as Hok
    by (vm_compute; reflexivity).
  exact (run_value _ _ _ Hok).
Qed.
Lemma send_outcome_witness : exists l, rs_sender _ _ _ _ _ rpc0 = Some l /\ rs_sender _ _ _ _ _ rpc1 = Some (l ++ [BroadcastTx [free_tx (demo_dst 1)]]).
Proof. exact (proj2 (proj2 (send_outcome _ _ _ _ _ _ _ _ _ first_send))). Defined.

Definition pool1 : TxPool.TxPool := node_pool (rs_node _ _ _ _ _ rpc1).
Definition free_list : option TxList.TxList := TxPool.pending pool1 !! sender (free_tx (demo_dst 2)).
Lemma free_tx_new : TxPool.pool_has pool1 (tx_hash (free_tx (demo_dst 2))) = false /\ TxPool.validate_tx pool1 (free_tx (demo_dst 2)) = Ok tt.
Proof. split; vm_compute; reflexivity. Qed.
Lemma free_tx_room :
  u64 (TxList.lk_slots (TxPool.all pool1) + TxList.num_slots (free_tx (demo_dst 2)))
    <= u64 (TxPool.global_slots (TxPool.config pool1) + TxPool.global_queue (TxPool.config pool1)).
Proof. apply Z.leb_le. vm_compute. reflexivity. Qed.
Lemma free_tx_pending : exists l, free_list = Some l /\ TxList.list_txs l !! tx_nonce (free_tx (demo_dst 2)) = Some (free_tx (demo_dst 1)).
Proof. eexists. split; vm_compute; reflexivity. Qed.
Lemma zero_fee_request_poisons_witness :
  exists r', demo_send (free_tx (demo_dst 2)) rpc1 = (Panic, r') /\ rs_poisoned _ _ _ _ _ r' = true /\
    node_chain (rs_node _ _ _ _ _ r') = node_chain (rs_node _ _ _ _ _ rpc1).
Proof.
  destruct free_tx_pending as (l & Hl & Hold).
  assert (rs_poisoned _ _ _ _ _ rpc1 = false) as Hp by (vm_compute; reflexivity).
  assert (fees (free_tx (demo_dst 2)) = 0) as Hf by (vm_compute; reflexivity).
  exact (zero_fee_request_poisons no_instant node_keys no_load no_create pool_text _ _ l rpc1 Hp (proj1 free_tx_new) (proj2 free_tx_new)
    free_tx_room Hl Hold Hf).
Defined.
Lemma rpc2_poisoned : rs_poisoned _ _ _ _ _ rpc2 = true.
Proof. vm_compute. reflexivity. Qed.
Lemma poisoned_for_ever_witness :
  let r := (demo_serve CurrentHead rpc2).2 in
  same_but_vm _ _ _ _ _ rpc2 r /\ (answers_poisoned GetTxpoolContent = false -> is_ok (demo_serve GetTxpoolContent r).1 = false) /\
  (loop_add_remotes _ _ _ _ _ [] r).1 = Panic /\ is_ok (miner_pending_txs _ _ _ _ _ r).1 = false.
Proof. exact (poisoned_for_ever _ _ _ _ _ _ _ rpc2 _ no_entropy GetTxpoolContent [] rpc2_poisoned (one_request _ rpc2)). Defined.

Definition free_request : UnsignedTransactionRequest :=
  {| req_tx := Some (with_nonce 0 (tx (free_tx (demo_dst 1)))); req_secret_key := to_be 32 5 |}.
Abbreviation demo_sign := (sign_transaction no_instant node_keys no_load no_create pool_text).
Definition signed_free : H256 * SignedTransaction := ok_default (H256_zero, free_tx (demo_dst 1)) (demo_sign free_request rpc0).1.
Lemma free_signed : demo_sign free_request rpc0 = (Ok (signed_free.1, signed_free.2), (demo_sign free_request rpc0).2).
Proof. apply (run_value (demo_sign free_request)). vm_compute. reflexivity. Qed.
Lemma signed_by_key_witness :
  signed_free.1 = tx_hash signed_free.2 /\
  get_address_from_secret_key (to_be 32 5) (from_chain_id 1) = Ok (sender signed_free.2) /\
  tx signed_free.2 = with_nonce (nonce (tx signed_free.2)) (with_nonce 0 (tx (free_tx (demo_dst 1)))) /\
  (TxPool.pool_nonce (sender signed_free.2) demo_txpool).1 = Ok (nonce (tx signed_free.2)).
Proof. exact (signed_by_key no_instant node_keys no_load no_create pool_text free_request _ _ rpc0 _ _ _ eq_refl eq_refl free_signed). Defined.

Definition served_block : Block := {| header := example_header; transactions := [] |}.
Definition served_store : MemStore := (BlockStorage_put served_block (MemStore_new column_family_names)).2.
Definition rpc_served : DemoServer :=
  {| rs_node := {| node_chain := set_cs_store served_store demo_chain; node_pool := demo_txpool |}; rs_vm := Runtime.WasmVM_new no_head; rs_poisoned := false; rs_sender := None |}.
Lemma served_put : BlockStorage_put served_block (MemStore_new column_family_names) = (Ok tt, served_store).
Proof. refine (run_ok (BlockStorage_put served_block) (MemStore_new column_family_names) _). vm_compute. reflexivity. Qed.
Lemma served_pool_wf : TxPoolProofs.pool_wf (node_pool (rs_node _ _ _ _ _ rpc_served)).
Proof. exact (TxPoolProofs.TxPool_new_wf _ _ _ demo_txpool_new). Qed.
Lemma served_start : has_columns (MemStore_new column_family_names) /\ wf_header (header served_block) /\
  KV_get BlockHeaderStorage (MemStore_new column_family_names) (block_key (header served_block)) = Ok None.
Proof. split; [|split; [|reflexivity]]; apply (bool_decide_unpack _); vm_compute; exact Logic.I. Qed.
Lemma stored_block_served_witness :
  let r := (demo_serve (SendTransaction (free_tx (demo_dst 1))) rpc_served).2 in
  rpc_get_block_by_hash _ _ _ _ _ (Some (block_hash served_block)) r = (Ok served_block, r).
Proof.
  destruct served_start as (Hs & Hw & Hk).
  exact (stored_block_served no_instant node_keys no_load no_create pool_text Testnet no_sec1
    served_block (MemStore_new column_family_names) [] rpc_served _
    toy_header_ok Hs Hw Hk eq_refl eq_refl served_put served_pool_wf (one_request _ rpc_served)).
Defined.
