(* ===== verification/Client.v ===== *)
(** * The command line client

    Sources: src/client/src/{parser,util,commands}.rs and src/account/src/lib.rs.

    The client turns the text of a command line into requests of Rpc.v: command
    strings such as [$hex(00ff)] inside JSON arguments, method names, addresses and
    signers, payments and new applications.  [nom], [base64] and the random
    generator of [account] are parameters with their documented behaviour; the file
    system is an argument.  A request whose task panics in the server is an error
    for the client.  Calls of applications, which go through the reflection of
    protobuf descriptors, and the parsing of arguments by clap are not modelled. *)
From S2P Require Import Prelude Crypto Types Consensus Smt Codec SmtTree SmtProofs SmtTheorems TreeDb Storage State StateProofs.
From S2P Require Import Chain Replay ChainProofs Peers.
From S2P Require PrQue TxList TxPool TxPoolProofs TxPoolTheorems.
From S2P Require Import Node Rpc.
From S2P Require Import Runtime Framework.
From S2P Require Hex.
Import TxList (ProstLen).

(** ** Parsers of [nom] *)

Abbreviation parser A := (str -> result string (str * A)).
Class Nom := {
  nom_tag : str -> parser str;
  take_until : str -> parser str;
  alpha1 : parser str;
  alphanumeric0 : parser str;
  one_of : str -> parser Z;
  nom_char : Z -> parser Z;
  map_parser : parser str -> parser str -> parser str;
  delimited {A B C} : parser A -> parser B -> parser C -> parser B;
  alt2 {A} : parser A -> parser A -> parser A
}.

Definition is_alpha (c : Z) : bool := in_range 65 90 c || in_range 97 122 c.
Definition is_alphanumeric (c : Z) : bool := is_alpha c || in_range 48 57 c.
(** The longest prefix of characters with a property, and the rest *)
Fixpoint span (p : Z -> bool) (s : str) : str * str :=
  match s with
  | [] => ([], [])
  | c :: s' => if p c then let '(a, b) := span p s' in (c :: a, b) else ([], s)
  end.

(** What the documentation of the crate says of each parser, on [complete] input *)
Class NomLaws {N : Nom} : Prop := {
  tag_ok t i : nom_tag t (t ++ i) = Ok (i, t);
  tag_err t i : ~ t `prefix_of` i -> exists e, nom_tag t i = Err e;
  (** [take_until] of one character *)
  take_until_ok c a b : c ∉ a -> take_until [c] (a ++ c :: b) = Ok (c :: b, a);
  take_until_err c i : c ∉ i -> exists e, take_until [c] i = Err e;
  alpha1_ok i : (span is_alpha i).1 <> [] -> alpha1 i = Ok ((span is_alpha i).2, (span is_alpha i).1);
  alpha1_err i : (span is_alpha i).1 = [] -> exists e, alpha1 i = Err e;
  alphanumeric0_ok i : alphanumeric0 i = Ok ((span is_alphanumeric i).2, (span is_alphanumeric i).1);
  one_of_ok l c i : c ∈ l -> one_of l (c :: i) = Ok (i, c);
  one_of_err l i : (forall c i', i = c :: i' -> c ∉ l) -> exists e, one_of l i = Err e;
  char_ok c i : nom_char c (c :: i) = Ok (i, c);
  char_err c i : (forall i', i <> c :: i') -> exists e, nom_char c i = Err e;
  map_parser_spec p q i : map_parser p q i = ('(i1, o1) ← p i; '(_, o2) ← q o1; Ok (i1, o2));
  delimited_spec {A B C} (p : parser A) (q : parser B) (r : parser C) i :
    delimited p q r i = ('(i, _) ← p i; '(i, o) ← q i; '(i, _) ← r i; Ok (i, o));
  alt2_ok {A} (p q : parser A) i x : p i = Ok x -> alt2 p q i = Ok x;
  alt2_err {A} (p q : parser A) i e x : p i = Err e -> q i = Ok x -> alt2 p q i = Ok x
}.

(** ** Command strings (parser.rs, util.rs) *)

Inductive CommandError := FailedToParse | FailedToParseNom (e : string).
Record Command := { op : str; cmd_data : str }.
Definition QUOTES : str := [34; 39].

Section Commands.
Context `{NomLaws}.
Definition _parse_cmd_str (input : str) : result string (str * Command) :=
  '(input, _) ← nom_tag [36] input;
  '(input, op) ← map_parser (take_until [40]) alpha1 input;
  let build_str := alt2 (delimited (one_of QUOTES) alphanumeric0 (one_of QUOTES)) alphanumeric0 in
  '(input, data) ← delimited (nom_char 40) build_str (nom_char 41) input;
  Ok (input, {| op := op; cmd_data := data |}).
Definition parse_cmd_str (input : str) : result CommandError Command :=
  match _parse_cmd_str input with
  | Ok (remaining, cmd) => match remaining with [] => Ok cmd | _ => Err FailedToParse end
  | Err e => Err (FailedToParseNom e)
  | Panic => Panic
  end.

(** *** What is a command *)

Lemma span_app p a b : Forall (fun c => p c = true) a -> (forall c b', b = c :: b' -> p c = false) -> span p (a ++ b) = (a, b).
Proof.
  induction a as [|c a IH]; intros Ha Hb; cbn.
  - destruct b as [|c b]; [done|]. cbn. now rewrite (Hb c b).
  - inversion Ha as [|? ? Hc Ha']. rewrite Hc. now rewrite IH.
Qed.
Lemma span_spec p s : s = (span p s).1 ++ (span p s).2 /\ Forall (fun c => p c = true) (span p s).1 /\
  (forall c b', (span p s).2 = c :: b' -> p c = false).
Proof.
  induction s as [|c s (E & Ha & Hb)]; cbn; [done|]. destruct (p c) eqn:Hc.
  - destruct (span p s) as [a b]; cbn in *. subst s. split; [done|]. split; [now constructor|done].
  - cbn. split; [done|]. split; [done|]. now intros c' b' [= <- <-].
Qed.
Lemma alphanumeric_plain c : is_alphanumeric c = true -> c ∉ QUOTES /\ c <> 40 /\ c <> 41.
Proof.
  unfold is_alphanumeric, is_alpha, in_range, QUOTES. intros Hc. rewrite !not_elem_of_cons.
  assert (c <> 34 /\ c <> 39 /\ c <> 40 /\ c <> 41) as (? & ? & ? & ?) by lia. split; [|done]. repeat split; [done..|apply not_elem_of_nil].
Qed.
Lemma not_alphanumeric c : c ∈ 41 :: QUOTES -> is_alphanumeric c = false.
Proof. intros Hc. destruct (is_alphanumeric c) eqn:E; [|done]. apply alphanumeric_plain in E. set_solver. Qed.

(** The text between the parentheses: [data], bare or between two quotes *)
Definition quoted (data q1 q2 : str) : Prop :=
  Forall (fun c => is_alphanumeric c = true) data /\
  ((q1 = [] /\ q2 = []) \/ exists a b, q1 = [a] /\ q2 = [b] /\ a ∈ QUOTES /\ b ∈ QUOTES).
Definition build_str : parser str := alt2 (delimited (one_of QUOTES) alphanumeric0 (one_of QUOTES)) alphanumeric0.

Lemma build_str_quoted data q1 q2 rest : quoted data q1 q2 ->
  build_str (q1 ++ data ++ q2 ++ 41 :: rest) = Ok (41 :: rest, data).
Proof.
  intros [Hd [[-> ->]|(a & b & -> & -> & Ha & Hb)]]; unfold build_str; cbn [app].
  - assert (span is_alphanumeric (data ++ 41 :: rest) = (data, 41 :: rest)) as Es.
    { apply span_app; [done|]. intros c b' [= <- _]. apply not_alphanumeric. set_solver. }
    edestruct (one_of_err QUOTES (data ++ 41 :: rest)) as [e Ee].
    { intros c i' Ei. destruct data as [|d data]; injection Ei as <- _; [set_solver|].
      apply Forall_cons_1 in Hd as [Hd _]. now apply alphanumeric_plain. }
    eapply alt2_err with (e := e); [rewrite delimited_spec, Ee; reflexivity|]. now rewrite alphanumeric0_ok, Es.
  - apply alt2_ok. rewrite delimited_spec, one_of_ok by done. cbn [mbind result_bind].
    assert (span is_alphanumeric (data ++ b :: 41 :: rest) = (data, b :: 41 :: rest)) as Es.
    { apply span_app; [done|]. intros c b' [= <- _]. apply not_alphanumeric. set_solver. }
    rewrite alphanumeric0_ok, Es. cbn [mbind result_bind fst snd]. now rewrite one_of_ok.
Qed.
Lemma build_str_inv i : exists data q1 q2 rest, build_str i = Ok (rest, data) /\ i = q1 ++ data ++ q2 ++ rest /\ quoted data q1 q2.
Proof.
  destruct (span_spec is_alphanumeric i) as (Ei & Hi & _).
  assert ((exists e, delimited (one_of QUOTES) alphanumeric0 (one_of QUOTES) i = Err e) -> 
    exists data q1 q2 rest, build_str i = Ok (rest, data) /\ i = q1 ++ data ++ q2 ++ rest /\ quoted data q1 q2) as Hplain.
  { intros [e Ee]. exists (span is_alphanumeric i).1, [], [], (span is_alphanumeric i).2. split; [|split; [exact Ei|]].
    - eapply alt2_err; [exact Ee|apply alphanumeric0_ok].
    - split; [done|now left]. }
  destruct i as [|a i]; [|destruct (decide (a ∈ QUOTES)) as [Ha|Ha]].
  - apply Hplain. edestruct (one_of_err QUOTES []) as [e Ee]; [done|]. exists e. now rewrite delimited_spec, Ee.
  - destruct (span_spec is_alphanumeric i) as (Ej & Hj & _). destruct (span is_alphanumeric i) as [data r] eqn:Es. cbn [fst snd] in *.
    assert (delimited (one_of QUOTES) alphanumeric0 (one_of QUOTES) (a :: i) = ('(i, _) ← one_of QUOTES r; Ok (i, data))) as Ed
      by (rewrite delimited_spec, one_of_ok by done; cbn [mbind result_bind]; rewrite alphanumeric0_ok, Es; reflexivity).
    destruct r as [|b r]; [|destruct (decide (b ∈ QUOTES)) as [Hb|Hb]].
    + apply Hplain. edestruct (one_of_err QUOTES []) as [e Ee]; [done|]. exists e. now rewrite Ed, Ee.
    + exists data, [a], [b], r. split; [|split; [cbn; now rewrite Ej|split; [done|right; now exists a, b]]].
      apply alt2_ok. rewrite Ed, one_of_ok by done. reflexivity.
    + apply Hplain. edestruct (one_of_err QUOTES (b :: r)) as [e Ee]; [now intros c i' [= <- _]|]. exists e. now rewrite Ed, Ee.
  - apply Hplain. edestruct (one_of_err QUOTES (a :: i)) as [e Ee]; [now intros c i' [= <- _]|]. exists e. now rewrite delimited_spec, Ee.
Qed.

(** A text of the form [$op junk(data)] *)
Definition command_text (s o junk q1 data q2 : str) : Prop :=
  s = 36 :: (o ++ junk) ++ 40 :: q1 ++ data ++ q2 ++ [41] /\
  o <> [] /\ Forall (fun c => is_alpha c = true) o /\ (forall c j, junk = c :: j -> is_alpha c = false) /\
  40 ∉ junk /\ quoted data q1 q2.

Lemma alpha_not_paren o : Forall (fun c => is_alpha c = true) o -> 40 ∉ o.
Proof. intros Ho Hin. rewrite Forall_forall in Ho. specialize (Ho 40 ltac:(now apply list_elem_of_In)). discriminate. Qed.
Lemma split_at (c : Z) (s : str) : c ∈ s -> exists a b, s = a ++ c :: b /\ c ∉ a.
Proof.
  induction s as [|d s IH]; intros Hc; [now apply not_elem_of_nil in Hc|]. destruct (decide (d = c)) as [->|Hd].
  - exists [], s. split; [done|apply not_elem_of_nil].
  - destruct IH as (a & b & -> & Ha); [set_solver|]. exists (d :: a), b. split; [done|set_solver].
Qed.

Lemma parse_command s o junk q1 data q2 : command_text s o junk q1 data q2 ->
  parse_cmd_str s = Ok {| op := o; cmd_data := data |}.
Proof.
  intros (-> & Hne & Ho & Hj & Hp & Hq). unfold parse_cmd_str, _parse_cmd_str. fold build_str.
  change (36 :: ?x) with ([36] ++ x). rewrite tag_ok. cbn [mbind result_bind].
  assert (span is_alpha (o ++ junk) = (o, junk)) as Es by now apply span_app.
  rewrite map_parser_spec, take_until_ok by (pose proof (alpha_not_paren o Ho); set_solver). cbn [mbind result_bind].
  rewrite alpha1_ok, Es by (now rewrite Es). cbn [mbind result_bind fst snd].
  rewrite delimited_spec, char_ok. cbn [mbind result_bind].
  pose proof (build_str_quoted data q1 q2 [] Hq) as Eb. rewrite Eb. cbn [mbind result_bind]. now rewrite char_ok.
Qed.
Lemma parse_cases s :
  (exists e, parse_cmd_str s = Err e) \/
  (exists o junk q1 data q2, parse_cmd_str s = Ok {| op := o; cmd_data := data |} /\ command_text s o junk q1 data q2).
Proof.
  unfold parse_cmd_str, _parse_cmd_str. fold build_str.
  destruct (decide ([36] `prefix_of` s)) as [[s1 ->]|Hn]; [|destruct (tag_err [36] s Hn) as [e ->]; left; eauto].
  rewrite tag_ok. cbn [mbind result_bind]. rewrite map_parser_spec.
  destruct (decide (40 ∈ s1)) as [Hin|Hn]; [|destruct (take_until_err 40 s1 Hn) as [e ->]; left; eauto].
  destruct (split_at _ _ Hin) as (a & b & -> & Ha). rewrite take_until_ok by done. cbn [mbind result_bind].
  destruct (span_spec is_alpha a) as (Ea & Hal & Hj). destruct (span is_alpha a) as [o junk] eqn:Es. cbn [fst snd] in *.
  destruct (decide (o = [])) as [->|Hne]; [destruct (alpha1_err a) as [e ->]; [now rewrite Es|left; eauto]|].
  rewrite alpha1_ok, Es by (now rewrite Es). cbn [mbind result_bind fst snd]. rewrite delimited_spec, char_ok. cbn [mbind result_bind].
  destruct (build_str_inv b) as (data & q1 & q2 & rest & Eb & -> & Hq). rewrite Eb. cbn [mbind result_bind].
  destruct rest as [|d r]; [|destruct (decide (d = 41)) as [->|Hd]].
  - destruct (char_err 41 []) as [e ->]; [done|left; eauto].
  - rewrite char_ok. cbn [mbind result_bind]. destruct r as [|x r]; [right|left; eauto]. exists o, junk, q1, data, q2.
    split; [done|]. rewrite Ea. do 4 (split; [done|]). split; [|done]. rewrite Ea in Ha. set_solver.
  - destruct (char_err 41 (d :: r)) as [e ->]; [congruence|left; eauto].
Qed.

(** [command_accepted_iff]: a string is read as a command exactly when it is [$],
    a name of letters, and, in parentheses, letters and digits that may stand
    between two quotes, which need not be equal; anything up to the parenthesis that
    follows the letters of the name is dropped. *)
Theorem command_accepted_iff s c :
  parse_cmd_str s = Ok c <-> exists junk q1 q2, command_text s (op c) junk q1 (cmd_data c) q2.
Proof.
  split.
  - intros E. destruct (parse_cases s) as [[e Ee]|(o & junk & q1 & data & q2 & Eo & Hc)]; [congruence|].
    rewrite E in Eo. injection Eo as ->. eauto.
  - intros (junk & q1 & q2 & Hc). rewrite (parse_command _ _ _ _ _ _ Hc). now destruct c.
Qed.

End Commands.

(** ** Commands in JSON values (util.rs) *)

Section Converting.
Context `{NomLaws}.
(** [base64::engine::general_purpose::STANDARD], the text of an error of the hex
    crate, and the file system: [Path::is_file], [File::open], [File::metadata] and
    what [read_to_end] has read when it returns *)
Context (base64 : bytes -> str) (show_hex : Hex.FromHexError -> string).
Context (is_file : str -> bool) (file_open file_metadata : str -> result string unit) (read_to_end : str -> bytes).

(** The error of [read_to_end] is dropped. *)
Definition handle_cmd_string (cmd : Command) : result CommandError bytes :=
  if decide (op cmd = lit "hex") then conv (fun e => FailedToParseNom (show_hex e)) (Hex.hex_decode (cmd_data cmd))
  else if decide (op cmd = lit "file") then
    if negb (is_file (cmd_data cmd)) then Err (FailedToParseNom "path not file")
    else _ ← conv FailedToParseNom (file_open (cmd_data cmd));
         _ ← conv FailedToParseNom (file_metadata (cmd_data cmd));
         Ok (read_to_end (cmd_data cmd))
  else Err FailedToParse.

(** [serde_json::Value]; a number stands for its text. *)
Inductive Value :=
| VNull | VBool (b : bool) | VNumber (n : str) | VString (s : str)
| VArray (l : list Value) | VObject (l : list (str * Value)).

Definition convert_string (s : str) : result anyhow Value :=
  match parse_cmd_str s with
  | Ok cmd =>
      match handle_cmd_string cmd with
      | Ok b => Ok (VObject [(lit "value", VString (base64 b))])
      | Err _ => Ok (VString s)
      | Panic => Panic
      end
  | Err _ => Ok (VString s)
  | Panic => Panic
  end.
Fixpoint convert_command_strings (v : Value) : result anyhow Value :=
  match v with
  | VNull | VBool _ | VNumber _ => Ok v
  | VString s => convert_string s
  | VArray l =>
      VArray <$> (fix each l := match l with
                                | [] => Ok []
                                | v :: l => v ← convert_command_strings v; l ← each l; Ok (v :: l)
                                end) l
  | VObject l =>
      VObject <$> (fix each l := match l with
                                 | [] => Ok []
                                 | (k, v) :: l => v ← convert_command_strings v; l ← each l; Ok ((k, v) :: l)
                                 end) l
  end.

Lemma value_ind' (P : Value -> Prop) :
  P VNull -> (forall b, P (VBool b)) -> (forall n, P (VNumber n)) -> (forall s, P (VString s)) ->
  (forall l, Forall P l -> P (VArray l)) -> (forall l, Forall (fun kv => P kv.2) l -> P (VObject l)) -> forall v, P v.
Proof.
  intros Hn Hb Hu Hs Ha Ho. fix go 1. intros [|b|n|s|l|l]; [apply Hn|apply Hb|apply Hu|apply Hs|apply Ha|apply Ho].
  - induction l as [|v l IH]; constructor; [apply go|exact IH].
  - induction l as [|[k v] l IH]; constructor; [apply go|exact IH].
Qed.

(** Documented: the standard alphabet is [A-Za-z0-9+/=], and the file system answers. *)
Hypothesis base64_plain : forall b, 36 ∉ base64 b.
Hypothesis files_answer : forall f, file_open f <> Panic /\ file_metadata f <> Panic.

Lemma handle_total c : handle_cmd_string c <> Panic.
Proof.
  unfold handle_cmd_string. destruct (decide _); [|destruct (decide _)]; [| |done].
  - pose proof (Hex.hex_decode_no_panic (cmd_data c)) as Ht. now destruct (Hex.hex_decode (cmd_data c)).
  - destruct (negb _); [done|]. destruct (files_answer (cmd_data c)) as [Ho Hm].
    destruct (file_open (cmd_data c)); [|done..]. cbn. destruct (file_metadata (cmd_data c)); done.
Qed.
Lemma no_dollar s : 36 ∉ s -> convert_string s = Ok (VString s).
Proof.
  intros Hs. unfold convert_string. destruct (parse_cases s) as [[e ->]|(o & junk & q1 & data & q2 & _ & -> & _)]; [done|].
  exfalso. apply Hs. set_solver.
Qed.
Lemma convert_string_fixed s : exists v, convert_string s = Ok v /\ convert_command_strings v = Ok v.
Proof.
  unfold convert_string. destruct (parse_cmd_str s) as [c|e|] eqn:Ep.
  - pose proof (handle_total c) as Ht. destruct (handle_cmd_string c) as [b|e|] eqn:Eh; [| |done].
    + eexists. split; [reflexivity|]. cbn. now rewrite no_dollar.
    + eexists. split; [reflexivity|]. cbn. unfold convert_string. now rewrite Ep, Eh.
  - eexists. split; [reflexivity|]. cbn. unfold convert_string. now rewrite Ep.
  - destruct (parse_cases s) as [[e Ee]|(o & junk & q1 & data & q2 & Eo & _)]; congruence.
Qed.

(** [conversion_idempotent]: converting the commands of a JSON value never fails,
    and the value it gives has no command left to convert. *)
Theorem conversion_idempotent v :
  exists v', convert_command_strings v = Ok v' /\ convert_command_strings v' = Ok v'.
Proof.
  induction v as [|b|n|s|l IH|l IH] using value_ind'; try (eexists; split; reflexivity); [apply convert_string_fixed|..];
    cbn [convert_command_strings]; match goal with |- context [VArray <$> ?f l] => set (each := f) | |- context [VObject <$> ?f l] => set (each := f) end.
  - assert (exists l', each l = Ok l' /\ each l' = Ok l') as (l' & E & E').
    { induction IH as [|v l (v' & Ev & Ev') _ (l' & El & El')]; [now exists []|]. exists (v' :: l'). cbn.
      rewrite Ev, Ev'. cbn [mbind result_bind]. fold each. now rewrite El, El'. }
    exists (VArray l'). rewrite E. split; [reflexivity|]. cbn [convert_command_strings]. fold each. now rewrite E'.
  - assert (exists l', each l = Ok l' /\ each l' = Ok l') as (l' & E & E').
    { induction IH as [|[k v] l (v' & Ev & Ev') _ (l' & El & El')]; [now exists []|]. exists ((k, v') :: l'). cbn in *.
      rewrite Ev, Ev'. cbn [mbind result_bind]. fold each. now rewrite El, El'. }
    exists (VObject l'). rewrite E. split; [reflexivity|]. cbn [convert_command_strings]. fold each. now rewrite E'.
Qed.
End Converting.

(** ** Method names (util.rs) *)

Record RpcMethod := { service_name : str; method_name : str }.

Fixpoint trim_start_matches (c : Z) (s : str) : str :=
  match s with d :: s' => if d =? c then trim_start_matches c s' else s | [] => [] end.
(** [splitn(2, c)] *)
Definition splitn2 (c : Z) (s : str) : list str :=
  let '(a, b) := span (fun d => negb (d =? c)) s in
  match b with [] => [a] | _ :: b => [a; b] end.
Definition RpcMethod_parse (method_name : str) : result anyhow RpcMethod :=
  let method_name := trim_start_matches 47 method_name in
  match splitn2 47 method_name with
  | [s; m] => Ok {| service_name := s; method_name := m |}
  | _ => bail "Invalid method name"
  end.
Definition full_name (m : RpcMethod) : str := 47 :: service_name m ++ 47 :: method_name m.
Section Ids.
Variable twox_64_hash : bytes -> Z.
Definition service_id (m : RpcMethod) : Z := twox_64_hash (utf8 (service_name m)).
Definition method_id (m : RpcMethod) : Z := twox_64_hash (utf8 (full_name m)).
End Ids.

Lemma trim_start_spec c s : exists k, s = replicate k c ++ trim_start_matches c s /\
  (forall d r, trim_start_matches c s = d :: r -> d <> c).
Proof.
  induction s as [|d s (k & E & Hk)]; [now exists 0%nat|]. cbn. destruct (d =? c) eqn:Ed.
  - apply Z.eqb_eq in Ed as ->. exists (S k). cbn. now rewrite <- E.
  - exists 0%nat. split; [done|]. intros d' r [= <- <-]. lia.
Qed.
Lemma trim_start_replicate c k s : (forall d r, s = d :: r -> d <> c) -> trim_start_matches c (replicate k c ++ s) = s.
Proof.
  intros Hs. induction k as [|k IH]; cbn; [|now rewrite Z.eqb_refl]. destruct s as [|d s]; [done|]. cbn.
  destruct (Z.eqb_spec d c) as [->|]; [now specialize (Hs c s eq_refl)|done].
Qed.
Lemma splitn2_app c a b : c ∉ a -> splitn2 c (a ++ c :: b) = [a; b].
Proof.
  intros Ha. unfold splitn2. rewrite span_app; [done| |].
  - apply Forall_forall. intros x Hx%list_elem_of_In. destruct (Z.eqb_spec x c) as [->|]; done.
  - intros d b' [= <- <-]. now rewrite Z.eqb_refl.
Qed.

(** [method_accepted_iff]: a method name is accepted exactly when it is, after any
    number of slashes, a service that is not empty and has no slash, a slash, and the
    method, which may be empty; its full name is then read back. *)
Theorem method_accepted_iff s m :
  (RpcMethod_parse s = Ok m <->
    (exists k, s = replicate k 47 ++ service_name m ++ 47 :: method_name m) /\ service_name m <> [] /\ 47 ∉ service_name m) /\
  (RpcMethod_parse s = Ok m -> RpcMethod_parse (full_name m) = Ok m).
Proof.
  assert (forall k a b, a <> [] -> 47 ∉ a ->
    RpcMethod_parse (replicate k 47 ++ a ++ 47 :: b) = Ok {| service_name := a; method_name := b |}) as Hp.
  { intros k a b Hne Ha. unfold RpcMethod_parse. rewrite trim_start_replicate; [now rewrite splitn2_app|].
    intros d r E. destruct a as [|x a]; [done|]. injection E as <- _. set_solver. }
  assert (RpcMethod_parse s = Ok m ->
    (exists k, s = replicate k 47 ++ service_name m ++ 47 :: method_name m) /\ service_name m <> [] /\ 47 ∉ service_name m) as Hi.
  { unfold RpcMethod_parse. destruct (trim_start_spec 47 s) as (k & Es & Hd). set (t := trim_start_matches 47 s) in *.
    unfold splitn2. destruct (span_spec (fun d => negb (d =? 47)) t) as (Et & Ha & Hb).
    destruct (span _ t) as [a [|x b]]; [discriminate|]. cbn [fst snd] in *. intros [= <-]. cbn.
    specialize (Hb x b eq_refl). apply negb_false_iff, Z.eqb_eq in Hb as ->. split; [exists k; now rewrite Es at 1; rewrite Et|].
    split; [intros ->; now apply (Hd 47 b)|]. intros Hin%list_elem_of_In. rewrite Forall_forall in Ha. now specialize (Ha _ Hin). }
  split; [split; [exact Hi|]|].
  - intros ([k ->] & Hne & Ha). rewrite Hp by done. now destruct m.
  - intros (_ & Hne & Ha)%Hi. unfold full_name. change (47 :: ?x) with (replicate 1 47 ++ x). rewrite Hp by done. now destruct m.
Qed.

(** [call_reaches_method]: the identifiers the client computes for a method name
    make the router of an application run the method of that path, unless the path
    of an earlier method of the service has the same hash. *)
Theorem call_reaches_method twox m h before after r payload :
  Forall (fun p : Method => twox (utf8 p.1) <> method_id twox m) before ->
  router_handle twox (register_service twox (service_name m) (before ++ (full_name m, h) :: after) r)
    (service_id twox m) (method_id twox m) payload =
  (r ← h payload; mret (match r with Ok response => response | _ => CallResponse_default end)).
Proof.
  intros Hb. unfold router_handle, register_service, service_id. rewrite lookup_insert_eq.
  change (service_call twox (before ++ (full_name m, h) :: after) (method_id twox m) payload =
    (r ← h payload; mret (match r with Ok response => response | _ => CallResponse_default end))).
  induction Hb as [|[path g] before Hp _ IH]; cbn [app service_call].
  - unfold method_id. now rewrite Z.eqb_refl.
  - apply Z.eqb_neq in Hp. cbn [fst] in Hp. now rewrite Hp.
Qed.

(** ** Accounts (account/src/lib.rs, commands.rs) *)

Record Account := { account_address : Address; account_secret : H256 }.
(** [ChaCha20Rng::from_seed] with [SigningKey::random], and [SigningKey::to_bytes] *)
Class KeyGen `{CryptoPrims} := { random_key : bytes -> SigningKey; key_to_bytes : SigningKey -> bytes }.
Class KeyGenLaws `{KeyGen} : Prop := {
  key_bytes_len k : is_bytes 32 (key_to_bytes k);
  key_from_to_bytes k : signing_key_from_bytes (key_to_bytes k) = Some k
}.

Definition ascii_lower (c : Z) : Z := if in_range 65 90 c then c + 32 else c.
Definition eq_ignore_ascii_case (a b : str) : bool := bool_decide (ascii_lower <$> a = ascii_lower <$> b).

Section Accounts.
Context `{KeyGen}.
Context (show_bech32 : Bech32.Bech32Error -> string) (show_hex : Hex.FromHexError -> string).

Definition create_account_from_uri {E} (network : Network) (uri : str) : result E Account :=
  let secret := random_key (sha256 (utf8 uri)) in
  address ← get_address_from_pub_key (SecretKey_public secret) network;
  Ok {| account_address := address; account_secret := key_to_bytes secret |}.
Definition known_name (s : str) : bool :=
  eq_ignore_ascii_case s (lit "ama") || eq_ignore_ascii_case s (lit "kofi") || eq_ignore_ascii_case s (lit "kwame").
Definition parse_address (s : str) : result string Address :=
  if known_name s then a ← create_account_from_uri Testnet s; Ok (account_address a)
  else conv show_bech32 (Address_from_str s).
Definition parse_signer (s : str) : result string H256 :=
  if known_name s then a ← create_account_from_uri Testnet s; Ok (account_secret a)
  else decode_hex ← conv show_hex (Hex.hex_decode (utf8 s)); fixed_bytes 32 decode_hex.
End Accounts.

(** ** Requests to the server (commands.rs) *)

Inductive ClientError := rpc_status (s : Status) | transport | client_crypto (e : CryptoError) | client_io (e : string).

Section Requests.
Context `{CryptoLaws} `{BincodeLaws} `{ChainCodecs} `{WasmVMInstance} `{!WasmVMLaws} `{ProstLen} `{WasmEngine}.
Context (instant : nat -> Z) (hash_keys : forall A, gmap Address A -> list Address).
Context (load : State -> Address -> result anyhow unit)
        (create : State -> Address -> Address -> Z -> bytes -> result anyhow (bytes * Changelist))
        (pool_error : TxPool.TxPoolError -> anyhow).
Abbreviation Server := (RpcServer instant hash_keys load create pool_error).
Abbreviation clientM := (stM Server ClientError).

(** A request and its answer *)
Definition remote {A} (m : stM Server Status A) : clientM A := fun r =>
  match m r with
  | (Ok a, r) => (Ok a, r)
  | (Err s, r) => (Err (rpc_status s), r)
  | (Panic, r) => (Err transport, r)
  end.

Definition next_nonce (signer : H256) : clientM Z :=
  signer_address ← lift (conv client_crypto (get_address_from_secret_key signer Testnet));
  remote (get_nonce instant hash_keys load create pool_error (Some signer_address)).
(** [ClientCommands::SendPayment]: the size and the hash of the transaction *)
Definition send_payment (to : Address) (amount fee : Z) (signer : H256) : clientM (Z * H256) :=
  nonce ← next_nonce signer;
  signed_tx ← lift (conv client_crypto (make_payment_sign_transaction signer to nonce amount fee Testnet));
  hash ← remote (send_transaction instant hash_keys load create pool_error signed_tx);
  mret (TxList.SignedTransaction_encoded_len signed_tx, hash).
(** [AppCommands::Create], with what reading the file gives *)
Definition create_app (package_name : str) (value tip : Z) (signer : H256) (file : result string bytes) : clientM (H256 * Z * H256) :=
  nonce ← next_nonce signer;
  binary ← lift (conv client_io file);
  signed_tx ← lift (conv client_crypto (make_signed_transaction signer nonce value tip Testnet (Create package_name binary)));
  hash ← remote (send_transaction instant hash_keys load create pool_error signed_tx);
  mret (keccak256 binary, TxList.SignedTransaction_encoded_len signed_tx, hash).

(** What a server gains by a transaction that was sent to it *)
Definition announced (r r' : Server) (st : SignedTransaction) : Prop :=
  exists l, rs_sender _ _ _ _ _ r = Some l /\ rs_sender _ _ _ _ _ r' = Some (l ++ [BroadcastTx [st]]).

Lemma remote_ok {A} (m : stM Server Status A) r a r' : remote m r = (Ok a, r') -> m r = (Ok a, r').
Proof. unfold remote. destruct (m r) as [[x|s|] r1]; intros [= <- <-]; done. Qed.
Lemma lift_conv_ok {E A} (f : E -> ClientError) (x : result E A) (r r' : Server) a :
  lift (conv f x) r = (Ok a, r') -> x = Ok a /\ r' = r.
Proof. unfold lift. intros [= Ex <-]. destruct x; cbn in Ex; [|discriminate..]. now injection Ex as ->. Qed.
Lemma get_nonce_ok a n r r' : get_nonce instant hash_keys load create pool_error (Some a) r = (Ok n, r') ->
  (TxPool.pool_nonce a (node_pool (rs_node _ _ _ _ _ r))).1 = Ok n /\ rs_sender _ _ _ _ _ r' = rs_sender _ _ _ _ _ r.
Proof.
  unfold get_nonce, mbind, stM_bind, gets, lift, ok_or. destruct (rs_poisoned _ _ _ _ _ r) eqn:Ep; [discriminate|].
  unfold with_read. rewrite Ep. unfold map_err.
  destruct (TxPool.pool_nonce a (node_pool (rs_node _ _ _ _ _ r))) as [[m|e|] p]; intros [= <- <-]. done.
Qed.
Lemma next_nonce_ok signer r n r' : next_nonce signer r = (Ok n, r') ->
  exists a, get_address_from_secret_key signer Testnet = Ok a /\
    (TxPool.pool_nonce a (node_pool (rs_node _ _ _ _ _ r))).1 = Ok n /\ rs_sender _ _ _ _ _ r' = rs_sender _ _ _ _ _ r.
Proof.
  unfold next_nonce. intros (a & r1 & E1 & E2)%bind_st_inv. apply lift_conv_ok in E1 as [Ea ->].
  apply remote_ok, get_nonce_ok in E2. eauto.
Qed.
Lemma send_ok st r h r' : send_transaction instant hash_keys load create pool_error st r = (Ok h, r') ->
  h = tx_hash st /\ announced r r' st.
Proof.
  unfold send_transaction. intros ([] & r1 & E1 & E2)%bind_st_inv. apply bind_st_inv in E2 as ([] & r2 & E2 & [= <- <-]).
  apply add_local_outcome in E1 as [Hs _]. unfold send_local in E2. rewrite Hs in E2. unfold announced.
  destruct (rs_sender _ _ _ _ _ r) as [l|]; [|discriminate]. injection E2 as <-. eauto.
Qed.

(** C37 [payment_sent]: a payment that succeeds has sent one transaction, which is
    announced to the peers: it pays the amount and the fee of the command to the
    given address, from the address of the signer, with the nonce the pool had for
    it; the answer is its hash. *)
Theorem payment_sent to amount fee_ signer r size h r' :
  send_payment to amount fee_ signer r = (Ok (size, h), r') ->
  exists st n, announced r r' st /\ h = tx_hash st /\ size = TxList.SignedTransaction_encoded_len st /\
    get_address_from_secret_key signer Testnet = Ok (sender st) /\
    (TxPool.pool_nonce (sender st) (node_pool (rs_node _ _ _ _ _ r))).1 = Ok n /\
    tx st = {| nonce := n; tx_chain_id := chain_id Testnet; genesis_hash := H256_zero; fee := fee_; value := amount;
               data := Some (Payment to) |}.
Proof.
  unfold send_payment. intros (n & r1 & E1 & E)%bind_st_inv. apply next_nonce_ok in E1 as (a & Ea & En & Hs).
  apply bind_st_inv in E as (st & r2 & E2 & E). apply lift_conv_ok in E2 as [E2 ->].
  apply bind_st_inv in E as (h' & r3 & E3 & [= <- <- <-]). apply remote_ok, send_ok in E3 as [-> Hann].
  destruct (sign_tx_sender _ _ _ E2) as [Ht Hsnd]. cbn [tx_chain_id from_chain_id chain_id] in Hsnd.
  rewrite Ea in Hsnd. injection Hsnd as ->. exists st, n. unfold announced in *. rewrite Hs in Hann. eauto 10.
Qed.

(** [app_created]: the same of a command that creates an application. *)
Theorem app_created name v tip signer file r code size h r' :
  create_app name v tip signer file r = (Ok (code, size, h), r') ->
  exists st n binary, file = Ok binary /\ code = keccak256 binary /\ announced r r' st /\ h = tx_hash st /\
    get_address_from_secret_key signer Testnet = Ok (sender st) /\
    (TxPool.pool_nonce (sender st) (node_pool (rs_node _ _ _ _ _ r))).1 = Ok n /\
    tx st = {| nonce := n; tx_chain_id := chain_id Testnet; genesis_hash := H256_zero; fee := tip; value := v;
               data := Some (Create name binary) |}.
Proof.
  unfold create_app. intros (n & r1 & E1 & E)%bind_st_inv. apply next_nonce_ok in E1 as (a & Ea & En & Hs).
  apply bind_st_inv in E as (binary & r2 & E0 & E). apply lift_conv_ok in E0 as [-> ->].
  apply bind_st_inv in E as (st & r2 & E2 & E). apply lift_conv_ok in E2 as [E2 ->].
  apply bind_st_inv in E as (h' & r3 & E3 & [= <- <- <- <-]). apply remote_ok, send_ok in E3 as [-> Hann].
  destruct (sign_tx_sender _ _ _ E2) as [Ht Hsnd]. cbn [tx_chain_id from_chain_id chain_id] in Hsnd.
  rewrite Ea in Hsnd. injection Hsnd as ->. exists st, n, binary. unfold announced in *. rewrite Hs in Hann. eauto 10.
Qed.

(** [named_account]: the names the client knows stand for one account: the
    transactions signed by a name come from the address the same name is. *)
Theorem named_account `{!KeyGen} `{!KeyGenLaws} show_bech32 show_hex s a sk :
  known_name s = true -> parse_address show_bech32 s = Ok a -> parse_signer show_hex s = Ok sk ->
  get_address_from_secret_key sk Testnet = Ok a.
Proof.
  intros Hk. unfold parse_address, parse_signer. rewrite Hk. unfold create_account_from_uri.
  destruct (get_address_from_pub_key _ _) as [a'|e|] eqn:Ea; cbn; [|discriminate..]. intros [= <-] [= <-].
  unfold get_address_from_secret_key, SecretKey_from_bytes. rewrite key_from_to_bytes. cbn [ok_or mbind result_bind].
  revert Ea. unfold get_address_from_pub_key, address_of_key, fixed_bytes.
  destruct (Bech32.encode _ _ _); [|discriminate..]. case_decide; [congruence|discriminate].
Qed.
End Requests.

(** ** Commands evaluated *)

Definition example_nom : Nom := {|
  nom_tag t i := if decide (t `prefix_of` i) then Ok (drop (length t) i, t) else Err "Tag"%string;
  take_until t i :=
    match t, span (fun d => negb (d =? hd 0 t)) i with
    | [_], (a, (_ :: _) as b) => Ok (b, a)
    | _, _ => Err "TakeUntil"%string
    end;
  alpha1 i := match span is_alpha i with ([], _) => Err "Alpha"%string | (a, b) => Ok (b, a) end;
  alphanumeric0 i := let '(a, b) := span is_alphanumeric i in Ok (b, a);
  one_of l i := match i with c :: i => if decide (c ∈ l) then Ok (i, c) else Err "OneOf"%string | [] => Err "OneOf"%string end;
  nom_char c i := match i with d :: i => if d =? c then Ok (i, c) else Err "Char"%string | [] => Err "Char"%string end;
  map_parser p q i := '(i1, o1) ← p i; '(_, o2) ← q o1; Ok (i1, o2);
  delimited _ _ _ p q r i := '(i, _) ← p i; '(i, o) ← q i; '(i, _) ← r i; Ok (i, o);
  alt2 _ p q i := match p i with Err _ => q i | r => r end |}.

Lemma span_not c i : c ∉ i -> span (fun d => negb (d =? c)) i = (i, []).
Proof.
  intros Hc. rewrite <- (app_nil_r i) at 1. apply span_app; [|done]. apply Forall_forall. intros x Hx%list_elem_of_In.
  destruct (Z.eqb_spec x c) as [->|]; done.
Qed.
Lemma example_nom_laws : NomLaws (N:=example_nom).
Proof.
  split; cbn.
  - intros t i. rewrite decide_True by (now exists i). f_equal. now rewrite drop_app_length.
  - intros t i Ht. rewrite decide_False by done. eauto.
  - intros c a b Ha. rewrite span_app; [done| |].
    + apply Forall_forall. intros x Hx%list_elem_of_In. destruct (Z.eqb_spec x c) as [->|]; done.
    + intros d b' [= <- <-]. now rewrite Z.eqb_refl.
  - intros c i Hc. rewrite span_not by done. eauto.
  - intros i. destruct (span is_alpha i) as [[|x a] b]; done.
  - intros i. destruct (span is_alpha i) as [[|x a] b]; [eauto|done].
  - intros i. now destruct (span is_alphanumeric i).
  - intros l c i Hc. now rewrite decide_True.
  - intros l [|c i] Hl; [eauto|]. rewrite decide_False by (now apply (Hl c i)). eauto.
  - intros c i. now rewrite Z.eqb_refl.
  - intros c [|d i] Hc; [eauto|]. destruct (Z.eqb_spec d c) as [->|]; [now specialize (Hc i)|eauto].
  - done.
  - done.
  - intros A p q i x ->. done.
  - intros A p q i e x -> ->. done.
Qed.
#[local] Existing Instances example_nom example_nom_laws.

Definition hex_command : Command := {| op := lit "hex"; cmd_data := lit "00ff" |}.
(** [$hex!(00ff)] *)
Lemma command_accepted_iff_witness :
  parse_cmd_str (lit "$hex!(00ff)") = Ok hex_command <->
  exists junk q1 q2, command_text (lit "$hex!(00ff)") (lit "hex") junk q1 (lit "00ff") q2.
Proof. exact (command_accepted_iff (lit "$hex!(00ff)") hex_command). Defined.
Example hex_command_read : parse_cmd_str (lit "$hex!(00ff)") = Ok hex_command /\ parse_cmd_str (lit "$hex('00ff')") = Ok hex_command.
Proof. split; vm_compute; reflexivity. Qed.

Definition plain_base64 (b : bytes) : str := (fun _ => 65) <$> b.
Definition no_file (f : str) : result string unit := Err "no file"%string.
Lemma plain_base64_ok b : 36 ∉ plain_base64 b.
Proof. unfold plain_base64. intros (x & Hx & _)%list_elem_of_fmap. discriminate. Qed.
Lemma no_file_ok f : no_file f <> Panic /\ no_file f <> Panic.
Proof. split; discriminate. Qed.
Definition example_value : Value := VObject [(lit "a", VArray [VString (lit "$hex(00ff)"); VNull])].
Abbreviation convert := (convert_command_strings plain_base64 (fun _ => "hex"%string) (fun _ => false) no_file no_file (fun _ => [])).
Lemma conversion_idempotent_witness : exists v', convert example_value = Ok v' /\ convert v' = Ok v'.
Proof.
  exact (conversion_idempotent plain_base64 (fun _ => "hex"%string) (fun _ => false) no_file no_file (fun _ => [])
    plain_base64_ok no_file_ok example_value).
Defined.

(** The test of [RpcMethod] expects an error here. *)
Example empty_method_accepted :
  RpcMethod_parse (lit "/myapp.myservice/") = Ok {| service_name := lit "myapp.myservice"; method_name := [] |}.
Proof. reflexivity. Qed.
Definition example_method : RpcMethod := {| service_name := lit "service.Registry"; method_name := lit "GetOwner" |}.
Definition byte_sum (b : bytes) : Z := foldr Z.add 0 b.
Lemma call_reaches_method_witness :
  router_handle byte_sum (register_service byte_sum (lit "service.Registry")
      [(lit "/service.Registry/Register", fun _ => mret (Ok CallResponse_default));
       (full_name example_method, fun b => mret (Ok {| type_descriptor := []; response_data := b |}))] ∅)
    (service_id byte_sum example_method) (method_id byte_sum example_method) [7] =
  mret {| type_descriptor := []; response_data := [7] |}.
Proof.
  assert (byte_sum (utf8 (lit "/service.Registry/Register")) <> method_id byte_sum example_method) as Hne.
  { vm_compute. congruence. }
  refine (eq_trans (call_reaches_method byte_sum example_method (fun b => mret (Ok {| type_descriptor := []; response_data := b |}))
    [(lit "/service.Registry/Register", fun _ => mret (Ok CallResponse_default))] [] ∅ [7] _) _); [|reflexivity].
  repeat constructor. exact Hne.
Defined.

#[local] Existing Instances easy_crypto easy_crypto_laws no_machine no_machine_laws node_len no_engine.
Abbreviation demo_payment := (send_payment no_instant node_keys no_load no_create pool_text).
Abbreviation demo_creation := (create_app no_instant node_keys no_load no_create pool_text).
Definition paid : Z * H256 := ok_default (0, []) (demo_payment (demo_dst 1) 0 0 (to_be 32 5) rpc0).1.
Lemma paid_ok : demo_payment (demo_dst 1) 0 0 (to_be 32 5) rpc0 = (Ok (paid.1, paid.2), (demo_payment (demo_dst 1) 0 0 (to_be 32 5) rpc0).2).
Proof.
  assert ((demo_payment (demo_dst 1) 0 0 (to_be 32 5) rpc0).1 = Ok (paid.1, paid.2)) as Hok by (vm_compute; reflexivity).
  exact (run_value _ _ _ Hok).
Qed.
Lemma payment_sent_witness : exists st n,
  announced no_instant node_keys no_load no_create pool_text rpc0 (demo_payment (demo_dst 1) 0 0 (to_be 32 5) rpc0).2 st /\
  paid.2 = tx_hash st /\ paid.1 = TxList.SignedTransaction_encoded_len st /\
  get_address_from_secret_key (to_be 32 5) Testnet = Ok (sender st) /\
  (TxPool.pool_nonce (sender st) demo_txpool).1 = Ok n /\
  tx st = {| nonce := n; tx_chain_id := chain_id Testnet; genesis_hash := H256_zero; fee := 0; value := 0;
             data := Some (Payment (demo_dst 1)) |}.
Proof. exact (payment_sent _ _ _ _ _ _ _ _ _ rpc0 _ _ _ paid_ok). Defined.

Definition example_app : str := lit "org.app".
Definition created : H256 * Z * H256 := ok_default ([], 0, []) (demo_creation example_app 0 0 (to_be 32 5) (Ok [1]) rpc0).1.
Lemma created_ok : demo_creation example_app 0 0 (to_be 32 5) (Ok [1]) rpc0 =
  (Ok (created.1.1, created.1.2, created.2), (demo_creation example_app 0 0 (to_be 32 5) (Ok [1]) rpc0).2).
Proof.
  assert ((demo_creation example_app 0 0 (to_be 32 5) (Ok [1]) rpc0).1 = Ok (created.1.1, created.1.2, created.2)) as Hok
    by (vm_compute; reflexivity).
  exact (run_value _ _ _ Hok).
Qed.
Lemma app_created_witness : exists st n binary,
  Ok (E:=string) [1] = Ok binary /\ created.1.1 = keccak256 binary /\
  announced no_instant node_keys no_load no_create pool_text rpc0 (demo_creation example_app 0 0 (to_be 32 5) (Ok [1]) rpc0).2 st /\
  created.2 = tx_hash st /\ get_address_from_secret_key (to_be 32 5) Testnet = Ok (sender st) /\
  (TxPool.pool_nonce (sender st) demo_txpool).1 = Ok n /\
  tx st = {| nonce := n; tx_chain_id := chain_id Testnet; genesis_hash := H256_zero; fee := 0; value := 0;
             data := Some (Create example_app binary) |}.
Proof. exact (app_created _ _ _ _ _ _ _ _ _ _ rpc0 _ _ _ _ created_ok). Defined.

#[local] Instance example_keys : KeyGen := {|
  random_key seed := Byte.x05; key_to_bytes k := to_be 32 (key_Z k) |}.
#[local] Instance example_keys_laws : KeyGenLaws.
Proof.
  split; intros k; [apply is_bytes_to_be|]. destruct k; vm_compute; reflexivity.
Qed.
Lemma named_account_witness :
  exists a sk, parse_address (fun _ => "address"%string) (lit "Ama") = Ok a /\ parse_signer (fun _ => "hex"%string) (lit "Ama") = Ok sk /\
    get_address_from_secret_key sk Testnet = Ok a.
Proof.
  do 2 eexists. split; [vm_compute; reflexivity|]. split; [vm_compute; reflexivity|].
  apply (named_account (fun _ => "address"%string) (fun _ => "hex"%string) (lit "Ama")); vm_compute; reflexivity.
Defined.
