(* ===== verification/Network.v ===== *)
(** * The network task

    Source: src/p2p/src/lib.rs.

    The task that owns the libp2p swarm takes, one at a time, messages of the node
    and events of the swarm.  It keeps the peers of Peers.v, answers requests with
    Requests.v and forwards the messages of peers to the node (NodeLoop.v).  An error
    of a handler is logged; a panic ends the thread, and with it the network.  The
    swarm and its protocols are third-party code: a state with operations
    ([SwarmOps]), about which nothing is assumed.  The configuration of the swarm and
    the keys of identity.rs are not modelled. *)
From S2P Require Import Prelude Crypto Types Consensus Codec Storage TreeDb State Chain Peers Requests.

Class SwarmOps (PeerId Multiaddr Channel Swarm : Type) := {
  is_connected : Swarm -> PeerId -> bool;
  swarm_dial : Multiaddr -> stM Swarm anyhow unit;
  disconnect_peer_id : PeerId -> stM Swarm unit unit;
  mdns_has_node : Swarm -> PeerId -> bool;
  kad_get_closest_peers : PeerId -> Swarm -> Swarm;
  kad_remove_peer : PeerId -> Swarm -> Swarm;
  remove_explicit_peer : PeerId -> Swarm -> Swarm;
  (** [Sha256Topic::hash] *)
  topic_hash : bytes -> bytes;
  gossipsub_publish : bytes -> bytes -> stM Swarm anyhow unit;
  send_request : PeerId -> Msg -> Swarm -> Swarm;
  send_response : Channel -> Msg -> stM Swarm anyhow unit;
  (** [PeerId::from_str] *)
  peer_from_str : str -> result anyhow PeerId
}.

Section Network.
Context {PeerId : Type} `{Countable PeerId} {Multiaddr Channel Swarm : Type} `{!SwarmOps PeerId Multiaddr Channel Swarm}.
Context `{ChainCodecs} `{CryptoPrims} (peer_to_string : PeerId -> str).
Context (get_blocks : MemStore -> H256 -> Z -> result anyhow (list (result anyhow Block))).
(** [PeerMessage], a message with one optional field *)
Context (prost_PeerMessage : Codec (option Msg)).

Abbreviation NetState := (NetworkState (PeerId:=PeerId) (Multiaddr:=Multiaddr)).

(** [ChainNetworkBehavior]; the sender is [None] when the node has gone. *)
Record Network := { swarm : Swarm; p2p_to_node : option (list Msg); topic : bytes; net_state : NetState }.
Definition set_swarm (x : Swarm) (n : Network) : Network :=
  {| swarm := x; p2p_to_node := p2p_to_node n; topic := topic n; net_state := net_state n |}.
Definition set_to_node (x : option (list Msg)) (n : Network) : Network :=
  {| swarm := swarm n; p2p_to_node := x; topic := topic n; net_state := net_state n |}.
Definition set_net_state (x : NetState) (n : Network) : Network :=
  {| swarm := swarm n; p2p_to_node := p2p_to_node n; topic := topic n; net_state := x |}.
Abbreviation netM := (stM Network anyhow).
Definition on_swarm {E A} (m : stM Swarm E A) : stM Network E A := zoom swarm set_swarm m.
Definition on_peers {A} (m : stM NetState anyhow A) : netM A := zoom net_state set_net_state m.
Definition send_to_node (m : Msg) : netM unit := fun n =>
  match p2p_to_node n with
  | Some l => (Ok tt, set_to_node (Some (l ++ [m])) n)
  | None => (Err "channel closed"%string, n)
  end.

(** [SwarmEvent] with the events of the four behaviours; those not named are ignored. *)
Inductive SwarmEvent :=
| NewListenAddr (address : Multiaddr)
| GossipMessage (propagation_source : PeerId) (message : bytes)
| GossipUnsubscribed (peer_id : PeerId) (hash : bytes)
| MdnsDiscovered (list : list (PeerId * Multiaddr))
| MdnsExpired (list : list (PeerId * Multiaddr))
| KadClosestPeers (peers : list PeerId)
| KadRoutingUpdated (peer : PeerId) (is_new_peer : bool) (addresses : list Multiaddr)
| PeerRequest (peer : PeerId) (request : Msg) (channel : Channel)
| PeerResponse (peer : PeerId) (response : Msg)
| OutboundFailure
| ConnectionEstablished (peer_id : PeerId) (address : Multiaddr)
| ConnectionClosed (peer_id : PeerId) (address : Multiaddr) (cause : option anyhow)
| OtherEvent.

(** ** Messages of the node *)

Definition handle_send_message_to_peer (peer_id : str) (message : Msg) : netM unit :=
  peer ← lift (match peer_from_str peer_id with Ok p => Ok p | _ => Panic end);
  modify (fun n => set_swarm (send_request peer message (swarm n)) n).
(** Errors of the encoding and of [publish] are logged. *)
Definition handle_publish_message (msg : Msg) : netM unit := fun n =>
  match encode prost_PeerMessage (Some msg) with
  | Ok encoded_msg => ignore (on_swarm (gossipsub_publish (topic n) encoded_msg)) n
  | Err _ => (Ok tt, n)
  | Panic => (Panic, n)
  end.

(** ** Events of the swarm *)

(** [swarm.dial(addr).unwrap()] *)
Definition dial_unwrap (addr : Multiaddr) : netM unit := fun n =>
  match on_swarm (swarm_dial addr) n with (Ok _, n) => (Ok tt, n) | (_, n) => (Panic, n) end.
(** [swarm.disconnect_peer_id(peer).is_err()], logged *)
Definition try_disconnect (peer : PeerId) : netM unit := fun n =>
  let '(_, n) := on_swarm (disconnect_peer_id peer) n in (Ok tt, n).
Fixpoint dial_all (l : list (PeerId * Multiaddr)) : netM unit :=
  match l with
  | [] => mret tt
  | (peer, addr) :: l =>
      n ← gets (fun n => n);
      _ ← (if negb (is_connected (swarm n) peer) then dial_unwrap addr else mret tt);
      dial_all l
  end.
Fixpoint expire_all (l : list (PeerId * Multiaddr)) : netM unit :=
  match l with
  | [] => mret tt
  | (peer, _) :: l =>
      n ← gets (fun n => n);
      _ ← (if negb (mdns_has_node (swarm n) peer) then try_disconnect peer else mret tt);
      expire_all l
  end.
Fixpoint dial_addresses (l : list Multiaddr) : netM unit :=
  match l with
  | [] => mret tt
  | address :: l => _ ← on_swarm (swarm_dial address); dial_addresses l
  end.

(** [s] is the storage at the time of the event. *)
Definition handle_swam_event (s : MemStore) (event : SwarmEvent) : netM unit :=
  match event with
  | GossipMessage propagation_source message =>
      decoded ← lift (decode prost_PeerMessage message);
      match decoded with
      | Some peer_message =>
          _ ← (match peer_message with
               | CurrentHead block_header =>
                   h ← lift (ok_or_else block_header "invalid message");
                   on_peers (update_peer_current_head peer_to_string propagation_source h)
               | _ => mret tt
               end);
          send_to_node peer_message
      | None => mret tt
      end
  | GossipUnsubscribed peer_id hash =>
      n ← gets (fun n => n);
      if bool_decide (hash = topic_hash (topic n)) then try_disconnect peer_id else mret tt
  | MdnsDiscovered list => dial_all list
  | MdnsExpired list => expire_all list
  | KadRoutingUpdated peer is_new_peer addresses =>
      if is_new_peer then
        _ ← modify (fun n => set_swarm (kad_get_closest_peers peer (swarm n)) n);
        dial_addresses addresses
      else mret tt
  | PeerRequest peer request channel =>
      n ← gets (fun n => n);
      match handle_request get_blocks (net_state n) s peer request with
      | Ok (Some response) => on_swarm (send_response channel response)
      | Panic => lift Panic
      | _ => mret tt
      end
  | PeerResponse _ response => send_to_node response
  | ConnectionEstablished peer_id address =>
      modify (fun n => set_net_state (set_peer_address peer_id address (net_state n)) n)
  | ConnectionClosed peer_id _ (Some _) =>
      _ ← modify (fun n => set_swarm (remove_explicit_peer peer_id (swarm n)) n);
      _ ← modify (fun n => set_swarm (kad_remove_peer peer_id (swarm n)) n);
      ignore (on_peers (remove_peer peer_to_string peer_id))
  | NewListenAddr _ | KadClosestPeers _ | OutboundFailure | ConnectionClosed _ _ None | OtherEvent => mret tt
  end.

(** ** The loop *)

(** One turn of [tokio::select!]; [node_to_p2p.recv()] gives [None] when the node has
    gone, and the loop turns again. *)
Inductive Select :=
| FromNode (msg : option (option str * Msg))
| FromSwarm (s : MemStore) (event : SwarmEvent).
Definition select_turn (x : Select) : netM unit :=
  match x with
  | FromNode (Some (Some peer_id, message)) => handle_send_message_to_peer peer_id message
  | FromNode (Some (None, message)) => handle_publish_message message
  | FromNode None => mret tt
  | FromSwarm s event => handle_swam_event s event
  end.
(** The network after the turn, none when the thread has ended *)
Definition net_turn (x : Select) (n : Network) : option Network :=
  match select_turn x n with (Panic, _) => None | (_, n) => Some n end.
Fixpoint net_run (l : list Select) (n : Network) : option Network :=
  match l with [] => Some n | x :: l => n' ← net_turn x n; net_run l n' end.

(** ** Requests on a stream *)

Inductive IoError := UnexpectedEof | Unsupported | InvalidData.
Definition MAX_MESSAGE : Z := 1000000.
(** [read_length_prefixed] and [write_length_prefixed] of libp2p *)
Class LengthPrefixed := {
  read_length_prefixed : bytes -> Z -> result IoError bytes;
  write_length_prefixed : bytes -> bytes
}.
Context `{LengthPrefixed}.
(** [read_request] and [read_response], which are the same *)
Definition read_message (io : bytes) : result IoError Msg :=
  data ← read_length_prefixed io MAX_MESSAGE;
  match data with
  | [] => Err UnexpectedEof
  | _ =>
      match decode prost_PeerMessage data with
      | Ok (Some msg) => Ok msg
      | Ok None | Err _ => Err Unsupported
      | Panic => Panic
      end
  end.
Definition write_message (m : Msg) : result IoError bytes :=
  match encode prost_PeerMessage (Some m) with
  | Ok encoded => Ok (write_length_prefixed encoded)
  | Err _ => Err UnexpectedEof
  | Panic => Panic
  end.

(** ** What reaches the node *)

Definition forwarded (x : Select) : list Msg :=
  match x with
  | FromSwarm _ (GossipMessage _ data) =>
      match decode prost_PeerMessage data with
      | Ok (Some (CurrentHead None)) => []
      | Ok (Some m) => [m]
      | _ => []
      end
  | FromSwarm _ (PeerResponse _ m) => [m]
  | _ => []
  end.

(** The parts of the network a step of the swarm leaves as they are *)
Definition same_net (n n' : Network) : Prop := p2p_to_node n' = p2p_to_node n /\ net_state n' = net_state n.
#[local] Instance same_net_preorder : PreOrder same_net.
Proof. split; [done|]. intros n1 n2 n3 [A1 A2] [B1 B2]. split; congruence. Qed.
Lemma on_swarm_same {E A} (m : stM Swarm E A) n : same_net n (on_swarm m n).2.
Proof. unfold on_swarm, zoom. now destruct (m (swarm n)). Qed.
Definition quiet {A} (m : netM A) : Prop := forall n, same_net n (m n).2.
Lemma quiet_bind {A B} (m : netM A) (f : A -> netM B) : quiet m -> (forall a, quiet (f a)) -> quiet (m ≫= f).
Proof.
  intros Hm Hf n. unfold mbind, stM_bind. specialize (Hm n). destruct (m n) as [[a|e|] n1]; cbn in *; [|done..].
  etransitivity; [exact Hm|apply Hf].
Qed.
Lemma quiet_ignore {A} (m : netM A) : quiet m -> quiet (ignore m).
Proof. intros Hm n. unfold ignore. specialize (Hm n). now destruct (m n) as [[a|e|] n1]. Qed.
Lemma dial_unwrap_quiet addr : quiet (dial_unwrap addr).
Proof.
  intros n. unfold dial_unwrap. pose proof (on_swarm_same (swarm_dial addr) n) as Hs.
  now destruct (on_swarm (swarm_dial addr) n) as [[] ?].
Qed.
Lemma try_disconnect_quiet p : quiet (try_disconnect p).
Proof.
  intros n. unfold try_disconnect. pose proof (on_swarm_same (disconnect_peer_id p) n) as Hs.
  now destruct (on_swarm (disconnect_peer_id p) n).
Qed.
Lemma set_swarm_quiet (f : Swarm -> Swarm) : quiet (modify (fun n => set_swarm (f (swarm n)) n)).
Proof. now intros n. Qed.
Lemma ret_quiet {A} (a : A) : quiet (mret a).
Proof. now intros n. Qed.
Lemma gets_quiet : quiet (gets (fun n => n)).
Proof. now intros n. Qed.
Lemma lift_quiet {A} (r : result anyhow A) : quiet (lift r).
Proof. now intros n. Qed.
Lemma on_swarm_quiet {A} (m : stM Swarm anyhow A) : quiet (on_swarm m).
Proof. intros n. apply on_swarm_same. Qed.
Lemma publish_quiet m : quiet (handle_publish_message m).
Proof.
  intros n. unfold handle_publish_message. destruct (encode _ _); [|done..]. apply quiet_ignore, on_swarm_quiet.
Qed.
Create HintDb net.
#[local] Hint Resolve quiet_ignore dial_unwrap_quiet try_disconnect_quiet set_swarm_quiet ret_quiet gets_quiet
  lift_quiet on_swarm_quiet publish_quiet : net.
#[local] Hint Extern 5 (quiet (_ ≫= _)) => apply quiet_bind; [|intros ?] : net.
#[local] Hint Extern 6 (quiet (if _ then _ else _)) => case_match : net.
#[local] Hint Extern 6 (quiet (match _ with _ => _ end)) => case_match : net.
Lemma dial_all_quiet l : quiet (dial_all l).
Proof. induction l as [|[p a] l IH]; cbn [dial_all]; auto 8 with net. Qed.
Lemma expire_all_quiet l : quiet (expire_all l).
Proof. induction l as [|[p a] l IH]; cbn [expire_all]; auto 8 with net. Qed.
Lemma dial_addresses_quiet l : quiet (dial_addresses l).
Proof. induction l as [|a l IH]; cbn [dial_addresses]; auto 8 with net. Qed.
#[local] Hint Resolve dial_all_quiet expire_all_quiet dial_addresses_quiet : net.

(** The peer manager is in a state of Peers.v, and the node listens to it. *)
Definition net_ok (n : Network) : Prop := peers_reachable peer_to_string (net_state n) /\ ns_sender (net_state n) <> None.
Lemma send_open e (n : NetState) : ns_sender n <> None -> ns_sender (Peers.send_local e n).2 <> None.
Proof. unfold Peers.send_local. now destruct (ns_sender n). Qed.
Lemma update_ok p h (n : NetState) : peers_reachable peer_to_string n -> ns_sender n <> None ->
  (update_peer_current_head peer_to_string p h n).1 = Ok tt /\
  ns_sender (update_peer_current_head peer_to_string p h n).2 <> None.
Proof.
  intros Hr Hs. pose proof (peers_reachable_recorded _ n Hr) as Hn. destruct (ns_sender n) as [l|] eqn:El; [|easy].
  cbv [update_peer_current_head handle_new_peer_connected mbind stM_bind gets modify lift mret stM_ret ok_or_else ok_or].
  destruct (highest_know_head n) as [q|] eqn:Hq.
  - destruct (Hn q Hq) as [hq ->].
    destruct (negb _); [destruct (_ <? _)|]; unfold Peers.send_local; cbn [ns_sender set_peer_state set_highest]; by rewrite El.
  - destruct (peer_state n !! p); unfold Peers.send_local; cbn [ns_sender set_peer_state set_highest]; by rewrite El.
Qed.
Lemma remove_open p (n : NetState) : ns_sender n <> None -> ns_sender (remove_peer peer_to_string p n).2 <> None.
Proof.
  intros Hs. cbv [remove_peer mbind stM_bind gets modify]. apply send_open. cbn. now case_match.
Qed.

Lemma quiet_turn (m : netM unit) n r n' l : quiet m -> net_ok n -> p2p_to_node n = Some l -> m n = (r, n') ->
  p2p_to_node n' = Some (l ++ []) /\ net_ok n'.
Proof.
  intros Hm Hn Hl E. destruct (Hm n) as [H1' H2']. rewrite E in *. cbn in *. rewrite app_nil_r. split; [congruence|].
  unfold net_ok in *. now rewrite H2'.
Qed.
Lemma send_turn m n r n' l : net_ok n -> p2p_to_node n = Some l -> send_to_node m n = (r, n') ->
  p2p_to_node n' = Some (l ++ [m]) /\ net_ok n'.
Proof. intros Hn Hl. unfold send_to_node. rewrite Hl. intros [= <- <-]. done. Qed.

(** A gossip message *)
Lemma gossip_turn s p data n r n' l : net_ok n -> p2p_to_node n = Some l ->
  handle_swam_event s (GossipMessage p data) n = (r, n') ->
  p2p_to_node n' = Some (l ++ forwarded (FromSwarm s (GossipMessage p data))) /\ net_ok n'.
Proof.
  intros Hn Hl. cbn [handle_swam_event forwarded]. unfold mbind at 1, stM_bind at 1, lift at 1.
  destruct (decode prost_PeerMessage data) as [[m|]|e|]; try (intros [= <- <-]; rewrite app_nil_r; done).
  assert (forall m', ((mret tt : netM unit) ≫= (fun _ => send_to_node m')) n = (r, n') ->
    p2p_to_node n' = Some (l ++ [m']) /\ net_ok n') as Hplain by (intros m' E; now apply (send_turn m' n r)).
  destruct m as [| [h|] | | | | | | |]; try apply Hplain; [|intros [= <- <-]; rewrite app_nil_r; done].
  destruct Hn as [Hr Hs]. destruct (update_ok p h _ Hr Hs) as [Eu Hs'].
  unfold mbind, stM_bind, lift, ok_or_else, ok_or, on_peers, zoom.
  pose proof (peers_update peer_to_string p h _ Hr) as Hr'.
  destruct (update_peer_current_head peer_to_string p h (net_state n)) as [x m']. cbn in Eu, Hs', Hr'. subst x.
  intros E. apply (send_turn _ _ _ _ l) in E; [exact E|done|exact Hl].
Qed.
Lemma turn_forwards x n r n' l : net_ok n -> p2p_to_node n = Some l -> select_turn x n = (r, n') ->
  p2p_to_node n' = Some (l ++ forwarded x) /\ net_ok n'.
Proof.
  intros Hn Hl. destruct x as [[[[t|] m]|]|s e]; cbn [select_turn forwarded].
  - apply (quiet_turn (handle_send_message_to_peer t m)); [unfold handle_send_message_to_peer; auto 8 with net|done..].
  - apply (quiet_turn (handle_publish_message m)); auto with net.
  - apply (quiet_turn (mret tt)); auto with net.
  - destruct e as [| | | | | | |p q c|p m| |p a|p a [c|]|]; cbn [handle_swam_event];
      try solve [apply quiet_turn; [auto 8 with net|done..]].
    + exact (gossip_turn s _ _ n r n' l Hn Hl).
    + exact (send_turn _ n r n' l Hn Hl).
    + unfold modify. intros [= <- <-]. rewrite app_nil_r. split; [exact Hl|]. destruct Hn as [Hr Hs]. split; [now apply peers_address|done].
    + unfold mbind, stM_bind, modify, ignore, on_peers, zoom. cbn [set_swarm net_state swarm].
      destruct Hn as [Hr Hs]. pose proof (peers_remove peer_to_string p _ Hr) as Hr'. pose proof (remove_open p _ Hs) as Hs'.
      destruct (remove_peer peer_to_string p (net_state n)) as [[] m]; intros [= <- <-]; rewrite app_nil_r; done.
Qed.

(** C30 [network_forwards]: as long as the network runs, the node gets exactly the
    messages that peers gossip or answer and that can be read, in the order of the
    events, each once, except heads without a header; and the peer manager stays in
    the states for which its invariants are proved. *)
Theorem network_forwards xs n n' l :
  net_ok n -> p2p_to_node n = Some l -> net_run xs n = Some n' ->
  p2p_to_node n' = Some (l ++ flat_map forwarded xs) /\ net_ok n'.
Proof.
  revert n l. induction xs as [|x xs IH]; intros n l Hn Hl; cbn [net_run flat_map].
  - intros [= <-]. now rewrite app_nil_r.
  - unfold net_turn. destruct (select_turn x n) as [r n1] eqn:E. destruct (turn_forwards x n r n1 l Hn Hl E) as [Hl1 Hn1].
    destruct r; cbn; [..|discriminate]; intros Er; rewrite app_assoc; now apply (IH n1).
Qed.

(** ** What ends the thread *)

(** Nothing the turn calls panics or is unwrapped in vain. *)
Definition harmless (x : Select) (n : Network) : Prop :=
  match x with
  | FromNode (Some (Some t, _)) => exists p, peer_from_str t = Ok p
  | FromNode (Some (None, m)) => encode prost_PeerMessage (Some m) <> Panic
  | FromNode None => True
  | FromSwarm _ (GossipMessage _ data) => decode prost_PeerMessage data <> Panic
  | FromSwarm s (PeerRequest p q _) => handle_request get_blocks (net_state n) s p q <> Panic
  | _ => True
  end.
(** The operations of the swarm return, and every address can be dialled. *)
Class SwarmReturns : Prop := {
  dial_ok addr sw : (swarm_dial addr sw).1 = Ok tt;
  publish_returns t m sw : (gossipsub_publish t m sw).1 <> Panic;
  response_returns c m sw : (send_response c m sw).1 <> Panic
}.
Definition returns {A} (m : netM A) : Prop := forall n, (m n).1 <> Panic.
Lemma net_returns_bind {A B} (m : netM A) (f : A -> netM B) : returns m -> (forall a, returns (f a)) -> returns (m ≫= f).
Proof.
  intros Hm Hf n. unfold mbind, stM_bind. specialize (Hm n). destruct (m n) as [[a|e|] n1]; cbn in *; [apply Hf|done..].
Qed.
Lemma returns_ret {A} (a : A) : returns (mret a).
Proof. now intros n. Qed.
Lemma returns_gets : returns (gets (fun n => n)).
Proof. now intros n. Qed.
Lemma returns_modify f : returns (modify f).
Proof. now intros n. Qed.
Lemma returns_send m : returns (send_to_node m).
Proof. intros n. unfold send_to_node. now destruct (p2p_to_node n). Qed.
Lemma returns_disconnect p : returns (try_disconnect p).
Proof. intros n. unfold try_disconnect. now destruct (on_swarm _ n). Qed.
Lemma returns_update p h : returns (on_peers (update_peer_current_head peer_to_string p h)).
Proof.
  intros n. unfold on_peers, zoom.
  cbv [update_peer_current_head handle_new_peer_connected mbind stM_bind gets modify lift mret stM_ret ok_or_else ok_or].
  unfold Peers.send_local. repeat (case_match; cbn [fst]; try done; simplify_eq).
Qed.
Lemma returns_remove p : returns (ignore (on_peers (remove_peer peer_to_string p))).
Proof.
  intros n. unfold ignore, on_peers, zoom. cbv [remove_peer mbind stM_bind gets modify]. unfold Peers.send_local.
  repeat (case_match; cbn [fst]; try done; simplify_eq).
Qed.
Lemma returns_ok {A} (a : A) : returns (lift (Ok a)).
Proof. now intros n. Qed.
#[local] Hint Resolve returns_ok returns_ret returns_gets returns_modify returns_send returns_disconnect returns_update returns_remove : net.
#[local] Hint Extern 5 (returns (_ ≫= _)) => apply net_returns_bind; [|intros ?] : net.
#[local] Hint Extern 6 (returns (if _ then _ else _)) => case_match : net.
Lemma returns_dial addr : SwarmReturns -> returns (dial_unwrap addr) /\ returns (on_swarm (swarm_dial addr)).
Proof.
  intros Hs. split; intros n; unfold dial_unwrap, on_swarm, zoom; pose proof (dial_ok addr (swarm n)) as Hd;
    destruct (swarm_dial addr (swarm n)) as [r sw]; cbn in Hd; now rewrite Hd.
Qed.
Lemma returns_dials : SwarmReturns -> (forall l, returns (dial_all l)) /\ (forall l, returns (dial_addresses l)) /\ (forall l, returns (expire_all l)).
Proof.
  intros Hs. split; [|split]; intros l; (induction l as [|x l IH]; [apply returns_ret|]); try destruct x as [p a];
    cbn [dial_all dial_addresses expire_all]; repeat (apply net_returns_bind; [|intros ?]); try case_match; auto with net; now apply returns_dial.
Qed.

(** [network_survives]: when the calls to the swarm return and every address can
    be dialled, one turn ends the thread only if the text of a peer of the node is no
    peer, a codec panics, or answering a request does. *)
Theorem network_survives x n : SwarmReturns -> harmless x n -> exists n', net_turn x n = Some n'.
Proof.
  intros Hs Hx. destruct (returns_dials Hs) as (D1 & D2 & D3).
  assert ((select_turn x n).1 <> Panic) as Hr;
    [|unfold net_turn; destruct (select_turn x n) as [[| |] n']; eauto; done].
  destruct x as [[[[t|] m]|]|s e]; cbn [select_turn harmless] in *.
  - destruct Hx as [p Hp]. unfold handle_send_message_to_peer. now rewrite Hp.
  - unfold handle_publish_message. destruct (encode _ _) as [b|er|]; [|done..]. unfold ignore, on_swarm, zoom.
    pose proof (publish_returns (topic n) b (swarm n)). now destruct (gossipsub_publish _ _ _) as [[| |] ?].
  - done.
  - assert (returns (handle_swam_event s e) -> (handle_swam_event s e n).1 <> Panic) as Hret by (intros Hm; apply Hm).
    destruct e as [a|p data|p h|l|l|l|p nw l|p q c|p m| |p a|p a [c|]|]; cbn [handle_swam_event] in *; try solve [auto 8 with net].
    + unfold mbind at 1, stM_bind at 1, lift at 1. destruct (decode prost_PeerMessage data) as [[m|]|er|]; try done.
      apply (net_returns_bind (match m with
                           | CurrentHead block_header =>
                               h ← lift (ok_or_else block_header "invalid message");
                               on_peers (update_peer_current_head peer_to_string p h)
                           | _ => mret tt
                           end)); [|auto with net].
      destruct m as [|o | | | | | | |]; auto with net. apply net_returns_bind; [|auto with net]. now intros n1; destruct o.
    + unfold mbind, stM_bind, gets. destruct (handle_request _ _ _ _ _) as [[m|]|er|]; [|done..].
      unfold on_swarm, zoom. pose proof (response_returns c m (swarm n)). now destruct (send_response _ _ _) as [[| |] ?].
Qed.

(** [lower_peer_stops_network]: a peer whose head is not above the highest known
    one ends the network of a node with two messages: it announces its head, which is
    forwarded but not recorded, and then asks for the headers after a block the node
    does not have. *)
Theorem lower_peer_stops_network s data p h q hq from to c n :
  highest_know_head (net_state n) = Some q -> peer_state (net_state n) !! q = Some hq ->
  peer_state (net_state n) !! p = None -> level h <= level hq -> BS_get_block_by_hash s from = Ok None ->
  decode prost_PeerMessage data = Ok (Some (CurrentHead (Some h))) ->
  net_run [FromSwarm s (GossipMessage p data); FromSwarm s (PeerRequest p (GetBlockHeader from to) c)] n = None.
Proof.
  intros Hq Hqs Hp Hl Hb Hd. cbn [net_run].
  destruct (net_turn (FromSwarm s (GossipMessage p data)) n) as [n1|] eqn:E1; [|done]. cbn.
  assert (peer_state (net_state n1) !! p = None) as Hp1.
  { unfold net_turn in E1. cbn [select_turn handle_swam_event] in E1.
    unfold mbind, stM_bind, lift, ok_or_else, ok_or, on_peers, zoom in E1. rewrite Hd in E1.
    pose proof (update_cases peer_to_string p h (net_state n)) as U. cbv zeta in U.
    destruct (update_peer_current_head peer_to_string p h (net_state n)) as [x m]. cbn [snd] in U.
    assert (peer_state m = peer_state (net_state n)) as Em.
    { destruct U as [(_ & _ & [U|(q' & hq' & U & _ & Us & Lt)])|(U & _)]; [congruence| |exact U].
      assert (hq' = hq) as -> by congruence. lia. }
    destruct x; cbn in E1; try discriminate; [unfold send_to_node in E1; destruct (p2p_to_node _) in E1|];
      injection E1 as <-; cbn; now rewrite Em. }
  unfold net_turn. cbn [select_turn handle_swam_event]. unfold mbind, stM_bind, gets. cbn [handle_request]. rewrite Hb.
  unfold get_peer_state. now rewrite Hp1.
Qed.

(** ** Messages on a stream *)

(** The documented behaviour of the two functions: a message is read back if it is
    not longer than the bound, and reading fails otherwise. *)
Class LengthPrefixedLaws : Prop := {
  read_written b max : Z.of_nat (length b) <= max -> read_length_prefixed (write_length_prefixed b) max = Ok b;
  read_too_long b max : max < Z.of_nat (length b) -> read_length_prefixed (write_length_prefixed b) max = Err InvalidData
}.
Context `{!LengthPrefixedLaws}.

(** [message_delivered_iff]: a request or an answer that was written is read by the
    other side exactly when its encoding has at most a million bytes; a longer one,
    such as the answer to a request for many blocks, is written and then refused. *)
Theorem message_delivered_iff m b :
  encode prost_PeerMessage (Some m) = Ok b -> decode prost_PeerMessage b = Ok (Some m) -> b <> [] ->
  exists io, write_message m = Ok io /\
    (read_message io = Ok m <-> Z.of_nat (length b) <= 1000000) /\
    (1000000 < Z.of_nat (length b) -> read_message io = Err InvalidData).
Proof.
  intros He Hd Hb. unfold write_message. rewrite He. eexists. split; [reflexivity|]. unfold read_message, MAX_MESSAGE.
  destruct (Z.le_gt_cases (Z.of_nat (length b)) 1000000) as [Hle|Hgt].
  - rewrite read_written by done. cbn [mbind result_bind]. destruct b as [|x b]; [done|]. rewrite Hd. split; [done|lia].
  - rewrite read_too_long by lia. cbn [mbind result_bind]. split; [|done]. split; [done|lia].
Qed.
End Network.

(** ** The network evaluated *)

(** A swarm that only counts what it is asked for *)
#[local] Instance counting_swarm : SwarmOps Z unit unit nat := {|
  is_connected _ _ := false; swarm_dial _ n := (Ok tt, S n); disconnect_peer_id _ n := (Ok tt, S n);
  mdns_has_node _ _ := false; kad_get_closest_peers _ n := S n; kad_remove_peer _ n := S n; remove_explicit_peer _ n := S n;
  topic_hash t := t; gossipsub_publish _ _ n := (Ok tt, S n); send_request _ _ n := S n; send_response _ _ n := (Ok tt, S n);
  peer_from_str t := match t with [p] => Ok p | _ => Err "peer"%string end |}.
Lemma counting_returns : SwarmReturns (PeerId:=Z) (Multiaddr:=unit) (Channel:=unit) (Swarm:=nat).
Proof. split; done. Qed.
Definition example_messages : Codec (option Msg) := {|
  encode m := match m with Some (GetBlocks []) => Ok [2] | Some (CurrentHead _) => Ok [1] | _ => Err "message"%string end;
  decode b := match b with
              | [1] => Ok (Some (CurrentHead (Some (head_at 10))))
              | [2] => Ok (Some (GetBlocks []))
              | _ => Err "message"%string
              end |}.
Definition example_net : Network (PeerId:=Z) (Multiaddr:=unit) (Swarm:=nat) :=
  {| swarm := 0%nat; p2p_to_node := Some []; topic := lit "testnet"; net_state := NetworkState_new (Some []) |}.
Lemma example_net_ok : net_ok (fun _ => []) example_net.
Proof. split; [apply peers_new|done]. Qed.
Abbreviation example_run := (net_run (Channel:=unit) (fun _ => []) BS_get_blocks example_messages).

Definition example_events : list (Select (PeerId:=Z) (Multiaddr:=unit) (Channel:=unit)) :=
  [FromSwarm (MemStore_new column_family_names) (GossipMessage 1 [1]);
   FromSwarm (MemStore_new column_family_names) (MdnsDiscovered [(2, tt)]); FromNode (Some (Some [2], GetBlocks []));
   FromSwarm (MemStore_new column_family_names) (PeerResponse 2 (Blocks []));
   FromSwarm (MemStore_new column_family_names) (GossipMessage 1 [3])].
Lemma network_forwards_witness :
  exists n', example_run example_events example_net = Some n' /\
    p2p_to_node n' = Some [CurrentHead (Some (head_at 10)); Blocks []] /\ net_ok (fun _ => []) n'.
Proof.
  eexists. split; [vm_compute; reflexivity|].
  apply (network_forwards (fun _ => []) BS_get_blocks example_messages example_events example_net _ [] example_net_ok eq_refl).
  vm_compute. reflexivity.
Defined.
Lemma network_survives_witness :
  exists n', net_turn (Channel:=unit) (fun _ => []) BS_get_blocks example_messages (FromNode (Some (Some [2], GetBlocks []))) example_net = Some n'.
Proof.
  apply (network_survives (fun _ => []) BS_get_blocks example_messages (FromNode (Some (Some [2], GetBlocks []))) example_net counting_returns).
  now exists 2.
Defined.
Definition one_peer_net : Network (PeerId:=Z) (Multiaddr:=unit) (Swarm:=nat) := set_net_state one_peer example_net.
Lemma lower_peer_stops_network_witness :
  example_run [FromSwarm (MemStore_new column_family_names) (GossipMessage 2 [1]);
    FromSwarm (MemStore_new column_family_names) (PeerRequest 2 (GetBlockHeader (header_hash example_header) None) tt)] one_peer_net = None.
Proof.
  refine (lower_peer_stops_network (fun _ => []) BS_get_blocks example_messages (MemStore_new column_family_names) [1] 2 (head_at 10) 1 (head_at 10)
    (header_hash example_header) None tt one_peer_net _ _ _ _ _ _); [vm_compute; reflexivity..|cbn; lia|vm_compute; reflexivity|reflexivity].
Defined.

#[local] Instance example_prefix : LengthPrefixed := {|
  read_length_prefixed b max :=
    match b with
    | n :: b => if n <=? max then Ok (take (Z.to_nat n) b) else Err InvalidData
    | [] => Err UnexpectedEof
    end;
  write_length_prefixed b := Z.of_nat (length b) :: b |}.
#[local] Instance example_prefix_laws : LengthPrefixedLaws.
Proof.
  split; intros b max Hb; cbn.
  - rewrite (proj2 (Z.leb_le _ _)) by done. f_equal. rewrite Nat2Z.id. apply take_ge. done.
  - now rewrite (proj2 (Z.leb_gt _ _)).
Qed.
Lemma message_delivered_iff_witness :
  exists io, write_message example_messages (GetBlocks []) = Ok io /\
    (read_message example_messages io = Ok (GetBlocks []) <-> Z.of_nat (length [2]) <= 1000000) /\
    (1000000 < Z.of_nat (length [2]) -> read_message example_messages io = Err InvalidData).
Proof.
  apply (message_delivered_iff example_messages (GetBlocks []) [2]); [reflexivity|reflexivity|done].
Defined.
